(* ===== verification/_CoqProject ===== *)
-Q . S2P
Prelude.v
Text.v
Status.v
FrameHeader.v
FrameCodec.v
FrameStream.v
ServiceRegistry.v
BufferPool.v
ServerConfig.v
WorkerPool.v
ServerConnection.v
Socket.v
ConsulHttp.v
Naming.v
Consul.v
Routing.v
TcpTransport.v
TransportIo.v
MpscQueue.v
ConnectionIoLoop.v
ResultChannel.v
UringContext.v
UringResources.v
PostedCallbacks.v
Task.v
RpcServerImpl.v
RpcServer.v
RpcClient.v
ServedConnection.v
ServedLoop.v
Network.v
EndToEnd.v
