(* ===== verification/Prelude.v ===== *)
(** * xRPC: a verification development

    xRPC is an RPC framework in C++20 for Linux.  A client resolves a target to
    endpoints, keeps one multiplexed TCP connection per endpoint and sends
    requests in frames; a server accepts connections, distributes them over
    io_uring event loops, decodes requests, runs handlers on a worker pool and
    sends the responses back.  This development models the framework's own code
    under [src/] and [include/xrpc/] and proves what makes it correct.

    ** Conventions

    - [std::string] and [std::string_view] are lists of bytes; sizes and machine
      words are [Z], with the wrap-around of unsigned arithmetic written out
      ([+u], [-u], [*u]).
    - [Abort], failed assertions, [std::terminate] and undefined behaviour are the
      [None] of an [option]: that a call returns [Some _] is a theorem.
    - Exceptions and [Status] are values.  Definitions keep the names of the code,
      with the class in front where two classes share a name.
    - Single-threaded code is functions on explicit state; code that calls the
      kernel is in the monad [Sys] over a script of system-call results; code
      shared by threads is a relation whose steps are its atomic accesses and
      critical sections; coroutines are split at their suspension points.
    - Code of other projects is a parameter with named laws: the Protobuf metadata
      messages ([Wire], [WireLaws]), the JSON library ([Json]), [strerror] and
      [inet_pton], the kernel.  Each such parameter has an instance ([ExampleWire],
      [toy], scripts of results) with which witnesses evaluate the definitions.

    ** Files

    Values.
    - Prelude: byte strings, machine words, sums, closures, automation.
    - Text: printing and parsing of numbers, searching in strings.
    - Status: [include/xrpc/status.h], [common/xrpc_exception].

    Wire format.
    - FrameHeader: [protocol/frame_header], the 24-byte prefix on hosts of either
      byte order.
    - FrameCodec: [protocol/frame_codec], whole frames.
    - FrameStream: [server/rpc_frame_stream], frames cut out of a byte stream.

    Server.
    - ServiceRegistry: [server/service_registry] and the handlers built by
      [include/xrpc/rpc_server.h].
    - BufferPool: [io/uring/buffer_pool], leases of kernel-selected buffers.
    - ServerConfig: [server/server_config], [connection_config],
      [connection_backpressure].
    - WorkerPool: [server/worker_pool], all its threads interleaved.
    - ServerConnection: [server/server_connection], one connection with its read
      and write coroutines.
    - MpscQueue: [common/mpsc_queue.h], the lock-free queue.
    - ConnectionIoLoop: [server/connection_io_loop], the connections of one loop.
    - ResultChannel: the hand-over of worker results in the same source.
    - UringContext: [io/uring/context], operations, awaitables and the event loop.
    - UringResources: the kernel objects a context owns, its constructor and
      destructor.
    - PostedCallbacks: callbacks and wakeups across threads in the same source.
    - Task: [common/task.h], coroutine frames and who owns them.
    - RpcServerImpl: [server/rpc_server_impl], lifecycle, accept loop and shutdown,
      composed of the models of its parts.
    - RpcServer: [server/rpc_server.cpp] and the typed [RegisterMethod], the public
      interface, and statistics.

    Client and naming.
    - Socket: [io/socket], [io/system_error].
    - ConsulHttp, Consul: [naming/consul/consul_http_client],
      [consul_discovery], [consul_registrar].
    - Naming: [naming/service_discovery], [naming/static_discovery].
    - Routing: [client/rpc_client_impl], routing snapshots, hash ring, failover.
    - TcpTransport: [client/tcp_transport], callers and readers interleaved.
    - TransportIo: the loops around [send] and [recv] in the same source, as runs
      of the steps of TcpTransport.
    - RpcClient: [client/rpc_client.cpp], [include/xrpc/rpc_client.h], the public
      interface with its typed [Call].

    The whole.
    - ServedConnection: a server connection composed with the workers that execute
      its batches.
    - ServedLoop: all connections of an I/O loop composed with the workers.
    - Network: the transport of the client over connections that carry its bytes to
      connections of server loops, and their replies back.
    - EndToEnd: a call from the typed client through transport, server loop,
      worker and dispatch to the registered method and back.

    ** What is proved

    - A typed call returns what the method registered on the server computed for
      its request; a response never reaches another caller.  The client is proved
      against an interface that says its transports are runs of the transport model
      ([TransportRuns]), and such runs over connections to server loops bring back
      replies to the caller's own request.  Client and server have the same frame
      limits, fewer than [2^63] bytes are written on a connection, and no descriptor
      number is given to a new connection while a thread of the transport uses it:
      without the last condition there are runs that mix connections
      ([TcpTransport_stale_reader], [TcpTransport_split_frame]).
    - Every connection of a server loop replies to each request that arrives on it
      at most once, and exactly once while it stays active; the workers release
      exactly the requests in flight, which the proofs about the connection and the
      loop alone assume of them, and a drain ends when their work is done.
    - Encoding and decoding are inverse to each other; decoding is total, bounded,
      stable under more input, and independent of how a stream is cut.
    - The registry is write-once and dispatch answers every request.
    - Books balance: the worker pool's counters and limits, in-flight requests and
      pending bytes of a connection, the sums kept by a loop, buffer leases.
    - Nothing is lost or duplicated: response bytes, worker results, posted
      callbacks, admitted jobs, waiting client calls, queue items.  Where this
      depends on a step that the code leaves to luck, the counterexample is a
      theorem too ([DrainWorkerResults_lost_wakeup], [Post_dropped_at_stop],
      [TcpTransport_stale_reader], [TcpTransport_split_frame],
      [AcceptLoop_error_ends_server]).
    - Concurrent components refine simple specifications: the queue a bounded
      list, the channel that list, the byte stream the list of requests; the code
      around system calls refines the steps of the transport.
    - The io_uring context never reaches one of its abort checks and never lets
      the kernel write to freed memory, and is built completely or not at all; the
      socket uses open descriptors only.
    - Coroutine frames have one owner, are freed once and hand over their outcome,
      when everything runs on one thread; an owner on another thread can free a
      frame that is still read ([SyncWait_race]).
    - A server starts and stops in the documented order, and a [Run] that returns
      OK has executed every admitted job; the service is deregistered unless the
      deregistration was tried and failed, which [Run] does not report.
    - Client calls try each endpoint at most once and commit a request at most
      once; sticky routing is consistent hashing; discovery keeps the last good
      snapshot.

    ** Fuel

    Loops that are not structural take fuel, and a lemma shows that the fuel used
    is enough: decode loops by the buffered bytes, system-call loops by the length
    of the script ([repeat_fuel_enough]), the write coroutine by the queued
    batches, queue selection by the number of workers, the destruction of a chain
    of coroutines by the number of frames.  Event loops are step relations and
    need none.

    ** Not modelled

    - The link between Task and the coroutines of the other files, which are
      modelled split at their suspension points.
    - Counters that are only copied for tools, where nothing depends on them.
    - Weak memory, apart from the store buffer of ResultChannel: atomic accesses
      are sequentially consistent.
    - Time: deadlines and timeouts are choices of the environment.
    - Logging, the tools, examples and tests, generated and third-party code. *)

From Stdlib Require Export ZArith Lia Strings.Byte String.
From stdpp Require Export prelude gmap list strings.

#[global] Set Default Goal Selector "!".

(** ** Byte strings

    Every [std::string] and [std::string_view] of the code is a list of bytes. *)

#[global] Instance byte_eq_dec : EqDecision byte := Byte.byte_eq_dec.

#[global] Program Instance byte_countable : Countable byte :=
  inj_countable Byte.to_N Byte.of_N _.
Next Obligation. intros b. apply Byte.of_to_N. Qed.

Notation bytes := (list byte).

Definition bs (s : string) : bytes := list_byte_of_string s.

(** [size_t] of a byte string (or of any container). *)
Definition len {A} (l : list A) : Z := Z.of_nat (length l).

Definition Z_of_byte (b : byte) : Z := Z.of_N (Byte.to_N b).

Definition byte_of_Z (z : Z) : byte :=
  match Byte.of_N (Z.to_N (z mod 256)) with
  | Some b => b
  | None => "000"%byte
  end.

(** ** Process termination

    [xrpc::Abort], [std::terminate] and undefined behaviour end the process:
    a function that can reach them returns [option], with [None] for that
    outcome.  The theorems that a call returns [Some _] are the proofs that
    the process does not end there. *)
Definition Abort {A} (reason : string) : option A := None.

(** ** Machine words *)

Declare Scope word_scope.
Delimit Scope word_scope with word.
Local Open Scope Z_scope.

Definition wrap (w z : Z) : Z := z mod 2 ^ w.
Definition add64 (a b : Z) : Z := wrap 64 (a + b).
Definition sub64 (a b : Z) : Z := wrap 64 (a - b).
Definition mul64 (a b : Z) : Z := wrap 64 (a * b).

Infix "+u" := add64 (at level 50, left associativity) : word_scope.
Infix "-u" := sub64 (at level 50, left associativity) : word_scope.
Infix "*u" := mul64 (at level 40, left associativity) : word_scope.

(** [std::numeric_limits<...>::max()] *)
Definition INT_MAX : Z := 2 ^ 31 - 1.
Definition UINT32_MAX : Z := 2 ^ 32 - 1.
Definition SIZE_MAX : Z := 2 ^ 64 - 1.

Definition is_u (w z : Z) : Prop := 0 <= z < 2 ^ w.

Lemma is_u_wrap w z : 0 <= w -> is_u w (wrap w z).
Proof. intros. apply Z.mod_pos_bound. lia. Qed.

Lemma wrap_small w z : is_u w z -> wrap w z = z.
Proof. intros. by apply Z.mod_small. Qed.

Lemma add64_small a b : 0 <= a -> 0 <= b -> a + b < 2 ^ 64 -> add64 a b = a + b.
Proof. intros. apply wrap_small. red. lia. Qed.

Lemma sub64_small a b : 0 <= b <= a -> a < 2 ^ 64 -> sub64 a b = a - b.
Proof. intros. apply wrap_small. red. lia. Qed.

(** ** Bytes and integers *)

Lemma Z_of_byte_range b : 0 <= Z_of_byte b < 256.
Proof.
  unfold Z_of_byte. pose proof (Byte.to_N_bounded b). lia.
Qed.

Lemma byte_of_Z_of_byte b : byte_of_Z (Z_of_byte b) = b.
Proof.
  unfold byte_of_Z, Z_of_byte.
  pose proof (Byte.to_N_bounded b).
  rewrite Z.mod_small, N2Z.id, Byte.of_to_N by lia. done.
Qed.

Lemma Z_of_byte_of_Z z : Z_of_byte (byte_of_Z z) = z mod 256.
Proof.
  unfold byte_of_Z, Z_of_byte.
  pose proof (Z.mod_pos_bound z 256 ltac:(lia)).
  destruct (Byte.of_N (Z.to_N (z mod 256))) as [b|] eqn:E.
  - apply Byte.to_of_N in E. rewrite E. lia.
  - apply Byte.of_N_None_iff in E. lia.
Qed.

Lemma byte_of_Z_mod z : byte_of_Z (z mod 256) = byte_of_Z z.
Proof. unfold byte_of_Z. by rewrite Zmod_mod. Qed.

(** Big-endian (network) representation on [n] bytes. *)
Fixpoint be_encode (n : nat) (z : Z) : bytes :=
  match n with
  | O => []
  | S n => byte_of_Z (z / 256 ^ Z.of_nat n) :: be_encode n z
  end.

Fixpoint be_decode (l : bytes) : Z :=
  match l with
  | [] => 0
  | b :: l => Z_of_byte b * 256 ^ Z.of_nat (length l) + be_decode l
  end.

Lemma length_be_encode n z : length (be_encode n z) = n.
Proof. induction n; simpl; congruence. Qed.

Lemma be_decode_range l : 0 <= be_decode l < 256 ^ len l.
Proof.
  unfold len. induction l as [|b l IH]; simpl length; simpl be_decode.
  - simpl. lia.
  - rewrite Nat2Z.inj_succ, Z.pow_succ_r by lia.
    pose proof (Z_of_byte_range b).
    generalize dependent (256 ^ Z.of_nat (length l)). intros p ?. nia.
Qed.

Lemma be_decode_encode n z : be_decode (be_encode n z) = z mod 256 ^ Z.of_nat n.
Proof.
  induction n as [|n IH]; simpl be_encode; simpl be_decode.
  - by rewrite Z.mod_1_r.
  - rewrite length_be_encode, IH, Z_of_byte_of_Z, Nat2Z.inj_succ, Z.pow_succ_r by lia.
    pose proof (Z.pow_pos_nonneg 256 (Z.of_nat n) ltac:(lia) ltac:(lia)).
    rewrite (Z.mul_comm 256), Z.rem_mul_r by lia. lia.
Qed.

Lemma be_encode_add n z k :
  be_encode n (k * 256 ^ Z.of_nat n + z) = be_encode n z.
Proof.
  assert (forall m, (m <= n)%nat ->
    be_encode m (k * 256 ^ Z.of_nat n + z) = be_encode m z) as H; [|by apply H].
  induction m as [|m IH]; intros Hm; [done|]. simpl. f_equal; [|apply IH; lia].
  assert (Z.of_nat n = Z.of_nat (n - m - 1) + (1 + Z.of_nat m)) as -> by lia.
  rewrite !Z.pow_add_r, Z.pow_1_r by lia.
  pose proof (Z.pow_pos_nonneg 256 (Z.of_nat m) ltac:(lia) ltac:(lia)).
  rewrite (Z.mul_comm 256), !Z.mul_assoc, Z.add_comm.
  replace (k * 256 ^ Z.of_nat (n - m - 1) * 256 ^ Z.of_nat m * 256)
    with (k * 256 ^ Z.of_nat (n - m - 1) * 256 * 256 ^ Z.of_nat m) by lia.
  rewrite Z.div_add by lia.
  rewrite <- (byte_of_Z_mod (_ + _)), Z_mod_plus_full. apply byte_of_Z_mod.
Qed.

Lemma be_encode_decode l : be_encode (length l) (be_decode l) = l.
Proof.
  induction l as [|b l IH]; [done|]. simpl. f_equal.
  - pose proof (be_decode_range l). unfold len in *.
    rewrite Z.div_add_l, Z.div_small, Z.add_0_r by lia.
    apply byte_of_Z_of_byte.
  - by rewrite be_encode_add.
Qed.

Lemma be_decode_app l1 l2 :
  be_decode (l1 ++ l2) = be_decode l1 * 256 ^ len l2 + be_decode l2.
Proof.
  unfold len. induction l1 as [|b l1 IH]; [done|].
  simpl. rewrite IH, length_app, Nat2Z.inj_add, Z.pow_add_r by lia. lia.
Qed.

Lemma be_encode_app n m z :
  be_encode (n + m) z = be_encode n (z / 256 ^ Z.of_nat m) ++ be_encode m z.
Proof.
  induction n as [|n IH]; [done|]. simpl. f_equal; [|done].
  rewrite Z.div_div, <- Z.pow_add_r by (try apply Z.pow_pos_nonneg; lia).
  do 2 f_equal. f_equal. lia.
Qed.

Lemma be_encode_mod n z : be_encode n (z mod 256 ^ Z.of_nat n) = be_encode n z.
Proof.
  rewrite (Z.div_mod z (256 ^ Z.of_nat n)) at 2
    by (pose proof (Z.pow_pos_nonneg 256 (Z.of_nat n)); lia).
  rewrite Z.mul_comm. by rewrite be_encode_add.
Qed.

(** ** Lengths *)

Lemma len_nonneg {A} (l : list A) : 0 <= len l.
Proof. unfold len. lia. Qed.

Lemma len_nil {A} : len (@nil A) = 0.
Proof. done. Qed.

Lemma len_cons {A} (x : A) l : len (x :: l) = 1 + len l.
Proof. unfold len. simpl length. lia. Qed.

Lemma len_app {A} (l1 l2 : list A) : len (l1 ++ l2) = len l1 + len l2.
Proof. unfold len. rewrite length_app. lia. Qed.

Lemma len_be_encode n z : len (be_encode n z) = Z.of_nat n.
Proof. unfold len. by rewrite length_be_encode. Qed.

Lemma len_0_nil {A} (l : list A) : len l = 0 -> l = [].
Proof. destruct l; [done|]. rewrite len_cons. pose proof (len_nonneg l). lia. Qed.

Create HintDb len.
#[export] Hint Rewrite @len_nil @len_cons @len_app : len.

(** ** Sums over lists *)

Definition zsum {A} (f : A -> Z) (l : list A) : Z := foldr (fun x s => f x + s) 0 l.

Lemma zsum_app {A} (f : A -> Z) l1 l2 : zsum f (l1 ++ l2) = zsum f l1 + zsum f l2.
Proof. induction l1 as [|x l IH]; [done|]. simpl. unfold zsum in *. lia. Qed.

Lemma zsum_nonneg {A} (f : A -> Z) l : (forall x, x ∈ l -> 0 <= f x) -> 0 <= zsum f l.
Proof.
  induction l as [|x l IH]; intros H; [done|]. simpl.
  pose proof (H x ltac:(set_solver)). pose proof (IH ltac:(set_solver)). unfold zsum in *. lia.
Qed.

Lemma zsum_insert {A} (f : A -> Z) l i x y :
  l !! i = Some x -> zsum f (<[i := y]> l) = zsum f l - f x + f y.
Proof.
  revert i. induction l as [|z l IH]; intros [|i] H; try done; simpl in *.
  - injection H as ->. unfold zsum in *. simpl. lia.
  - apply IH in H. unfold zsum in *. simpl. lia.
Qed.

Lemma zsum_zero {A} (f : A -> Z) (l : list A) : (forall x, x ∈ l -> f x = 0) -> zsum f l = 0.
Proof.
  intros H. unfold zsum. induction l as [|x l IH]; [done|]. simpl. rewrite H by (left; done).
  rewrite IH; [done|]. intros y Hy. apply H. by right.
Qed.

Lemma zsum_replicate_zero {A} (f : A -> Z) n x : f x = 0 -> zsum f (replicate n x) = 0.
Proof. intros H. unfold zsum. induction n as [|n IH]; simpl; lia. Qed.

Lemma zsum_pos {A} (f : A -> Z) (l : list A) : 0 < zsum f l -> exists x, x ∈ l /\ 0 < f x.
Proof.
  unfold zsum. induction l as [|x l IH]; simpl; [lia|]. intros H. destruct (decide (0 < f x)) as [Hx|Hx].
  - exists x. split; [left|done].
  - destruct IH as (y & Hy & Hfy); [lia|]. exists y. split; [by right|done].
Qed.

Lemma zsum_perm {A} (f : A -> Z) l1 l2 : l1 ≡ₚ l2 -> zsum f l1 = zsum f l2.
Proof. unfold zsum. induction 1; simpl; lia. Qed.

Lemma zsum_elem {A} (f : A -> Z) l i x :
  (forall y, y ∈ l -> 0 <= f y) -> l !! i = Some x -> f x <= zsum f l.
Proof.
  revert i. induction l as [|z l IH]; intros [|i] Hpos H; try done; simpl in *.
  - injection H as ->. pose proof (zsum_nonneg f l ltac:(set_solver)). unfold zsum in *. lia.
  - pose proof (Hpos z ltac:(set_solver)). apply IH in H; [|set_solver]. unfold zsum in *. lia.
Qed.

(** [std::string_view::substr(pos, n)] on offsets inside the view. *)
Definition substr (l : bytes) (pos n : Z) : bytes :=
  take (Z.to_nat n) (drop (Z.to_nat pos) l).

Lemma len_substr l pos n :
  0 <= pos -> 0 <= n -> pos + n <= len l -> len (substr l pos n) = n.
Proof.
  unfold len, substr. intros. rewrite length_take, length_drop. lia.
Qed.

Lemma substr_app_l l l' pos n :
  0 <= pos -> 0 <= n -> pos + n <= len l -> substr (l ++ l') pos n = substr l pos n.
Proof.
  unfold len, substr. intros.
  rewrite drop_app, take_app, length_drop.
  replace (Z.to_nat n - (length l - Z.to_nat pos))%nat with O by lia.
  by rewrite take_0, app_nil_r.
Qed.

Lemma substr_skip l l' pos n :
  0 <= n -> len l = pos -> substr (l ++ l') pos n = substr l' 0 n.
Proof.
  unfold len, substr. intros ? <-. rewrite Nat2Z.id, drop_app_length. done.
Qed.

Lemma substr_all l l' n : n = len l -> substr (l ++ l') 0 n = l.
Proof.
  unfold len, substr. intros ->. simpl.
  by rewrite Nat2Z.id, drop_0, take_app_length.
Qed.

(** [memcpy(dst + off, src, src.size())]: writing outside [dst] is undefined. *)
Definition memcpy (dst : bytes) (off : Z) (src : bytes) : option bytes :=
  if bool_decide (0 <= off /\ off + len src <= len dst)
  then Some (take (Z.to_nat off) dst ++ src ++ drop (Z.to_nat off + length src) dst)
  else Abort "memcpy outside the destination buffer".

(** Consecutive writes fill the buffer from the left. *)
Lemma memcpy_next pre old src off :
  off = len pre -> (length src <= length old)%nat ->
  memcpy (pre ++ old) off src = Some ((pre ++ src) ++ drop (length src) old).
Proof.
  intros -> Hlen. unfold memcpy.
  rewrite bool_decide_true by (rewrite !len_app; unfold len; lia).
  unfold len. rewrite Nat2Z.id, take_app_length.
  by rewrite <- drop_drop, drop_app_length, app_assoc.
Qed.

Lemma memcpy_bounds dst off src dst' :
  memcpy dst off src = Some dst' -> len dst' = len dst /\ off + len src <= len dst.
Proof.
  unfold memcpy. case_bool_decide; [|done]. intros [= <-].
  unfold len in *. rewrite !length_app, length_take, length_drop. lia.
Qed.

(** ** Proof automation *)

(** Split a boolean test of the code into the fact it decides. *)
Ltac case_test :=
  match goal with
  | |- context [if bool_decide ?P then _ else _] => case_bool_decide
  | |- context [if ?b then _ else _] => destruct b eqn:?
  end.

Ltac simpl_len := autorewrite with len in *.

Create HintDb xrpc.

#[global] Arguments be_encode : simpl never.
#[global] Arguments be_decode : simpl never.
#[global] Arguments substr : simpl never.
#[global] Arguments len : simpl never.

(** ** Runs of a step relation *)

(** A property that every step keeps holds at the end of every run. *)
Lemma rtc_preserves {A} (R : relation A) (P : A -> Prop) x y :
  (forall u v, P u -> R u v -> P v) -> P x -> rtc R x y -> P y.
Proof. intros Hstep Hx Hr. induction Hr; eauto. Qed.
