(* ===== verification/Text.v ===== *)
(** * Text primitives

    The parts of the C++ standard library the naming code uses on text:
    [std::isspace], [std::tolower], [find] and [rfind] of [std::string_view],
    [std::to_string] and [std::from_chars], with their round trips, and the
    function [Trim] that three source files define in the same way. *)

From S2P Require Import Prelude.

Local Open Scope Z_scope.

(** ** Characters (the "C" locale) *)

Definition isspace (b : byte) : bool :=
  let c := Z_of_byte b in ((9 <=? c) && (c <=? 13)) || (c =? 32).

Definition tolower (b : byte) : byte :=
  let c := Z_of_byte b in if (65 <=? c) && (c <=? 90) then byte_of_Z (c + 32) else b.

Definition ToLower (s : bytes) : bytes := map tolower s.

(** ** [Trim] *)

Fixpoint trim_front (value : bytes) : bytes :=
  match value with
  | b :: rest => if isspace b then trim_front rest else value
  | [] => []
  end.

Definition Trim (value : bytes) : bytes := reverse (trim_front (reverse (trim_front value))).

(** ** Searching; [None] is [npos] *)

Fixpoint find_byte (c : byte) (s : bytes) : option Z :=
  match s with
  | [] => None
  | b :: s => if decide (b = c) then Some 0 else Z.succ <$> find_byte c s
  end.

Definition rfind_byte (c : byte) (s : bytes) : option Z :=
  (fun i => len s - 1 - i) <$> find_byte c (reverse s).

Definition starts_with (s prefix : bytes) : bool := bool_decide (take (length prefix) s = prefix).

Fixpoint find_sub (pat s : bytes) : option Z :=
  if starts_with s pat then Some 0 else
  match s with
  | [] => None
  | _ :: s => Z.succ <$> find_sub pat s
  end.

(** [find(pat, pos)] *)
Definition find_sub_from (pat s : bytes) (pos : Z) : option Z :=
  Z.add pos <$> find_sub pat (drop (Z.to_nat pos) s).

(** ** Numbers *)

Definition digit_char (d : Z) : byte := byte_of_Z (if d <? 10 then 48 + d else 87 + d).

Definition digit_value (b : byte) : option Z :=
  let c := Z_of_byte b in
  if (48 <=? c) && (c <=? 57) then Some (c - 48) else
  if (97 <=? c) && (c <=? 122) then Some (c - 87) else
  if (65 <=? c) && (c <=? 90) then Some (c - 55) else None.

Fixpoint to_digits (fuel : nat) (base n : Z) : bytes :=
  match fuel with
  | O => []
  | S fuel =>
      if n <? base then [digit_char n]
      else to_digits fuel base (n / base) ++ [digit_char (n mod base)]
  end.

(** The digits of a non-negative number, most significant first. *)
Definition to_chars (base n : Z) : bytes := to_digits (S (Z.to_nat (Z.log2 n))) base n.

Definition to_string (n : Z) : bytes :=
  if n <? 0 then bs "-" ++ to_chars 10 (- n) else to_chars 10 n.

Inductive errc := errc_none | invalid_argument | result_out_of_range.

#[global] Instance errc_eq_dec : EqDecision errc.
Proof. solve_decision. Defined.

(** The longest prefix of digits: its value and the rest. *)
Fixpoint read_digits (base acc : Z) (s : bytes) : Z * bytes :=
  match s with
  | [] => (acc, [])
  | b :: rest =>
      match digit_value b with
      | Some d => if d <? base then read_digits base (acc * base + d) rest else (acc, s)
      | None => (acc, s)
      end
  end.

(** [std::from_chars] into an integer type with the range [lo .. hi]: the error,
    the characters after [ptr], and the value stored (only without error).  A
    minus sign is part of the number for signed types alone. *)
Definition from_chars (base lo hi : Z) (s : bytes) : errc * bytes * Z :=
  let '(neg, body) :=
    match s with
    | b :: rest => if (lo <? 0) && bool_decide (b = "-"%byte) then (true, rest) else (false, s)
    | [] => (false, s)
    end in
  let '(v, rest) := read_digits base 0 body in
  if bool_decide (length rest = length body) then (invalid_argument, s, 0) else
  let v := if neg : bool then - v else v in
  if (lo <=? v) && (v <=? hi) then (errc_none, rest, v) else (result_out_of_range, rest, 0).

Definition INT_MIN : Z := - 2 ^ 31.

(** ** Lemmas *)

Lemma digit_value_char base d : 0 <= d < base -> base <= 16 -> digit_value (digit_char d) = Some d.
Proof.
  intros Hd Hb. unfold digit_value, digit_char. rewrite Z_of_byte_of_Z.
  destruct (d <? 10) eqn:E; rewrite Z.mod_small by lia.
  - rewrite (proj2 (andb_true_iff _ _)) by lia. f_equal. lia.
  - replace ((48 <=? 87 + d) && (87 + d <=? 57)) with false by lia.
    rewrite (proj2 (andb_true_iff _ _)) by lia. f_equal. lia.
Qed.

(** A string that starts with no digit of the base. *)
Definition no_digit (base : Z) (s : bytes) : Prop :=
  match s with [] => True | b :: _ => forall d, digit_value b = Some d -> base <= d end.

Lemma read_digits_stop base acc s : no_digit base s -> read_digits base acc s = (acc, s).
Proof.
  destruct s as [|b s]; [done|]. simpl. intros H. destruct (digit_value b) as [d|] eqn:E; [|done].
  rewrite (proj2 (Z.ltb_ge _ _)); [done|]. by apply H.
Qed.

Lemma to_digits_read fuel base n :
  2 <= base <= 16 -> 0 <= n < 2 ^ Z.of_nat fuel -> (0 < fuel)%nat ->
  to_digits fuel base n <> [] /\
  exists k, 0 < k /\ forall acc s, read_digits base acc (to_digits fuel base n ++ s) =
            read_digits base (acc * k + n) s.
Proof.
  intros Hb. revert n. induction fuel as [|fuel IH]; intros n Hn Hf; [lia|]. simpl.
  assert (Hdig : forall acc d s, 0 <= d < base -> read_digits base acc (digit_char d :: s) =
                                 read_digits base (acc * base + d) s).
  { intros acc d s Hd. simpl. rewrite (digit_value_char base) by lia.
    by rewrite (proj2 (Z.ltb_lt _ _)) by lia. }
  destruct (n <? base) eqn:E.
  - split; [done|]. exists base. split; [lia|]. intros acc s. simpl app. apply Hdig. lia.
  - assert (Hq : 0 <= n / base < 2 ^ Z.of_nat fuel).
    { split; [apply Z.div_pos; lia|]. apply Z.div_lt_upper_bound; [lia|].
      rewrite Nat2Z.inj_succ, Z.pow_succ_r in Hn by lia.
      pose proof (Z.pow_pos_nonneg 2 (Z.of_nat fuel)). nia. }
    assert (Hf' : (0 < fuel)%nat).
    { destruct fuel; [|lia]. simpl in Hq. assert (0 < n / base) by (apply Z.div_str_pos; lia). lia. }
    destruct (IH _ Hq Hf') as [_ (k & Hk & Hr)].
    split; [intros H; by apply app_eq_nil in H as [_ H]|].
    exists (k * base). split; [nia|]. intros acc s.
    rewrite <- app_assoc, Hr. simpl app. rewrite Hdig by (apply Z.mod_pos_bound; lia).
    f_equal. rewrite (Z.div_mod n base) at 3 by lia. ring.
Qed.

Lemma to_chars_read base n :
  2 <= base <= 16 -> 0 <= n ->
  to_chars base n <> [] /\
  exists k, 0 < k /\ forall acc s, read_digits base acc (to_chars base n ++ s) =
            read_digits base (acc * k + n) s.
Proof.
  intros Hb Hn. apply to_digits_read; [lia| |lia]. split; [done|].
  rewrite Nat2Z.inj_succ, Z2Nat.id by apply Z.log2_nonneg.
  destruct (decide (n = 0)) as [->|]; [done|]. apply Z.log2_spec. lia.
Qed.

Lemma to_digits_first fuel base n c s :
  2 <= base <= 16 -> 0 <= n -> to_digits fuel base n = c :: s -> exists d, 0 <= d < base /\ c = digit_char d.
Proof.
  intros Hb. revert n s. induction fuel as [|fuel IH]; intros n s Hn; [done|]. simpl.
  destruct (n <? base) eqn:E; [intros [= <- <-]; exists n; split; [lia|done]|].
  assert (0 <= n / base) by (apply Z.div_pos; lia).
  destruct (to_digits fuel base (n / base)) as [|c' s'] eqn:Ed.
  - intros [= <- <-]. exists (n mod base). split; [apply Z.mod_pos_bound; lia|done].
  - intros [= <- <-]. eauto.
Qed.

(** Printing a number and reading it back, up to a following non-digit. *)
Lemma from_to_chars base lo hi n s :
  2 <= base <= 16 -> 0 <= n -> lo <= n <= hi -> no_digit base s ->
  from_chars base lo hi (to_chars base n ++ s) = (errc_none, s, n).
Proof.
  intros Hb Hn Hr Hs. destruct (to_chars_read base n Hb Hn) as [Hne (k & Hk & Hread)].
  specialize (Hread 0 s). rewrite (read_digits_stop _ _ s Hs) in Hread.
  destruct (to_chars base n) as [|c t] eqn:E; [done|].
  unfold from_chars. cbn [app]. cbv beta iota zeta. rewrite bool_decide_false.
  2: { intros ->.
       apply to_digits_first in E as (d & Hd & E); [|done..].
       pose proof (digit_value_char base d Hd ltac:(lia)) as Hv. rewrite <- E in Hv. discriminate. }
  rewrite andb_false_r. cbn [app] in Hread. rewrite Hread.
  rewrite bool_decide_false by (simpl; rewrite length_app; lia). simpl.
  by rewrite (proj2 (andb_true_iff _ _)) by lia.
Qed.

(** *** Trimming *)

Definition spaces (s : bytes) : Prop := Forall (fun b => isspace b = true) s.

Definition starts_tight (s : bytes) : Prop :=
  match s with [] => True | b :: _ => isspace b = false end.

(** No white space at either end. *)
Definition tight (s : bytes) : Prop := starts_tight s /\ starts_tight (reverse s).

Lemma trim_front_pad l s : spaces l -> starts_tight s -> trim_front (l ++ s) = s.
Proof.
  intros Hl Hs. induction Hl as [|b l Hb _ IH]; simpl; [|by rewrite Hb].
  destruct s as [|b s]; simpl in *; [done|by rewrite Hs].
Qed.

Lemma spaces_reverse s : spaces s -> spaces (reverse s).
Proof. unfold spaces. by rewrite Forall_reverse. Qed.

Lemma Trim_pad l s r : spaces l -> spaces r -> tight s -> Trim (l ++ s ++ r) = s.
Proof.
  intros Hl Hr [Hs Hs']. unfold Trim. destruct s as [|b s].
  - simpl. replace (l ++ r) with ((l ++ r) ++ []) by apply app_nil_r.
    rewrite trim_front_pad; [done|by apply Forall_app|done].
  - rewrite trim_front_pad by done. rewrite reverse_app, trim_front_pad by auto using spaces_reverse.
    apply reverse_involutive.
Qed.

Lemma Trim_tight s : tight s -> Trim s = s.
Proof. intros H. rewrite <- (app_nil_r s) at 1. apply (Trim_pad [] s []); [constructor|constructor|done]. Qed.

Lemma trim_front_starts s : starts_tight (trim_front s).
Proof. induction s as [|b s IH]; simpl; [done|]. by destruct (isspace b) eqn:E. Qed.

Lemma trim_front_suffix s : exists l, s = l ++ trim_front s /\ spaces l.
Proof.
  assert (H0 : spaces []) by constructor.
  induction s as [|b s (l & Hs & Hl)]; [by exists []|]. simpl.
  destruct (isspace b) eqn:E; [|by exists []].
  exists (b :: l). simpl. split; [by f_equal|by constructor].
Qed.

(** The shape of every string: white space around its trimmed part. *)
Lemma Trim_split s : tight (Trim s) /\ exists l r, s = l ++ Trim s ++ r /\ spaces l /\ spaces r.
Proof.
  destruct (trim_front_suffix s) as (l & Hs & Hl).
  destruct (trim_front_suffix (reverse (trim_front s))) as (r & Hr & Hsp).
  assert (Hf : trim_front s = Trim s ++ reverse r).
  { unfold Trim. rewrite <- (reverse_involutive (trim_front s)), Hr at 1. apply reverse_app. }
  split; [|exists l, (reverse r); split; [by rewrite <- Hf|split; [done|by apply spaces_reverse]]].
  split; [|unfold Trim; rewrite reverse_involutive; apply trim_front_starts].
  pose proof (trim_front_starts s) as Ht. rewrite Hf in Ht. by destruct (Trim s).
Qed.

(** *** Searching *)

Lemma find_byte_None c s : c ∉ s -> find_byte c s = None.
Proof.
  induction s as [|b s IH]; [done|]. intros H. simpl.
  rewrite decide_False by set_solver. by rewrite IH by set_solver.
Qed.

Lemma find_byte_app c s t : c ∉ s -> find_byte c (s ++ c :: t) = Some (len s).
Proof.
  induction s as [|b s IH]; intros H; simpl.
  - by rewrite decide_True.
  - rewrite decide_False by set_solver. rewrite IH by set_solver. simpl. f_equal.
    unfold len. simpl. lia.
Qed.

Lemma find_byte_Some c s i :
  find_byte c s = Some i ->
  exists l r, s = l ++ c :: r /\ c ∉ l /\ i = len l.
Proof.
  revert i. induction s as [|b s IH]; intros i H; simpl in H; [done|].
  destruct (decide (b = c)) as [->|Hb].
  - injection H as <-. exists [], s. split_and!; [done|set_solver|done].
  - destruct (find_byte c s) as [j|] eqn:E; [|done]. injection H as <-.
    destruct (IH j eq_refl) as (l & r & -> & Hl & ->). exists (b :: l), r.
    split_and!; [done|set_solver|unfold len; simpl; lia].
Qed.

Lemma find_byte_None_inv c s : find_byte c s = None -> c ∉ s.
Proof.
  intros H Hin. apply list_elem_of_split in Hin as (l & r & ->).
  destruct (decide (c ∈ l)) as [Hl|Hl]; [|by rewrite find_byte_app in H].
  clear -H Hl. induction l as [|b l IH]; [set_solver|]. simpl in H.
  destruct (decide (b = c)); [done|]. destruct (find_byte c (l ++ c :: r)); [done|].
  apply IH; [done|]. set_solver.
Qed.

Lemma rfind_byte_app c s t : c ∉ t -> rfind_byte c (s ++ c :: t) = Some (len s).
Proof.
  intros H. unfold rfind_byte. rewrite reverse_app, reverse_cons, <- app_assoc. simpl.
  rewrite find_byte_app by (by rewrite elem_of_reverse). simpl. f_equal.
  unfold len. rewrite length_reverse, length_app. simpl. lia.
Qed.

Lemma rfind_byte_Some c s i :
  rfind_byte c s = Some i -> exists l r, s = l ++ c :: r /\ c ∉ r /\ i = len l.
Proof.
  unfold rfind_byte. destruct (find_byte c (reverse s)) as [j|] eqn:E; [|done].
  intros [= <-]. apply find_byte_Some in E as (l & r & E & Hl & ->).
  apply (f_equal reverse) in E. rewrite reverse_involutive, reverse_app, reverse_cons in E.
  exists (reverse r), (reverse l). rewrite E, <- app_assoc. simpl.
  split_and!; [done|by rewrite elem_of_reverse|].
  unfold len. rewrite length_app. simpl. rewrite !length_reverse. lia.
Qed.

Lemma starts_with_app p s : starts_with (p ++ s) p = true.
Proof. unfold starts_with. apply bool_decide_eq_true. apply take_app_length. Qed.

(** A pattern that starts with a byte the text does not have. *)
Lemma find_sub_app c pat s t :
  c ∉ s -> find_sub (c :: pat) (s ++ (c :: pat) ++ t) = Some (len s).
Proof.
  induction s as [|b s IH]; intros H.
  - change ([] ++ (c :: pat) ++ t) with ((c :: pat) ++ t).
    replace (find_sub (c :: pat) ((c :: pat) ++ t)) with
      (if starts_with ((c :: pat) ++ t) (c :: pat) then Some 0 else
       Z.succ <$> find_sub (c :: pat) (pat ++ t)) by done.
    by rewrite starts_with_app.
  - simpl. unfold starts_with at 1. rewrite bool_decide_false.
    2: { simpl. intros [= -> _]. set_solver. }
    simpl in IH. rewrite IH by set_solver. simpl. f_equal. unfold len. simpl. lia.
Qed.

Lemma find_sub_None c pat s : c ∉ s -> find_sub (c :: pat) s = None.
Proof.
  induction s as [|b s IH]; intros H; [done|]. simpl.
  unfold starts_with. rewrite bool_decide_false.
  - by rewrite IH by set_solver.
  - simpl. intros [= -> _]. set_solver.
Qed.

#[global] Arguments to_chars : simpl never.
#[global] Arguments from_chars : simpl never.
#[global] Arguments Trim : simpl never.

(** *** The characters of a printed number *)

Lemma to_digits_elem fuel base n c :
  2 <= base <= 16 -> 0 <= n -> c ∈ to_digits fuel base n -> exists d, 0 <= d < base /\ c = digit_char d.
Proof.
  intros Hb. revert n. induction fuel as [|fuel IH]; intros n Hn; simpl; [set_solver|].
  destruct (n <? base) eqn:E.
  - intros ->%list_elem_of_singleton. exists n. split; [lia|done].
  - intros [H|H%list_elem_of_singleton]%elem_of_app.
    + apply (IH (n / base)); [apply Z.div_pos; lia|done].
    + exists (n mod base). split; [apply Z.mod_pos_bound; lia|done].
Qed.

Lemma to_chars_no_char base n c :
  2 <= base <= 16 -> 0 <= n -> digit_value c = None -> c ∉ to_chars base n.
Proof.
  intros Hb Hn Hc H. apply to_digits_elem in H as (d & Hd & ->); [|done..].
  by rewrite (digit_value_char base) in Hc by lia.
Qed.

Lemma isspace_digit_value b : isspace b = true -> digit_value b = None.
Proof.
  unfold isspace, digit_value. intros H.
  apply orb_true_iff in H. rewrite andb_true_iff in H.
  pose proof (Z_of_byte_range b). repeat (case_test; [lia|]). done.
Qed.

Lemma tight_no_space s : (forall b, b ∈ s -> isspace b = false) -> tight s.
Proof.
  intros H. split.
  - destruct s; [done|]. apply H. left.
  - destruct (reverse s) as [|b t] eqn:E; [done|]. apply H.
    rewrite <- elem_of_reverse, E. left.
Qed.

Lemma tight_to_chars base n : 2 <= base <= 16 -> 0 <= n -> tight (to_chars base n).
Proof.
  intros Hb Hn. apply tight_no_space. intros b Hin.
  destruct (isspace b) eqn:E; [|done]. apply isspace_digit_value in E.
  by apply (to_chars_no_char base n b) in E.
Qed.
