(* ===== verification/Status.v ===== *)
(** * Status values and exception translation

    Models [include/xrpc/status.h] and [src/common/xrpc_exception.{h,cpp}]:
    the status codes with their wire values, [Status], [StatusOr<T>] and the
    conversion of the exception being handled into a [Status]. *)

From S2P Require Import Prelude.

Local Open Scope Z_scope.

(** ** [enum class StatusCode : std::uint8_t] *)
Inductive StatusCode :=
  | Ok
  | InvalidArgument
  | DeadlineExceeded
  | NotFound
  | ResourceExhausted
  | FailedPrecondition
  | Unimplemented
  | Internal
  | Unavailable
  | DataLoss.

#[global] Instance StatusCode_eq_dec : EqDecision StatusCode.
Proof. solve_decision. Defined.

(** [static_cast<std::int32_t>(code)]: the numeric values of the enum. *)
Definition StatusCode_value (c : StatusCode) : Z :=
  match c with
  | Ok => 0
  | InvalidArgument => 2
  | DeadlineExceeded => 3
  | NotFound => 4
  | ResourceExhausted => 7
  | FailedPrecondition => 8
  | Unimplemented => 9
  | Internal => 10
  | Unavailable => 11
  | DataLoss => 12
  end.

Definition all_codes : list StatusCode :=
  [Ok; InvalidArgument; DeadlineExceeded; NotFound; ResourceExhausted;
   FailedPrecondition; Unimplemented; Internal; Unavailable; DataLoss].

Lemma elem_of_all_codes c : c ∈ all_codes.
Proof. destruct c; set_solver. Qed.

#[global] Instance StatusCode_value_inj : Inj (=) (=) StatusCode_value.
Proof. intros [] []; simpl; congruence. Qed.

(** ** [class Status] *)
Record Status := MkStatus {
  code_ : StatusCode;
  message_ : bytes
}.

#[global] Instance Status_eq_dec : EqDecision Status.
Proof. solve_decision. Defined.

(** [Status(code, "literal")] *)
Definition status (c : StatusCode) (m : string) : Status := MkStatus c (bs m).

(** [Status::Ok()] *)
Definition Status_Ok : Status := MkStatus Ok [].

Definition Status_ok (st : Status) : bool := bool_decide (code_ st = Ok).

Lemma Status_ok_iff st : Status_ok st = true <-> code_ st = Ok.
Proof. unfold Status_ok. apply bool_decide_eq_true. Qed.

Lemma Status_ok_false st : Status_ok st = false <-> code_ st <> Ok.
Proof. unfold Status_ok. apply bool_decide_eq_false. Qed.

(** ** [class StatusOr<T>]

    A pair of a status and an optional value.  The two constructors of the
    class are [StatusOr_value] and [StatusOr_error]; the second one terminates
    the process when the status is OK. *)
Record StatusOr (T : Type) := MkStatusOr {
  so_status_ : Status;
  so_value_ : option T
}.
Arguments MkStatusOr {T} _ _.
Arguments so_status_ {T} _.
Arguments so_value_ {T} _.

Definition StatusOr_value {T} (v : T) : StatusOr T := MkStatusOr Status_Ok (Some v).

Definition StatusOr_error {T} (st : Status) : option (StatusOr T) :=
  if Status_ok st then Abort "OK status without a value" else Some (MkStatusOr st None).

(** The error constructor applied to a status literal: the code written in the
    source is never [Ok], so the check of [StatusOr_error] passes. *)
Definition StatusOr_fail {T} (c : StatusCode) (m : string) : StatusOr T :=
  MkStatusOr (status c m) None.

Definition StatusOr_ok {T} (r : StatusOr T) : bool := Status_ok (so_status_ r).

(** [value()]: terminates unless a value is present. *)
Definition StatusOr_get {T} (r : StatusOr T) : option T := so_value_ r.

(** What the constructors establish: [ok()] exactly when a value is held. *)
Definition StatusOr_wf {T} (r : StatusOr T) : Prop :=
  StatusOr_ok r = true <-> is_Some (so_value_ r).

Lemma StatusOr_value_wf {T} (v : T) : StatusOr_wf (StatusOr_value v).
Proof. split; [eauto|done]. Qed.

Lemma StatusOr_error_Some {T} st (r : StatusOr T) :
  StatusOr_error st = Some r <-> code_ st <> Ok /\ r = MkStatusOr st None.
Proof.
  unfold StatusOr_error, Status_ok. case_bool_decide; naive_solver.
Qed.

Lemma StatusOr_fail_error {T} c m :
  c <> Ok -> StatusOr_error (T:=T) (status c m) = Some (StatusOr_fail c m).
Proof. intros. by apply StatusOr_error_Some. Qed.

Lemma StatusOr_fail_not_ok {T} c m : c <> Ok -> StatusOr_ok (T:=T) (StatusOr_fail c m) = false.
Proof. intros. by apply Status_ok_false. Qed.

(** ** Exceptions

    The exception hierarchy seen by [CaughtExceptionToStatus]: an
    [XrpcException] carries a status code, the other cases are the standard
    exceptions the translator distinguishes and anything else. *)
Inductive exn :=
  | XrpcException (c : StatusCode) (what : bytes)
  | BadAlloc
  | StdInvalidArgument (what : bytes)
  | StdException (what : bytes)
  | NonStandard.

Definition ConfigException (m : bytes) : exn := XrpcException InvalidArgument m.
Definition LifecycleException (m : bytes) : exn := XrpcException FailedPrecondition m.
Definition InternalException (m : bytes) : exn := XrpcException Internal m.
Definition ProtocolException (m : bytes) : exn := XrpcException DataLoss m.
Definition TransportException (m : bytes) : exn := XrpcException Unavailable m.

(** [what()] is a C string: it ends at the first NUL of the message. *)
Fixpoint c_str (message : bytes) : bytes :=
  match message with
  | [] => []
  | b :: message => if bool_decide (b = Byte.x00) then [] else b :: c_str message
  end.

(** [XrpcException::status()] *)
Definition XrpcException_status (c : StatusCode) (message : bytes) : Status := MkStatus c (c_str message).

(** [CaughtExceptionToStatus(code, message)]; [None] is "no exception is being
    handled". *)
Definition CaughtExceptionToStatus_code (code : StatusCode) (message : bytes)
    (current : option exn) : Status :=
  match current with
  | None => status Internal "no active exception"
  | Some (XrpcException c what) => XrpcException_status c what
  | Some BadAlloc => status ResourceExhausted "memory allocation failed"
  | Some (StdInvalidArgument what) => MkStatus InvalidArgument (c_str what)
  | Some (StdException what) => MkStatus Internal (c_str what)
  | Some NonStandard => MkStatus code message
  end.

(** [CaughtExceptionToStatus(message)] *)
Definition CaughtExceptionToStatus (message : bytes) (current : option exn) : Status :=
  CaughtExceptionToStatus_code Internal message current.

(** An exception whose translation is a failure: every one but an
    [XrpcException] built with the OK code. *)
Definition exn_failure (e : exn) : Prop :=
  match e with XrpcException c _ => c <> Ok | _ => True end.

Lemma CaughtExceptionToStatus_not_ok m e :
  exn_failure e -> code_ (CaughtExceptionToStatus m (Some e)) <> Ok.
Proof. by destruct e. Qed.
