(* ===== verification/FrameHeader.v ===== *)
(** * The fixed 24-byte frame prefix

    Models [src/include/protocol/frame_header.h] and
    [src/protocol/frame_header.cpp].  The byte order of the host is a
    parameter: the source selects the 64-bit conversion with
    [__BYTE_ORDER__] and the 16- and 32-bit ones with the libc functions. *)

From S2P Require Import Prelude.

Local Open Scope Z_scope.

(** ** Host byte order *)
Inductive byte_order := LittleEndian | BigEndian.

(** Bytes of an [n]-byte integer in host memory, and the integer they hold:
    what [memcpy] of an integer object copies. *)
Definition store (o : byte_order) (n : nat) (z : Z) : bytes :=
  match o with BigEndian => be_encode n z | LittleEndian => rev (be_encode n z) end.

Definition load (o : byte_order) (l : bytes) : Z :=
  match o with BigEndian => be_decode l | LittleEndian => be_decode (rev l) end.

(** The value with the reversed byte representation. *)
Definition bswap (n : nat) (z : Z) : Z := be_decode (rev (be_encode n z)).

(** [htons]/[htonl] (and [ntohs]/[ntohl], the same functions). *)
Definition hton (o : byte_order) (n : nat) (z : Z) : Z :=
  match o with BigEndian => z | LittleEndian => bswap n z end.

Definition htons o := hton o 2.
Definition htonl o := hton o 4.

Definition HostToNetwork64 (o : byte_order) (x : Z) : Z :=
  match o with
  | BigEndian => x
  | LittleEndian =>
      Z.lor (wrap 64 (Z.shiftl (htonl o (wrap 32 (Z.land x 0xFFFFFFFF))) 32))
            (htonl o (wrap 32 (Z.shiftr x 32)))
  end.

Definition NetworkToHost64 (o : byte_order) (x : Z) : Z := HostToNetwork64 o x.

(** ** [enum class MessageType : std::uint8_t]

    Decoding casts an arbitrary byte to the enum, so the type holds every byte. *)
Definition MessageType : Type := byte.
Definition MessageType_Request : MessageType := "001"%byte.
Definition MessageType_Response : MessageType := "002"%byte.

(** ** [struct FrameHeader] *)
Definition MAGIC : Z := 0x58525043.
Definition VERSION : byte := "001"%byte.
Definition SIZE : Z := 24.

Record FrameHeader := MkFrameHeader {
  magic_ : Z;
  version_ : byte;
  message_type_ : MessageType;
  flags_ : Z;
  metadata_size_ : Z;
  payload_size_ : Z;
  hdr_request_id_ : Z
}.

(** The default member initializers. *)
Definition FrameHeader_default : FrameHeader := {|
  magic_ := MAGIC; version_ := VERSION; message_type_ := MessageType_Request;
  flags_ := 0; metadata_size_ := 0; payload_size_ := 0; hdr_request_id_ := 0 |}.

(** The fields fit their C++ types. *)
Definition FrameHeader_wf (h : FrameHeader) : Prop :=
  is_u 32 (magic_ h) /\ is_u 16 (flags_ h) /\ is_u 32 (metadata_size_ h) /\
  is_u 32 (payload_size_ h) /\ is_u 64 (hdr_request_id_ h).

(** [FrameHeader::EncodeTo(header, buffer)]: the writes at their offsets. *)
Definition FrameHeader_EncodeTo (o : byte_order) (header : FrameHeader) (buffer : bytes)
    : option bytes :=
  let network_magic := htonl o (magic_ header) in
  let network_metadata_size := htonl o (metadata_size_ header) in
  let network_payload_size := htonl o (payload_size_ header) in
  let network_request_id := HostToNetwork64 o (hdr_request_id_ header) in
  buffer ← memcpy buffer 0 (store o 4 network_magic);
  buffer ← memcpy buffer 4 [version_ header];
  buffer ← memcpy buffer 5 [message_type_ header];
  let network_flags := htons o (flags_ header) in
  buffer ← memcpy buffer 6 (store o 2 network_flags);
  buffer ← memcpy buffer 8 (store o 4 network_metadata_size);
  buffer ← memcpy buffer 12 (store o 4 network_payload_size);
  memcpy buffer 16 (store o 8 network_request_id).

(** [FrameHeader::Decode(buf)]; [None] is [std::nullopt]. *)
Definition FrameHeader_Decode (o : byte_order) (buf : bytes) : option FrameHeader :=
  if len buf <? SIZE then None else
  let magic := htonl o (load o (substr buf 0 4)) in
  if negb (magic =? MAGIC) then None else
  Some {|
    magic_ := magic;
    version_ := nth 4 buf "000"%byte;
    message_type_ := nth 5 buf "000"%byte;
    flags_ := htons o (load o (substr buf 6 2));
    metadata_size_ := htonl o (load o (substr buf 8 4));
    payload_size_ := htonl o (load o (substr buf 12 4));
    hdr_request_id_ := NetworkToHost64 o (load o (substr buf 16 8))
  |}.

(** ** The documented layout, in network byte order *)
Definition header_bytes (h : FrameHeader) : bytes :=
  be_encode 4 (magic_ h) ++ [version_ h] ++ [message_type_ h] ++
  be_encode 2 (flags_ h) ++ be_encode 4 (metadata_size_ h) ++
  be_encode 4 (payload_size_ h) ++ be_encode 8 (hdr_request_id_ h).

Lemma len_header_bytes h : len (header_bytes h) = 24.
Proof.
  unfold header_bytes, len. by rewrite !length_app, !length_be_encode.
Qed.

(** ** Byte order conversions *)

Lemma bswap_bytes n z : be_encode n (bswap n z) = rev (be_encode n z).
Proof.
  unfold bswap.
  pose proof (be_encode_decode (rev (be_encode n z))) as H.
  by rewrite length_rev, length_be_encode in H.
Qed.

Lemma store_hton o n z : store o n (hton o n z) = be_encode n z.
Proof.
  destruct o; simpl; [|done]. by rewrite bswap_bytes, rev_involutive.
Qed.

Lemma load_hton o l n :
  length l = n -> hton o n (load o l) = be_decode l.
Proof.
  intros <-. destruct o; simpl; [|done]. unfold bswap.
  pose proof (be_encode_decode (rev l)) as H. rewrite length_rev in H.
  by rewrite H, rev_involutive.
Qed.

Lemma lor_shiftl_add a b n :
  0 <= n -> 0 <= b < 2 ^ n -> Z.lor (Z.shiftl a n) b = a * 2 ^ n + b.
Proof.
  intros Hn Hb. rewrite <- Z.shiftl_mul_pow2 by done.
  assert (Z.land (Z.shiftl a n) b = 0) as Hland.
  { apply Z.bits_inj_iff'. intros i Hi. rewrite Z.land_spec, Z.bits_0.
    destruct (decide (i < n)).
    - by rewrite Z.shiftl_spec_low.
    - destruct (decide (b = 0)) as [->|]; [by rewrite Z.bits_0, andb_false_r|].
      rewrite (Z.bits_above_log2 b i), andb_false_r; [done|lia|].
      apply Z.log2_lt_pow2; [lia|]. apply Z.lt_le_trans with (2 ^ n); [lia|].
      apply Z.pow_le_mono_r; lia. }
  rewrite Z.add_nocarry_lxor by done. by rewrite Z.lxor_lor.
Qed.

Lemma bswap_range n z : 0 <= bswap n z < 256 ^ Z.of_nat n.
Proof.
  unfold bswap. pose proof (be_decode_range (rev (be_encode n z))) as H.
  unfold len in H. by rewrite length_rev, length_be_encode in H.
Qed.

Lemma bswap_mod n z : bswap n (z mod 256 ^ Z.of_nat n) = bswap n z.
Proof. unfold bswap. by rewrite be_encode_mod. Qed.

(** The two-halves conversion of the source is the 8-byte [hton]. *)
Lemma HostToNetwork64_hton o x : is_u 64 x -> HostToNetwork64 o x = hton o 8 x.
Proof.
  intros Hx. red in Hx. destruct o; simpl; [|done].
  change 0xFFFFFFFF with (Z.ones 32).
  rewrite Z.land_ones, Z.shiftr_div_pow2 by lia.
  unfold wrap. rewrite Zmod_mod.
  pose proof (bswap_range 4 (x mod 2 ^ 32)) as Hlo.
  pose proof (bswap_range 4 ((x / 2 ^ 32) mod 2 ^ 32)) as Hhi.
  change (256 ^ Z.of_nat 4) with (2 ^ 32) in *.
  rewrite Z.mod_small
    by (rewrite Z.shiftl_mul_pow2 by lia; change (2 ^ 64) with (2 ^ 32 * 2 ^ 32); nia).
  rewrite lor_shiftl_add by lia.
  change (2 ^ 32) with (256 ^ Z.of_nat 4) at 1 4. rewrite bswap_mod, (bswap_mod 4).
  unfold bswap. rewrite (be_encode_app 4 4), rev_app_distr, be_decode_app.
  unfold len. by rewrite length_rev, length_be_encode.
Qed.

(** ** Encoding writes exactly the documented layout *)

Lemma EncodeTo_layout o h old :
  FrameHeader_wf h -> 24 <= len old ->
  FrameHeader_EncodeTo o h old = Some (header_bytes h ++ drop 24 old).
Proof.
  intros (?&?&?&?&Hid) Hlen. unfold len in Hlen.
  unfold FrameHeader_EncodeTo, htonl, htons.
  rewrite HostToNetwork64_hton, !store_hton by done.
  assert (forall pre old off src, off = len pre -> (length src <= length old)%nat ->
    memcpy (pre ++ old) off src = Some ((pre ++ src) ++ drop (length src) old)) as Hnext
    by (intros; by apply memcpy_next).
  rewrite <- (app_nil_l old) at 1.
  repeat (rewrite Hnext; [cbn [mbind option_bind] | by rewrite ?len_app; unfold len; rewrite ?length_be_encode
                                      | rewrite ?length_drop, ?length_be_encode; simpl; lia]).
  f_equal. rewrite !drop_drop, !length_be_encode. unfold header_bytes.
  by rewrite <- !app_assoc.
Qed.

(** ** Decoding *)

Lemma drop_drop_len {A} (l1 l2 : list A) n : n = length l1 -> drop n (l1 ++ l2) = l2.
Proof. intros ->. apply drop_app_length. Qed.

(** Reading a field at its offset from the documented layout. *)
Lemma field_at o pre mid post n pos :
  len pre = pos -> length mid = n ->
  hton o n (load o (substr (pre ++ mid ++ post) pos (Z.of_nat n))) = be_decode mid.
Proof.
  intros Hpre Hmid. rewrite substr_skip, substr_all by (unfold len in *; lia).
  by apply load_hton.
Qed.

Definition decoded_fields (buf : bytes) : FrameHeader := {|
  magic_ := be_decode (substr buf 0 4);
  version_ := nth 4 buf "000"%byte;
  message_type_ := nth 5 buf "000"%byte;
  flags_ := be_decode (substr buf 6 2);
  metadata_size_ := be_decode (substr buf 8 4);
  payload_size_ := be_decode (substr buf 12 4);
  hdr_request_id_ := be_decode (substr buf 16 8) |}.

Lemma length_substr l pos n :
  0 <= pos -> 0 <= n -> pos + n <= len l -> length (substr l pos n) = Z.to_nat n.
Proof. intros. pose proof (len_substr l pos n). unfold len in *. lia. Qed.

Lemma is_u_be_decode l n : length l = n -> is_u (8 * Z.of_nat n) (be_decode l).
Proof.
  intros <-. pose proof (be_decode_range l) as H. unfold len in H. red.
  rewrite Z.pow_mul_r by lia. done.
Qed.

(** The host order never matters to what is decoded. *)
Lemma FrameHeader_Decode_fields o buf :
  FrameHeader_Decode o buf =
  if (24 <=? len buf) && (be_decode (substr buf 0 4) =? MAGIC)
  then Some (decoded_fields buf) else None.
Proof.
  unfold FrameHeader_Decode, SIZE, htonl, htons, NetworkToHost64.
  rewrite Z.ltb_antisym. destruct (Z.leb_spec 24 (len buf)) as [Hlen|]; simpl; [|done].
  assert (forall pos n, 0 <= pos -> 0 <= n -> pos + n <= 24 ->
     length (substr buf pos n) = Z.to_nat n) as Hl
    by (intros; apply length_substr; lia).
  rewrite !load_hton by (apply Hl; lia).
  rewrite HostToNetwork64_hton, load_hton; [| by apply Hl | ].
  - destruct (_ =? MAGIC); done.
  - destruct o; simpl.
    + apply (is_u_be_decode _ 8). rewrite length_rev. by apply Hl.
    + apply (is_u_be_decode _ 8). by apply Hl.
Qed.

Lemma decoded_fields_wf buf : 24 <= len buf -> FrameHeader_wf (decoded_fields buf).
Proof.
  intros Hlen.
  assert (forall pos n, 0 <= pos -> 0 <= n -> pos + n <= 24 ->
     length (substr buf pos n) = Z.to_nat n) as Hl
    by (intros; apply length_substr; lia).
  split_and!; simpl; (apply (is_u_be_decode _ 2) || apply (is_u_be_decode _ 4) || apply (is_u_be_decode _ 8)); by apply Hl.
Qed.

(** Name the bytes of a list of known length. *)
Ltac explode l H :=
  repeat (destruct l as [|? l]; [discriminate H | injection H as H]);
  destruct l; [clear H | discriminate H].

Lemma header_bytes_decoded buf :
  24 <= len buf -> header_bytes (decoded_fields buf) = take 24 buf.
Proof.
  intros Hlen. unfold len in Hlen.
  rewrite <- (take_drop 24 buf). rewrite take_app_length' by (rewrite length_take; lia).
  assert (length (take 24 buf) = 24%nat) as H by (rewrite length_take; lia).
  generalize (drop 24 buf). revert H. generalize (take 24 buf). intros l H rest.
  explode l H. unfold header_bytes, decoded_fields, substr. simpl drop. simpl take.
  cbn [magic_ version_ message_type_ flags_ metadata_size_ payload_size_ hdr_request_id_].
  repeat match goal with
  | |- context [be_encode ?n (be_decode ?l)] =>
      change (be_encode n (be_decode l)) with (be_encode (length l) (be_decode l)); rewrite (be_encode_decode l)
  end.
  reflexivity.
Qed.

Lemma decoded_header_bytes h rest :
  FrameHeader_wf h -> decoded_fields (header_bytes h ++ rest) = h.
Proof.
  intros (H1&H2&H3&H4&H5).
  assert (forall n z, is_u (8 * Z.of_nat n) z -> be_decode (be_encode n z) = z) as Hrt.
  { intros n z Hz. red in Hz. rewrite Z.pow_mul_r in Hz by lia.
    rewrite be_decode_encode. by apply Z.mod_small. }
  pose proof (Hrt 4%nat _ H1) as E1. pose proof (Hrt 2%nat _ H2) as E2.
  pose proof (Hrt 4%nat _ H3) as E3. pose proof (Hrt 4%nat _ H4) as E4.
  pose proof (Hrt 8%nat _ H5) as E5. clear Hrt.
  destruct h as [m v t f ms ps id]. unfold header_bytes.
  cbn [magic_ version_ message_type_ flags_ metadata_size_ payload_size_ hdr_request_id_] in *.
  pose proof (length_be_encode 4 m) as L1. pose proof (length_be_encode 2 f) as L2.
  pose proof (length_be_encode 4 ms) as L3. pose proof (length_be_encode 4 ps) as L4.
  pose proof (length_be_encode 8 id) as L5.
  revert E1 E2 E3 E4 E5 L1 L2 L3 L4 L5.
  generalize (be_encode 4 m) (be_encode 2 f) (be_encode 4 ms) (be_encode 4 ps) (be_encode 8 id).
  intros l1 l2 l3 l4 l5 <- <- <- <- <- L1 L2 L3 L4 L5.
  explode l1 L1. explode l2 L2. explode l3 L3. explode l4 L4. explode l5 L5.
  reflexivity.
Qed.

(** ** Properties *)

(** on every host byte order, [FrameHeader::EncodeTo] fills the first 24
    bytes of the caller's buffer with the documented network-order layout,
    leaves the rest of the buffer alone, and [FrameHeader::Decode] on a host of
    any byte order returns exactly the header that was encoded. *)
Theorem FrameHeader_roundtrip o o' h buffer :
  FrameHeader_wf h -> magic_ h = MAGIC -> SIZE <= len buffer ->
  exists buffer', FrameHeader_EncodeTo o h buffer = Some buffer' /\
    take 24 buffer' = header_bytes h /\ drop 24 buffer' = drop 24 buffer /\
    FrameHeader_Decode o' buffer' = Some h.
Proof.
  intros Hwf Hmagic Hlen. exists (header_bytes h ++ drop 24 buffer).
  pose proof (len_header_bytes h) as H24. unfold len in H24.
  split_and!.
  - by apply EncodeTo_layout.
  - by rewrite take_app_length' by lia.
  - by rewrite drop_app_length' by lia.
  - rewrite FrameHeader_Decode_fields, decoded_header_bytes by done.
    pose proof (f_equal magic_ (decoded_header_bytes h (drop 24 buffer) Hwf)) as Hm.
    cbn [decoded_fields magic_] in Hm. rewrite Hm, Hmagic, len_app, len_header_bytes, Z.eqb_refl.
    pose proof (len_nonneg (drop 24 buffer)).
    by rewrite (proj2 (Z.leb_le _ _)) by lia.
Qed.

Lemma FrameHeader_roundtrip_witness :
  FrameHeader_EncodeTo LittleEndian
    (MkFrameHeader MAGIC VERSION MessageType_Response 0 7 300 (2 ^ 63 + 5))
    (replicate 24 "000"%byte)
  = FrameHeader_EncodeTo BigEndian
    (MkFrameHeader MAGIC VERSION MessageType_Response 0 7 300 (2 ^ 63 + 5))
    (replicate 24 "000"%byte).
Proof.
  destruct (FrameHeader_roundtrip LittleEndian BigEndian
    (MkFrameHeader MAGIC VERSION MessageType_Response 0 7 300 (2 ^ 63 + 5))
    (replicate 24 "000"%byte)) as (b1 & E1 & H1 & D1 & _);
    [unfold FrameHeader_wf, is_u, MAGIC; simpl; lia | done | done |].
  destruct (FrameHeader_roundtrip BigEndian LittleEndian
    (MkFrameHeader MAGIC VERSION MessageType_Response 0 7 300 (2 ^ 63 + 5))
    (replicate 24 "000"%byte)) as (b2 & E2 & H2 & D2 & _);
    [unfold FrameHeader_wf, is_u, MAGIC; simpl; lia | done | done |].
  rewrite E1, E2. f_equal.
  rewrite <- (take_drop 24 b1), <- (take_drop 24 b2). congruence.
Defined.

(** [FrameHeader::Decode] accepts exactly the buffers of at least 24 bytes
    that start with the ASCII magic, and encoding the decoded header restores
    the 24 bytes it was decoded from, on every host byte order: no information
    of the prefix is lost or normalised. *)
Theorem FrameHeader_Decode_exact o o' buf :
  (is_Some (FrameHeader_Decode o buf) <-> SIZE <= len buf /\ take 4 buf = bs "XRPC") /\
  forall h, FrameHeader_Decode o buf = Some h ->
    FrameHeader_wf h /\ magic_ h = MAGIC /\
    FrameHeader_EncodeTo o' h (replicate 24 "000"%byte) = Some (take 24 buf).
Proof.
  rewrite FrameHeader_Decode_fields.
  destruct (Z.leb_spec 24 (len buf)) as [Hlen|Hlen]; simpl; last first.
  { split; [|done]. split; [by intros []|]. unfold SIZE. lia. }
  assert (length (substr buf 0 4) = 4%nat) as Hl by (apply length_substr; lia).
  assert (substr buf 0 4 = take 4 buf) as Hs by done.
  assert (be_decode (substr buf 0 4) = MAGIC <-> take 4 buf = bs "XRPC") as Hiff.
  { rewrite <- Hs. split; intros H.
    - pose proof (be_encode_decode (substr buf 0 4)) as E.
      rewrite Hl, H in E. by rewrite <- E.
    - by rewrite H. }
  destruct (Z.eqb_spec (be_decode (substr buf 0 4)) MAGIC) as [E|E].
  - split; [split; [|by eauto]; intros _; split; [done | by apply Hiff]|].
    intros h [= <-]. split_and!; [by apply decoded_fields_wf | done |].
    rewrite EncodeTo_layout by (done || by apply decoded_fields_wf).
    by rewrite header_bytes_decoded, app_nil_r.
  - split; [|done]. split; [by intros []|]. intros [_ H]. by apply Hiff in H.
Qed.
