(* ===== verification/FrameCodec.v ===== *)
(** * Frame encoding and decoding

    Models [src/include/protocol/frame_codec.h], [src/protocol/frame_codec.cpp]
    and [src/include/protocol/rpc_envelope.h].  The message classes generated
    from [frame_metadata.proto] are a parameter ([Wire]); what the code relies on
    of them is [WireLaws]. *)

From S2P Require Import Prelude Status FrameHeader.

Local Open Scope Z_scope.

(** ** The environment of the codec

    [host_order] is the byte order of the host.  The other fields are the
    generated [RequestMetadata] and [ResponseMetadata] classes: the pair
    returned by [SerializeToString] is its boolean result and the output
    string, and [ParseFromArray] gives the fields on success. *)
Class Wire := {
  host_order : byte_order;
  RequestMetadata_SerializeToString : bytes -> bytes -> bool * bytes;
  RequestMetadata_ParseFromArray : bytes -> option (bytes * bytes);
  ResponseMetadata_SerializeToString : Z -> bytes -> bool * bytes;
  ResponseMetadata_ParseFromArray : bytes -> option (Z * bytes)
}.

(** Documented Protobuf behaviour.  [proto_text] is the set of strings a proto3
    [string] field carries (well-formed UTF-8), ASCII among them; serialisation succeeds below the
    2 GiB message limit; parsing inverts serialisation; the empty encoding is
    the default message. *)
Class WireLaws {W : Wire} := {
  proto_text : bytes -> Prop;
  proto_text_ascii b : Forall (fun x => Z_of_byte x < 128) b -> proto_text b;
  request_metadata_serializes service method :
    len service + len method + 12 <= INT_MAX ->
    fst (RequestMetadata_SerializeToString service method) = true;
  request_metadata_parses service method b :
    proto_text service -> proto_text method ->
    RequestMetadata_SerializeToString service method = (true, b) ->
    RequestMetadata_ParseFromArray b = Some (service, method);
  response_metadata_serializes code text :
    len text + 17 <= INT_MAX ->
    fst (ResponseMetadata_SerializeToString code text) = true;
  response_metadata_parses code text b :
    - 2 ^ 31 <= code < 2 ^ 31 -> proto_text text ->
    ResponseMetadata_SerializeToString code text = (true, b) ->
    ResponseMetadata_ParseFromArray b = Some (code, text);
  response_metadata_default : ResponseMetadata_ParseFromArray [] = Some (0, [])
}.
Arguments WireLaws : clear implicits.

(** ** Envelopes *)
Record RequestEnvelope := MkRequestEnvelope {
  req_request_id_ : Z;
  service_name_ : bytes;
  method_name_ : bytes;
  req_payload_ : bytes
}.

Record ResponseEnvelope := MkResponseEnvelope {
  resp_request_id_ : Z;
  resp_status_ : Status;
  resp_payload_ : bytes
}.

(** [ResponseEnvelope response;] *)
Definition ResponseEnvelope_default : ResponseEnvelope := MkResponseEnvelope 0 Status_Ok [].

#[global] Instance RequestEnvelope_eq_dec : EqDecision RequestEnvelope.
Proof. solve_decision. Defined.
#[global] Instance ResponseEnvelope_eq_dec : EqDecision ResponseEnvelope.
Proof. solve_decision. Defined.

(** ** Limits *)
Definition DEFAULT_MAX_METADATA_SIZE : Z := 64 * 1024.
Definition DEFAULT_MAX_PAYLOAD_SIZE : Z := 4 * 1024 * 1024.

Record ProtocolLimits := MkProtocolLimits {
  max_metadata_size_ : Z;
  max_payload_size_ : Z
}.

Definition ProtocolLimits_default : ProtocolLimits :=
  MkProtocolLimits DEFAULT_MAX_METADATA_SIZE DEFAULT_MAX_PAYLOAD_SIZE.

(** Fields of [std::size_t]. *)
Definition ProtocolLimits_wf (l : ProtocolLimits) : Prop :=
  is_u 64 (max_metadata_size_ l) /\ is_u 64 (max_payload_size_ l).

Definition MakeProtocolLimits (max_payload_size : Z) : StatusOr ProtocolLimits :=
  if max_payload_size =? 0 then
    StatusOr_fail InvalidArgument "protocol max_payload_size must be greater than 0"
  else if UINT32_MAX <? max_payload_size then
    StatusOr_fail InvalidArgument "protocol max_payload_size must fit in uint32"
  else StatusOr_value (MkProtocolLimits DEFAULT_MAX_METADATA_SIZE max_payload_size).

Inductive ProtocolError :=
  | ProtoOk
  | NeedMoreData
  | InvalidMagic
  | UnsupportedVersion
  | InvalidMessageType
  | FrameTooLarge
  | DecodeError
  | EncodeError.

#[global] Instance ProtocolError_eq_dec : EqDecision ProtocolError.
Proof. solve_decision. Defined.

Record FrameDecodeResult := MkFrameDecodeResult {
  error_ : ProtocolError;
  consumed_ : Z;
  request_ : option RequestEnvelope;
  response_ : option ResponseEnvelope
}.

(** [FrameDecodeResult::HasEnvelope] *)
Definition HasEnvelope (r : FrameDecodeResult) : bool :=
  bool_decide (is_Some (request_ r)) || bool_decide (is_Some (response_ r)).

(** ** Helpers of the anonymous namespace *)

Definition FitsProtobufParseArray (b : bytes) : bool := len b <=? INT_MAX.

Definition FrameSize (metadata_size payload_size : Z) : Z :=
  (SIZE +u metadata_size +u payload_size)%word.

Record FrameView := MkFrameView {
  view_error_ : ProtocolError;
  view_consumed_ : Z;
  view_header_ : FrameHeader;
  view_metadata_bytes_ : bytes;
  view_payload_ : bytes
}.

(** [{.error_ = e}] *)
Definition view_error (e : ProtocolError) : FrameView :=
  MkFrameView e 0 FrameHeader_default [] [].

Definition ValidateEncodedFrameSize (metadata_size payload_size : Z) (limits : ProtocolLimits)
    : Status :=
  if (UINT32_MAX <? metadata_size) || (max_metadata_size_ limits <? metadata_size) then
    status ResourceExhausted "protocol metadata exceeds configured limit"
  else if (UINT32_MAX <? payload_size) || (max_payload_size_ limits <? payload_size) then
    status ResourceExhausted "protocol payload exceeds configured limit"
  else if SIZE_MAX <? FrameSize metadata_size payload_size then
    status ResourceExhausted "protocol frame exceeds the addressable size"
  else Status_Ok.

(** [switch (static_cast<StatusCode>(code))]: the cast of an [int32] to an enum
    of underlying type [uint8_t] keeps the low eight bits. *)
Definition StatusCode_cast (code : Z) : option StatusCode :=
  find (fun c => StatusCode_value c =? wrap 8 code) all_codes.

Definition DecodeStatus (code : Z) (message : bytes) : Status :=
  match StatusCode_cast code with
  | Some Ok => Status_Ok
  | Some c => MkStatus c message
  | None => status DataLoss "response contains an invalid RPC status code"
  end.

(** ** [FrameCodec] *)
Section Codec.
Context {W : Wire}.

(** The frame is allocated once, then each section is written in place. *)
Definition BuildFrame (header : FrameHeader) (metadata_bytes payload : bytes)
    (limits : ProtocolLimits) : option (StatusOr bytes) :=
  let size_status := ValidateEncodedFrameSize (len metadata_bytes) (len payload) limits in
  if negb (Status_ok size_status) then StatusOr_error size_status else
  let total_size := (SIZE +u len metadata_bytes +u len payload)%word in
  let result := replicate (Z.to_nat total_size) "000"%byte in
  result ← FrameHeader_EncodeTo host_order header result;
  let write := SIZE in
  result ← (if bool_decide (metadata_bytes = []) then Some result
            else memcpy result write metadata_bytes);
  let write := write + len metadata_bytes in
  result ← (if bool_decide (payload = []) then Some result
            else memcpy result write payload);
  Some (StatusOr_value result).

Definition BuildRequestFrame (request : RequestEnvelope) (limits : ProtocolLimits)
    : option (StatusOr bytes) :=
  let '(serialized, metadata_bytes) :=
    RequestMetadata_SerializeToString (service_name_ request) (method_name_ request) in
  if negb serialized then Some (StatusOr_fail Internal "failed to encode request metadata") else
  let header := {|
    magic_ := MAGIC; version_ := VERSION; flags_ := 0;
    message_type_ := MessageType_Request;
    hdr_request_id_ := req_request_id_ request;
    metadata_size_ := wrap 32 (len metadata_bytes);
    payload_size_ := wrap 32 (len (req_payload_ request)) |} in
  BuildFrame header metadata_bytes (req_payload_ request) limits.

Definition EncodeResponseMetadata (response : ResponseEnvelope) : bytes :=
  if bool_decide (code_ (resp_status_ response) = Ok) &&
     bool_decide (message_ (resp_status_ response) = []) then []
  else snd (ResponseMetadata_SerializeToString
              (StatusCode_value (code_ (resp_status_ response)))
              (message_ (resp_status_ response))).

Definition BuildResponseFrame (response : ResponseEnvelope) (limits : ProtocolLimits)
    : option (StatusOr bytes) :=
  let metadata_bytes := EncodeResponseMetadata response in
  let header := {|
    magic_ := MAGIC; version_ := VERSION; flags_ := 0;
    message_type_ := MessageType_Response;
    hdr_request_id_ := resp_request_id_ response;
    metadata_size_ := wrap 32 (len metadata_bytes);
    payload_size_ := wrap 32 (len (resp_payload_ response)) |} in
  BuildFrame header metadata_bytes (resp_payload_ response) limits.

Definition DecodeRequestEnvelope (header : FrameHeader) (metadata_bytes payload : bytes)
    : option RequestEnvelope :=
  if negb (FitsProtobufParseArray metadata_bytes) then None else
  '(service, method) ← RequestMetadata_ParseFromArray metadata_bytes;
  Some (MkRequestEnvelope (hdr_request_id_ header) service method payload).

Definition DecodeResponseEnvelope (header : FrameHeader) (metadata_bytes payload : bytes)
    : option ResponseEnvelope :=
  if negb (FitsProtobufParseArray metadata_bytes) then None else
  '(code, text) ← ResponseMetadata_ParseFromArray metadata_bytes;
  Some (MkResponseEnvelope (hdr_request_id_ header) (DecodeStatus code text) payload).

Definition ReadFrame (buf : bytes) (limits : ProtocolLimits) : FrameView :=
  if len buf <? SIZE then view_error NeedMoreData else
  match FrameHeader_Decode host_order (substr buf 0 SIZE) with
  | None => view_error InvalidMagic
  | Some header =>
      if negb (bool_decide (version_ header = VERSION)) then view_error UnsupportedVersion else
      if (max_metadata_size_ limits <? metadata_size_ header) ||
         (max_payload_size_ limits <? payload_size_ header) ||
         (SIZE_MAX <? FrameSize (metadata_size_ header) (payload_size_ header))
      then view_error FrameTooLarge else
      let total := (SIZE +u metadata_size_ header +u payload_size_ header)%word in
      if len buf <? total then view_error NeedMoreData else
      MkFrameView ProtoOk total header
        (substr buf SIZE (metadata_size_ header))
        (substr buf (SIZE + metadata_size_ header) (payload_size_ header))
  end.

Definition FrameCodec_EncodeRequest (limits : ProtocolLimits) (request : RequestEnvelope)
    : option (StatusOr bytes) :=
  BuildRequestFrame request limits.

Definition FrameCodec_EncodeResponse (limits : ProtocolLimits) (response : ResponseEnvelope)
    : option (StatusOr bytes) :=
  BuildResponseFrame response limits.

Definition FrameCodec_Decode (limits : ProtocolLimits) (buf : bytes) : FrameDecodeResult :=
  let frame := ReadFrame buf limits in
  if negb (bool_decide (view_error_ frame = ProtoOk)) then
    MkFrameDecodeResult (view_error_ frame) (view_consumed_ frame) None None
  else if bool_decide (message_type_ (view_header_ frame) = MessageType_Request) then
    match DecodeRequestEnvelope (view_header_ frame) (view_metadata_bytes_ frame)
            (view_payload_ frame) with
    | None => MkFrameDecodeResult DecodeError (view_consumed_ frame) None None
    | Some request => MkFrameDecodeResult ProtoOk (view_consumed_ frame) (Some request) None
    end
  else if bool_decide (message_type_ (view_header_ frame) = MessageType_Response) then
    match DecodeResponseEnvelope (view_header_ frame) (view_metadata_bytes_ frame)
            (view_payload_ frame) with
    | None => MkFrameDecodeResult DecodeError (view_consumed_ frame) None None
    | Some response => MkFrameDecodeResult ProtoOk (view_consumed_ frame) None (Some response)
    end
  else MkFrameDecodeResult InvalidMessageType (view_consumed_ frame) None None.

End Codec.

(** ** The frame of the wire protocol

    Header, metadata and payload, with the sizes of the two sections in the
    header. *)
Definition frame_header (t : MessageType) (id : Z) (metadata payload : bytes) : FrameHeader := {|
  magic_ := MAGIC; version_ := VERSION; message_type_ := t; flags_ := 0;
  metadata_size_ := len metadata; payload_size_ := len payload; hdr_request_id_ := id |}.

Definition frame_bytes (t : MessageType) (id : Z) (metadata payload : bytes) : bytes :=
  header_bytes (frame_header t id metadata payload) ++ metadata ++ payload.

Lemma len_frame_bytes t id m p : len (frame_bytes t id m p) = 24 + len m + len p.
Proof. unfold frame_bytes. rewrite !len_app, len_header_bytes. lia. Qed.

(** The sections the encoder accepts. *)
Definition fits (limits : ProtocolLimits) (metadata payload : bytes) : Prop :=
  len metadata <= UINT32_MAX /\ len metadata <= max_metadata_size_ limits /\
  len payload <= UINT32_MAX /\ len payload <= max_payload_size_ limits.

#[global] Instance fits_dec limits m p : Decision (fits limits m p).
Proof. apply _. Defined.

Lemma frame_header_wf t id m p limits :
  is_u 64 id -> fits limits m p -> FrameHeader_wf (frame_header t id m p).
Proof.
  unfold fits, UINT32_MAX. intros Hid (?&_&?&_).
  pose proof (len_nonneg m). pose proof (len_nonneg p).
  unfold FrameHeader_wf, is_u in *; simpl; unfold MAGIC. lia.
Qed.

Lemma FrameSize_exact m p :
  0 <= m <= UINT32_MAX -> 0 <= p <= UINT32_MAX -> FrameSize m p = 24 + m + p.
Proof.
  unfold FrameSize, SIZE, UINT32_MAX. intros.
  rewrite (add64_small 24), add64_small; lia.
Qed.

Lemma Validate_fits m p limits :
  ValidateEncodedFrameSize (len m) (len p) limits =
  if bool_decide (fits limits m p) then Status_Ok
  else if bool_decide (len m <= UINT32_MAX /\ len m <= max_metadata_size_ limits)
       then status ResourceExhausted "protocol payload exceeds configured limit"
       else status ResourceExhausted "protocol metadata exceeds configured limit".
Proof.
  pose proof (len_nonneg m). pose proof (len_nonneg p).
  unfold ValidateEncodedFrameSize, fits.
  case_bool_decide as Hf; [|case_bool_decide as Hm].
  - rewrite FrameSize_exact by lia.
    repeat (rewrite (proj2 (Z.ltb_ge _ _)) by (unfold SIZE_MAX, UINT32_MAX in *; lia)). done.
  - rewrite !(proj2 (Z.ltb_ge _ (len m))) by lia. simpl.
    destruct (Z.ltb_spec UINT32_MAX (len p)); [done|].
    destruct (Z.ltb_spec (max_payload_size_ limits) (len p)); [done|lia].
  - destruct (Z.ltb_spec UINT32_MAX (len m)); [done|].
    destruct (Z.ltb_spec (max_metadata_size_ limits) (len m)); [done|lia].
Qed.

Section Encoding.
Context {W : Wire}.

Lemma memcpy_section pre old src off :
  off = len pre -> (length src <= length old)%nat ->
  (if bool_decide (src = []) then Some (pre ++ old) else memcpy (pre ++ old) off src)
  = Some ((pre ++ src) ++ drop (length src) old).
Proof.
  intros. case_bool_decide.
  - subst. by rewrite app_nil_r, drop_0.
  - by apply memcpy_next.
Qed.

(** Encoding: what [BuildFrame] returns for every input. *)
Lemma BuildFrame_spec t id m p limits :
  is_u 64 id ->
  BuildFrame {| magic_ := MAGIC; version_ := VERSION; flags_ := 0; message_type_ := t;
                hdr_request_id_ := id; metadata_size_ := wrap 32 (len m);
                payload_size_ := wrap 32 (len p) |} m p limits =
  Some (if bool_decide (fits limits m p) then StatusOr_value (frame_bytes t id m p)
        else MkStatusOr (ValidateEncodedFrameSize (len m) (len p) limits) None).
Proof.
  intros Hid. unfold BuildFrame. pose proof (len_nonneg m). pose proof (len_nonneg p).
  destruct (decide (fits limits m p)) as [Hfits|Hfits].
  - rewrite (bool_decide_true (fits limits m p)) by done.
    rewrite Validate_fits, (bool_decide_true (fits limits m p)) by done. simpl negb. cbv iota.
    pose proof (frame_header_wf t id m p limits Hid Hfits) as Hwf.
    destruct Hfits as (?&_&?&_).
    rewrite !wrap_small by (unfold is_u, UINT32_MAX in *; lia).
    fold (frame_header t id m p). fold (FrameSize (len m) (len p)).
    rewrite FrameSize_exact by lia.
    set (buf := replicate _ _).
    assert (length buf = Z.to_nat (24 + len m + len p)) as Hbuf by apply length_replicate.
    rewrite EncodeTo_layout; [|done|unfold len; lia]. cbn [mbind option_bind].
    rewrite memcpy_section; [| by rewrite len_header_bytes
                             | rewrite length_drop; unfold len in *; lia].
    cbn [mbind option_bind].
    rewrite memcpy_section; [| by rewrite len_app, len_header_bytes
                             | rewrite !length_drop; unfold len in *; lia].
    cbn [mbind option_bind]. do 2 f_equal.
    rewrite drop_ge by (rewrite !length_drop; unfold len in *; lia).
    unfold frame_bytes. by rewrite app_nil_r, <- app_assoc.
  - rewrite (bool_decide_false (fits limits m p)) by done.
    rewrite Validate_fits, (bool_decide_false (fits limits m p)) by done. by case_bool_decide.
Qed.

End Encoding.

(** ** Decoding complete frames and prefixes *)
Section Decoding.
Context {W : Wire}.

(** [ReadFrame] in terms of the raw header fields. *)
Lemma ReadFrame_fields buf limits :
  ReadFrame buf limits =
  let header := decoded_fields buf in
  if len buf <? 24 then view_error NeedMoreData else
  if negb (magic_ header =? MAGIC) then view_error InvalidMagic else
  if negb (bool_decide (version_ header = VERSION)) then view_error UnsupportedVersion else
  if bool_decide (metadata_size_ header <= max_metadata_size_ limits /\
                  payload_size_ header <= max_payload_size_ limits) then
    let total := 24 + metadata_size_ header + payload_size_ header in
    if len buf <? total then view_error NeedMoreData else
    MkFrameView ProtoOk total header (substr buf 24 (metadata_size_ header))
      (substr buf (24 + metadata_size_ header) (payload_size_ header))
  else view_error FrameTooLarge.
Proof.
  unfold ReadFrame, SIZE. cbv zeta.
  destruct (Z.ltb_spec (len buf) 24) as [|Hlen]; [done|].
  rewrite FrameHeader_Decode_fields, len_substr by lia.
  change (24 <=? 24) with true. cbn [andb].
  assert (decoded_fields (substr buf 0 24) = decoded_fields buf) as Hd.
  { rewrite <- (take_drop 24 buf). unfold len in Hlen.
    rewrite substr_all by (unfold len; rewrite length_take; lia).
    assert (length (take 24 buf) = 24%nat) as H by (rewrite length_take; lia).
    revert H. generalize (take 24 buf) (drop 24 buf). intros l rest H.
    explode l H. reflexivity. }
  pose proof (f_equal magic_ Hd) as Hm. cbn [decoded_fields magic_] in Hm.
  rewrite Hm, Hd. change (be_decode (substr buf 0 4)) with (magic_ (decoded_fields buf)).
  destruct (magic_ _ =? MAGIC); [|done]. cbn [negb].
  destruct (bool_decide (version_ _ = _)); [|done]. cbn [negb].
  destruct (decoded_fields_wf buf Hlen) as (_&_&Hms&Hps&_). red in Hms, Hps.
  change (24 +u ?m +u ?p)%word with (FrameSize m p).
  rewrite FrameSize_exact by (unfold UINT32_MAX; lia).
  rewrite (proj2 (Z.ltb_ge SIZE_MAX _)) by (unfold SIZE_MAX; lia).
  rewrite orb_false_r.
  case_bool_decide.
  - by rewrite !(proj2 (Z.ltb_ge _ _)) by lia.
  - destruct (Z.ltb_spec (max_metadata_size_ limits) (metadata_size_ (decoded_fields buf)));
      [done|].
    destruct (Z.ltb_spec (max_payload_size_ limits) (payload_size_ (decoded_fields buf)));
      [done|lia].
Qed.

Lemma decoded_fields_app buf more :
  24 <= len buf -> decoded_fields (buf ++ more) = decoded_fields buf.
Proof.
  intros Hlen. unfold len in Hlen.
  rewrite <- (take_drop 24 buf), <- app_assoc.
  assert (length (take 24 buf) = 24%nat) as H by (rewrite length_take; lia).
  revert H. generalize (take 24 buf) (drop 24 buf). intros l rest H.
  explode l H. reflexivity.
Qed.

(** A verdict other than [NeedMoreData] does not depend on later bytes. *)
Lemma ReadFrame_app buf more limits :
  view_error_ (ReadFrame buf limits) <> NeedMoreData ->
  ReadFrame (buf ++ more) limits = ReadFrame buf limits.
Proof.
  rewrite !ReadFrame_fields. cbv zeta. pose proof (len_nonneg more).
  destruct (Z.ltb_spec (len buf) 24) as [|Hlen]; [done|].
  rewrite decoded_fields_app, len_app by done.
  rewrite (proj2 (Z.ltb_ge (len buf + len more) 24)) by lia.
  destruct (_ =? MAGIC); [|done]. cbn [negb].
  destruct (bool_decide (version_ _ = _)); [|done]. cbn [negb].
  case_bool_decide; [|done].
  destruct (decoded_fields_wf buf Hlen) as (_&_&Hms&Hps&_). red in Hms, Hps.
  set (total := 24 + _ + _).
  destruct (Z.ltb_spec (len buf) total); [done|].
  rewrite (proj2 (Z.ltb_ge (len buf + len more) total)) by lia. intros _.
  by rewrite !substr_app_l by lia.
Qed.

Lemma ReadFrame_frame t id m p rest limits :
  is_u 64 id -> fits limits m p ->
  ReadFrame (frame_bytes t id m p ++ rest) limits =
  MkFrameView ProtoOk (24 + len m + len p) (frame_header t id m p) m p.
Proof.
  intros Hid Hfits. pose proof (frame_header_wf t id m p limits Hid Hfits) as Hwf.
  destruct Hfits as (?&?&?&?).
  pose proof (len_nonneg m). pose proof (len_nonneg p). pose proof (len_nonneg rest).
  rewrite ReadFrame_fields. cbv zeta. unfold frame_bytes.
  rewrite <- !app_assoc, !decoded_header_bytes by done.
  cbn [frame_header magic_ version_ metadata_size_ payload_size_].
  rewrite !len_app, len_header_bytes, Z.eqb_refl.
  rewrite (bool_decide_true (VERSION = VERSION)) by done. cbn [negb].
  rewrite (proj2 (Z.ltb_ge _ 24)) by lia.
  rewrite bool_decide_true by done.
  rewrite (proj2 (Z.ltb_ge _ (24 + len m + len p))) by lia.
  f_equal.
  - rewrite substr_skip by (apply len_header_bytes || lia). by apply substr_all.
  - rewrite app_assoc, substr_skip by (rewrite ?len_app, ?len_header_bytes; lia).
    by apply substr_all.
Qed.

(** Every strict prefix of a frame within the limits is incomplete. *)
Lemma ReadFrame_prefix t id m p limits buf rest :
  is_u 64 id -> fits limits m p -> frame_bytes t id m p = buf ++ rest -> rest <> [] ->
  ReadFrame buf limits = view_error NeedMoreData.
Proof.
  intros Hid Hfits Heq Hrest.
  assert (view_error_ (ReadFrame buf limits) = NeedMoreData) as Hneed.
  { destruct (decide (view_error_ (ReadFrame buf limits) = NeedMoreData)) as [|Hne]; [done|].
    exfalso. pose proof (ReadFrame_app buf rest limits Hne) as Happ.
    pose proof (ReadFrame_frame t id m p [] limits Hid Hfits) as Hf.
    rewrite app_nil_r, Heq, Happ, ReadFrame_fields in Hf. cbv zeta in Hf.
    apply (f_equal view_consumed_) in Hf.
    pose proof (len_frame_bytes t id m p) as Hl. rewrite Heq, len_app in Hl.
    destruct rest; [done|]. rewrite len_cons in Hl. pose proof (len_nonneg rest).
    repeat match type of Hf with
    | context [if ?b then _ else _] => destruct b eqn:?
    end; cbn [view_consumed_ view_error] in Hf; pose proof (len_nonneg m); pose proof (len_nonneg p); lia. }
  revert Hneed. rewrite ReadFrame_fields. cbv zeta.
  repeat case_match; simpl; congruence.
Qed.

Lemma ReadFrame_need_more buf limits :
  0 <= max_metadata_size_ limits -> 0 <= max_payload_size_ limits ->
  view_error_ (ReadFrame buf limits) = NeedMoreData ->
  len buf < 24 + max_metadata_size_ limits + max_payload_size_ limits.
Proof.
  rewrite ReadFrame_fields. cbv zeta. intros ? ?.
  destruct (Z.ltb_spec (len buf) 24); [lia|].
  destruct (_ =? MAGIC); [|done]. cbn [negb].
  destruct (bool_decide (version_ _ = _)); [|done]. cbn [negb].
  case_bool_decide; [|done].
  destruct (Z.ltb_spec (len buf) (24 + metadata_size_ (decoded_fields buf)
    + payload_size_ (decoded_fields buf))); [lia|done].
Qed.

Lemma ReadFrame_consumed buf limits :
  view_error_ (ReadFrame buf limits) = ProtoOk ->
  24 <= view_consumed_ (ReadFrame buf limits) <= len buf.
Proof.
  rewrite ReadFrame_fields. cbv zeta.
  destruct (Z.ltb_spec (len buf) 24) as [|Hlen]; [done|].
  destruct (_ =? MAGIC); [|done]. cbn [negb].
  destruct (bool_decide (version_ _ = _)); [|done]. cbn [negb].
  case_bool_decide; [|done].
  destruct (decoded_fields_wf buf Hlen) as (_&_&Hms&Hps&_). red in Hms, Hps.
  destruct (Z.ltb_spec (len buf) (24 + metadata_size_ (decoded_fields buf)
    + payload_size_ (decoded_fields buf)));
    cbn [view_error_ view_consumed_ view_error]; [done|lia].
Qed.

Lemma ReadFrame_error_consumed buf limits :
  view_error_ (ReadFrame buf limits) <> ProtoOk -> view_consumed_ (ReadFrame buf limits) = 0.
Proof.
  rewrite ReadFrame_fields. cbv zeta. repeat case_match; simpl; congruence.
Qed.

End Decoding.

(** ** Limits of the program

    Every codec of the program is built with limits made by
    [MakeProtocolLimits] or with the default ones. *)
Definition limits_ok (limits : ProtocolLimits) : Prop :=
  0 <= max_metadata_size_ limits <= INT_MAX /\ 0 < max_payload_size_ limits <= UINT32_MAX.

Lemma limits_ok_default : limits_ok ProtocolLimits_default.
Proof. done. Qed.

Lemma MakeProtocolLimits_ok size limits :
  0 <= size -> so_value_ (MakeProtocolLimits size) = Some limits -> limits_ok limits.
Proof.
  unfold MakeProtocolLimits. intros Hs.
  destruct (Z.eqb_spec size 0); [done|]. destruct (Z.ltb_spec UINT32_MAX size); [done|].
  intros [= <-]. split; simpl; [done|lia].
Qed.

(** ** From frames to envelopes *)
Section Envelopes.
Context {W : Wire} {L : WireLaws W}.

Lemma fits_parse_array limits m p :
  limits_ok limits -> fits limits m p -> FitsProtobufParseArray m = true.
Proof. intros [? _] (?&?&_). apply Z.leb_le. lia. Qed.

Lemma EncodeRequest_spec limits request :
  is_u 64 (req_request_id_ request) ->
  FrameCodec_EncodeRequest limits request =
  let '(serialized, m) :=
    RequestMetadata_SerializeToString (service_name_ request) (method_name_ request) in
  if serialized then
    Some (if bool_decide (fits limits m (req_payload_ request))
          then StatusOr_value (frame_bytes MessageType_Request (req_request_id_ request) m
                                 (req_payload_ request))
          else MkStatusOr (ValidateEncodedFrameSize (len m) (len (req_payload_ request)) limits)
                 None)
  else Some (StatusOr_fail Internal "failed to encode request metadata").
Proof.
  intros. unfold FrameCodec_EncodeRequest, BuildRequestFrame.
  destruct (RequestMetadata_SerializeToString _ _) as [[] m]; simpl; [|done].
  by apply BuildFrame_spec.
Qed.

Lemma EncodeResponse_spec limits response :
  is_u 64 (resp_request_id_ response) ->
  FrameCodec_EncodeResponse limits response =
  let m := EncodeResponseMetadata response in
  Some (if bool_decide (fits limits m (resp_payload_ response))
        then StatusOr_value (frame_bytes MessageType_Response (resp_request_id_ response) m
                               (resp_payload_ response))
        else MkStatusOr (ValidateEncodedFrameSize (len m) (len (resp_payload_ response)) limits)
               None).
Proof. intros. by apply BuildFrame_spec. Qed.

(** The frame inside a successful encoding. *)
Lemma EncodeRequest_value limits request frame :
  is_u 64 (req_request_id_ request) ->
  FrameCodec_EncodeRequest limits request = Some (StatusOr_value frame) ->
  exists m, RequestMetadata_SerializeToString (service_name_ request) (method_name_ request)
            = (true, m) /\
    fits limits m (req_payload_ request) /\
    frame = frame_bytes MessageType_Request (req_request_id_ request) m (req_payload_ request).
Proof.
  intros Hid. rewrite EncodeRequest_spec by done.
  destruct (RequestMetadata_SerializeToString _ _) as [[] m]; [|done].
  case_bool_decide; [|done]. intros [= <-]. by exists m.
Qed.

Lemma EncodeResponse_value limits response frame :
  is_u 64 (resp_request_id_ response) ->
  FrameCodec_EncodeResponse limits response = Some (StatusOr_value frame) ->
  fits limits (EncodeResponseMetadata response) (resp_payload_ response) /\
  frame = frame_bytes MessageType_Response (resp_request_id_ response)
            (EncodeResponseMetadata response) (resp_payload_ response).
Proof.
  intros Hid. rewrite EncodeResponse_spec by done. cbv zeta.
  case_bool_decide; [|done]. by intros [= <-].
Qed.

Lemma Validate_unfit m p limits :
  ~ fits limits m p ->
  exists text, ValidateEncodedFrameSize (len m) (len p) limits = status ResourceExhausted text.
Proof.
  intros Hf. rewrite Validate_fits, bool_decide_false by done. case_bool_decide; eauto.
Qed.

Lemma Decode_request_frame limits request m rest :
  limits_ok limits -> is_u 64 (req_request_id_ request) ->
  fits limits m (req_payload_ request) ->
  RequestMetadata_ParseFromArray m = Some (service_name_ request, method_name_ request) ->
  FrameCodec_Decode limits
    (frame_bytes MessageType_Request (req_request_id_ request) m (req_payload_ request) ++ rest)
  = MkFrameDecodeResult ProtoOk
      (len (frame_bytes MessageType_Request (req_request_id_ request) m (req_payload_ request)))
      (Some request) None.
Proof.
  intros Hl Hid Hf Hp. unfold FrameCodec_Decode. rewrite ReadFrame_frame by done.
  rewrite len_frame_bytes. simpl. unfold DecodeRequestEnvelope.
  rewrite (fits_parse_array limits m (req_payload_ request)) by done. simpl.
  rewrite Hp. by destruct request.
Qed.

Lemma Decode_response_frame limits id code text m p rest :
  limits_ok limits -> is_u 64 id -> fits limits m p ->
  ResponseMetadata_ParseFromArray m = Some (code, text) ->
  FrameCodec_Decode limits (frame_bytes MessageType_Response id m p ++ rest)
  = MkFrameDecodeResult ProtoOk (len (frame_bytes MessageType_Response id m p)) None
      (Some (MkResponseEnvelope id (DecodeStatus code text) p)).
Proof.
  intros Hl Hid Hf Hp. unfold FrameCodec_Decode. rewrite ReadFrame_frame by done.
  rewrite len_frame_bytes. simpl. unfold DecodeResponseEnvelope.
  rewrite (fits_parse_array limits m p) by done. simpl. by rewrite Hp.
Qed.

Lemma DecodeStatus_value c text :
  DecodeStatus (StatusCode_value c) text = if decide (c = Ok) then Status_Ok else MkStatus c text.
Proof. by destruct c. Qed.

Lemma EncodeResponseMetadata_parses response :
  len (message_ (resp_status_ response)) + 17 <= INT_MAX ->
  proto_text (message_ (resp_status_ response)) ->
  ResponseMetadata_ParseFromArray (EncodeResponseMetadata response) =
  Some (StatusCode_value (code_ (resp_status_ response)), message_ (resp_status_ response)).
Proof.
  intros Hlen Htext. unfold EncodeResponseMetadata.
  destruct (_ && _) eqn:E.
  - apply andb_prop in E as [E1 E2]. apply bool_decide_eq_true in E1, E2.
    rewrite E1, E2. apply response_metadata_default.
  - pose proof (response_metadata_serializes (StatusCode_value (code_ (resp_status_ response)))
      _ Hlen) as Hs.
    destruct (ResponseMetadata_SerializeToString _ _) as [ok m] eqn:Em. simpl in *. subst ok.
    apply (response_metadata_parses _ _ m); [|done|done].
    destruct (code_ _); simpl; lia.
Qed.

(** A verdict of [Decode] other than [NeedMoreData] depends on the frame alone. *)
Lemma Decode_app limits buf more :
  error_ (FrameCodec_Decode limits buf) <> NeedMoreData ->
  FrameCodec_Decode limits (buf ++ more) = FrameCodec_Decode limits buf.
Proof.
  intros H. unfold FrameCodec_Decode at 1. rewrite ReadFrame_app; [done|].
  contradict H. unfold FrameCodec_Decode. by rewrite H.
Qed.

Lemma Decode_error limits buf :
  view_error_ (ReadFrame buf limits) <> ProtoOk ->
  FrameCodec_Decode limits buf =
  MkFrameDecodeResult (view_error_ (ReadFrame buf limits)) 0 None None.
Proof.
  intros H. unfold FrameCodec_Decode. rewrite bool_decide_false by done. simpl.
  by rewrite ReadFrame_error_consumed.
Qed.

Lemma Decode_need_more limits buf :
  error_ (FrameCodec_Decode limits buf) = NeedMoreData <->
  view_error_ (ReadFrame buf limits) = NeedMoreData.
Proof.
  split; intros H.
  - unfold FrameCodec_Decode in H.
    repeat match type of H with
    | context [if ?b then _ else _] => destruct b eqn:?
    | context [match ?o with _ => _ end] => destruct o eqn:?
    end; simpl in H; congruence.
  - rewrite Decode_error by congruence. done.
Qed.

Lemma Decode_need_more_eq limits buf :
  error_ (FrameCodec_Decode limits buf) = NeedMoreData ->
  FrameCodec_Decode limits buf = MkFrameDecodeResult NeedMoreData 0 None None.
Proof.
  intros H%Decode_need_more. rewrite Decode_error by congruence. by rewrite H.
Qed.

Lemma Decode_request_id limits buf r :
  request_ (FrameCodec_Decode limits buf) = Some r -> is_u 64 (req_request_id_ r).
Proof.
  unfold FrameCodec_Decode.
  destruct (decide (view_error_ (ReadFrame buf limits) = ProtoOk)) as [E|E].
  2: { rewrite bool_decide_false by done. done. }
  rewrite bool_decide_true by done. simpl negb. cbv iota.
  destruct (bool_decide _); [|by repeat case_match].
  destruct (DecodeRequestEnvelope _ _ _) as [r'|] eqn:Er; [|done]. intros [= <-].
  unfold DecodeRequestEnvelope in Er.
  repeat (case_match; simplify_option_eq; try done).
  revert E. rewrite ReadFrame_fields. cbv zeta.
  destruct (Z.ltb_spec (len buf) 24) as [|Hlen]; [done|].
  repeat (case_match; try done). intros _.
  by apply decoded_fields_wf.
Qed.

Lemma Decode_ok_consumed limits buf :
  error_ (FrameCodec_Decode limits buf) = ProtoOk ->
  24 <= consumed_ (FrameCodec_Decode limits buf) <= len buf.
Proof.
  intros H. unfold FrameCodec_Decode in *.
  destruct (decide (view_error_ (ReadFrame buf limits) = ProtoOk)) as [E|E].
  - pose proof (ReadFrame_consumed buf limits E). by repeat case_match.
  - rewrite bool_decide_false in H by done. done.
Qed.

End Envelopes.

(** ** A concrete serialisation

    A length-prefixed stand-in for the generated classes, for evaluating the
    model on concrete inputs: it satisfies the laws the codec relies on. *)
Module ExampleWire.

Definition request_serialize (service method : bytes) : bool * bytes :=
  (len service + len method + 12 <=? INT_MAX,
   be_encode 8 (len service) ++ service ++ method).

Definition request_parse (b : bytes) : option (bytes * bytes) :=
  if len b <? 8 then None else
  let n := be_decode (take 8 b) in
  if len b - 8 <? n then None else
  Some (take (Z.to_nat n) (drop 8 b), drop (Z.to_nat n) (drop 8 b)).

Definition response_serialize (code : Z) (text : bytes) : bool * bytes :=
  (true, if bool_decide (code = 0 /\ text = []) then []
         else be_encode 4 (code + 2 ^ 31) ++ text).

Definition response_parse (b : bytes) : option (Z * bytes) :=
  if bool_decide (b = []) then Some (0, []) else
  if len b <? 4 then None else Some (be_decode (take 4 b) - 2 ^ 31, drop 4 b).

#[export] Instance wire : Wire := {
  host_order := LittleEndian;
  RequestMetadata_SerializeToString := request_serialize;
  RequestMetadata_ParseFromArray := request_parse;
  ResponseMetadata_SerializeToString := response_serialize;
  ResponseMetadata_ParseFromArray := response_parse
}.

Lemma request_parse_serialize service method b :
  request_serialize service method = (true, b) -> request_parse b = Some (service, method).
Proof.
  intros [Hlen <-]%pair_equal_spec. apply Z.leb_le in Hlen. unfold INT_MAX in Hlen.
  pose proof (len_nonneg service). pose proof (len_nonneg method).
  assert (length (be_encode 8 (len service)) = 8%nat) as H8 by apply length_be_encode.
  assert (len (be_encode 8 (len service)) = 8) as H8' by apply len_be_encode.
  unfold request_parse.
  rewrite !len_app, H8', (proj2 (Z.ltb_ge _ 8)) by lia.
  rewrite take_app_length', drop_app_length' by done.
  rewrite be_decode_encode, Z.mod_small by lia.
  rewrite (proj2 (Z.ltb_ge _ (len service))) by lia.
  unfold len. by rewrite Nat2Z.id, take_app_length, drop_app_length.
Qed.

Lemma response_parse_serialize code text b :
  - 2 ^ 31 <= code < 2 ^ 31 -> response_serialize code text = (true, b) ->
  response_parse b = Some (code, text).
Proof.
  intros Hc [_ <-]%pair_equal_spec. unfold response_parse.
  destruct (decide (code = 0 /\ text = [])) as [[-> ->]|E]; [done|].
  rewrite (bool_decide_false (code = 0 /\ text = [])) by done.
  assert (length (be_encode 4 (code + 2 ^ 31)) = 4%nat) as H4 by apply length_be_encode.
  assert (len (be_encode 4 (code + 2 ^ 31)) = 4) as H4' by apply len_be_encode.
  pose proof (len_nonneg text).
  rewrite bool_decide_false by (intros [E' _]%app_eq_nil; by rewrite E' in H4).
  rewrite len_app, H4', (proj2 (Z.ltb_ge _ 4)) by lia.
  rewrite take_app_length', drop_app_length', be_decode_encode, Z.mod_small by (done || lia).
  do 2 f_equal. lia.
Qed.

#[export] Program Instance wire_laws : WireLaws wire := {
  proto_text _ := True
}.
Next Obligation. done. Qed.
Next Obligation. intros. by apply Z.leb_le. Qed.
Next Obligation. intros. by apply request_parse_serialize. Qed.
Next Obligation. done. Qed.
Next Obligation. intros. by apply response_parse_serialize. Qed.
Next Obligation. done. Qed.

Definition echo_request : RequestEnvelope :=
  MkRequestEnvelope 7 (bs "EchoService") (bs "Echo") (bs "hello").

Definition not_found_response : ResponseEnvelope :=
  MkResponseEnvelope 7 (status NotFound "method not found") [].

(** The frames of the two examples. *)
Definition echo_frame : bytes :=
  match FrameCodec_EncodeRequest ProtocolLimits_default echo_request with
  | Some r => default [] (so_value_ r) | None => []
  end.

Definition not_found_frame : bytes :=
  match FrameCodec_EncodeResponse ProtocolLimits_default not_found_response with
  | Some r => default [] (so_value_ r) | None => []
  end.

End ExampleWire.

(** ** Properties *)

Section Properties.
Context {W : Wire} {L : WireLaws W}.

(** encoding never ends the process and is exact.  For a request whose
    names stay below Protobuf's message limit, and for every response,
    [Encode] returns the header followed by metadata and payload when both
    sections fit the limits (and 32 bits), and [ResourceExhausted] otherwise,
    in which case no frame is produced. *)
Theorem FrameCodec_Encode_total limits request response :
  is_u 64 (req_request_id_ request) -> is_u 64 (resp_request_id_ response) ->
  len (service_name_ request) + len (method_name_ request) + 12 <= INT_MAX ->
  (exists m r, FrameCodec_EncodeRequest limits request = Some r /\
     if decide (fits limits m (req_payload_ request))
     then r = StatusOr_value (frame_bytes MessageType_Request (req_request_id_ request) m
                                (req_payload_ request))
     else code_ (so_status_ r) = ResourceExhausted /\ so_value_ r = None) /\
  (exists r, FrameCodec_EncodeResponse limits response = Some r /\
     if decide (fits limits (EncodeResponseMetadata response) (resp_payload_ response))
     then r = StatusOr_value (frame_bytes MessageType_Response (resp_request_id_ response)
                                (EncodeResponseMetadata response) (resp_payload_ response))
     else code_ (so_status_ r) = ResourceExhausted /\ so_value_ r = None).
Proof.
  intros Hq Hp Hlen. split.
  - rewrite EncodeRequest_spec by done.
    pose proof (request_metadata_serializes _ _ Hlen) as Hs.
    destruct (RequestMetadata_SerializeToString _ _) as [ok m]. simpl in Hs. subst ok.
    exists m. eexists. split; [reflexivity|]. case_decide.
    + by rewrite bool_decide_true.
    + rewrite bool_decide_false by done.
      by destruct (Validate_unfit m (req_payload_ request) limits) as [text ->].
  - rewrite EncodeResponse_spec by done. eexists. split; [reflexivity|]. case_decide.
    + by rewrite bool_decide_true.
    + rewrite bool_decide_false by done.
      by destruct (Validate_unfit (EncodeResponseMetadata response) (resp_payload_ response)
        limits) as [text ->].
Qed.

(** C4: request round trip.  Decoding an encoded request, with any bytes after
    it in the buffer, gives back the same request and consumes exactly the
    frame. *)
Theorem FrameCodec_request_roundtrip limits request frame rest :
  limits_ok limits -> is_u 64 (req_request_id_ request) ->
  proto_text (service_name_ request) -> proto_text (method_name_ request) ->
  FrameCodec_EncodeRequest limits request = Some (StatusOr_value frame) ->
  FrameCodec_Decode limits (frame ++ rest) =
  MkFrameDecodeResult ProtoOk (len frame) (Some request) None.
Proof.
  intros Hl Hid Hs Hm He.
  destruct (EncodeRequest_value _ _ _ Hid He) as (m & Hser & Hf & ->).
  apply Decode_request_frame; [done..|]. by apply request_metadata_parses.
Qed.

(** C25: response round trip.  Decoding an encoded response, with any bytes
    after it, consumes exactly the frame and gives back request id and payload
    unchanged; a failure keeps its code and message, and a success arrives as
    the plain OK status. *)
Theorem FrameCodec_response_roundtrip limits response frame rest :
  limits_ok limits -> is_u 64 (resp_request_id_ response) ->
  proto_text (message_ (resp_status_ response)) ->
  len (message_ (resp_status_ response)) + 17 <= INT_MAX ->
  FrameCodec_EncodeResponse limits response = Some (StatusOr_value frame) ->
  FrameCodec_Decode limits (frame ++ rest) =
  MkFrameDecodeResult ProtoOk (len frame) None
    (Some (MkResponseEnvelope (resp_request_id_ response)
             (if decide (code_ (resp_status_ response) = Ok) then Status_Ok
              else resp_status_ response)
             (resp_payload_ response))).
Proof.
  intros Hl Hid Ht Hlen He.
  destruct (EncodeResponse_value _ _ _ Hid He) as (Hf & ->).
  erewrite Decode_response_frame; [|done..|by apply EncodeResponseMetadata_parses].
  rewrite DecodeStatus_value. by destruct (resp_status_ response).
Qed.

(** framing is self-delimiting.  On every strict prefix of an encoded
    request or response the decoder asks for more bytes, consumes nothing and
    returns no envelope. *)
Theorem FrameCodec_prefix_needs_more limits request response frame buf rest :
  is_u 64 (req_request_id_ request) -> is_u 64 (resp_request_id_ response) ->
  FrameCodec_EncodeRequest limits request = Some (StatusOr_value frame) \/
  FrameCodec_EncodeResponse limits response = Some (StatusOr_value frame) ->
  frame = buf ++ rest -> rest <> [] ->
  FrameCodec_Decode limits buf = MkFrameDecodeResult NeedMoreData 0 None None.
Proof.
  intros Hq Hp He Happ Hrest. apply Decode_need_more_eq, Decode_need_more.
  destruct He as [He|He].
  - destruct (EncodeRequest_value _ _ _ Hq He) as (m & _ & Hf & Hfr). subst frame.
    by rewrite (ReadFrame_prefix _ _ _ _ limits buf rest Hq Hf (eq_sym Hfr)).
  - destruct (EncodeResponse_value _ _ _ Hp He) as (Hf & Hfr). subst frame.
    by rewrite (ReadFrame_prefix _ _ _ _ limits buf rest Hp Hf (eq_sym Hfr)).
Qed.

End Properties.

(** decoding is incremental.  Once [Decode] gives any verdict other than
    "need more data", the verdict is final: bytes arriving later change
    neither the error, nor the consumed count, nor the envelope. *)
Theorem FrameCodec_Decode_stable (W : Wire) limits buf more :
  error_ (FrameCodec_Decode limits buf) = NeedMoreData \/
  FrameCodec_Decode limits (buf ++ more) = FrameCodec_Decode limits buf.
Proof.
  destruct (decide (error_ (FrameCodec_Decode limits buf) = NeedMoreData)); [by left|].
  right. by apply Decode_app.
Qed.

(** C26: bounds of decoding.  "Need more data" is only answered while the
    buffer is shorter than one maximal frame, so a peer cannot make the
    receiver buffer more than that; a decoded envelope consumes at least the
    header and at most what is buffered, and exactly one of request and
    response is present exactly when the verdict is OK. *)
Theorem FrameCodec_Decode_bounds (W : Wire) limits buf :
  limits_ok limits ->
  let r := FrameCodec_Decode limits buf in
  (error_ r = NeedMoreData ->
     consumed_ r = 0 /\
     len buf < SIZE + max_metadata_size_ limits + max_payload_size_ limits) /\
  (error_ r = ProtoOk -> SIZE <= consumed_ r <= len buf) /\
  (error_ r = ProtoOk <-> HasEnvelope r = true) /\
  (request_ r = None \/ response_ r = None).
Proof.
  intros [Hm Hp] r. split_and!.
  - intros H. split; [by rewrite (Decode_need_more_eq _ _ H : r = _)|].
    apply Decode_need_more in H. apply ReadFrame_need_more in H; unfold SIZE; lia.
  - apply Decode_ok_consumed.
  - subst r. unfold FrameCodec_Decode, HasEnvelope.
    destruct (decide (view_error_ (ReadFrame buf limits) = ProtoOk)) as [E|E].
    + rewrite bool_decide_true by done. simpl. by repeat case_match.
    + rewrite bool_decide_false by done. simpl. done.
  - subst r. unfold FrameCodec_Decode. repeat case_match; simpl; auto.
Qed.

(** C40: status codes read from the wire.  The ten defined codes decode to
    themselves and integers of one byte outside them become [DataLoss]; but
    the cast to the 8-bit enum keeps the low byte only, so every wire integer
    congruent to a defined code modulo 256 is accepted as that code: an
    undefined code such as 256 decodes as success. *)
Theorem DecodeStatus_truncates code text :
  DecodeStatus code text = DecodeStatus (code mod 256) text /\
  (code_ (DecodeStatus code text) = Ok <-> code mod 256 = 0) /\
  (forall c, StatusCode_value c = code mod 256 -> code_ (DecodeStatus code text) = c) /\
  ((forall c, StatusCode_value c <> code mod 256) ->
     DecodeStatus code text = status DataLoss "response contains an invalid RPC status code") /\
  DecodeStatus 256 text = Status_Ok.
Proof.
  assert (DecodeStatus code text = DecodeStatus (code mod 256) text) as E.
  { unfold DecodeStatus, StatusCode_cast, wrap. change (2 ^ 8) with 256. by rewrite Zmod_mod. }
  rewrite E. pose proof (Z.mod_pos_bound code 256 ltac:(lia)) as Hr.
  generalize dependent (code mod 256). intros x _ Hx. split; [done|].
  assert (forall c, StatusCode_value c = x -> code_ (DecodeStatus x text) = c) as Hdef
    by (intros c <-; rewrite DecodeStatus_value; by case_decide).
  assert ((forall c, StatusCode_value c <> x) ->
     DecodeStatus x text = status DataLoss "response contains an invalid RPC status code") as Hun.
  { intros Hno. unfold DecodeStatus, StatusCode_cast. rewrite wrap_small by done.
    destruct (find _ _) eqn:F; [|done].
    apply find_some in F as [_ F%Z.eqb_eq]. by destruct (Hno s). }
  split_and!; [|done|done|done].
  split; [|intros ->; by apply Hdef].
  intros Hok. destruct (decide (x = 0)) as [|Hne]; [done|].
  destruct (decide (Exists (fun c => StatusCode_value c = x) all_codes)) as [Hex|Hno].
  - apply Exists_exists in Hex as (c & _ & Hc). rewrite (Hdef c Hc) in Hok. by subst.
  - rewrite Hun in Hok; [done|]. intros c Hc. apply Hno, Exists_exists.
    eauto using elem_of_all_codes.
Qed.

(** *** Witnesses *)
Section Witnesses.
Import ExampleWire.

Lemma FrameCodec_Encode_total_witness :
  exists r, FrameCodec_EncodeRequest ProtocolLimits_default echo_request = Some r.
Proof.
  destruct (FrameCodec_Encode_total ProtocolLimits_default echo_request not_found_response)
    as [(m & r & H & _) _]; [done|done|done|]. by exists r.
Defined.

Lemma FrameCodec_request_roundtrip_witness :
  FrameCodec_Decode ProtocolLimits_default (echo_frame ++ bs "tail") =
  MkFrameDecodeResult ProtoOk 52 (Some echo_request) None.
Proof.
  apply (FrameCodec_request_roundtrip ProtocolLimits_default echo_request echo_frame (bs "tail"));
    [done|done|done|done|vm_compute; reflexivity].
Defined.

Lemma FrameCodec_response_roundtrip_witness :
  response_ (FrameCodec_Decode ProtocolLimits_default (not_found_frame ++ bs "tail"))
  = Some not_found_response.
Proof.
  rewrite (FrameCodec_response_roundtrip ProtocolLimits_default not_found_response
    not_found_frame (bs "tail")); [reflexivity|done|done|done|done|vm_compute; reflexivity].
Defined.

Lemma FrameCodec_prefix_needs_more_witness :
  FrameCodec_Decode ProtocolLimits_default (take 51 echo_frame) =
  MkFrameDecodeResult NeedMoreData 0 None None.
Proof.
  apply (FrameCodec_prefix_needs_more ProtocolLimits_default echo_request not_found_response
    echo_frame (take 51 echo_frame) (drop 51 echo_frame));
    [done|done|left; vm_compute; reflexivity|by rewrite take_drop|vm_compute; discriminate].
Defined.

Lemma FrameCodec_Decode_bounds_witness :
  len (bs "XRPC") < SIZE + 65536 + 4194304.
Proof.
  apply (FrameCodec_Decode_bounds wire ProtocolLimits_default (bs "XRPC") limits_ok_default).
  vm_compute. reflexivity.
Defined.

End Witnesses.
