(* ===== verification/FrameStream.v ===== *)
(** * Incremental request decoding over a TCP byte stream

    Models [src/include/server/rpc_frame_stream.h] and
    [src/server/rpc_frame_stream.cpp]: the byte buffer with its movable
    readable window, the batch of decoded envelopes and [RpcFrameStream].
    [std::string::capacity()] is an argument of the operations that read it:
    the theorems hold whatever capacity the library reports. *)

From S2P Require Import Prelude Status FrameHeader FrameCodec.

Local Open Scope Z_scope.

(** ** [RpcFrameStream::ByteBuffer] *)
Record ByteBuffer := MkByteBuffer {
  buffer_ : bytes;
  read_offset_ : Z
}.

Definition ByteBuffer_empty : ByteBuffer := MkByteBuffer [] 0.

Definition ByteBuffer_ReadableSize (b : ByteBuffer) : Z :=
  (len (buffer_ b) -u read_offset_ b)%word.

Definition ByteBuffer_ReadableBytes (b : ByteBuffer) : bytes :=
  if ByteBuffer_ReadableSize b =? 0 then []
  else substr (buffer_ b) (read_offset_ b) (ByteBuffer_ReadableSize b).

Definition ByteBuffer_Empty (b : ByteBuffer) : bool := ByteBuffer_ReadableSize b =? 0.

Definition ByteBuffer_Compact (b : ByteBuffer) : option ByteBuffer :=
  if read_offset_ b =? 0 then Some b else
  if negb (read_offset_ b <? len (buffer_ b)) then Abort "assertion failed" else
  Some (MkByteBuffer (drop (Z.to_nat (read_offset_ b)) (buffer_ b)) 0).

(** [capacity] is [buffer_.capacity()] at the call. *)
Definition ByteBuffer_Append (capacity : Z) (b : ByteBuffer) (data : bytes) : option ByteBuffer :=
  if bool_decide (data = []) then Some b else
  b ← (if (capacity -u len (buffer_ b))%word <? len data then ByteBuffer_Compact b else Some b);
  Some (MkByteBuffer (buffer_ b ++ data) (read_offset_ b)).

Definition ByteBuffer_Consume (b : ByteBuffer) (n : Z) : option ByteBuffer :=
  if ByteBuffer_ReadableSize b <? n then
    Abort "RpcFrameStream attempted to consume beyond readable bytes"
  else
    let read_offset := (read_offset_ b +u n)%word in
    if read_offset =? len (buffer_ b) then Some (MkByteBuffer [] 0)
    else Some (MkByteBuffer (buffer_ b) read_offset).

(** ** [RequestEnvelopeBatch] *)
Record RequestEnvelopeBatch := MkBatch {
  first_request_ : option RequestEnvelope;
  additional_requests_ : list RequestEnvelope
}.

Definition RequestEnvelopeBatch_new : RequestEnvelopeBatch := MkBatch None [].

Definition RequestEnvelopeBatch_Push (b : RequestEnvelopeBatch) (request : RequestEnvelope)
    : RequestEnvelopeBatch :=
  match first_request_ b with
  | None => MkBatch (Some request) (additional_requests_ b)
  | Some _ => MkBatch (first_request_ b) (additional_requests_ b ++ [request])
  end.

Definition RequestEnvelopeBatch_size (b : RequestEnvelopeBatch) : Z :=
  (if first_request_ b then 1 else 0) + len (additional_requests_ b).

Definition RequestEnvelopeBatch_empty (b : RequestEnvelopeBatch) : bool :=
  RequestEnvelopeBatch_size b =? 0.

(** [operator[]]; indexing past the vector is undefined. *)
Definition RequestEnvelopeBatch_at (b : RequestEnvelopeBatch) (index : Z)
    : option RequestEnvelope :=
  match first_request_ b with
  | None => additional_requests_ b !! Z.to_nat index
  | Some first =>
      if index =? 0 then Some first else additional_requests_ b !! Z.to_nat (index - 1)
  end.

(** [std::ranges::all_of] with a callback that changes a state of type [S]. *)
Fixpoint all_of {A S} (callback : S -> A -> S * bool) (s : S) (l : list A) : S * bool :=
  match l with
  | [] => (s, true)
  | x :: l => let '(s, ok) := callback s x in if ok then all_of callback s l else (s, false)
  end.

Definition RequestEnvelopeBatch_ConsumeEach {S} (callback : S -> RequestEnvelope -> S * bool)
    (s : S) (b : RequestEnvelopeBatch) : S * bool :=
  match first_request_ b with
  | Some first =>
      let '(s, ok) := callback s first in
      if negb ok then (s, false) else all_of callback s (additional_requests_ b)
  | None => all_of callback s (additional_requests_ b)
  end.

(** ** [RpcFrameStream] *)
Record RpcFrameStream := MkRpcFrameStream {
  stream_buffer_ : ByteBuffer;
  protocol_limits_ : ProtocolLimits;
  stream_closed_ : bool
}.

Definition RpcFrameStream_new (limits : ProtocolLimits) : RpcFrameStream :=
  MkRpcFrameStream ByteBuffer_empty limits false.

Record FrameStreamFeedResult := MkFeedResult {
  requests_ : RequestEnvelopeBatch;
  feed_closed_ : bool
}.

Section Stream.
Context {W : Wire}.

(** The loop of [DecodeAvailableRequests]; [fuel] bounds its iterations. *)
Fixpoint DecodeAvailableRequests_loop (fuel : nat) (st : RpcFrameStream)
    (requests : RequestEnvelopeBatch) : option (RpcFrameStream * RequestEnvelopeBatch) :=
  match fuel with
  | O => None
  | S fuel =>
      if negb (ByteBuffer_Empty (stream_buffer_ st)) && negb (stream_closed_ st) then
        let decoded := FrameCodec_Decode (protocol_limits_ st)
                         (ByteBuffer_ReadableBytes (stream_buffer_ st)) in
        if bool_decide (error_ decoded = NeedMoreData) then Some (st, requests) else
        match request_ decoded with
        | Some request =>
            if negb (bool_decide (error_ decoded = ProtoOk)) then
              Some (MkRpcFrameStream (stream_buffer_ st) (protocol_limits_ st) true, requests)
            else
              buffer ← ByteBuffer_Consume (stream_buffer_ st) (consumed_ decoded);
              DecodeAvailableRequests_loop fuel
                (MkRpcFrameStream buffer (protocol_limits_ st) (stream_closed_ st))
                (RequestEnvelopeBatch_Push requests request)
        | None =>
            Some (MkRpcFrameStream (stream_buffer_ st) (protocol_limits_ st) true, requests)
        end
      else Some (st, requests)
  end.

(** Every iteration but the last consumes a non-empty frame: one iteration more
    than there are readable bytes is enough. *)
Definition DecodeAvailableRequests (st : RpcFrameStream)
    : option (RpcFrameStream * RequestEnvelopeBatch) :=
  DecodeAvailableRequests_loop (S (length (ByteBuffer_ReadableBytes (stream_buffer_ st)))) st
    RequestEnvelopeBatch_new.

Definition FeedBytes (capacity : Z) (st : RpcFrameStream) (data : bytes)
    : option (RpcFrameStream * FrameStreamFeedResult) :=
  if stream_closed_ st then Some (st, MkFeedResult RequestEnvelopeBatch_new true) else
  buffer ← ByteBuffer_Append capacity (stream_buffer_ st) data;
  '(st, requests) ← DecodeAvailableRequests
                      (MkRpcFrameStream buffer (protocol_limits_ st) (stream_closed_ st));
  Some (st, MkFeedResult requests (stream_closed_ st)).

End Stream.

(** ** Abstraction of the buffer: its readable bytes *)

(** The consumed prefix never covers the whole of a non-empty buffer, and the
    sizes are those of objects in memory. *)
Definition ByteBuffer_wf (b : ByteBuffer) : Prop :=
  0 <= read_offset_ b /\ len (buffer_ b) < 2 ^ 64 /\
  (read_offset_ b < len (buffer_ b) \/ b = ByteBuffer_empty).

Definition readable (b : ByteBuffer) : bytes := drop (Z.to_nat (read_offset_ b)) (buffer_ b).

Lemma ReadableSize_wf b : ByteBuffer_wf b -> ByteBuffer_ReadableSize b = len (readable b).
Proof.
  intros (?&?&[Hb| ->]); [|done]. unfold ByteBuffer_ReadableSize, readable.
  rewrite sub64_small by lia. unfold len in *. rewrite length_drop. lia.
Qed.

Lemma ReadableBytes_wf b : ByteBuffer_wf b -> ByteBuffer_ReadableBytes b = readable b.
Proof.
  intros Hb. unfold ByteBuffer_ReadableBytes. rewrite ReadableSize_wf by done.
  destruct (Z.eqb_spec (len (readable b)) 0) as [E|E].
  - by rewrite (len_0_nil _ E).
  - unfold substr, readable, len. rewrite Nat2Z.id. by rewrite firstn_all.
Qed.

Lemma ByteBuffer_Empty_wf b : ByteBuffer_wf b -> ByteBuffer_Empty b = bool_decide (readable b = []).
Proof.
  intros Hb. unfold ByteBuffer_Empty. rewrite ReadableSize_wf by done.
  destruct (readable b) as [|x l]; [done|]. rewrite bool_decide_false by done.
  rewrite len_cons. pose proof (len_nonneg l). apply Z.eqb_neq. lia.
Qed.

Lemma Compact_spec b :
  ByteBuffer_wf b ->
  exists b', ByteBuffer_Compact b = Some b' /\ read_offset_ b' = 0 /\ buffer_ b' = readable b.
Proof.
  intros (?&?&Hb). unfold ByteBuffer_Compact, readable.
  destruct (Z.eqb_spec (read_offset_ b) 0) as [E|E].
  - exists b. rewrite E. by rewrite drop_0.
  - destruct Hb as [Hb|Hb]; [|by rewrite Hb in E].
    rewrite (proj2 (Z.ltb_lt _ _)) by done. simpl. eauto.
Qed.

Lemma Append_spec capacity b data :
  ByteBuffer_wf b -> len (buffer_ b) + len data < 2 ^ 64 ->
  exists b', ByteBuffer_Append capacity b data = Some b' /\ ByteBuffer_wf b' /\
    readable b' = readable b ++ data /\ len (buffer_ b') <= len (buffer_ b) + len data.
Proof.
  intros Hb Hsize. pose proof (len_nonneg data). unfold ByteBuffer_Append. case_bool_decide as Hd.
  { subst data. exists b. rewrite app_nil_r. split_and!; [done|done|done|lia]. }
  assert (0 < len data) as Hpos by (destruct data; [done|]; rewrite len_cons;
    pose proof (len_nonneg data); lia).
  destruct (Compact_spec b Hb) as (c & Hc & Hoff & Hbuf).
  assert (len (readable b) <= len (buffer_ b)) as Hle
    by (unfold readable, len; rewrite length_drop; lia).
  pose proof (len_nonneg (readable b)).
  destruct (_ <? len data).
  - rewrite Hc. cbn [mbind option_bind]. eexists. split; [reflexivity|].
    unfold ByteBuffer_wf. unfold readable at 1. simpl. rewrite Hoff, Hbuf, len_app, drop_0.
    split_and!; [done|lia| left; lia |done|lia].
  - cbn [mbind option_bind]. eexists. split; [reflexivity|].
    destruct Hb as (?&?&Hb). unfold ByteBuffer_wf. unfold readable at 1. simpl. rewrite len_app.
    split_and!; [done|lia| |  | lia].
    + left. destruct Hb as [| ->]; [lia|]. change (0 < 0 + len data). lia.
    + unfold readable. destruct Hb as [Hb| ->]; [|done].
      rewrite drop_app_le by (unfold len in Hb; lia). done.
Qed.

Lemma Consume_spec b n :
  ByteBuffer_wf b -> 0 <= n <= len (readable b) ->
  exists b', ByteBuffer_Consume b n = Some b' /\ ByteBuffer_wf b' /\
    readable b' = drop (Z.to_nat n) (readable b) /\ len (buffer_ b') <= len (buffer_ b).
Proof.
  intros Hb Hn. unfold ByteBuffer_Consume.
  rewrite ReadableSize_wf, (proj2 (Z.ltb_ge _ n)) by (done || lia).
  assert (len (readable b) = len (buffer_ b) - read_offset_ b) as Hlen.
  { rewrite <- ReadableSize_wf by done. destruct Hb as (?&?&[| ->]); [|done].
    apply sub64_small; lia. }
  destruct Hb as (?&?&Hb). rewrite add64_small by lia.
  destruct (Z.eqb_spec (read_offset_ b + n) (len (buffer_ b))) as [E|E].
  - exists ByteBuffer_empty. pose proof (len_nonneg (buffer_ b)). split_and!; [done|..].
    + split_and!; [done|done|by right].
    + rewrite drop_ge; [done|]. unfold len in *. lia.
    + simpl. rewrite len_nil. done.
  - eexists. split; [reflexivity|]. unfold ByteBuffer_wf, readable. simpl.
    split_and!; [lia|lia|left; lia| |lia].
    rewrite drop_drop. f_equal. lia.
Qed.

(** ** Abstraction of a batch: the list of its envelopes in decode order *)
Definition batch_list (b : RequestEnvelopeBatch) : list RequestEnvelope :=
  match first_request_ b with Some r => r :: additional_requests_ b | None => additional_requests_ b end.

Definition batch_wf (b : RequestEnvelopeBatch) : Prop :=
  first_request_ b = None -> additional_requests_ b = [].

Lemma Push_list b r :
  batch_wf b ->
  batch_wf (RequestEnvelopeBatch_Push b r) /\
  batch_list (RequestEnvelopeBatch_Push b r) = batch_list b ++ [r].
Proof.
  destruct b as [[f|] l]; unfold batch_wf, batch_list, RequestEnvelopeBatch_Push; simpl; [done|].
  intros H. by rewrite H.
Qed.

(** ** The language of the stream

    [Parses limits b rs rest closed]: the frames at the start of [b] are the
    requests [rs]; decoding stops at [rest], because it is incomplete
    ([closed = false]) or because it is not a request frame ([closed = true]). *)
Section Language.
Context {W : Wire} (limits : ProtocolLimits).

Inductive Parses : bytes -> list RequestEnvelope -> bytes -> bool -> Prop :=
  | Parses_stop b :
      b = [] \/ error_ (FrameCodec_Decode limits b) = NeedMoreData -> Parses b [] b false
  | Parses_reject b :
      b <> [] -> error_ (FrameCodec_Decode limits b) <> NeedMoreData ->
      error_ (FrameCodec_Decode limits b) <> ProtoOk \/
        request_ (FrameCodec_Decode limits b) = None ->
      Parses b [] b true
  | Parses_request b r rs rest closed :
      b <> [] -> error_ (FrameCodec_Decode limits b) = ProtoOk ->
      request_ (FrameCodec_Decode limits b) = Some r ->
      Parses (drop (Z.to_nat (consumed_ (FrameCodec_Decode limits b))) b) rs rest closed ->
      Parses b (r :: rs) rest closed.

Lemma Decode_nil : error_ (FrameCodec_Decode limits []) = NeedMoreData.
Proof. done. Qed.

Lemma Parses_det b rs1 rest1 c1 rs2 rest2 c2 :
  Parses b rs1 rest1 c1 -> Parses b rs2 rest2 c2 -> rs1 = rs2 /\ rest1 = rest2 /\ c1 = c2.
Proof.
  intros H. revert rs2 rest2 c2.
  induction H as [b Hb|b Hne Hm Hr|b r rs rest c Hne Hok Hr _ IH]; intros rs2 rest2 c2 H2;
    inversion H2; subst; try (naive_solver congruence).
Qed.

(** The verdict on a request frame is kept when bytes follow it. *)
Lemma Decode_more b more :
  error_ (FrameCodec_Decode limits b) <> NeedMoreData ->
  FrameCodec_Decode limits (b ++ more) = FrameCodec_Decode limits b.
Proof. apply Decode_app. Qed.

Lemma Parses_app b rs rest more rs' rest' c :
  Parses b rs rest false -> Parses (rest ++ more) rs' rest' c ->
  Parses (b ++ more) (rs ++ rs') rest' c.
Proof.
  intros H. remember false as cf eqn:Ec.
  induction H as [b Hb|b Hne Hm Hr|b r rs rest c0 Hne Hok Hr Hp IH]; intros Hmore;
    [done|done|].
  assert (FrameCodec_Decode limits (b ++ more) = FrameCodec_Decode limits b) as E
    by (apply Decode_app; congruence).
  simpl. apply Parses_request; rewrite ?E; [by destruct b|done|done|].
  pose proof (Decode_ok_consumed limits b Hok).
  rewrite drop_app_le by (unfold len in *; lia). auto.
Qed.

Lemma Parses_closed_app b rs rest more :
  Parses b rs rest true -> Parses (b ++ more) rs (rest ++ more) true.
Proof.
  intros H. remember true as ct eqn:Ec.
  induction H as [b Hb|b Hne Hm Hr|b r rs rest c0 Hne Hok Hr Hp IH]; [done| |].
  - assert (FrameCodec_Decode limits (b ++ more) = FrameCodec_Decode limits b) as E
      by (apply Decode_app; congruence).
    apply Parses_reject; rewrite ?E; [by destruct b|done|done].
  - assert (FrameCodec_Decode limits (b ++ more) = FrameCodec_Decode limits b) as E
      by (apply Decode_app; congruence).
    apply Parses_request; rewrite ?E; [by destruct b|done|done|].
    pose proof (Decode_ok_consumed limits b Hok).
    rewrite drop_app_le by (unfold len in *; lia). auto.
Qed.

Lemma Parses_rest_length b rs rest c : Parses b rs rest c -> len rest <= len b.
Proof.
  induction 1 as [| |b r rs rest c Hne Hok Hr Hp IH]; [lia..|].
  unfold len in *. rewrite length_drop in IH. lia.
Qed.

(** A decoded request carries the 64-bit id of its header. *)
Lemma Parses_ids b rs rest c :
  Parses b rs rest c -> Forall (fun r => is_u 64 (req_request_id_ r)) rs.
Proof.
  induction 1 as [| |b r rs rest c Hne Hok Hr Hp IH]; [by apply Forall_nil..|].
  apply Forall_cons. split; [|done].
  pose proof (Decode_request_id limits b) as Hid. rewrite Hr in Hid. by apply Hid.
Qed.

(** The loop of the stream computes the language. *)
Lemma loop_Parses fuel st requests :
  protocol_limits_ st = limits -> stream_closed_ st = false ->
  ByteBuffer_wf (stream_buffer_ st) -> batch_wf requests ->
  (length (readable (stream_buffer_ st)) < fuel)%nat ->
  exists st' requests' rs,
    DecodeAvailableRequests_loop fuel st requests = Some (st', requests') /\
    Parses (readable (stream_buffer_ st)) rs (readable (stream_buffer_ st')) (stream_closed_ st') /\
    batch_list requests' = batch_list requests ++ rs /\ batch_wf requests' /\
    ByteBuffer_wf (stream_buffer_ st') /\ protocol_limits_ st' = limits /\
    len (buffer_ (stream_buffer_ st')) <= len (buffer_ (stream_buffer_ st)).
Proof.
  revert st requests. induction fuel as [|fuel IH]; [lia|].
  intros st requests Hlim Hopen Hwf Hbwf Hfuel. simpl.
  rewrite ByteBuffer_Empty_wf, ReadableBytes_wf, Hopen, andb_true_r, Hlim by done.
  destruct (decide (readable (stream_buffer_ st) = [])) as [Hnil|Hne].
  { rewrite bool_decide_true by done. simpl. exists st, requests, [].
    rewrite app_nil_r, Hopen. split_and!; try done. apply Parses_stop. by left. }
  rewrite (bool_decide_false (_ = [])) by done. simpl.
  set (b := readable (stream_buffer_ st)) in *.
  destruct (decide (error_ (FrameCodec_Decode limits b) = NeedMoreData)) as [Hneed|Hneed].
  { rewrite bool_decide_true by done. exists st, requests, [].
    rewrite app_nil_r, Hopen. split_and!; try done. apply Parses_stop. by right. }
  rewrite (bool_decide_false (_ = NeedMoreData)) by done.
  assert (forall P : Prop, (Parses b [] b true -> P) ->
    error_ (FrameCodec_Decode limits b) <> ProtoOk \/
    request_ (FrameCodec_Decode limits b) = None -> P) as Hrej
    by (intros P HP ?; apply HP; by apply Parses_reject).
  destruct (request_ (FrameCodec_Decode limits b)) as [r|] eqn:Hr.
  2: { eexists _, requests, []. split; [reflexivity|]. simpl. rewrite app_nil_r.
       split_and!; try done. apply Hrej; auto. }
  destruct (decide (error_ (FrameCodec_Decode limits b) = ProtoOk)) as [Hok|Hok].
  2: { rewrite (bool_decide_false (_ = ProtoOk)) by done.
       eexists _, requests, []. split; [reflexivity|]. simpl. rewrite app_nil_r.
       split_and!; try done. apply Hrej; auto. }
  rewrite bool_decide_true by done. simpl.
  pose proof (Decode_ok_consumed limits b Hok) as Hc.
  destruct (Consume_spec (stream_buffer_ st) (consumed_ (FrameCodec_Decode limits b)) Hwf)
    as (buf' & -> & Hwf' & Hread & Hsmall); [fold b; lia|]. cbn [mbind option_bind].
  destruct (Push_list requests r Hbwf) as [Hbwf' Hpush].
  edestruct (IH (MkRpcFrameStream buf' limits false)
    (RequestEnvelopeBatch_Push requests r)) as (st' & rq' & rs & -> & HP & Hl & ? & ? & ? & ?);
    simpl; try done.
  { rewrite Hread. fold b. rewrite length_drop. unfold len in Hc. lia. }
  exists st', rq', (r :: rs). split_and!; try done.
  - apply Parses_request; [done|done|done|]. simpl in HP. by rewrite Hread in HP.
  - rewrite Hl, Hpush, <- app_assoc. done.
  - simpl in *. lia.
Qed.

End Language.

(** ** Feeding *)
Section Feeding.
Context {W : Wire}.

Definition stream_wf (st : RpcFrameStream) : Prop := ByteBuffer_wf (stream_buffer_ st).

Definition stream_readable (st : RpcFrameStream) : bytes := readable (stream_buffer_ st).

(** Bytes held by the stream, the consumed prefix included. *)
Definition stream_held (st : RpcFrameStream) : Z := len (buffer_ (stream_buffer_ st)).

Lemma FeedBytes_open capacity st data :
  stream_wf st -> stream_closed_ st = false -> stream_held st + len data < 2 ^ 64 ->
  exists st' r,
    FeedBytes capacity st data = Some (st', r) /\ stream_wf st' /\
    protocol_limits_ st' = protocol_limits_ st /\ feed_closed_ r = stream_closed_ st' /\
    stream_held st' <= stream_held st + len data /\ batch_wf (requests_ r) /\
    Parses (protocol_limits_ st) (stream_readable st ++ data) (batch_list (requests_ r))
      (stream_readable st') (stream_closed_ st').
Proof.
  intros Hwf Hopen Hsize. unfold FeedBytes. rewrite Hopen.
  destruct (Append_spec capacity (stream_buffer_ st) data Hwf Hsize)
    as (b & -> & Hbwf & Hread & Hheld). cbn [mbind option_bind].
  unfold DecodeAvailableRequests. simpl stream_buffer_. rewrite ReadableBytes_wf by done.
  destruct (loop_Parses (protocol_limits_ st) (S (length (readable b)))
    (MkRpcFrameStream b (protocol_limits_ st) false) RequestEnvelopeBatch_new)
    as (st' & rq & rs & -> & HP & Hl & ? & ? & ? & ?); try done; [simpl; lia|].
  cbn [mbind option_bind]. eexists st', _. split; [reflexivity|]. simpl in *.
  split_and!; try done.
  - unfold stream_held. lia.
  - unfold stream_readable. rewrite Hread in HP. by rewrite Hl.
Qed.

Lemma FeedBytes_closed capacity st data :
  stream_closed_ st = true ->
  FeedBytes capacity st data = Some (st, MkFeedResult RequestEnvelopeBatch_new true).
Proof. intros H. unfold FeedBytes. by rewrite H. Qed.

(** The chunks of a byte stream fed one after the other, each with the capacity
    found at that moment; the requests of all feeds in order. *)
Fixpoint feed_all (st : RpcFrameStream) (chunks : list (Z * bytes))
    : option (RpcFrameStream * list RequestEnvelope) :=
  match chunks with
  | [] => Some (st, [])
  | (capacity, data) :: chunks =>
      '(st, r) ← FeedBytes capacity st data;
      '(st, rs) ← feed_all st chunks;
      Some (st, batch_list (requests_ r) ++ rs)
  end.

Definition chunk_bytes (chunks : list (Z * bytes)) : bytes := concat (map snd chunks).

Lemma feed_all_closed st chunks :
  stream_closed_ st = true -> feed_all st chunks = Some (st, []).
Proof.
  intros H. induction chunks as [|[capacity data] chunks IH]; [done|]. simpl.
  rewrite FeedBytes_closed by done. cbn [mbind option_bind]. by rewrite IH.
Qed.

Lemma feed_all_Parses chunks st :
  stream_wf st -> stream_closed_ st = false ->
  Parses (protocol_limits_ st) (stream_readable st) [] (stream_readable st) false ->
  stream_held st + len (chunk_bytes chunks) < 2 ^ 64 ->
  exists st' rs rest,
    feed_all st chunks = Some (st', rs) /\ stream_wf st' /\
    Parses (protocol_limits_ st) (stream_readable st ++ chunk_bytes chunks) rs rest
      (stream_closed_ st') /\
    (stream_closed_ st' = false -> rest = stream_readable st').
Proof.
  revert st. induction chunks as [|[capacity data] chunks IH]; intros st Hwf Hopen Hstop Hsize.
  { exists st, [], (stream_readable st). unfold chunk_bytes. simpl.
    rewrite app_nil_r, Hopen. done. }
  unfold chunk_bytes in *. simpl concat in *. rewrite len_app in Hsize.
  pose proof (len_nonneg (concat (map snd chunks))).
  destruct (FeedBytes_open capacity st data) as (st1 & r & Hfeed & Hwf1 & Hlim & _ & Hheld & _ & HP);
    [done|done|lia|]. simpl. rewrite Hfeed. cbn [mbind option_bind].
  destruct (stream_closed_ st1) eqn:Hc.
  - rewrite feed_all_closed by done. cbn [mbind option_bind].
    exists st1, (batch_list (requests_ r)), (stream_readable st1 ++ concat (map snd chunks)).
    rewrite app_nil_r, Hc, app_assoc. split_and!; [done|done| |done].
    by apply Parses_closed_app.
  - destruct (IH st1) as (st' & rs & rest & -> & Hwf' & HP' & Hrest); [done|done| |lia|].
    { rewrite Hlim. assert (forall b rs rest c, Parses (protocol_limits_ st) b rs rest c ->
        c = false -> Parses (protocol_limits_ st) rest [] rest false) as Hend.
      { induction 1; intros; [by apply Parses_stop|done|auto]. }
      by apply (Hend _ _ _ _ HP). }
    cbn [mbind option_bind]. exists st', (batch_list (requests_ r) ++ rs), rest.
    rewrite Hlim in HP'. split_and!; [done|done| |done].
    rewrite app_assoc. by apply (Parses_app _ _ _ (stream_readable st1)).
Qed.

Lemma Parses_nil limits : Parses limits [] [] [] false.
Proof. apply Parses_stop. by left. Qed.

Lemma feed_all_new limits chunks :
  len (chunk_bytes chunks) < 2 ^ 64 ->
  exists st rs rest,
    feed_all (RpcFrameStream_new limits) chunks = Some (st, rs) /\ stream_wf st /\
    Parses limits (chunk_bytes chunks) rs rest (stream_closed_ st) /\
    (stream_closed_ st = false -> rest = stream_readable st).
Proof.
  intros Hlen. apply (feed_all_Parses chunks (RpcFrameStream_new limits));
    [|done|apply Parses_nil|done].
  split_and!; [done|done|by right].
Qed.

(** The bytes of encoded requests parse back to the requests. *)
Lemma Parses_frames {L : WireLaws W} limits requests frames :
  limits_ok limits ->
  Forall2 (fun request frame =>
    is_u 64 (req_request_id_ request) /\
    proto_text (service_name_ request) /\ proto_text (method_name_ request) /\
    FrameCodec_EncodeRequest limits request = Some (StatusOr_value frame)) requests frames ->
  Parses limits (concat frames) requests [] false.
Proof.
  intros Hl. induction 1 as [|request frame requests frames (Hid & Hs & Hm & He) _ IH];
    [apply Parses_nil|]. simpl.
  destruct (EncodeRequest_value _ _ _ Hid He) as (m & Hser & Hf & ->).
  set (frame := frame_bytes _ _ _ _).
  assert (FrameCodec_Decode limits (frame ++ concat frames) =
    MkFrameDecodeResult ProtoOk (len frame) (Some request) None) as Hd.
  { apply Decode_request_frame; [done..|]. by apply request_metadata_parses. }
  assert (0 < len frame) as Hpos.
  { unfold frame. rewrite len_frame_bytes.
    pose proof (len_nonneg m). pose proof (len_nonneg (req_payload_ request)). lia. }
  clearbody frame. apply Parses_request; rewrite ?Hd; cbn [error_ request_ consumed_].
  - by destruct frame.
  - reflexivity.
  - reflexivity.
  - unfold len. by rewrite Nat2Z.id, drop_app_length.
Qed.

End Feeding.

(** ** Properties *)

(** C5: the request stream does not depend on how TCP splits it.  Feeding any
    byte string in any sequence of chunks (with any capacities of the buffer)
    never ends the process, and produces the same requests in the same order,
    and the same open/closed state, as feeding it in one piece. *)
Theorem FeedBytes_chunk_invariant (W : Wire) limits chunks capacity :
  len (chunk_bytes chunks) < 2 ^ 64 ->
  exists st rs st1 r1,
    feed_all (RpcFrameStream_new limits) chunks = Some (st, rs) /\
    FeedBytes capacity (RpcFrameStream_new limits) (chunk_bytes chunks) = Some (st1, r1) /\
    rs = batch_list (requests_ r1) /\ stream_closed_ st = feed_closed_ r1.
Proof.
  intros Hlen.
  destruct (feed_all_new limits chunks Hlen) as (st & rs & rest & H & _ & HP & _).
  destruct (FeedBytes_open capacity (RpcFrameStream_new limits) (chunk_bytes chunks))
    as (st1 & r1 & H1 & _ & _ & Hc & _ & _ & HP1);
    [split_and!; [done|done|by right]|done|done|].
  destruct (Parses_det _ _ _ _ _ _ _ _ HP HP1) as (-> & _ & Hcl).
  exists st, (batch_list (requests_ r1)), st1, r1. split_and!; [done|done|done|]. congruence.
Qed.

(** end to end over a byte stream.  The frames of any sequence of encoded
    requests, concatenated and split arbitrarily, come out of the stream as
    exactly those requests in order; the stream stays open and nothing remains
    buffered. *)
Theorem FeedBytes_end_to_end (W : Wire) (L : WireLaws W) limits requests frames chunks :
  limits_ok limits ->
  Forall2 (fun request frame =>
    is_u 64 (req_request_id_ request) /\
    proto_text (service_name_ request) /\ proto_text (method_name_ request) /\
    FrameCodec_EncodeRequest limits request = Some (StatusOr_value frame)) requests frames ->
  chunk_bytes chunks = concat frames -> len (chunk_bytes chunks) < 2 ^ 64 ->
  exists st,
    feed_all (RpcFrameStream_new limits) chunks = Some (st, requests) /\
    stream_closed_ st = false /\ ByteBuffer_ReadableBytes (stream_buffer_ st) = [].
Proof.
  intros Hl Hframes Hchunks Hlen.
  destruct (feed_all_new limits chunks Hlen) as (st & rs & rest & H & Hwf & HP & Hrest).
  rewrite Hchunks in HP.
  destruct (Parses_det _ _ _ _ _ _ _ _ HP (Parses_frames limits requests frames Hl Hframes))
    as (-> & -> & Hc).
  exists st. split_and!; [done|done|]. rewrite ReadableBytes_wf by done. symmetry. auto.
Qed.

(** C24: every feed of a stream in any reachable buffer state returns, keeps
    the buffer well formed, and either leaves less than one maximal frame
    buffered or closes the stream; a closed stream ignores all later input. *)
Theorem FeedBytes_bounded (W : Wire) capacity st data :
  stream_wf st -> limits_ok (protocol_limits_ st) ->
  len (buffer_ (stream_buffer_ st)) + len data < 2 ^ 64 ->
  exists st' r, FeedBytes capacity st data = Some (st', r) /\ stream_wf st' /\
    feed_closed_ r = stream_closed_ st' /\
    (stream_closed_ st = true -> st' = st /\ batch_list (requests_ r) = []) /\
    (stream_closed_ st' = false ->
       len (ByteBuffer_ReadableBytes (stream_buffer_ st')) <
       SIZE + max_metadata_size_ (protocol_limits_ st) + max_payload_size_ (protocol_limits_ st)).
Proof.
  intros Hwf [Hm Hp] Hsize. destruct (stream_closed_ st) eqn:Hc.
  { rewrite FeedBytes_closed by done. exists st, (MkFeedResult RequestEnvelopeBatch_new true).
    rewrite Hc. split_and!; done. }
  destruct (FeedBytes_open capacity st data Hwf Hc Hsize)
    as (st' & r & -> & Hwf' & _ & Hcl & _ & _ & HP).
  exists st', r. split_and!; [done|done|done|done|]. intros Hc'.
  rewrite ReadableBytes_wf by done. unfold stream_readable in HP. rewrite Hc' in HP.
  assert (forall b rs rest c, Parses (protocol_limits_ st) b rs rest c -> c = false ->
    len rest < 24 + max_metadata_size_ (protocol_limits_ st)
               + max_payload_size_ (protocol_limits_ st)) as Hend.
  { induction 1 as [b [->|Hb%Decode_need_more]| |]; intros; [change (0 < 24 + max_metadata_size_ (protocol_limits_ st) + max_payload_size_ (protocol_limits_ st)); lia| |done|auto].
    apply ReadFrame_need_more in Hb; lia. }
  by apply (Hend _ _ _ _ HP).
Qed.

(** the batch with its separately stored first envelope is a plain list:
    from the empty batch, [Push] appends, [size], [empty] and [operator[]]
    are the list's, and [ConsumeEach] hands out the envelopes in decode order
    and stops at the first rejection. *)
Theorem RequestEnvelopeBatch_refines_list rs :
  let b := foldl RequestEnvelopeBatch_Push RequestEnvelopeBatch_new rs in
  RequestEnvelopeBatch_size b = len rs /\
  RequestEnvelopeBatch_empty b = bool_decide (rs = []) /\
  (forall i, 0 <= i -> RequestEnvelopeBatch_at b i = rs !! Z.to_nat i) /\
  (forall S (callback : S -> RequestEnvelope -> S * bool) s,
     RequestEnvelopeBatch_ConsumeEach callback s b = all_of callback s rs).
Proof.
  assert (forall rs b, batch_wf b ->
    batch_wf (foldl RequestEnvelopeBatch_Push b rs) /\
    batch_list (foldl RequestEnvelopeBatch_Push b rs) = batch_list b ++ rs) as Hpush.
  { clear rs. induction rs as [|r rs IH]; intros b Hb; simpl; [by rewrite app_nil_r|].
    destruct (Push_list b r Hb) as [Hb' E]. destruct (IH _ Hb') as [? ->].
    by rewrite E, <- app_assoc. }
  destruct (Hpush rs RequestEnvelopeBatch_new ltac:(done)) as [Hwf Hl]. simpl in Hl.
  cbv zeta. generalize dependent (foldl RequestEnvelopeBatch_Push RequestEnvelopeBatch_new rs).
  intros [f l] Hwf <-. unfold RequestEnvelopeBatch_empty, RequestEnvelopeBatch_size,
    RequestEnvelopeBatch_at, RequestEnvelopeBatch_ConsumeEach, batch_list, batch_wf in *.
  simpl in *. destruct f as [f|]; split_and!; simpl; try done.
  - by rewrite len_cons.
  - pose proof (len_nonneg l). apply Z.eqb_neq. lia.
  - intros i Hi. destruct (Z.eqb_spec i 0) as [->|]; [done|].
    by replace (Z.to_nat i) with (S (Z.to_nat (i - 1))) by lia.
  - intros S cb s. by destruct (cb s f) as [? []].
  - by rewrite Hwf.
Qed.

(** *** Witnesses *)
Section StreamWitnesses.
Import ExampleWire.

(** Two frames cut in the middle of the first one and of the second one. *)
Definition example_chunks : list (Z * bytes) :=
  [(15, take 30 (echo_frame ++ echo_frame)); (30, take 50 (drop 30 (echo_frame ++ echo_frame)));
   (64, drop 80 (echo_frame ++ echo_frame))].

Lemma FeedBytes_chunk_invariant_witness :
  exists st rs, feed_all (RpcFrameStream_new ProtocolLimits_default) example_chunks = Some (st, rs).
Proof.
  destruct (FeedBytes_chunk_invariant wire ProtocolLimits_default example_chunks 15)
    as (st & rs & _ & _ & H & _); [vm_compute; reflexivity|]. exists st, rs. exact H.
Defined.

Lemma FeedBytes_end_to_end_witness :
  exists st, feed_all (RpcFrameStream_new ProtocolLimits_default) example_chunks
             = Some (st, [echo_request; echo_request]) /\ stream_closed_ st = false.
Proof.
  destruct (FeedBytes_end_to_end wire wire_laws ProtocolLimits_default
    [echo_request; echo_request] [echo_frame; echo_frame] example_chunks)
    as (st & H & Hc & _).
  - done.
  - repeat apply Forall2_cons_2; [| |by apply Forall2_nil];
      (split; [done|]; split; [done|]; split; [done|]; vm_compute; reflexivity).
  - vm_compute. reflexivity.
  - vm_compute. reflexivity.
  - exists st. exact (conj H Hc).
Defined.

Lemma FeedBytes_bounded_witness :
  exists st' r, FeedBytes 15 (RpcFrameStream_new ProtocolLimits_default) (bs "XR") = Some (st', r)
    /\ feed_closed_ r = false.
Proof.
  destruct (FeedBytes_bounded wire 15 (RpcFrameStream_new ProtocolLimits_default) (bs "XR"))
    as (st' & r & H & _ & Hc & _).
  - split_and!; [done|done|by right].
  - done.
  - vm_compute. reflexivity.
  - exists st', r. split; [exact H|]. vm_compute in H. injection H as <- <-. reflexivity.
Defined.

End StreamWitnesses.
