(* ===== verification/ServiceRegistry.v ===== *)
(** * Method registration and dispatch

    Models [src/server/service_registry.cpp], the handler adapter built by
    [RpcServer::Impl::RegisterMethod] ([src/server/rpc_server_impl.cpp]) and
    [MakeMethodRegistration] of [include/xrpc/rpc_server.h].  Handlers are user
    code: functions of the model that may read and change a [World] and may
    throw. *)

From S2P Require Import Prelude Status FrameHeader FrameCodec.

Local Open Scope Z_scope.

Section Registry.
Context {World : Type}.

(** [std::function<ResponseEnvelope(RequestEnvelope)>]: a value or a thrown
    exception, or the end of the process. *)
Definition RequestHandler : Type :=
  World -> RequestEnvelope -> option (World * (ResponseEnvelope + exn)).

Notation MethodMap := (gmap bytes RequestHandler).

Record ServiceRegistry := MkServiceRegistry { services_ : gmap bytes MethodMap }.

Definition ServiceRegistry_new : ServiceRegistry := MkServiceRegistry ∅.

(** [services_[service]] creates the entry even when the method is rejected. *)
Definition ServiceRegistry_Register (r : ServiceRegistry) (service method : bytes)
    (handler : RequestHandler) : ServiceRegistry * Status :=
  let methods := default ∅ (services_ r !! service) in
  match methods !! method with
  | Some _ =>
      (MkServiceRegistry (<[service := methods]> (services_ r)),
       MkStatus InvalidArgument
         (bs "method already registered: service=" ++ service ++ bs ", method=" ++ method))
  | None =>
      (MkServiceRegistry (<[service := <[method := handler]> methods]> (services_ r)), Status_Ok)
  end.

Definition ServiceRegistry_Dispatch (r : ServiceRegistry) (w : World) (request : RequestEnvelope)
    : option (World * ResponseEnvelope) :=
  match services_ r !! service_name_ request with
  | None =>
      Some (w, MkResponseEnvelope (req_request_id_ request) (status NotFound "unknown service") [])
  | Some methods =>
      match methods !! method_name_ request with
      | None =>
          Some (w, MkResponseEnvelope (req_request_id_ request)
                (status Unimplemented "unknown method") [])
      | Some handler =>
          let request_id := req_request_id_ request in
          '(w, outcome) ← handler w request;
          match outcome with
          | inl response => Some (w, response)
          | inr e =>
              Some (w, MkResponseEnvelope request_id
                    (CaughtExceptionToStatus (bs "handler threw unknown exception") (Some e)) [])
          end
      end
  end.

(** ** The adapter of [RpcServer::Impl::RegisterMethod] *)

(** [MethodRegistration]; [invoke_] returns a [StatusOr<std::string>] or throws. *)
Record MethodRegistration := MkMethodRegistration {
  reg_service_name_ : bytes;
  reg_method_name_ : bytes;
  invoke_ : World -> bytes -> World * (StatusOr bytes + exn)
}.

(** The lambda stored in the registry.  [value()] of a result that is [ok()] but
    empty would terminate the process: that is the [None] of the result. *)
Definition adapt_invoke (invoke : World -> bytes -> World * (StatusOr bytes + exn))
    : RequestHandler := fun w request =>
  match invoke w (req_payload_ request) with
  | (w, inr e) => Some (w, inr e)
  | (w, inl result) =>
      if negb (StatusOr_ok result) then
        Some (w, inl (MkResponseEnvelope (req_request_id_ request) (so_status_ result) []))
      else
        payload ← StatusOr_get result;
        Some (w, inl (MkResponseEnvelope (req_request_id_ request) Status_Ok payload))
  end.

(** ** [MakeMethodRegistration<Request, Response>] *)
Section Method.
Context {Request Response : Type}.
(** [ParseFromArray(data, size)]; [size] is an [int]. *)
Context (ParseFromArray : bytes -> Z -> option Request).
Context (SerializeToString : Response -> option bytes).

(** [std::exception::what()]; a non-standard exception has none. *)
Definition exn_what (e : exn) : option bytes :=
  match e with
  | XrpcException _ what | StdInvalidArgument what | StdException what => Some (c_str what)
  | BadAlloc => Some (bs "std::bad_alloc")
  | NonStandard => None
  end.

(** [static_cast<int>] of a size: sizes from 2 GiB on become negative. *)
Definition size_to_int (size : Z) : Z :=
  let x := size mod 2 ^ 32 in if x <? 2 ^ 31 then x else x - 2 ^ 32.

Lemma size_to_int_small size : 0 <= size < 2 ^ 31 -> size_to_int size = size.
Proof. intros Hs. unfold size_to_int. rewrite Z.mod_small by lia. by rewrite (proj2 (Z.ltb_lt _ _)) by lia. Qed.

Definition method_invoke (func : World -> Request -> World * (Response + exn))
    (w : World) (payload : bytes) : World * (StatusOr bytes + exn) :=
  match ParseFromArray payload (size_to_int (len payload)) with
  | None => (w, inl (StatusOr_fail InvalidArgument "failed to parse protobuf request"))
  | Some request =>
      match func w request with
      | (w, inl response) =>
          match SerializeToString response with
          | None => (w, inl (StatusOr_fail Internal "failed to serialize protobuf response"))
          | Some encoded => (w, inl (StatusOr_value encoded))
          end
      | (w, inr e) =>
          match exn_what e with
          | Some what => (w, inl (MkStatusOr (MkStatus Internal what) None))
          | None => (w, inl (StatusOr_fail Internal "handler threw unknown exception"))
          end
      end
  end.

Definition MakeMethodRegistration (service_name method_name : bytes)
    (func : World -> Request -> World * (Response + exn)) : StatusOr MethodRegistration :=
  StatusOr_value (MkMethodRegistration service_name method_name (method_invoke func)).

End Method.

(** ** Lookup *)

(** The handler a request is routed to. *)
Definition registered (r : ServiceRegistry) (service method : bytes) : option RequestHandler :=
  methods ← services_ r !! service; methods !! method.

Lemma registered_Register r service method handler s m :
  registered (fst (ServiceRegistry_Register r service method handler)) s m =
  if bool_decide (s = service /\ m = method /\ registered r service method = None)
  then Some handler else registered r s m.
Proof.
  unfold ServiceRegistry_Register, registered.
  destruct (services_ r !! service) as [methods|] eqn:Es; simpl.
  - destruct (methods !! method) as [h|] eqn:Em; simpl.
    + rewrite bool_decide_false by naive_solver.
      destruct (decide (s = service)) as [->|]; [|by rewrite lookup_insert_ne].
      by rewrite lookup_insert_eq, Es.
    + case_bool_decide as H.
      * destruct H as (->&->&_). by rewrite lookup_insert_eq; simpl; rewrite lookup_insert_eq.
      * destruct (decide (s = service)) as [->|]; [|by rewrite lookup_insert_ne].
        rewrite lookup_insert_eq, Es. simpl. rewrite lookup_insert_ne; naive_solver.
  - rewrite lookup_empty. simpl. case_bool_decide as H.
    + destruct H as (->&->&_). by rewrite lookup_insert_eq; simpl; rewrite lookup_insert_eq.
    + destruct (decide (s = service)) as [->|]; [|by rewrite lookup_insert_ne].
      rewrite lookup_insert_eq, Es. simpl. rewrite lookup_insert_ne by naive_solver.
      by rewrite lookup_empty.
Qed.

Lemma Register_status r service method handler :
  Status_ok (snd (ServiceRegistry_Register r service method handler)) =
  bool_decide (registered r service method = None).
Proof.
  unfold ServiceRegistry_Register, registered.
  destruct (services_ r !! service) as [methods|] eqn:Es; simpl.
  - by destruct (methods !! method).
  - by rewrite lookup_empty.
Qed.

Lemma Register_ok_message r service method handler :
  Status_ok (snd (ServiceRegistry_Register r service method handler)) = true ->
  snd (ServiceRegistry_Register r service method handler) = Status_Ok.
Proof. unfold ServiceRegistry_Register. by case_match. Qed.

End Registry.
Arguments ServiceRegistry : clear implicits.
Arguments RequestHandler : clear implicits.
Arguments MethodRegistration : clear implicits.
Arguments MkMethodRegistration {World} _ _ _.

(** ** Properties *)

(** registration is write-once.  [Register] succeeds exactly when the pair
    has no handler yet; success changes the routing of that pair alone, and a
    rejected registration changes the routing of nothing: the first handler
    stays. *)
Theorem Register_write_once World (r : ServiceRegistry World) service method handler :
  let '(r', st) := ServiceRegistry_Register r service method handler in
  (Status_ok st = true <-> registered r service method = None) /\
  (Status_ok st = true -> registered r' service method = Some handler) /\
  (Status_ok st = false ->
     code_ st = InvalidArgument /\
     registered r' service method = registered r service method) /\
  (forall s m, (s, m) <> (service, method) -> registered r' s m = registered r s m).
Proof.
  pose proof (registered_Register r service method handler) as Hreg.
  pose proof (Register_status r service method handler) as Hst.
  assert (Status_ok (snd (ServiceRegistry_Register r service method handler)) = false ->
    code_ (snd (ServiceRegistry_Register r service method handler)) = InvalidArgument) as Hcode
    by (unfold ServiceRegistry_Register; by case_match).
  destruct (ServiceRegistry_Register r service method handler) as [r' st]. simpl in *.
  rewrite Hst, bool_decide_eq_true, bool_decide_eq_false in *. rewrite Hreg. split_and!.
  - done.
  - intros H. by rewrite bool_decide_true.
  - intros H. split; [auto|]. by rewrite bool_decide_false by naive_solver.
  - intros s m Hne. rewrite Hreg. rewrite bool_decide_false; [done|]. naive_solver.
Qed.

(** C28: every request gets a response with its own id.  If every registered
    handler that returns keeps the request id, then so does [Dispatch], for
    unknown services ([NotFound]), unknown methods ([Unimplemented]) and
    handlers that throw (a failure status without payload) as well.  The world
    changes only through the handler of a registered pair, called once, and
    the process ends only if that handler ends it. *)
Theorem Dispatch_total World (r : ServiceRegistry World) w request :
  (forall s m h w0 q w1 resp, registered r s m = Some h -> h w0 q = Some (w1, inl resp) ->
     resp_request_id_ resp = req_request_id_ q) ->
  (forall s m h w0 q w1 e, registered r s m = Some h -> h w0 q = Some (w1, inr e) ->
     exn_failure e) ->
  match registered r (service_name_ request) (method_name_ request) with
  | None =>
      ServiceRegistry_Dispatch r w request =
      Some (w, MkResponseEnvelope (req_request_id_ request)
        (if services_ r !! service_name_ request
         then status Unimplemented "unknown method" else status NotFound "unknown service") [])
  | Some h =>
      match h w request with
      | None => ServiceRegistry_Dispatch r w request = None
      | Some (w', outcome) =>
          exists resp, ServiceRegistry_Dispatch r w request = Some (w', resp) /\
            resp_request_id_ resp = req_request_id_ request /\
            match outcome with
            | inl resp' => resp = resp'
            | inr _ => code_ (resp_status_ resp) <> Ok /\ resp_payload_ resp = []
            end
      end
  end.
Proof.
  intros Hid Hexn. unfold ServiceRegistry_Dispatch.
  pose proof (Hid (service_name_ request) (method_name_ request)) as Hid'. clear Hid.
  pose proof (Hexn (service_name_ request) (method_name_ request)) as Hexn'. clear Hexn.
  unfold registered in *.
  destruct (services_ r !! service_name_ request) as [methods|]; simpl in *; [|done].
  destruct (methods !! method_name_ request) as [h|]; simpl in *; [|done].
  destruct (h w request) as [[w' [resp|e]]|] eqn:E; simpl; [..|done].
  - exists resp. split_and!; try done. by apply (Hid' h w request w').
  - eexists. split; [reflexivity|]. split_and!; try done.
    apply CaughtExceptionToStatus_not_ok. by apply (Hexn' h w request w').
Qed.

(** the handlers built by [RegisterMethod] around [MakeMethodRegistration]
    satisfy what dispatch relies on: they never terminate the process and never
    throw, they keep the request id, and their status is OK exactly when the
    request parsed, the user function returned and its response serialised. *)
Theorem method_handler_safe World Request Response
    (parse : bytes -> Z -> option Request) (serialize : Response -> option bytes)
    (func : World -> Request -> World * (Response + exn)) w request :
  exists w' resp,
    adapt_invoke (method_invoke parse serialize func) w request = Some (w', inl resp) /\
    resp_request_id_ resp = req_request_id_ request /\
    (code_ (resp_status_ resp) = Ok <->
       exists q a encoded, parse (req_payload_ request) (size_to_int (len (req_payload_ request))) = Some q /\
         snd (func w q) = inl a /\ serialize a = Some encoded /\
         resp_payload_ resp = encoded).
Proof.
  unfold adapt_invoke, method_invoke.
  destruct (parse (req_payload_ request) _) as [q|] eqn:Ep; simpl.
  2: { eexists _, _. split; [reflexivity|]. split; [done|]. simpl. naive_solver. }
  destruct (func w q) as [w' [a|e]] eqn:Ef; simpl.
  - destruct (serialize a) as [enc|] eqn:Es; simpl.
    + eexists _, _. split; [reflexivity|]. split; [done|]. simpl. split; [|done].
      intros _. exists q, a, enc. by rewrite Ef.
    + eexists _, _. split; [reflexivity|]. split; [done|]. simpl. split; [done|].
      intros (q' & a' & enc & [= <-] & Hf & Hs & _). rewrite Ef in Hf. simpl in Hf. congruence.
  - destruct (exn_what e) as [what|]; simpl;
      (eexists _, _; split; [reflexivity|]; split; [done|]; simpl; split; [done|];
       intros (q' & a' & enc & [= <-] & Hf & Hs & _); rewrite Ef in Hf; done).
Qed.

(** *** Witness *)

(** A registry with one handler that answers and one that throws. *)
Definition example_registry : ServiceRegistry nat :=
  fst (ServiceRegistry_Register
    (fst (ServiceRegistry_Register ServiceRegistry_new (bs "Echo") (bs "Say")
      (fun w q => Some (S w, inl (MkResponseEnvelope (req_request_id_ q) Status_Ok (req_payload_ q))))))
    (bs "Echo") (bs "Fail") (fun w q => Some (S w, inr (StdException (bs "boom"))))).

Lemma example_registry_handlers s m h :
  registered example_registry s m = Some h ->
  h = (fun w q => Some (S w, inl (MkResponseEnvelope (req_request_id_ q) Status_Ok (req_payload_ q)))) \/
  h = (fun w q => Some (S w, inr (StdException (bs "boom")))).
Proof.
  unfold example_registry. rewrite registered_Register.
  case_bool_decide; [naive_solver|]. rewrite registered_Register.
  case_bool_decide; [naive_solver|].
  unfold registered, ServiceRegistry_new. simpl. rewrite lookup_empty. done.
Qed.

Lemma Dispatch_total_witness :
  ServiceRegistry_Dispatch example_registry O (MkRequestEnvelope 9 (bs "Echo") (bs "Nope") [])
  = Some (O, MkResponseEnvelope 9 (status Unimplemented "unknown method") []).
Proof.
  unshelve epose proof (Dispatch_total nat example_registry O
    (MkRequestEnvelope 9 (bs "Echo") (bs "Nope") []) _ _) as H.
  - intros s m h w0 q w1 resp [->| ->]%example_registry_handlers; naive_solver.
  - intros s m h w0 q w1 e [->| ->]%example_registry_handlers Heq; [done|].
    injection Heq as _ <-. done.
  - exact H.
Defined.
