(* ===== verification/BufferPool.v ===== *)
(** * Provided-buffer pool

    Models [src/io/uring/buffer_pool.cpp] and its header: validation of the pool
    configuration, registration, and the lease discipline ([Acquire], the
    move-only [UringBuffer], [Release]).  The ring shared with the kernel
    belongs to liburing; it is modelled by the documented effect of
    [io_uring_buf_ring_add] and [io_uring_buf_ring_advance]. *)

From S2P Require Import Prelude Status.

Local Open Scope Z_scope.

(** ** Configuration *)
Record UringBufferPoolConfig := MkPoolConfig {
  buffer_count_ : Z;
  buffer_size_ : Z;
  group_id_ : Z
}.

Definition UringBufferPoolConfig_default : UringBufferPoolConfig :=
  MkPoolConfig 2048 (16 * 1024) 1.

Definition UringBufferPoolConfig_wf (c : UringBufferPoolConfig) : Prop :=
  is_u 32 (buffer_count_ c) /\ is_u 32 (buffer_size_ c) /\ is_u 16 (group_id_ c).

Definition MAX_BUFFER_COUNT : Z := Z.shiftl 1 15.

Definition ValidateConfig (config : UringBufferPoolConfig) : Status :=
  if (buffer_count_ config =? 0) ||
     negb (Z.land (buffer_count_ config) (wrap 32 (buffer_count_ config - 1)) =? 0) then
    status InvalidArgument "provided buffer count must be a power of two"
  else if MAX_BUFFER_COUNT <? buffer_count_ config then
    status InvalidArgument "provided buffer count must not exceed 32768"
  else if buffer_size_ config =? 0 then
    status InvalidArgument "provided buffer size must be greater than zero"
  else if SIZE_MAX / buffer_size_ config <? buffer_count_ config then
    status InvalidArgument "provided buffer storage size overflows size_t"
  else Status_Ok.

Definition UringBufferPoolConfig_Validate (config : UringBufferPoolConfig) : Status :=
  ValidateConfig config.

(** [n & (n - 1)] is zero exactly for the powers of two. *)
Lemma land_pred_pow2 n :
  0 < n -> Z.land n (n - 1) = 0 <-> n = 2 ^ Z.log2 n.
Proof.
  intros Hn. pose proof (Z.log2_nonneg n). destruct (Z.log2_spec n Hn) as [Hlo Hhi].
  split; intros H0.
  - destruct (decide (n = 2 ^ Z.log2 n)) as [|Hne]; [done|].
    assert (Z.testbit (n - 1) (Z.log2 n) = true) as Hb.
    { replace (Z.log2 n) with (Z.log2 (n - 1)) by (apply Z.log2_unique; lia).
      apply Z.bit_log2. lia. }
    assert (Z.testbit (Z.land n (n - 1)) (Z.log2 n) = true) as Hc
      by (by rewrite Z.land_spec, Hb, Z.bit_log2).
    by rewrite H0, Z.bits_0 in Hc.
  - rewrite H0. replace (2 ^ Z.log2 n - 1) with (Z.ones (Z.log2 n)) by (by rewrite Z.ones_equiv; lia).
    rewrite Z.land_ones by lia. by rewrite Z_mod_same_full.
Qed.

Lemma Validate_ok c :
  UringBufferPoolConfig_wf c ->
  Status_ok (UringBufferPoolConfig_Validate c) = true <->
  (exists k, 0 <= k <= 15 /\ buffer_count_ c = 2 ^ k) /\ 0 < buffer_size_ c.
Proof.
  intros ([Hc0 Hc]&[Hs0 Hs]&_). unfold UringBufferPoolConfig_Validate, ValidateConfig.
  change MAX_BUFFER_COUNT with 32768.
  destruct (Z.eqb_spec (buffer_count_ c) 0) as [E|E]; simpl.
  { split; [done|]. intros ((k & Hk & Hp) & _). pose proof (Z.pow_pos_nonneg 2 k). lia. }
  rewrite wrap_small by (red; lia).
  pose proof (land_pred_pow2 (buffer_count_ c) ltac:(lia)) as Hpow.
  destruct (Z.eqb_spec (Z.land (buffer_count_ c) (buffer_count_ c - 1)) 0) as [L|L]; simpl;
    last first.
  { split; [done|]. intros ((k & Hk & Hp) & _). destruct L. apply Hpow.
    by rewrite Hp, Z.log2_pow2 by lia. }
  apply Hpow in L. set (k := Z.log2 (buffer_count_ c)) in *.
  pose proof (Z.log2_nonneg (buffer_count_ c)) as Hk0. fold k in Hk0.
  destruct (Z.ltb_spec 32768 (buffer_count_ c)) as [M|M]; simpl.
  { split; [done|]. intros ((k' & Hk & Hp) & _).
    assert (2 ^ k' <= 2 ^ 15) by (apply Z.pow_le_mono_r; lia). lia. }
  destruct (Z.eqb_spec (buffer_size_ c) 0) as [S|S]; simpl.
  { split; [done|]. lia. }
  rewrite (proj2 (Z.ltb_ge _ _)).
  - split; [|done]. intros _. split; [|lia]. exists k. split; [|done].
    split; [done|]. apply (Z.pow_le_mono_r_iff 2); lia.
  - apply Z.div_le_lower_bound; [lia|]. unfold SIZE_MAX. nia.
Qed.

(** ** The ring of provided buffers

    [published] are the buffer ids the kernel may select, in order; [staged]
    are the entries written at an offset past the tail but not yet published. *)
Record buf_ring := MkBufRing {
  published : list Z;
  staged : gmap Z Z
}.

Definition io_uring_buf_ring_add (r : buf_ring) (id offset : Z) : buf_ring :=
  MkBufRing (published r) (<[offset := id]> (staged r)).

(** The entries at offsets [i], ..., [i + n - 1]; publishing an entry that was
    never written hands garbage to the kernel. *)
Fixpoint staged_entries (m : gmap Z Z) (i : Z) (n : nat) : option (list Z) :=
  match n with
  | O => Some []
  | S n => id ← m !! i; ids ← staged_entries m (i + 1) n; Some (id :: ids)
  end.

Definition io_uring_buf_ring_advance (r : buf_ring) (count : Z) : option buf_ring :=
  ids ← staged_entries (staged r) 0 (Z.to_nat count);
  Some (MkBufRing (published r ++ ids) ∅).

(** ** [UringProvidedBufferPool] *)
Record UringProvidedBufferPool := MkProvidedPool {
  pool_config_ : UringBufferPoolConfig;
  buffer_ring_ : buf_ring;
  leased_ : list bool;
  outstanding_leases_ : Z;
  outstanding_leases_peak_ : Z
}.

(** The lease [UringBuffer]: whether it still points to its pool, the buffer id
    and the number of bytes of its span. *)
Record UringBuffer := MkUringBuffer {
  lease_pool_ : bool;
  buffer_id_ : Z;
  lease_size_ : Z
}.

Definition UringBuffer_empty : UringBuffer := MkUringBuffer false 0 0.

Definition Pool_Provide (p : UringProvidedBufferPool) (buffer_id offset : Z)
    : UringProvidedBufferPool :=
  MkProvidedPool (pool_config_ p) (io_uring_buf_ring_add (buffer_ring_ p) buffer_id offset)
    (leased_ p) (outstanding_leases_ p) (outstanding_leases_peak_ p).

Definition Pool_advance (p : UringProvidedBufferPool) (count : Z)
    : option UringProvidedBufferPool :=
  ring ← io_uring_buf_ring_advance (buffer_ring_ p) count;
  Some (MkProvidedPool (pool_config_ p) ring (leased_ p) (outstanding_leases_ p)
          (outstanding_leases_peak_ p)).

(** [for (index = 0; index < buffer_count; ++index) pool->Provide(index, index)] *)
Fixpoint Register_loop (p : UringProvidedBufferPool) (index : Z) (n : nat)
    : UringProvidedBufferPool :=
  match n with
  | O => p
  | S n => Register_loop (Pool_Provide p (wrap 16 index) index) (index + 1) n
  end.

(** [setup] is the result of [io_uring_setup_buf_ring]: [None] is a ring, an
    error code otherwise; [error_text] is [MakeSystemErrorMessage]. *)
Definition Pool_Register (setup : option Z) (error_text : Z -> bytes)
    (config : UringBufferPoolConfig) : option (StatusOr UringProvidedBufferPool) :=
  let validation := UringBufferPoolConfig_Validate config in
  if negb (Status_ok validation) then StatusOr_error validation else
  match setup with
  | Some result =>
      StatusOr_error (MkStatus Unavailable
        (error_text (if result <? 0 then - result else result)))
  | None =>
      let pool := MkProvidedPool config (MkBufRing [] ∅)
                    (replicate (Z.to_nat (buffer_count_ config)) false) 0 0 in
      let pool := Register_loop pool 0 (Z.to_nat (buffer_count_ config)) in
      pool ← Pool_advance pool (buffer_count_ config);
      Some (StatusOr_value pool)
  end.

Definition Pool_Acquire (p : UringProvidedBufferPool) (buffer_id size : Z)
    : option (UringProvidedBufferPool * UringBuffer) :=
  if buffer_count_ (pool_config_ p) <=? buffer_id then
    Abort "io_uring selected a provided buffer ID outside the registered pool"
  else if buffer_size_ (pool_config_ p) <? size then
    Abort "io_uring reported more bytes than the selected provided buffer can hold"
  else
    leased ← leased_ p !! Z.to_nat buffer_id;
    if (leased : bool) then Abort "io_uring selected a provided buffer that is already leased"
    else
      let outstanding := (outstanding_leases_ p +u 1)%word in
      Some (MkProvidedPool (pool_config_ p) (buffer_ring_ p)
              (<[Z.to_nat buffer_id := true]> (leased_ p)) outstanding
              (Z.max (outstanding_leases_peak_ p) outstanding),
            MkUringBuffer true buffer_id size).

Definition Pool_Release (p : UringProvidedBufferPool) (buffer_id : Z)
    : option UringProvidedBufferPool :=
  if (buffer_count_ (pool_config_ p) <=? buffer_id) ||
     negb (default false (leased_ p !! Z.to_nat buffer_id)) ||
     (outstanding_leases_ p =? 0) then
    Abort "attempted to release a provided buffer that is not leased"
  else
    p ← Pool_advance (Pool_Provide p buffer_id 0) 1;
    Some (MkProvidedPool (pool_config_ p) (buffer_ring_ p)
            (<[Z.to_nat buffer_id := false]> (leased_ p))
            (outstanding_leases_ p -u 1)%word (outstanding_leases_peak_ p)).

Definition UringBuffer_Reset (p : UringProvidedBufferPool) (b : UringBuffer)
    : option (UringProvidedBufferPool * UringBuffer) :=
  if negb (lease_pool_ b) then Some (p, b) else
  p ← Pool_Release p (buffer_id_ b);
  Some (p, MkUringBuffer false (buffer_id_ b) 0).

(** The move constructor: the new lease and what is left in [other]. *)
Definition UringBuffer_move (other : UringBuffer) : UringBuffer * UringBuffer :=
  (other, MkUringBuffer false (buffer_id_ other) 0).

(** The move assignment of distinct objects: resets the target first. *)
Definition UringBuffer_assign (p : UringProvidedBufferPool) (target other : UringBuffer)
    : option (UringProvidedBufferPool * UringBuffer * UringBuffer) :=
  '(p, _) ← UringBuffer_Reset p target;
  let '(target, other) := UringBuffer_move other in
  Some (p, target, other).

(** [~UringProvidedBufferPool] *)
Definition Pool_destroy (p : UringProvidedBufferPool) : option unit :=
  if negb (outstanding_leases_ p =? 0) then
    Abort "UringProvidedBufferPool destroyed with outstanding buffer leases"
  else Some tt.

Definition Pool_SnapshotStats (start_window : bool) (p : UringProvidedBufferPool)
    : UringProvidedBufferPool * (Z * Z * Z * Z) :=
  let p := if start_window then
    MkProvidedPool (pool_config_ p) (buffer_ring_ p) (leased_ p) (outstanding_leases_ p)
      (outstanding_leases_ p) else p in
  (p, (buffer_count_ (pool_config_ p), buffer_size_ (pool_config_ p),
       outstanding_leases_ p, outstanding_leases_peak_ p)).

(** ** A pool with its leases

    The kernel takes the ring's first entry for a receive completion and
    reports at most [buffer_size_] bytes; a lease ends when it is reset. *)
Inductive lease_step : UringProvidedBufferPool * list UringBuffer ->
    option (UringProvidedBufferPool * list UringBuffer) -> Prop :=
  | lease_step_complete p leases id ids size :
      published (buffer_ring_ p) = id :: ids -> 0 <= size <= buffer_size_ (pool_config_ p) ->
      lease_step (p, leases)
        ('(p', b) ← Pool_Acquire
           (MkProvidedPool (pool_config_ p) (MkBufRing ids (staged (buffer_ring_ p))) (leased_ p)
              (outstanding_leases_ p) (outstanding_leases_peak_ p)) id size;
         Some (p', b :: leases))
  | lease_step_reset p l1 b l2 :
      lease_step (p, l1 ++ b :: l2)
        ('(p', _) ← UringBuffer_Reset p b; Some (p', l1 ++ l2))
  | lease_step_stats p leases start_window :
      lease_step (p, leases) (Some (fst (Pool_SnapshotStats start_window p), leases)).

(** Ring and leases partition the buffers; the lease table and the counter say
    which are out. *)
Definition lease_inv (s : UringProvidedBufferPool * list UringBuffer) : Prop :=
  let '(p, leases) := s in
  let n := buffer_count_ (pool_config_ p) in
  0 <= n <= 2 ^ 15 /\ staged (buffer_ring_ p) = ∅ /\
  len (leased_ p) = n /\ outstanding_leases_ p = len leases /\
  outstanding_leases_ p <= outstanding_leases_peak_ p <= n /\
  Forall (fun b => lease_pool_ b = true /\
                   0 <= lease_size_ b <= buffer_size_ (pool_config_ p)) leases /\
  NoDup (published (buffer_ring_ p) ++ map buffer_id_ leases) /\
  (forall i, 0 <= i < n <-> i ∈ published (buffer_ring_ p) ++ map buffer_id_ leases) /\
  (forall i, 0 <= i -> leased_ p !! Z.to_nat i = Some true <-> i ∈ map buffer_id_ leases).

(** ** Registration *)

Lemma Register_loop_staged p index n i :
  staged (buffer_ring_ (Register_loop p index n)) !! i =
  if bool_decide (index <= i < index + Z.of_nat n) then Some (wrap 16 i)
  else staged (buffer_ring_ p) !! i.
Proof.
  revert p index. induction n as [|n IH]; intros p index; simpl Register_loop.
  - rewrite bool_decide_false by lia. done.
  - rewrite IH. simpl. destruct (decide (index + 1 <= i < index + 1 + Z.of_nat n)) as [H|H].
    + rewrite !bool_decide_true by lia. done.
    + rewrite bool_decide_false by done. destruct (decide (i = index)) as [->|Hne].
      * rewrite lookup_insert_eq, bool_decide_true by lia. done.
      * rewrite lookup_insert_ne by done. rewrite bool_decide_false by lia. done.
Qed.

Lemma Register_loop_rest p index n :
  let p' := Register_loop p index n in
  pool_config_ p' = pool_config_ p /\ leased_ p' = leased_ p /\
  outstanding_leases_ p' = outstanding_leases_ p /\
  outstanding_leases_peak_ p' = outstanding_leases_peak_ p /\
  published (buffer_ring_ p') = published (buffer_ring_ p).
Proof. revert p index. induction n as [|n IH]; intros p index; [done|].
  exact (IH (Pool_Provide p (wrap 16 index) index) (index + 1)). Qed.

Lemma staged_entries_seq m i n :
  (forall j, i <= j < i + Z.of_nat n -> m !! j = Some j) ->
  staged_entries m i n = Some (seqZ i (Z.of_nat n)).
Proof.
  revert i. induction n as [|n IH]; intros i H; [done|]. simpl.
  rewrite H by lia. cbn [mbind option_bind]. rewrite IH by (intros; apply H; lia).
  cbn [mbind option_bind]. rewrite (seqZ_cons i) by lia. do 3 f_equal. lia.
Qed.

Lemma Pool_Register_ok error_text config :
  UringBufferPoolConfig_wf config -> Status_ok (UringBufferPoolConfig_Validate config) = true ->
  exists p, Pool_Register None error_text config = Some (StatusOr_value p) /\
    pool_config_ p = config /\
    published (buffer_ring_ p) = seqZ 0 (buffer_count_ config) /\ lease_inv (p, []).
Proof.
  intros Hwf Hok. unfold Pool_Register. rewrite Hok. simpl negb. cbv iota.
  apply Validate_ok in Hok as ((k & Hk & Hn) & _); [|done].
  assert (2 ^ k <= 2 ^ 15) by (apply Z.pow_le_mono_r; lia).
  pose proof (Z.pow_pos_nonneg 2 k ltac:(lia) ltac:(lia)).
  set (p0 := MkProvidedPool _ _ _ _ _). set (n := Z.to_nat (buffer_count_ config)).
  destruct (Register_loop_rest p0 0 n) as (E1 & E2 & E3 & E4 & E5).
  unfold Pool_advance, io_uring_buf_ring_advance.
  rewrite (staged_entries_seq _ 0).
  2: { intros j Hj. rewrite Register_loop_staged, bool_decide_true by lia.
       f_equal. apply wrap_small. red. lia. }
  cbn [mbind option_bind]. rewrite E1, E2, E3, E4, E5. eexists. split; [reflexivity|]. simpl.
  rewrite Z2Nat.id by lia. split_and!; try done; try lia.
  - unfold len. rewrite length_replicate. unfold n. lia.
  - rewrite app_nil_r. apply NoDup_seqZ.
  - intros i. rewrite app_nil_r, elem_of_seqZ. lia.
  - intros i Hi. rewrite lookup_replicate. set_solver.
Qed.

(** ** The invariant is kept and no step aborts *)

Lemma NoDup_bounded_len (l : list Z) n :
  0 <= n -> NoDup l -> (forall i, i ∈ l -> 0 <= i < n) -> len l <= n.
Proof.
  intros Hn Hnd Hb.
  assert (l ⊆+ seqZ 0 n) as Hs.
  { apply NoDup_submseteq; [done|]. intros i Hi. apply elem_of_seqZ. specialize (Hb i Hi). lia. }
  apply submseteq_length in Hs. rewrite length_seqZ in Hs. unfold len. lia.
Qed.

Lemma lease_inv_len p leases :
  lease_inv (p, leases) -> len leases + len (published (buffer_ring_ p)) <= buffer_count_ (pool_config_ p).
Proof.
  intros (Hn&_&_&_&_&_&Hnd&Hall&_).
  assert (len (published (buffer_ring_ p) ++ map buffer_id_ leases)
    <= buffer_count_ (pool_config_ p)) as Hl.
  { apply NoDup_bounded_len; [lia|done|]. intros i Hi. by apply Hall. }
  rewrite len_app in Hl. unfold len in *. rewrite length_map in Hl. lia.
Qed.

Lemma Acquire_inv p leases id ids size :
  lease_inv (p, leases) -> published (buffer_ring_ p) = id :: ids ->
  0 <= size <= buffer_size_ (pool_config_ p) ->
  exists p' b,
    Pool_Acquire (MkProvidedPool (pool_config_ p) (MkBufRing ids (staged (buffer_ring_ p))) (leased_ p)
      (outstanding_leases_ p) (outstanding_leases_peak_ p)) id size = Some (p', b) /\
    lease_inv (p', b :: leases).
Proof.
  intros Hinv Hring Hsize. pose proof (lease_inv_len p leases Hinv) as Hcount.
  destruct Hinv as (Hn&Hst&Hlen&Hout&Hpeak&Hall&Hnd&Hpart&Htab).
  rewrite Hring in Hnd, Hpart, Hcount. rewrite len_cons in Hcount.
  pose proof (len_nonneg ids). pose proof (len_nonneg leases).
  assert (0 <= id < buffer_count_ (pool_config_ p)) as Hid by (apply Hpart; set_solver).
  simpl in Hnd. apply NoDup_cons in Hnd as [Hnew Hnd].
  assert (leased_ p !! Z.to_nat id = Some false) as Hfree.
  { destruct (lookup_lt_is_Some_2 (leased_ p) (Z.to_nat id)) as [[] Hb];
      [unfold len in Hlen; lia| |done].
    apply Htab in Hb; [set_solver|lia]. }
  unfold Pool_Acquire. simpl.
  rewrite (proj2 (Z.leb_gt _ _)), (proj2 (Z.ltb_ge _ _)), Hfree by lia. cbn [mbind option_bind].
  rewrite add64_small by lia.
  eexists _, _. split; [reflexivity|]. simpl. split_and!; try done; try lia.
  - unfold len. by rewrite length_insert.
  - rewrite len_cons. lia.
  - apply Forall_cons_2; [done|]. done.
  - rewrite NoDup_app in Hnd |- *. destruct Hnd as (?&Hd&?). simpl. rewrite NoDup_cons.
    set_solver.
  - intros i. rewrite Hpart. simpl. set_solver.
  - intros i Hi. destruct (decide (i = id)) as [->|Hne].
    + rewrite list_lookup_insert_eq by (unfold len in Hlen; lia). set_solver.
    + rewrite list_lookup_insert_ne by lia. rewrite Htab by done. set_solver.
Qed.

Lemma Release_inv p l1 b l2 :
  lease_inv (p, l1 ++ b :: l2) ->
  exists p', UringBuffer_Reset p b = Some (p', MkUringBuffer false (buffer_id_ b) 0) /\
    lease_inv (p', l1 ++ l2).
Proof.
  intros (Hn&Hst&Hlen&Hout&Hpeak&Hall&Hnd&Hpart&Htab).
  rewrite Forall_app, Forall_cons in Hall. destruct Hall as (Hall1 & [Hb _] & Hall2).
  pose proof (len_nonneg l1). pose proof (len_nonneg l2).
  rewrite len_app, len_cons in Hout.
  assert (buffer_id_ b ∈ map buffer_id_ (l1 ++ b :: l2)) as Hmem
    by (rewrite map_app; set_solver).
  assert (0 <= buffer_id_ b < buffer_count_ (pool_config_ p)) as Hid by (apply Hpart; set_solver).
  unfold UringBuffer_Reset, Pool_Release. rewrite Hb. simpl negb. cbv iota.
  rewrite (proj2 (Z.leb_gt _ _)) by lia.
  rewrite (proj2 (Htab (buffer_id_ b) (proj1 Hid)) Hmem). simpl negb.
  rewrite (proj2 (Z.eqb_neq _ 0)) by lia. simpl orb. cbv iota.
  unfold Pool_advance, Pool_Provide, io_uring_buf_ring_advance, io_uring_buf_ring_add.
  cbn [buffer_ring_ staged published]. change (Z.to_nat 1) with 1%nat. cbn [staged_entries].
  rewrite Hst, lookup_insert_eq. cbn [mbind option_bind]. simpl.
  rewrite sub64_small by lia.
  eexists. split; [reflexivity|]. simpl.
  rewrite map_app in Hnd, Hpart, Htab. simpl in Hnd, Hpart, Htab.
  pose proof Hnd as Hnd'. rewrite app_assoc, <- Permutation_middle, <- app_assoc in Hnd'.
  apply NoDup_cons in Hnd' as [Hnew Hnd'].
  split_and!; try done; try lia.
  - unfold len. by rewrite length_insert.
  - rewrite len_app. lia.
  - by rewrite Forall_app.
  - rewrite map_app, <- app_assoc. simpl. rewrite <- Permutation_middle. by apply NoDup_cons.
  - intros i. rewrite Hpart, map_app. set_solver.
  - intros i Hi. rewrite map_app. destruct (decide (i = buffer_id_ b)) as [->|Hne].
    + rewrite list_lookup_insert_eq by (unfold len in Hlen; lia). set_solver.
    + rewrite list_lookup_insert_ne by lia. rewrite Htab by done. set_solver.
Qed.

Lemma lease_step_keeps s o : lease_inv s -> lease_step s o -> exists s', o = Some s' /\ lease_inv s'.
Proof.
  intros Hinv Hstep. destruct Hstep as [p leases id ids size Hring Hsize|p l1 b l2|p leases []].
  - destruct (Acquire_inv p leases id ids size Hinv Hring Hsize) as (p' & b & -> & H). eauto.
  - destruct (Release_inv p l1 b l2 Hinv) as (p' & -> & H). eauto.
  - eexists. split; [reflexivity|].
    pose proof (lease_inv_len p leases Hinv) as Hc.
    pose proof (len_nonneg (published (buffer_ring_ p))).
    destruct Hinv as (?&?&?&?&?&?&?&?&?). simpl. split_and!; try done; lia.
  - eauto.
Qed.

(** Runs of the pool with its clients. *)
Inductive lease_run : UringProvidedBufferPool * list UringBuffer ->
    option (UringProvidedBufferPool * list UringBuffer) -> Prop :=
  | lease_run_refl s : lease_run s (Some s)
  | lease_run_step s s' o o' : lease_step s o -> o = Some s' -> lease_run s' o' -> lease_run s o'
  | lease_run_abort s : lease_step s None -> lease_run s None.

Lemma lease_run_inv s o : lease_inv s -> lease_run s o -> exists s', o = Some s' /\ lease_inv s'.
Proof.
  intros Hinv Hrun. induction Hrun as [s|s s' o o' Hstep -> Hrun IH|s Hstep]; [by eauto|..].
  - destruct (lease_step_keeps _ _ Hinv Hstep) as (s'' & [= <-] & Hinv'). auto.
  - destruct (lease_step_keeps _ _ Hinv Hstep) as (s'' & [=] & _).
Qed.

(** ** Properties *)

(** C27: buffer leases are safe.  From registration with a valid configuration,
    through every sequence of kernel selections, lease resets and statistics
    snapshots, none of the pool's abort checks fires; at every moment each
    buffer is either in the ring or leased, never both and never twice, and
    the lease counter is the number of live leases. *)
Theorem Pool_lease_safety error_text config o :
  UringBufferPoolConfig_wf config -> Status_ok (UringBufferPoolConfig_Validate config) = true ->
  exists p0, Pool_Register None error_text config = Some (StatusOr_value p0) /\
    (lease_run (p0, []) o ->
     exists p leases, o = Some (p, leases) /\
       published (buffer_ring_ p) ++ map buffer_id_ leases ≡ₚ seqZ 0 (buffer_count_ config) /\
       outstanding_leases_ p = len leases /\ outstanding_leases_ p <= outstanding_leases_peak_ p /\
       (Pool_destroy p = Some tt <-> leases = [])).
Proof.
  intros Hwf Hok.
  destruct (Pool_Register_ok error_text config Hwf Hok) as (p0 & HR & Hc & _ & Hinv).
  exists p0. split; [done|]. intros Hrun.
  assert (forall s o', lease_run s o' -> forall s', o' = Some s' ->
    pool_config_ (fst s') = pool_config_ (fst s)) as Hcfg.
  { induction 1 as [s|s s1 o1 o2 Hstep E _ IH|s Hs]; intros s' Heq; [by injection Heq as <-| |done].
    rewrite (IH s' Heq). clear IH Heq. destruct Hstep as [p l id ids size _ _|p l1 b l2|p l []];
      simpl in *; [|..|by injection E as <-|by injection E as <-].
    - unfold Pool_Acquire in E. repeat (case_match; simplify_option_eq; try done).
    - unfold UringBuffer_Reset, Pool_Release, Pool_advance in E.
      repeat (case_match; simplify_option_eq; try done). }
  destruct (lease_run_inv _ _ Hinv Hrun) as ([p leases] & -> & Hinv').
  pose proof (Hcfg _ _ Hrun (p, leases) eq_refl) as Hcf. simpl in Hcf. rewrite Hc in Hcf.
  destruct Hinv' as (Hn&_&_&Hout&Hpeak&_&Hnd&Hpart&_). rewrite Hcf in *.
  exists p, leases. split_and!; try done; [|lia|].
  - apply NoDup_Permutation; [done|apply NoDup_seqZ|].
    intros i. rewrite <- Hpart, elem_of_seqZ. lia.
  - unfold Pool_destroy. rewrite Hout. destruct leases as [|b l]; [done|].
    rewrite len_cons. pose proof (len_nonneg l). rewrite (proj2 (Z.eqb_neq _ 0)) by lia.
    split; done.
Qed.

Lemma Pool_lease_safety_witness :
  exists p0, Pool_Register None (fun _ => []) (MkPoolConfig 4 16 1) = Some (StatusOr_value p0).
Proof.
  destruct (Pool_lease_safety (fun _ => []) (MkPoolConfig 4 16 1) None) as (p0 & H & _);
    [done|vm_compute; reflexivity|]. exists p0. exact H.
Defined.
