(* ===== verification/ServerConfig.v ===== *)
(** * Server configuration

    Models [src/server/connection_backpressure.cpp],
    [src/server/connection_config.cpp], [src/server/server_config.cpp],
    [MakeWorkerPoolConfig] of [src/server/worker_pool.cpp] and the option
    defaults of [include/xrpc/rpc_server.h].  [hardware_concurrency] and
    [getpid] are arguments. *)

From S2P Require Import Prelude Text Status FrameHeader FrameCodec BufferPool.

Local Open Scope Z_scope.

(** ** Public options *)
Record RpcServerOptions := MkRpcServerOptions {
  worker_threads_ : Z;
  connection_io_threads_ : Z;
  listen_backlog_ : Z;
  max_inflight_per_connection_ : Z;
  max_write_queue_bytes_per_connection_ : Z;
  max_pending_jobs_global_ : Z;
  opt_max_payload_size_ : Z;
  opt_service_name_ : bytes;
  opt_service_id_ : bytes;
  opt_service_address_ : bytes;
  consul_address_ : bytes
}.

Definition RpcServerOptions_default : RpcServerOptions :=
  MkRpcServerOptions 0 1 128 128 (8 * 1024 * 1024) 10000 DEFAULT_MAX_PAYLOAD_SIZE [] [] []
    (bs "127.0.0.1:8500").

(** Fields of [std::size_t]. *)
Definition RpcServerOptions_wf (o : RpcServerOptions) : Prop :=
  is_u 64 (worker_threads_ o) /\ is_u 64 (connection_io_threads_ o) /\
  is_u 64 (listen_backlog_ o) /\ is_u 64 (max_inflight_per_connection_ o) /\
  is_u 64 (max_write_queue_bytes_per_connection_ o) /\ is_u 64 (max_pending_jobs_global_ o) /\
  is_u 64 (opt_max_payload_size_ o).

(** ** Normalised configuration *)
Record WorkerPoolConfig := MkWorkerPoolConfig {
  wp_threads_ : Z;
  wp_max_pending_jobs_ : Z
}.

Record ListenConfig := MkListenConfigR { backlog_ : Z }.

Record ConnectionBackpressureLimits := MkBackpressure {
  max_inflight_ : Z;
  max_write_queue_bytes_ : Z
}.

Record ServerConnectionConfig := MkServerConnectionConfig {
  limits_ : ConnectionBackpressureLimits;
  conn_protocol_limits_ : ProtocolLimits
}.

Record ConnectionIoConfig := MkConnectionIoConfigR {
  io_threads_ : Z;
  connection_ : ServerConnectionConfig;
  io_buffer_pool_ : UringBufferPoolConfig
}.

Record ConsulRegistrationConfig := MkConsulConfig {
  consul_service_name_ : bytes;
  consul_service_id_ : bytes;
  consul_service_address_ : bytes;
  agent_address_ : bytes
}.

Record ServerConfig := MkServerConfig {
  worker_pool_config_ : WorkerPoolConfig;
  listen_ : ListenConfig;
  connection_io_ : ConnectionIoConfig;
  consul_ : ConsulRegistrationConfig
}.

(** [if (!r.ok()) return StatusOr<U>(r.status()); ... std::move(r).value()] *)
Definition StatusOr_bind {T U} (r : StatusOr T) (k : T -> option (StatusOr U))
    : option (StatusOr U) :=
  if negb (StatusOr_ok r) then StatusOr_error (so_status_ r) else v ← StatusOr_get r; k v.

Definition MakeConnectionBackpressureLimits (max_inflight max_write_queue_bytes : Z)
    : StatusOr ConnectionBackpressureLimits :=
  if max_inflight =? 0 then
    StatusOr_fail InvalidArgument "RpcServer max_inflight_per_connection must be greater than 0"
  else if max_write_queue_bytes =? 0 then
    StatusOr_fail InvalidArgument
      "RpcServer max_write_queue_bytes_per_connection must be greater than 0"
  else StatusOr_value (MkBackpressure max_inflight max_write_queue_bytes).

Definition MakeConnectionIoConfig (threads max_inflight max_write_queue_bytes max_payload_size : Z)
    : option (StatusOr ConnectionIoConfig) :=
  if threads =? 0 then
    Some (StatusOr_fail InvalidArgument "RpcServer connection_io_threads must be greater than 0")
  else
    StatusOr_bind (MakeConnectionBackpressureLimits max_inflight max_write_queue_bytes)
      (fun backpressure =>
    StatusOr_bind (MakeProtocolLimits max_payload_size) (fun protocol =>
    Some (StatusOr_value (MkConnectionIoConfigR threads
            (MkServerConnectionConfig backpressure protocol) UringBufferPoolConfig_default)))).

Definition MakeWorkerPoolConfig (hardware_concurrency requested_threads max_pending_jobs : Z)
    : StatusOr WorkerPoolConfig :=
  if max_pending_jobs =? 0 then
    StatusOr_fail InvalidArgument "RpcServer max_pending_jobs_global must be greater than 0"
  else
    let threads :=
      if requested_threads =? 0 then
        (if hardware_concurrency =? 0 then 1 else hardware_concurrency)
      else requested_threads in
    StatusOr_value (MkWorkerPoolConfig threads max_pending_jobs).

Definition IsWildcardAddress (host : bytes) : bool :=
  bool_decide (host = bs "0.0.0.0") || bool_decide (host = bs "::").

Definition MakeListenConfig (backlog : Z) : StatusOr ListenConfig :=
  if backlog =? 0 then
    StatusOr_fail InvalidArgument "RpcServer listen_backlog must be greater than 0"
  else if INT_MAX <? backlog then
    StatusOr_fail InvalidArgument "RpcServer listen_backlog exceeds the socket API range"
  else StatusOr_value (MkListenConfigR backlog).

Definition MakeConsulRegistrationConfig (options : RpcServerOptions)
    : StatusOr ConsulRegistrationConfig :=
  let config := MkConsulConfig (opt_service_name_ options) (opt_service_id_ options)
                  (opt_service_address_ options) (consul_address_ options) in
  if bool_decide (opt_service_name_ options = []) then
    if negb (bool_decide (opt_service_id_ options = [])) then
      StatusOr_fail InvalidArgument "RpcServer service_id requires service_name"
    else if negb (bool_decide (opt_service_address_ options = [])) then
      StatusOr_fail InvalidArgument "RpcServer service_address requires service_name"
    else StatusOr_value config
  else if bool_decide (consul_address_ options = []) then
    StatusOr_fail InvalidArgument
      "RpcServer consul_address must not be empty when service registration is enabled"
  else StatusOr_value config.

Definition ServerConfig_Create (hardware_concurrency : Z) (options : RpcServerOptions)
    (buffer_pool : UringBufferPoolConfig) : option (StatusOr ServerConfig) :=
  let pool_status := UringBufferPoolConfig_Validate buffer_pool in
  if negb (Status_ok pool_status) then StatusOr_error pool_status else
  StatusOr_bind (MakeWorkerPoolConfig hardware_concurrency (worker_threads_ options)
                   (max_pending_jobs_global_ options)) (fun worker_pool =>
  StatusOr_bind (MakeListenConfig (listen_backlog_ options)) (fun listen =>
  connection_io ← MakeConnectionIoConfig (connection_io_threads_ options)
                    (max_inflight_per_connection_ options)
                    (max_write_queue_bytes_per_connection_ options)
                    (opt_max_payload_size_ options);
  StatusOr_bind connection_io (fun connection_io =>
  let connection_io := MkConnectionIoConfigR (io_threads_ connection_io)
                         (connection_ connection_io) buffer_pool in
  StatusOr_bind (MakeConsulRegistrationConfig options) (fun consul =>
  Some (StatusOr_value (MkServerConfig worker_pool listen connection_io consul)))))).

Definition ServiceRegistrationEnabled (config : ServerConfig) : bool :=
  negb (bool_decide (consul_service_name_ (consul_ config) = [])).

(** ** Consul registration *)

(** [ConsulRegistrar::Options] *)
Record RegistrarOptions := MkRegistrarOptions {
  ro_service_name_ : bytes;
  ro_service_id_ : bytes;
  ro_service_address_ : bytes;
  ro_service_port_ : Z
}.

Definition ResolveRegistrarOptions (getpid : Z) (config : ServerConfig) (host : bytes)
    (listen_port : Z) : StatusOr RegistrarOptions :=
  if negb (ServiceRegistrationEnabled config) then
    StatusOr_fail FailedPrecondition "service registration is not enabled"
  else
  let service_address :=
    if bool_decide (consul_service_address_ (consul_ config) = []) then
      if bool_decide (host = []) || IsWildcardAddress host then None else Some host
    else Some (consul_service_address_ (consul_ config)) in
  match service_address with
  | None =>
      StatusOr_fail InvalidArgument "service_address is required when listen host is wildcard"
  | Some service_address =>
      let service_id :=
        if bool_decide (consul_service_id_ (consul_ config) = []) then
          consul_service_name_ (consul_ config) ++ bs "_" ++ service_address ++ bs "_" ++
          to_string listen_port ++ bs "_" ++ to_string getpid
        else consul_service_id_ (consul_ config) in
      StatusOr_value (MkRegistrarOptions (consul_service_name_ (consul_ config)) service_id
                        service_address listen_port)
  end.

(** ** What the runtime relies on *)
Definition ServerConfig_valid (c : ServerConfig) : Prop :=
  0 < wp_threads_ (worker_pool_config_ c) /\ 0 < wp_max_pending_jobs_ (worker_pool_config_ c) /\
  0 < backlog_ (listen_ c) <= INT_MAX /\ 0 < io_threads_ (connection_io_ c) /\
  0 < max_inflight_ (limits_ (connection_ (connection_io_ c))) /\
  0 < max_write_queue_bytes_ (limits_ (connection_ (connection_io_ c))) /\
  limits_ok (conn_protocol_limits_ (connection_ (connection_io_ c))) /\
  Status_ok (UringBufferPoolConfig_Validate (io_buffer_pool_ (connection_io_ c))) = true /\
  (ServiceRegistrationEnabled c = true -> agent_address_ (consul_ c) <> []).

(** Acceptance criterion on the public options. *)
Definition options_acceptable (o : RpcServerOptions) (pool : UringBufferPoolConfig) : Prop :=
  Status_ok (UringBufferPoolConfig_Validate pool) = true /\
  max_pending_jobs_global_ o <> 0 /\ listen_backlog_ o <> 0 /\ listen_backlog_ o <= INT_MAX /\
  connection_io_threads_ o <> 0 /\ max_inflight_per_connection_ o <> 0 /\
  max_write_queue_bytes_per_connection_ o <> 0 /\
  opt_max_payload_size_ o <> 0 /\ opt_max_payload_size_ o <= UINT32_MAX /\
  (if decide (opt_service_name_ o = [])
   then opt_service_id_ o = [] /\ opt_service_address_ o = []
   else consul_address_ o <> []).

#[global] Instance options_acceptable_dec o pool : Decision (options_acceptable o pool).
Proof. apply and_dec; [apply _|]. repeat apply and_dec; try apply _. case_decide; apply _. Defined.

Lemma StatusOr_bind_fail {T U} c m (k : T -> option (StatusOr U)) :
  c <> Ok -> StatusOr_bind (StatusOr_fail c m) k = Some (StatusOr_fail c m).
Proof.
  intros. unfold StatusOr_bind. rewrite StatusOr_fail_not_ok by done. by apply StatusOr_fail_error.
Qed.

Lemma StatusOr_bind_value {T U} (v : T) (k : T -> option (StatusOr U)) :
  StatusOr_bind (StatusOr_value v) k = k v.
Proof. done. Qed.

#[export] Hint Rewrite @StatusOr_bind_value : xrpc.

(** Configuration failures are all [InvalidArgument]. *)
Definition config_failure {T} (r : option (StatusOr T)) : Prop :=
  exists text, r = Some (StatusOr_fail InvalidArgument text).

Lemma Validate_fails c :
  Status_ok (UringBufferPoolConfig_Validate c) = false ->
  exists text, UringBufferPoolConfig_Validate c = status InvalidArgument text.
Proof. unfold UringBufferPoolConfig_Validate, ValidateConfig. repeat case_match; eauto. done. Qed.

Ltac config_case :=
  match goal with
  | |- context [StatusOr_bind (if ?b then _ else _)] => destruct b eqn:?
  | |- context [StatusOr_bind (StatusOr_fail _ _)] => rewrite StatusOr_bind_fail by done
  | |- context [StatusOr_bind (StatusOr_value _)] => rewrite StatusOr_bind_value
  | |- context [(if ?b then _ else _) ≫= _] => destruct b eqn:?
  | |- context [Some _ ≫= _] => progress cbn [mbind option_bind]
  end.

Lemma Create_cases hw o pool :
  (options_acceptable o pool /\
   ServerConfig_Create hw o pool = Some (StatusOr_value (MkServerConfig
     (MkWorkerPoolConfig (if worker_threads_ o =? 0 then (if hw =? 0 then 1 else hw)
                          else worker_threads_ o) (max_pending_jobs_global_ o))
     (MkListenConfigR (listen_backlog_ o))
     (MkConnectionIoConfigR (connection_io_threads_ o)
        (MkServerConnectionConfig
           (MkBackpressure (max_inflight_per_connection_ o)
              (max_write_queue_bytes_per_connection_ o))
           (MkProtocolLimits DEFAULT_MAX_METADATA_SIZE (opt_max_payload_size_ o))) pool)
     (MkConsulConfig (opt_service_name_ o) (opt_service_id_ o) (opt_service_address_ o)
        (consul_address_ o))))) \/
  (~ options_acceptable o pool /\ config_failure (ServerConfig_Create hw o pool)).
Proof.
  unfold ServerConfig_Create, options_acceptable, config_failure.
  destruct (Status_ok (UringBufferPoolConfig_Validate pool)) eqn:Hp; simpl; last first.
  { right. split; [naive_solver|]. destruct (Validate_fails _ Hp) as [text ->].
    exists text. by apply StatusOr_fail_error. }
  unfold MakeWorkerPoolConfig, MakeListenConfig, MakeConnectionIoConfig,
    MakeConnectionBackpressureLimits, MakeProtocolLimits, MakeConsulRegistrationConfig.
  repeat config_case;
    rewrite ?Z.eqb_eq, ?Z.eqb_neq, ?Z.ltb_lt, ?Z.ltb_ge, ?negb_true_iff, ?negb_false_iff,
      ?bool_decide_eq_true, ?bool_decide_eq_false in *;
    first [ right; split; [ | by eauto ]; case_decide; naive_solver lia
          | left; split; [ | reflexivity ]; split_and!; try done; case_decide; naive_solver ].
Qed.

(** ** Properties *)

(** configuration is validated exactly once and completely.  [Create]
    never ends the process; it succeeds exactly on the acceptable options, with
    a configuration that meets every assumption of the runtime components
    (positive thread counts and limits, 32-bit payload bound, valid buffer
    pool, agent address when registration is enabled); every rejection is
    [InvalidArgument]. *)
Theorem ServerConfig_Create_exact hw o pool :
  RpcServerOptions_wf o -> is_u 32 hw ->
  (options_acceptable o pool ->
     exists c, ServerConfig_Create hw o pool = Some (StatusOr_value c) /\ ServerConfig_valid c) /\
  (~ options_acceptable o pool ->
     exists text, ServerConfig_Create hw o pool = Some (StatusOr_fail InvalidArgument text)).
Proof.
  intros Hwf [Hhw _]. destruct (Create_cases hw o pool) as [[Ha ->]|[Ha Hf]]; split;
    try (intros; done). intros _. eexists. split; [reflexivity|].
  unfold ServerConfig_valid, ServiceRegistrationEnabled, limits_ok, RpcServerOptions_wf,
    options_acceptable, is_u in *. simpl.
  destruct Ha as (?&?&?&?&?&?&?&?&?&Hc). destruct Hwf as (Hw&?&?&?&?&?&?).
  split_and!; try lia; try done.
  - destruct (Z.eqb_spec (worker_threads_ o) 0); [|lia]. destruct (Z.eqb_spec hw 0); lia.
  - rewrite negb_true_iff, bool_decide_eq_false. intros. by case_decide.
Qed.

Lemma ServerConfig_Create_exact_witness :
  exists c, ServerConfig_Create 8 RpcServerOptions_default UringBufferPoolConfig_default
            = Some (StatusOr_value c).
Proof.
  destruct (ServerConfig_Create_exact 8 RpcServerOptions_default UringBufferPoolConfig_default)
    as [H _]; [repeat (split; [done|]); done|done|].
  destruct H as (c & H & _); [by apply (bool_decide_unpack _); vm_compute|].
  exists c. exact H.
Defined.

(** resolved registration options are usable.  With registration enabled
    and either a configured address or a concrete listen host,
    [ResolveRegistrarOptions] succeeds with non-empty name, id and address, a
    non-wildcard address, and the actual listening port; a wildcard or empty
    host without a configured address is rejected. *)
Theorem ResolveRegistrarOptions_usable getpid config host port :
  ServiceRegistrationEnabled config = true ->
  IsWildcardAddress (consul_service_address_ (consul_ config)) = false ->
  let wildcard := bool_decide (host = []) || IsWildcardAddress host in
  if bool_decide (consul_service_address_ (consul_ config) = []) && wildcard
  then code_ (so_status_ (ResolveRegistrarOptions getpid config host port)) = InvalidArgument
  else exists r, ResolveRegistrarOptions getpid config host port = StatusOr_value r /\
    ro_service_name_ r = consul_service_name_ (consul_ config) /\ ro_service_name_ r <> [] /\
    ro_service_id_ r <> [] /\ ro_service_address_ r <> [] /\
    IsWildcardAddress (ro_service_address_ r) = false /\ ro_service_port_ r = port.
Proof.
  intros Hen Hnw wildcard. unfold ResolveRegistrarOptions. rewrite Hen. simpl negb. cbv iota.
  fold wildcard.
  unfold ServiceRegistrationEnabled in Hen. apply negb_true_iff, bool_decide_eq_false in Hen.
  destruct (decide (consul_service_address_ (consul_ config) = [])) as [Ha|Ha].
  - rewrite (bool_decide_true (_ = [])) by done. simpl.
    destruct wildcard eqn:E; [done|]. apply orb_false_iff in E as [E1 E2].
    apply bool_decide_eq_false in E1. eexists. split; [reflexivity|]. simpl.
    split_and!; try done. case_bool_decide; [|done].
    by destruct (consul_service_name_ (consul_ config)).
  - rewrite (bool_decide_false (consul_service_address_ (consul_ config) = [])) by done. simpl.
    eexists. split; [reflexivity|]. simpl. split_and!; try done. case_bool_decide; [|done].
    by destruct (consul_service_name_ (consul_ config)).
Qed.

Lemma ResolveRegistrarOptions_usable_witness :
  exists r, ResolveRegistrarOptions 77
    (MkServerConfig (MkWorkerPoolConfig 1 1) (MkListenConfigR 1)
       (MkConnectionIoConfigR 1 (MkServerConnectionConfig (MkBackpressure 1 1)
          ProtocolLimits_default) UringBufferPoolConfig_default)
       (MkConsulConfig (bs "echo") [] [] (bs "127.0.0.1:8500"))) (bs "10.0.0.12") 9000
    = StatusOr_value r /\ ro_service_port_ r = 9000.
Proof.
  pose proof (ResolveRegistrarOptions_usable 77
    (MkServerConfig (MkWorkerPoolConfig 1 1) (MkListenConfigR 1)
       (MkConnectionIoConfigR 1 (MkServerConnectionConfig (MkBackpressure 1 1)
          ProtocolLimits_default) UringBufferPoolConfig_default)
       (MkConsulConfig (bs "echo") [] [] (bs "127.0.0.1:8500"))) (bs "10.0.0.12") 9000
    eq_refl eq_refl) as H.
  destruct H as (r & H & _ & _ & _ & _ & _ & Hp). exists r. exact (conj H Hp).
Defined.
