(* ===== verification/WorkerPool.v ===== *)
(** * Worker pool

    Models [src/server/worker_pool.cpp] and its header: bounded admission
    ([TrySubmitBatch], [TryReservePendingJobs]), worker selection,
    [WorkerLoop], [CloseSubmissions] and [DrainAndJoin].

    The pool is shared by submitting threads, one worker per queue and the
    owner that closes and drains it.  Each function is a sequence of atomic
    accesses: a thread is a control point of the source together with its
    local variables, and [step] interleaves the threads, one access at a time,
    under sequential consistency (the atomics of the source use the default
    ordering).  A condition variable wait is a step that is enabled when its
    predicate holds; notification order is not modelled. *)

From S2P Require Import Prelude Status ServerConfig.

Local Open Scope Z_scope.

(** ** Worker selection

    [loads i] is the value the load of queue [i]'s [pending_logical_jobs_]
    returned; other threads may change it between two loads. *)
Fixpoint SelectWorkerQueue_loop (n : nat) (loads : Z -> Z)
    (worker_count start offset selected selected_pending : Z) : Z :=
  match n with
  | O => selected
  | S n =>
      if (offset <? worker_count) && (0 <? selected_pending) then
        let candidate := ((start +u offset) mod worker_count)%word in
        let candidate_pending := loads candidate in
        if candidate_pending <? selected_pending then
          SelectWorkerQueue_loop n loads worker_count start (offset + 1) candidate
            candidate_pending
        else
          SelectWorkerQueue_loop n loads worker_count start (offset + 1) selected
            selected_pending
      else selected
  end.

(** [next] is the value [next_worker_index_.fetch_add(1)] returned. *)
Definition SelectWorkerQueue (loads : Z -> Z) (worker_count next : Z) : Z :=
  let start := next mod worker_count in
  SelectWorkerQueue_loop (Z.to_nat worker_count) loads worker_count start 1 start (loads start).

Lemma SelectWorkerQueue_loop_spec n loads worker_count start offset selected pending :
  0 <= start < worker_count -> 1 <= offset -> worker_count < 2 ^ 63 ->
  worker_count <= offset + Z.of_nat n -> (forall i, 0 <= loads i) ->
  0 <= selected < worker_count -> pending = loads selected ->
  (forall k, 0 <= k < offset -> k < worker_count -> pending <= loads ((start + k) mod worker_count)) ->
  let r := SelectWorkerQueue_loop n loads worker_count start offset selected pending in
  0 <= r < worker_count /\
  forall k, 0 <= k < worker_count -> loads r <= loads ((start + k) mod worker_count).
Proof.
  revert offset selected pending. induction n as [|n IH];
    intros offset selected pending Hst Hoff Hw Hn Hl Hsel -> Hmin; simpl.
  { split; [done|]. intros k Hk. apply Hmin; lia. }
  destruct (Z.ltb_spec offset worker_count) as [Ho|Ho]; simpl;
    [|split; [done|]; intros k Hk; apply Hmin; lia].
  destruct (Z.ltb_spec 0 (loads selected)) as [Hp|Hp]; simpl;
    [|split; [done|]; intros k Hk; pose proof (Hl ((start + k) mod worker_count)); lia].
  rewrite add64_small by lia.
  pose proof (Z.mod_pos_bound (start + offset) worker_count ltac:(lia)) as Hc.
  destruct (Z.ltb_spec (loads ((start + offset) mod worker_count)) (loads selected)) as [Hlt|Hge].
  - apply IH; try lia; [done|]. intros k Hk Hkw.
    destruct (decide (k = offset)) as [->|]; [done|]. pose proof (Hmin k ltac:(lia) Hkw). lia.
  - apply IH; try lia; [done|]. intros k Hk Hkw.
    destruct (decide (k = offset)) as [->|]; [done|]. apply Hmin; lia.
Qed.

Lemma SelectWorkerQueue_spec loads worker_count next :
  0 < worker_count < 2 ^ 63 -> 0 <= next -> (forall i, 0 <= loads i) ->
  0 <= SelectWorkerQueue loads worker_count next < worker_count /\
  forall i, 0 <= i < worker_count -> loads (SelectWorkerQueue loads worker_count next) <= loads i.
Proof.
  intros Hw Hnext Hl. unfold SelectWorkerQueue.
  pose proof (Z.mod_pos_bound next worker_count ltac:(lia)) as Hs.
  set (start := next mod worker_count) in *.
  destruct (SelectWorkerQueue_loop_spec (Z.to_nat worker_count) loads worker_count start 1 start
    (loads start)) as [H1 H2]; try lia; try done.
  { intros k Hk _. replace k with 0 by lia. rewrite Z.add_0_r, Z.mod_small by done. lia. }
  split; [done|]. intros i Hi.
  replace i with ((start + (i - start) mod worker_count) mod worker_count).
  - apply H2. apply Z.mod_pos_bound. lia.
  - rewrite Zplus_mod_idemp_r. replace (start + (i - start)) with i by lia. by apply Z.mod_small.
Qed.

(** ** State *)
Section Pool.
Context {Job : Type}.

(** [WorkerJob]: the closure and the number of RPCs it stands for. *)
Record WorkerJob := MkWorkerJob { run_ : Job; logical_jobs_ : Z }.

(** Who holds a queue's mutex. *)
Inductive holder := HSubmitter (i : nat) | HWorker | HOwner.

#[global] Instance holder_eq_dec : EqDecision holder.
Proof. solve_decision. Defined.

Record WorkerQueue := MkWorkerQueue {
  mutex_ : option holder;
  jobs_ : list WorkerJob;
  queued_logical_jobs_ : Z;
  queued_logical_jobs_peak_ : Z;
  pending_logical_jobs_ : Z
}.

Definition WorkerQueue_new : WorkerQueue := MkWorkerQueue None [] 0 0 0.

Definition set_mutex (m : option holder) (q : WorkerQueue) : WorkerQueue :=
  MkWorkerQueue m (jobs_ q) (queued_logical_jobs_ q) (queued_logical_jobs_peak_ q)
    (pending_logical_jobs_ q).

(** Control points of [TrySubmitBatch], named by the next access. *)
Inductive submitter :=
  | SubIdle                                       (* not in a call *)
  | SubLoadAccepting (job : WorkerJob)            (* [!accepting_submissions_.load()] *)
  | SubLoadPending (job : WorkerJob)              (* [pending_jobs_.load()] *)
  | SubCas (job : WorkerJob) (pending : Z)        (* test, then [compare_exchange_weak] *)
  | SubSelect (job : WorkerJob)                   (* [SelectWorkerQueue()] *)
  | SubLock (job : WorkerJob) (queue : nat)       (* [lock_guard] *)
  | SubRecheck (job : WorkerJob) (queue : nat)    (* [accepting_submissions_.load()] *)
  | SubPush (job : WorkerJob) (queue : nat)       (* push and counters *)
  | SubRollback (job : WorkerJob) (queue : nat) (thrown : bool)  (* [ReleasePendingJobs] *)
  | SubReturned (result : bool + unit).           (* the result, or a rethrown exception *)

(** Control points of [WorkerLoop]. *)
Inductive worker :=
  | WkWait                                        (* [cv_.wait] *)
  | WkTake                                        (* lock held, predicate true *)
  | WkRun (job : WorkerJob)                       (* [job.run_()] *)
  | WkQueueRelease (job : WorkerJob)              (* [queue.pending_logical_jobs_.fetch_sub] *)
  | WkPoolRelease (job : WorkerJob)               (* [ReleasePendingJobs] *)
  | WkExit.

(** Control points of [CloseSubmissions] and [DrainAndJoin]. *)
Inductive owner :=
  | OwnIdle                                       (* before the call *)
  | OwnCloseLock (drain : bool) (queue : nat)     (* [CloseSubmissions]: lock queue i *)
  | OwnCloseUnlock (drain : bool) (queue : nat)
  | OwnClosed                                     (* [CloseSubmissions] returned *)
  | OwnDrainFlag                                  (* [drain_requested_.exchange(true)] *)
  | OwnDrainLock (queue : nat)                    (* lock and notify queue i *)
  | OwnDrainUnlock (queue : nat)
  | OwnJoin                                       (* [worker.join()] *)
  | OwnDrained.                                   (* [DrainAndJoin] returned *)

(** [admitted] and [executed] record the jobs pushed and run so far. *)
Record pool := MkPool {
  worker_queues_ : list WorkerQueue;
  next_worker_index_ : Z;
  max_pending_jobs_ : Z;
  pending_jobs_ : Z;
  accepting_submissions_ : bool;
  drain_requested_ : bool;
  admitted : list WorkerJob;
  executed : list WorkerJob
}.

Record system := MkSystem {
  shared : pool;
  submitters : list submitter;
  workers_ : list worker;
  owner_ : owner
}.

(** The constructor [WorkerPool(config)] with [n] threads that may submit. *)
Definition WorkerPool_new (config : WorkerPoolConfig) (n : nat) : system :=
  MkSystem
    (MkPool (replicate (Z.to_nat (wp_threads_ config)) WorkerQueue_new) 0
       (wp_max_pending_jobs_ config) 0 true false [] [])
    (replicate n SubIdle) (replicate (Z.to_nat (wp_threads_ config)) WkWait) OwnIdle.

Definition with_pending (p : pool) (z : Z) : pool :=
  MkPool (worker_queues_ p) (next_worker_index_ p) (max_pending_jobs_ p) z
    (accepting_submissions_ p) (drain_requested_ p) (admitted p) (executed p).

Definition with_queue (p : pool) (i : nat) (q : WorkerQueue) : pool :=
  MkPool (<[i := q]> (worker_queues_ p)) (next_worker_index_ p) (max_pending_jobs_ p)
    (pending_jobs_ p) (accepting_submissions_ p) (drain_requested_ p) (admitted p) (executed p).

(** [SnapshotStats], run by the control thread: the pool with the peaks of a new
    window, the window id, and the copied counters. *)
Definition WorkerPool_SnapshotStats (start_window : bool) (stats_window_id : Z) (p : pool)
    : pool * Z * (Z * list (Z * Z * Z)) :=
  let window_id := if start_window then (stats_window_id +u 1)%word else stats_window_id in
  let queues := map (fun q =>
    if start_window then
      MkWorkerQueue (mutex_ q) (jobs_ q) (queued_logical_jobs_ q) (queued_logical_jobs_ q)
        (pending_logical_jobs_ q)
    else q) (worker_queues_ p) in
  (MkPool queues (next_worker_index_ p) (max_pending_jobs_ p) (pending_jobs_ p)
     (accepting_submissions_ p) (drain_requested_ p) (admitted p) (executed p),
   window_id,
   (pending_jobs_ p, map (fun q => (queued_logical_jobs_ q, pending_logical_jobs_ q,
                                    queued_logical_jobs_peak_ q)) queues)).

(** [ReleasePendingJobs] *)
Definition ReleasePendingJobs (p : pool) (logical_jobs : Z) : pool :=
  with_pending p (pending_jobs_ p -u logical_jobs)%word.

(** The test of [TryReservePendingJobs] on a loaded value. *)
Definition reservation_fits (p : pool) (pending logical_jobs : Z) : bool :=
  negb ((max_pending_jobs_ p <? pending) ||
        (max_pending_jobs_ p -u pending <? logical_jobs)%word).

(** [push], [fetch_add] and the queue statistics, under the queue lock. *)
Definition push_job (q : WorkerQueue) (job : WorkerJob) : WorkerQueue :=
  let queued := (queued_logical_jobs_ q +u logical_jobs_ job)%word in
  MkWorkerQueue None (jobs_ q ++ [job]) queued (Z.max (queued_logical_jobs_peak_ q) queued)
    (pending_logical_jobs_ q +u logical_jobs_ job)%word.

(** ** Steps of [TrySubmitBatch] by submitter [i] *)
Inductive submit_step (i : nat) : pool -> submitter -> pool -> submitter -> Prop :=
  | st_call p job :
      (* a call with [logical_jobs == 0] aborts the process *)
      0 < logical_jobs_ job ->
      submit_step i p SubIdle p (SubLoadAccepting job)
  | st_return p r : submit_step i p (SubReturned r) p SubIdle
  | st_closed p job :
      accepting_submissions_ p = false ->
      submit_step i p (SubLoadAccepting job) p (SubReturned (inl false))
  | st_open p job :
      accepting_submissions_ p = true ->
      submit_step i p (SubLoadAccepting job) p (SubLoadPending job)
  | st_load p job : submit_step i p (SubLoadPending job) p (SubCas job (pending_jobs_ p))
  | st_full p job pending :
      reservation_fits p pending (logical_jobs_ job) = false ->
      submit_step i p (SubCas job pending) p (SubReturned (inl false))
  | st_cas_fail p job pending :
      (* another value, or a spurious failure: [pending] is reloaded *)
      reservation_fits p pending (logical_jobs_ job) = true ->
      submit_step i p (SubCas job pending) p (SubCas job (pending_jobs_ p))
  | st_cas_ok p job :
      reservation_fits p (pending_jobs_ p) (logical_jobs_ job) = true ->
      submit_step i p (SubCas job (pending_jobs_ p))
        (with_pending p (pending_jobs_ p +u logical_jobs_ job)%word) (SubSelect job)
  | st_select p job loads :
      (forall k, 0 <= loads k) ->
      submit_step i p (SubSelect job)
        (MkPool (worker_queues_ p) (next_worker_index_ p +u 1)%word (max_pending_jobs_ p)
           (pending_jobs_ p) (accepting_submissions_ p) (drain_requested_ p) (admitted p)
           (executed p))
        (SubLock job (Z.to_nat (SelectWorkerQueue loads (len (worker_queues_ p))
                                  (next_worker_index_ p))))
  | st_lock p job k q :
      worker_queues_ p !! k = Some q -> mutex_ q = None ->
      submit_step i p (SubLock job k) (with_queue p k (set_mutex (Some (HSubmitter i)) q))
        (SubRecheck job k)
  | st_recheck_closed p job k :
      accepting_submissions_ p = false ->
      submit_step i p (SubRecheck job k) p (SubRollback job k false)
  | st_recheck_open p job k :
      accepting_submissions_ p = true ->
      submit_step i p (SubRecheck job k) p (SubPush job k)
  | st_push_throws p job k :
      (* the queue's allocation fails *)
      submit_step i p (SubPush job k) p (SubRollback job k true)
  | st_rollback p job k q thrown :
      worker_queues_ p !! k = Some q ->
      submit_step i p (SubRollback job k thrown)
        (ReleasePendingJobs (with_queue p k (set_mutex None q)) (logical_jobs_ job))
        (SubReturned (if thrown then inr tt else inl false))
  | st_push p job k q :
      worker_queues_ p !! k = Some q ->
      submit_step i p (SubPush job k)
        (MkPool (<[k := push_job q job]> (worker_queues_ p)) (next_worker_index_ p)
           (max_pending_jobs_ p) (pending_jobs_ p) (accepting_submissions_ p)
           (drain_requested_ p) (admitted p ++ [job]) (executed p))
        (SubReturned (inl true)).

(** ** Steps of the worker of queue [k] *)
Inductive worker_step (k : nat) : pool -> worker -> pool -> worker -> Prop :=
  | wt_wake p q :
      worker_queues_ p !! k = Some q -> mutex_ q = None ->
      drain_requested_ p = true \/ jobs_ q <> [] ->
      worker_step k p WkWait (with_queue p k (set_mutex (Some HWorker) q)) WkTake
  | wt_exit p q :
      worker_queues_ p !! k = Some q -> drain_requested_ p = true -> jobs_ q = [] ->
      worker_step k p WkTake (with_queue p k (set_mutex None q)) WkExit
  | wt_pop p q job jobs :
      worker_queues_ p !! k = Some q -> jobs_ q = job :: jobs ->
      worker_step k p WkTake
        (with_queue p k (MkWorkerQueue None jobs
           (queued_logical_jobs_ q -u logical_jobs_ job)%word (queued_logical_jobs_peak_ q)
           (pending_logical_jobs_ q)))
        (WkRun job)
  | wt_run p job :
      worker_step k p (WkRun job)
        (MkPool (worker_queues_ p) (next_worker_index_ p) (max_pending_jobs_ p) (pending_jobs_ p)
           (accepting_submissions_ p) (drain_requested_ p) (admitted p) (executed p ++ [job]))
        (WkQueueRelease job)
  | wt_queue_release p q job :
      worker_queues_ p !! k = Some q ->
      worker_step k p (WkQueueRelease job)
        (with_queue p k (MkWorkerQueue (mutex_ q) (jobs_ q) (queued_logical_jobs_ q)
           (queued_logical_jobs_peak_ q) (pending_logical_jobs_ q -u logical_jobs_ job)%word))
        (WkPoolRelease job)
  | wt_pool_release p job :
      worker_step k p (WkPoolRelease job) (ReleasePendingJobs p (logical_jobs_ job)) WkWait.

Definition with_flags (p : pool) (accepting drain : bool) : pool :=
  MkPool (worker_queues_ p) (next_worker_index_ p) (max_pending_jobs_ p) (pending_jobs_ p)
    accepting drain (admitted p) (executed p).

(** ** Steps of the owner *)
Inductive owner_step (ws : list worker) : pool -> owner -> pool -> owner -> Prop :=
  | ot_close p o drain :
      (* [accepting_submissions_.store(false)], of [CloseSubmissions] called
         directly or from [DrainAndJoin] *)
      o = OwnIdle \/ o = OwnClosed \/ o = OwnDrained ->
      owner_step ws p o (with_flags p false (drain_requested_ p)) (OwnCloseLock drain 0)
  | ot_lock p k q drain :
      worker_queues_ p !! k = Some q -> mutex_ q = None ->
      owner_step ws p (OwnCloseLock drain k) (with_queue p k (set_mutex (Some HOwner) q))
        (OwnCloseUnlock drain k)
  | ot_unlock p k q drain :
      worker_queues_ p !! k = Some q ->
      owner_step ws p (OwnCloseUnlock drain k) (with_queue p k (set_mutex None q))
        (OwnCloseLock drain (S k))
  | ot_closed p k drain :
      worker_queues_ p !! k = None ->
      owner_step ws p (OwnCloseLock drain k) p (if drain then OwnDrainFlag else OwnClosed)
  | ot_drain_again p :
      drain_requested_ p = true -> owner_step ws p OwnDrainFlag p OwnDrained
  | ot_drain_first p :
      drain_requested_ p = false ->
      owner_step ws p OwnDrainFlag (with_flags p (accepting_submissions_ p) true)
        (OwnDrainLock 0)
  | ot_notify_lock p k q :
      worker_queues_ p !! k = Some q -> mutex_ q = None ->
      owner_step ws p (OwnDrainLock k) (with_queue p k (set_mutex (Some HOwner) q))
        (OwnDrainUnlock k)
  | ot_notify_unlock p k q :
      worker_queues_ p !! k = Some q ->
      owner_step ws p (OwnDrainUnlock k) (with_queue p k (set_mutex None q)) (OwnDrainLock (S k))
  | ot_join_start p k :
      worker_queues_ p !! k = None -> owner_step ws p (OwnDrainLock k) p OwnJoin
  | ot_join p :
      Forall (fun w => w = WkExit) ws -> owner_step ws p OwnJoin p OwnDrained.

(** ** Interleaving *)
Inductive step : system -> system -> Prop :=
  | step_submit s i pc p' pc' :
      submitters s !! i = Some pc -> submit_step i (shared s) pc p' pc' ->
      step s (MkSystem p' (<[i := pc']> (submitters s)) (workers_ s) (owner_ s))
  | step_worker s k pc p' pc' :
      workers_ s !! k = Some pc -> worker_step k (shared s) pc p' pc' ->
      step s (MkSystem p' (submitters s) (<[k := pc']> (workers_ s)) (owner_ s))
  | step_owner s p' pc' :
      owner_step (workers_ s) (shared s) (owner_ s) p' pc' ->
      step s (MkSystem p' (submitters s) (workers_ s) pc').

Definition reachable (config : WorkerPoolConfig) (n : nat) (s : system) : Prop :=
  rtc step (WorkerPool_new config n) s.

End Pool.
Arguments WorkerJob : clear implicits.
Arguments WorkerQueue : clear implicits.
Arguments pool : clear implicits.
Arguments system : clear implicits.
Arguments submitter : clear implicits.
Arguments worker : clear implicits.

(** ** Mutual exclusion *)
Section Invariants.
Context {Job : Type}.
Notation pool := (pool Job).
Notation system := (system Job).

Definition sub_holds (pc : submitter Job) : option nat :=
  match pc with
  | SubRecheck _ k | SubPush _ k | SubRollback _ k _ => Some k
  | _ => None
  end.

Definition wk_holds (pc : worker Job) : bool :=
  match pc with WkTake => true | _ => false end.

Definition own_holds (o : owner) : option nat :=
  match o with OwnCloseUnlock _ k | OwnDrainUnlock k => Some k | _ => None end.

Definition holds (s : system) (h : holder) (k : nat) : Prop :=
  match h with
  | HSubmitter i => exists pc, submitters s !! i = Some pc /\ sub_holds pc = Some k
  | HWorker => exists pc, workers_ s !! k = Some pc /\ wk_holds pc = true
  | HOwner => own_holds (owner_ s) = Some k
  end.

Definition lock_inv (s : system) : Prop :=
  forall h k, holds s h k ->
    exists q, worker_queues_ (shared s) !! k = Some q /\ mutex_ q = Some h.

(** What a step may do to the mutexes: nothing, take a free one, or release
    the one it holds. *)
Definition same_mutexes (p p' : pool) : Prop :=
  forall k q, worker_queues_ p !! k = Some q ->
    exists q', worker_queues_ p' !! k = Some q' /\ mutex_ q' = mutex_ q.

Definition set_mutex_at (p p' : pool) (k : nat) (m : option holder) : Prop :=
  (exists q', worker_queues_ p' !! k = Some q' /\ mutex_ q' = m) /\
  forall j q, j <> k -> worker_queues_ p !! j = Some q ->
    exists q', worker_queues_ p' !! j = Some q' /\ mutex_ q' = mutex_ q.

(** [acts s s' h]: only holder [h]'s control point changed from [s] to [s']. *)
Definition acts (s s' : system) (h : holder) : Prop :=
  forall h' k, h' <> h -> holds s' h' k -> holds s h' k.

Lemma lock_inv_keep s s' h :
  lock_inv s -> acts s s' h -> same_mutexes (shared s) (shared s') ->
  (forall k, holds s' h k -> holds s h k) -> lock_inv s'.
Proof.
  intros Hinv Hacts Hsame Hown h' k Hh.
  assert (holds s h' k) as Hold by (destruct (decide (h' = h)) as [->|]; auto).
  destruct (Hinv h' k Hold) as (q & Hq & Hm). destruct (Hsame k q Hq) as (q' & ? & ?).
  exists q'. split; [done|congruence].
Qed.

Lemma lock_inv_acquire s s' h k q :
  lock_inv s -> acts s s' h -> worker_queues_ (shared s) !! k = Some q -> mutex_ q = None ->
  set_mutex_at (shared s) (shared s') k (Some h) ->
  (forall j, holds s' h j -> j = k) -> lock_inv s'.
Proof.
  intros Hinv Hacts Hq Hfree [Hk Hrest] Hown h' j Hh.
  destruct (decide (h' = h)) as [->|Hne].
  - by rewrite (Hown j Hh).
  - apply Hacts in Hh; [|done]. destruct (Hinv h' j Hh) as (q' & Hq' & Hm).
    destruct (decide (j = k)) as [->|Hjk]; [congruence|].
    destruct (Hrest j q' Hjk Hq') as (q'' & ? & ?). exists q''. split; [done|congruence].
Qed.

Lemma lock_inv_release s s' h k :
  lock_inv s -> acts s s' h -> holds s h k -> set_mutex_at (shared s) (shared s') k None ->
  (forall j, ~ holds s' h j) -> lock_inv s'.
Proof.
  intros Hinv Hacts Hold [Hk Hrest] Hown h' j Hh.
  destruct (decide (h' = h)) as [->|Hne]; [by destruct (Hown j)|].
  apply Hacts in Hh; [|done]. destruct (Hinv h' j Hh) as (q' & Hq' & Hm).
  destruct (decide (j = k)) as [->|Hjk].
  - destruct (Hinv h k Hold) as (q'' & Hq'' & Hm''). congruence.
  - destruct (Hrest j q' Hjk Hq') as (q'' & ? & ?). exists q''. split; [done|congruence].
Qed.

Lemma with_queue_set p k q q' :
  worker_queues_ p !! k = Some q -> set_mutex_at p (with_queue p k q') k (mutex_ q').
Proof.
  intros Hq. split; simpl.
  - exists q'. rewrite list_lookup_insert_eq; [done|]. by eapply lookup_lt_Some.
  - intros j r Hne Hr. exists r. by rewrite list_lookup_insert_ne.
Qed.

Lemma with_queue_mutex p k q m :
  worker_queues_ p !! k = Some q -> set_mutex_at p (with_queue p k (set_mutex m q)) k m.
Proof. intros Hq. exact (with_queue_set p k q (set_mutex m q) Hq). Qed.

Lemma with_queue_same p k q q' :
  worker_queues_ p !! k = Some q -> mutex_ q' = mutex_ q -> same_mutexes p (with_queue p k q').
Proof.
  intros Hq Hm j r Hr. simpl. destruct (decide (j = k)) as [->|].
  - exists q'. rewrite list_lookup_insert_eq by (by eapply lookup_lt_Some).
    split; [done|congruence].
  - exists r. by rewrite list_lookup_insert_ne.
Qed.

Lemma acts_submitter s p' i pc' :
  acts s (MkSystem p' (<[i := pc']> (submitters s)) (workers_ s) (owner_ s)) (HSubmitter i).
Proof.
  intros [j| |] k Hne; simpl; try done. by rewrite list_lookup_insert_ne by congruence.
Qed.

Lemma holds_submitter s p' i pc pc' k :
  submitters s !! i = Some pc ->
  holds (MkSystem p' (<[i := pc']> (submitters s)) (workers_ s) (owner_ s)) (HSubmitter i) k <->
  sub_holds pc' = Some k.
Proof.
  intros Hi. simpl. rewrite list_lookup_insert_eq by (by eapply lookup_lt_Some). naive_solver.
Qed.

Lemma submit_step_lock s i pc p' pc' :
  lock_inv s -> submitters s !! i = Some pc -> submit_step i (shared s) pc p' pc' ->
  lock_inv (MkSystem p' (<[i := pc']> (submitters s)) (workers_ s) (owner_ s)).
Proof.
  intros Hinv Hi Hstep. pose proof (acts_submitter s p' i pc') as Hacts.
  pose proof (fun k => holds_submitter s p' i pc pc' k Hi) as Hnew.
  assert (forall k, sub_holds pc = Some k -> holds s (HSubmitter i) k) as Hold by (simpl; eauto).
  inversion Hstep; subst;
    first
    [ eapply (lock_inv_keep _ _ _ Hinv Hacts);
      [ intros ? ? ?; simpl; by eauto
      | intros k0 Hk; apply Hnew in Hk; simpl in Hk; first [discriminate | by apply Hold] ]
    | eapply (lock_inv_acquire _ _ _ _ _ Hinv Hacts); [eassumption|done|
        by apply with_queue_mutex | intros j Hj; apply Hnew in Hj; simpl in Hj; congruence ]
    | eapply (lock_inv_release _ _ _ k Hinv Hacts); [by apply Hold| |
        intros j Hj; apply Hnew in Hj; discriminate Hj] ].
  - exact (with_queue_mutex (shared s) k q None ltac:(eassumption)).
  - exact (with_queue_set (shared s) k q (push_job q job) ltac:(eassumption)).
Qed.

Lemma worker_step_lock s k pc p' pc' :
  lock_inv s -> workers_ s !! k = Some pc -> worker_step k (shared s) pc p' pc' ->
  lock_inv (MkSystem p' (submitters s) (<[k := pc']> (workers_ s)) (owner_ s)).
Proof.
  intros Hinv Hk Hstep h j Hh.
  assert (h <> HWorker \/ j <> k -> holds s h j) as Hother.
  { destruct h as [i| |]; simpl in *; try done. intros [|Hne]; [done|].
    by rewrite list_lookup_insert_ne in Hh by done. }
  assert (h = HWorker -> j = k -> wk_holds pc' = true) as Hself.
  { intros -> ->. simpl in Hh. rewrite list_lookup_insert_eq in Hh by (by eapply lookup_lt_Some).
    naive_solver. }
  assert (wk_holds pc = true -> exists q, worker_queues_ (shared s) !! k = Some q /\
    mutex_ q = Some HWorker) as Hmine by (intros; apply Hinv; simpl; eauto).
  destruct (decide (h = HWorker)) as [->|Hh'].
  - destruct (decide (j = k)) as [->|Hj].
    + specialize (Hself eq_refl eq_refl). inversion Hstep; subst; try done. simpl.
      rewrite list_lookup_insert_eq by (by eapply lookup_lt_Some). eauto.
    + destruct (Hinv HWorker j (Hother ltac:(auto))) as (q & Hq & Hm).
      inversion Hstep; subst; simpl; rewrite ?list_lookup_insert_ne by done; eauto.
  - destruct (Hinv h j (Hother ltac:(auto))) as (q & Hq & Hm).
    destruct (decide (j = k)) as [->|Hj].
    2: { inversion Hstep; subst; simpl; rewrite ?list_lookup_insert_ne by done; eauto. }
    inversion Hstep; subst; simpl; try (by eauto);
      try (destruct (Hmine eq_refl) as (q' & ? & ?); congruence); try congruence.
    rewrite list_lookup_insert_eq by (by eapply lookup_lt_Some).
    eexists. split; [reflexivity|]. simpl. congruence.
Qed.

Lemma owner_step_lock s p' pc' :
  lock_inv s -> owner_step (workers_ s) (shared s) (owner_ s) p' pc' ->
  lock_inv (MkSystem p' (submitters s) (workers_ s) pc').
Proof.
  intros Hinv Hstep.
  assert (acts s (MkSystem p' (submitters s) (workers_ s) pc') HOwner) as Hacts
    by (intros [| |] k Hne; simpl; done).
  assert (forall k, own_holds (owner_ s) = Some k -> holds s HOwner k) as Hold by done.
  inversion Hstep; subst;
    first
    [ eapply (lock_inv_keep _ _ _ Hinv Hacts);
      [ intros ? ? ?; simpl; by eauto | by (simpl; intros; case_match) ]
    | eapply (lock_inv_keep _ _ _ Hinv Hacts); [ intros ? ? ?; simpl; by eauto | done ]
    | eapply (lock_inv_acquire _ _ _ _ _ Hinv Hacts); [eassumption|done|
        by apply with_queue_mutex | simpl; congruence ]
    | eapply (lock_inv_release _ _ _ k Hinv Hacts);
      [ apply Hold; by match goal with H : _ = owner_ s |- _ => rewrite <- H end
      | by apply with_queue_mutex | done ] ].
Qed.

Lemma step_lock s s' : lock_inv s -> step s s' -> lock_inv s'.
Proof.
  intros Hinv Hstep. destruct Hstep.
  - by eapply submit_step_lock.
  - by eapply worker_step_lock.
  - by eapply owner_step_lock.
Qed.

(** ** Accounting of admitted jobs *)

Definition sub_job (pc : submitter Job) : option (WorkerJob Job) :=
  match pc with
  | SubLoadAccepting j | SubLoadPending j | SubCas j _ | SubSelect j | SubLock j _
  | SubRecheck j _ | SubPush j _ | SubRollback j _ _ => Some j
  | SubIdle | SubReturned _ => None
  end.

(** Capacity reserved by a submission in progress. *)
Definition sub_res (pc : submitter Job) : Z :=
  match pc with
  | SubSelect j | SubLock j _ | SubRecheck j _ | SubPush j _ | SubRollback j _ _ =>
      logical_jobs_ j
  | _ => 0
  end.

Definition wk_job (pc : worker Job) : option (WorkerJob Job) :=
  match pc with WkRun j | WkQueueRelease j | WkPoolRelease j => Some j | _ => None end.

(** RPCs a worker has taken and not yet released, globally and at its queue. *)
Definition wk_res (pc : worker Job) : Z :=
  match pc with WkRun j | WkQueueRelease j | WkPoolRelease j => logical_jobs_ j | _ => 0 end.

Definition wk_load (pc : worker Job) : Z :=
  match pc with WkRun j | WkQueueRelease j => logical_jobs_ j | _ => 0 end.

Definition queue_logical (q : WorkerQueue Job) : Z := zsum logical_jobs_ (jobs_ q).

Definition positive (j : WorkerJob Job) : Prop := 0 < logical_jobs_ j.

Definition pos_inv (s : system) : Prop :=
  (forall i pc j, submitters s !! i = Some pc -> sub_job pc = Some j -> positive j) /\
  (forall k q, worker_queues_ (shared s) !! k = Some q -> Forall positive (jobs_ q)) /\
  (forall k w j, workers_ s !! k = Some w -> wk_job w = Some j -> positive j).

(** The counters of a queue: what is queued, and what its worker has in hand. *)
Definition queue_ok (q : WorkerQueue Job) (load : Z) : Prop :=
  queued_logical_jobs_ q = queue_logical q /\ pending_logical_jobs_ q = queue_logical q + load.

Definition count_inv (s : system) : Prop :=
  let p := shared s in
  0 <= max_pending_jobs_ p < 2 ^ 64 /\
  pending_jobs_ p = zsum sub_res (submitters s) + zsum queue_logical (worker_queues_ p)
                    + zsum wk_res (workers_ s) /\
  pending_jobs_ p <= max_pending_jobs_ p /\
  length (worker_queues_ p) = length (workers_ s) /\
  forall k q w, worker_queues_ p !! k = Some q -> workers_ s !! k = Some w ->
    queue_ok q (wk_load w).

Lemma queue_logical_nonneg q : Forall positive (jobs_ q) -> 0 <= queue_logical q.
Proof.
  intros H. apply zsum_nonneg. intros j Hj. rewrite Forall_forall in H.
  specialize (H j Hj). red in H. lia.
Qed.

Lemma submit_step_pos s i pc p' pc' :
  pos_inv s -> submitters s !! i = Some pc -> submit_step i (shared s) pc p' pc' ->
  pos_inv (MkSystem p' (<[i := pc']> (submitters s)) (workers_ s) (owner_ s)).
Proof.
  intros (Hs & Hq & Hw) Hi Hstep. pose proof (Hs i pc) as Hmine.
  assert (forall j, sub_job pc' = Some j -> positive j) as Hnew
    by (inversion Hstep; subst; simpl in *; naive_solver).
  split_and!; [|  |done]; simpl.
  - intros i' pc0 j [(->&<-&_)|[_ ?]]%list_lookup_insert_Some ?; eauto.
  - intros k q H. inversion Hstep; subst; simpl in *;
      try (apply list_lookup_insert_Some in H as [(->&<-&_)|[_ ?]]); simpl; eauto.
    apply Forall_app. split; [eauto|]. apply Forall_singleton. apply Hmine; eauto.
Qed.

Lemma worker_step_pos s k pc p' pc' :
  pos_inv s -> workers_ s !! k = Some pc -> worker_step k (shared s) pc p' pc' ->
  pos_inv (MkSystem p' (submitters s) (<[k := pc']> (workers_ s)) (owner_ s)).
Proof.
  intros (Hs & Hq & Hw) Hk Hstep. pose proof (Hw k pc) as Hmine.
  assert (forall j, wk_job pc' = Some j -> positive j) as Hnew.
  { inversion Hstep; subst; simpl in *; try naive_solver.
    intros j [= <-]. apply Forall_inv with jobs. rewrite <- H0. eauto. }
  split_and!; [done| |]; simpl.
  - intros j q H. inversion Hstep; subst; simpl in *;
      try (apply list_lookup_insert_Some in H as [(->&<-&_)|[_ ?]]); simpl; eauto.
    apply Forall_inv_tail with job. rewrite <- H1. eauto.
  - intros k' w j [(->&<-&_)|[_ ?]]%list_lookup_insert_Some ?; eauto.
Qed.

Lemma owner_step_pos s p' pc' :
  pos_inv s -> owner_step (workers_ s) (shared s) (owner_ s) p' pc' ->
  pos_inv (MkSystem p' (submitters s) (workers_ s) pc').
Proof.
  intros (Hs & Hq & Hw) Hstep. split_and!; [done| |done]; simpl.
  intros j q H. inversion Hstep; subst; simpl in *;
    try (apply list_lookup_insert_Some in H as [(->&<-&_)|[_ ?]]); simpl; eauto.
Qed.

Lemma reservation_fits_spec (p : pool) pending n :
  0 <= pending -> 0 <= max_pending_jobs_ p < 2 ^ 64 ->
  reservation_fits p pending n = true -> pending + n <= max_pending_jobs_ p.
Proof.
  intros Hp Hm. unfold reservation_fits. rewrite negb_true_iff, orb_false_iff.
  intros [H1%Z.ltb_ge H2]. rewrite sub64_small in H2 by lia. apply Z.ltb_ge in H2. lia.
Qed.

(** What one step of a submission does to the counters. *)
Lemma submit_account i (p : pool) pc p' pc' :
  submit_step i p pc p' pc' ->
  (forall j, sub_job pc = Some j -> positive j) ->
  0 <= max_pending_jobs_ p < 2 ^ 64 -> pending_jobs_ p <= max_pending_jobs_ p ->
  0 <= sub_res pc <= pending_jobs_ p ->
  (forall k q, worker_queues_ p !! k = Some q -> queued_logical_jobs_ q = queue_logical q /\
     0 <= queue_logical q <= pending_logical_jobs_ q /\
     pending_logical_jobs_ q + sub_res pc <= pending_jobs_ p) ->
  max_pending_jobs_ p' = max_pending_jobs_ p /\ pending_jobs_ p' <= max_pending_jobs_ p /\
  pending_jobs_ p' = pending_jobs_ p + (sub_res pc' - sub_res pc)
    + (zsum queue_logical (worker_queues_ p') - zsum queue_logical (worker_queues_ p)) /\
  length (worker_queues_ p') = length (worker_queues_ p) /\
  (forall k q', worker_queues_ p' !! k = Some q' ->
     exists q, worker_queues_ p !! k = Some q /\ queued_logical_jobs_ q' = queue_logical q' /\
       pending_logical_jobs_ q' - queue_logical q' = pending_logical_jobs_ q - queue_logical q).
Proof.
  intros Hstep Hpos Hmax Hle Hres Hq.
  assert (forall k q', worker_queues_ p !! k = Some q' ->
     exists q, worker_queues_ p !! k = Some q /\ queued_logical_jobs_ q' = queue_logical q' /\
       pending_logical_jobs_ q' - queue_logical q' = pending_logical_jobs_ q - queue_logical q)
    as Hsame by (intros k q' H; exists q'; destruct (Hq k q' H); auto).
  inversion Hstep; subst; simpl in *; rewrite ?length_insert;
    try (split_and!; try done; lia).
  - (* reserve *)
    pose proof (Hpos job eq_refl) as Hj. red in Hj.
    match goal with H : reservation_fits _ _ _ = true |- _ =>
      apply reservation_fits_spec in H; [|lia|lia] end.
    rewrite add64_small by lia. split_and!; try done; lia.
  - (* lock *)
    rewrite (zsum_insert _ _ _ q) by done. split_and!; try done; try lia.
    + unfold queue_logical. simpl. lia.
    + intros k' q' [(->&<-&_)|[_ ?]]%list_lookup_insert_Some; [|eauto].
      destruct (Hq _ _ H) as (?&?&?). exists q. done.
  - (* rollback *)
    unfold ReleasePendingJobs. simpl.
    rewrite (zsum_insert _ _ _ q) by done. rewrite sub64_small by lia.
    split_and!; try done; try lia.
    + unfold queue_logical. simpl. destruct thrown; simpl; lia.
    + intros k' q' [(->&<-&_)|[_ ?]]%list_lookup_insert_Some; [|eauto].
      destruct (Hq _ _ H) as (?&?&?). exists q. done.
  - (* push *)
    pose proof (Hpos job eq_refl) as Hj. red in Hj. destruct (Hq _ _ H) as (Hq1&Hq2&Hq3).
    rewrite (zsum_insert _ _ _ q) by done.
    assert (queue_logical (push_job q job) = queue_logical q + logical_jobs_ job) as Hql.
    { unfold queue_logical. simpl. rewrite zsum_app. simpl. lia. }
    split_and!; try done; try lia.
    intros k' q' [(->&<-&_)|[_ ?]]%list_lookup_insert_Some; [|eauto].
    exists q. rewrite Hql. simpl. rewrite !add64_small by lia. split_and!; [done|lia|lia].
Qed.

(** What one step of the worker of queue [k] does to the counters. *)
Lemma worker_account k (p : pool) pc p' pc' :
  worker_step k p pc p' pc' ->
  (forall j, wk_job pc = Some j -> positive j) ->
  pending_jobs_ p < 2 ^ 64 -> 0 <= wk_res pc <= pending_jobs_ p ->
  (forall q, worker_queues_ p !! k = Some q -> queue_ok q (wk_load pc) /\
     Forall positive (jobs_ q) /\ queue_logical q + wk_load pc <= pending_jobs_ p) ->
  max_pending_jobs_ p' = max_pending_jobs_ p /\ pending_jobs_ p' <= pending_jobs_ p /\
  pending_jobs_ p' = pending_jobs_ p + (wk_res pc' - wk_res pc)
    + (zsum queue_logical (worker_queues_ p') - zsum queue_logical (worker_queues_ p)) /\
  length (worker_queues_ p') = length (worker_queues_ p) /\
  (forall j q', worker_queues_ p' !! j = Some q' ->
     if decide (j = k) then queue_ok q' (wk_load pc') else worker_queues_ p !! j = Some q').
Proof.
  intros Hstep Hpos Hle Hres Hq.
  assert (forall j q', worker_queues_ p !! j = Some q' -> wk_load pc' = wk_load pc ->
    if decide (j = k) then queue_ok q' (wk_load pc') else worker_queues_ p !! j = Some q') as Hsame.
  { intros j q' H E. case_decide; [|done]. subst j. rewrite E. by apply Hq. }
  inversion Hstep; subst; simpl in *; rewrite ?length_insert;
    try (rewrite (zsum_insert _ _ _ q) by done).
  - split_and!; try done; try (unfold queue_logical; simpl; lia).
    intros j q' [(->&<-&_)|[? ?]]%list_lookup_insert_Some; case_decide; try done.
    destruct (Hq q) as [[? ?] _]; done.
  - split_and!; try done; try (unfold queue_logical; simpl; lia).
    intros j q' [(->&<-&_)|[? ?]]%list_lookup_insert_Some; case_decide; try done.
    destruct (Hq q) as [[? ?] _]; done.
  - destruct (Hq q H) as ([Hq1 Hq2] & Hall & Hq3).
    pose proof (queue_logical_nonneg q Hall) as Hnn.
    unfold queue_ok, queue_logical in *. rewrite H0 in Hq1, Hq2, Hall, Hnn |- *.
    apply Forall_cons in Hall as [Hj Hall]. red in Hj. simpl in *.
    pose proof (queue_logical_nonneg (MkWorkerQueue None jobs 0 0 0) Hall) as Hnn'.
    unfold queue_logical in Hnn'. simpl in Hnn'. rewrite H0 in Hq3. simpl in Hq3.
    fold (zsum logical_jobs_ jobs) in *.
    split_and!; try done; try lia.
    intros j q' [(->&<-&_)|[? ?]]%list_lookup_insert_Some; case_decide; try done. simpl.
    rewrite sub64_small by lia. split; lia.
  - split_and!; try done; try lia. intros j q' ?. by apply Hsame.
  - destruct (Hq q H) as ([Hq1 Hq2] & Hall & Hq3).
    pose proof (queue_logical_nonneg q Hall) as Hnn.
    pose proof (Hpos job eq_refl) as Hj. red in Hj.
    split_and!; try done; try (unfold queue_logical; simpl; lia).
    intros j q' [(->&<-&_)|[? ?]]%list_lookup_insert_Some; case_decide; try done.
    unfold queue_ok, queue_logical in *. simpl. rewrite sub64_small by lia. split; [done|lia].
  - unfold ReleasePendingJobs. simpl.
    pose proof (Hpos job eq_refl) as Hj. red in Hj.
    rewrite sub64_small by lia. split_and!; try done; try lia. intros j q' ?. by apply Hsame.
Qed.

Lemma owner_account ws (p : pool) o p' o' :
  owner_step ws p o p' o' ->
  max_pending_jobs_ p' = max_pending_jobs_ p /\ pending_jobs_ p' = pending_jobs_ p /\
  zsum queue_logical (worker_queues_ p') = zsum queue_logical (worker_queues_ p) /\
  length (worker_queues_ p') = length (worker_queues_ p) /\
  (forall k q', worker_queues_ p' !! k = Some q' ->
     exists q, worker_queues_ p !! k = Some q /\ q' = set_mutex (mutex_ q') q).
Proof.
  intros Hstep.
  assert (forall k q', worker_queues_ p !! k = Some q' ->
     exists q, worker_queues_ p !! k = Some q /\ q' = set_mutex (mutex_ q') q) as Hsame
    by (intros k [] H; eauto).
  inversion Hstep; subst; simpl in *; rewrite ?length_insert;
    try (rewrite (zsum_insert _ _ _ q) by done); split_and!; try done;
    try (unfold queue_logical; simpl; lia);
    intros j q' [(->&<-&_)|[_ ?]]%list_lookup_insert_Some; eauto.
Qed.

Lemma count_inv_bounds s i pc k q w :
  pos_inv s -> count_inv s ->
  submitters s !! i = Some pc \/ pc = SubIdle ->
  worker_queues_ (shared s) !! k = Some q -> workers_ s !! k = Some w ->
  0 <= sub_res pc /\ 0 <= queue_logical q /\ 0 <= wk_load w <= wk_res w /\
  sub_res pc + queue_logical q + wk_res w <= pending_jobs_ (shared s).
Proof.
  intros (Hps & Hpq & Hpw) (_ & -> & _) Hpc Hq Hw.
  assert (forall x, x ∈ submitters s -> 0 <= sub_res x) as Hs.
  { intros x [j Hj]%list_elem_of_lookup. pose proof (Hps j x) as Hp.
    destruct x; simpl in *; try done; specialize (Hp _ Hj eq_refl); red in Hp; lia. }
  assert (forall x, x ∈ workers_ s -> 0 <= wk_load x <= wk_res x) as Hws.
  { intros x [j Hj]%list_elem_of_lookup. pose proof (Hpw j x) as Hp.
    destruct x; simpl in *; try done; specialize (Hp _ Hj eq_refl); red in Hp; lia. }
  assert (forall x, x ∈ worker_queues_ (shared s) -> 0 <= queue_logical x) as Hqs.
  { intros x [j Hj]%list_elem_of_lookup. eauto using queue_logical_nonneg. }
  pose proof (zsum_elem queue_logical _ _ _ Hqs Hq).
  pose proof (zsum_elem wk_res _ _ _ ltac:(intros y Hy; specialize (Hws y Hy); lia) Hw).
  pose proof (Hqs q ltac:(by eapply list_elem_of_lookup_2)).
  pose proof (Hws w ltac:(by eapply list_elem_of_lookup_2)).
  destruct Hpc as [Hpc| ->]; [|simpl; pose proof (zsum_nonneg sub_res _ Hs); lia].
  pose proof (zsum_elem sub_res _ _ _ Hs Hpc).
  pose proof (Hs pc ltac:(by eapply list_elem_of_lookup_2)). lia.
Qed.

Lemma count_inv_sub s i pc :
  pos_inv s -> count_inv s -> submitters s !! i = Some pc ->
  0 <= sub_res pc <= pending_jobs_ (shared s).
Proof.
  intros (Hps & Hpq & Hpw) (_ & -> & _) Hpc.
  assert (forall x, x ∈ submitters s -> 0 <= sub_res x) as Hs.
  { intros x [j Hj]%list_elem_of_lookup. pose proof (Hps j x) as Hp.
    destruct x; simpl in *; try done; specialize (Hp _ Hj eq_refl); red in Hp; lia. }
  pose proof (zsum_elem sub_res _ _ _ Hs Hpc).
  pose proof (Hs pc ltac:(by eapply list_elem_of_lookup_2)).
  pose proof (zsum_nonneg queue_logical (worker_queues_ (shared s))) as Hq.
  pose proof (zsum_nonneg wk_res (workers_ s)) as Hw.
  assert (0 <= zsum queue_logical (worker_queues_ (shared s))).
  { apply Hq. intros x [j Hj]%list_elem_of_lookup. eauto using queue_logical_nonneg. }
  assert (0 <= zsum wk_res (workers_ s)); [|lia].
  apply Hw. intros x [j Hj]%list_elem_of_lookup. pose proof (Hpw j x) as Hp.
  destruct x; simpl in *; try done; specialize (Hp _ Hj eq_refl); red in Hp; lia.
Qed.

Lemma queue_worker s k q :
  count_inv s -> worker_queues_ (shared s) !! k = Some q -> exists w, workers_ s !! k = Some w.
Proof.
  intros (_&_&_&Hlen&_) Hq. apply lookup_lt_is_Some. rewrite <- Hlen. by eapply lookup_lt_Some.
Qed.

Lemma step_count s s' : pos_inv s -> count_inv s -> step s s' -> count_inv s'.
Proof.
  intros Hpos Hcount Hstep.
  pose proof Hcount as (Hmax & Hpend & Hle & Hlen & Hqs).
  destruct Hstep as [s i pc p' pc' Hi Hst|s k pc p' pc' Hk Hst|s p' pc' Hst].
  - destruct (submit_account i _ _ _ _ Hst) as (E1 & E2 & E3 & E4 & E5); try done.
    { intros j. by apply (proj1 Hpos i). }
    { by eapply count_inv_sub. }
    { intros k q Hq. destruct (queue_worker s k q Hcount Hq) as [w Hw].
      destruct (Hqs k q w Hq Hw) as [Hq1 Hq2].
      pose proof (count_inv_bounds s i pc k q w Hpos Hcount ltac:(auto) Hq Hw). lia. }
    unfold count_inv. simpl. rewrite E1, E4, (zsum_insert _ _ _ pc) by done.
    split_and!; try done; try lia. intros k q w Hq Hw.
    destruct (E5 k q Hq) as (q0 & Hq0 & ? & ?). destruct (Hqs k q0 w Hq0 Hw). split; [done|lia].
  - assert (exists q, worker_queues_ (shared s) !! k = Some q) as [q Hq].
    { apply lookup_lt_is_Some. rewrite Hlen. by eapply lookup_lt_Some. }
    pose proof (count_inv_bounds s 0%nat SubIdle k q pc Hpos Hcount ltac:(auto) Hq Hk) as Hb.
    simpl in Hb.
    destruct (worker_account k _ _ _ _ Hst) as (E1 & E2 & E3 & E4 & E5); try lia.
    { intros j. by apply (proj2 (proj2 Hpos) k). }
    { intros q0 Hq0. assert (q0 = q) as -> by congruence. split_and!.
      - by apply (Hqs k).
      - by apply (proj1 (proj2 Hpos) k).
      - lia. }
    unfold count_inv. simpl. rewrite E1, E4, (zsum_insert _ _ _ pc), length_insert by done.
    split_and!; try done; try lia. intros j q0 w Hq0 Hw. specialize (E5 j q0 Hq0).
    case_decide as Hj.
    + subst j. apply list_lookup_insert_Some in Hw as [(_&<-&_)|[]]; done.
    + apply list_lookup_insert_Some in Hw as [(?&_)|[_ Hw]]; [congruence|]. by apply (Hqs j).
  - destruct (owner_account _ _ _ _ _ Hst) as (E1 & E2 & E3 & E4 & E5).
    unfold count_inv. simpl. rewrite E1, E2, E3, E4. split_and!; try done; try lia.
    intros k q w Hq Hw. destruct (E5 k q Hq) as (q0 & Hq0 & ->).
    destruct (Hqs k q0 w Hq0 Hw). split; done.
Qed.

Lemma step_pos s s' : pos_inv s -> step s s' -> pos_inv s'.
Proof.
  intros Hinv Hstep. destruct Hstep.
  - by eapply submit_step_pos.
  - by eapply worker_step_pos.
  - by eapply owner_step_pos.
Qed.

(** ** Every admitted job is queued, taken by a worker, or executed *)

Definition running (pc : worker Job) : list (WorkerJob Job) :=
  match pc with WkRun j => [j] | _ => [] end.

Definition log_inv (s : system) : Prop :=
  admitted (shared s) ≡ₚ executed (shared s) ++
    concat (map jobs_ (worker_queues_ (shared s))) ++ concat (map running (workers_ s)).

Lemma concat_insert {A B} (f : A -> list B) l i x :
  l !! i = Some x ->
  exists rest, concat (map f l) ≡ₚ f x ++ rest /\
    forall y, concat (map f (<[i := y]> l)) ≡ₚ f y ++ rest.
Proof.
  revert i. induction l as [|z l IH]; intros [|i] H; try done; simpl in *.
  - injection H as ->. exists (concat (map f l)). done.
  - destruct (IH i H) as (rest & E1 & E2). exists (f z ++ rest). split.
    + rewrite E1. by rewrite !app_assoc, (Permutation_app_comm (f z)).
    + intros y. rewrite E2. by rewrite !app_assoc, (Permutation_app_comm (f z)).
Qed.

Lemma concat_insert_same {A B} (f : A -> list B) l i x y :
  l !! i = Some x -> f y = f x -> concat (map f (<[i := y]> l)) ≡ₚ concat (map f l).
Proof.
  intros H E. destruct (concat_insert f l i x H) as (rest & E1 & E2). by rewrite E1, E2, E.
Qed.

Lemma step_log s s' : log_inv s -> step s s' -> log_inv s'.
Proof.
  unfold log_inv. intros Hlog Hstep.
  destruct Hstep as [s i pc p' pc' Hi Hst|s k pc p' pc' Hk Hst|s p' pc' Hst];
    inversion Hst; subst; simpl in *; try done;
    try (rewrite (concat_insert_same jobs_ _ _ q) by done); try done.
  - destruct (concat_insert jobs_ _ _ _ H) as (rest & E1 & E2).
    rewrite E1 in Hlog. rewrite E2, Hlog. cbn [jobs_ push_job]. rewrite <- !app_assoc.
    apply Permutation_app_head, Permutation_app_head.
    by rewrite (Permutation_app_comm [job]), <- app_assoc.
  - rewrite (concat_insert_same running _ _ WkWait) by done. done.
  - rewrite (concat_insert_same running _ _ WkTake) by done. done.
  - destruct (concat_insert jobs_ _ _ _ H) as (rest & E1 & E2).
    destruct (concat_insert running _ _ _ Hk) as (rest' & E3 & E4). simpl in *.
    rewrite E1, E3, H0 in Hlog. rewrite E2, E4, Hlog. simpl.
    apply Permutation_app_head. by rewrite Permutation_middle.
  - destruct (concat_insert running _ _ _ Hk) as (rest' & E3 & E4). simpl in *.
    rewrite E3 in Hlog. rewrite E4, Hlog. simpl. rewrite <- app_assoc. simpl.
    apply Permutation_app_head. by rewrite <- Permutation_middle.
  - rewrite (concat_insert_same running _ _ (WkQueueRelease job)) by done. done.
  - rewrite (concat_insert_same running _ _ (WkPoolRelease job)) by done. done.
Qed.

(** ** Closing and draining *)

(** Queues whose lock the closing owner has already passed. *)
Definition passed (o : owner) (k : nat) : Prop :=
  match o with
  | OwnIdle => False
  | OwnCloseLock _ n => (k < n)%nat
  | OwnCloseUnlock _ n => (k <= n)%nat
  | _ => True
  end.

Definition draining (o : owner) : Prop :=
  match o with OwnDrainLock _ | OwnDrainUnlock _ | OwnJoin => True | _ => False end.

Definition no_push (s : system) : Prop :=
  forall i j k, submitters s !! i <> Some (SubPush j k).

Definition close_inv (s : system) : Prop :=
  (owner_ s <> OwnIdle -> accepting_submissions_ (shared s) = false) /\
  (forall i j k, passed (owner_ s) k -> submitters s !! i <> Some (SubPush j k)) /\
  (drain_requested_ (shared s) = true ->
     accepting_submissions_ (shared s) = false /\ no_push s /\
     (draining (owner_ s) \/ Forall (fun w => w = WkExit) (workers_ s))) /\
  (draining (owner_ s) -> drain_requested_ (shared s) = true) /\
  (owner_ s = OwnDrained -> drain_requested_ (shared s) = true) /\
  (forall k, workers_ s !! k = Some WkExit -> drain_requested_ (shared s) = true /\
     exists q, worker_queues_ (shared s) !! k = Some q /\ jobs_ q = []).

Lemma submit_step_close s i pc p' pc' :
  close_inv s -> submitters s !! i = Some pc -> submit_step i (shared s) pc p' pc' ->
  close_inv (MkSystem p' (<[i := pc']> (submitters s)) (workers_ s) (owner_ s)).
Proof.
  intros (H1 & H2 & H3 & H4 & H5 & H6) Hi Hst.
  assert (accepting_submissions_ p' = accepting_submissions_ (shared s) /\
          drain_requested_ p' = drain_requested_ (shared s)) as [Ea Ed]
    by (inversion Hst; subst; done).
  assert (forall j k, pc' = SubPush j k -> accepting_submissions_ (shared s) = true) as Hpush
    by (intros j k ->; inversion Hst; subst; done).
  assert (forall j k, pc = SubPush j k -> drain_requested_ (shared s) = true -> False) as Hno.
  { intros j k -> Hd. apply H3 in Hd as (_ & Hn & _). by apply (Hn i j k). }
  unfold close_inv, no_push in *; simpl. rewrite Ea, Ed. split_and!; try done.
  - intros i' j k Hp [(->&E&_)|[_ ?]]%list_lookup_insert_Some; [|by eapply H2].
    apply Hpush in E. destruct (owner_ s); simpl in *; try done; by rewrite H1 in E.
  - intros Hd. destruct (H3 Hd) as (Ha & Hn & Hw). split_and!; try done.
    intros i' j k [(->&E&_)|[_ ?]]%list_lookup_insert_Some; [|by eapply Hn].
    apply Hpush in E. congruence.
  - intros k Hk. destruct (H6 k Hk) as (Hd & q & Hq & Hj). split; [done|].
    inversion Hst; subst; simpl; try (by eauto);
      try (destruct (decide (k = k0)) as [->|];
           [rewrite list_lookup_insert_eq by (by eapply lookup_lt_Some)
           |rewrite list_lookup_insert_ne by done; by eauto]).
    + eexists. split; [reflexivity|]. simpl. congruence.
    + eexists. split; [reflexivity|]. simpl. congruence.
    + by destruct (Hno job k0 eq_refl).
Qed.

Lemma worker_step_close s k pc p' pc' :
  close_inv s -> workers_ s !! k = Some pc -> worker_step k (shared s) pc p' pc' ->
  close_inv (MkSystem p' (submitters s) (<[k := pc']> (workers_ s)) (owner_ s)).
Proof.
  intros (H1 & H2 & H3 & H4 & H5 & H6) Hk Hst.
  assert (accepting_submissions_ p' = accepting_submissions_ (shared s) /\
          drain_requested_ p' = drain_requested_ (shared s)) as [Ea Ed]
    by (inversion Hst; subst; done).
  assert (pc <> WkExit) as Hne by (intros ->; inversion Hst).
  unfold close_inv, no_push in *; simpl. rewrite Ea, Ed. split_and!; try done.
  - intros Hd. destruct (H3 Hd) as (Ha & Hn & Hw). split_and!; try done.
    destruct Hw as [|Hw]; [by left|]. rewrite Forall_lookup in Hw. by apply Hw in Hk.
  - intros j [(->&E&_)|[Hj Hx]]%list_lookup_insert_Some.
    + subst pc'. inversion Hst; subst. split; [done|].
      eexists. simpl. rewrite list_lookup_insert_eq by (by eapply lookup_lt_Some). done.
    + destruct (H6 j Hx) as (Hd & q & Hq & Hjobs). split; [done|]. exists q. split; [|done].
      inversion Hst; subst; simpl; rewrite ?list_lookup_insert_ne by done; done.
Qed.

Lemma owner_step_close s p' pc' :
  lock_inv s -> close_inv s -> owner_step (workers_ s) (shared s) (owner_ s) p' pc' ->
  close_inv (MkSystem p' (submitters s) (workers_ s) pc').
Proof.
  intros Hlock (H1 & H2 & H3 & H4 & H5 & H6) Hst.
  assert (forall k, workers_ s !! k = Some WkExit ->
     exists q, worker_queues_ p' !! k = Some q /\ jobs_ q = []) as Hexit.
  { intros k Hk. destruct (H6 k Hk) as (_ & q & Hq & Hj).
    inversion Hst; subst; simpl; try (by eauto);
      (destruct (decide (k = k0)) as [->|];
       [rewrite list_lookup_insert_eq by (by eapply lookup_lt_Some);
        eexists; split; [reflexivity|]; simpl; congruence
       |rewrite list_lookup_insert_ne by done; by eauto]). }
  assert (forall i j k, submitters s !! i = Some (SubPush j k) ->
    exists q, worker_queues_ (shared s) !! k = Some q /\ mutex_ q = Some (HSubmitter i)) as Hmx.
  { intros i j k Hi. apply Hlock. simpl. eauto. }
  unfold close_inv, no_push in *; simpl.
  inversion Hst; subst; simpl in *;
    repeat match goal with H : _ = owner_ s |- _ => rewrite <- H in *; clear H end; simpl in *;
    split_and!; try done; try (by intros; destruct drain);
    try (by intros k' Hk'; split; [|by apply Hexit]; apply (H6 k')).
  all: try (intros Hd; destruct (H3 Hd) as (Ha & Hn & [?|Hw]); split_and!; auto; done).
  all: try (by intros _; apply H1).
  - intros i j k' Hk'. lia.
  - intros Hd. destruct (H3 Hd) as (Ha & Hn & Hw). split_and!; try done.
    destruct Hw as [Hw|]; [|by right]. destruct H as [E|[E|E]]; by rewrite E in Hw.
  - intros i j k' Hk' Hi. destruct (decide (k' = k)) as [->|]; [|apply (H2 i j k'); [lia|done]].
    destruct (Hmx i j k Hi) as (q' & ? & ?). congruence.
  - intros i j k' Hk'. apply H2. lia.
  - intros i j k' _ Hi. destruct (Hmx i j k' Hi) as (q' & Hq' & _).
    apply (H2 i j k'); [|done]. apply lookup_lt_Some in Hq'.
    match goal with H : _ !! k = None |- _ => apply lookup_ge_None in H end. lia.
  - intros _. split_and!; [by apply H1| |by left]. intros i j k'. by apply H2.
  - intros k' Hk'. split; [done|]. by apply Hexit.
  - intros _. by apply H4.
Qed.

Definition pool_inv (s : system) : Prop :=
  lock_inv s /\ pos_inv s /\ count_inv s /\ log_inv s /\ close_inv s.

Lemma step_inv s s' : pool_inv s -> step s s' -> pool_inv s'.
Proof.
  intros (Hl & Hp & Hc & Hg & Hcl) Hstep. split_and!.
  - by eapply step_lock.
  - by eapply step_pos.
  - by eapply step_count.
  - by eapply step_log.
  - destruct Hstep.
    + by eapply submit_step_close.
    + by eapply worker_step_close.
    + by eapply owner_step_close.
Qed.

Lemma zsum_replicate_0 {A} (f : A -> Z) n x : f x = 0 -> zsum f (replicate n x) = 0.
Proof. intros E. induction n as [|n IH]; [done|]. simpl. unfold zsum in *. lia. Qed.

Lemma concat_replicate_nil {A B} (f : A -> list B) n x :
  f x = [] -> concat (map f (replicate n x)) = [].
Proof. intros E. induction n as [|n IH]; [done|]. simpl. by rewrite E, IH. Qed.

Lemma new_inv config n :
  is_u 64 (wp_max_pending_jobs_ config) -> pool_inv (WorkerPool_new config n).
Proof.
  intros Hm. split_and!.
  - intros [i| |] k; simpl; [|..|done]; intros (pc & [-> _]%lookup_replicate & Hh); done.
  - split_and!; simpl.
    + by intros i pc j [-> _]%lookup_replicate.
    + intros k q [-> _]%lookup_replicate. by apply Forall_nil.
    + by intros i pc j [-> _]%lookup_replicate.
  - unfold count_inv. simpl. rewrite !zsum_replicate_0, !length_replicate by done.
    red in Hm. split_and!; try done; try lia.
    by intros k q w [-> _]%lookup_replicate [-> _]%lookup_replicate.
  - unfold log_inv. simpl. by rewrite !concat_replicate_nil.
  - unfold close_inv. simpl. split_and!; try done. by intros k [? _]%lookup_replicate.
Qed.

Lemma concat_map_nil {A B} (f : A -> list B) l :
  Forall (fun x => f x = []) l -> concat (map f l) = [].
Proof. induction 1 as [|x l Hx _ IH]; [done|]. simpl. by rewrite Hx, IH. Qed.

Lemma reachable_inv config n s :
  is_u 64 (wp_max_pending_jobs_ config) -> reachable config n s -> pool_inv s.
Proof.
  intros Hm Hr. pose proof (new_inv config n Hm) as Hinv. unfold reachable in Hr.
  induction Hr as [|x y z Hstep _ IH]; [done|]. apply IH. by eapply step_inv.
Qed.

(** After [DrainAndJoin] nothing is left. *)
Lemma drained_executed s :
  pool_inv s -> owner_ s = OwnDrained ->
  Forall (fun w => w = WkExit) (workers_ s) /\
  Forall (fun q => jobs_ q = []) (worker_queues_ (shared s)) /\
  executed (shared s) ≡ₚ admitted (shared s).
Proof.
  intros (_ & _ & Hcount & Hlog & (_ & _ & H3 & _ & H5 & H6)) Ho.
  destruct (H3 (H5 Ho)) as (_ & _ & [Hd|Hw]); [by rewrite Ho in Hd|].
  assert (Forall (fun q => jobs_ q = []) (worker_queues_ (shared s))) as Hq.
  { apply Forall_lookup. intros k q Hk. destruct (queue_worker s k q Hcount Hk) as [w Hwk].
    pose proof (proj1 (Forall_lookup _ _) Hw k w Hwk) as ->.
    destruct (H6 k Hwk) as (_ & q' & Hq' & Hj). congruence. }
  split_and!; [done|done|]. red in Hlog. rewrite Hlog.
  rewrite !concat_map_nil, !app_nil_r; [done| |done].
  eapply Forall_impl; [exact Hw|]. by intros w ->.
Qed.

(** Once closed, nothing is admitted any more. *)
Definition sealed (s : system) : Prop :=
  accepting_submissions_ (shared s) = false /\ no_push s.

Lemma step_sealed s s' :
  sealed s -> step s s' -> sealed s' /\ admitted (shared s') = admitted (shared s).
Proof.
  intros [Ha Hn] Hstep. unfold sealed, no_push in *.
  destruct Hstep as [s i pc p' pc' Hi Hst|s k pc p' pc' Hk Hst|s p' pc' Hst].
  - assert (accepting_submissions_ p' = accepting_submissions_ (shared s)) as Ea
      by (inversion Hst; subst; done).
    assert (forall j k, pc' <> SubPush j k) as Hp
      by (intros j k ->; inversion Hst; subst; congruence).
    simpl. split; [split; [congruence|]|].
    + intros i' j k [(->&E&_)|[_ ?]]%list_lookup_insert_Some; [by eapply Hp|by eapply Hn].
    + inversion Hst; subst; try done. by destruct (Hn i job k).
  - inversion Hst; subst; done.
  - inversion Hst; subst; done.
Qed.

Lemma rtc_sealed s s' :
  sealed s -> rtc step s s' -> sealed s' /\ admitted (shared s') = admitted (shared s).
Proof.
  intros Hs Hr. induction Hr as [s|s s1 s2 Hstep _ IH]; [done|].
  destruct (step_sealed s s1 Hs Hstep) as [Hs1 <-]. auto.
Qed.

End Invariants.

(** ** Properties *)

(** the selected queue is the least loaded one among the loads observed
    while probing, whatever the round-robin start, and its index is in range:
    probing never indexes outside the queues and the early stop at load zero
    loses nothing. *)
Theorem SelectWorkerQueue_least_loaded loads worker_count next :
  0 < worker_count < 2 ^ 63 -> is_u 64 next -> (forall i, 0 <= loads i) ->
  0 <= SelectWorkerQueue loads worker_count next < worker_count /\
  forall i, 0 <= i < worker_count -> loads (SelectWorkerQueue loads worker_count next) <= loads i.
Proof. intros Hw [Hn _] Hl. by apply SelectWorkerQueue_spec. Qed.

(** C8: bounded admission under every interleaving of submitters, workers and
    owner.  The global counter is exactly the number of RPCs reserved, queued
    or executing, and never exceeds the configured limit; each queue's
    counters are exactly its queued RPCs and those plus the ones its worker
    has in hand.  No counter ever wraps. *)
Theorem WorkerPool_bounded Job config n (s : system Job) :
  is_u 64 (wp_max_pending_jobs_ config) -> reachable config n s ->
  pending_jobs_ (shared s) <= wp_max_pending_jobs_ config /\
  pending_jobs_ (shared s) =
    zsum sub_res (submitters s) + zsum queue_logical (worker_queues_ (shared s))
    + zsum wk_res (workers_ s) /\
  forall k q w, worker_queues_ (shared s) !! k = Some q -> workers_ s !! k = Some w ->
    queued_logical_jobs_ q = zsum logical_jobs_ (jobs_ q) /\
    pending_logical_jobs_ q = zsum logical_jobs_ (jobs_ q) + wk_load w.
Proof.
  intros Hm Hr. destruct (reachable_inv config n s Hm Hr) as (_ & _ & (_ & Hp & Hle & _ & Hq) & _).
  assert (max_pending_jobs_ (shared s) = wp_max_pending_jobs_ config) as Hmax.
  { clear -Hr. unfold reachable in Hr.
    replace (wp_max_pending_jobs_ config)
      with (max_pending_jobs_ (shared (@WorkerPool_new Job config n))) by done.
    induction Hr as [|x y z Hstep _ IH]; [done|]. rewrite IH. clear IH.
    destruct Hstep as [x i pc p' pc' Hi Hst|x k pc p' pc' Hk Hst|x p' pc' Hst];
      inversion Hst; subst; done. }
  rewrite Hmax in Hle. split_and!; done.
Qed.

(** [CloseSubmissions] synchronises with concurrent submissions: once it
    has returned, whatever the threads do next, no job is admitted any more;
    in particular a submission that had passed the first check before the
    gate was closed cannot enqueue its job afterwards. *)
Theorem CloseSubmissions_seals Job config n (s s' : system Job) :
  is_u 64 (wp_max_pending_jobs_ config) -> reachable config n s ->
  owner_ s = OwnClosed \/ owner_ s = OwnDrainFlag -> rtc step s s' ->
  admitted (shared s') = admitted (shared s).
Proof.
  intros Hm Hr Ho Hs. destruct (reachable_inv config n s Hm Hr) as (_ & _ & _ & _ & Hc).
  destruct Hc as (H1 & H2 & _). apply rtc_sealed; [|done]. split.
  - apply H1. by destruct Ho as [-> | ->].
  - intros i j k. apply H2. by destruct Ho as [-> | ->].
Qed.

(** C22: graceful drain loses nothing and repeats nothing.  At every moment
    each admitted job is in exactly one of: executed, queued, taken by a
    worker; when [DrainAndJoin] returns, all workers have exited, the queues
    are empty and the executed jobs are exactly the admitted ones. *)
Theorem DrainAndJoin_completes Job config n (s : system Job) :
  is_u 64 (wp_max_pending_jobs_ config) -> reachable config n s ->
  admitted (shared s) ≡ₚ executed (shared s) ++
    concat (map jobs_ (worker_queues_ (shared s))) ++ concat (map running (workers_ s)) /\
  (owner_ s = OwnDrained ->
     Forall (fun w => w = WkExit) (workers_ s) /\
     Forall (fun q => jobs_ q = []) (worker_queues_ (shared s)) /\
     executed (shared s) ≡ₚ admitted (shared s)).
Proof.
  intros Hm Hr. pose proof (reachable_inv config n s Hm Hr) as Hinv. split; [apply Hinv|].
  by apply drained_executed.
Qed.

(** *** Witnesses

    One submitter, one worker: a job of two RPCs is admitted and executed, and
    the pool is drained. *)
Section WorkerPoolWitnesses.

Definition example_job : WorkerJob nat := MkWorkerJob 7%nat 2.
Definition example_config : WorkerPoolConfig := MkWorkerPoolConfig 1 10.

Tactic Notation "sub_does" uconstr(c) :=
  eapply rtc_l; [eapply (step_submit _ 0); [reflexivity|eapply c; reflexivity]|vm_compute].
Tactic Notation "wk_does" uconstr(c) :=
  eapply rtc_l; [eapply (step_worker _ 0); [reflexivity|eapply c; reflexivity]|vm_compute].
Tactic Notation "own_does" uconstr(c) :=
  eapply rtc_l; [eapply step_owner; eapply c; reflexivity|vm_compute].

Definition example_drained : system nat :=
  MkSystem (MkPool [MkWorkerQueue None [] 0 2 0] 1 10 0 false true [example_job] [example_job])
    [SubReturned (inl true)] [WkExit] OwnDrained.

Lemma example_drained_reachable : reachable example_config 1 example_drained.
Proof.
  unfold reachable.
  sub_does (st_call 0 _ example_job). sub_does st_open. sub_does st_load. sub_does st_cas_ok.
  eapply rtc_l; [eapply (step_submit _ 0); [reflexivity|eapply (st_select 0 _ _ (fun _ => 0));
    intros; apply Z.le_refl]|vm_compute].
  sub_does st_lock. sub_does st_recheck_open. sub_does st_push.
  eapply rtc_l; [eapply (step_worker _ 0); [reflexivity|eapply wt_wake;
    [reflexivity|reflexivity|right; discriminate]]|vm_compute].
  wk_does wt_pop. wk_does wt_run. wk_does wt_queue_release. wk_does wt_pool_release.
  eapply rtc_l; [eapply step_owner; eapply (ot_close _ _ _ true); left; reflexivity|vm_compute].
  own_does ot_lock. own_does ot_unlock. own_does ot_closed. own_does ot_drain_first.
  own_does ot_notify_lock. own_does ot_notify_unlock. own_does ot_join_start.
  eapply rtc_l; [eapply (step_worker _ 0); [reflexivity|eapply wt_wake;
    [reflexivity|reflexivity|left; reflexivity]]|vm_compute].
  wk_does wt_exit.
  eapply rtc_l; [eapply step_owner; eapply ot_join; repeat constructor|vm_compute].
  apply rtc_refl.
Defined.

Lemma SelectWorkerQueue_least_loaded_witness :
  SelectWorkerQueue (fun i => if i =? 2 then 1 else 5) 4 3 = 2 /\
  0 <= SelectWorkerQueue (fun i => if i =? 2 then 1 else 5) 4 3 < 4.
Proof.
  split; [reflexivity|].
  destruct (SelectWorkerQueue_least_loaded (fun i => if i =? 2 then 1 else 5) 4 3) as [H _];
    [done|done|intros i; by destruct (i =? 2)|exact H].
Defined.

Lemma WorkerPool_bounded_witness : pending_jobs_ (shared example_drained) <= 10.
Proof.
  apply (WorkerPool_bounded nat example_config 1 example_drained);
    [done|exact example_drained_reachable].
Defined.

(** The same pool after [CloseSubmissions] returned, before any call. *)
Definition example_closed : system nat :=
  MkSystem (MkPool [WorkerQueue_new] 0 10 0 false false [] []) [SubIdle] [WkWait] OwnClosed.

Lemma CloseSubmissions_seals_witness : admitted (shared example_closed) = [].
Proof.
  apply (CloseSubmissions_seals nat example_config 1 example_closed example_closed);
    [done| |by left|apply rtc_refl].
  unfold reachable.
  eapply rtc_l; [eapply step_owner; eapply (ot_close _ _ _ false); left; reflexivity|vm_compute].
  own_does ot_lock. own_does ot_unlock. own_does ot_closed. apply rtc_refl.
Defined.

Lemma DrainAndJoin_completes_witness :
  executed (shared example_drained) ≡ₚ admitted (shared example_drained).
Proof.
  apply (DrainAndJoin_completes nat example_config 1 example_drained);
    [done|exact example_drained_reachable|done].
Defined.

End WorkerPoolWitnesses.
