(* ===== verification/ServerConnection.v ===== *)
(** * One server-side connection

    Models [src/server/server_connection.cpp] and its header: the read and
    write coroutines, backpressure, draining and closing, and the batch
    executed on a worker thread; with the accounting the owning
    [ConnectionIoLoop] keeps for its connections
    ([RecordWriteBytesChange], [OnConnectionClosed]).

    A connection is confined to its I/O thread: it runs from one event to the
    next (a receive or send completion, a worker result, a drain or close
    request).  A coroutine is represented by the point where it is suspended.
    What the environment decides is an argument of the event: the result of a
    completion, whether the I/O context still accepts operations, the answers
    of the worker pool, whether an allocation fails. *)

From S2P Require Import Prelude Status FrameHeader FrameCodec FrameStream ServiceRegistry BufferPool ServerConfig.

Local Open Scope Z_scope.

Definition MAX_WRITE_BATCH_BYTES : Z := 64 * 1024.

(** ** Accounting of the owning loop *)
Record LoopAccounting := MkLoopAccounting {
  loop_pending_write_bytes_ : Z;
  loop_pending_write_bytes_peak_ : Z;
  live_connections_ : Z
}.

Definition RecordWriteBytesChange (before after : Z) (a : LoopAccounting)
    : option LoopAccounting :=
  if negb (before <=? loop_pending_write_bytes_ a) then Abort "assertion failed" else
  let pending := (loop_pending_write_bytes_ a -u before +u after)%word in
  Some (MkLoopAccounting pending (Z.max (loop_pending_write_bytes_peak_ a) pending)
          (live_connections_ a)).

Definition OnConnectionClosed (a : LoopAccounting) : LoopAccounting :=
  if 0 <? live_connections_ a then
    MkLoopAccounting (loop_pending_write_bytes_ a) (loop_pending_write_bytes_peak_ a)
      (live_connections_ a - 1)
  else a.

(** ** State *)
Inductive ConnectionState := Active | Draining | Closed.

#[global] Instance ConnectionState_eq_dec : EqDecision ConnectionState.
Proof. solve_decision. Defined.

(** Where [WriteLoop] is: before [Start], running, suspended on the write
    queue, suspended on [Send] of [batch] from [offset], or returned. *)
Inductive write_point :=
  | WriteInitial
  | WriteRunning
  | WriteOnQueue
  | WriteOnSend (batch : bytes) (offset : Z)
  | WriteDone.

(** Where [ReadLoop] is. *)
Inductive read_point := ReadInitial | ReadRunning | ReadOnRecv | ReadDone.

(** [accepted_bytes] and [sent_bytes] record the bytes accepted by
    [EnqueueWrite] and by the kernel; [submitted_batches] the batches handed
    to the worker pool; [fd_cancelled], [read_shutdown] and [socket_open] the
    effects on the socket. *)
Record ServerConnection := MkServerConnection {
  state_ : ConnectionState;
  frame_stream_ : RpcFrameStream;
  write_queue_ : list bytes;
  write_queue_waiter_ : bool;
  inflight_requests_ : Z;
  pending_write_bytes_ : Z;
  conn_config_ : ServerConnectionConfig;
  write_point_ : write_point;
  read_point_ : read_point;
  owner_acct_ : LoopAccounting;
  socket_open : bool;
  fd_cancelled : bool;
  read_shutdown : bool;
  submitted_batches : list (list RequestEnvelope);
  accepted_bytes : bytes;
  sent_bytes : bytes
}.

Definition ServerConnection_new (config : ServerConnectionConfig) (a : LoopAccounting)
    : ServerConnection :=
  MkServerConnection Active (RpcFrameStream_new (conn_protocol_limits_ config)) [] false 0 0
    config WriteInitial ReadInitial a true false false [] [] [].

(** Field updates. *)
Definition set_state x (c : ServerConnection) := MkServerConnection x (frame_stream_ c)
  (write_queue_ c) (write_queue_waiter_ c) (inflight_requests_ c) (pending_write_bytes_ c)
  (conn_config_ c) (write_point_ c) (read_point_ c) (owner_acct_ c) (socket_open c)
  (fd_cancelled c) (read_shutdown c) (submitted_batches c) (accepted_bytes c) (sent_bytes c).
Definition set_stream x (c : ServerConnection) := MkServerConnection (state_ c) x
  (write_queue_ c) (write_queue_waiter_ c) (inflight_requests_ c) (pending_write_bytes_ c)
  (conn_config_ c) (write_point_ c) (read_point_ c) (owner_acct_ c) (socket_open c)
  (fd_cancelled c) (read_shutdown c) (submitted_batches c) (accepted_bytes c) (sent_bytes c).
Definition set_queue x (c : ServerConnection) := MkServerConnection (state_ c) (frame_stream_ c)
  x (write_queue_waiter_ c) (inflight_requests_ c) (pending_write_bytes_ c)
  (conn_config_ c) (write_point_ c) (read_point_ c) (owner_acct_ c) (socket_open c)
  (fd_cancelled c) (read_shutdown c) (submitted_batches c) (accepted_bytes c) (sent_bytes c).
Definition set_inflight x (c : ServerConnection) := MkServerConnection (state_ c)
  (frame_stream_ c) (write_queue_ c) (write_queue_waiter_ c) x (pending_write_bytes_ c)
  (conn_config_ c) (write_point_ c) (read_point_ c) (owner_acct_ c) (socket_open c)
  (fd_cancelled c) (read_shutdown c) (submitted_batches c) (accepted_bytes c) (sent_bytes c).
Definition set_pending x a (c : ServerConnection) := MkServerConnection (state_ c)
  (frame_stream_ c) (write_queue_ c) (write_queue_waiter_ c) (inflight_requests_ c) x
  (conn_config_ c) (write_point_ c) (read_point_ c) a (socket_open c)
  (fd_cancelled c) (read_shutdown c) (submitted_batches c) (accepted_bytes c) (sent_bytes c).
Definition set_write waiter x (c : ServerConnection) := MkServerConnection (state_ c)
  (frame_stream_ c) (write_queue_ c) waiter (inflight_requests_ c) (pending_write_bytes_ c)
  (conn_config_ c) x (read_point_ c) (owner_acct_ c) (socket_open c)
  (fd_cancelled c) (read_shutdown c) (submitted_batches c) (accepted_bytes c) (sent_bytes c).
Definition set_read x (c : ServerConnection) := MkServerConnection (state_ c)
  (frame_stream_ c) (write_queue_ c) (write_queue_waiter_ c) (inflight_requests_ c)
  (pending_write_bytes_ c) (conn_config_ c) (write_point_ c) x (owner_acct_ c) (socket_open c)
  (fd_cancelled c) (read_shutdown c) (submitted_batches c) (accepted_bytes c) (sent_bytes c).
Definition set_shutdown (c : ServerConnection) := MkServerConnection (state_ c)
  (frame_stream_ c) (write_queue_ c) (write_queue_waiter_ c) (inflight_requests_ c)
  (pending_write_bytes_ c) (conn_config_ c) (write_point_ c) (read_point_ c) (owner_acct_ c)
  (socket_open c) (fd_cancelled c) true (submitted_batches c) (accepted_bytes c) (sent_bytes c).
Definition add_batch b (c : ServerConnection) := MkServerConnection (state_ c)
  (frame_stream_ c) (write_queue_ c) (write_queue_waiter_ c) (inflight_requests_ c)
  (pending_write_bytes_ c) (conn_config_ c) (write_point_ c) (read_point_ c) (owner_acct_ c)
  (socket_open c) (fd_cancelled c) (read_shutdown c) (submitted_batches c ++ [b])
  (accepted_bytes c) (sent_bytes c).
Definition add_accepted b (c : ServerConnection) := MkServerConnection (state_ c)
  (frame_stream_ c) (write_queue_ c) (write_queue_waiter_ c) (inflight_requests_ c)
  (pending_write_bytes_ c) (conn_config_ c) (write_point_ c) (read_point_ c) (owner_acct_ c)
  (socket_open c) (fd_cancelled c) (read_shutdown c) (submitted_batches c)
  (accepted_bytes c ++ b) (sent_bytes c).
Definition add_sent b (c : ServerConnection) := MkServerConnection (state_ c)
  (frame_stream_ c) (write_queue_ c) (write_queue_waiter_ c) (inflight_requests_ c)
  (pending_write_bytes_ c) (conn_config_ c) (write_point_ c) (read_point_ c) (owner_acct_ c)
  (socket_open c) (fd_cancelled c) (read_shutdown c) (submitted_batches c)
  (accepted_bytes c) (sent_bytes c ++ b).

(** [context_.CancelFd(fd); socket_.Close(); on_closed_();] *)
Definition release_socket (c : ServerConnection) := MkServerConnection (state_ c)
  (frame_stream_ c) (write_queue_ c) (write_queue_waiter_ c) (inflight_requests_ c)
  (pending_write_bytes_ c) (conn_config_ c) (write_point_ c) (read_point_ c)
  (OnConnectionClosed (owner_acct_ c)) false true (read_shutdown c) (submitted_batches c)
  (accepted_bytes c) (sent_bytes c).

Notation c_limits c := (limits_ (conn_config_ c)).

Definition is_closed (c : ServerConnection) : bool := bool_decide (state_ c = Closed).

(** ** Accounting of pending bytes *)
Definition ReleaseWriteBytes (n : Z) (c : ServerConnection) : option ServerConnection :=
  if negb (n <=? pending_write_bytes_ c) then Abort "assertion failed" else
  let after := (pending_write_bytes_ c -u n)%word in
  a ← RecordWriteBytesChange (pending_write_bytes_ c) after (owner_acct_ c);
  Some (set_pending after a c).

Definition ReleaseInflightRequests (n : Z) (c : ServerConnection) : option ServerConnection :=
  if negb (n <=? inflight_requests_ c) then Abort "assertion failed" else
  Some (set_inflight (inflight_requests_ c -u n)%word c).

(** ** Closing, parameterised by [WakeWriteLoop] *)
Section Wake.
Context (WakeWriteLoop : ServerConnection -> option ServerConnection).

Definition Close_with (c : ServerConnection) : option ServerConnection :=
  if is_closed c then Some c else
  let c := set_queue [] (set_state Closed c) in
  a ← RecordWriteBytesChange (pending_write_bytes_ c) 0 (owner_acct_ c);
  let c := set_pending 0 a c in
  c ← WakeWriteLoop c;
  Some (release_socket c).

Definition TryFinishDrain_with (c : ServerConnection) : option ServerConnection :=
  if negb (bool_decide (state_ c = Draining)) then Some c else
  if (inflight_requests_ c =? 0) && (pending_write_bytes_ c =? 0) then
    if negb (bool_decide (write_queue_ c = [])) then Abort "assertion failed" else
    Close_with c
  else Some c.

End Wake.

(** ** [TakeWriteBatch] *)

(** The loop that appends queued writes while the batch stays within the limit. *)
Fixpoint coalesce (batch : bytes) (queue : list bytes) : bytes * list bytes :=
  match queue with
  | [] => (batch, [])
  | w :: queue' =>
      if len batch + len w <=? MAX_WRITE_BATCH_BYTES then coalesce (batch ++ w) queue'
      else (batch, queue)
  end.

(** [front()] of an empty queue is undefined. *)
Definition TakeWriteBatch (c : ServerConnection) : option (bytes * ServerConnection) :=
  match write_queue_ c with
  | [] => Abort "front of an empty queue"
  | w :: queue =>
      let '(batch, queue) := coalesce w queue in
      Some (batch, set_queue queue c)
  end.

(** ** [WriteLoop]

    Runs the coroutine until it suspends or returns.  [inner] says whether
    control is at the inner [while] or at the outer one; [send_ok] is the
    answer of the context to the [Send] it may start. *)
Fixpoint WriteLoop_run (fuel : nat) (send_ok inner : bool) (c : ServerConnection)
    : option ServerConnection :=
  match fuel with
  | O => None
  | S fuel =>
      let WakeWriteLoop c :=
        if write_queue_waiter_ c
        then WriteLoop_run fuel send_ok true (set_write false WriteRunning c) else Some c in
      if negb inner then
        if is_closed c then Some (set_write false WriteDone c) else
        (* co_await the write queue *)
        if is_closed c || negb (bool_decide (write_queue_ c = []))
        then WriteLoop_run fuel send_ok true c
        else if write_queue_waiter_ c then Abort "assertion failed"
        else Some (set_write true WriteOnQueue c)
      else if negb (is_closed c) && negb (bool_decide (write_queue_ c = [])) then
        '(batch, c) ← TakeWriteBatch c;
        if 0 <? len batch then
          if send_ok then Some (set_write (write_queue_waiter_ c) (WriteOnSend batch 0) c) else
          (* the rejected start completes with -ECANCELED *)
          c ← ReleaseWriteBytes (len batch) c;
          c ← Close_with WakeWriteLoop c;
          Some (set_write (write_queue_waiter_ c) WriteDone c)
        else
          c ← ReleaseWriteBytes (len batch) c;
          WriteLoop_run fuel send_ok true c
      else
        c ← TryFinishDrain_with WakeWriteLoop c;
        WriteLoop_run fuel send_ok false c
  end.

(** Every pass of the inner loop takes a queued write. *)
Definition write_fuel (c : ServerConnection) : nat := S (S (S (S (2 * length (write_queue_ c))))).

Definition WakeWriteLoop (send_ok : bool) (c : ServerConnection) : option ServerConnection :=
  if negb (write_queue_waiter_ c) then Some c else
  WriteLoop_run (write_fuel c) send_ok true (set_write false WriteRunning c).

Definition Close (send_ok : bool) := Close_with (WakeWriteLoop send_ok).
Definition TryFinishDrain (send_ok : bool) := TryFinishDrain_with (WakeWriteLoop send_ok).

(** The completion of the pending [Send] with [result] bytes or an error. *)
Definition OnSendComplete (send_ok : bool) (result : Z) (c : ServerConnection)
    : option ServerConnection :=
  match write_point_ c with
  | WriteOnSend batch offset =>
      let c := set_write (write_queue_waiter_ c) WriteRunning c in
      if is_closed c then Some (set_write (write_queue_waiter_ c) WriteDone c) else
      if result <=? 0 then
        c ← ReleaseWriteBytes (len batch) c;
        c ← Close send_ok c;
        Some (set_write (write_queue_waiter_ c) WriteDone c)
      else
        let c := add_sent (substr batch offset result) c in
        let offset := (offset +u result)%word in
        if negb (is_closed c) && (offset <? len batch) then
          if send_ok then Some (set_write (write_queue_waiter_ c) (WriteOnSend batch offset) c) else
          c ← ReleaseWriteBytes (len batch) c;
          c ← Close send_ok c;
          Some (set_write (write_queue_waiter_ c) WriteDone c)
        else
          c ← ReleaseWriteBytes (len batch) c;
          WriteLoop_run (write_fuel c) send_ok true c
  | _ => Abort "no send is pending"
  end.

(** ** Enqueueing responses *)
Definition TryReserveWriteBytes (send_ok : bool) (n : Z) (c : ServerConnection)
    : option (bool * ServerConnection) :=
  if negb (pending_write_bytes_ c <=? max_write_queue_bytes_ (c_limits c)) then
    Abort "assertion failed"
  else if (max_write_queue_bytes_ (c_limits c) -u pending_write_bytes_ c <? n)%word then
    c ← Close send_ok c; Some (false, c)
  else
    let after := (pending_write_bytes_ c +u n)%word in
    a ← RecordWriteBytesChange (pending_write_bytes_ c) after (owner_acct_ c);
    Some (true, set_pending after a c).

Definition EnqueueWrite (send_ok : bool) (data : bytes) (c : ServerConnection)
    : option (bool * ServerConnection) :=
  if is_closed c then Some (false, c) else
  '(reserved, c) ← TryReserveWriteBytes send_ok (len data) c;
  if negb reserved then Some (false, c) else
  let c := set_queue (write_queue_ c ++ [data]) (add_accepted data c) in
  c ← WakeWriteLoop send_ok c;
  Some (true, c).

(** [alloc_ok] is whether [push_back] can allocate. *)
Definition OnResponsesEncoded (send_ok alloc_ok : bool) (response_bytes : bytes)
    (released_requests : Z) (c : ServerConnection) : option ServerConnection :=
  c ← ReleaseInflightRequests released_requests c;
  if is_closed c then Some c else
  c ← (if alloc_ok then
         '(_, c) ← EnqueueWrite send_ok response_bytes c; Some c
       else
         '(_, c) ← TryReserveWriteBytes send_ok (len response_bytes) c;
         Close send_ok c);
  TryFinishDrain send_ok c.

Definition OnResponseEncodeFailure (send_ok : bool) (released_requests : Z)
    (c : ServerConnection) : option ServerConnection :=
  c ← ReleaseInflightRequests released_requests c;
  Close send_ok c.

Definition BeginDrain (send_ok : bool) (c : ServerConnection) : option ServerConnection :=
  if negb (bool_decide (state_ c = Active)) then Some c else
  let c := set_state Draining c in
  let c := if socket_open c then set_shutdown c else c in
  TryFinishDrain send_ok c.

(** ** Handling received requests *)
Section Requests.
Context {W : Wire}.

Definition RejectForBackpressure (send_ok : bool) (message : bytes) (request : RequestEnvelope)
    (c : ServerConnection) : option (bool * ServerConnection) :=
  let response := MkResponseEnvelope (req_request_id_ request)
                    (MkStatus ResourceExhausted message) [] in
  encoded ← FrameCodec_EncodeResponse (conn_protocol_limits_ (conn_config_ c)) response;
  if negb (StatusOr_ok encoded) then c ← Close send_ok c; Some (false, c) else
  data ← StatusOr_get encoded;
  EnqueueWrite send_ok data c.

(** Rejecting requests in order until one rejection fails. *)
Fixpoint RejectAll (send_ok : bool) (message : bytes) (requests : list RequestEnvelope)
    (c : ServerConnection) : option (bool * ServerConnection) :=
  match requests with
  | [] => Some (true, c)
  | request :: requests =>
      '(ok, c) ← RejectForBackpressure send_ok message request c;
      if (ok : bool) then RejectAll send_ok message requests c else Some (false, c)
  end.

(** What the worker pool answers: [TrySubmitBatch] and, on refusal, the
    following [accepting_submissions]. *)
Record pool_answer := MkPoolAnswer { accepted : bool; accepting_submissions : bool }.

Definition SubmitRequestBatch (send_ok : bool) (answer : pool_answer)
    (requests : list RequestEnvelope) (c : ServerConnection) : option (bool * ServerConnection) :=
  if bool_decide (requests = []) then Abort "assertion failed" else
  if negb (accepted answer) then
    if negb (accepting_submissions answer) then
      c ← BeginDrain send_ok c; Some (false, c)
    else RejectAll send_ok (bs "server global pending job limit exceeded") requests c
  else
    Some (true, set_inflight (inflight_requests_ c +u len requests)%word (add_batch requests c)).

(** [ConsumeEach] hands out the batch in decode order ([batch_list]). *)
Definition HandleFeedResult (send_ok : bool) (answer : pool_answer)
    (feed : FrameStreamFeedResult) (c : ServerConnection) : option (bool * ServerConnection) :=
  if feed_closed_ feed then c ← Close send_ok c; Some (false, c) else
  let request_count := RequestEnvelopeBatch_size (requests_ feed) in
  if request_count =? 0 then Some (true, c) else
  if negb (inflight_requests_ c <=? max_inflight_ (c_limits c)) then Abort "assertion failed" else
  if (max_inflight_ (c_limits c) -u inflight_requests_ c <? request_count)%word then
    RejectAll send_ok (bs "server per-connection in-flight limit exceeded")
      (batch_list (requests_ feed)) c
  else SubmitRequestBatch send_ok answer (batch_list (requests_ feed)) c.

(** The [while] of [ReadLoop] up to the next [co_await], or its end;
    [recv_ok] is the answer of the context to the receive. *)
Definition ReadLoop_next (send_ok recv_ok : bool) (c : ServerConnection)
    : option ServerConnection :=
  if bool_decide (state_ c = Active) then
    if recv_ok then Some (set_read ReadOnRecv c) else
    (* the rejected start completes with -ECANCELED *)
    c ← Close send_ok c;
    c ← TryFinishDrain send_ok c;
    Some (set_read ReadDone c)
  else
    c ← TryFinishDrain send_ok c;
    Some (set_read ReadDone c).

(** The result of a receive: an error, end of stream, or bytes together with
    the capacity of the stream's buffer. *)
Inductive recv_result :=
  | RecvError
  | RecvEof
  | RecvBytes (capacity : Z) (data : bytes).

Definition OnRecvComplete (send_ok recv_ok : bool) (answer : pool_answer) (result : recv_result)
    (c : ServerConnection) : option ServerConnection :=
  match read_point_ c with
  | ReadOnRecv =>
      let c := set_read ReadRunning c in
      let finish c := c ← TryFinishDrain send_ok c; Some (set_read ReadDone c) in
      if negb (bool_decide (state_ c = Active)) then finish c else
      match result with
      | RecvEof => finish (set_state Draining c)
      | RecvError => c ← Close send_ok c; finish c
      | RecvBytes capacity data =>
          '(stream, feed) ← FeedBytes capacity (frame_stream_ c) data;
          '(continue_, c) ← HandleFeedResult send_ok answer feed (set_stream stream c);
          if negb continue_ then finish c else ReadLoop_next send_ok recv_ok c
      end
  | _ => Abort "no receive is pending"
  end.

(** [Start]: both coroutines run to their first suspension. *)
Definition ServerConnection_Start (send_ok recv_ok : bool) (c : ServerConnection)
    : option ServerConnection :=
  c ← WriteLoop_run (write_fuel c) send_ok false (set_write false WriteRunning c);
  ReadLoop_next send_ok recv_ok (set_read ReadRunning c).

Definition CanBeCollected (c : ServerConnection) : bool :=
  is_closed c &&
  match read_point_ c with ReadDone => true | _ => false end &&
  match write_point_ c with WriteDone => true | _ => false end.

(** ** The batch on a worker thread *)

(** [WorkerResult] *)
Record WorkerResult := MkWorkerResult {
  result_connection_id_ : Z;
  response_bytes_ : bytes;
  released_requests_ : Z;
  encode_failed_ : bool
}.

Context {World : Type}.

(** The loop: dispatch and encode in order, up to the first encoding failure. *)
Fixpoint execute_loop (registry : ServiceRegistry World) (limits : ProtocolLimits) (w : World)
    (batch_response_bytes : bytes) (encoded_responses : Z) (requests : list RequestEnvelope)
    : option (World * bytes * Z) :=
  match requests with
  | [] => Some (w, batch_response_bytes, encoded_responses)
  | request :: requests =>
      '(w, response) ← ServiceRegistry_Dispatch registry w request;
      encoded ← FrameCodec_EncodeResponse limits response;
      if negb (StatusOr_ok encoded) then Some (w, batch_response_bytes, encoded_responses) else
      data ← StatusOr_get encoded;
      execute_loop registry limits w (batch_response_bytes ++ data) (encoded_responses + 1) requests
  end.

(** The results posted to the owner loop, in order. *)
Definition ExecuteRequestBatchOnWorker (connection_id : Z) (registry : ServiceRegistry World)
    (limits : ProtocolLimits) (w : World) (requests : list RequestEnvelope)
    : option (World * list WorkerResult) :=
  let request_count := len requests in
  '(w, batch_response_bytes, encoded_responses) ← execute_loop registry limits w [] 0 requests;
  Some (w,
    (if 0 <? encoded_responses
     then [MkWorkerResult connection_id batch_response_bytes encoded_responses false] else []) ++
    (if encoded_responses <? request_count
     then [MkWorkerResult connection_id [] (request_count -u encoded_responses)%word true]
     else [])).

End Requests.

(** ** Invariants *)

Definition config_ok (cfg : ServerConnectionConfig) : Prop :=
  0 < max_inflight_ (limits_ cfg) < 2 ^ 64 /\
  0 < max_write_queue_bytes_ (limits_ cfg) < 2 ^ 64 /\ limits_ok (conn_protocol_limits_ cfg).

Definition batch_in_flight (c : ServerConnection) : Z :=
  match write_point_ c with WriteOnSend batch _ => len batch | _ => 0 end.

(** Accepted bytes that the kernel has not taken yet. *)
Definition unsent (c : ServerConnection) : bytes :=
  match write_point_ c with
  | WriteOnSend batch offset => drop (Z.to_nat offset) batch
  | _ => []
  end ++ concat (write_queue_ c).

Section Invariant.
(** The pending bytes and the live connections of the other connections of the
    same loop. *)
Context (rest live : Z).

(** What holds at every point of an event, whatever the coroutines do. *)
Definition core (c : ServerConnection) : Prop :=
  config_ok (conn_config_ c) /\
  0 <= inflight_requests_ c <= max_inflight_ (c_limits c) /\
  Forall (fun w => w <> []) (write_queue_ c) /\
  sent_bytes c `prefix_of` accepted_bytes c /\
  0 <= rest /\ 0 <= live /\ rest + max_write_queue_bytes_ (c_limits c) < 2 ^ 64 /\
  0 <= pending_write_bytes_ c <= max_write_queue_bytes_ (c_limits c) /\
  loop_pending_write_bytes_ (owner_acct_ c) = rest + pending_write_bytes_ c /\
  (state_ c = Closed ->
     pending_write_bytes_ c = 0 /\ write_queue_ c = [] /\ socket_open c = false /\
     fd_cancelled c = true /\ live_connections_ (owner_acct_ c) = live) /\
  (state_ c <> Closed ->
     socket_open c = true /\ live_connections_ (owner_acct_ c) = live + 1).

(** The accounting of an open connection. *)
Definition accounted (c : ServerConnection) : Prop :=
  state_ c <> Closed ->
  pending_write_bytes_ c = zsum len (write_queue_ c) + batch_in_flight c /\
  accepted_bytes c = sent_bytes c ++ unsent c.

Definition write_ok (c : ServerConnection) : Prop :=
  match write_point_ c with
  | WriteOnQueue =>
      write_queue_waiter_ c = true /\ state_ c <> Closed /\ write_queue_ c = []
  | WriteOnSend batch offset => write_queue_waiter_ c = false /\ 0 <= offset < len batch
  | WriteDone => write_queue_waiter_ c = false /\ state_ c = Closed
  | WriteInitial | WriteRunning => False
  end.

Definition write_running (c : ServerConnection) : Prop :=
  write_point_ c = WriteRunning /\ write_queue_waiter_ c = false.

Definition drain_ok (c : ServerConnection) : Prop :=
  state_ c = Draining -> ~ (inflight_requests_ c = 0 /\ pending_write_bytes_ c = 0).

Definition stream_ok (c : ServerConnection) : Prop :=
  stream_wf (frame_stream_ c) /\
  protocol_limits_ (frame_stream_ c) = conn_protocol_limits_ (conn_config_ c).

Definition read_ok (c : ServerConnection) : Prop :=
  match read_point_ c with
  | ReadOnRecv => True
  | ReadDone => state_ c <> Active
  | ReadInitial | ReadRunning => False
  end.

(** Between two events. *)
Definition conn_inv (c : ServerConnection) : Prop :=
  core c /\ accounted c /\ write_ok c /\ drain_ok c /\ stream_ok c /\ read_ok c.

(** What closing, waking and draining leave alone. *)
Definition frame (c c' : ServerConnection) : Prop :=
  conn_config_ c' = conn_config_ c /\ inflight_requests_ c' = inflight_requests_ c /\
  frame_stream_ c' = frame_stream_ c /\ read_point_ c' = read_point_ c /\
  accepted_bytes c' = accepted_bytes c /\ sent_bytes c' = sent_bytes c /\
  submitted_batches c' = submitted_batches c /\
  (state_ c' = state_ c \/ state_ c' = Closed).

Lemma frame_refl c : frame c c.
Proof. repeat split; auto. Qed.

Lemma frame_trans c1 c2 c3 : frame c1 c2 -> frame c2 c3 -> frame c1 c3.
Proof. unfold frame. naive_solver congruence. Qed.

Lemma Record_spec before after a :
  loop_pending_write_bytes_ a = rest + before -> 0 <= rest -> 0 <= before -> 0 <= after ->
  rest + before < 2 ^ 64 -> rest + after < 2 ^ 64 ->
  RecordWriteBytesChange before after a =
  Some (MkLoopAccounting (rest + after) (Z.max (loop_pending_write_bytes_peak_ a) (rest + after))
          (live_connections_ a)).
Proof.
  intros E ? ? ? ? ?. unfold RecordWriteBytesChange. rewrite E.
  rewrite (proj2 (Z.leb_le _ _)) by lia. simpl negb. cbv iota.
  rewrite sub64_small by lia. replace (rest + before - before) with rest by lia.
  by rewrite add64_small by lia.
Qed.

Lemma is_closed_false c : state_ c <> Closed -> is_closed c = false.
Proof. intros. by apply bool_decide_eq_false. Qed.

Lemma is_closed_true c : state_ c = Closed -> is_closed c = true.
Proof. intros. by apply bool_decide_eq_true. Qed.

(** One pass of the coroutine. *)
Lemma WriteLoop_run_S fuel send_ok inner c :
  WriteLoop_run (S fuel) send_ok inner c =
    let WakeWriteLoop c :=
      if write_queue_waiter_ c
      then WriteLoop_run fuel send_ok true (set_write false WriteRunning c) else Some c in
    if negb inner then
      if is_closed c then Some (set_write false WriteDone c) else
      (* co_await the write queue *)
      if is_closed c || negb (bool_decide (write_queue_ c = []))
      then WriteLoop_run fuel send_ok true c
      else if write_queue_waiter_ c then Abort "assertion failed"
      else Some (set_write true WriteOnQueue c)
    else if negb (is_closed c) && negb (bool_decide (write_queue_ c = [])) then
      '(batch, c) ← TakeWriteBatch c;
      if 0 <? len batch then
        if send_ok then Some (set_write (write_queue_waiter_ c) (WriteOnSend batch 0) c) else
        (* the rejected start completes with -ECANCELED *)
        c ← ReleaseWriteBytes (len batch) c;
        c ← Close_with WakeWriteLoop c;
        Some (set_write (write_queue_waiter_ c) WriteDone c)
      else
        c ← ReleaseWriteBytes (len batch) c;
        WriteLoop_run fuel send_ok true c
    else
      c ← TryFinishDrain_with WakeWriteLoop c;
      WriteLoop_run fuel send_ok false c.
Proof. reflexivity. Qed.

(** A closed connection's write coroutine returns when it is resumed. *)
Lemma WriteLoop_run_closed fuel send_ok c :
  state_ c = Closed ->
  WriteLoop_run (S (S fuel)) send_ok true c = Some (set_write false WriteDone c).
Proof.
  intros Hc. rewrite WriteLoop_run_S. cbv zeta. rewrite is_closed_true by done. simpl negb. cbn [andb].
  unfold TryFinishDrain_with. rewrite bool_decide_false by congruence. simpl negb.
  cbv iota. cbn [mbind option_bind]. rewrite WriteLoop_run_S. cbv zeta. by rewrite is_closed_true.
Qed.

Definition resumes (wake : ServerConnection -> option ServerConnection) : Prop :=
  forall c, state_ c = Closed ->
    wake c = Some (if write_queue_waiter_ c then set_write false WriteDone c else c).

Lemma WakeWriteLoop_resumes send_ok : resumes (WakeWriteLoop send_ok).
Proof.
  intros c Hc. unfold WakeWriteLoop. destruct (write_queue_waiter_ c); [|done].
  simpl negb. cbv iota. unfold write_fuel. by rewrite WriteLoop_run_closed.
Qed.

(** Closing from any point. *)
Lemma Close_spec wake c :
  resumes wake -> core c -> write_ok c \/ write_running c ->
  exists c', Close_with wake c = Some c' /\ core c' /\ frame c c' /\ state_ c' = Closed /\
    (write_ok c -> write_ok c') /\ (write_running c -> write_running c').
Proof.
  intros Hwake Hcore Hw. unfold Close_with. destruct (decide (state_ c = Closed)) as [Hc|Hc].
  { rewrite is_closed_true by done. exists c. split_and!; try done. apply frame_refl. }
  rewrite is_closed_false by done.
  destruct Hcore as (Hcfg&Hinf&Hne&Hpre&Hr&Hl&Hmax&Hp&Hacct&_&Hopen).
  destruct (Hopen Hc) as [Hso Hlive].
  simpl pending_write_bytes_. simpl owner_acct_. rewrite (Record_spec _ 0) by (done || lia).
  cbn [mbind option_bind]. rewrite Hwake by done. cbn [mbind option_bind].
  eexists. split; [reflexivity|].
  assert (0 <? live_connections_ (owner_acct_ c) = true) as Hlt by (apply Z.ltb_lt; lia).
  simpl write_queue_waiter_.
  assert (forall c0, state_ c0 = Closed -> write_queue_ c0 = [] -> pending_write_bytes_ c0 = 0 ->
    conn_config_ c0 = conn_config_ c -> inflight_requests_ c0 = inflight_requests_ c ->
    sent_bytes c0 = sent_bytes c -> accepted_bytes c0 = accepted_bytes c ->
    socket_open c0 = false -> fd_cancelled c0 = true ->
    loop_pending_write_bytes_ (owner_acct_ c0) = rest ->
    live_connections_ (owner_acct_ c0) = live -> core c0) as Hcl.
  { intros c0 H1 H2 H3 H4 H5 H6 H7 H8 H9 H10 H11. unfold core. rewrite H2, H3, H4, H5, H6, H7, H10.
    split_and!; try done; try lia. }
  assert (live_connections_ (OnConnectionClosed (MkLoopAccounting (rest + 0)
    (Z.max (loop_pending_write_bytes_peak_ (owner_acct_ c)) (rest + 0))
    (live_connections_ (owner_acct_ c)))) = live /\
    loop_pending_write_bytes_ (OnConnectionClosed (MkLoopAccounting (rest + 0)
    (Z.max (loop_pending_write_bytes_peak_ (owner_acct_ c)) (rest + 0))
    (live_connections_ (owner_acct_ c)))) = rest) as [Hl1 Hl2].
  { unfold OnConnectionClosed. simpl. rewrite Hlt. simpl. lia. }
  destruct (write_queue_waiter_ c) eqn:Ew;
    (split_and!; [by apply Hcl|repeat split; auto|done|..]).
  - intros _. by unfold write_ok.
  - intros [_ Hf]. congruence.
  - unfold write_ok. simpl. intros H. destruct (write_point_ c); try done;
      destruct H as [H ?]; try done; congruence.
  - unfold write_running. simpl. tauto.
Qed.

Lemma queue_empty_of_pending c :
  core c -> accounted c -> state_ c <> Closed -> pending_write_bytes_ c = 0 ->
  write_queue_ c = [].
Proof.
  intros Hcore Ha Hc Hp. destruct (Ha Hc) as [Hsum _].
  destruct Hcore as (_&_&Hne&_). destruct (write_queue_ c) as [|w q]; [done|].
  apply Forall_cons in Hne as [Hw _]. simpl in Hsum. unfold batch_in_flight in Hsum.
  assert (0 < len w) by (destruct w; [done|]; rewrite len_cons; pose proof (len_nonneg w); lia).
  pose proof (zsum_nonneg len q ltac:(intros; apply len_nonneg)) as Hz.
  unfold zsum in *. destruct (write_point_ c); try lia.
  pose proof (len_nonneg batch). lia.
Qed.

Lemma accounted_closed c : state_ c = Closed -> accounted c.
Proof. by intros ? []. Qed.

Lemma TryFinishDrain_spec wake c :
  resumes wake -> core c -> accounted c -> write_ok c \/ write_running c ->
  exists c', TryFinishDrain_with wake c = Some c' /\ core c' /\ accounted c' /\ frame c c' /\
    drain_ok c' /\ (c' = c \/ state_ c' = Closed) /\
    (write_ok c -> write_ok c') /\ (write_running c -> write_running c').
Proof.
  intros Hwake Hcore Ha Hw. unfold TryFinishDrain_with.
  destruct (decide (state_ c = Draining)) as [Hd|Hd].
  2: { rewrite bool_decide_false by done. exists c. split_and!; try done; try tauto; [apply frame_refl|].
       by intros ?. }
  rewrite bool_decide_true by done. simpl negb. cbv iota.
  destruct (Z.eqb_spec (inflight_requests_ c) 0) as [Hi|Hi];
    [destruct (Z.eqb_spec (pending_write_bytes_ c) 0) as [Hp|Hp]|]; simpl.
  - rewrite (queue_empty_of_pending c) by (done || congruence).
    destruct (Close_spec wake c Hwake Hcore Hw) as (c' & -> & ? & ? & Hcl & ? & ?).
    pose proof (accounted_closed c' Hcl).
    simpl. exists c'. split_and!; try done; [|by right]. intros Hd'. congruence.
  - exists c. split_and!; try done; try tauto; [apply frame_refl|]. intros _. tauto.
  - exists c. split_and!; try done; try tauto; [apply frame_refl|]. intros _. tauto.
Qed.

(** ** The write coroutine *)

Lemma core_set_write w x c : core c -> core (set_write w x c).
Proof. done. Qed.

Lemma len_concat (l : list bytes) : len (concat l) = zsum len l.
Proof. induction l as [|x l IH]; [done|]. simpl. rewrite len_app, IH. done. Qed.

Lemma coalesce_spec queue batch batch' queue' :
  coalesce batch queue = (batch', queue') ->
  batch' ++ concat queue' = batch ++ concat queue /\ len batch <= len batch' /\
  (Forall (fun w => w <> []) queue -> Forall (fun w => w <> []) queue').
Proof.
  revert batch. induction queue as [|w queue IH]; intros batch H; simpl in H.
  - injection H as <- <-. done.
  - destruct (_ <=? _).
    + destruct (IH _ H) as (E & Hl & Hf). rewrite len_app in Hl. pose proof (len_nonneg w).
      split_and!; [|lia|].
      * rewrite E. simpl. by rewrite app_assoc.
      * intros [_ ?]%Forall_cons. auto.
    + injection H as <- <-. done.
Qed.

Lemma ReleaseWriteBytes_spec n c :
  core c -> 0 <= n <= pending_write_bytes_ c ->
  exists a, ReleaseWriteBytes n c = Some (set_pending (pending_write_bytes_ c - n) a c) /\
    core (set_pending (pending_write_bytes_ c - n) a c).
Proof.
  intros Hcore Hn. pose proof Hcore as (Hcfg&Hinf&Hne&Hpre&Hr&Hl&Hmax&Hp&Hacct&Hcl&Hop).
  unfold ReleaseWriteBytes. rewrite (proj2 (Z.leb_le _ _)) by lia. simpl negb. cbv iota.
  rewrite sub64_small by lia. rewrite Record_spec by lia.
  cbn [mbind option_bind]. eexists. split; [reflexivity|].
  unfold core. simpl. split_and!; try done; try lia.
  intros Hc. destruct (Hcl Hc) as (?&?&?&?&?). split_and!; try done. lia.
Qed.

Lemma TakeWriteBatch_spec c :
  core c -> write_queue_ c <> [] ->
  exists batch queue, TakeWriteBatch c = Some (batch, set_queue queue c) /\
    0 < len batch /\ batch ++ concat queue = concat (write_queue_ c) /\
    Forall (fun w => w <> []) queue /\ (0 < length (write_queue_ c))%nat.
Proof.
  intros (_&_&Hne&_) Hq. unfold TakeWriteBatch.
  destruct (write_queue_ c) as [|w q] eqn:Eq; [done|].
  destruct (coalesce w q) as [batch queue] eqn:E. exists batch, queue.
  destruct (coalesce_spec _ _ _ _ E) as (Hcat & Hlen & Hf).
  apply Forall_cons in Hne as [Hw Hne].
  assert (0 < len w) by (destruct w; [done|]; rewrite len_cons; pose proof (len_nonneg w); lia).
  split_and!; try done; simpl; try lia; auto.
Qed.

Lemma core_set_queue q c :
  core c -> state_ c <> Closed -> Forall (fun w => w <> []) q -> core (set_queue q c).
Proof. intros (?&?&?&?&?&?&?&?&?&?&?) ? ?. unfold core. simpl.
  split_and!; try done; lia. Qed.

Lemma inner_wake_resumes fuel send_ok :
  resumes (fun c => if write_queue_waiter_ c
    then WriteLoop_run (S (S fuel)) send_ok true (set_write false WriteRunning c) else Some c).
Proof.
  intros c Hc. destruct (write_queue_waiter_ c); [|done]. by rewrite WriteLoop_run_closed.
Qed.

(** The coroutine ends a batch by releasing its bytes and closing. *)
Lemma release_and_close wake n c :
  resumes wake -> core c -> write_running c -> 0 <= n <= pending_write_bytes_ c ->
  exists c', (c0 ← ReleaseWriteBytes n c; c1 ← Close_with wake c0;
              Some (set_write (write_queue_waiter_ c1) WriteDone c1)) = Some c' /\
    core c' /\ accounted c' /\ write_ok c' /\ drain_ok c' /\ frame c c' /\ state_ c' = Closed.
Proof.
  intros Hwake Hcore Hrun Hn.
  destruct (ReleaseWriteBytes_spec n c Hcore Hn) as (a & -> & Hcore1). cbn [mbind option_bind].
  destruct (Close_spec wake _ Hwake Hcore1 (or_intror Hrun))
    as (c' & -> & Hcore' & Hframe & Hcl & _ & Hrun'). cbn [mbind option_bind].
  destruct (Hrun' Hrun) as [Hp Hw].
  eexists. split; [reflexivity|]. split_and!; try done.
  unfold drain_ok. simpl. rewrite Hcl. done.
Qed.

Lemma WriteLoop_run_outer fuel send_ok c :
  core c -> accounted c -> write_running c -> (state_ c <> Closed -> write_queue_ c = []) ->
  drain_ok c ->
  exists c', WriteLoop_run (S fuel) send_ok false c = Some c' /\
    core c' /\ accounted c' /\ write_ok c' /\ drain_ok c' /\ frame c c'.
Proof.
  intros Hcore Ha [Hp Hw] Hq Hd. rewrite WriteLoop_run_S. cbv zeta. simpl negb. cbv iota.
  destruct (decide (state_ c = Closed)) as [Hc|Hc].
  - rewrite is_closed_true by done. eexists. split; [reflexivity|]. split_and!; try done.
    repeat split; auto.
  - rewrite is_closed_false by done. rewrite bool_decide_true by auto. simpl orb. cbv iota.
    rewrite Hw. eexists. split; [reflexivity|]. split_and!; try done; [|..].
    + intros _. destruct (Ha Hc) as [Hs Hb]. unfold batch_in_flight, unsent in *. rewrite Hp in *.
      done.
    + unfold write_ok. simpl. auto.
    + repeat split; auto.
Qed.

Lemma WriteLoop_run_inner fuel send_ok c :
  core c -> accounted c -> write_running c -> state_ c <> Closed ->
  exists c', WriteLoop_run (S (S (S (S fuel)))) send_ok true c = Some c' /\
    core c' /\ accounted c' /\ write_ok c' /\ drain_ok c' /\ frame c c'.
Proof.
  intros Hcore Ha Hrun Hc. rewrite WriteLoop_run_S. cbv zeta. remember (S (S fuel)) as fuel2.
  simpl negb. cbv iota. rewrite is_closed_false by done.
  assert (resumes (fun c => if write_queue_waiter_ c
    then WriteLoop_run (S fuel2) send_ok true (set_write false WriteRunning c) else Some c)) as Hwake.
  { subst fuel2. apply inner_wake_resumes. }
  destruct (decide (write_queue_ c = [])) as [Hq|Hq].
  - rewrite bool_decide_true by done. simpl andb. cbv iota.
    destruct (TryFinishDrain_spec _ c Hwake Hcore Ha (or_intror Hrun))
      as (c1 & -> & Hcore1 & Ha1 & Hf1 & Hd1 & Hsame & _ & Hrun1). cbn [mbind option_bind].
    destruct (WriteLoop_run_outer fuel2 send_ok c1 Hcore1 Ha1 (Hrun1 Hrun)) as
      (c' & E & ? & ? & ? & ? & Hf2); [|done|].
    { intros Hc1. by destruct Hsame as [->|]. }
    exists c'. split_and!; try done. by eapply frame_trans.
  - rewrite bool_decide_false by done. simpl andb. cbv iota.
    destruct (TakeWriteBatch_spec c Hcore Hq) as (batch & queue & -> & Hlen & Hcat & Hne & _).
    cbn [mbind option_bind]. rewrite (proj2 (Z.ltb_lt _ _)) by done.
    destruct (Ha Hc) as [Hsum Hacc]. destruct Hrun as [Hp Hw].
    unfold batch_in_flight, unsent in Hsum, Hacc. rewrite Hp in Hsum, Hacc. simpl in Hacc.
    assert (len batch + zsum len queue = zsum len (write_queue_ c)) as Hz
      by (by rewrite <- !len_concat, <- len_app, Hcat).
    pose proof (core_set_queue queue c Hcore Hc Hne) as Hcore1.
    pose proof (zsum_nonneg len queue ltac:(intros; apply len_nonneg)).
    destruct send_ok.
    + eexists. split; [reflexivity|]. split; [done|]. split; [|split; [|split]].
      * intros _. simpl. unfold unsent, batch_in_flight. simpl. rewrite drop_0, Hcat. split; [lia|done].
      * unfold write_ok. simpl. rewrite Hw. split; [done|lia].
      * intros _. simpl. lia.
      * repeat split; auto.
    + destruct (release_and_close _ (len batch) (set_queue queue c) Hwake Hcore1)
        as (c' & E & ? & ? & ? & ? & ? & ?); [done|simpl; lia|].
      exists c'. rewrite E. done.
Qed.

Lemma WakeWriteLoop_spec send_ok c :
  core c -> accounted c -> state_ c <> Closed ->
  (write_ok c \/ (write_queue_waiter_ c = true /\ write_point_ c = WriteOnQueue)) ->
  (write_queue_waiter_ c = false -> drain_ok c) ->
  exists c', WakeWriteLoop send_ok c = Some c' /\
    core c' /\ accounted c' /\ write_ok c' /\ drain_ok c' /\ frame c c'.
Proof.
  intros Hcore Ha Hc Hw Hd. unfold WakeWriteLoop. destruct (write_queue_waiter_ c) eqn:Ew.
  - simpl negb. cbv iota. unfold write_fuel.
    destruct (WriteLoop_run_inner (2 * length (write_queue_ c)) send_ok
      (set_write false WriteRunning c)) as (c' & E & ? & ? & ? & ? & ?); try done.
    + intros _. destruct (Ha Hc) as [Hs Hb]. unfold batch_in_flight, unsent in *. simpl.
      assert (write_point_ c = WriteOnQueue) as Hp.
      { destruct Hw as [Hw|[_ ?]]; [|done]. unfold write_ok in Hw.
        destruct (write_point_ c); try done; destruct Hw; congruence. }
      by rewrite Hp in *.
    + exists c'. done.
  - simpl negb. cbv iota. exists c. destruct Hw as [Hw|[? _]]; [|done].
    split_and!; auto. apply frame_refl.
Qed.

(** ** Events keep the invariant *)

(** How a connection changes: its history only grows, a closed connection does
    not change any more, and a draining one takes no new work. *)
Definition evolves (c c' : ServerConnection) : Prop :=
  conn_config_ c' = conn_config_ c /\
  accepted_bytes c `prefix_of` accepted_bytes c' /\ sent_bytes c `prefix_of` sent_bytes c' /\
  submitted_batches c `prefix_of` submitted_batches c' /\
  (state_ c = Closed -> state_ c' = Closed /\ accepted_bytes c' = accepted_bytes c /\
     sent_bytes c' = sent_bytes c /\ submitted_batches c' = submitted_batches c) /\
  (state_ c = Draining -> state_ c' <> Active /\ submitted_batches c' = submitted_batches c).

Lemma evolves_refl c : evolves c c.
Proof. unfold evolves. split_and!; try done. intros ->. done. Qed.

Lemma evolves_trans c1 c2 c3 : evolves c1 c2 -> evolves c2 c3 -> evolves c1 c3.
Proof.
  intros (A1&A2&A3&A4&A5&A6) (B1&B2&B3&B4&B5&B6). unfold evolves. split_and!.
  - congruence.
  - by etrans.
  - by etrans.
  - by etrans.
  - intros H. destruct (A5 H) as (?&?&?&?). destruct B5 as (?&?&?&?); [done|].
    split_and!; congruence.
  - intros H. destruct (A6 H) as (Hn&E). destruct (state_ c2) eqn:E2; [done|..].
    + destruct B6 as [? ?]; [done|]. split; [done|congruence].
    + destruct B5 as (Hc&_&_&?); [done|]. rewrite Hc. split; [done|congruence].
Qed.

Lemma frame_evolves c c' : frame c c' -> evolves c c'.
Proof.
  intros (E1&E2&E3&E4&E5&E6&E7&Hst). unfold evolves. rewrite E1, E5, E6, E7.
  split_and!; try done.
  - intros H. destruct Hst as [-> | ->]; auto.
  - intros H. split; [|done]. destruct Hst as [-> | ->]; [congruence|done].
Qed.

(** The part of the invariant that holds inside an event, where the read
    coroutine may be running. *)
Definition mid (c : ServerConnection) : Prop :=
  core c /\ accounted c /\ write_ok c /\ stream_ok c.

Lemma frame_stream_ok c c' : frame c c' -> stream_ok c -> stream_ok c'.
Proof. intros (E1&_&E3&_) [? ?]. unfold stream_ok. by rewrite E1, E3. Qed.

Lemma Close_mid send_ok c :
  mid c -> exists c', Close send_ok c = Some c' /\ mid c' /\ frame c c' /\ state_ c' = Closed.
Proof.
  intros (Hcore & Ha & Hw & Hs).
  destruct (Close_spec _ c (WakeWriteLoop_resumes send_ok) Hcore (or_introl Hw))
    as (c' & E & ? & Hf & Hcl & ? & _).
  exists c'. split; [exact E|]. split; [|done].
  unfold mid. split_and!; auto using accounted_closed. by eapply frame_stream_ok.
Qed.

Lemma TryFinishDrain_mid send_ok c :
  mid c -> exists c', TryFinishDrain send_ok c = Some c' /\ mid c' /\ frame c c' /\ drain_ok c'.
Proof.
  intros (Hcore & Ha & Hw & Hs).
  destruct (TryFinishDrain_spec _ c (WakeWriteLoop_resumes send_ok) Hcore Ha (or_introl Hw))
    as (c' & E & ? & ? & Hf & ? & _ & ? & _).
  exists c'. split; [exact E|]. split; [|done].
  unfold mid. split_and!; auto. by eapply frame_stream_ok.
Qed.

(** Reserving pending bytes: it succeeds within the limit and closes otherwise. *)
Lemma TryReserve_mid send_ok n c :
  mid c -> state_ c <> Closed -> 0 <= n < 2 ^ 64 ->
  (exists a, TryReserveWriteBytes send_ok n c =
     Some (true, set_pending (pending_write_bytes_ c + n) a c) /\
     core (set_pending (pending_write_bytes_ c + n) a c)) \/
  (exists c', TryReserveWriteBytes send_ok n c = Some (false, c') /\ mid c' /\ frame c c' /\
     state_ c' = Closed).
Proof.
  intros Hmid Hc Hn. pose proof Hmid as (Hcore & _).
  pose proof Hcore as (Hcfg&Hinf&Hne&Hpre&Hr&Hl&Hmax&Hp&Hacct&Hcl&Hop).
  unfold TryReserveWriteBytes. rewrite (proj2 (Z.leb_le _ _)) by lia. simpl negb. cbv iota.
  destruct Hcfg as (?&?&?). rewrite sub64_small by lia.
  destruct (Z.ltb_spec (max_write_queue_bytes_ (c_limits c) - pending_write_bytes_ c) n).
  - right. destruct (Close_mid send_ok c Hmid) as (c' & -> & ? & ? & ?).
    exists c'. done.
  - left. rewrite add64_small by lia. rewrite Record_spec by lia. cbn [mbind option_bind].
    eexists. split; [reflexivity|]. unfold core. simpl.
    split_and!; try done; try lia.
Qed.

Lemma EnqueueWrite_mid send_ok data c :
  mid c -> data <> [] -> len data < 2 ^ 64 ->
  exists ok c', EnqueueWrite send_ok data c = Some (ok, c') /\ mid c' /\
    (if (ok : bool) then frame (add_accepted data c) c' /\ state_ c <> Closed /\ drain_ok c'
     else frame c c' /\ state_ c' = Closed).
Proof.
  intros Hmid Hd Hlen. unfold EnqueueWrite.
  destruct (decide (state_ c = Closed)) as [Hc|Hc].
  { rewrite is_closed_true by done. exists false, c. split_and!; try done. apply frame_refl. }
  rewrite is_closed_false by done.
  assert (0 < len data) as Hpos
    by (destruct data; [done|]; rewrite len_cons; pose proof (len_nonneg data); lia).
  destruct (TryReserve_mid send_ok (len data) c Hmid Hc ltac:(lia))
    as [(a & -> & Hcore)|(c' & -> & Hm & Hf & Hcl)]; cbn [mbind option_bind].
  2: { exists false, c'. done. }
  simpl negb. cbv iota. destruct Hmid as (Hcore0 & Ha & Hw & Hs).
  set (c1 := set_queue _ _).
  destruct (WakeWriteLoop_spec send_ok c1) as (c' & -> & ? & ? & ? & ? & Hf); try done.
  - unfold core in Hcore |- *. unfold c1. simpl in *.
    destruct Hcore as (?&?&Hne&Hpre&?&?&?&?&?&?&?).
    split_and!; try done; try lia.
    + apply Forall_app. split; [done|]. by apply Forall_singleton.
    + by apply prefix_app_r.
  - intros _. destruct (Ha Hc) as [Hs1 Hs2]. unfold c1, unsent, batch_in_flight in *. simpl.
    rewrite zsum_app, concat_app. simpl. rewrite app_nil_r. split; [unfold zsum in *; simpl; lia|].
    rewrite Hs2, <- !app_assoc. done.
  - unfold c1, write_ok in *. simpl. destruct (write_point_ c); try done; auto.
    destruct Hw as (?&?&?). auto.
  - intros _ _. simpl. destruct Hcore0 as (_&_&_&_&_&_&_&Hp0&_). lia.
  - cbn [mbind option_bind]. exists true, c'. split; [done|].
    assert (frame (add_accepted data c) c') as Hf' by exact Hf.
    split; [|done]. unfold mid. split_and!; auto. exact (frame_stream_ok _ _ Hf Hs).
Qed.

Lemma add_accepted_evolves data c c' :
  state_ c <> Closed -> frame (add_accepted data c) c' -> evolves c c'.
Proof.
  intros Hc (E1&E2&E3&E4&E5&E6&E7&Hst). unfold evolves. simpl in *. rewrite E1, E5, E6, E7.
  split_and!; try done.
  - by apply prefix_app_r.
  - intros H. split; [|done]. destruct Hst as [-> | ->]; [congruence|done].
Qed.

Lemma conn_inv_mid c : conn_inv c -> mid c.
Proof. intros (?&?&?&?&?&?). by unfold mid. Qed.

Lemma conn_inv_intro c : mid c -> drain_ok c -> read_ok c -> conn_inv c.
Proof. intros (?&?&?&?) ? ?. by unfold conn_inv. Qed.

(** The read coroutine's point survives what the other handlers do. *)
Lemma frame_read_ok c c' : frame c c' -> read_ok c -> read_ok c'.
Proof.
  intros (_&_&_&E&_&_&_&Hst). unfold read_ok. rewrite E.
  destruct (read_point_ c); try done. by destruct Hst as [-> | ->].
Qed.

Lemma set_inflight_mid n c :
  mid c -> 0 <= n <= max_inflight_ (c_limits c) -> mid (set_inflight n c).
Proof.
  intros (Hcore & Ha & Hw & Hs) Hn. unfold mid. split_and!; try done.
  destruct Hcore as (?&?&?&?&?&?&?&?&?&?&?). unfold core. simpl. split_and!; try done; lia.
Qed.

Lemma ReleaseInflight_mid n c :
  mid c -> 0 <= n <= inflight_requests_ c ->
  ReleaseInflightRequests n c = Some (set_inflight (inflight_requests_ c - n) c) /\
  mid (set_inflight (inflight_requests_ c - n) c).
Proof.
  intros Hmid Hn. pose proof Hmid as (Hcore & _). destruct Hcore as (Hcfg&?&_).
  destruct Hcfg as (?&_).
  unfold ReleaseInflightRequests. rewrite (proj2 (Z.leb_le _ _)) by lia. simpl negb. cbv iota.
  rewrite sub64_small by lia. split; [done|]. apply set_inflight_mid; [done|lia].
Qed.

(** A worker result with responses. *)
Lemma OnResponsesEncoded_inv send_ok alloc_ok data n c :
  conn_inv c -> data <> [] -> len data < 2 ^ 64 -> 0 <= n <= inflight_requests_ c ->
  exists c', OnResponsesEncoded send_ok alloc_ok data n c = Some c' /\ conn_inv c' /\ evolves c c'.
Proof.
  intros Hinv Hd Hlen Hn. pose proof Hinv as (_&_&_&_&_&Hread).
  destruct (ReleaseInflight_mid n c (conn_inv_mid c Hinv) Hn) as [E Hmid].
  unfold OnResponsesEncoded. rewrite E. cbn [mbind option_bind].
  set (c1 := set_inflight _ _) in *.
  assert (evolves c c1) as Hev1 by (unfold evolves, c1; simpl; split_and!; try done; by intros ->).
  destruct (decide (state_ c1 = Closed)) as [Hc|Hc].
  { rewrite is_closed_true by done. exists c1. split_and!; [done| |done].
    apply conn_inv_intro; [done| |done]. intros ?. congruence. }
  rewrite is_closed_false by done.
  assert (exists c2,
    (if alloc_ok then '(_, c0) ← EnqueueWrite send_ok data c1; Some c0
     else '(_, c0) ← TryReserveWriteBytes send_ok (len data) c1; Close send_ok c0) = Some c2 /\
    mid c2 /\ evolves c1 c2 /\ (read_ok c1 -> read_ok c2)) as (c2 & -> & Hmid2 & Hev2 & Hr2).
  { destruct alloc_ok.
    - destruct (EnqueueWrite_mid send_ok data c1 Hmid Hd Hlen) as (ok & c2 & -> & Hm & Hok).
      cbn [mbind option_bind]. exists c2. split_and!; try done.
      + destruct ok; [destruct Hok as (Hf&?&_); by eapply add_accepted_evolves|
          destruct Hok as [Hf _]; by apply frame_evolves].
      + destruct ok; destruct Hok as [Hf _]; intros Hr; [|by eapply frame_read_ok].
        apply (frame_read_ok (add_accepted data c1)); [done|exact Hr].
    - pose proof (len_nonneg data).
      destruct (TryReserve_mid send_ok (len data) c1 Hmid Hc ltac:(lia))
        as [(a & -> & Hcore)|(c2 & -> & Hm & Hf & Hcl)]; cbn [mbind option_bind].
      + destruct Hmid as (_ & _ & Hw & Hs).
        destruct (Close_spec _ _ (WakeWriteLoop_resumes send_ok) Hcore (or_introl Hw))
          as (c2 & E2 & Hcore2 & Hf & Hcl & Hw2 & _).
        exists c2. split; [exact E2|]. split_and!.
        * unfold mid. split_and!; auto using accounted_closed.
          exact (frame_stream_ok _ _ Hf Hs).
        * apply (frame_evolves c1). exact Hf.
        * intros Hr. exact (frame_read_ok _ _ Hf Hr).
      + destruct (Close_mid send_ok c2 Hm) as (c3 & -> & Hm3 & Hf3 & _).
        exists c3. assert (frame c1 c3) as Hf13 by (by eapply frame_trans).
        split_and!; try done; [by apply frame_evolves|exact (frame_read_ok _ _ Hf13)]. }
  cbn [mbind option_bind].
  destruct (TryFinishDrain_mid send_ok c2 Hmid2) as (c3 & -> & Hm3 & Hf3 & Hd3).
  exists c3. split_and!; try done.
  - apply conn_inv_intro; [done|done|]. apply (frame_read_ok c2); [done|]. apply Hr2. exact Hread.
  - eapply evolves_trans; [exact Hev1|]. eapply evolves_trans; [exact Hev2|].
    by apply frame_evolves.
Qed.

Lemma OnResponseEncodeFailure_inv send_ok n c :
  conn_inv c -> 0 <= n <= inflight_requests_ c ->
  exists c', OnResponseEncodeFailure send_ok n c = Some c' /\ conn_inv c' /\ evolves c c' /\
    state_ c' = Closed.
Proof.
  intros Hinv Hn. pose proof Hinv as (_&_&_&_&_&Hread).
  destruct (ReleaseInflight_mid n c (conn_inv_mid c Hinv) Hn) as [E Hmid].
  unfold OnResponseEncodeFailure. rewrite E. cbn [mbind option_bind].
  destruct (Close_mid send_ok _ Hmid) as (c' & -> & Hm & Hf & Hcl).
  exists c'. split_and!; try done.
  - apply conn_inv_intro; [done| |].
    + intros ?. congruence.
    + exact (frame_read_ok _ _ Hf Hread).
  - apply frame_evolves in Hf. eapply evolves_trans; [|exact Hf].
    unfold evolves. simpl. split_and!; try done; by intros ->.
Qed.

Lemma Close_inv send_ok c :
  conn_inv c ->
  exists c', Close send_ok c = Some c' /\ conn_inv c' /\ evolves c c' /\ state_ c' = Closed.
Proof.
  intros Hinv. pose proof Hinv as (_&_&_&_&_&Hread).
  destruct (Close_mid send_ok c (conn_inv_mid c Hinv)) as (c' & -> & Hm & Hf & Hcl).
  exists c'. split_and!; try done; [|by apply frame_evolves].
  apply conn_inv_intro; [done| |by eapply frame_read_ok]. intros ?. congruence.
Qed.

(** Draining, from inside an event or as one. *)
Lemma BeginDrain_mid send_ok c :
  mid c -> exists c', BeginDrain send_ok c = Some c' /\ mid c' /\ evolves c c' /\
    (state_ c = Active -> drain_ok c') /\ (state_ c <> Active -> c' = c) /\
    state_ c' <> Active /\ read_point_ c' = read_point_ c.
Proof.
  intros Hmid. unfold BeginDrain. destruct (decide (state_ c = Active)) as [Hst|Hst].
  2: { rewrite bool_decide_false by done. exists c.
       pose proof (evolves_refl c). by split_and!. }
  rewrite bool_decide_true by done. simpl negb. cbv iota zeta.
  destruct Hmid as (Hcore & Ha & Hw & Hs). pose proof Hcore as (?&?&?&?&?&?&?&?&?&Hcl&Hop).
  destruct Hop as [Hso Hlive]; [congruence|]. simpl. rewrite Hso.
  destruct (TryFinishDrain_mid send_ok (set_shutdown (set_state Draining c)))
    as (c' & -> & Hm & Hf & Hd).
  { unfold mid. split_and!; [| | |done].
    - unfold core. simpl. split_and!; try done; lia.
    - intros _. apply Ha. congruence.
    - unfold write_ok in *. simpl. destruct (write_point_ c); try done.
      + by destruct Hw as (?&?&?).
      + destruct Hw. congruence. }
  exists c'. pose proof Hf as (?&?&?&Hrp&?&?&?&Hst'). simpl in *. split_and!; try done.
  - apply frame_evolves in Hf. eapply evolves_trans; [|exact Hf].
    unfold evolves. simpl. split_and!; try done; congruence.
  - destruct Hst' as [-> | ->]; done.
Qed.

Lemma BeginDrain_inv send_ok c :
  conn_inv c ->
  exists c', BeginDrain send_ok c = Some c' /\ conn_inv c' /\ evolves c c' /\ state_ c' <> Active.
Proof.
  intros Hinv. destruct (BeginDrain_mid send_ok c (conn_inv_mid c Hinv))
    as (c' & -> & Hm & Hev & Hd & Hsame & Hst & Hrp).
  exists c'. split_and!; try done. destruct (decide (state_ c = Active)) as [Ha|Ha].
  - apply conn_inv_intro; auto. destruct Hinv as (_&_&_&_&_&Hr). unfold read_ok in *.
    rewrite Hrp. by destruct (read_point_ c).
  - by rewrite Hsame.
Qed.

(** The invariant after steps that leave input and results alone. *)
Lemma conn_inv_frame c c' :
  stream_ok c -> read_ok c -> core c' -> accounted c' -> write_ok c' -> drain_ok c' -> frame c c' -> conn_inv c'.
Proof.
  intros Hs Hr ? ? ? ? Hf. unfold conn_inv.
  split_and!; try done; [exact (frame_stream_ok _ _ Hf Hs)|exact (frame_read_ok _ _ Hf Hr)].
Qed.

Lemma substr_split (b : bytes) offset n :
  0 <= offset -> 0 <= n ->
  drop (Z.to_nat offset) b = substr b offset n ++ drop (Z.to_nat (offset + n)) b.
Proof.
  intros Ho Hn. unfold substr. rewrite <- (take_drop (Z.to_nat n) (drop (Z.to_nat offset) b)) at 1.
  rewrite drop_drop. do 2 f_equal. lia.
Qed.

(** The kernel took the next [n] bytes of the batch. *)
Lemma sent_more n c batch offset :
  core c -> state_ c <> Closed -> 0 < n -> 0 <= offset ->
  accepted_bytes c = sent_bytes c ++ drop (Z.to_nat offset) batch ++ concat (write_queue_ c) ->
  let c2 := add_sent (substr batch offset n) (set_write false WriteRunning c) in
  core c2 /\ evolves c c2.
Proof.
  intros Hcore Hc Hn Ho Hacc c2.
  assert (sent_bytes c ++ substr batch offset n `prefix_of` accepted_bytes c) as Hpre.
  { rewrite Hacc, (substr_split batch offset n), <- app_assoc by lia. apply prefix_app, prefix_app_r. done. }
  split.
  - destruct Hcore as (?&?&?&?&?&?&?&?&?&?&?). unfold core, c2. simpl. split_and!; try done; lia.
  - unfold evolves, c2. simpl. split_and!; try done; [by apply prefix_app_r|by intros ->].
Qed.

(** A send completion. *)
Lemma OnSendComplete_inv send_ok result c batch offset :
  conn_inv c -> write_point_ c = WriteOnSend batch offset -> result <= len batch - offset ->
  exists c', OnSendComplete send_ok result c = Some c' /\ conn_inv c' /\ evolves c c'.
Proof.
  intros (Hcore & Ha & Hw & Hd & Hs & Hr) Hp Hres. unfold OnSendComplete. rewrite Hp.
  unfold write_ok in Hw. rewrite Hp in Hw. destruct Hw as [Hwt Hoff]. rewrite Hwt.
  set (c1 := set_write false WriteRunning c).
  destruct (decide (state_ c = Closed)) as [Hc|Hc].
  { rewrite (is_closed_true c1) by done. eexists. split; [reflexivity|]. split.
    - unfold conn_inv. split_and!; try done.
    - apply frame_evolves. repeat split; auto. }
  rewrite (is_closed_false c1) by done.
  destruct (Ha Hc) as [Hsum Hacc]. unfold batch_in_flight, unsent in Hsum, Hacc. rewrite Hp in *.
  pose proof (zsum_nonneg len (write_queue_ c) ltac:(intros; apply len_nonneg)) as Hz.
  destruct (Z.leb_spec result 0) as [Hneg|Hpos].
  { destruct (release_and_close _ (len batch) c1 (WakeWriteLoop_resumes send_ok) Hcore)
      as (c' & E & ? & ? & ? & ? & Hf & _); [done|simpl; lia|].
    exists c'. split; [exact E|]. split; [by apply (conn_inv_frame c1)|by apply (frame_evolves c)]. }
  rewrite add64_small by (destruct Hcore as (Hcfg&_&_&_&?&_&?&?&_); destruct Hcfg as (_&?&_); lia).
  destruct (sent_more result c batch offset Hcore Hc Hpos (proj1 Hoff) Hacc) as [Hcore2 Hev2].
  set (c2 := add_sent _ _) in *.
  pose proof (substr_split batch offset result ltac:(lia) ltac:(lia)) as Hsplit.
  rewrite (is_closed_false c2) by done. simpl negb. rewrite andb_true_l.
  destruct (Z.ltb_spec (offset + result) (len batch)) as [Hmore|Hall].
  - destruct send_ok.
    + eexists. split; [reflexivity|]. split; [|exact Hev2].
      unfold conn_inv. split; [exact Hcore2|]. split; [|split; [|split; [|done]]].
      * intros _. unfold unsent, batch_in_flight. simpl. split; [lia|].
        rewrite Hacc, Hsplit, <- !app_assoc. done.
      * unfold write_ok. simpl. split; [done|lia].
      * intros Hdr [_ Hp0]. simpl in *. lia.
    + destruct (release_and_close _ (len batch) c2 (WakeWriteLoop_resumes false) Hcore2)
        as (c' & E & ? & ? & ? & ? & Hf & _); [done|simpl; lia|].
      exists c'. split; [exact E|]. split; [by apply (conn_inv_frame c2)|].
      eapply evolves_trans; [exact Hev2|]. by apply frame_evolves.
  - destruct (ReleaseWriteBytes_spec (len batch) c2 Hcore2) as (a & -> & Hcore3); [simpl; lia|].
    cbn [mbind option_bind]. unfold write_fuel. set (c3 := set_pending _ _ _) in *.
    destruct (WriteLoop_run_inner (2 * length (write_queue_ c3)) send_ok c3)
      as (c' & -> & ? & ? & ? & ? & Hf); try done.
    + intros _. unfold c3, c2, unsent, batch_in_flight. simpl. split; [lia|].
      rewrite Hacc, Hsplit, (drop_ge batch) by (unfold len in *; lia). by rewrite ?app_nil_r, <- app_assoc.
    + exists c'. split; [done|]. split; [by apply (conn_inv_frame c3)|].
      eapply evolves_trans; [exact Hev2|]. apply (frame_evolves c3). exact Hf.
Qed.

(** ** Receiving *)
Section Receiving.
Context {W : Wire}.

(** A handler's effect inside the read coroutine. *)
Definition mid_step (c c' : ServerConnection) : Prop :=
  mid c' /\ evolves c c' /\ read_point_ c' = read_point_ c.

Lemma mid_step_trans c1 c2 c3 : mid_step c1 c2 -> mid_step c2 c3 -> mid_step c1 c3.
Proof.
  intros (?&?&?) (?&?&?). unfold mid_step. split_and!; [done|by eapply evolves_trans|congruence].
Qed.

Lemma frame_mid_step c c' : mid c' -> frame c c' -> mid_step c c'.
Proof. intros ? Hf. unfold mid_step. split_and!; [done|by apply frame_evolves|by apply Hf]. Qed.

Lemma Reject_mid send_ok message request c :
  mid c -> is_u 64 (req_request_id_ request) ->
  exists ok c', RejectForBackpressure send_ok message request c = Some (ok, c') /\
    mid_step c c' /\ (ok = false -> state_ c' = Closed).
Proof.
  intros Hmid Hid. unfold RejectForBackpressure.
  set (response := MkResponseEnvelope _ _ _).
  rewrite EncodeResponse_spec by done. cbv zeta. cbn [mbind option_bind].
  case_bool_decide as Hfits.
  - change (StatusOr_ok (StatusOr_value ?x)) with true. simpl negb. cbv iota.
    cbn [StatusOr_get so_value_ StatusOr_value mbind option_bind].
    set (data := frame_bytes _ _ _ _).
    pose proof (len_frame_bytes MessageType_Response (resp_request_id_ response)
      (EncodeResponseMetadata response) (resp_payload_ response)) as Hlen. fold data in Hlen.
    destruct Hfits as (?&_&?&_). unfold UINT32_MAX in *.
    pose proof (len_nonneg (EncodeResponseMetadata response)).
    pose proof (len_nonneg (resp_payload_ response)).
    clearbody data.
    destruct (EnqueueWrite_mid send_ok data c Hmid) as (ok & c' & -> & Hm & Hok).
    { intros ->. rewrite len_nil in Hlen. lia. }
    { lia. }
    exists ok, c'. split; [done|]. destruct ok.
    + destruct Hok as (Hf & Hc & _). split; [|done]. unfold mid_step. split_and!; [done| |apply Hf].
      by eapply add_accepted_evolves.
    + destruct Hok as [Hf ?]. split; [by apply frame_mid_step|done].
  - destruct (Validate_unfit (EncodeResponseMetadata response) (resp_payload_ response)
      (conn_protocol_limits_ (conn_config_ c))) as [text Hst]; [done|]. rewrite Hst.
    change (StatusOr_ok (MkStatusOr (status ResourceExhausted text) None)) with false.
    simpl negb. cbv iota.
    destruct (Close_mid send_ok c Hmid) as (c' & -> & Hm & Hf & Hcl). cbn [mbind option_bind].
    exists false, c'. split; [done|]. split; [by apply frame_mid_step|done].
Qed.

Lemma RejectAll_mid send_ok message requests c :
  mid c -> Forall (fun r => is_u 64 (req_request_id_ r)) requests ->
  exists ok c', RejectAll send_ok message requests c = Some (ok, c') /\
    mid_step c c' /\ (ok = false -> state_ c' = Closed).
Proof.
  intros Hmid Hids. revert c Hmid. induction Hids as [|r rs Hr _ IH]; intros c Hmid; simpl.
  - exists true, c. split_and!; try done. apply frame_mid_step; [done|apply frame_refl].
  - destruct (Reject_mid send_ok message r c Hmid Hr) as (ok & c1 & -> & Hs1 & Hf1).
    cbn [mbind option_bind]. destruct ok; [|by exists false, c1].
    destruct (IH c1 (proj1 Hs1)) as (ok & c2 & -> & Hs2 & Hf2).
    exists ok, c2. split_and!; try done. by eapply mid_step_trans.
Qed.

Lemma HandleFeedResult_mid send_ok answer feed c :
  mid c -> state_ c = Active -> batch_wf (requests_ feed) ->
  Forall (fun r => is_u 64 (req_request_id_ r)) (batch_list (requests_ feed)) ->
  exists ok c', HandleFeedResult send_ok answer feed c = Some (ok, c') /\
    mid_step c c' /\ (ok = false -> state_ c' <> Active).
Proof.
  intros Hmid Hact Hbwf Hids. unfold HandleFeedResult. destruct (feed_closed_ feed).
  { destruct (Close_mid send_ok c Hmid) as (c' & -> & Hm & Hf & Hcl). cbn [mbind option_bind].
    exists false, c'. split; [done|]. split; [by apply frame_mid_step|congruence]. }
  assert (RequestEnvelopeBatch_size (requests_ feed) = len (batch_list (requests_ feed))) as Hsz.
  { unfold RequestEnvelopeBatch_size, batch_list, batch_wf in *.
    destruct (first_request_ (requests_ feed)); [by rewrite len_cons|lia]. }
  rewrite Hsz. set (rs := batch_list (requests_ feed)) in *.
  destruct (Z.eqb_spec (len rs) 0) as [E0|E0].
  { exists true, c. split_and!; try done. apply frame_mid_step; [done|apply frame_refl]. }
  pose proof Hmid as (Hcore & Ha & Hw & Hs). pose proof Hcore as (Hcfg&Hinf&_).
  pose proof Hcfg as (?&_&_). pose proof (len_nonneg rs).
  rewrite (proj2 (Z.leb_le _ _)) by lia. simpl negb. cbv iota.
  rewrite sub64_small by lia.
  destruct (Z.ltb_spec (max_inflight_ (c_limits c) - inflight_requests_ c) (len rs)) as [Hlt|Hge].
  { destruct (RejectAll_mid send_ok (bs "server per-connection in-flight limit exceeded") rs c
      Hmid Hids) as (ok & c' & -> & ? & Hf). exists ok, c'. split_and!; try done.
    intros Hok. by rewrite (Hf Hok). }
  unfold SubmitRequestBatch. rewrite bool_decide_false by (intros ->; by rewrite len_nil in E0).
  destruct (accepted answer); simpl negb; cbv iota.
  - eexists true, _. split; [reflexivity|]. rewrite add64_small by lia. split; [|done].
    unfold mid_step. split_and!.
    + apply set_inflight_mid; [done|simpl; lia].
    + unfold evolves. simpl. split_and!; try done; [by apply prefix_app_r|congruence|congruence].
    + done.
  - destruct (accepting_submissions answer); simpl negb; cbv iota.
    + destruct (RejectAll_mid send_ok (bs "server global pending job limit exceeded") rs c
        Hmid Hids) as (ok & c' & -> & ? & Hf). exists ok, c'. split_and!; try done.
      intros Hok. by rewrite (Hf Hok).
    + destruct (BeginDrain_mid send_ok c Hmid) as (c' & -> & Hm & Hev & _ & _ & Hst & Hrp).
      cbn [mbind option_bind]. exists false, c'. unfold mid_step. split_and!; done.
Qed.

(** Leaving the read loop. *)
Lemma finish_read send_ok c :
  mid c -> state_ c <> Active ->
  exists c', (c0 ← TryFinishDrain send_ok c; Some (set_read ReadDone c0)) = Some c' /\
    conn_inv c' /\ evolves c c'.
Proof.
  intros Hmid Hst. destruct (TryFinishDrain_mid send_ok c Hmid) as (c1 & -> & Hm & Hf & Hd).
  cbn [mbind option_bind]. eexists. split; [reflexivity|]. split.
  - apply conn_inv_intro; [exact Hm|exact Hd|]. unfold read_ok. simpl.
    destruct Hf as (_&_&_&_&_&_&_&[E|E]); congruence.
  - apply (frame_evolves c) in Hf. exact Hf.
Qed.

Lemma ReadLoop_next_inv send_ok recv_ok c :
  mid c -> exists c', ReadLoop_next send_ok recv_ok c = Some c' /\ conn_inv c' /\ evolves c c'.
Proof.
  intros Hmid. unfold ReadLoop_next. destruct (decide (state_ c = Active)) as [Ha|Ha].
  - rewrite bool_decide_true by done. destruct recv_ok.
    + eexists. split; [reflexivity|]. split; [|exact (evolves_refl c)].
      apply conn_inv_intro; [exact Hmid| |done]. intros H. simpl in H. congruence.
    + destruct (Close_mid send_ok c Hmid) as (c1 & -> & Hm & Hf & Hcl). cbn [mbind option_bind].
      destruct (finish_read send_ok c1 Hm) as (c' & E & ? & ?); [congruence|].
      exists c'. split_and!; try done. eapply evolves_trans; [by apply frame_evolves|done].
  - rewrite bool_decide_false by done. by apply finish_read.
Qed.

Lemma FeedBytes_returns capacity st data :
  stream_wf st -> stream_held st + len data < 2 ^ 64 ->
  exists st' r, FeedBytes capacity st data = Some (st', r) /\ stream_wf st' /\
    protocol_limits_ st' = protocol_limits_ st /\ batch_wf (requests_ r) /\
    Forall (fun q => is_u 64 (req_request_id_ q)) (batch_list (requests_ r)).
Proof.
  intros Hwf Hsz. destruct (stream_closed_ st) eqn:Hc.
  - rewrite FeedBytes_closed by done. eexists _, _. split; [reflexivity|].
    by split_and!.
  - destruct (FeedBytes_open capacity st data Hwf Hc Hsz)
      as (st' & r & -> & ? & ? & _ & _ & ? & HP).
    exists st', r. split_and!; try done. by eapply Parses_ids.
Qed.

Lemma OnRecvComplete_inv send_ok recv_ok answer result c :
  conn_inv c -> read_point_ c = ReadOnRecv ->
  (forall capacity data, result = RecvBytes capacity data ->
     stream_held (frame_stream_ c) + len data < 2 ^ 64) ->
  exists c', OnRecvComplete send_ok recv_ok answer result c = Some c' /\ conn_inv c' /\
    evolves c c'.
Proof.
  intros Hinv Hrp Hsz. pose proof (conn_inv_mid c Hinv) as Hmid.
  unfold OnRecvComplete. rewrite Hrp. set (c1 := set_read ReadRunning c).
  assert (mid c1) as Hmid1 by exact Hmid.
  assert (evolves c c1) as Hev1 by exact (evolves_refl c).
  destruct (decide (state_ c = Active)) as [Ha|Ha].
  2: { rewrite (bool_decide_false (state_ c1 = Active)) by done. simpl negb. cbv iota.
       destruct (finish_read send_ok c1 Hmid1 Ha) as (c' & E & ? & ?). exists c'. done. }
  rewrite (bool_decide_true (state_ c1 = Active)) by done. simpl negb. cbv iota.
  destruct result as [| |capacity data].
  - destruct (Close_mid send_ok c1 Hmid1) as (c2 & -> & Hm & Hf & Hcl). cbn [mbind option_bind].
    destruct (finish_read send_ok c2 Hm) as (c' & E & ? & ?); [congruence|].
    exists c'. split_and!; try done. eapply evolves_trans; [|done]. by apply (frame_evolves c1).
  - destruct Hmid1 as (Hcore & Hacc & Hw & Hs).
    destruct (finish_read send_ok (set_state Draining c1)) as (c' & E & Hi & Hev); [|done|].
    { unfold mid. split_and!; [| | |done].
      - destruct Hcore as (?&?&?&?&?&?&?&?&?&Hcl&Hop). destruct Hop; [simpl; congruence|].
        unfold core. simpl in *. split_and!; try done; lia.
      - intros _. apply Hacc. simpl. congruence.
      - unfold write_ok in *. simpl in *. destruct (write_point_ c); try done.
        + by destruct Hw as (?&?&?).
        + destruct Hw. congruence. }
    exists c'. split_and!; try done. eapply evolves_trans; [|exact Hev].
    unfold evolves. simpl. split_and!; try done; congruence.
  - destruct Hmid1 as (Hcore & Hacc & Hw & Hs). pose proof Hs as [Hswf Hslim].
    destruct (FeedBytes_returns capacity (frame_stream_ c1) data Hswf
      (Hsz capacity data eq_refl)) as (st' & r & -> & Hswf' & Hlim' & Hbwf & Hids).
    cbn [mbind option_bind].
    destruct (HandleFeedResult_mid send_ok answer r (set_stream st' c1))
      as (ok & c2 & -> & (Hm & Hev & _) & Hok); try done.
    { unfold mid. split_and!; try done. split; [done|]. simpl in *. congruence. }
    cbn [mbind option_bind].
    assert (evolves c c2) as Hev2 by exact Hev.
    destruct ok; simpl negb; cbv iota.
    + destruct (ReadLoop_next_inv send_ok recv_ok c2 Hm) as (c' & -> & ? & ?).
      exists c'. split_and!; try done. by eapply evolves_trans.
    + destruct (finish_read send_ok c2 Hm (Hok eq_refl)) as (c' & -> & ? & ?).
      exists c'. split_and!; try done. by eapply evolves_trans.
Qed.

Lemma Start_inv send_ok recv_ok config a :
  config_ok config -> 0 <= rest -> 0 <= live ->
  rest + max_write_queue_bytes_ (limits_ config) < 2 ^ 64 ->
  loop_pending_write_bytes_ a = rest -> live_connections_ a = live + 1 ->
  exists c', ServerConnection_Start send_ok recv_ok (ServerConnection_new config a) = Some c' /\
    conn_inv c' /\ conn_config_ c' = config.
Proof.
  intros Hcfg Hr Hl Hmax Ha Hlive. unfold ServerConnection_Start.
  set (c0 := set_write false WriteRunning (ServerConnection_new config a)).
  assert (core c0) as Hcore.
  { destruct Hcfg as (?&?&?). unfold core. simpl. rewrite Ha.
    split_and!; try done; try lia. }
  destruct (WriteLoop_run_outer 3 send_ok c0 Hcore)
    as (c1 & E & Hcore1 & Ha1 & Hw1 & _ & Hf1); try done.
  change (write_fuel (ServerConnection_new config a)) with 4%nat. rewrite E.
  cbn [mbind option_bind].
  destruct (ReadLoop_next_inv send_ok recv_ok (set_read ReadRunning c1)) as (c' & -> & ? & Hev).
  { unfold mid. split_and!; try done.
    refine (frame_stream_ok c0 c1 Hf1 _). split; [|done]. split_and!; [done|done|by right]. }
  exists c'. split_and!; try done. destruct Hev as (-> & _). simpl. by destruct Hf1 as (-> & _).
Qed.

End Receiving.

End Invariant.

(** ** Runs of a connection *)
Section Runs.
Context {W : Wire}.

Inductive event :=
  | EvRecv (answer : pool_answer) (result : recv_result)
  | EvSend (result : Z)
  | EvResponses (alloc_ok : bool) (data : bytes) (released : Z)
  | EvEncodeFailure (released : Z)
  | EvBeginDrain
  | EvClose.

Definition handle (send_ok recv_ok : bool) (e : event) (c : ServerConnection)
    : option ServerConnection :=
  match e with
  | EvRecv answer result => OnRecvComplete send_ok recv_ok answer result c
  | EvSend result => OnSendComplete send_ok result c
  | EvResponses alloc_ok data released => OnResponsesEncoded send_ok alloc_ok data released c
  | EvEncodeFailure released => OnResponseEncodeFailure send_ok released c
  | EvBeginDrain => BeginDrain send_ok c
  | EvClose => Close send_ok c
  end.

(** What the environment may do: complete the pending receive (with data that
    fits memory), complete the pending send with at most the bytes asked for,
    return results for requests in flight, ask for drain or close. *)
Definition enabled (e : event) (c : ServerConnection) : Prop :=
  match e with
  | EvRecv _ result =>
      read_point_ c = ReadOnRecv /\
      match result with
      | RecvBytes _ data => stream_held (frame_stream_ c) + len data < 2 ^ 64
      | _ => True
      end
  | EvSend result =>
      match write_point_ c with
      | WriteOnSend batch offset => result <= len batch - offset
      | _ => False
      end
  | EvResponses _ data released =>
      data <> [] /\ len data < 2 ^ 64 /\ 0 <= released <= inflight_requests_ c
  | EvEncodeFailure released => 0 <= released <= inflight_requests_ c
  | EvBeginDrain | EvClose => True
  end.

Lemma handle_inv rest live send_ok recv_ok e c :
  conn_inv rest live c -> enabled e c ->
  exists c', handle send_ok recv_ok e c = Some c' /\ conn_inv rest live c' /\ evolves c c'.
Proof.
  intros Hinv He. destruct e as [answer result|result|alloc_ok data n|n| |]; simpl in *.
  - destruct He as [Hrp Hsz]. apply OnRecvComplete_inv; try done.
    intros capacity data ->. done.
  - destruct (write_point_ c) as [| | |batch offset|] eqn:Hp; try done.
    by eapply OnSendComplete_inv.
  - destruct He as (?&?&?). by apply OnResponsesEncoded_inv.
  - destruct (OnResponseEncodeFailure_inv rest live send_ok n c Hinv He) as (c' & ? & ? & ? & _).
    eauto.
  - destruct (BeginDrain_inv rest live send_ok c Hinv) as (c' & ? & ? & ? & _). eauto.
  - destruct (Close_inv rest live send_ok c Hinv) as (c' & ? & ? & ? & _). eauto.
Qed.

Definition conn_step (c c' : ServerConnection) : Prop :=
  exists send_ok recv_ok e, enabled e c /\ handle send_ok recv_ok e c = Some c'.

(** From construction and [Start] in a loop whose other connections have [rest]
    pending bytes and number [live]. *)
Definition conn_reachable (rest live : Z) (config : ServerConnectionConfig)
    (c : ServerConnection) : Prop :=
  config_ok config /\ 0 <= rest /\ 0 <= live /\
  rest + max_write_queue_bytes_ (limits_ config) < 2 ^ 64 /\
  exists a send_ok recv_ok c0,
    loop_pending_write_bytes_ a = rest /\ live_connections_ a = live + 1 /\
    ServerConnection_Start send_ok recv_ok (ServerConnection_new config a) = Some c0 /\
    rtc conn_step c0 c.

Lemma rtc_conn_inv rest live c c' :
  conn_inv rest live c -> rtc conn_step c c' -> conn_inv rest live c' /\ evolves c c'.
Proof.
  intros Hinv Hr. induction Hr as [c|c c1 c2 (send_ok & recv_ok & e & He & Hh) _ IH];
    [split; [done|apply evolves_refl]|].
  destruct (handle_inv rest live send_ok recv_ok e c Hinv He) as (c1' & E & Hinv1 & Hev).
  rewrite Hh in E. injection E as <-. destruct (IH Hinv1) as [? ?].
  split; [done|]. by eapply evolves_trans.
Qed.

Lemma conn_reachable_inv rest live config c :
  conn_reachable rest live config c -> conn_inv rest live c.
Proof.
  intros (Hcfg & Hr & Hl & Hm & a & so & ro & c0 & Ha & Hlive & Hs & Hrtc).
  destruct (Start_inv rest live so ro config a Hcfg Hr Hl Hm Ha Hlive) as (c0' & E & Hinv & _).
  rewrite Hs in E. injection E as <-. by eapply rtc_conn_inv.
Qed.

End Runs.

(** ** Properties *)

(** C6: a connection is memory-safe and bounded under every sequence of
    events.  None of its assertions ever fails, in any event the environment
    can produce; at most [max_inflight_] requests are admitted at a time; at
    most [max_write_queue_bytes_] response bytes wait, and that counter is
    exactly the queued bytes plus the batch being sent; the owning loop's
    counter stays the sum over its connections. *)
Theorem ServerConnection_bounded (W : Wire) rest live config c send_ok recv_ok e :
  conn_reachable rest live config c ->
  0 <= inflight_requests_ c <= max_inflight_ (limits_ (conn_config_ c)) /\
  0 <= pending_write_bytes_ c <= max_write_queue_bytes_ (limits_ (conn_config_ c)) /\
  loop_pending_write_bytes_ (owner_acct_ c) = rest + pending_write_bytes_ c /\
  (state_ c <> Closed ->
     pending_write_bytes_ c = zsum len (write_queue_ c) + batch_in_flight c) /\
  (enabled e c -> is_Some (handle send_ok recv_ok e c)).
Proof.
  intros Hr. pose proof (conn_reachable_inv _ _ _ _ Hr) as ((_&Hi&_&_&_&_&_&Hp&Hacct&_) & Ha & _).
  split_and!; try lia; try done.
  - intros Hc. by destruct (Ha Hc).
  - intros He. destruct (handle_inv rest live send_ok recv_ok e c
      (conn_reachable_inv _ _ _ _ Hr) He) as (c' & -> & _). eauto.
Qed.

(** C14: responses are delivered in order, without loss or duplication, while
    the connection is open: what the kernel has taken is always a prefix of
    the accepted response bytes, the remainder is exactly the unsent part of
    the current batch followed by the queue, and when the write coroutine
    waits for work everything accepted has been sent.  A non-empty queue is
    never left without a send in progress (no lost wake-up). *)
Theorem ServerConnection_delivery (W : Wire) rest live config c :
  conn_reachable rest live config c ->
  sent_bytes c `prefix_of` accepted_bytes c /\
  (state_ c <> Closed -> accepted_bytes c = sent_bytes c ++ unsent c) /\
  (write_point_ c = WriteOnQueue -> sent_bytes c = accepted_bytes c) /\
  (state_ c <> Closed -> write_queue_ c <> [] ->
     exists batch offset, write_point_ c = WriteOnSend batch offset /\ 0 <= offset < len batch).
Proof.
  intros Hr. pose proof (conn_reachable_inv _ _ _ _ Hr) as ((_&_&_&Hpre&_) & Ha & Hw & _).
  split_and!; [done|..].
  - intros Hc. by apply Ha.
  - intros Hp. unfold write_ok in Hw. rewrite Hp in Hw. destruct Hw as (_ & Hc & Hq).
    destruct (Ha Hc) as [_ ->]. unfold unsent. rewrite Hp, Hq. simpl. by rewrite app_nil_r.
  - intros Hc Hq. unfold write_ok in Hw. destruct (write_point_ c) as [| | |batch offset|];
      try done.
    + by destruct Hw as (_&_&?).
    + exists batch, offset. by destruct Hw.
    + by destruct Hw.
Qed.

(** C23: lifecycle.  [Closed] is terminal and releases everything once: the
    socket is closed, its operations are cancelled, the pending bytes and the
    live count are given back, and nothing is accepted, sent or submitted any
    more; a draining connection takes no new requests and never lingers: with
    no request in flight and no byte pending it is closed. *)
Theorem ServerConnection_lifecycle (W : Wire) rest live config c c' :
  conn_reachable rest live config c -> rtc conn_step c c' ->
  (state_ c = Closed ->
     state_ c' = Closed /\ accepted_bytes c' = accepted_bytes c /\ sent_bytes c' = sent_bytes c /\
     submitted_batches c' = submitted_batches c) /\
  (state_ c = Draining -> state_ c' <> Active /\ submitted_batches c' = submitted_batches c) /\
  (state_ c' = Closed ->
     socket_open c' = false /\ fd_cancelled c' = true /\ write_queue_ c' = [] /\
     loop_pending_write_bytes_ (owner_acct_ c') = rest /\
     live_connections_ (owner_acct_ c') = live) /\
  (state_ c' <> Closed -> socket_open c' = true /\ live_connections_ (owner_acct_ c') = live + 1) /\
  (state_ c' = Draining -> ~ (inflight_requests_ c' = 0 /\ pending_write_bytes_ c' = 0)).
Proof.
  intros Hr Hrtc. pose proof (conn_reachable_inv _ _ _ _ Hr) as Hinv.
  destruct (rtc_conn_inv rest live c c' Hinv Hrtc) as [Hinv' (_&_&_&_&Hcl&Hdr)].
  destruct Hinv' as ((_&_&_&_&_&_&_&_&Hacct&Hclosed&Hopen) & _ & _ & Hd & _).
  split_and!; try done. intros Hc. destruct (Hclosed Hc) as (Hp&?&?&?&?).
  split_and!; try done. lia.
Qed.

(** Requests dispatched one after the other, the world threaded through. *)
Inductive dispatched {World} (registry : ServiceRegistry World)
    : World -> list RequestEnvelope -> World -> list ResponseEnvelope -> Prop :=
  | dispatched_nil w : dispatched registry w [] w []
  | dispatched_cons w request w1 response requests w2 responses :
      ServiceRegistry_Dispatch registry w request = Some (w1, response) ->
      dispatched registry w1 requests w2 responses ->
      dispatched registry w (request :: requests) w2 (response :: responses).

Lemma execute_loop_spec {W : Wire} {World} (registry : ServiceRegistry World) limits requests :
  forall w acc n w1 bytes1 n1,
    execute_loop registry limits w acc n requests = Some (w1, bytes1, n1) ->
    exists handled rest responses frames w0,
      requests = handled ++ rest /\ dispatched registry w handled w0 responses /\
      Forall2 (fun response frame => exists r,
        FrameCodec_EncodeResponse limits response = Some r /\ so_value_ r = Some frame)
        responses frames /\
      bytes1 = acc ++ concat frames /\ n1 = n + len handled.
Proof.
  induction requests as [|q requests IH]; intros w acc n w1 b1 n1 H; simpl in H.
  - injection H as <- <- <-. exists [], [], [], [], w. rewrite len_nil.
    split_and!; [done|apply dispatched_nil|by apply Forall2_nil|simpl; by rewrite app_nil_r|lia].
  - destruct (ServiceRegistry_Dispatch registry w q) as [[w2 resp]|] eqn:Ed; [|done].
    cbn [mbind option_bind] in H.
    destruct (FrameCodec_EncodeResponse limits resp) as [enc|] eqn:Ee; [|done].
    cbn [mbind option_bind] in H. destruct (StatusOr_ok enc); simpl in H.
    + destruct (StatusOr_get enc) as [data|] eqn:Eg; [|done]. cbn [mbind option_bind] in H.
      destruct (IH _ _ _ _ _ _ H) as (handled & rest & resps & frames & w0 & -> & Hd & Hf & -> & ->).
      exists (q :: handled), rest, (resp :: resps), (data :: frames), w0.
      simpl. rewrite app_assoc, len_cons. split_and!; [done| | |done|lia].
      * by econstructor.
      * constructor; [|done]. exists enc. done.
    + injection H as <- <- <-. exists [], (q :: requests), [], [], w.
      rewrite len_nil.
      split_and!; [done|apply dispatched_nil|by apply Forall2_nil|simpl; by rewrite app_nil_r|lia].
Qed.

(** a batch executed on a worker releases exactly its requests.  The posted
    results release [request_count] in-flight slots in total, whatever the
    handlers do; the posted bytes are the encoded responses of the requests
    dispatched in order; and a failed result is posted exactly when a request
    was left without a response. *)
Theorem ExecuteRequestBatch_releases_all (W : Wire) World id (registry : ServiceRegistry World)
    limits w requests w' results :
  len requests < 2 ^ 64 ->
  ExecuteRequestBatchOnWorker id registry limits w requests = Some (w', results) ->
  zsum released_requests_ results = len requests /\
  Forall (fun r => result_connection_id_ r = id /\ 0 < released_requests_ r) results /\
  exists handled rest responses frames w0,
    requests = handled ++ rest /\ dispatched registry w handled w0 responses /\
    Forall2 (fun response frame => exists r,
      FrameCodec_EncodeResponse limits response = Some r /\ so_value_ r = Some frame)
      responses frames /\
    concat (map response_bytes_ results) = concat frames /\
    (rest <> [] <-> exists r, r ∈ results /\ encode_failed_ r = true).
Proof.
  intros Hlen. unfold ExecuteRequestBatchOnWorker.
  destruct (execute_loop registry limits w [] 0 requests) as [[[w1 b1] n1]|] eqn:E; [|done].
  cbn [mbind option_bind]. intros [= <- <-].
  destruct (execute_loop_spec _ _ _ _ _ _ _ _ _ E)
    as (handled & rest & resps & frames & w0 & -> & Hd & Hf & -> & ->). simpl app.
  rewrite len_app in *. pose proof (len_nonneg handled). pose proof (len_nonneg rest).
  rewrite sub64_small by lia. rewrite Z.add_0_l.
  assert (rest <> [] <-> 0 < len rest) as Hrest.
  { destruct rest as [|x l]; [split; [done|]; unfold len; simpl; lia|].
    rewrite len_cons. pose proof (len_nonneg l). split; [lia|done]. }
  assert (len handled = 0 -> concat frames = []) as Hnil.
  { intros ->%len_0_nil. inversion Hd; subst. by inversion Hf; subst. }
  match goal with |- context [zsum _ ?l] => set (results := l) end.
  assert (zsum released_requests_ results = len handled + len rest /\
    Forall (fun r => result_connection_id_ r = id /\ 0 < released_requests_ r) results /\
    concat (map response_bytes_ results) = concat frames /\
    (0 < len rest <-> exists r, r ∈ results /\ encode_failed_ r = true)) as (H1 & H2 & H3 & H4).
  { subst results. destruct (Z.ltb_spec 0 (len handled));
      destruct (Z.ltb_spec (len handled) (len handled + len rest)); simpl;
      (split; [unfold zsum; simpl; lia|]); (split; [repeat constructor; simpl; lia|]);
      (split; [rewrite ?app_nil_r; (done || rewrite Hnil by lia; done)|]).
    - split; [|lia]. intros _. exists (MkWorkerResult id [] (len handled + len rest - len handled) true).
      split; [|done]. set_solver.
    - split; [lia|]. intros (r & Hr & Hfail). apply list_elem_of_singleton in Hr as ->. done.
    - split; [|lia]. intros _. exists (MkWorkerResult id [] (len handled + len rest - len handled) true).
      split; [|done]. set_solver.
    - split; [lia|]. intros (r & Hr & Hfail). set_solver. }
  split_and!; [done|done|]. exists handled, rest, resps, frames, w0.
  rewrite Hrest. split_and!; done.
Qed.

(** *** Witnesses *)
Section ConnectionWitnesses.
Import ExampleWire.

Definition example_conn_config : ServerConnectionConfig :=
  MkServerConnectionConfig (MkBackpressure 4 1000) ProtocolLimits_default.

Definition example_acct : LoopAccounting := MkLoopAccounting 0 0 1.

(** A request arrives, is admitted, answered, and the answer partly sent. *)
Definition example_conn : option ServerConnection :=
  c ← ServerConnection_Start true true (ServerConnection_new example_conn_config example_acct);
  c ← handle true true (EvRecv (MkPoolAnswer true true) (RecvBytes 64 echo_frame)) c;
  c ← handle true true (EvResponses true (bs "response") 1) c;
  handle true true (EvSend 3) c.

Definition example_conn_state : ServerConnection :=
  match example_conn with
  | Some c => c
  | None => ServerConnection_new example_conn_config example_acct
  end.

Lemma example_conn_reachable : conn_reachable 0 0 example_conn_config example_conn_state.
Proof.
  split; [repeat (split; try done)|]. split; [done|]. split; [done|]. split; [done|].
  eexists example_acct, true, true, _. split; [done|]. split; [done|].
  split; [vm_compute; reflexivity|].
  eapply rtc_l.
  { exists true, true, (EvRecv (MkPoolAnswer true true) (RecvBytes 64 echo_frame)).
    split; [split; [reflexivity|vm_compute; reflexivity]|vm_compute; reflexivity]. }
  eapply rtc_l.
  { exists true, true, (EvResponses true (bs "response") 1).
    split; [split; [discriminate|split; [reflexivity|split; discriminate]]|
      vm_compute; reflexivity]. }
  eapply rtc_l.
  { exists true, true, (EvSend 3). split; [vm_compute; discriminate|vm_compute; reflexivity]. }
  match goal with |- rtc _ ?x _ => assert (x = example_conn_state) as -> by (vm_compute; reflexivity) end.
  apply rtc_refl.
Qed.

Lemma ServerConnection_bounded_witness :
  0 <= pending_write_bytes_ example_conn_state <= 1000.
Proof.
  exact (proj1 (proj2 (ServerConnection_bounded wire 0 0 example_conn_config example_conn_state
    true true EvClose example_conn_reachable))).
Defined.

Lemma ServerConnection_delivery_witness :
  sent_bytes example_conn_state `prefix_of` accepted_bytes example_conn_state.
Proof.
  exact (proj1 (ServerConnection_delivery wire 0 0 example_conn_config example_conn_state
    example_conn_reachable)).
Defined.

Lemma ServerConnection_lifecycle_witness :
  socket_open example_conn_state = true.
Proof.
  destruct (ServerConnection_lifecycle wire 0 0 example_conn_config example_conn_state
    example_conn_state example_conn_reachable (rtc_refl _ _)) as (_ & _ & _ & H & _).
  apply H. vm_compute. discriminate.
Defined.

(** The batch of two requests to an unknown service. *)
Definition example_results : list WorkerResult :=
  match ExecuteRequestBatchOnWorker 1 example_registry ProtocolLimits_default O
          [echo_request; echo_request] with
  | Some (_, results) => results | None => []
  end.

Lemma ExecuteRequestBatch_releases_all_witness : zsum released_requests_ example_results = 2.
Proof.
  refine (proj1 (ExecuteRequestBatch_releases_all wire nat 1 example_registry
    ProtocolLimits_default O [echo_request; echo_request] O example_results eq_refl _)).
  vm_compute. reflexivity.
Defined.

End ConnectionWitnesses.
