(* ===== verification/Socket.v ===== *)
(** * The blocking socket wrapper

    Models [src/io/socket.{h,cpp}] and [src/io/system_error.cpp].  A method of
    [Socket] is a computation in the monad [Sys]: it makes system calls, whose
    results are read from a script (the behaviour of the kernel and of the
    peer, arbitrary in every theorem), and records them in a log.  A call for
    which the script has no result blocks.

    The theorems show that no method uses a descriptor it does not own, leaks
    one or closes one twice, and that [WriteAll] hands the whole string to the
    kernel in order or reports why not. *)

From S2P Require Import Prelude Status FrameHeader.

Local Open Scope Z_scope.

(** ** Errors *)

Inductive SocketErrorCode :=
  | InvalidAddress | CreateFailed | BindFailed | ListenFailed | AcceptFailed | ConnectFailed
  | ConnectTimeout | ReadFailed | ReadTimeout | WriteFailed | WriteTimeout | ConfigureFailed
  | ShutdownFailed | PeerClosed.

Definition ToStatusCode (code : SocketErrorCode) : StatusCode :=
  match code with
  | ConnectTimeout | ReadTimeout | WriteTimeout => DeadlineExceeded
  | InvalidAddress => InvalidArgument
  | CreateFailed | BindFailed | ListenFailed | AcceptFailed | ConnectFailed | ReadFailed
  | WriteFailed | ConfigureFailed | ShutdownFailed | PeerClosed => Unavailable
  end.

Definition EINTR : Z := 4.
Definition EAGAIN : Z := 11.
Definition EWOULDBLOCK : Z := 11.
Definition EINPROGRESS : Z := 115.
Definition O_NONBLOCK : Z := 2048.

(** ** System calls *)

(** The value of [struct sockaddr_in]: address and port in network order. *)
Record sockaddr_in := MkSockaddr { sin_addr : Z; sin_port : Z }.

(** [struct timeval] *)
Record timeval := MkTimeval { tv_sec : Z; tv_usec : Z }.

Inductive sockopt := SO_RCVTIMEO | SO_SNDTIMEO.

Inductive shut := SHUT_WR | SHUT_RDWR.

Inductive syscall :=
  | sys_socket
  | sys_bind (fd : Z) (addr : sockaddr_in)
  | sys_listen (fd : Z) (backlog : Z)
  | sys_accept (fd : Z)
  | sys_connect (fd : Z) (addr : sockaddr_in)
  | sys_getsockname (fd : Z)
  | sys_getfl (fd : Z)
  | sys_setfl (fd : Z) (flags : Z)
  | sys_poll (fd : Z) (timeout : Z)
  | sys_get_error (fd : Z)
  | sys_reuseaddr (fd : Z)
  | sys_set_timeout (fd : Z) (o : sockopt) (tv : timeval)
  | sys_recv (fd : Z) (n : Z)
  | sys_send (fd : Z) (data : bytes)
  | sys_shutdown (fd : Z) (how : shut)
  | sys_close (fd : Z).

(** The return value, [errno], and what the call writes through its pointer
    arguments: an integer (socket error, port) or received bytes. *)
Record sysret := MkRet { ret : Z; errno : Z; out : Z; data : bytes }.

Record world := MkWorld { script_ : list sysret; calls_ : list (syscall * option sysret) }.

Inductive outcome (A : Type) :=
  | Returns (a : A) (w : world)
  | Blocks (w : world)
  | Terminates.
Arguments Returns {A} _ _.
Arguments Blocks {A} _.
Arguments Terminates {A}.

Definition Sys (A : Type) := world -> outcome A.

#[global] Instance Sys_ret : MRet Sys := fun A a w => Returns a w.

#[global] Instance Sys_bind : MBind Sys := fun A B k m w =>
  match m w with
  | Returns a w => k a w
  | Blocks w => Blocks w
  | Terminates => Terminates
  end.

(** A call whose result the code reads. *)
Definition sys (c : syscall) : Sys sysret := fun w =>
  match script_ w with
  | [] => Blocks w
  | r :: script => Returns r (MkWorld script (calls_ w ++ [(c, Some r)]))
  end.

(** A call whose result the code discards; none of them blocks. *)
Definition sys_ (c : syscall) : Sys unit := fun w =>
  Returns tt (MkWorld (script_ w) (calls_ w ++ [(c, None)])).

(** A value that may end the process ([None]). *)
Definition sys_lift {A} (m : option A) : Sys A := fun w =>
  match m with Some a => Returns a w | None => Terminates end.

(** [while (true)] around system calls: [body] gives a result or asks for
    another round.  Every round of the loops below makes a call, so the length
    of the script bounds the rounds ([repeat_fuel_enough]). *)
Fixpoint sys_repeat {A} (fuel : nat) (body : Sys (option A)) : Sys A :=
  match fuel with
  | O => fun w => Blocks w
  | S fuel => r ← body; match r with Some a => mret a | None => sys_repeat fuel body end
  end.

Definition sys_loop {A} (body : Sys (option A)) : Sys A := fun w =>
  sys_repeat (S (length (script_ w))) body w.

(** ** [class Socket] *)
Record Socket := MkSocket { fd_ : Z }.

Definition Socket_default : Socket := MkSocket (-1).

Definition Socket_valid (s : Socket) : bool := 0 <=? fd_ s.

Section socket.

(** [strerror] and [inet_pton] are libc functions. *)
Context (error_message : Z -> bytes) (inet_pton : bytes -> option Z) (host : byte_order).

Definition MakeSystemErrorMessage (action : string) (error_code : Z) : bytes :=
  bs action ++ bs " failed" ++
  (if error_code =? 0 then [] else bs ": " ++ error_message error_code).

Definition MakeSocketStatus (code : SocketErrorCode) (action : string) (error : Z) : Status :=
  MkStatus (ToStatusCode code) (MakeSystemErrorMessage action error).

(** [StatusOr<T>(status)] *)
Definition fail_with {A} (st : Status) : Sys (StatusOr A) := sys_lift (StatusOr_error st).

Definition CreateSocket : Sys (StatusOr Z) :=
  fd ← sys sys_socket;
  if ret fd <? 0 then fail_with (MakeSocketStatus CreateFailed "socket" (errno fd))
  else mret (StatusOr_value (ret fd)).

(** [timeout] counts milliseconds. *)
Definition ToTimeval (timeout : Z) : timeval :=
  if timeout <=? 0 then MkTimeval 0 0 else
  let seconds := timeout ÷ 1000 in
  let micros := (timeout - seconds * 1000) * 1000 in
  if (seconds =? 0) && (micros =? 0) then MkTimeval seconds 1 else MkTimeval seconds micros.

Definition ToAddress (h : bytes) (port : Z) : StatusOr sockaddr_in :=
  match inet_pton h with
  | None => StatusOr_fail InvalidArgument "invalid host address"
  | Some a => StatusOr_value (MkSockaddr a (htons host port))
  end.

Definition RestoreSocketFlags (fd flags : Z) : Sys Status :=
  r ← sys (sys_setfl fd flags);
  mret (if ret r <? 0 then MakeSocketStatus ConfigureFailed "fcntl(F_SETFL)" (errno r)
        else Status_Ok).

Definition Socket_Close (s : Socket) : Sys Socket :=
  if 0 <=? fd_ s then _ ← sys_ (sys_close (fd_ s)); mret (MkSocket (-1)) else mret s.

Definition Socket_ShutdownWrite (s : Socket) : Sys unit :=
  if Socket_valid s then sys_ (sys_shutdown (fd_ s) SHUT_WR) else mret tt.

Definition Socket_ShutdownReadWrite (s : Socket) : Sys unit :=
  if Socket_valid s then sys_ (sys_shutdown (fd_ s) SHUT_RDWR) else mret tt.

(** [Socket(Socket &&other)]: the new socket and what is left in [other]. *)
Definition Socket_move (other : Socket) : Socket * Socket := (MkSocket (fd_ other), MkSocket (-1)).

(** [s = std::move(other)] for distinct objects. *)
Definition Socket_assign (s other : Socket) : Sys (Socket * Socket) :=
  s ← Socket_Close s;
  mret (MkSocket (fd_ other), MkSocket (-1)).

Definition Socket_LocalPort (s : Socket) : Sys (StatusOr Z) :=
  if negb (Socket_valid s) then
    mret (StatusOr_fail FailedPrecondition "Socket::LocalPort requires a valid socket")
  else
    r ← sys (sys_getsockname (fd_ s));
    if ret r <? 0 then fail_with (MakeSocketStatus ConfigureFailed "getsockname" (errno r))
    else mret (StatusOr_value (htons host (out r))).

(** [Close(); return status;] *)
Definition close_and (s : Socket) (st : Status) : Sys (Status * Socket) :=
  s ← Socket_Close s; mret (st, s).

(** The first lines of [Bind] and [Connect]: a socket without descriptor
    gets one.  A failure leaves the socket as it is. *)
Definition ensure_created (s : Socket) : Sys (Status * Socket) :=
  if Socket_valid s then mret (Status_Ok, s) else
  socket ← CreateSocket;
  match so_value_ socket with
  | None => mret (so_status_ socket, s)
  | Some fd => mret (Status_Ok, MkSocket fd)
  end.

Definition Socket_Bind (s : Socket) (h : bytes) (port : Z) : Sys (Status * Socket) :=
  '(st, s) ← ensure_created s;
  if negb (Status_ok st) then mret (st, s) else
  _ ← sys_ (sys_reuseaddr (fd_ s));
  let address := ToAddress h port in
  match so_value_ address with
  | None => close_and s (so_status_ address)
  | Some addr =>
      r ← sys (sys_bind (fd_ s) addr);
      if ret r <? 0 then close_and s (MakeSocketStatus BindFailed "bind" (errno r))
      else mret (Status_Ok, s)
  end.

Definition Socket_Listen (s : Socket) (backlog : Z) : Sys (Status * Socket) :=
  if negb (Socket_valid s) then
    mret (status FailedPrecondition "Socket::Listen requires a valid socket", s)
  else
    r ← sys (sys_listen (fd_ s) backlog);
    if ret r <? 0 then close_and s (MakeSocketStatus ListenFailed "listen" (errno r))
    else mret (Status_Ok, s).

Definition Socket_Accept (s : Socket) : Sys (StatusOr Socket) :=
  if negb (Socket_valid s) then
    mret (StatusOr_fail FailedPrecondition "Socket::Accept requires a valid socket")
  else sys_loop (
    r ← sys (sys_accept (fd_ s));
    if 0 <=? ret r then mret (Some (StatusOr_value (MkSocket (ret r)))) else
    if errno r =? EINTR then mret None else
    e ← fail_with (MakeSocketStatus AcceptFailed "accept" (errno r)); mret (Some e)).

(** [static_cast<int>] of a 64-bit count. *)
Definition to_int (z : Z) : Z := (z + 2 ^ 31) mod 2 ^ 32 - 2 ^ 31.

(** The loop of [Connect] without a timeout. *)
Definition connect_blocking (s : Socket) (addr : sockaddr_in) : Sys (Status * Socket) :=
  sys_loop (
    r ← sys (sys_connect (fd_ s) addr);
    if ret r =? 0 then mret (Some (Status_Ok, s)) else
    if errno r =? EINTR then mret None else
    x ← close_and s (MakeSocketStatus ConnectFailed "connect" (errno r)); mret (Some x)).

(** The branch of the loop taken when the connection is in progress. *)
Definition connect_progress (s : Socket) (flags timeout : Z)
    : Sys (option (Status * Socket)) :=
  p ← sys (sys_poll (fd_ s) (to_int timeout));
  if ret p =? 0 then
    x ← close_and s (status DeadlineExceeded "connect timed out"); mret (Some x)
  else if ret p <? 0 then
    if errno p =? EINTR then mret None else
    x ← close_and s (MakeSocketStatus ConnectFailed "poll" (errno p)); mret (Some x)
  else
    r ← sys (sys_get_error (fd_ s));
    if ret r <? 0 then
      x ← close_and s (MakeSocketStatus ConnectFailed "getsockopt(SO_ERROR)" (errno r));
      mret (Some x)
    else if out r =? 0 then st ← RestoreSocketFlags (fd_ s) flags; mret (Some (st, s))
    else x ← close_and s (MakeSocketStatus ConnectFailed "connect" (out r)); mret (Some x).

Definition connect_timed (s : Socket) (addr : sockaddr_in) (timeout : Z)
    : Sys (Status * Socket) :=
  flags ← sys (sys_getfl (fd_ s));
  if ret flags <? 0 then
    close_and s (MakeSocketStatus ConfigureFailed "fcntl(F_GETFL)" (errno flags))
  else
  r ← sys (sys_setfl (fd_ s) (Z.lor (ret flags) O_NONBLOCK));
  if ret r <? 0 then close_and s (MakeSocketStatus ConfigureFailed "fcntl(F_SETFL)" (errno r))
  else sys_loop (
    r ← sys (sys_connect (fd_ s) addr);
    if ret r =? 0 then st ← RestoreSocketFlags (fd_ s) (ret flags); mret (Some (st, s)) else
    if errno r =? EINTR then mret None else
    if errno r =? EINPROGRESS then connect_progress s (ret flags) timeout else
    x ← close_and s (MakeSocketStatus ConnectFailed "connect" (errno r)); mret (Some x)).

Definition Socket_Connect (s : Socket) (h : bytes) (port timeout : Z) : Sys (Status * Socket) :=
  '(st, s) ← ensure_created s;
  if negb (Status_ok st) then mret (st, s) else
  let address := ToAddress h port in
  match so_value_ address with
  | None => close_and s (so_status_ address)
  | Some addr =>
      if timeout <=? 0 then connect_blocking s addr else connect_timed s addr timeout
  end.

(** The received bytes stand for the first [received] bytes of the buffer. *)
Definition Socket_Read (s : Socket) (n : Z) : Sys (StatusOr bytes) :=
  if negb (Socket_valid s) then
    mret (StatusOr_fail FailedPrecondition "Socket::Read requires a valid socket")
  else sys_loop (
    r ← sys (sys_recv (fd_ s) n);
    if 0 <=? ret r then mret (Some (StatusOr_value (take (Z.to_nat (ret r)) (data r)))) else
    if errno r =? EINTR then mret None else
    if (errno r =? EAGAIN) || (errno r =? EWOULDBLOCK) then
      mret (Some (StatusOr_fail DeadlineExceeded "recv timed out"))
    else e ← fail_with (MakeSocketStatus ReadFailed "recv" (errno r)); mret (Some e)).

Definition Socket_Write (s : Socket) (b : bytes) : Sys (StatusOr Z) :=
  if negb (Socket_valid s) then
    mret (StatusOr_fail FailedPrecondition "Socket::Write requires a valid socket")
  else sys_loop (
    r ← sys (sys_send (fd_ s) b);
    if 0 <=? ret r then mret (Some (StatusOr_value (ret r))) else
    if errno r =? EINTR then mret None else
    if (errno r =? EAGAIN) || (errno r =? EWOULDBLOCK) then
      mret (Some (StatusOr_fail DeadlineExceeded "send timed out"))
    else e ← fail_with (MakeSocketStatus WriteFailed "send" (errno r)); mret (Some e)).

(** The loop of [WriteAll]: every successful round writes at least one byte,
    so [fuel] above the number of unwritten bytes is enough. *)
Fixpoint WriteAll_loop (fuel : nat) (s : Socket) (b : bytes) (written : Z) : Sys Status :=
  if written <? len b then
    match fuel with
    | O => fun w => Blocks w
    | S fuel =>
        write_result ← Socket_Write s (drop (Z.to_nat written) b);
        match so_value_ write_result with
        | None => mret (so_status_ write_result)
        | Some sent =>
            if sent =? 0 then mret (status Unavailable "send returned 0")
            else WriteAll_loop fuel s b (written +u sent)%word
        end
    end
  else mret Status_Ok.

Definition Socket_WriteAll (s : Socket) (b : bytes) : Sys Status :=
  WriteAll_loop (length b) s b 0.

Definition Socket_SetReadWriteTimeout (s : Socket) (timeout : Z) : Sys Status :=
  if negb (Socket_valid s) then
    mret (status FailedPrecondition "Socket::SetReadWriteTimeout requires a valid socket")
  else
    let tv := ToTimeval timeout in
    r ← sys (sys_set_timeout (fd_ s) SO_RCVTIMEO tv);
    if ret r <? 0 then
      mret (MakeSocketStatus ConfigureFailed "setsockopt(SO_RCVTIMEO)" (errno r))
    else
    r ← sys (sys_set_timeout (fd_ s) SO_SNDTIMEO tv);
    mret (if ret r <? 0 then
            MakeSocketStatus ConfigureFailed "setsockopt(SO_SNDTIMEO)" (errno r)
          else Status_Ok).

(** ** Descriptor ownership

    [replay opens log] runs a log of calls from the open descriptors [opens]:
    it gives the descriptors open at the end, and [None] when a call uses a
    descriptor that is not open. *)

Definition call_fd (c : syscall) : option Z :=
  match c with
  | sys_socket => None
  | sys_bind fd _ | sys_listen fd _ | sys_accept fd | sys_connect fd _ | sys_getsockname fd
  | sys_getfl fd | sys_setfl fd _ | sys_poll fd _ | sys_get_error fd | sys_reuseaddr fd
  | sys_set_timeout fd _ _ | sys_recv fd _ | sys_send fd _ | sys_shutdown fd _
  | sys_close fd => Some fd
  end.

Fixpoint close_one (fd : Z) (opens : list Z) : list Z :=
  match opens with
  | [] => []
  | x :: opens => if decide (x = fd) then opens else x :: close_one fd opens
  end.

Definition replay_call (opens : list Z) (e : syscall * option sysret) : option (list Z) :=
  let '(c, r) := e in
  if match call_fd c with Some fd => bool_decide (fd ∈ opens) | None => true end then
    match c, r with
    | sys_socket, Some r | sys_accept _, Some r =>
        Some (if 0 <=? ret r then ret r :: opens else opens)
    | sys_close fd, _ => Some (close_one fd opens)
    | _, _ => Some opens
    end
  else None.

Fixpoint replay (opens : list Z) (log : list (syscall * option sysret)) : option (list Z) :=
  match log with
  | [] => Some opens
  | e :: log => opens ← replay_call opens e; replay opens log
  end.

(** The descriptors a socket object owns. *)
Definition owned (s : Socket) : list Z := if Socket_valid s then [fd_ s] else [].

(** [holds w l]: the log of [w] uses open descriptors only and leaves exactly
    those of [l] open. *)
Definition holds (w : world) (l : list Z) : Prop :=
  exists opens, replay [] (calls_ w) = Some opens /\ opens ≡ₚ l.

(** [owns pre m post]: run with at least the descriptors [pre] open, [m] keeps
    the log right, and returns with [pre] replaced by [post]; it does not end
    the process. *)
Definition owns {A} (pre : list Z) (m : Sys A) (post : A -> list Z) : Prop :=
  forall w rest, holds w (pre ++ rest) ->
  match m w with
  | Returns a w' => holds w' (post a ++ rest)
  | Blocks w' => exists l, holds w' l
  | Terminates => False
  end.

(** ** Rules *)

Lemma replay_app opens l1 l2 :
  replay opens (l1 ++ l2) = opens ← replay opens l1; replay opens l2.
Proof.
  revert opens. induction l1 as [|e l1 IH]; intros opens; [done|].
  cbn. destruct (replay_call opens e); cbn; [apply IH|done].
Qed.

Lemma close_one_perm fd opens l : opens ≡ₚ fd :: l -> close_one fd opens ≡ₚ l.
Proof.
  intros H. assert (Hin : fd ∈ opens) by (rewrite H; left).
  enough (opens ≡ₚ fd :: close_one fd opens) as H'.
  { apply (Permutation_cons_inv (a:=fd)). by rewrite <- H', H. }
  clear H. induction opens as [|x opens IH]; [by apply not_elem_of_nil in Hin|].
  simpl. destruct (decide (x = fd)) as [->|]; [done|].
  apply elem_of_cons in Hin as [?|Hin]; [congruence|].
  rewrite (IH Hin) at 1. apply Permutation_swap.
Qed.

(** What one call does to the open descriptors, when its argument is open. *)
Lemma holds_call w script c r l opens :
  holds w l -> (forall fd, call_fd c = Some fd -> fd ∈ l) ->
  (forall o, o ≡ₚ l -> (forall fd, call_fd c = Some fd -> fd ∈ o) ->
     exists o', replay_call o (c, r) = Some o' /\ o' ≡ₚ opens) ->
  holds (MkWorld script (calls_ w ++ [(c, r)])) opens.
Proof.
  intros (o & Hr & Ho) Hfd H. destruct (H o Ho) as (o' & Hc & Hp).
  { intros fd E. rewrite Ho. eauto. }
  exists o'. split; [|done]. simpl. rewrite replay_app, Hr. cbn [mbind option_bind replay]. by rewrite Hc.
Qed.

Lemma owns_ret {A} (a : A) post : owns (post a) (mret a) post.
Proof. intros w rest H. exact H. Qed.

Lemma owns_ret' {A} (a : A) pre post : pre = post a -> owns pre (mret a) post.
Proof. intros ->. apply owns_ret. Qed.

Lemma owns_bind {A B} pre (m : Sys A) mid (k : A -> Sys B) post :
  owns pre m mid -> (forall a, owns (mid a) (k a) post) -> owns pre (m ≫= k) post.
Proof.
  intros Hm Hk w rest H. specialize (Hm w rest H). unfold mbind, Sys_bind.
  destruct (m w) as [a w'|w'|]; [by apply Hk|done|done].
Qed.

Lemma owns_sys c l (post : sysret -> list Z) :
  (forall fd, call_fd c = Some fd -> fd ∈ l) ->
  (forall r o rest, o ≡ₚ l ++ rest -> (forall fd, call_fd c = Some fd -> fd ∈ o) ->
     exists o', replay_call o (c, Some r) = Some o' /\ o' ≡ₚ post r ++ rest) ->
  owns l (sys c) post.
Proof.
  intros Hfd H w rest Hw. unfold sys. destruct (script_ w) as [|r script]; [by eauto|].
  eapply holds_call; [exact Hw| |].
  - intros fd E. apply elem_of_app. left. eauto.
  - intros o Ho Hin. apply H; done.
Qed.

(** A call on an owned descriptor other than [accept] and [close]. *)
Lemma owns_use c fd l :
  call_fd c = Some fd -> (forall x, c <> sys_accept x) -> (forall x, c <> sys_close x) ->
  fd ∈ l -> owns l (sys c) (fun _ => l).
Proof.
  intros E Ha Hc Hin. apply owns_sys; [intros x Hx; congruence|].
  intros r o rest Ho Hop. exists o. split; [|done]. unfold replay_call. rewrite E.
  rewrite bool_decide_true by (apply Hop; done).
  destruct c; try done; [by destruct (Ha fd0)|by destruct (Hc fd0)].
Qed.

Lemma owns_use_ c fd l :
  call_fd c = Some fd -> (forall x, c <> sys_close x) -> fd ∈ l ->
  owns l (sys_ c) (fun _ => l).
Proof.
  intros E Hc Hin w rest Hw. unfold sys_. eapply holds_call; [exact Hw| |].
  - intros x Hx. apply elem_of_app. left. congruence.
  - intros o Ho Hop. exists o. split; [|done]. unfold replay_call. rewrite E.
    rewrite bool_decide_true by (apply Hop; done).
    destruct c; try done; by destruct (Hc fd0).
Qed.

Lemma owns_socket l :
  owns l (sys sys_socket) (fun r => if 0 <=? ret r then ret r :: l else l).
Proof.
  apply owns_sys; [done|]. intros r o rest Ho _. eexists. split; [done|].
  destruct (0 <=? ret r); simpl; by rewrite Ho.
Qed.

Lemma owns_accept fd l :
  fd ∈ l -> owns l (sys (sys_accept fd)) (fun r => if 0 <=? ret r then ret r :: l else l).
Proof.
  intros Hin. apply owns_sys; [intros x [= <-]; done|]. intros r o rest Ho Hop.
  eexists. split; [cbn; by rewrite bool_decide_true by by apply Hop|].
  destruct (0 <=? ret r); simpl; by rewrite Ho.
Qed.

Lemma owns_close fd : owns [fd] (sys_ (sys_close fd)) (fun _ => []).
Proof.
  intros w rest Hw. unfold sys_. eapply holds_call; [exact Hw| |].
  - intros x [= <-]. left.
  - intros o Ho Hop. eexists. split; [cbn; by rewrite bool_decide_true by by apply Hop|].
    by apply close_one_perm.
Qed.

Lemma owns_fail {A} l st : code_ st <> Ok -> owns l (fail_with (A:=A) st) (fun _ => l).
Proof.
  intros H w rest Hw. unfold fail_with, sys_lift.
  destruct (StatusOr_error st) as [e|] eqn:E; [done|].
  unfold StatusOr_error in E. destruct (Status_ok st) eqn:Es; [|done].
  by apply Status_ok_iff in Es.
Qed.

Lemma owns_repeat {A} fuel pre (body : Sys (option A)) post :
  owns pre body (fun r => match r with Some a => post a | None => pre end) ->
  owns pre (sys_repeat fuel body) post.
Proof.
  intros H. induction fuel as [|fuel IH]; [intros w rest Hw; simpl; eauto|].
  simpl. eapply owns_bind; [exact H|]. intros [a|]; [apply owns_ret|exact IH].
Qed.

Lemma owns_loop {A} pre (body : Sys (option A)) post :
  owns pre body (fun r => match r with Some a => post a | None => pre end) ->
  owns pre (sys_loop body) post.
Proof. intros H w rest Hw. exact (owns_repeat (S (length (script_ w))) _ _ _ H w rest Hw). Qed.

(** One step of a proof that a method owns its descriptors. *)
Ltac own_step :=
  match goal with
  | |- owns _ (mret _) _ => apply owns_ret'; try done
  | |- owns _ (sys_loop _) _ => apply owns_loop
  | |- owns _ (fail_with _) _ => apply owns_fail; done
  | |- owns _ (if ?b then _ else _) _ => destruct b eqn:?
  | |- owns _ (match ?x with Some _ => _ | None => _ end) _ => destruct x eqn:?
  | |- owns ?l (sys ?c ≫= _) _ =>
      eapply (owns_bind l (sys c) (fun _ => l));
      [eapply owns_use; [done..|by left]|intros ?]
  | |- owns ?l (sys_ ?c ≫= _) _ =>
      eapply (owns_bind l (sys_ c) (fun _ => l));
      [eapply owns_use_; [done..|by left]|intros ?]
  | |- owns ?l (fail_with ?c ≫= _) _ =>
      eapply (owns_bind l (fail_with c) (fun _ => l)); [apply owns_fail; done|intros ?]
  end.

Lemma owned_valid s : Socket_valid s = true -> owned s = [fd_ s].
Proof. unfold owned. by intros ->. Qed.

Lemma owned_new fd : (fd <? 0) = false -> owned (MkSocket fd) = [fd].
Proof. intros. apply owned_valid. unfold Socket_valid. simpl. lia. Qed.

Lemma owns_Close s : owns (owned s) (Socket_Close s) (fun s' => owned s').
Proof.
  unfold Socket_Close. fold (Socket_valid s).
  destruct (Socket_valid s) eqn:E; [|by apply owns_ret'].
  rewrite (owned_valid s E). eapply owns_bind; [apply owns_close|].
  intros ?. by apply owns_ret'.
Qed.

Lemma owns_close_and s st : owns (owned s) (close_and s st) (fun r => owned r.2).
Proof. eapply owns_bind; [apply owns_Close|]. intros s'. by apply owns_ret'. Qed.

(** [yields m Q]: every result of [m] satisfies [Q]. *)
Definition yields {A} (m : Sys A) (Q : A -> Prop) : Prop :=
  forall w a w', m w = Returns a w' -> Q a.

Lemma yields_ret {A} (a : A) (Q : A -> Prop) : Q a -> yields (mret a) Q.
Proof. by intros H w a' w' [= <- _]. Qed.

Lemma yields_bind {A B} (m : Sys A) (k : A -> Sys B) P Q :
  yields m P -> (forall a, P a -> yields (k a) Q) -> yields (m ≫= k) Q.
Proof.
  intros Hm Hk w b w' H. unfold mbind, Sys_bind in H.
  destruct (m w) as [a w1|w1|] eqn:E; simplify_eq. eapply Hk; [by eapply Hm|done].
Qed.

Lemma owns_bind_pure {A B} pre (m : Sys A) Q mid (k : A -> Sys B) post :
  yields m Q -> owns pre m mid -> (forall a, Q a -> owns (mid a) (k a) post) ->
  owns pre (m ≫= k) post.
Proof.
  intros HQ Hm Hk w rest H. specialize (Hm w rest H). unfold mbind, Sys_bind.
  destruct (m w) as [a w'|w'|] eqn:E; [|done..]. apply Hk; [by eapply HQ|done].
Qed.

Lemma yields_fail {A} st : yields (fail_with (A:=A) st) (fun r => r = MkStatusOr st None /\ code_ st <> Ok).
Proof.
  intros w r w' H. unfold fail_with, sys_lift in H.
  destruct (StatusOr_error st) as [e|] eqn:E; simplify_eq.
  apply StatusOr_error_Some in E as [? ->]. done.
Qed.

Definition created (r : StatusOr Z) : Prop :=
  match so_value_ r with Some fd => 0 <= fd | None => Status_ok (so_status_ r) = false end.

Lemma yields_CreateSocket : yields CreateSocket created.
Proof.
  unfold CreateSocket. apply (yields_bind _ _ (fun _ => True)); [by intros ???|]. intros r _.
  destruct (ret r <? 0) eqn:E; [|apply yields_ret; red; simpl; lia].
  intros w a w' H. apply yields_fail in H as [-> H]. by apply Status_ok_false.
Qed.

Lemma owns_CreateSocket :
  owns [] CreateSocket
    (fun r => match so_value_ r with Some fd => owned (MkSocket fd) | None => [] end).
Proof.
  unfold CreateSocket. eapply owns_bind; [apply owns_socket|]. intros r. simpl.
  destruct (ret r <? 0) eqn:Hr; destruct (0 <=? ret r) eqn:Hr'; try lia.
  - intros w rest Hw. done.
  - apply owns_ret'. simpl. by rewrite owned_new.
Qed.

Lemma owns_ensure_created s :
  owns (owned s) (ensure_created s) (fun r => owned r.2).
Proof.
  unfold ensure_created. destruct (Socket_valid s) eqn:E; [by apply owns_ret'|].
  unfold owned at 1. rewrite E. eapply owns_bind; [apply owns_CreateSocket|].
  intros r. simpl. destruct (so_value_ r); apply owns_ret'; [done|]. unfold owned. simpl. by rewrite E.
Qed.

Lemma yields_ensure_created s :
  yields (ensure_created s) (fun r => Status_ok r.1 = true -> Socket_valid r.2 = true).
Proof.
  unfold ensure_created. destruct (Socket_valid s) eqn:E; [by apply yields_ret|].
  eapply yields_bind; [apply yields_CreateSocket|]. unfold created.
  intros r Hr. destruct (so_value_ r); apply yields_ret; simpl; [|congruence].
  intros _. unfold Socket_valid. simpl. lia.
Qed.

Lemma owns_Bind s h port : owns (owned s) (Socket_Bind s h port) (fun r => owned r.2).
Proof.
  unfold Socket_Bind.
  eapply owns_bind_pure; [apply yields_ensure_created|apply owns_ensure_created|].
  intros [st s'] Hs. simpl in *. destruct (Status_ok st) eqn:E; simpl; [|by apply owns_ret'].
  rewrite (owned_valid s') by auto. repeat own_step;
    try (rewrite <- (owned_valid s') by auto; apply owns_close_and).
  by rewrite <- (owned_valid s') by auto.
Qed.

(** The rest of a method on a valid socket: its last steps keep the descriptor
    or close it. *)
Ltac own_valid s E := rewrite (owned_valid s E); repeat own_step.
Ltac own_close s E := rewrite <- (owned_valid s E); apply owns_close_and.

Lemma owns_Listen s n : owns (owned s) (Socket_Listen s n) (fun r => owned r.2).
Proof.
  unfold Socket_Listen. destruct (Socket_valid s) eqn:E; simpl; [|by apply owns_ret'].
  own_valid s E; [own_close s E|by rewrite <- (owned_valid s E)].
Qed.

Definition accepted (r : StatusOr Socket) : list Z :=
  match so_value_ r with Some s => owned s | None => [] end.

Lemma owns_Accept s : owns (owned s) (Socket_Accept s) (fun r => accepted r ++ owned s).
Proof.
  unfold Socket_Accept. destruct (Socket_valid s) eqn:E; simpl; [|by apply owns_ret'].
  rewrite (owned_valid s E). apply owns_loop.
  eapply owns_bind; [apply (owns_accept (fd_ s)); by left|].
  intros r. simpl. destruct (0 <=? ret r) eqn:Hr.
  - apply owns_ret'. unfold accepted. simpl. rewrite owned_new by lia. done.
  - own_step; [by own_step|]. eapply owns_bind_pure; [apply yields_fail| |].
    + apply owns_fail. done.
    + intros a [-> _]. by apply owns_ret'.
Qed.

Lemma owns_connect_blocking s addr :
  Socket_valid s = true ->
  owns (owned s) (connect_blocking s addr) (fun r => owned r.2).
Proof.
  intros E. unfold connect_blocking. own_valid s E; [simpl; by rewrite (owned_valid s E)|].
  eapply owns_bind; [own_close s E|]. intros ?. by own_step.
Qed.

Lemma owns_Restore fd flags l :
  fd ∈ l -> owns l (RestoreSocketFlags fd flags) (fun _ => l).
Proof.
  intros H. unfold RestoreSocketFlags.
  eapply (owns_bind l _ (fun _ => l)); [by eapply owns_use|]. intros ?. by own_step.
Qed.

Lemma owns_connect_timed s addr timeout :
  Socket_valid s = true ->
  owns (owned s) (connect_timed s addr timeout) (fun r => owned r.2).
Proof.
  intros E. unfold connect_timed, connect_progress. own_valid s E;
    try (own_close s E);
    try (eapply owns_bind; [own_close s E|]; intros ?; by own_step);
    (eapply (owns_bind [fd_ s] _ (fun _ => [fd_ s])); [apply owns_Restore; by left|]);
    intros ?; own_step; simpl; by rewrite (owned_valid s E).
Qed.

Lemma owns_Connect s h port timeout :
  owns (owned s) (Socket_Connect s h port timeout) (fun r => owned r.2).
Proof.
  unfold Socket_Connect.
  eapply owns_bind_pure; [apply yields_ensure_created|apply owns_ensure_created|].
  intros [st s'] Hs. simpl in *. destruct (Status_ok st) eqn:E; simpl; [|by apply owns_ret'].
  destruct (so_value_ (ToAddress h port)); [|apply owns_close_and].
  destruct (timeout <=? 0); [apply owns_connect_blocking|apply owns_connect_timed]; auto.
Qed.

Lemma owns_Read s n : owns (owned s) (Socket_Read s n) (fun _ => owned s).
Proof.
  unfold Socket_Read. destruct (Socket_valid s) eqn:E; simpl; [|by apply owns_ret'].
  own_valid s E.
Qed.

Lemma owns_Write s b : owns (owned s) (Socket_Write s b) (fun _ => owned s).
Proof.
  unfold Socket_Write. destruct (Socket_valid s) eqn:E; simpl; [|by apply owns_ret'].
  own_valid s E.
Qed.

Lemma owns_WriteAll_loop fuel s b n :
  owns (owned s) (WriteAll_loop fuel s b n) (fun _ => owned s).
Proof.
  revert n. induction fuel as [|fuel IH]; intros n; simpl;
    (destruct (n <? len b); [|by own_step]).
  - intros w rest Hw. eauto.
  - eapply owns_bind; [apply owns_Write|]. intros r. repeat own_step. apply IH.
Qed.

Lemma owns_SetTimeout s t : owns (owned s) (Socket_SetReadWriteTimeout s t) (fun _ => owned s).
Proof.
  unfold Socket_SetReadWriteTimeout.
  destruct (Socket_valid s) eqn:E; simpl; [|by apply owns_ret']. own_valid s E.
Qed.

Lemma owns_LocalPort s : owns (owned s) (Socket_LocalPort s) (fun _ => owned s).
Proof.
  unfold Socket_LocalPort.
  destruct (Socket_valid s) eqn:E; simpl; [|by apply owns_ret']. own_valid s E.
Qed.

Lemma owns_Shutdown s how :
  owns (owned s) (if Socket_valid s then sys_ (sys_shutdown (fd_ s) how) else mret tt)
    (fun _ => owned s).
Proof.
  destruct (Socket_valid s) eqn:E; simpl; [|by apply owns_ret']. rewrite (owned_valid s E).
  eapply owns_use_; [done..|by left].
Qed.

(** ** Termination

    [waits m P]: [m] blocks only when the script has no result for a call, so
    no loop of [m] runs for ever by itself; it consumes results of the script,
    at least one when its own result satisfies [P]. *)
Definition waits {A} (m : Sys A) (P : A -> Prop) : Prop :=
  forall w, match m w with
  | Returns a w' =>
      (length (script_ w') <= length (script_ w))%nat /\
      (P a -> (length (script_ w') < length (script_ w))%nat)
  | Blocks w' => script_ w' = []
  | Terminates => True
  end.

Definition returning {A} (m : Sys A) : Prop := waits m (fun _ => False).

Lemma waits_ret {A} (a : A) (P : A -> Prop) : ~ P a -> waits (mret a) P.
Proof. intros H w. simpl. naive_solver. Qed.

Lemma waits_bind {A B} (m : Sys A) (k : A -> Sys B) P :
  returning m -> (forall a, waits (k a) P) -> waits (m ≫= k) P.
Proof.
  intros Hm Hk w. specialize (Hm w). unfold mbind, Sys_bind.
  destruct (m w) as [a w'|w'|]; [|done..]. specialize (Hk a w').
  destruct (k a w') as [b w2|w2|]; [|done..]. destruct Hm, Hk. split; [lia|]. intros. naive_solver lia.
Qed.

Lemma waits_sys_bind {B} c (k : sysret -> Sys B) P :
  (forall r, returning (k r)) -> waits (sys c ≫= k) P.
Proof.
  intros Hk w. unfold mbind, Sys_bind, sys. destruct (script_ w) as [|r script] eqn:Es; [exact Es|].
  specialize (Hk r (MkWorld script (calls_ w ++ [(c, Some r)]))). simpl in *.
  destruct (k r _) as [b w2|w2|]; [|done..]. destruct Hk. simpl in *. lia.
Qed.

Lemma returning_sys_ c : returning (sys_ c).
Proof. intros w. simpl. lia. Qed.

Lemma returning_fail {A} st : returning (fail_with (A:=A) st).
Proof. intros w. unfold fail_with, sys_lift. destruct (StatusOr_error st); [lia|done]. Qed.

Lemma waits_weaken {A} (m : Sys A) P : waits m P -> returning m.
Proof. intros H w. specialize (H w). destruct (m w); intuition. Qed.

Lemma repeat_fuel_enough {A} fuel (body : Sys (option A)) w :
  waits body (fun r => r = None) -> (length (script_ w) < fuel)%nat ->
  match sys_repeat fuel body w with
  | Returns _ w' => (length (script_ w') <= length (script_ w))%nat
  | Blocks w' => script_ w' = []
  | Terminates => True
  end.
Proof.
  intros Hb. revert w. induction fuel as [|fuel IH]; intros w Hf; [lia|].
  simpl. unfold mbind, Sys_bind. specialize (Hb w).
  destruct (body w) as [[a|] w'|w'|]; simpl; try done; [lia|].
  destruct Hb as [_ Hb]. specialize (Hb eq_refl).
  specialize (IH w' ltac:(lia)). destruct (sys_repeat fuel body w'); try done. lia.
Qed.

Lemma returning_loop {A} (body : Sys (option A)) :
  waits body (fun r => r = None) -> returning (sys_loop body).
Proof.
  intros H w. pose proof (repeat_fuel_enough (S (length (script_ w))) body w H ltac:(lia)) as Hr.
  unfold sys_loop. destruct (sys_repeat _ body w); simpl; intuition.
Qed.

Ltac wait_step :=
  match goal with
  | |- returning _ => unfold returning
  | |- waits (mret _) _ => apply waits_ret; try done; try (by intros [])
  | |- waits (sys_loop _) _ => apply returning_loop
  | |- waits (fail_with _) _ => apply returning_fail
  | |- waits (sys_ _) _ => apply returning_sys_
  | |- waits (if ?b then _ else _) _ => destruct b eqn:?
  | |- waits (match ?x with Some _ => _ | None => _ end) _ => destruct x eqn:?
  | |- waits (match ?x with pair _ _ => _ end) _ => destruct x
  | |- waits (sys _ ≫= _) _ => apply waits_sys_bind; intros ?
  | |- waits (_ ≫= _) _ => apply waits_bind; [|intros ?]
  end.

Lemma returning_Close s : returning (Socket_Close s).
Proof. unfold Socket_Close. repeat wait_step. Qed.

Lemma returning_close_and s st : returning (close_and s st).
Proof. unfold close_and. repeat wait_step. apply returning_Close. Qed.

Lemma returning_ensure_created s : returning (ensure_created s).
Proof. unfold ensure_created, CreateSocket. repeat wait_step. Qed.

Lemma returning_Write s b : returning (Socket_Write s b).
Proof. unfold Socket_Write. repeat wait_step. Qed.

Lemma returning_Connect s h p t : returning (Socket_Connect s h p t).
Proof.
  unfold Socket_Connect, connect_blocking, connect_timed, connect_progress, RestoreSocketFlags.
  repeat wait_step; try apply returning_ensure_created; apply returning_close_and.
Qed.

Lemma returning_Bind s h p : returning (Socket_Bind s h p).
Proof.
  unfold Socket_Bind. repeat wait_step;
    try apply returning_ensure_created; apply returning_close_and.
Qed.

(** ** What [WriteAll] sends *)

(** The bytes the kernel accepted, in order. *)
Definition sent_by (e : syscall * option sysret) : bytes :=
  match e with
  | (sys_send _ d, Some r) => if 0 <=? ret r then take (Z.to_nat (ret r)) d else []
  | _ => []
  end.

Definition sent_bytes (log : list (syscall * option sysret)) : bytes := concat (map sent_by log).

Lemma sent_bytes_app l1 l2 : sent_bytes (l1 ++ l2) = sent_bytes l1 ++ sent_bytes l2.
Proof. unfold sent_bytes. by rewrite map_app, concat_app. Qed.

(** A [ssize_t] result. *)
Definition ssize_ok (r : sysret) : Prop := ret r < 2 ^ 63.

Definition write_result_of (b : bytes) (r : StatusOr Z) (log : list (syscall * option sysret))
    : Prop :=
  match so_value_ r with
  | Some n => 0 <= n < 2 ^ 63 /\ sent_bytes log = take (Z.to_nat n) b
  | None => Status_ok (so_status_ r) = false /\ sent_bytes log = []
  end.

(** Both outcomes of a computation, with the log it adds. *)
Definition logs {A} (m : Sys A) (w : world) (Q : A -> list (syscall * option sysret) -> Prop)
    (B : list (syscall * option sysret) -> Prop) : Prop :=
  match m w with
  | Returns a w' => exists log, calls_ w' = calls_ w ++ log /\ Forall ssize_ok (script_ w') /\ Q a log
  | Blocks w' => exists log, calls_ w' = calls_ w ++ log /\ B log
  | Terminates => False
  end.

Lemma Write_repeat_logs fuel s b w :
  Forall ssize_ok (script_ w) ->
  logs (sys_repeat fuel (
      r ← sys (sys_send (fd_ s) b);
      if 0 <=? ret r then mret (Some (StatusOr_value (ret r))) else
      if errno r =? EINTR then mret None else
      if (errno r =? EAGAIN) || (errno r =? EWOULDBLOCK) then
        mret (Some (StatusOr_fail DeadlineExceeded "send timed out"))
      else e ← fail_with (MakeSocketStatus WriteFailed "send" (errno r)); mret (Some e)))
    w (write_result_of b) (fun log => sent_bytes log = []).
Proof.
  revert w. induction fuel as [|fuel IH]; intros w Hok; unfold logs; simpl.
  { exists []. rewrite app_nil_r. done. }
  unfold mbind, Sys_bind, sys. destruct (script_ w) as [|r script] eqn:Es.
  { exists []. rewrite app_nil_r. done. }
  apply Forall_cons in Hok as [Hr Hok].
  destruct (0 <=? ret r) eqn:Er; simpl.
  { exists [(sys_send (fd_ s) b, Some r)]. split_and!; [done..|]. unfold write_result_of. simpl.
    unfold sent_bytes. simpl. rewrite Er, app_nil_r. unfold ssize_ok in Hr. split; [lia|done]. }
  assert (Hlog : sent_bytes [(sys_send (fd_ s) b, Some r)] = []).
  { unfold sent_bytes. simpl. by rewrite Er. }
  destruct (errno r =? EINTR); simpl.
  - specialize (IH (MkWorld script (calls_ w ++ [(sys_send (fd_ s) b, Some r)])) Hok).
    unfold logs in IH. simpl in IH. unfold mbind, Sys_bind in IH.
    destruct (sys_repeat fuel _ _) as [a w'|w'|]; [| |done].
    + destruct IH as (log & Hc & Hf & HQ). eexists. rewrite Hc, <- app_assoc.
      split; [done|split; [done|]]. unfold write_result_of in *.
      rewrite sent_bytes_app, Hlog. exact HQ.
    + destruct IH as (log & Hc & HQ). eexists. rewrite Hc, <- app_assoc.
      split; [done|]. by rewrite sent_bytes_app, Hlog.
  - destruct (_ || _); simpl; eexists; (split; [done|split; [done|]]);
      unfold write_result_of; simpl; by rewrite Hlog.
Qed.

Lemma Write_logs s b w :
  Forall ssize_ok (script_ w) ->
  logs (Socket_Write s b) w (write_result_of b) (fun log => sent_bytes log = []).
Proof.
  intros Hok. unfold Socket_Write. destruct (Socket_valid s); simpl.
  - by apply Write_repeat_logs.
  - exists []. by rewrite app_nil_r.
Qed.

(** [WriteAll] from position [n]: all the rest is sent, or a failure is
    reported after a strict prefix of it. *)
Definition writes_rest (b : bytes) (n : Z) (st : Status) (log : list (syscall * option sysret))
    : Prop :=
  if Status_ok st then sent_bytes log = drop (Z.to_nat n) b
  else exists m, n <= m < len b /\ sent_bytes log = take (Z.to_nat (m - n)) (drop (Z.to_nat n) b).

Lemma WriteAll_loop_logs fuel s b n w :
  Forall ssize_ok (script_ w) -> len b < 2 ^ 63 -> 0 <= n -> len b - n <= Z.of_nat fuel ->
  logs (WriteAll_loop fuel s b n) w (writes_rest b n)
    (fun log => exists m, n <= m < len b /\
       sent_bytes log = take (Z.to_nat (m - n)) (drop (Z.to_nat n) b)).
Proof.
  revert n w. induction fuel as [|fuel IH]; intros n w Hok Hb Hn Hf; unfold logs; simpl;
    (destruct (n <? len b) eqn:E;
     [|exists []; rewrite app_nil_r; split_and!; [done..|]; unfold writes_rest; simpl;
       by rewrite drop_ge by (unfold len in *; lia)]); [lia|].
  pose proof (Write_logs s (drop (Z.to_nat n) b) w Hok) as HW. unfold logs in HW.
  unfold mbind, Sys_bind.
  destruct (Socket_Write s (drop (Z.to_nat n) b) w) as [r w'|w'|]; [| |done].
  - destruct HW as (log & Hc & Hs & HQ). unfold write_result_of in HQ.
    destruct (so_value_ r) as [sent|].
    + destruct HQ as [Hr Hlog]. destruct (sent =? 0) eqn:Es.
      { exists log. split_and!; [done..|]. unfold writes_rest. simpl. exists n.
        split; [lia|]. rewrite Hlog. replace (Z.to_nat sent) with 0%nat by lia.
        by rewrite Z.sub_diag. }
      rewrite add64_small by lia.
      specialize (IH (n + sent) w' Hs Hb ltac:(lia) ltac:(lia)). unfold logs in IH.
      assert (Hd : drop (Z.to_nat (n + sent)) b = drop (Z.to_nat sent) (drop (Z.to_nat n) b)).
      { rewrite drop_drop. f_equal. lia. }
      assert (Hcut : forall m, n + sent <= m ->
        sent_bytes log ++ take (Z.to_nat (m - (n + sent))) (drop (Z.to_nat (n + sent)) b) =
        take (Z.to_nat (m - n)) (drop (Z.to_nat n) b)).
      { intros m Hm. rewrite Hlog, Hd, take_take_drop. f_equal. lia. }
      destruct (WriteAll_loop fuel s b (n + sent) w') as [st w2|w2|]; [| |done].
      * destruct IH as (log' & Hc' & Hs' & HQ'). exists (log ++ log').
        rewrite Hc', Hc, app_assoc. split_and!; [done..|]. unfold writes_rest in *.
        rewrite sent_bytes_app. destruct (Status_ok st).
        { rewrite HQ', Hd, Hlog. apply take_drop. }
        destruct HQ' as (m & Hm & ->). exists m. split; [lia|]. apply Hcut. lia.
      * destruct IH as (log' & Hc' & m & Hm & Hl). exists (log ++ log').
        rewrite Hc', Hc, app_assoc. split; [done|]. exists m. split; [lia|].
        rewrite sent_bytes_app, Hl. apply Hcut. lia.
    + destruct HQ as [Hst Hlog]. exists log. split_and!; [done..|]. unfold writes_rest.
      rewrite Hst. exists n. split; [lia|]. by rewrite Hlog, Z.sub_diag.
  - destruct HW as (log & Hc & HQ). exists log. split; [done|]. exists n. split; [lia|].
    by rewrite HQ, Z.sub_diag.
Qed.

Lemma returning_WriteAll_loop fuel s b n w :
  len b < 2 ^ 63 -> Forall ssize_ok (script_ w) -> 0 <= n -> len b - n <= Z.of_nat fuel ->
  match WriteAll_loop fuel s b n w with Blocks w' => script_ w' = [] | _ => True end.
Proof.
  intros Hb. revert n w. induction fuel as [|fuel IH]; intros n w Hok Hn Hf; simpl;
    (destruct (n <? len b) eqn:E; [|done]); [lia|].
  pose proof (returning_Write s (drop (Z.to_nat n) b) w) as Hw.
  pose proof (Write_logs s (drop (Z.to_nat n) b) w Hok) as HL. unfold logs in HL.
  unfold mbind, Sys_bind.
  destruct (Socket_Write s (drop (Z.to_nat n) b) w) as [r w'|w'|]; [|done..].
  destruct HL as (log & _ & Hs & HQ). unfold write_result_of in HQ.
  destruct (so_value_ r) as [sent|]; [|done]. destruct (sent =? 0) eqn:Es; [done|].
  rewrite add64_small by lia. apply IH; [done|lia|lia].
Qed.

(** ** A life of a socket: operations on it and on the sockets it accepted *)

Inductive socket_op :=
  | OpBind (h : bytes) (port : Z)
  | OpListen (backlog : Z)
  | OpAccept
  | OpConnect (h : bytes) (port timeout : Z)
  | OpRead (n : Z)
  | OpWrite (b : bytes)
  | OpWriteAll (b : bytes)
  | OpSetReadWriteTimeout (timeout : Z)
  | OpLocalPort
  | OpShutdownWrite
  | OpShutdownReadWrite
  | OpClose
  | OpAssign.

(** [OpAssign] moves the socket accepted last into the object. *)
Definition run_op (op : socket_op) (st : Socket * list Socket) : Sys (Socket * list Socket) :=
  let '(s, acc) := st in
  match op with
  | OpBind h port => r ← Socket_Bind s h port; mret (r.2, acc)
  | OpListen n => r ← Socket_Listen s n; mret (r.2, acc)
  | OpAccept =>
      r ← Socket_Accept s;
      mret (s, match so_value_ r with Some c => c :: acc | None => acc end)
  | OpConnect h port timeout => r ← Socket_Connect s h port timeout; mret (r.2, acc)
  | OpRead n => _ ← Socket_Read s n; mret (s, acc)
  | OpWrite b => _ ← Socket_Write s b; mret (s, acc)
  | OpWriteAll b => _ ← Socket_WriteAll s b; mret (s, acc)
  | OpSetReadWriteTimeout t => _ ← Socket_SetReadWriteTimeout s t; mret (s, acc)
  | OpLocalPort => _ ← Socket_LocalPort s; mret (s, acc)
  | OpShutdownWrite => _ ← Socket_ShutdownWrite s; mret (s, acc)
  | OpShutdownReadWrite => _ ← Socket_ShutdownReadWrite s; mret (s, acc)
  | OpClose => s ← Socket_Close s; mret (s, acc)
  | OpAssign =>
      match acc with
      | [] => mret (s, acc)
      | c :: acc => '(s, c) ← Socket_assign s c; mret (s, c :: acc)
      end
  end.

Fixpoint run_ops (ops : list socket_op) (st : Socket * list Socket) : Sys (Socket * list Socket) :=
  match ops with
  | [] => mret st
  | op :: ops => st ← run_op op st; run_ops ops st
  end.

Definition owned_all (st : Socket * list Socket) : list Z := owned st.1 ++ mjoin (owned <$> st.2).

(** A method that keeps or replaces the descriptors of the object, as part of
    a program that also holds accepted sockets. *)
Lemma owns_frame {A B} pre (m : Sys A) post extra (f : A -> B) (posts : B -> list Z) :
  owns pre m post -> (forall a, posts (f a) ≡ₚ post a ++ extra) ->
  owns (pre ++ extra) (a ← m; mret (f a)) posts.
Proof.
  intros H Hp w rest Hw. rewrite <- app_assoc in Hw. specialize (H w (extra ++ rest) Hw).
  unfold mbind, Sys_bind. destruct (m w) as [a w'|w'|]; [|done..]. simpl.
  destruct H as (o & Hr & Ho). exists o. split; [done|]. by rewrite Hp, <- app_assoc.
Qed.

Lemma owns_assign s c :
  owns (owned s ++ owned c) (Socket_assign s c) (fun r => owned r.1 ++ owned r.2).
Proof.
  unfold Socket_assign. intros w rest Hw. rewrite <- app_assoc in Hw.
  pose proof (owns_Close s w (owned c ++ rest) Hw) as H. unfold mbind, Sys_bind.
  destruct (Socket_Close s w) as [s' w'|w'|] eqn:E; [|done..]. simpl.
  assert (owned s' = []) as Hs'.
  { unfold Socket_Close, mbind, Sys_bind, mret, Sys_ret, sys_ in E. fold (Socket_valid s) in E.
    destruct (Socket_valid s) eqn:Ev; simplify_eq; [done|]. unfold owned. by rewrite Ev. }
  rewrite Hs' in H. destruct c as [fd]. simpl in *. by rewrite app_nil_r.
Qed.

Lemma owns_run_op op st : owns (owned_all st) (run_op op st) owned_all.
Proof.
  destruct st as [s acc]. unfold owned_all at 1. simpl.
  destruct op; cbn [run_op]; try
    (eapply owns_frame; [first [apply owns_Bind | apply owns_Listen | apply owns_Connect
       | apply owns_Read | apply owns_Write | apply owns_WriteAll_loop | apply owns_SetTimeout
       | apply owns_LocalPort | apply owns_Shutdown | apply owns_Close]|done]).
  - eapply owns_frame; [apply owns_Accept|]. intros r. unfold accepted, owned_all. simpl.
    destruct (so_value_ r) as [c|]; simpl; [|done].
    by rewrite (app_assoc (owned s)), (Permutation_app_comm (owned s) (owned c)).
  - destruct acc as [|c acc]; [by apply owns_ret'|]. simpl. rewrite app_assoc.
    intros w rest Hw.
    pose proof (owns_frame _ _ _ (mjoin (owned <$> acc)) (fun r => (r.1, r.2 :: acc)) owned_all
      (owns_assign s c)) as H.
    specialize (H ltac:(intros [a b]; unfold owned_all; simpl; by rewrite app_assoc) w rest Hw).
    unfold mbind, Sys_bind in *. by destruct (Socket_assign s c w) as [[? ?] ?|?|].
Qed.

Lemma owns_run_ops ops st : owns (owned_all st) (run_ops ops st) owned_all.
Proof.
  revert st. induction ops as [|op ops IH]; intros st; simpl; [by apply owns_ret'|].
  eapply owns_bind; [apply owns_run_op|apply IH].
Qed.

(** ** Properties *)

(** C33: whatever the kernel and the peer do, a program that runs any sequence
    of methods on a socket and moves the sockets it accepted uses open
    descriptors only, and at its end exactly the descriptors held by its socket
    objects are open: none is leaked and none is closed twice.  [Connect] and
    [Bind] block only inside a system call. *)
Theorem Socket_ownership (ops : list socket_op) (script : list sysret) :
  match run_ops ops (Socket_default, []) (MkWorld script []) with
  | Returns st w =>
      exists opens, replay [] (calls_ w) = Some opens /\ opens ≡ₚ owned_all st
  | Blocks w => is_Some (replay [] (calls_ w))
  | Terminates => False
  end /\
  (forall s h port timeout, returning (Socket_Connect s h port timeout)) /\
  (forall s h port, returning (Socket_Bind s h port)).
Proof.
  split_and!; [|apply returning_Connect|apply returning_Bind].
  pose proof (owns_run_ops ops (Socket_default, []) (MkWorld script []) []) as H.
  rewrite app_nil_r in H.
  specialize (H ltac:(by exists [])).
  destruct (run_ops _ _ _) as [st w|w|]; [|by destruct H as (? & ? & ? & _)|done].
  unfold holds in H. by rewrite app_nil_r in H.
Qed.

(** [WriteAll] reports success exactly when the kernel accepted all the
    bytes, in order; otherwise a strict prefix was sent and the status is a
    failure.  It can only wait inside a system call. *)
Theorem Socket_WriteAll_exact s b w :
  Forall ssize_ok (script_ w) -> len b < 2 ^ 63 ->
  match Socket_WriteAll s b w with
  | Returns st w' =>
      exists log, calls_ w' = calls_ w ++ log /\
      (Status_ok st = true /\ sent_bytes log = b \/
       Status_ok st = false /\ exists m, 0 <= m < len b /\ sent_bytes log = take (Z.to_nat m) b)
  | Blocks w' => script_ w' = []
  | Terminates => False
  end.
Proof.
  intros Hok Hb. unfold Socket_WriteAll.
  pose proof (WriteAll_loop_logs (length b) s b 0 w Hok Hb ltac:(lia) ltac:(unfold len; lia)) as H.
  pose proof (returning_WriteAll_loop (length b) s b 0 w Hb Hok ltac:(lia) ltac:(unfold len; lia)) as Hw.
  unfold logs in H. destruct (WriteAll_loop _ _ _ _ _) as [st w'|w'|]; [|done..].
  destruct H as (log & Hc & _ & HQ). exists log. split; [done|]. unfold writes_rest in HQ.
  destruct (Status_ok st); [by left|right]. split; [done|].
  destruct HQ as (m & Hm & Hl). exists m. by rewrite Z.sub_0_r in Hl.
Qed.

End socket.

(** A socket that sends two bytes, is interrupted, and sends the third. *)
Lemma Socket_WriteAll_exact_witness :
  let w := MkWorld [MkRet 2 0 0 []; MkRet (-1) EINTR 0 []; MkRet 1 0 0 []] [] in
  let b := bs "abc" in
  exists log, Socket_WriteAll (fun _ => []) (MkSocket 3) b w =
    Returns Status_Ok (MkWorld [] log) /\ sent_bytes log = b.
Proof.
  intros w b.
  pose proof (Socket_WriteAll_exact (fun _ => []) (MkSocket 3) b w
    ltac:(repeat constructor) ltac:(reflexivity)) as H.
  change (Socket_WriteAll (fun _ => []) (MkSocket 3) b w) with
    (Returns Status_Ok (MkWorld [] [(sys_send 3 (bs "abc"), Some (MkRet 2 0 0 []));
       (sys_send 3 (bs "c"), Some (MkRet (-1) EINTR 0 []));
       (sys_send 3 (bs "c"), Some (MkRet 1 0 0 []))])) in *.
  cbv beta iota in H. destruct H as (log & Hlog & [[_ Hs]|[Hf _]]).
  - exists log. simpl in Hlog. rewrite Hlog. split; [reflexivity|exact Hs].
  - discriminate Hf.
Defined.
