(* ===== verification/ConsulHttp.v ===== *)
(** * The blocking HTTP client for Consul

    Models [src/naming/consul/consul_http_client.{h,cpp}]: building a request,
    parsing the status line and headers, and reading a body framed by
    [Content-Length], by chunked transfer encoding or by the end of the
    connection, over the [Socket] of Socket.v.

    The theorems show that a body arrives unchanged however the peer's bytes
    are split into reads. *)

From S2P Require Import Prelude Text Status FrameHeader Socket.

Local Open Scope Z_scope.

(** ** Parsing numbers of the protocol *)

Definition ConsulHttp_ParsePort (port_text : bytes) : StatusOr Z :=
  let '(ec, rest, parsed_port) := from_chars 10 INT_MIN INT_MAX port_text in
  if negb (bool_decide (ec = errc_none)) || negb (bool_decide (rest = [])) ||
     (parsed_port <=? 0) || (65535 <? parsed_port) then
    StatusOr_fail InvalidArgument "invalid consul address port"
  else StatusOr_value parsed_port.

Definition ParseContentLength (value : bytes) : StatusOr Z :=
  let '(ec, rest, length) := from_chars 10 0 SIZE_MAX value in
  if negb (bool_decide (ec = errc_none)) || negb (bool_decide (rest = [])) then
    StatusOr_fail DataLoss "invalid Content-Length header"
  else StatusOr_value length.

Definition ParseChunkSize (line : bytes) : StatusOr Z :=
  let line := match find_byte ";"%byte line with
              | Some semicolon => substr line 0 semicolon
              | None => line
              end in
  let '(ec, rest, size) := from_chars 16 0 SIZE_MAX (Trim line) in
  if negb (bool_decide (ec = errc_none)) || negb (bool_decide (rest = [])) then
    StatusOr_fail DataLoss "invalid chunk size"
  else StatusOr_value size.

(** ** Data *)

Record ConsulHttpResponse := MkConsulHttpResponse {
  http_status_code_ : Z;
  http_headers_ : gmap bytes bytes;
  http_body_ : bytes
}.

Record ConsulHttpClient := MkConsulHttpClient { http_host_ : bytes; http_port_ : Z }.

Definition ConsulHttpClient_Create (address : bytes) : option (StatusOr ConsulHttpClient) :=
  match rfind_byte ":"%byte address with
  | None => Some (StatusOr_fail InvalidArgument "consul_address must be host:port")
  | Some colon =>
      if (colon =? 0) || (len address <=? colon + 1) then
        Some (StatusOr_fail InvalidArgument "consul_address must be host:port")
      else
      let port := ConsulHttp_ParsePort (drop (Z.to_nat (colon + 1)) address) in
      match so_value_ port with
      | None => StatusOr_error (so_status_ port)
      | Some p => Some (StatusOr_value (MkConsulHttpClient (substr address 0 colon) p))
      end
  end.

Definition READ_BUFFER_SIZE : Z := 4096.

Definition CRLF : bytes := ["013"%byte; "010"%byte].
#[local] Arguments CRLF : simpl never.

Section http.
Context (error_message : Z -> bytes).

Local Abbreviation Socket_Read := (Socket_Read error_message).

(** ** Reading *)

(** The status and the grown [buffer]. *)
Definition ReadMore (socket : Socket) (buffer : bytes) : Sys (Status * bytes) :=
  read_result ← Socket_Read socket READ_BUFFER_SIZE;
  match so_value_ read_result with
  | None => mret (so_status_ read_result, buffer)
  | Some chunk =>
      if len chunk <=? 0 then
        mret (status Unavailable "unexpected EOF while reading HTTP response", buffer)
      else mret (Status_Ok, buffer ++ chunk)
  end.

(** Reads until [enough buffer]: [while (!enough) { ReadMore ... }].  Every
    round consumes a result of the script, which bounds the rounds. *)
Fixpoint read_while (fuel : nat) (enough : bytes -> bool) (socket : Socket) (buffer : bytes)
    : Sys (Status * bytes) :=
  if enough buffer then mret (Status_Ok, buffer) else
  match fuel with
  | O => fun w => Blocks w
  | S fuel =>
      '(st, buffer) ← ReadMore socket buffer;
      if negb (Status_ok st) then mret (st, buffer) else read_while fuel enough socket buffer
  end.

Definition read_until (enough : bytes -> bool) (socket : Socket) (buffer : bytes)
    : Sys (Status * bytes) := fun w =>
  read_while (length (script_ w)) enough socket buffer w.

Fixpoint ReadUntilClose_loop (fuel : nat) (socket : Socket) (buffer : bytes)
    : Sys (StatusOr bytes) :=
  match fuel with
  | O => fun w => Blocks w
  | S fuel =>
      read_result ← Socket_Read socket READ_BUFFER_SIZE;
      match so_value_ read_result with
      | None => fail_with (so_status_ read_result)
      | Some chunk =>
          if len chunk =? 0 then mret (StatusOr_value buffer)
          else ReadUntilClose_loop fuel socket (buffer ++ chunk)
      end
  end.

Definition ReadUntilClose (socket : Socket) (buffer : bytes) : Sys (StatusOr bytes) := fun w =>
  ReadUntilClose_loop (S (length (script_ w))) socket buffer w.

Definition ReadContentLengthBody (socket : Socket) (buffer : bytes) (content_length : Z)
    : Sys (StatusOr bytes) :=
  '(st, buffer) ← read_until (fun buffer => content_length <=? len buffer) socket buffer;
  if negb (Status_ok st) then fail_with st
  else mret (StatusOr_value (take (Z.to_nat content_length) buffer)).

(** One round of [ReadChunkedBody]: the next buffer and body, or the result. *)
Definition ReadChunkedBody_round (socket : Socket) (buffer body : bytes)
    : Sys (StatusOr bytes + bytes * bytes) :=
  '(st, buffer) ← read_until (fun buffer => bool_decide (is_Some (find_sub CRLF buffer))) socket buffer;
  if negb (Status_ok st) then e ← fail_with st; mret (inl e) else
  let line_end := default 0 (find_sub CRLF buffer) in
  let parsed_size := ParseChunkSize (substr buffer 0 line_end) in
  match so_value_ parsed_size with
  | None => e ← fail_with (so_status_ parsed_size); mret (inl e)
  | Some chunk_size =>
      let buffer := drop (Z.to_nat (line_end + 2)) buffer in
      if chunk_size =? 0 then mret (inl (StatusOr_value body)) else
      if SIZE_MAX - 2 <? chunk_size then
        mret (inl (StatusOr_fail DataLoss "chunk size exceeds addressable range"))
      else
      '(st, buffer) ← read_until (fun buffer => chunk_size + 2 <=? len buffer) socket buffer;
      if negb (Status_ok st) then e ← fail_with st; mret (inl e) else
      let body := body ++ take (Z.to_nat chunk_size) buffer in
      if negb (bool_decide (substr buffer chunk_size 2 = CRLF)) then
        mret (inl (StatusOr_fail DataLoss "invalid chunk terminator"))
      else mret (inr (drop (Z.to_nat (chunk_size + 2)) buffer, body))
  end.

Fixpoint ReadChunkedBody_loop (fuel : nat) (socket : Socket) (buffer body : bytes)
    : Sys (StatusOr bytes) :=
  match fuel with
  | O => fun w => Blocks w
  | S fuel =>
      r ← ReadChunkedBody_round socket buffer body;
      match r with
      | inl result => mret result
      | inr (buffer, body) => ReadChunkedBody_loop fuel socket buffer body
      end
  end.

(** The bytes the peer can still deliver. *)
Definition available (w : world) : nat := sum_list_with (fun r => length (data r)) (script_ w).

(** Every round removes the line of a chunk, hence a byte that was buffered or
    delivered: their number bounds the rounds. *)
Definition ReadChunkedBody (socket : Socket) (buffer : bytes) : Sys (StatusOr bytes) := fun w =>
  ReadChunkedBody_loop (S (length buffer + available w)) socket buffer [] w.

(** ** Requests and responses *)

Definition BuildRequest (client : ConsulHttpClient) (method path body : bytes) : bytes :=
  method ++ bs " " ++ path ++ bs " HTTP/1.1" ++ CRLF ++ bs "Host: " ++ http_host_ client ++
  bs ":" ++ to_string (http_port_ client) ++ CRLF ++ bs "Connection: close" ++ CRLF ++
  bs "Accept: application/json" ++ CRLF ++ bs "Content-Length: " ++ to_string (len body) ++
  CRLF ++ CRLF ++ body.

(** [std::map::emplace] keeps an entry that is present. *)
Definition emplace (k v : bytes) (headers : gmap bytes bytes) : gmap bytes bytes :=
  match headers !! k with Some _ => headers | None => <[k := v]> headers end.

(** One header line; a line without a colon is skipped. *)
Definition parse_header_line (line : bytes) (headers : gmap bytes bytes) : gmap bytes bytes :=
  match find_byte ":"%byte line with
  | Some colon =>
      emplace (ToLower (Trim (substr line 0 colon))) (Trim (drop (Z.to_nat (colon + 1)) line)) headers
  | None => headers
  end.

(** The header loop; each round moves [line_start] forward, so the length of the
    block bounds the rounds. *)
Fixpoint parse_header_lines (fuel : nat) (block : bytes) (line_start : Z)
    (headers : gmap bytes bytes) : gmap bytes bytes :=
  match fuel with
  | O => headers
  | S fuel =>
      if line_start <? len block then
        match find_sub_from CRLF block line_start with
        | None => parse_header_line (drop (Z.to_nat line_start) block) headers
        | Some line_end =>
            parse_header_lines fuel block (line_end + 2)
              (parse_header_line (substr block line_start (line_end - line_start)) headers)
        end
      else headers
  end.

(** The status code of the status line. *)
Definition parse_status_line (status_line : bytes) : StatusOr Z :=
  match find_byte " "%byte status_line with
  | None => StatusOr_fail DataLoss "invalid HTTP status line"
  | Some first_space =>
      match find_byte " "%byte (drop (Z.to_nat (first_space + 1)) status_line) with
      | None => StatusOr_fail DataLoss "invalid HTTP status line"
      | Some n =>
          let second_space := first_space + 1 + n in
          let status_code_text :=
            substr status_line (first_space + 1) (second_space - first_space - 1) in
          let '(ec, _, status_code) := from_chars 10 INT_MIN INT_MAX status_code_text in
          if negb (bool_decide (ec = errc_none)) then
            StatusOr_fail DataLoss "invalid HTTP status code"
          else StatusOr_value status_code
      end
  end.

(** Status code and headers of a header block. *)
Definition parse_head (header_block : bytes) : StatusOr (Z * gmap bytes bytes) :=
  let status_line_end := find_sub CRLF header_block in
  let status_line :=
    match status_line_end with Some e => substr header_block 0 e | None => header_block end in
  let status_code := parse_status_line status_line in
  match so_value_ status_code with
  | None => MkStatusOr (so_status_ status_code) None
  | Some code =>
      let line_start :=
        match status_line_end with Some e => e + 2 | None => len header_block end in
      StatusOr_value (code, parse_header_lines (length header_block) header_block line_start ∅)
  end.

Definition CRLFCRLF : bytes := CRLF ++ CRLF.
#[local] Arguments CRLFCRLF : simpl never.

(** [SendRequest] after the request was written. *)
Definition ReceiveResponse (socket : Socket) : Sys (StatusOr ConsulHttpResponse) :=
  '(st, buffer) ← read_until (fun buffer => bool_decide (is_Some (find_sub CRLFCRLF buffer))) socket [];
  if negb (Status_ok st) then fail_with st else
  let header_end := default 0 (find_sub CRLFCRLF buffer) in
  let header_block := substr buffer 0 header_end in
  let body_buffer := drop (Z.to_nat (header_end + 4)) buffer in
  let head := parse_head header_block in
  match so_value_ head with
  | None => fail_with (so_status_ head)
  | Some (status_code, headers) =>
      response_body ←
        (match headers !! bs "transfer-encoding" with
         | Some coding =>
             if bool_decide (is_Some (find_sub (bs "chunked") (ToLower coding)))
             then ReadChunkedBody socket body_buffer
             else ReadUntilClose socket body_buffer
         | None =>
             match headers !! bs "content-length" with
             | Some text =>
                 let content_length := ParseContentLength text in
                 match so_value_ content_length with
                 | None => fail_with (so_status_ content_length)
                 | Some n => ReadContentLengthBody socket body_buffer n
                 end
             | None => ReadUntilClose socket body_buffer
             end
         end);
      match so_value_ response_body with
      | None => fail_with (so_status_ response_body)
      | Some body => mret (StatusOr_value (MkConsulHttpResponse status_code headers body))
      end
  end.

(** The local [socket] is closed by its destructor on every path. *)
Definition SendRequest (inet_pton : bytes -> option Z) (host : byte_order)
    (client : ConsulHttpClient) (method path body : bytes) (timeout : Z) : Sys (StatusOr ConsulHttpResponse) :=
  '(st, socket) ← Socket_Connect error_message inet_pton host Socket_default (http_host_ client)
                    (http_port_ client) timeout;
  result ←
    (if negb (Status_ok st) then fail_with st else
     st ← Socket_SetReadWriteTimeout error_message socket timeout;
     if negb (Status_ok st) then fail_with st else
     st ← Socket_WriteAll error_message socket (BuildRequest client method path body);
     if negb (Status_ok st) then fail_with st else
     ReceiveResponse socket);
  _ ← Socket_Close socket;
  mret result.

Definition ConsulHttpClient_Get inet_pton host (client : ConsulHttpClient) (path : bytes)
    (timeout : Z) := SendRequest inet_pton host client (bs "GET") path [] timeout.

Definition ConsulHttpClient_Put inet_pton host (client : ConsulHttpClient) (path body : bytes)
    (timeout : Z) := SendRequest inet_pton host client (bs "PUT") path body timeout.

(** ** Delivery of a byte stream in pieces *)

Definition recv_ok (d : bytes) : sysret := MkRet (len d) 0 0 d.

(** The next reads of [w] return the pieces [chunks], then the script goes on
    with [tail]. *)
Definition delivers (w : world) (chunks : list bytes) (tail : list sysret) : Prop :=
  script_ w = map recv_ok chunks ++ tail /\ Forall (fun d => d <> []) chunks.

Lemma Read_delivers s d chunks tail w :
  Socket_valid s = true -> delivers w (d :: chunks) tail ->
  exists w', Socket_Read s READ_BUFFER_SIZE w = Returns (StatusOr_value d) w' /\
    delivers w' chunks tail.
Proof.
  intros Hs [Hw Hd]. unfold Socket_Read, Socket.Socket_Read. rewrite Hs. simpl.
  unfold sys_loop. rewrite Hw. simpl. unfold mbind, Sys_bind, sys. rewrite Hw. simpl.
  rewrite (proj2 (Z.leb_le _ _)) by apply len_nonneg. simpl. unfold len.
  rewrite Nat2Z.id, take_ge by done. eexists. split; [done|].
  apply Forall_cons in Hd as [_ Hd]. done.
Qed.

Lemma ReadMore_delivers s buffer d chunks tail w :
  Socket_valid s = true -> delivers w (d :: chunks) tail ->
  exists w', ReadMore s buffer w = Returns (Status_Ok, buffer ++ d) w' /\ delivers w' chunks tail.
Proof.
  intros Hs Hw. destruct (Read_delivers s d chunks tail w Hs Hw) as (w' & Hr & Hw').
  exists w'. split; [|done]. unfold ReadMore, mbind, Sys_bind. rewrite Hr. simpl.
  destruct Hw as [_ Hd]. apply Forall_cons in Hd as [Hd _].
  rewrite (proj2 (Z.leb_gt _ _)); [done|]. destruct d; [done|]. unfold len. simpl. lia.
Qed.

(** A reading loop stops as soon as the delivered bytes suffice. *)
Lemma read_until_delivers enough s buffer chunks tail w :
  Socket_valid s = true -> delivers w chunks tail ->
  enough (buffer ++ concat chunks) = true ->
  exists pre post w',
    chunks = pre ++ post /\ read_until enough s buffer w = Returns (Status_Ok, buffer ++ concat pre) w' /\
    delivers w' post tail /\ enough (buffer ++ concat pre) = true.
Proof.
  intros Hs Hw. unfold read_until.
  assert (Hfuel : (length chunks <= length (script_ w))%nat).
  { destruct Hw as [-> _]. rewrite length_app, length_map. lia. }
  revert Hfuel. generalize (length (script_ w)) as fuel. intros fuel Hfuel He.
  revert buffer fuel w Hw Hfuel He.
  induction chunks as [|d chunks IH]; intros buffer fuel w Hw Hf He.
  - simpl in He. rewrite app_nil_r in He. exists [], [], w. simpl. rewrite app_nil_r.
    split_and!; [done| |done|done]. by destruct fuel; simpl; rewrite He.
  - destruct (enough buffer) eqn:Eb.
    { exists [], (d :: chunks), w. simpl. rewrite app_nil_r.
      split_and!; [done| |done|done]. by destruct fuel; simpl; rewrite Eb. }
    destruct fuel as [|fuel]; [simpl in Hf; lia|].
    destruct (ReadMore_delivers s buffer d chunks tail w Hs Hw) as (w1 & Hr & Hw1).
    destruct (IH (buffer ++ d) fuel w1 Hw1 ltac:(simpl in Hf; lia)) as (pre & post & w' & -> & Hl & Hw' & He').
    { by rewrite <- app_assoc. }
    exists (d :: pre), post, w'. simpl. rewrite Eb. unfold mbind, Sys_bind. rewrite Hr. simpl.
    rewrite app_assoc. done.
Qed.

Lemma available_delivers w chunks tail :
  delivers w chunks tail -> (length (concat chunks) <= available w)%nat.
Proof.
  intros [Hw _]. unfold available. rewrite Hw. clear. induction chunks as [|d chunks IH]; simpl; [lia|].
  rewrite length_app. lia.
Qed.

(** *** Searching in a growing buffer *)

Lemma find_sub_length pat s i : find_sub pat s = Some i -> 0 <= i /\ i + len pat <= len s.
Proof.
  revert i. induction s as [|b s IH]; intros i; simpl; unfold starts_with; case_bool_decide as E.
  - intros [= <-]. apply (f_equal length) in E. rewrite length_take in E. unfold len. simpl in *. lia.
  - done.
  - intros [= <-]. apply (f_equal length) in E. rewrite length_take in E. unfold len. simpl in *. lia.
  - destruct (find_sub pat s) as [j|]; [|done]. intros [= <-]. specialize (IH j eq_refl).
    unfold len in *. simpl. lia.
Qed.

(** The first occurrence in a prefix is the first occurrence in the whole. *)
Lemma find_sub_prefix pat s t i : find_sub pat s = Some i -> find_sub pat (s ++ t) = Some i.
Proof.
  revert i. induction s as [|b s IH]; intros i H.
  - pose proof (find_sub_length _ _ _ H) as [Hi Hl]. destruct pat; [|unfold len in Hl; simpl in Hl; lia].
    simpl in H. unfold starts_with in H. simpl in H. injection H as <-.
    destruct t; simpl; unfold starts_with; simpl; done.
  - pose proof (find_sub_length _ _ _ H) as [Hi Hl]. simpl in H. simpl.
    unfold starts_with in *.
    rewrite app_comm_cons, take_app_le by (unfold len in Hl; lia).
    case_bool_decide; [done|]. destruct (find_sub pat s) as [j|] eqn:E; [|done].
    by rewrite (IH j).
Qed.

(** A prefix in which a pattern is found has it where the whole text has it. *)
Lemma find_sub_in_prefix pat s t i j :
  find_sub pat (s ++ t) = Some i -> find_sub pat s = Some j -> i = j.
Proof. intros H1 H2. apply (find_sub_prefix _ _ t) in H2. congruence. Qed.

(** ** Chunked bodies *)

(** An optional chunk extension. *)
Definition chunk_ext (e : bytes) : Prop :=
  match e with [] => True | b :: e => b = ";"%byte /\ "013"%byte ∉ e end.

(** The wire form of a chunk and of a chunked body. *)
Definition render_chunk (c : bytes * bytes) : bytes :=
  to_chars 16 (len c.1) ++ c.2 ++ CRLF ++ c.1 ++ CRLF.

Definition render_chunks (parts : list (bytes * bytes)) (last_ext : bytes) : bytes :=
  concat (map render_chunk parts) ++ to_chars 16 0 ++ last_ext ++ CRLF.

#[local] Arguments ParseChunkSize : simpl never.
#[local] Arguments read_until : simpl never.
#[local] Arguments find_sub : simpl never.

Lemma ParseChunkSize_render n e :
  0 <= n <= SIZE_MAX -> chunk_ext e -> ParseChunkSize (to_chars 16 n ++ e) = StatusOr_value n.
Proof.
  intros Hn He. unfold ParseChunkSize.
  replace (match find_byte ";"%byte (to_chars 16 n ++ e) with
           | Some semicolon => substr (to_chars 16 n ++ e) 0 semicolon
           | None => to_chars 16 n ++ e end) with (to_chars 16 n).
  - rewrite Trim_tight by (apply tight_to_chars; lia).
    rewrite <- (app_nil_r (to_chars 16 n)), from_to_chars by (try done; lia). done.
  - destruct e as [|b e].
    + rewrite app_nil_r, find_byte_None; [done|]. by apply to_chars_no_char; [lia..|].
    + destruct He as [-> _]. rewrite find_byte_app by (by apply to_chars_no_char; [lia..|]).
      by rewrite substr_all.
Qed.

Lemma chunk_line_no_CR n e : 0 <= n -> chunk_ext e -> "013"%byte ∉ to_chars 16 n ++ e.
Proof.
  intros Hn He. rewrite elem_of_app. intros [H|H].
  - by apply to_chars_no_char in H; [|lia..|].
  - destruct e; [set_solver|]. destruct He as [-> He]. set_solver.
Qed.

(** Reading the line of a chunk: after the line, the buffered and the still
    undelivered bytes are those after it. *)
Lemma chunk_line s buffer chunks tail w n e rest :
  Socket_valid s = true -> delivers w chunks tail -> 0 <= n <= SIZE_MAX -> chunk_ext e ->
  buffer ++ concat chunks = (to_chars 16 n ++ e) ++ CRLF ++ rest ->
  exists buffer' chunks' w' line_end,
    read_until (fun buffer => bool_decide (is_Some (find_sub CRLF buffer))) s buffer w =
      Returns (Status_Ok, buffer') w' /\
    find_sub CRLF buffer' = Some line_end /\
    ParseChunkSize (substr buffer' 0 line_end) = StatusOr_value n /\
    delivers w' chunks' tail /\
    drop (Z.to_nat (line_end + 2)) buffer' ++ concat chunks' = rest.
Proof.
  intros Hs Hw Hn He Hstream.
  assert (Hfind : find_sub CRLF (buffer ++ concat chunks) = Some (len (to_chars 16 n ++ e))).
  { rewrite Hstream. apply find_sub_app. by apply chunk_line_no_CR; [lia|]. }
  destruct (read_until_delivers (fun b => bool_decide (is_Some (find_sub CRLF b))) s buffer chunks
    tail w Hs Hw) as (pre & post & w' & -> & Hr & Hw' & Hen).
  { by rewrite Hfind, bool_decide_true by eauto. }
  apply bool_decide_eq_true in Hen as [i Hi].
  rewrite concat_app, app_assoc in Hfind, Hstream.
  pose proof (find_sub_in_prefix _ _ _ _ _ Hfind Hi) as <-.
  exists (buffer ++ concat pre), post, w', (len (to_chars 16 n ++ e)).
  pose proof (find_sub_length _ _ _ Hi) as [_ Hl]. change (len CRLF) with 2 in Hl.
  assert (Hsplit : buffer ++ concat pre = (to_chars 16 n ++ e) ++ CRLF ++
                   drop (Z.to_nat (len (to_chars 16 n ++ e) + 2)) (buffer ++ concat pre)).
  { rewrite <- (take_drop (Z.to_nat (len (to_chars 16 n ++ e) + 2)) (buffer ++ concat pre)) at 1.
    rewrite (app_assoc _ CRLF). f_equal.
    apply (f_equal (take (Z.to_nat (len (to_chars 16 n ++ e) + 2)))) in Hstream.
    rewrite take_app_le in Hstream by (unfold len in *; lia). rewrite Hstream, app_assoc.
    apply take_app_length'. rewrite length_app. unfold len, CRLF. simpl. lia. }
  split_and!; [done|done| |done|].
  - rewrite Hsplit at 1. rewrite substr_all by done. by apply ParseChunkSize_render.
  - rewrite Hsplit in Hstream. rewrite <- !app_assoc in Hstream.
    by do 3 apply app_inv_head in Hstream.
Qed.

(** The contents of a chunk: not empty, of an addressable size. *)
Definition chunk_ok (c : bytes * bytes) : Prop :=
  c.1 <> [] /\ len c.1 <= SIZE_MAX - 2 /\ chunk_ext c.2.

Lemma app_split_at {A} (x y p q : list A) :
  x ++ y = p ++ q -> len p <= len x -> exists z, x = p ++ z /\ z ++ y = q.
Proof.
  intros H Hl. exists (drop (length p) x).
  assert (Hx : x = p ++ drop (length p) x).
  { rewrite <- (take_drop (length p) x) at 1. f_equal.
    apply (f_equal (take (length p))) in H.
    rewrite take_app_length, take_app_le in H by (unfold len in *; lia). done. }
  split; [done|]. rewrite Hx in H. rewrite <- app_assoc in H. by apply app_inv_head in H.
Qed.

Lemma chunk_round s buffer body chunks tail w c rest :
  Socket_valid s = true -> delivers w chunks tail -> chunk_ok c ->
  buffer ++ concat chunks = render_chunk c ++ rest ->
  exists buffer' chunks' w',
    ReadChunkedBody_round s buffer body w = Returns (inr (buffer', body ++ c.1)) w' /\
    delivers w' chunks' tail /\ buffer' ++ concat chunks' = rest.
Proof.
  intros Hs Hw (Hne & Hl & He) Hstream. destruct c as [p e]. simpl in *.
  pose proof (len_nonneg p) as Hp.
  assert (len p <> 0) by (intros H; by apply len_0_nil in H).
  destruct (chunk_line s buffer chunks tail w (len p) e (p ++ CRLF ++ rest) Hs Hw) as
    (b1 & c1 & w1 & line_end & Hr & Hf & Hsize & Hw1 & Hrest); [unfold SIZE_MAX in *; lia|done| |].
  { rewrite Hstream. unfold render_chunk. cbn [fst snd]. by rewrite <- !app_assoc. }
  destruct (read_until_delivers (fun b => len p + 2 <=? len b) s
    (drop (Z.to_nat (line_end + 2)) b1) c1 tail w1 Hs Hw1) as (pre & post & w2 & -> & Hr2 & Hw2 & Hen).
  { rewrite Hrest. autorewrite with len. change (len CRLF) with 2.
    pose proof (len_nonneg rest). lia. }
  rewrite concat_app, app_assoc, (app_assoc p) in Hrest.
  apply app_split_at in Hrest as (z & Hz & Hrest).
  2: { rewrite len_app. change (len CRLF) with 2. lia. }
  exists z, post, w2. split; [|done].
  unfold ReadChunkedBody_round, mbind, Sys_bind. rewrite Hr. simpl. rewrite Hf. simpl.
  change (id line_end) with line_end. rewrite Hsize. simpl.
  rewrite (proj2 (Z.eqb_neq _ _)), (proj2 (Z.ltb_ge _ _)) by lia.
  rewrite Hr2. simpl.
  rewrite Hz, <- app_assoc. rewrite substr_skip by (done || lia). rewrite substr_all by done.
  rewrite bool_decide_true by done. simpl.
  replace (Z.to_nat (len p)) with (length p) by (unfold len; lia). rewrite take_app_length.
  change (p ++ "013"%byte :: "010"%byte :: z) with (p ++ CRLF ++ z).
  replace (drop (Z.to_nat (len p + 2)) (p ++ CRLF ++ z)) with z; [done|].
  rewrite app_assoc. symmetry. apply drop_app_length'. rewrite length_app. unfold len, CRLF. simpl. lia.
Qed.

Lemma chunk_loop parts e rest fuel s buffer body chunks tail w :
  Socket_valid s = true -> delivers w chunks tail -> Forall chunk_ok parts -> chunk_ext e ->
  buffer ++ concat chunks = render_chunks parts e ++ rest -> (length parts < fuel)%nat ->
  exists chunks' w',
    ReadChunkedBody_loop fuel s buffer body w =
      Returns (StatusOr_value (body ++ concat (map fst parts))) w' /\ delivers w' chunks' tail.
Proof.
  intros Hs Hw Hparts He. revert fuel buffer body chunks w Hw.
  induction Hparts as [|c parts Hc _ IH]; intros fuel buffer body chunks w Hw Hstream Hf.
  - destruct fuel as [|fuel]; [simpl in Hf; lia|].
    destruct (chunk_line s buffer chunks tail w 0 e rest Hs Hw) as
      (b1 & c1 & w1 & line_end & Hr & Hfind & Hsize & Hw1 & _); [unfold SIZE_MAX; lia|done| |].
    { rewrite Hstream. unfold render_chunks. cbn [map concat]. by rewrite <- !app_assoc. }
    exists c1, w1. split; [|done]. simpl.
    unfold ReadChunkedBody_round, mbind, Sys_bind. rewrite Hr. simpl. rewrite Hfind. simpl.
    change (id line_end) with line_end. rewrite Hsize. simpl. by rewrite app_nil_r.
  - destruct fuel as [|fuel]; [simpl in Hf; lia|].
    destruct (chunk_round s buffer body chunks tail w c (render_chunks parts e ++ rest) Hs Hw Hc)
      as (b1 & c1 & w1 & Hr & Hw1 & Hrest).
    { rewrite Hstream. unfold render_chunks. cbn [map concat]. by rewrite <- !app_assoc. }
    destruct (IH fuel b1 (body ++ c.1) c1 w1 Hw1 Hrest ltac:(simpl in Hf; lia)) as (c2 & w2 & Hl & Hw2).
    exists c2, w2. split; [|done]. simpl. unfold mbind, Sys_bind at 1. rewrite Hr. rewrite Hl.
    by rewrite <- app_assoc.
Qed.

(** ** The other framings *)

Lemma ReadContentLengthBody_delivers s buffer body rest chunks tail w :
  Socket_valid s = true -> delivers w chunks tail -> buffer ++ concat chunks = body ++ rest ->
  exists chunks' w', ReadContentLengthBody s buffer (len body) w = Returns (StatusOr_value body) w' /\
    delivers w' chunks' tail.
Proof.
  intros Hs Hw Hstream.
  destruct (read_until_delivers (fun b => len body <=? len b) s buffer chunks tail w Hs Hw) as
    (pre & post & w' & -> & Hr & Hw' & Hen).
  { rewrite Hstream, len_app. pose proof (len_nonneg rest). lia. }
  exists post, w'. split; [|done]. unfold ReadContentLengthBody, mbind, Sys_bind. rewrite Hr. simpl.
  rewrite concat_app, app_assoc in Hstream. apply app_split_at in Hstream as (z & -> & _); [|lia].
  replace (Z.to_nat (len body)) with (length body) by (unfold len; lia).
  by rewrite take_app_length.
Qed.

Lemma ReadUntilClose_delivers s buffer chunks tail w :
  Socket_valid s = true -> delivers w chunks (recv_ok [] :: tail) ->
  exists w', ReadUntilClose s buffer w = Returns (StatusOr_value (buffer ++ concat chunks)) w'.
Proof.
  intros Hs Hw. unfold ReadUntilClose.
  assert (Hf : (length chunks < S (length (script_ w)))%nat).
  { destruct Hw as [-> _]. rewrite length_app, length_map. lia. }
  revert Hf. generalize (S (length (script_ w))) as fuel. intros fuel.
  revert fuel buffer w Hw. induction chunks as [|d chunks IH]; intros fuel buffer w Hw Hf;
    (destruct fuel as [|fuel]; [lia|]).
  - simpl. unfold mbind at 1, Sys_bind at 1. unfold Socket_Read, Socket.Socket_Read. rewrite Hs. simpl.
    destruct Hw as [Hw _]. unfold sys_loop. rewrite Hw. simpl.
    unfold mbind, Sys_bind, sys. rewrite Hw. simpl. rewrite app_nil_r. eexists. done.
  - destruct (Read_delivers s d chunks _ w Hs Hw) as (w1 & Hr & Hw1).
    destruct (IH fuel (buffer ++ d) w1 Hw1 ltac:(simpl in Hf; lia)) as (w' & Hl).
    exists w'. simpl. unfold mbind at 1, Sys_bind at 1. rewrite Hr. simpl.
    destruct Hw as [_ Hd]. apply Forall_cons in Hd as [Hd _].
    rewrite (proj2 (Z.eqb_neq _ _)) by (intros H; by apply len_0_nil in H).
    rewrite Hl. by rewrite <- app_assoc.
Qed.

(** ** Heads *)

Definition header_ok (h : bytes * bytes) : Prop :=
  ":"%byte ∉ h.1 /\ "013"%byte ∉ h.1 /\ "013"%byte ∉ h.2 /\ tight h.1 /\ tight h.2.

Definition render_header (h : bytes * bytes) : bytes := h.1 ++ bs ": " ++ h.2.

Definition status_line (code : Z) (reason : bytes) : bytes :=
  bs "HTTP/1.1 " ++ to_string code ++ bs " " ++ reason.

(** Lines separated by CR LF. *)
Definition join_lines (first : bytes) (lines : list bytes) : bytes :=
  first ++ concat (map (app CRLF) lines).

Definition render_head (code : Z) (reason : bytes) (headers : list (bytes * bytes)) : bytes :=
  join_lines (status_line code reason) (map render_header headers).

Definition headers_map (headers : list (bytes * bytes)) : gmap bytes bytes :=
  fold_left (fun m h => emplace (ToLower h.1) h.2 m) headers ∅.

(** A line of a head: not empty and without CR. *)
Definition line_ok (l : bytes) : Prop := l <> [] /\ "013"%byte ∉ l.

Lemma find_sub_skip c pat s t :
  c ∉ s -> find_sub (c :: pat) (s ++ t) = Z.add (len s) <$> find_sub (c :: pat) t.
Proof.
  induction s as [|b s IH]; intros H.
  - simpl app. by destruct (find_sub (c :: pat) t).
  - change (find_sub (c :: pat) ((b :: s) ++ t)) with
      (if starts_with (b :: s ++ t) (c :: pat) then Some 0
       else Z.succ <$> find_sub (c :: pat) (s ++ t)).
    unfold starts_with. rewrite bool_decide_false by (simpl; intros [= -> _]; set_solver).
    rewrite IH by set_solver. destruct (find_sub (c :: pat) t); simpl; [|done]. f_equal.
    unfold len. simpl. lia.
Qed.

Lemma find_sub_step pat b s :
  starts_with (b :: s) pat = false -> find_sub pat (b :: s) = Z.succ <$> find_sub pat s.
Proof. intros H. simpl. unfold find_sub. fold find_sub. by rewrite H. Qed.

(** The end of a head is the first empty line. *)
Lemma find_head_end first lines rest :
  line_ok first -> Forall line_ok lines ->
  find_sub CRLFCRLF (join_lines first lines ++ CRLFCRLF ++ rest) = Some (len (join_lines first lines)).
Proof.
  intros [_ Hf] Hl. unfold join_lines. rewrite <- app_assoc.
  change CRLFCRLF with ("013"%byte :: ["010"; "013"; "010"]%byte).
  rewrite find_sub_skip by done.
  enough (find_sub ("013"%byte :: ["010"; "013"; "010"]%byte)
    (concat (map (app CRLF) lines) ++ ("013"%byte :: ["010"; "013"; "010"]%byte) ++ rest) =
    Some (len (concat (map (app CRLF) lines)))) as -> by (simpl; by rewrite len_app).
  clear first Hf. induction Hl as [|l lines [Hne Hl] _ IH].
  - apply (find_sub_app "013"%byte _ [] rest). set_solver.
  - destruct l as [|b l]; [done|]. apply not_elem_of_cons in Hl as [Hb Hl].
    set (pat := "013"%byte :: ["010"; "013"; "010"]%byte) in *.
    set (rest' := concat (map (app CRLF) lines)) in *.
    replace (concat (map (app CRLF) ((b :: l) :: lines)) ++ pat ++ rest) with
      ("013"%byte :: ("010"%byte :: b :: l) ++ rest' ++ pat ++ rest)
      by (simpl; unfold CRLF; simpl; by rewrite <- app_assoc).
    rewrite find_sub_step by (apply bool_decide_eq_false; unfold pat; simpl; congruence).
    unfold pat at 1. rewrite find_sub_skip by set_solver. fold pat. rewrite IH. simpl.
    f_equal. unfold rest', CRLF, len. simpl. rewrite length_app. lia.
Qed.

(** *** Parsing what was rendered *)

Lemma parse_header_line_render h m :
  header_ok h -> parse_header_line (render_header h) m = emplace (ToLower h.1) h.2 m.
Proof.
  intros (Hc & _ & _ & Hn & Hv). unfold parse_header_line, render_header.
  change (bs ": " ++ h.2) with (":"%byte :: bs " " ++ h.2).
  rewrite find_byte_app by done. rewrite substr_all by done. rewrite (Trim_tight h.1) by done.
  do 2 f_equal.
  replace (Z.to_nat (len h.1 + 1)) with (length h.1 + 1)%nat by (unfold len; lia).
  rewrite drop_app_add. simpl drop. rewrite <- (app_nil_r h.2) at 1.
  apply (Trim_pad [" "%byte] h.2 []); [by repeat constructor|constructor|done].
Qed.

Lemma line_ok_header h : header_ok h -> line_ok (render_header h).
Proof.
  intros (Hc & H1 & H2 & _). unfold render_header. split.
  - intros H. by apply app_eq_nil in H as [_ H].
  - rewrite !not_elem_of_app. split_and!; [done| |done]. by vm_compute; set_solver.
Qed.

(** The header loop from the end of a line. *)
Lemma parse_header_lines_render headers pre m fuel :
  Forall header_ok headers -> (length headers < fuel)%nat ->
  let block := pre ++ concat (map (app CRLF) (map render_header headers)) in
  parse_header_lines fuel block (match headers with [] => len block | _ => len pre + 2 end) m =
  fold_left (fun m h => emplace (ToLower h.1) h.2 m) headers m.
Proof.
  intros Hh. revert pre m fuel. induction Hh as [|h headers Hh _ IH]; intros pre m fuel Hf;
    (destruct fuel as [|fuel]; [simpl in Hf; lia|]).
  - simpl. by rewrite (proj2 (Z.ltb_ge _ _)) by lia.
  - intros block. cbn [parse_header_lines fold_left].
    set (rest := concat (map (app CRLF) (map render_header headers))).
    assert (Hb : block = (pre ++ CRLF) ++ render_header h ++ rest).
    { unfold block, rest. cbn [map concat]. by rewrite <- !app_assoc. }
    assert (Hdrop : drop (Z.to_nat (len pre + 2)) block = render_header h ++ rest).
    { rewrite Hb. apply drop_app_length'. rewrite length_app. unfold len, CRLF. simpl. lia. }
    destruct (line_ok_header h Hh) as [Hne Hcr].
    rewrite (proj2 (Z.ltb_lt _ _)).
    2: { rewrite Hb, !len_app. change (len CRLF) with 2. pose proof (len_nonneg rest).
         assert (len (render_header h) <> 0) by (intros Hz; by apply len_0_nil in Hz).
         pose proof (len_nonneg (render_header h)). lia. }
    unfold find_sub_from. rewrite Hdrop.
    destruct headers as [|h' headers].
    + unfold rest. simpl concat. rewrite app_nil_r.
      change CRLF with ("013"%byte :: ["010"%byte]). rewrite find_sub_None by done. simpl.
      by rewrite parse_header_line_render.
    + assert (Hrest : rest = CRLF ++ render_header h' ++ concat (map (app CRLF) (map render_header headers))).
      { unfold rest. cbn [map concat]. by rewrite <- app_assoc. }
      rewrite Hrest. change CRLF with ("013"%byte :: ["010"%byte]) at 1.
      rewrite find_sub_app by done. simpl fmap.
      specialize (IH (pre ++ CRLF ++ render_header h) (emplace (ToLower h.1) h.2 m) fuel ltac:(simpl in *; lia)).
      cbv zeta in IH. fold rest in IH.
      replace ((pre ++ CRLF ++ render_header h) ++ rest) with block in IH
        by (rewrite Hb, <- !app_assoc; done).
      replace (len (pre ++ CRLF ++ render_header h) + 2) with
        (len pre + 2 + len (render_header h) + 2) in IH
        by (rewrite !len_app; change (len CRLF) with 2; lia).
      rewrite <- IH. f_equal. rewrite <- parse_header_line_render by done. f_equal.
      unfold substr. rewrite Hdrop.
      replace (Z.to_nat (len pre + 2 + len (render_header h) - (len pre + 2)))
        with (length (render_header h)) by (unfold len; lia).
      apply take_app_length.
Qed.

Lemma parse_status_line_render code reason :
  100 <= code <= 999 -> parse_status_line (status_line code reason) = StatusOr_value code.
Proof.
  intros Hc. unfold parse_status_line, status_line.
  change (bs "HTTP/1.1 " ++ to_string code ++ bs " " ++ reason) with
    (bs "HTTP/1.1" ++ " "%byte :: to_string code ++ " "%byte :: reason).
  rewrite find_byte_app by (vm_compute; set_solver).
  change (len (bs "HTTP/1.1")) with 8. change (Z.to_nat (8 + 1)) with 9%nat.
  unfold to_string. rewrite (proj2 (Z.ltb_ge _ _)) by lia.
  change (drop 9 (bs "HTTP/1.1" ++ " "%byte :: to_chars 10 code ++ " "%byte :: reason)) with
    (to_chars 10 code ++ " "%byte :: reason).
  rewrite find_byte_app by (apply to_chars_no_char; [lia..|done]).
  unfold substr. change (drop (Z.to_nat (8 + 1)) (bs "HTTP/1.1" ++ " "%byte :: to_chars 10 code ++ " "%byte :: reason)) with
    (to_chars 10 code ++ " "%byte :: reason).
  replace (Z.to_nat (8 + 1 + len (to_chars 10 code) - 8 - 1)) with (length (to_chars 10 code))
    by (unfold len; lia).
  rewrite take_app_length, <- (app_nil_r (to_chars 10 code)), from_to_chars; [done|lia|lia| |done].
  unfold INT_MIN, INT_MAX. lia.
Qed.

Lemma status_line_ok code reason :
  100 <= code <= 999 -> "013"%byte ∉ reason -> line_ok (status_line code reason).
Proof.
  intros Hc Hr. split; [done|]. unfold status_line, to_string.
  rewrite (proj2 (Z.ltb_ge _ _)) by lia. rewrite !not_elem_of_app.
  split_and!; [vm_compute; set_solver|by apply to_chars_no_char; [lia..|]|vm_compute; set_solver|done].
Qed.

Lemma length_headers headers :
  (length headers <= length (concat (map (app CRLF) (map render_header headers))))%nat.
Proof.
  induction headers as [|h headers IH]; cbn [map concat]; [done|].
  rewrite !length_app. change (length CRLF) with 2%nat. cbn [length]. lia.
Qed.

Lemma parse_head_render code reason headers :
  100 <= code <= 999 -> "013"%byte ∉ reason -> Forall header_ok headers ->
  parse_head (render_head code reason headers) = StatusOr_value (code, headers_map headers).
Proof.
  intros Hc Hr Hh. destruct (status_line_ok code reason Hc Hr) as [Hne Hcr].
  unfold parse_head, render_head, join_lines.
  set (lines := concat (map (app CRLF) (map render_header headers))).
  set (st := status_line code reason) in *.
  pose proof (parse_status_line_render code reason Hc) as Hst. fold st in Hst.
  pose proof (length_headers headers) as Hl. fold lines in Hl.
  destruct headers as [|h headers].
  - assert (lines = []) as -> by done. rewrite app_nil_r.
    change CRLF with ("013"%byte :: ["010"%byte]) at 1. change CRLF with ("013"%byte :: ["010"%byte]).
    rewrite find_sub_None by done. rewrite Hst. simpl so_value_. cbv iota.
    do 2 f_equal. destruct (length st) eqn:E; [done|]. simpl.
    by rewrite (proj2 (Z.ltb_ge _ _)) by lia.
  - assert (Hlines : lines = CRLF ++ render_header h ++ concat (map (app CRLF) (map render_header headers))).
    { unfold lines. cbn [map concat]. by rewrite <- app_assoc. }
    assert (find_sub CRLF (st ++ lines) = Some (len st)) as ->.
    { rewrite Hlines. by apply (find_sub_app "013"%byte ["010"%byte]). }
    rewrite substr_all by done. rewrite Hst. simpl so_value_. cbv iota. do 2 f_equal.
    apply (parse_header_lines_render (h :: headers) st ∅); [done|].
    rewrite length_app. assert (length st <> O) by (by destruct st). simpl in *. lia.
Qed.

(** ** A whole response *)

(** How the body is carried: [framed headers body wire tail] says that [wire] is
    the form of [body] the headers announce, [tail] the results of the reads
    after it. *)
Inductive framed (headers : gmap bytes bytes) (body wire : bytes) (tail : list sysret) : Prop :=
  | framed_chunked parts ext coding rest :
      headers !! bs "transfer-encoding" = Some coding ->
      is_Some (find_sub (bs "chunked") (ToLower coding)) ->
      Forall chunk_ok parts -> chunk_ext ext ->
      wire = render_chunks parts ext ++ rest -> body = concat (map fst parts) ->
      framed headers body wire tail
  | framed_length rest :
      headers !! bs "transfer-encoding" = None ->
      headers !! bs "content-length" = Some (to_string (len body)) -> len body <= SIZE_MAX ->
      wire = body ++ rest -> framed headers body wire tail
  | framed_close tail' :
      headers !! bs "transfer-encoding" = None -> headers !! bs "content-length" = None ->
      wire = body -> tail = recv_ok [] :: tail' -> framed headers body wire tail.

Lemma render_chunks_length parts ext rest :
  (length parts <= length (render_chunks parts ext ++ rest))%nat.
Proof.
  unfold render_chunks. rewrite !length_app.
  enough (length parts <= length (concat (map render_chunk parts)))%nat by lia.
  induction parts as [|c parts IH]; simpl; [lia|].
  unfold render_chunk at 1. rewrite !length_app. unfold CRLF. simpl. lia.
Qed.

Lemma ParseContentLength_render n :
  0 <= n <= SIZE_MAX -> ParseContentLength (to_string n) = StatusOr_value n.
Proof.
  intros Hn. unfold ParseContentLength, to_string. rewrite (proj2 (Z.ltb_ge _ _)) by lia.
  rewrite <- (app_nil_r (to_chars 10 n)), from_to_chars; done || lia.
Qed.

#[local] Arguments ReadChunkedBody : simpl never.
#[local] Arguments ReadUntilClose : simpl never.
#[local] Arguments ReadContentLengthBody : simpl never.

(** The body reader chosen by the headers returns the body. *)
Lemma read_body headers body wire tail s buffer chunks w :
  Socket_valid s = true -> delivers w chunks tail -> buffer ++ concat chunks = wire ->
  framed headers body wire tail ->
  exists w',
    (match headers !! bs "transfer-encoding" with
     | Some coding =>
         if bool_decide (is_Some (find_sub (bs "chunked") (ToLower coding)))
         then ReadChunkedBody s buffer else ReadUntilClose s buffer
     | None =>
         match headers !! bs "content-length" with
         | Some text =>
             match so_value_ (ParseContentLength text) with
             | None => fail_with (so_status_ (ParseContentLength text))
             | Some n => ReadContentLengthBody s buffer n
             end
         | None => ReadUntilClose s buffer
         end
     end) w = Returns (StatusOr_value body) w'.
Proof.
  intros Hs Hw Hstream [parts ext coding rest Hte Hch Hp He Hwire ->|rest Hte Hcl Hlen Hwire|tail' Hte Hcl -> ->].
  - rewrite Hte, bool_decide_true by done. unfold ReadChunkedBody.
    destruct (chunk_loop parts ext rest (S (length buffer + available w)) s buffer [] chunks tail w)
      as (c' & w' & Hr & _); [done..|by rewrite Hstream| |by eauto].
    pose proof (available_delivers _ _ _ Hw) as Ha.
    pose proof (render_chunks_length parts ext rest) as Hl. rewrite <- Hwire, <- Hstream in Hl.
    rewrite length_app in Hl. lia.
  - rewrite Hte, Hcl, ParseContentLength_render by (pose proof (len_nonneg body); lia). simpl.
    destruct (ReadContentLengthBody_delivers s buffer body rest chunks tail w) as (c' & w' & Hr & _);
      [done..|by rewrite Hstream|by eauto].
  - rewrite Hte, Hcl.
    destruct (ReadUntilClose_delivers s buffer chunks tail' w) as (w' & Hr); [done..|].
    exists w'. by rewrite Hr, Hstream.
Qed.

(** ** Properties *)

(** C38: a response with any status code, headers and body, its body framed by
    chunked coding, by its length or by the end of the connection, is received
    as exactly that status, those headers (names in lower case, the first of
    equal names kept) and that body, in whatever pieces its bytes arrive. *)
Theorem ReceiveResponse_roundtrip s code reason headers body wire chunks tail w :
  Socket_valid s = true -> 100 <= code <= 999 -> "013"%byte ∉ reason -> Forall header_ok headers ->
  framed (headers_map headers) body wire tail -> delivers w chunks tail ->
  concat chunks = render_head code reason headers ++ CRLFCRLF ++ wire ->
  exists w', ReceiveResponse s w =
    Returns (StatusOr_value (MkConsulHttpResponse code (headers_map headers) body)) w'.
Proof.
  intros Hs Hc Hr Hh Hframe Hw Hstream.
  assert (Hlines : Forall line_ok (map render_header headers)).
  { apply Forall_map. eapply Forall_impl; [exact Hh|]. apply line_ok_header. }
  assert (Hfind : find_sub CRLFCRLF ([] ++ concat chunks) = Some (len (render_head code reason headers))).
  { simpl. rewrite Hstream. apply find_head_end; [by apply status_line_ok|done]. }
  destruct (read_until_delivers (fun b => bool_decide (is_Some (find_sub CRLFCRLF b))) s [] chunks
    tail w Hs Hw) as (pre & post & w1 & -> & Hread & Hw1 & Hen).
  { by rewrite Hfind, bool_decide_true by eauto. }
  apply bool_decide_eq_true in Hen as [i Hi]. cbn [app] in Hfind, Hi, Hread. rewrite concat_app in Hfind, Hstream.
  pose proof (find_sub_in_prefix _ _ _ _ _ Hfind Hi) as <-.
  pose proof (find_sub_length _ _ _ Hi) as [_ Hl]. change (len CRLFCRLF) with 4 in Hl.
  rewrite app_assoc in Hstream. apply app_split_at in Hstream as (z & Hz & Hrest).
  2: { rewrite len_app. change (len CRLFCRLF) with 4. lia. }
  destruct (read_body _ _ _ _ s z post w1 Hs Hw1 Hrest Hframe) as (w' & Hbody).
  exists w'. unfold ReceiveResponse. unfold mbind at 1, Sys_bind at 1. rewrite Hread. simpl.
  rewrite Hi. simpl. change (id (len (render_head code reason headers))) with (len (render_head code reason headers)).
  rewrite Hz, <- app_assoc, substr_all by done. rewrite parse_head_render by done. simpl.
  match goal with |- context [drop ?n ?l] => replace (drop n l) with z end.
  2: { change (z = drop (Z.to_nat (len (render_head code reason headers) + 4))
         (render_head code reason headers ++ CRLFCRLF ++ z)).
       rewrite app_assoc, drop_app_length'; [done|].
       rewrite length_app. unfold len, CRLFCRLF, CRLF. simpl. lia. }
  unfold mbind, Sys_bind. rewrite Hbody. simpl. done.
Qed.

(** *** No path ends the process or leaks the connection *)

(** A result without a value carries a failure. *)
Definition honest {T} (r : StatusOr T) : Prop := so_value_ r = None -> Status_ok (so_status_ r) = false.

Lemma honest_fail {T} c m : c <> Ok -> honest (T:=T) (StatusOr_fail c m).
Proof. intros H _. by apply Status_ok_false. Qed.

Lemma honest_value {T} (v : T) : honest (StatusOr_value v).
Proof. done. Qed.

Lemma yields_fail_honest {T} st : yields (fail_with (A:=T) st) honest.
Proof.
  intros w r w' H. apply yields_fail in H as [-> H]. intros _. by apply Status_ok_false.
Qed.

Lemma yields_repeat {A} fuel (body : Sys (option A)) Q :
  yields body (fun r => match r with Some a => Q a | None => True end) ->
  yields (sys_repeat fuel body) Q.
Proof.
  intros H. induction fuel as [|fuel IH]; [by intros w a w' [=]|]. simpl.
  eapply yields_bind; [exact H|]. intros [a|] Ha; [by apply yields_ret|exact IH].
Qed.

Lemma yields_Read s n : yields (Socket_Read s n) honest.
Proof.
  unfold Socket_Read, Socket.Socket_Read. destruct (negb _); [by apply yields_ret, honest_fail|].
  intros w a w' H. unfold sys_loop in H. revert H. apply yields_repeat. clear.
  apply (yields_bind _ _ (fun _ => True)); [by intros ???|]. intros r _.
  repeat (case_test; [apply yields_ret; first [done | by apply honest_fail]|]).
  eapply yields_bind; [apply yields_fail_honest|]. intros a Ha. by apply yields_ret.
Qed.

(** A result that is a failure or keeps the socket. *)
Definition keeps {A} (s : Socket) (m : Sys A) : Prop := owns (owned s) m (fun _ => owned s).

Lemma keeps_ret {A} s (a : A) : keeps s (mret a).
Proof. by apply owns_ret'. Qed.

Lemma keeps_fail {A} s st : Status_ok st = false -> keeps s (fail_with (A:=A) st).
Proof. intros H. apply owns_fail. by apply Status_ok_false. Qed.

Lemma keeps_bind {A B} s (m : Sys A) (Q : A -> Prop) (k : A -> Sys B) :
  yields m Q -> keeps s m -> (forall a, Q a -> keeps s (k a)) -> keeps s (m ≫= k).
Proof. intros HQ Hm Hk. by eapply owns_bind_pure. Qed.

Lemma keeps_Read s n : keeps s (Socket_Read s n).
Proof. apply owns_Read. Qed.

Lemma keeps_blocks {A} s : keeps s (fun w => Blocks (A:=A) w).
Proof. intros w rest H. eauto. Qed.

Lemma keeps_ReadMore s buffer : keeps s (ReadMore s buffer).
Proof.
  eapply keeps_bind; [apply yields_Read|apply keeps_Read|]. intros r _.
  destruct (so_value_ r); [case_test|]; apply keeps_ret.
Qed.

Lemma keeps_read_until enough s buffer : keeps s (read_until enough s buffer).
Proof.
  intros w. unfold read_until. generalize (length (script_ w)) as fuel. intros fuel.
  revert w. change (keeps s (read_while fuel enough s buffer)).
  revert buffer. induction fuel as [|fuel IH]; intros buffer; simpl;
    (destruct (enough buffer); [apply keeps_ret|]); [apply keeps_blocks|].
  eapply (keeps_bind _ _ (fun _ => True)); [by intros ???|apply keeps_ReadMore|].
  intros [st b] _. case_test; [apply keeps_ret|apply IH].
Qed.

Lemma keeps_ReadUntilClose s buffer : keeps s (ReadUntilClose s buffer).
Proof.
  intros w. unfold ReadUntilClose. generalize (S (length (script_ w))) as fuel. intros fuel.
  revert w. change (keeps s (ReadUntilClose_loop fuel s buffer)).
  revert buffer. induction fuel as [|fuel IH]; intros buffer; simpl; [apply keeps_blocks|].
  eapply keeps_bind; [apply yields_Read|apply keeps_Read|]. intros r Hr.
  destruct (so_value_ r) eqn:E; [|by apply keeps_fail, Hr].
  case_test; [apply keeps_ret|apply IH].
Qed.

Lemma yields_ReadUntilClose s buffer : yields (ReadUntilClose s buffer) honest.
Proof.
  intros w. unfold ReadUntilClose. generalize (S (length (script_ w))) as fuel. intros fuel.
  revert w. change (yields (ReadUntilClose_loop fuel s buffer) honest).
  revert buffer. induction fuel as [|fuel IH]; intros buffer; simpl; [by intros ? ? ? [=]|].
  eapply yields_bind; [apply yields_Read|]. intros r _.
  destruct (so_value_ r) eqn:E; [|apply yields_fail_honest].
  case_test; [by apply yields_ret|apply IH].
Qed.

Lemma keeps_ReadContentLengthBody s buffer n :
  keeps s (ReadContentLengthBody s buffer n) /\ yields (ReadContentLengthBody s buffer n) honest.
Proof.
  unfold ReadContentLengthBody. split.
  - eapply (keeps_bind _ _ (fun _ => True)); [by intros ???|apply keeps_read_until|].
    intros [st b] _. case_test; [apply keeps_fail; by destruct (Status_ok st)|apply keeps_ret].
  - apply (yields_bind _ _ (fun _ => True)); [by intros ???|]. intros [st b] _.
    case_test; [apply yields_fail_honest|by apply yields_ret].
Qed.

Lemma honest_if {T} (b : bool) c m (v : T) :
  c <> Ok -> honest (if b then StatusOr_fail c m else StatusOr_value v).
Proof. intros. destruct b; [by apply honest_fail|done]. Qed.

Lemma honest_ParseChunkSize line : honest (ParseChunkSize line).
Proof. unfold ParseChunkSize. destruct (from_chars _ _ _ _) as [[? ?] ?]. by apply honest_if. Qed.

Lemma honest_ParseContentLength v : honest (ParseContentLength v).
Proof. unfold ParseContentLength. destruct (from_chars _ _ _ _) as [[? ?] ?]. by apply honest_if. Qed.

Lemma honest_parse_head block : honest (parse_head block).
Proof.
  unfold parse_head.
  set (line := match find_sub CRLF block with Some e => substr block 0 e | None => block end).
  assert (H : honest (parse_status_line line)).
  { unfold parse_status_line.
    destruct (find_byte _ line); [|by apply honest_fail].
    destruct (find_byte _ _); [|by apply honest_fail].
    destruct (from_chars _ _ _ _) as [[? ?] ?]. by apply honest_if. }
  destruct (so_value_ (parse_status_line line)) eqn:E; [done|]. intros _. simpl. by apply H.
Qed.

Lemma keeps_chunk_round s buffer body :
  keeps s (ReadChunkedBody_round s buffer body) /\
  yields (ReadChunkedBody_round s buffer body) (fun r => match r with inl e => honest e | inr _ => True end).
Proof.
  assert (Hfail : forall st, yields (e ← fail_with (A:=bytes) st; mret (inl (B:=bytes * bytes) e))
                    (fun r => match r with inl e => honest e | inr _ => True end)).
  { intros st. eapply yields_bind; [apply yields_fail_honest|]. intros e He. by apply yields_ret. }
  assert (Hkfail : forall st, Status_ok st = false ->
    keeps s (e ← fail_with (A:=bytes) st; mret (inl (B:=bytes * bytes) e))).
  { intros st H. eapply keeps_bind; [apply yields_fail_honest|by apply keeps_fail|].
    intros. apply keeps_ret. }
  unfold ReadChunkedBody_round. split.
  - eapply (keeps_bind _ _ (fun _ => True)); [by intros ???|apply keeps_read_until|].
    intros [st b] _. case_test; [apply Hkfail; by destruct (Status_ok st)|].
    pose proof (honest_ParseChunkSize (substr b 0 (default 0 (find_sub CRLF b)))) as Hp.
    destruct (so_value_ (ParseChunkSize _)) as [n|] eqn:E; [|by apply Hkfail, Hp].
    do 2 (case_test; [apply keeps_ret|]).
    eapply (keeps_bind _ _ (fun _ => True)); [by intros ???|apply keeps_read_until|].
    intros [st2 b2] _. case_test; [apply Hkfail; by destruct (Status_ok st2)|].
    case_test; apply keeps_ret.
  - apply (yields_bind _ _ (fun _ => True)); [by intros ???|]. intros [st b] _.
    case_test; [apply Hfail|].
    destruct (so_value_ (ParseChunkSize _)) as [n|] eqn:E; [|apply Hfail].
    case_test; [by apply yields_ret|]. case_test; [by apply yields_ret, honest_fail|].
    apply (yields_bind _ _ (fun _ => True)); [by intros ???|]. intros [st2 b2] _.
    case_test; [apply Hfail|]. case_test; [by apply yields_ret, honest_fail|by apply yields_ret].
Qed.

Lemma keeps_ReadChunkedBody s buffer :
  keeps s (ReadChunkedBody s buffer) /\ yields (ReadChunkedBody s buffer) honest.
Proof.
  assert (H : forall fuel buffer body,
    keeps s (ReadChunkedBody_loop fuel s buffer body) /\
    yields (ReadChunkedBody_loop fuel s buffer body) honest).
  { intros fuel. induction fuel as [|fuel IH]; intros b body; simpl.
    - split; [apply keeps_blocks|by intros ? ? ? [=]].
    - destruct (keeps_chunk_round s b body) as [Hk Hy]. split.
      + eapply keeps_bind; [exact Hy|exact Hk|]. intros [e|[b' body']] _; [apply keeps_ret|apply IH].
      + eapply yields_bind; [exact Hy|]. intros [e|[b' body']] He; [by apply yields_ret|apply IH]. }
  split; intros w; apply H.
Qed.

Lemma keeps_ReceiveResponse s : keeps s (ReceiveResponse s).
Proof.
  unfold ReceiveResponse.
  eapply (keeps_bind _ _ (fun _ => True)); [by intros ???|apply keeps_read_until|].
  intros [st b] _. case_test; [apply keeps_fail; by destruct (Status_ok st)|].
  match goal with |- context [parse_head ?x] =>
    pose proof (honest_parse_head x) as Hh; destruct (so_value_ (parse_head x)) as [[code headers]|] eqn:E end;
    [|by apply keeps_fail, Hh].
  eapply (keeps_bind _ _ honest).
  - repeat case_match; first [apply yields_fail_honest | apply yields_ReadUntilClose
      | apply keeps_ReadChunkedBody | apply keeps_ReadContentLengthBody].
  - case_match; [case_test; [apply keeps_ReadChunkedBody|apply keeps_ReadUntilClose]|].
    case_match; [|apply keeps_ReadUntilClose].
    match goal with |- context [ParseContentLength ?x] =>
      pose proof (honest_ParseContentLength x) as Hc; destruct (so_value_ (ParseContentLength x)) eqn:En end;
      [apply keeps_ReadContentLengthBody|by apply keeps_fail, Hc].
  - intros r Hr. destruct (so_value_ r) eqn:Er; [apply keeps_ret|by apply keeps_fail, Hr].
Qed.

Lemma keeps_WriteAll s b : keeps s (Socket_WriteAll error_message s b).
Proof. exact (owns_WriteAll_loop error_message (length b) s b 0). Qed.

Lemma yields_any {A} (m : Sys A) : yields m (fun _ => True).
Proof. by intros ???. Qed.

Lemma yields_ReceiveResponse s : yields (ReceiveResponse s) honest.
Proof.
  unfold ReceiveResponse. eapply yields_bind; [apply yields_any|]. intros [st b] _.
  case_test; [apply yields_fail_honest|].
  destruct (so_value_ (parse_head _)) as [[code headers]|]; [|apply yields_fail_honest].
  eapply yields_bind; [apply yields_any|]. intros r _.
  destruct (so_value_ r); [by apply yields_ret|apply yields_fail_honest].
Qed.

Lemma yields_SendRequest inet_pton host client method path body timeout :
  yields (SendRequest inet_pton host client method path body timeout) honest.
Proof.
  unfold SendRequest. eapply yields_bind; [apply yields_any|]. intros [st s] _.
  eapply (yields_bind _ _ honest).
  - case_test; [apply yields_fail_honest|].
    eapply yields_bind; [apply yields_any|]. intros st1 _. case_test; [apply yields_fail_honest|].
    eapply yields_bind; [apply yields_any|]. intros st2 _. case_test; [apply yields_fail_honest|].
    apply yields_ReceiveResponse.
  - intros r Hr. eapply yields_bind; [apply yields_any|]. intros ? _. by apply yields_ret.
Qed.

(** a request never ends the process and its connection never outlives
    it: whatever the agent and the kernel do, every descriptor the request
    opened is closed when it returns, and none is used after it was closed. *)
Theorem SendRequest_closes (inet_pton : bytes -> option Z) (host : byte_order) (client : ConsulHttpClient) (method path body : bytes) (timeout : Z)
    (script : list sysret) :
  match SendRequest inet_pton host client method path body timeout (MkWorld script []) with
  | Returns _ w => replay [] (calls_ w) = Some []
  | Blocks w => is_Some (replay [] (calls_ w))
  | Terminates => False
  end.
Proof.
  assert (H : owns [] (SendRequest inet_pton host client method path body timeout) (fun _ => [])).
  { unfold SendRequest. eapply owns_bind.
    { apply (owns_Connect error_message inet_pton host Socket_default). }
    intros [st s]. simpl. eapply (owns_bind _ _ (fun _ => owned s)).
    - case_test; [apply keeps_fail; by destruct (Status_ok st)|].
      eapply (keeps_bind _ _ (fun _ => True)); [apply yields_any|exact (owns_SetTimeout error_message s timeout)|].
      intros st1 _. case_test; [apply keeps_fail; by destruct (Status_ok st1)|].
      eapply (keeps_bind _ _ (fun _ => True)); [apply yields_any|apply keeps_WriteAll|].
      intros st2 _. case_test; [apply keeps_fail; by destruct (Status_ok st2)|].
      apply keeps_ReceiveResponse.
    - intros r. eapply (owns_bind _ _ (fun _ => [])); [|intros ?; by apply owns_ret'].
      unfold Socket_Close. fold (Socket_valid s). unfold owned.
      destruct (Socket_valid s); [|by apply owns_ret'].
      eapply owns_bind; [apply owns_close|]. intros ?. by apply owns_ret'. }
  specialize (H (MkWorld script []) [] ltac:(by exists [])).
  destruct (SendRequest _ _ _ _ _ _ _ _) as [r w|w|]; [|by destruct H as (? & ? & ? & _)|done].
  destruct H as (o & Hr & Ho). simpl in Ho. apply Permutation_nil_r in Ho. by subst o.
Qed.

End http.

(** A chunked response delivered in two pieces, cut inside its head. *)
Definition example_headers : list (bytes * bytes) :=
  [(bs "X-Consul-Index", bs "7"); (bs "Transfer-Encoding", bs "chunked")].

Definition example_wire : bytes :=
  render_head 200 (bs "OK") example_headers ++ CRLFCRLF ++ render_chunks [(bs "[]", bs ";a")] [].

Definition example_world : world :=
  MkWorld (map recv_ok [take 20 example_wire; drop 20 example_wire]) [].

Lemma ReceiveResponse_roundtrip_witness :
  exists w', ReceiveResponse (fun _ => []) (MkSocket 3) example_world =
    Returns (StatusOr_value (MkConsulHttpResponse 200 (headers_map example_headers) (bs "[]"))) w'.
Proof.
  apply (ReceiveResponse_roundtrip (fun _ => []) (MkSocket 3) 200 (bs "OK") example_headers (bs "[]")
    (render_chunks [(bs "[]", bs ";a")] []) [take 20 example_wire; drop 20 example_wire] []).
  - reflexivity.
  - lia.
  - vm_compute. set_solver.
  - repeat constructor; simpl; try (vm_compute; set_solver); reflexivity.
  - apply (framed_chunked _ _ _ _ [(bs "[]", bs ";a")] [] (bs "chunked") []).
    + vm_compute. reflexivity.
    + vm_compute. eauto.
    + repeat constructor; simpl; try discriminate. vm_compute. set_solver.
    + exact I.
    + vm_compute. reflexivity.
    + reflexivity.
  - split; [reflexivity|]. repeat constructor; vm_compute; discriminate.
  - vm_compute. reflexivity.
Defined.
