(* ===== verification/Naming.v ===== *)
(** * Endpoint naming

    Models [Endpoint] of [include/xrpc/rpc_client.h],
    [src/naming/service_discovery.{h,cpp}] and
    [src/naming/static_discovery.{h,cpp}]: parsing of [list://host:port,...]
    targets and the canonical form of an endpoint list.

    The theorems show that the canonical form is a function of the endpoint set
    alone, and that a printed target, with any white space around its parts,
    parses to the canonical form of its endpoints. *)

From stdpp Require Import sorting.
From S2P Require Import Prelude Text Status FrameHeader Socket ConsulHttp.

Local Open Scope Z_scope.

(** ** Endpoints and their order *)

Record Endpoint := MkEndpoint { host_ : bytes; port_ : Z }.

#[global] Instance Endpoint_eq_dec : EqDecision Endpoint.
Proof. solve_decision. Defined.

(** [std::string::compare]: lexicographic on unsigned characters. *)
Fixpoint bytes_compare (x y : bytes) : comparison :=
  match x, y with
  | [], [] => Eq
  | [], _ :: _ => Lt
  | _ :: _, [] => Gt
  | a :: x, b :: y =>
      match Z_of_byte a ?= Z_of_byte b with Eq => bytes_compare x y | c => c end
  end.

(** The comparator of [CanonicalizeEndpoints]. *)
Definition Endpoint_less (lhs rhs : Endpoint) : bool :=
  if negb (bool_decide (host_ lhs = host_ rhs)) then
    bool_decide (bytes_compare (host_ lhs) (host_ rhs) = Lt)
  else port_ lhs <? port_ rhs.

(** [std::ranges::unique] for equality of both fields: of equal neighbours the
    first one stays. *)
Fixpoint unique (l : list Endpoint) : list Endpoint :=
  match l with
  | a :: (b :: _) as rest => if decide (a = b) then unique rest else a :: unique rest
  | _ => l
  end.

(** [std::ranges::sort] orders by "not greater". *)
Definition Endpoint_le (a b : Endpoint) : Prop := Endpoint_less b a = false.

#[global] Instance Endpoint_le_dec a b : Decision (Endpoint_le a b).
Proof. unfold Endpoint_le. apply _. Defined.

Definition CanonicalizeEndpoints (endpoints : list Endpoint) : list Endpoint :=
  unique (merge_sort Endpoint_le endpoints).

(** ** Static discovery *)

Definition LIST_SCHEME : bytes := bs "list://".
Definition CONSUL_SCHEME : bytes := bs "consul://".

Definition ParsePort (port_text : bytes) : StatusOr Z :=
  let '(ec, rest, parsed_port) := from_chars 10 INT_MIN INT_MAX port_text in
  if negb (bool_decide (ec = errc_none)) || negb (bool_decide (rest = [])) ||
     (parsed_port <=? 0) || (65535 <? parsed_port) then
    StatusOr_fail InvalidArgument "invalid endpoint port"
  else StatusOr_value parsed_port.

Definition ParseEndpoint (endpoint_text : bytes) : option (StatusOr Endpoint) :=
  let endpoint_text := Trim endpoint_text in
  match rfind_byte ":"%byte endpoint_text with
  | None => Some (StatusOr_fail InvalidArgument "invalid list target endpoint")
  | Some colon =>
      if (colon =? 0) || (len endpoint_text <=? colon + 1) then
        Some (StatusOr_fail InvalidArgument "invalid list target endpoint")
      else
      let host := Trim (substr endpoint_text 0 colon) in
      let port := Trim (drop (Z.to_nat (colon + 1)) endpoint_text) in
      if bool_decide (host = []) || bool_decide (port = []) then
        Some (StatusOr_fail InvalidArgument "invalid list target endpoint")
      else
      let parsed_port := ParsePort port in
      match so_value_ parsed_port with
      | None => StatusOr_error (so_status_ parsed_port)
      | Some p => Some (StatusOr_value (MkEndpoint host p))
      end
  end.

(** The loop of [ParseListTarget].  Each round removes a comma, so the length of
    [rest] bounds the rounds. *)
Fixpoint ParseListTarget_loop (fuel : nat) (rest : bytes) (endpoints : list Endpoint)
    : option (StatusOr (list Endpoint)) :=
  match fuel with
  | O => None
  | S fuel =>
      let comma := find_byte ","%byte rest in
      endpoint ← ParseEndpoint (match comma with Some c => substr rest 0 c | None => rest end);
      match so_value_ endpoint with
      | None => StatusOr_error (so_status_ endpoint)
      | Some e =>
          let endpoints := endpoints ++ [e] in
          match comma with
          | None =>
              if bool_decide (endpoints = []) then
                Some (StatusOr_fail InvalidArgument "list target requires at least one endpoint")
              else Some (StatusOr_value (CanonicalizeEndpoints endpoints))
          | Some c => ParseListTarget_loop fuel (drop (Z.to_nat (c + 1)) rest) endpoints
          end
      end
  end.

(** [StaticDiscovery::ParseTarget]; [substr] throws when the target is shorter than
    the scheme (the caller has looked for the scheme). *)
Definition ParseListTarget (target : bytes) : option (StatusOr (list Endpoint)) :=
  if (length target <? length LIST_SCHEME)%nat then Abort "std::out_of_range" else
  let rest := drop (length LIST_SCHEME) target in
  ParseListTarget_loop (S (length rest)) rest [].

(** The discovery chosen for a target. *)
Inductive ServiceDiscovery :=
  | StaticDiscovery (snapshot : list Endpoint)
  | ConsulDiscoveryFor (service_name : bytes) (http_client : ConsulHttpClient).

Definition MakeServiceDiscovery (target consul_address : bytes)
    : option (StatusOr ServiceDiscovery) :=
  let target := Trim target in
  if starts_with target LIST_SCHEME then
    endpoints ← ParseListTarget target;
    match so_value_ endpoints with
    | None => StatusOr_error (so_status_ endpoints)
    | Some l => Some (StatusOr_value (StaticDiscovery l))
    end
  else if starts_with target CONSUL_SCHEME then
    let service_name := Trim (drop (length CONSUL_SCHEME) target) in
    if bool_decide (service_name = []) then
      Some (StatusOr_fail InvalidArgument "consul target requires a service name")
    else
    http_client ← ConsulHttpClient_Create consul_address;
    match so_value_ http_client with
    | None => StatusOr_error (so_status_ http_client)
    | Some c => Some (StatusOr_value (ConsulDiscoveryFor service_name c))
    end
  else Some (StatusOr_fail InvalidArgument "unsupported RpcClient target scheme").

(** ** The order is a strict total order *)

Lemma Z_of_byte_inj a b : Z_of_byte a = Z_of_byte b -> a = b.
Proof. intros H. by rewrite <- (byte_of_Z_of_byte a), H, byte_of_Z_of_byte. Qed.

Lemma bytes_compare_refl x : bytes_compare x x = Eq.
Proof. induction x as [|a x IH]; simpl; [done|]. by rewrite Z.compare_refl. Qed.

Lemma bytes_compare_eq x y : bytes_compare x y = Eq <-> x = y.
Proof.
  split; [|intros ->; apply bytes_compare_refl].
  revert y. induction x as [|a x IH]; intros [|b y]; simpl; try done.
  destruct (Z.compare_spec (Z_of_byte a) (Z_of_byte b)) as [E| |]; try done.
  intros H. f_equal; [by apply Z_of_byte_inj|by apply IH].
Qed.

Lemma bytes_compare_antisym x y : bytes_compare y x = CompOpp (bytes_compare x y).
Proof.
  revert y. induction x as [|a x IH]; intros [|b y]; simpl; try done.
  rewrite (Z.compare_antisym (Z_of_byte a)), IH. by destruct (Z_of_byte a ?= Z_of_byte b).
Qed.

Lemma bytes_compare_trans x y z :
  bytes_compare x y = Lt -> bytes_compare y z = Lt -> bytes_compare x z = Lt.
Proof.
  revert y z. induction x as [|a x IH]; intros [|b y] [|c z]; simpl; try done.
  destruct (Z.compare_spec (Z_of_byte a) (Z_of_byte b)) as [E1|E1|E1]; try done;
  destruct (Z.compare_spec (Z_of_byte b) (Z_of_byte c)) as [E2|E2|E2]; try done; intros H1 H2.
  - rewrite E1, E2, Z.compare_refl. by eapply IH.
  - rewrite E1, (proj2 (Z.compare_lt_iff _ _)); done.
  - rewrite <- E2, (proj2 (Z.compare_lt_iff _ _)); done.
  - rewrite (proj2 (Z.compare_lt_iff _ _)); [done|lia].
Qed.

Definition Endpoint_lt (a b : Endpoint) : Prop := Endpoint_less a b = true.

Lemma Endpoint_lt_spec a b :
  Endpoint_lt a b <->
  bytes_compare (host_ a) (host_ b) = Lt \/ (host_ a = host_ b /\ port_ a < port_ b).
Proof.
  unfold Endpoint_lt, Endpoint_less. case_bool_decide as E; simpl.
  - rewrite E, bytes_compare_refl, Z.ltb_lt. naive_solver.
  - rewrite bool_decide_eq_true. naive_solver.
Qed.

Lemma Endpoint_trichotomy a b : Endpoint_lt a b \/ a = b \/ Endpoint_lt b a.
Proof.
  rewrite !Endpoint_lt_spec. destruct a as [h p], b as [h' p']. simpl.
  rewrite (bytes_compare_antisym h h').
  destruct (bytes_compare h h') eqn:E; [|by left; left|by right; right; left].
  apply bytes_compare_eq in E as ->. destruct (Z.lt_trichotomy p p') as [?|[->|?]]; eauto.
Qed.

Lemma Endpoint_lt_irrefl a : ~ Endpoint_lt a a.
Proof. rewrite Endpoint_lt_spec, bytes_compare_refl. intros [?|[_ ?]]; [done|lia]. Qed.

Lemma Endpoint_lt_trans a b c : Endpoint_lt a b -> Endpoint_lt b c -> Endpoint_lt a c.
Proof.
  rewrite !Endpoint_lt_spec. intros [H1|[H1 H1']] [H2|[H2 H2']].
  - left. by eapply bytes_compare_trans.
  - left. by rewrite <- H2.
  - left. by rewrite H1.
  - right. split; [congruence|lia].
Qed.

Lemma Endpoint_le_lt a b : Endpoint_le a b <-> a = b \/ Endpoint_lt a b.
Proof.
  assert (Hle : Endpoint_le a b <-> ~ Endpoint_lt b a).
  { unfold Endpoint_le, Endpoint_lt. by rewrite not_true_iff_false. }
  rewrite Hle. pose proof (Endpoint_trichotomy a b) as Ht. split.
  - intros H. naive_solver.
  - intros [->|H] H'; [by apply Endpoint_lt_irrefl in H'|].
    by eapply Endpoint_lt_irrefl, Endpoint_lt_trans.
Qed.

#[global] Instance Endpoint_le_trans : Transitive Endpoint_le.
Proof.
  intros a b c. rewrite !Endpoint_le_lt. intros [->|H1] [->|H2]; eauto using Endpoint_lt_trans.
Qed.

#[global] Instance Endpoint_le_total : Total Endpoint_le.
Proof.
  intros a b. rewrite !Endpoint_le_lt. destruct (Endpoint_trichotomy a b) as [?|[?|?]]; eauto.
Qed.

#[global] Instance Endpoint_lt_antisymm : AntiSymm (=) Endpoint_lt.
Proof.
  intros a b H1 H2. destruct (Endpoint_lt_irrefl a). by eapply Endpoint_lt_trans.
Qed.

(** ** [CanonicalizeEndpoints] *)

Lemma elem_of_unique l e : e ∈ unique l <-> e ∈ l.
Proof.
  induction l as [|a l IH]; [done|]. simpl. destruct l as [|b l]; [done|].
  destruct (decide (a = b)) as [->|]; [rewrite IH; set_solver|].
  rewrite !elem_of_cons, IH. set_solver.
Qed.

Lemma unique_sorted l : StronglySorted Endpoint_le l -> StronglySorted Endpoint_lt (unique l).
Proof.
  induction 1 as [|a l Hl IH Hall]; [constructor|]. simpl.
  destruct l as [|b l]; [repeat constructor|].
  destruct (decide (a = b)) as [->|Hne]; [done|]. constructor; [done|].
  apply Forall_forall. intros e He. apply (proj1 (elem_of_unique (b :: l) e)) in He.
  apply Forall_cons in Hall as [Hab _]. apply Endpoint_le_lt in Hab as [?|Hab]; [done|].
  apply elem_of_cons in He as [->|He]; [done|].
  apply StronglySorted_inv in Hl as [_ Hl]. rewrite Forall_forall in Hl.
  apply Hl, Endpoint_le_lt in He as [<-|He]; [done|]. by eapply Endpoint_lt_trans.
Qed.

Lemma canonical_sorted l : StronglySorted Endpoint_lt (CanonicalizeEndpoints l).
Proof. apply unique_sorted, StronglySorted_merge_sort; apply _. Qed.

Lemma elem_of_canonical l e : e ∈ CanonicalizeEndpoints l <-> e ∈ l.
Proof. unfold CanonicalizeEndpoints. by rewrite elem_of_unique, merge_sort_Permutation. Qed.

Lemma lt_sorted_NoDup l : StronglySorted Endpoint_lt l -> NoDup l.
Proof.
  induction 1 as [|a l _ IH Hall]; constructor; [|done]. intros Hin.
  rewrite Forall_forall in Hall. by eapply Endpoint_lt_irrefl, Hall.
Qed.

(** The endpoints form a set: strictly ascending lists with the same elements
    are equal. *)
Lemma lt_sorted_unique l1 l2 :
  StronglySorted Endpoint_lt l1 -> StronglySorted Endpoint_lt l2 ->
  (forall e, e ∈ l1 <-> e ∈ l2) -> l1 = l2.
Proof.
  intros H1 H2 He. apply (StronglySorted_unique Endpoint_lt); [done..|].
  apply NoDup_Permutation; auto using lt_sorted_NoDup.
Qed.

(** the canonical form is strictly ascending, so without duplicates, has
    exactly the endpoints given, and is the same for two lists exactly when
    they hold the same set: neither order nor repetition matters, and a second
    application changes nothing. *)
Theorem CanonicalizeEndpoints_canonical :
  (forall l, StronglySorted Endpoint_lt (CanonicalizeEndpoints l) /\
     NoDup (CanonicalizeEndpoints l) /\
     (forall e, e ∈ CanonicalizeEndpoints l <-> e ∈ l) /\
     CanonicalizeEndpoints (CanonicalizeEndpoints l) = CanonicalizeEndpoints l) /\
  (forall l1 l2, CanonicalizeEndpoints l1 = CanonicalizeEndpoints l2 <->
     (forall e, e ∈ l1 <-> e ∈ l2)).
Proof.
  split.
  - intros l. split_and!; [apply canonical_sorted|apply lt_sorted_NoDup, canonical_sorted
      |intros; apply elem_of_canonical|].
    apply lt_sorted_unique; try apply canonical_sorted. intros e. apply elem_of_canonical.
  - intros l1 l2. split.
    + intros H e. by rewrite <- (elem_of_canonical l1), H, elem_of_canonical.
    + intros H. apply lt_sorted_unique; try apply canonical_sorted.
      intros e. by rewrite !elem_of_canonical.
Qed.

(** ** Targets *)

(** What parsing guarantees of an endpoint, and what printing needs. *)
Definition Endpoint_ok (e : Endpoint) : Prop :=
  host_ e <> [] /\ tight (host_ e) /\ ","%byte ∉ host_ e /\ 0 < port_ e <= 65535.

(** An endpoint as a user may write it, with white space around its parts. *)
Record target_item := MkItem {
  item_endpoint : Endpoint;
  item_before : bytes; item_host : bytes; item_port : bytes; item_after : bytes
}.

Definition item_ok (i : target_item) : Prop :=
  Endpoint_ok (item_endpoint i) /\ spaces (item_before i) /\ spaces (item_host i) /\
  spaces (item_port i) /\ spaces (item_after i).

Definition item_core (i : target_item) : bytes :=
  (host_ (item_endpoint i) ++ item_host i) ++ ":"%byte :: item_port i ++
  to_string (port_ (item_endpoint i)).

Definition render_item (i : target_item) : bytes := item_before i ++ item_core i ++ item_after i.

Fixpoint render_items (i : target_item) (items : list target_item) : bytes :=
  match items with
  | [] => render_item i
  | j :: items => render_item i ++ ","%byte :: render_items j items
  end.

Definition render_target (i : target_item) (items : list target_item) : bytes :=
  LIST_SCHEME ++ render_items i items.

Lemma starts_tight_app x y : x <> [] -> starts_tight x -> starts_tight (x ++ y).
Proof. by destruct x. Qed.

Lemma tight_app x y z : x <> [] -> y <> [] -> tight x -> tight y -> tight (x ++ z ++ y).
Proof.
  intros Hx Hy [Hx1 _] [_ Hy2]. split; [by apply starts_tight_app|].
  rewrite reverse_app, reverse_app, <- app_assoc. apply starts_tight_app; [|done].
  intros H. apply (f_equal reverse) in H. by rewrite reverse_involutive in H.
Qed.

Lemma to_string_port p : 0 < p <= 65535 -> to_string p = to_chars 10 p.
Proof. intros. unfold to_string. by rewrite (proj2 (Z.ltb_ge _ _)) by lia. Qed.

Lemma ParsePort_render p : 0 < p <= 65535 -> ParsePort (to_string p) = StatusOr_value p.
Proof.
  intros Hp. unfold ParsePort. rewrite to_string_port by done.
  rewrite <- (app_nil_r (to_chars 10 p)), from_to_chars.
  - rewrite !bool_decide_true by done. simpl.
    by rewrite (proj2 (Z.leb_gt _ _)), (proj2 (Z.ltb_ge _ _)) by lia.
  - lia.
  - lia.
  - unfold INT_MIN, INT_MAX. lia.
  - done.
Qed.

(** No byte of white space is a separator. *)
Lemma spaces_not_elem c s : spaces s -> isspace c = false -> c ∉ s.
Proof.
  intros Hs Hc Hin. unfold spaces in Hs. rewrite Forall_forall in Hs. apply Hs in Hin. congruence.
Qed.

Lemma port_not_elem c p : 0 < p <= 65535 -> digit_value c = None -> c ∉ to_string p.
Proof. intros Hp Hc. rewrite to_string_port by done. apply to_chars_no_char; [lia|lia|done]. Qed.

Lemma ParseEndpoint_render i :
  item_ok i -> ParseEndpoint (render_item i) = Some (StatusOr_value (item_endpoint i)).
Proof.
  intros ((Hne & Ht & _ & Hp) & Hb & Hh & Hpo & Ha). destruct i as [[host port] sb sh sp sa]. simpl in *.
  assert (Hdig : to_string port <> []).
  { rewrite to_string_port by done. by apply to_chars_read; lia. }
  assert (Htd : tight (to_string port)) by (rewrite to_string_port by done; apply tight_to_chars; lia).
  unfold ParseEndpoint, render_item, item_core. simpl.
  rewrite Trim_pad; [|done..|].
  2: { rewrite <- app_assoc. change (":"%byte :: sp ++ to_string port) with ((":"%byte :: sp) ++ to_string port).
       rewrite (app_assoc sh). by apply tight_app. }
  rewrite rfind_byte_app.
  2: { rewrite elem_of_app. intros [H|H]; [by apply spaces_not_elem in H|].
       by apply port_not_elem in H. }
  assert (Hl1 : 0 < len (host ++ sh)).
  { rewrite len_app. pose proof (len_nonneg sh). destruct host; [done|]. rewrite len_cons.
    pose proof (len_nonneg host). lia. }
  assert (Hl2 : 0 < len (sp ++ to_string port)).
  { rewrite len_app. pose proof (len_nonneg sp). destruct (to_string port) as [|c t]; [done|].
    rewrite len_cons. pose proof (len_nonneg t). lia. }
  rewrite (proj2 (Z.eqb_neq _ _)), (proj2 (Z.leb_gt _ _)) by (simpl_len; lia).
  cbn [orb]. rewrite substr_all by done.
  replace (Z.to_nat (len (host ++ sh) + 1)) with (length (host ++ sh) + 1)%nat by (unfold len; lia).
  rewrite drop_app_add. cbn [drop]. rewrite drop_0.
  replace (Trim (host ++ sh)) with host
    by (symmetry; apply (Trim_pad [] host sh); [constructor|done|done]).
  replace (Trim (sp ++ to_string port)) with (to_string port)
    by (rewrite <- (app_nil_r (to_string port)) at 2; symmetry;
        apply (Trim_pad sp (to_string port) []); [done|constructor|done]).
  rewrite !bool_decide_false by done. cbn [orb]. rewrite ParsePort_render by done. done.
Qed.

Lemma comma_not_in_item i : item_ok i -> ","%byte ∉ render_item i.
Proof.
  intros ((_ & _ & Hc & Hp) & Hb & Hh & Hpo & Ha). unfold render_item, item_core.
  rewrite !not_elem_of_app, not_elem_of_cons, not_elem_of_app.
  split_and!; try done; try (by apply spaces_not_elem). by apply port_not_elem.
Qed.

Lemma ParseListTarget_loop_render items i fuel acc :
  item_ok i -> Forall item_ok items -> (length items < fuel)%nat ->
  ParseListTarget_loop fuel (render_items i items) acc =
  Some (StatusOr_value (CanonicalizeEndpoints (acc ++ map item_endpoint (i :: items)))).
Proof.
  revert i fuel acc. induction items as [|j items IH]; intros i fuel acc Hi Hall Hf;
    (destruct fuel as [|fuel]; [simpl in Hf; lia|]); cbn [ParseListTarget_loop render_items].
  - rewrite find_byte_None by by apply comma_not_in_item.
    rewrite ParseEndpoint_render by done. cbn. rewrite bool_decide_false; [done|].
    intros H. by apply app_eq_nil in H as [_ H].
  - apply Forall_cons in Hall as [Hj Hall].
    rewrite find_byte_app by by apply comma_not_in_item.
    rewrite substr_all, ParseEndpoint_render by done. cbn [mbind option_bind so_value_ StatusOr_value].
    replace (Z.to_nat (len (render_item i) + 1)) with (length (render_item i) + 1)%nat by (unfold len; lia).
    rewrite drop_app_add. cbn [drop]. rewrite drop_0. rewrite IH by (done || (simpl in Hf; lia)).
    by rewrite <- app_assoc.
Qed.

(** *** What every accepted target gives *)

Lemma ParsePort_cases t :
  match so_value_ (ParsePort t) with
  | Some p => 0 < p <= 65535
  | None => code_ (so_status_ (ParsePort t)) = InvalidArgument
  end.
Proof.
  unfold ParsePort. destruct (from_chars 10 INT_MIN INT_MAX t) as [[ec rest] p].
  destruct (_ || _ || _ || _) eqn:E; simpl; [done|].
  rewrite !orb_false_iff in E. lia.
Qed.

(** A parser's result: a value that satisfies [P], or an invalid argument. *)
Definition parses {T} (P : T -> Prop) (r : option (StatusOr T)) : Prop :=
  match r with
  | Some r => match so_value_ r with
              | Some v => P v /\ StatusOr_ok r = true
              | None => code_ (so_status_ r) = InvalidArgument
              end
  | None => False
  end.

Lemma ParseEndpoint_parses t : ","%byte ∉ t -> parses Endpoint_ok (ParseEndpoint t).
Proof.
  intros Hc. unfold ParseEndpoint. destruct (Trim_split t) as (_ & l & r & Ht & _).
  assert (Hc' : ","%byte ∉ Trim t) by (intros H; apply Hc; rewrite Ht; set_solver).
  destruct (rfind_byte ":"%byte (Trim t)) as [colon|] eqn:Hf; [|done].
  case_test; [done|].
  set (host := Trim (substr (Trim t) 0 colon)).
  set (port := Trim (drop (Z.to_nat (colon + 1)) (Trim t))).
  destruct (decide (host = [])) as [Hh|Hh]; [by rewrite (bool_decide_true (host = []))|].
  rewrite (bool_decide_false (host = [])) by done.
  destruct (decide (port = [])) as [Hp|Hp]; [by rewrite (bool_decide_true (port = []))|].
  rewrite (bool_decide_false (port = [])) by done. cbn [orb].
  pose proof (ParsePort_cases port) as Hport.
  destruct (so_value_ (ParsePort port)) as [p|].
  - split; [|done]. refine (conj Hh (conj _ (conj _ Hport))); [apply Trim_split|].
    simpl. unfold host. destruct (Trim_split (substr (Trim t) 0 colon)) as (_ & l' & r' & Hs & _).
    intros H. apply Hc'.
    assert (Hin : ","%byte ∈ substr (Trim t) 0 colon) by (rewrite Hs; set_solver).
    unfold substr in Hin. rewrite drop_0 in Hin.
    rewrite <- (take_drop (Z.to_nat colon) (Trim t)). set_solver.
  - unfold StatusOr_error, Status_ok. by rewrite Hport.
Qed.

Lemma ParseListTarget_loop_parses fuel rest acc :
  (length rest < fuel)%nat -> Forall Endpoint_ok acc ->
  parses (fun l => l <> [] /\ Forall Endpoint_ok l /\ StronglySorted Endpoint_lt l)
    (ParseListTarget_loop fuel rest acc).
Proof.
  revert rest acc. induction fuel as [|fuel IH]; intros rest acc Hf Hacc; [lia|].
  cbn [ParseListTarget_loop].
  assert (Hpiece : ","%byte ∉ (match find_byte ","%byte rest with
                               | Some c => substr rest 0 c | None => rest end)).
  { destruct (find_byte _ rest) as [c|] eqn:E; [|by apply find_byte_None_inv].
    apply find_byte_Some in E as (l & r & -> & Hl & ->). by rewrite substr_all. }
  pose proof (ParseEndpoint_parses _ Hpiece) as Hp.
  destruct (ParseEndpoint _) as [r|]; [|done]. cbn [mbind option_bind]. simpl in Hp.
  destruct (so_value_ r) as [e|]; [|unfold StatusOr_error, Status_ok; by rewrite Hp].
  destruct Hp as [He _].
  assert (Hall : Forall Endpoint_ok (acc ++ [e])) by (apply Forall_app; auto).
  destruct (find_byte ","%byte rest) as [c|] eqn:E.
  - apply find_byte_Some in E as (l & t & -> & _ & ->). apply IH; [|done].
    rewrite length_drop, length_app in *. unfold len. simpl in *. lia.
  - rewrite bool_decide_false by (intros H; by apply app_eq_nil in H as [_ H]).
    split; [|done]. split_and!; [| |apply canonical_sorted].
    + intros H. assert (e ∈ CanonicalizeEndpoints (acc ++ [e])) by (apply elem_of_canonical; set_solver).
      rewrite H in *. set_solver.
    + apply Forall_forall. intros x Hx. apply (proj1 (elem_of_canonical _ _)) in Hx.
      rewrite Forall_forall in Hall. by apply Hall.
Qed.

Lemma ParseListTarget_long target :
  (length LIST_SCHEME <= length target)%nat ->
  ParseListTarget target =
    ParseListTarget_loop (S (length (drop (length LIST_SCHEME) target))) (drop (length LIST_SCHEME) target) [].
Proof. intros Ht. unfold ParseListTarget. by rewrite (proj2 (Nat.ltb_ge _ _) Ht). Qed.

Lemma ParseListTarget_parses target :
  (length LIST_SCHEME <= length target)%nat ->
  parses (fun l => l <> [] /\ Forall Endpoint_ok l /\ StronglySorted Endpoint_lt l) (ParseListTarget target).
Proof. intros Ht. rewrite ParseListTarget_long by done. apply ParseListTarget_loop_parses; [lia|constructor]. Qed.

Lemma starts_with_length s prefix : starts_with s prefix = true -> (length prefix <= length s)%nat.
Proof.
  unfold starts_with. rewrite bool_decide_eq_true. intros E. rewrite <- E, length_take. lia.
Qed.

(** C39: a [list://] target with one or more endpoints, written with any white
    space around its parts, parses to the canonical form of its endpoints; and
    parsing a target of at least the scheme's length returns either a non-empty,
    strictly ascending list of well-formed endpoints or [InvalidArgument]; on a
    shorter one, which the caller's test for the scheme excludes, [substr] throws. *)
Theorem ParseListTarget_roundtrip :
  (forall i items, Forall item_ok (i :: items) ->
     ParseListTarget (render_target i items) =
     Some (StatusOr_value (CanonicalizeEndpoints (map item_endpoint (i :: items))))) /\
  (forall target, (length LIST_SCHEME <= length target)%nat ->
     parses (fun l => l <> [] /\ Forall Endpoint_ok l /\ StronglySorted Endpoint_lt l)
       (ParseListTarget target)) /\
  (forall target, (length target < length LIST_SCHEME)%nat -> ParseListTarget target = None).
Proof.
  split_and!.
  - intros i items [Hi Hall]%Forall_cons. unfold render_target. rewrite ParseListTarget_long by (rewrite length_app; lia).
    rewrite drop_app_length. apply (ParseListTarget_loop_render items i _ []); [done..|].
    enough (length items <= length (render_items i items))%nat by lia.
    clear. revert i. induction items as [|j items IH]; intros i; simpl; [lia|].
    rewrite length_app. simpl. specialize (IH j). lia.
  - exact ParseListTarget_parses.
  - intros target Ht. unfold ParseListTarget. by rewrite (proj2 (Nat.ltb_lt _ _) Ht).
Qed.

(** ["list:// b:2 ,a : 1"] *)
Lemma ParseListTarget_roundtrip_witness :
  ParseListTarget (bs "list:// b:2 ,a : 1") =
  Some (StatusOr_value [MkEndpoint (bs "a") 1; MkEndpoint (bs "b") 2]).
Proof.
  apply (proj1 ParseListTarget_roundtrip (MkItem (MkEndpoint (bs "b") 2) (bs " ") [] [] (bs " "))
    [MkItem (MkEndpoint (bs "a") 1) [] (bs " ") (bs " ") []]).
  repeat constructor; simpl; try lia; try discriminate; vm_compute; set_solver.
Defined.
