(* ===== verification/Consul.v ===== *)
(** * Consul discovery and registration

    Models [src/naming/consul/consul_discovery.{h,cpp}] and
    [src/naming/consul/consul_registrar.{h,cpp}] over the HTTP client of
    ConsulHttp.v.  The JSON library is a parameter: the class [Json] lists the
    operations the code calls.

    A published snapshot is shared by pointer, and the client compares the
    pointers: a snapshot is an allocation number with its contents.  The
    theorems show what a refresh publishes, and that equal pointers always
    mean equal memberships. *)

From stdpp Require Import sorting.
From S2P Require Import Prelude Text Status FrameHeader ServerConfig Socket ConsulHttp Naming.

Local Open Scope Z_scope.

(** ** The JSON library *)
Class Json := {
  json : Type;
  (** [json::parse(text, nullptr, false)]; [None] when [is_discarded()] *)
  json_parse : bytes -> option json;
  (** [is_array()] and the elements *)
  json_array : json -> option (list json);
  json_is_object : json -> bool;
  (** [find(key)] / [contains(key)] / [operator[]] on an object *)
  json_find : json -> bytes -> option json;
  (** [is_string()] and [get<std::string>()] *)
  json_string : json -> option bytes;
  (** [is_number_unsigned()] and [get<std::uint64_t>()] *)
  json_unsigned : json -> option Z;
  (** [is_number_integer()] and [get<std::int64_t>()] *)
  json_integer : json -> option Z;
  (** [dump()] of the registration object: name, id, address, port and the
      fields of its check *)
  json_dump_registration : bytes -> bytes -> bytes -> Z -> list (bytes * bytes) -> bytes
}.

(** ** Health responses *)

Definition HeaderValue (response : ConsulHttpResponse) (name : bytes) : bytes :=
  default [] (http_headers_ response !! name).

Definition ParseConsulIndex (response : ConsulHttpResponse) : Z :=
  let value := HeaderValue response (bs "x-consul-index") in
  if bool_decide (value = []) then 0 else
  let '(ec, rest, parsed) := from_chars 10 0 SIZE_MAX value in
  if negb (bool_decide (ec = errc_none)) || negb (bool_decide (rest = [])) then 0 else parsed.

Section consul.
Context `{Json}.

(** [service.find("Address")] and the like: [None] is a value of a wrong type,
    a missing key leaves [host] as it is. *)
Definition read_address (object : json) (host : bytes) : option bytes :=
  match json_find object (bs "Address") with
  | None => Some host
  | Some address => json_string address
  end.

(** [service["Port"]]: [None] when it is absent or no integer; an unsigned
    value that is no port counts as 0. *)
Definition read_port (service : json) : option Z :=
  match json_find service (bs "Port") with
  | None => None
  | Some port =>
      match json_unsigned port, json_integer port with
      | Some unsigned_port, _ => Some (if unsigned_port <=? 65535 then unsigned_port else 0)
      | None, Some p => Some p
      | None, None => None
      end
  end.

(** One entry of the response: an error message, or an endpoint unless the
    entry is skipped. *)
Definition ParseEntry (entry : json) : string + option Endpoint :=
  match (if json_is_object entry then json_find entry (bs "Service") else None),
        json_find entry (bs "Node") with
  | Some service, Some node =>
      if negb (json_is_object service) || negb (json_is_object node) then
        inl "Consul health response contains an invalid service entry"%string
      else
      match read_address service [] with
      | None => inl "Consul health response contains an invalid service address"%string
      | Some host =>
          match (if bool_decide (host = []) then read_address node host else Some host) with
          | None => inl "Consul health response contains an invalid node address"%string
          | Some host =>
              match read_port service with
              | None => inl "Consul health response contains an invalid service port"%string
              | Some port =>
                  if bool_decide (host = []) || (port <=? 0) || (65535 <? port)
                  then inr None else inr (Some (MkEndpoint host port))
              end
          end
      end
  | _, _ => inl "Consul health response contains an invalid service entry"%string
  end.

Fixpoint ParseEntries (entries : list json) (endpoints : list Endpoint)
    : StatusOr (list Endpoint) :=
  match entries with
  | [] => StatusOr_value (CanonicalizeEndpoints endpoints)
  | entry :: entries =>
      match ParseEntry entry with
      | inl message => StatusOr_fail DataLoss message
      | inr None => ParseEntries entries endpoints
      | inr (Some e) => ParseEntries entries (endpoints ++ [e])
      end
  end.

Definition ParseEndpoints (body : bytes) : StatusOr (list Endpoint) :=
  match json_parse body ≫= json_array with
  | None => StatusOr_fail DataLoss "Consul health response is not an array"
  | Some entries => ParseEntries entries []
  end.

(** ** [class ConsulDiscovery] *)

(** A published snapshot: its address and what it holds. *)
Record snapshot := MkSnapshot { snapshot_ptr : Z; snapshot_endpoints : list Endpoint }.

Record ConsulDiscovery := MkConsulDiscovery {
  cd_service_name_ : bytes;
  cd_http_client_ : ConsulHttpClient;
  cd_snapshot_ : snapshot;
  cd_last_error_ : bytes;
  cd_last_index_ : Z
}.

(** The constructor publishes an empty snapshot, allocation 0. *)
Definition ConsulDiscovery_new (service_name : bytes) (http_client : ConsulHttpClient)
    : ConsulDiscovery :=
  MkConsulDiscovery service_name http_client (MkSnapshot 0 []) [] 0.

Definition SetLastError (error : bytes) (d : ConsulDiscovery) : ConsulDiscovery :=
  MkConsulDiscovery (cd_service_name_ d) (cd_http_client_ d) (cd_snapshot_ d) error
    (cd_last_index_ d).

(** [make_shared] returns a new address; the numbers of earlier snapshots are
    smaller, and none of them is reused while a client may hold it. *)
Definition SetSnapshot (endpoints : list Endpoint) (index : Z) (d : ConsulDiscovery)
    : ConsulDiscovery :=
  let current := cd_snapshot_ d in
  let next :=
    if negb (bool_decide (snapshot_endpoints current = endpoints))
    then MkSnapshot (snapshot_ptr current + 1) endpoints else current in
  MkConsulDiscovery (cd_service_name_ d) (cd_http_client_ d) next (cd_last_error_ d)
    (if negb (index =? 0) then index else cd_last_index_ d).

Definition QueryPath (use_blocking_query : bool) (d : ConsulDiscovery) : bytes :=
  bs "/v1/health/service/" ++ cd_service_name_ d ++ bs "?passing=true" ++
  (if use_blocking_query && negb (cd_last_index_ d =? 0) then
     bs "&index=" ++ to_string (cd_last_index_ d) ++ bs "&wait=" ++ to_string 5 ++ bs "s"
   else []).

(** [Fetch] after the HTTP exchange. *)
Definition Fetch_response (response_result : StatusOr ConsulHttpResponse) (d : ConsulDiscovery)
    : Status * ConsulDiscovery :=
  match so_value_ response_result with
  | None =>
      (so_status_ response_result, SetLastError (message_ (so_status_ response_result)) d)
  | Some response =>
      if (http_status_code_ response <? 200) || (300 <=? http_status_code_ response) then
        let error := bs "Consul request failed with HTTP status " ++
                     to_string (http_status_code_ response) in
        (MkStatus Unavailable error, SetLastError error d)
      else
      let endpoints := ParseEndpoints (http_body_ response) in
      match so_value_ endpoints with
      | None => (so_status_ endpoints, SetLastError (message_ (so_status_ endpoints)) d)
      | Some l => (Status_Ok, SetLastError [] (SetSnapshot l (ParseConsulIndex response) d))
      end
  end.

(** Timeouts in milliseconds. *)
Definition CONSUL_HTTP_TIMEOUT : Z := 2000.
Definition CONSUL_QUERY_WAIT : Z := 5000.

Context (error_message : Z -> bytes) (inet_pton : bytes -> option Z) (host : byte_order).

Definition Fetch (use_blocking_query : bool) (d : ConsulDiscovery) : Sys (Status * ConsulDiscovery) :=
  let request_timeout :=
    if use_blocking_query then CONSUL_QUERY_WAIT + CONSUL_HTTP_TIMEOUT else CONSUL_HTTP_TIMEOUT in
  response_result ← ConsulHttpClient_Get error_message inet_pton host (cd_http_client_ d)
                      (QueryPath use_blocking_query d) request_timeout;
  mret (Fetch_response response_result d).

(** [Start] queries once; the refresh thread then runs rounds of [RefreshLoop]
    until it is stopped (each failed round is followed by a delay). *)
Definition ConsulDiscovery_Start (d : ConsulDiscovery) : Sys (Status * ConsulDiscovery) :=
  Fetch false d.

Definition RefreshLoop_round (d : ConsulDiscovery) : Sys ConsulDiscovery :=
  r ← Fetch true d; mret r.2.

Fixpoint RefreshLoop (rounds : nat) (d : ConsulDiscovery) : Sys ConsulDiscovery :=
  match rounds with
  | O => mret d
  | S rounds => d ← RefreshLoop_round d; RefreshLoop rounds d
  end.

(** ** [class ConsulRegistrar] *)

Record ConsulRegistrar := MkConsulRegistrar {
  cr_http_client_ : ConsulHttpClient;
  registered_ : bool;
  registered_service_id_ : bytes
}.

Definition ConsulRegistrar_new (c : ConsulHttpClient) : ConsulRegistrar :=
  MkConsulRegistrar c false [].

Definition ValidateOptions (options : RegistrarOptions) : Status :=
  if bool_decide (ro_service_name_ options = []) then
    status InvalidArgument "ConsulRegistrar service_name must not be empty"
  else if bool_decide (ro_service_id_ options = []) then
    status InvalidArgument "ConsulRegistrar service_id must not be empty"
  else if bool_decide (ro_service_address_ options = []) then
    status InvalidArgument "ConsulRegistrar service_address must not be empty"
  else if ro_service_port_ options =? 0 then
    status InvalidArgument "ConsulRegistrar service_port must be non-zero"
  else Status_Ok.

Definition BuildRegisterPayload (options : RegistrarOptions) : bytes :=
  json_dump_registration (ro_service_name_ options) (ro_service_id_ options)
    (ro_service_address_ options) (ro_service_port_ options)
    [(bs "Name", bs "xRPC TCP health check");
     (bs "TCP", ro_service_address_ options ++ bs ":" ++ to_string (ro_service_port_ options));
     (bs "Interval", bs "5s");
     (bs "Timeout", bs "1s")].

Definition HandleAgentWriteResponse (response : StatusOr ConsulHttpResponse) : Status :=
  match so_value_ response with
  | None => so_status_ response
  | Some r =>
      let status_code := http_status_code_ r in
      if (status_code <? 200) || (300 <=? status_code) then
        MkStatus Unavailable (bs "Consul agent request failed with HTTP status " ++
                              to_string status_code)
      else Status_Ok
  end.

Definition ConsulRegistrar_Register (options : RegistrarOptions) (r : ConsulRegistrar)
    : Sys (Status * ConsulRegistrar) :=
  let validation_status := ValidateOptions options in
  if negb (Status_ok validation_status) then mret (validation_status, r) else
  response ← ConsulHttpClient_Put error_message inet_pton host (cr_http_client_ r)
               (bs "/v1/agent/service/register?replace-existing-checks=true")
               (BuildRegisterPayload options) CONSUL_HTTP_TIMEOUT;
  let st := HandleAgentWriteResponse response in
  if negb (Status_ok st) then mret (st, r)
  else mret (Status_Ok, MkConsulRegistrar (cr_http_client_ r) true (ro_service_id_ options)).

Definition ConsulRegistrar_Deregister (r : ConsulRegistrar) : Sys (Status * ConsulRegistrar) :=
  if negb (registered_ r) then mret (Status_Ok, r) else
  response ← ConsulHttpClient_Put error_message inet_pton host (cr_http_client_ r)
               (bs "/v1/agent/service/deregister/" ++ registered_service_id_ r) [] CONSUL_HTTP_TIMEOUT;
  let st := HandleAgentWriteResponse response in
  if negb (Status_ok st) then mret (st, r)
  else mret (Status_Ok, MkConsulRegistrar (cr_http_client_ r) false []).

(** ** What a refresh publishes *)

(** [entry] announces the endpoint [e]: the service's own address when it has
    one, else the address of its node, and a valid port. *)
Definition announces (entry : json) (e : Endpoint) : Prop :=
  exists service node service_address,
    json_find entry (bs "Service") = Some service /\ json_find entry (bs "Node") = Some node /\
    read_address service [] = Some service_address /\
    (host_ e = service_address \/ service_address = [] /\ read_address node [] = Some (host_ e)) /\
    host_ e <> [] /\ read_port service = Some (port_ e) /\ 0 < port_ e <= 65535.

Lemma ParseEntry_announces entry e :
  ParseEntry entry = inr (Some e) -> announces entry e.
Proof.
  unfold ParseEntry, announces. destruct (json_is_object entry); [|done].
  destruct (json_find entry (bs "Service")) as [service|]; [|done].
  destruct (json_find entry (bs "Node")) as [node|]; [|done].
  case_test; [done|]. destruct (read_address service []) as [address|] eqn:Ea; [|done].
  destruct (if bool_decide (address = []) then read_address node address else Some address)
    as [h|] eqn:Eh; [|done].
  destruct (read_port service) as [p|] eqn:Ep; [|done]. case_test; [done|]. intros [= <-].
  rewrite !orb_false_iff in Heqb0. destruct Heqb0 as [[Hh ?] ?]. apply bool_decide_eq_false in Hh.
  exists service, node, address. split_and!; try done; simpl; try lia.
  case_bool_decide; [right|left]; [by subst|congruence].
Qed.

Lemma announces_ParseEntry entry e :
  announces entry e ->
  (exists r, ParseEntry entry = inr r) -> ParseEntry entry = inr (Some e).
Proof.
  intros (service & node & address & Hs & Hn & Ha & Hh & Hne & Hp & Hr) [r Hok].
  unfold ParseEntry in *. rewrite Hs, Hn in *. destruct (json_is_object entry); [|done].
  destruct (negb _ || negb _); [done|]. rewrite Ha, Hp in *. destruct e as [h p]. simpl in *.
  destruct Hh as [->|[-> Hnode]].
  - rewrite bool_decide_false by done. rewrite bool_decide_false by done.
    by rewrite (proj2 (Z.leb_gt _ _)), (proj2 (Z.ltb_ge _ _)) by lia.
  - rewrite bool_decide_true by done. rewrite Hnode.
    rewrite bool_decide_false by done.
    by rewrite (proj2 (Z.leb_gt _ _)), (proj2 (Z.ltb_ge _ _)) by lia.
Qed.

(** A refresh accepts a response only as a whole, and then publishes exactly
    the endpoints its entries announce. *)
Lemma ParseEntries_spec entries acc l :
  so_value_ (ParseEntries entries acc) = Some l ->
  StronglySorted Endpoint_lt l /\
  (forall e, e ∈ l <-> e ∈ acc \/ exists entry, entry ∈ entries /\ announces entry e).
Proof.
  revert acc. induction entries as [|entry entries IH]; intros acc; simpl.
  - intros [= <-]. split; [apply canonical_sorted|]. intros e. rewrite elem_of_canonical. set_solver.
  - destruct (ParseEntry entry) as [m|[e0|]] eqn:E; [done|..]; intros Hl;
      apply IH in Hl as [Hs Hl]; (split; [done|]); intros e; rewrite Hl.
    + rewrite elem_of_app, list_elem_of_singleton. split.
      * intros [[He| ->]|(x & Hx & Ha)]; [by left| |].
        { right. exists entry. split; [left|]. by apply ParseEntry_announces. }
        right. exists x. split; [by right|done].
      * intros [He|(x & Hx & Ha)]; [by left; left|]. apply elem_of_cons in Hx as [->|Hx].
        { apply announces_ParseEntry in Ha; [|by eauto]. rewrite E in Ha. injection Ha as <-. eauto. }
        right. eauto.
    + split.
      * intros [He|(x & Hx & Ha)]; [by left|]. right. exists x. split; [by right|done].
      * intros [He|(x & Hx & Ha)]; [by left|]. apply elem_of_cons in Hx as [->|Hx].
        { apply announces_ParseEntry in Ha; [|by eauto]. congruence. }
        right. eauto.
Qed.

Lemma ParseEntries_honest entries acc : honest (ParseEntries entries acc).
Proof.
  revert acc. induction entries as [|entry entries IH]; intros acc; simpl; [done|].
  destruct (ParseEntry entry) as [m|[e0|]]; [by apply honest_fail|apply IH..].
Qed.

Lemma ParseEndpoints_honest body : honest (ParseEndpoints body).
Proof.
  unfold ParseEndpoints. destruct (json_parse body ≫= json_array); [apply ParseEntries_honest|].
  by apply honest_fail.
Qed.

(** One refresh, from one state to the next. *)
Definition fetch_step (d d' : ConsulDiscovery) : Prop :=
  exists b w st w', Fetch b d w = Returns (st, d') w'.

Lemma Fetch_inv b d w st d' w' :
  Fetch b d w = Returns (st, d') w' ->
  exists result,
    ConsulHttpClient_Get error_message inet_pton host (cd_http_client_ d) (QueryPath b d)
      (if b then CONSUL_QUERY_WAIT + CONSUL_HTTP_TIMEOUT else CONSUL_HTTP_TIMEOUT) w = Returns result w' /\
    honest result /\ Fetch_response result d = (st, d').
Proof.
  unfold Fetch, mbind, Sys_bind. intros Hf.
  destruct (ConsulHttpClient_Get _ _ _ _ _ _ w) as [r w1|w1|] eqn:E; [|done..].
  injection Hf as Hf <-. exists r. split_and!; [done| |done]. by eapply yields_SendRequest.
Qed.

Lemma fetch_step_ptr d d' :
  fetch_step d d' ->
  snapshot_ptr (cd_snapshot_ d) <= snapshot_ptr (cd_snapshot_ d') /\
  (snapshot_ptr (cd_snapshot_ d) = snapshot_ptr (cd_snapshot_ d') ->
   cd_snapshot_ d = cd_snapshot_ d').
Proof.
  intros (b & w & st & w' & Hf). apply Fetch_inv in Hf as (r & _ & _ & Hf). revert Hf.
  unfold Fetch_response. destruct (so_value_ r) as [resp|]; [|intros [= _ <-]; simpl; split; [lia|done]].
  case_test; [intros [= _ <-]; simpl; split; [lia|done]|].
  destruct (so_value_ (ParseEndpoints _)) as [l|]; [|intros [= _ <-]; simpl; split; [lia|done]].
  intros [= _ <-]. unfold SetSnapshot. simpl. case_bool_decide; simpl; split; [lia|done|lia|].
  intros Hp. lia.
Qed.

Lemma fetch_steps_ptr d d' :
  rtc fetch_step d d' ->
  snapshot_ptr (cd_snapshot_ d) <= snapshot_ptr (cd_snapshot_ d') /\
  (snapshot_ptr (cd_snapshot_ d) = snapshot_ptr (cd_snapshot_ d') ->
   cd_snapshot_ d = cd_snapshot_ d').
Proof.
  induction 1 as [|d d1 d2 H1 _ [Hle Heq]]; [split; [lia|done]|].
  apply fetch_step_ptr in H1 as [Hle1 Heq1]. split; [lia|]. intros E.
  rewrite Heq1 by lia. apply Heq. lia.
Qed.

(** An entry the parser accepts, whether it announces an endpoint or is skipped. *)
Definition entry_ok (entry : json) : Prop := exists r, ParseEntry entry = inr r.

Lemma ParseEntries_accepts entries acc :
  is_Some (so_value_ (ParseEntries entries acc)) <-> Forall entry_ok entries.
Proof.
  revert acc. induction entries as [|entry entries IH]; intros acc; simpl.
  { split; [constructor|by eexists]. }
  rewrite Forall_cons. unfold entry_ok at 1. destruct (ParseEntry entry) as [m|[e|]]; rewrite ?IH.
  - split; [intros [? [=]]|intros [[? [=]] _]].
  - split; [eauto|tauto].
  - split; [eauto|tauto].
Qed.

(** The outcome of the exchange that a refresh can use: a 2xx response whose body is
    an array of acceptable entries. *)
Definition usable (result : StatusOr ConsulHttpResponse) (response : ConsulHttpResponse) (entries : list json)
    : Prop :=
  so_value_ result = Some response /\ 200 <= http_status_code_ response < 300 /\
  (json_parse (http_body_ response) ≫= json_array) = Some entries /\ Forall entry_ok entries.

(** What [Fetch] makes of the outcome of the exchange. *)
Lemma Fetch_response_spec result d st d' :
  honest result -> Fetch_response result d = (st, d') ->
  (Status_ok st = true <-> exists response entries, usable result response entries) /\
  (Status_ok st = false ->
     cd_snapshot_ d' = cd_snapshot_ d /\ cd_last_index_ d' = cd_last_index_ d /\
     cd_last_error_ d' = message_ st) /\
  (forall response entries, usable result response entries ->
     cd_last_error_ d' = [] /\
     StronglySorted Endpoint_lt (snapshot_endpoints (cd_snapshot_ d')) /\
     (forall e, e ∈ snapshot_endpoints (cd_snapshot_ d') <->
        exists entry, entry ∈ entries /\ announces entry e) /\
     cd_last_index_ d' =
       (if ParseConsulIndex response =? 0 then cd_last_index_ d else ParseConsulIndex response)).
Proof.
  intros Hr. unfold Fetch_response, usable.
  destruct (so_value_ result) as [resp|] eqn:Er.
  2: { intros [= <- <-]. rewrite Hr by done. split_and!; [|done|by intros ? ? [[=] _]].
       split; [done|by intros (? & ? & [=] & _)]. }
  destruct (_ || _) eqn:Hcode.
  { intros [= <- <-]. split_and!; [|done|]; [split; [done|]|]; intros; destruct_and?; naive_solver lia. }
  apply orb_false_iff in Hcode as [Hc1%Z.ltb_ge Hc2%Z.leb_gt]. unfold ParseEndpoints.
  destruct (json_parse (http_body_ resp) ≫= json_array) as [entries|] eqn:Ej.
  2: { intros [= <- <-]. split_and!; [|done|by intros ? ? ([= <-] & _ & E & _); rewrite Ej in E].
       split; [done|]. intros (? & ? & [= <-] & _ & E & _). by rewrite Ej in E. }
  pose proof (ParseEntries_accepts entries []) as Hacc. pose proof (ParseEntries_honest entries []) as Hh.
  destruct (so_value_ (ParseEntries entries [])) as [l|] eqn:El.
  2: { intros [= <- <-]. rewrite Hh by done.
       assert (Hno : ~ Forall entry_ok entries) by (intros HF; apply Hacc in HF as [? [=]]).
       split_and!; [|done|]; [split; [done|]|]; intros; destruct_and?; naive_solver. }
  intros [= <- <-]. apply ParseEntries_spec in El as [Hs Hl]. split_and!; [|done|].
  { split; [|done]. intros _. exists resp, entries. split_and!; try done. by apply Hacc. }
  intros response entries' ([= <-] & _ & E & _). rewrite Ej in E. injection E as <-.
  assert (snapshot_endpoints (cd_snapshot_ (SetLastError [] (SetSnapshot l (ParseConsulIndex resp) d))) = l)
    as ->. { simpl. by case_bool_decide. }
  split_and!; [done|done| |simpl; by destruct (_ =? 0)]. intros e. rewrite Hl. set_solver.
Qed.

(** C37: A refresh makes one exchange with the agent, of the query path of this state,
    and depends on its outcome.  It succeeds exactly when the agent answered with a
    2xx response whose body is an array of acceptable entries; then it clears the
    error, publishes exactly the endpoints that the entries of that response
    announce, in ascending order, and takes over its index.  Otherwise it keeps the
    published snapshot and the query index and records the error.  Through any
    later refreshes, as long as the pointer of the snapshot is the same, so is its
    contents. *)
Theorem ConsulDiscovery_refresh b d w st d' w' :
  Fetch b d w = Returns (st, d') w' ->
  exists result,
    ConsulHttpClient_Get error_message inet_pton host (cd_http_client_ d) (QueryPath b d)
      (if b then CONSUL_QUERY_WAIT + CONSUL_HTTP_TIMEOUT else CONSUL_HTTP_TIMEOUT) w = Returns result w' /\
    (Status_ok st = true <-> exists response entries, usable result response entries) /\
    (Status_ok st = false ->
       cd_snapshot_ d' = cd_snapshot_ d /\ cd_last_index_ d' = cd_last_index_ d /\
       cd_last_error_ d' = message_ st) /\
    (forall response entries, usable result response entries ->
       cd_last_error_ d' = [] /\
       StronglySorted Endpoint_lt (snapshot_endpoints (cd_snapshot_ d')) /\
       (forall e, e ∈ snapshot_endpoints (cd_snapshot_ d') <->
          exists entry, entry ∈ entries /\ announces entry e) /\
       cd_last_index_ d' =
         (if ParseConsulIndex response =? 0 then cd_last_index_ d else ParseConsulIndex response)) /\
    (forall d2, rtc fetch_step d' d2 ->
       snapshot_ptr (cd_snapshot_ d2) = snapshot_ptr (cd_snapshot_ d') ->
       snapshot_endpoints (cd_snapshot_ d2) = snapshot_endpoints (cd_snapshot_ d')).
Proof.
  intros Hf. apply Fetch_inv in Hf as (r & Hg & Hr & Hf). exists r. split; [exact Hg|].
  destruct (Fetch_response_spec r d st d' Hr Hf) as (H1 & H2 & H3). split_and!; [done..|].
  intros d2 Hd2 Hp. apply fetch_steps_ptr in Hd2 as [_ Hd2]. by rewrite Hd2.
Qed.

End consul.

(** ** An example: one healthy instance, announced by its service address *)

Inductive toy_json :=
  | ToyString (s : bytes)
  | ToyNumber (n : Z)
  | ToyArray (l : list toy_json)
  | ToyObject (fields : list (bytes * toy_json)).

Definition toy_find (j : toy_json) (k : bytes) : option toy_json :=
  match j with
  | ToyObject fields => snd <$> List.find (fun f => bool_decide (fst f = k)) fields
  | _ => None
  end.

Definition toy_entry : toy_json :=
  ToyObject
    [(bs "Node", ToyObject [(bs "Address", ToyString (bs "10.0.0.1"))]);
     (bs "Service", ToyObject [(bs "Address", ToyString (bs "10.0.0.7")); (bs "Port", ToyNumber 9000)])].

(** A parser that knows one document. *)
Definition toy : Json := {|
  json := toy_json;
  json_parse := fun b => if bool_decide (b = bs "[E]") then Some (ToyArray [toy_entry]) else None;
  json_array := fun j => match j with ToyArray l => Some l | _ => None end;
  json_is_object := fun j => match j with ToyObject _ => true | _ => false end;
  json_find := toy_find;
  json_string := fun j => match j with ToyString s => Some s | _ => None end;
  json_unsigned := fun j => match j with ToyNumber n => if 0 <=? n then Some n else None | _ => None end;
  json_integer := fun j => match j with ToyNumber n => Some n | _ => None end;
  json_dump_registration := fun _ _ _ _ _ => []
|}.

Definition example_discovery : ConsulDiscovery :=
  ConsulDiscovery_new (bs "echo") (MkConsulHttpClient (bs "127.0.0.1") 8500).

Definition example_response : bytes :=
  render_head 200 (bs "OK") [(bs "X-Consul-Index", bs "7"); (bs "Content-Length", bs "3")] ++
  CRLFCRLF ++ bs "[E]".

(** Socket, flags, connection, flags, two timeouts, the request, the response. *)
Definition example_exchange : world :=
  MkWorld [MkRet 3 0 0 []; MkRet 2 0 0 []; MkRet 0 0 0 []; MkRet 0 0 0 []; MkRet 0 0 0 [];
           MkRet 0 0 0 []; MkRet 0 0 0 []; MkRet 1000 0 0 []; recv_ok example_response] [].

Definition example_refreshed : ConsulDiscovery :=
  MkConsulDiscovery (bs "echo") (MkConsulHttpClient (bs "127.0.0.1") 8500)
    (MkSnapshot 1 [MkEndpoint (bs "10.0.0.7") 9000]) [] 7.

Lemma example_Fetch :
  exists w', Fetch (H:=toy) (fun _ => []) (fun _ => Some 1) LittleEndian false example_discovery
    example_exchange = Returns (Status_Ok, example_refreshed) w'.
Proof. eexists. vm_compute. reflexivity. Qed.

Lemma ConsulDiscovery_refresh_witness :
  cd_last_error_ example_refreshed = [] /\
  forall e, e ∈ snapshot_endpoints (cd_snapshot_ example_refreshed) <-> @announces toy toy_entry e.
Proof.
  destruct example_Fetch as [w' Hf].
  destruct (ConsulDiscovery_refresh (H:=toy) (fun _ => []) (fun _ => Some 1) LittleEndian false
    example_discovery example_exchange Status_Ok example_refreshed w' Hf) as (r & Hg & Hok & _ & Hpub & _).
  vm_compute in Hg. injection Hg as <- _. destruct (proj1 Hok eq_refl) as (response & entries & Hu).
  pose proof Hu as (Hr & _ & Hj & _). injection Hr as <-. injection Hj as <-.
  destruct (Hpub _ _ Hu) as (He & _ & Hall & _). split; [exact He|].
  intros e. rewrite Hall. split.
  - intros (entry & Hin & Ha). apply list_elem_of_singleton in Hin as ->. exact Ha.
  - intros Ha. exists toy_entry. split; [left|exact Ha].
Defined.
