(* ===== verification/Routing.v ===== *)
(** * Client routing and failover

    Models [src/client/rpc_client_impl.{h,cpp}], the call results of
    [src/client/tcp_transport.h] and the typed [Call] of
    [include/xrpc/rpc_client.h]: option validation, the routing snapshot with
    its transports and consistent-hash ring, and the failover loop.

    A transport is seen through the class [Transport]: its [Call] as a state
    transformer, with the promise the failover loop relies on, that a failure
    reported as not sent committed nothing. *)

From stdpp Require Import sorting.
From S2P Require Import Prelude Text Status FrameHeader FrameCodec Socket ConsulHttp Naming Consul.

Local Open Scope Z_scope.

(** ** Results of one attempt *)

Inductive RequestCommitState := NotSent | MaybeSent.

#[global] Instance RequestCommitState_eq_dec : EqDecision RequestCommitState.
Proof. solve_decision. Defined.

Record CallFailure := MkCallFailure { cf_status_ : Status; commit_state_ : RequestCommitState }.

Inductive CallAttemptResult :=
  | CallResponse (response : ResponseEnvelope)
  | CallFailed (failure : CallFailure).

Definition HasResponse (r : CallAttemptResult) : bool :=
  match r with CallResponse _ => true | CallFailed _ => false end.

Definition CanRetryWithoutDuplicateRequest (r : CallAttemptResult) : bool :=
  match r with
  | CallFailed f => bool_decide (commit_state_ f = NotSent)
  | CallResponse _ => false
  end.

Definition MustStopRetryToAvoidDuplicateRequest (r : CallAttemptResult) : bool :=
  match r with
  | CallFailed f => bool_decide (commit_state_ f = MaybeSent)
  | CallResponse _ => false
  end.

Definition MakeCallFailure (st : Status) (c : RequestCommitState) : CallAttemptResult :=
  CallFailed (MkCallFailure st c).

(** ** Options.  Times are milliseconds. *)

Record RpcClientOptions := MkRpcClientOptions {
  target_ : bytes;
  consul_address_ : bytes;
  timeout_ : Z;
  client_max_payload_size_ : Z;
  max_inflight_per_endpoint_ : Z
}.

Record CallOptions := MkCallOptions { call_timeout_ : Z; call_sticky_key_ : bytes }.

Record EffectiveCallOptions := MkEffectiveCallOptions {
  deadline_ : option Z;
  sticky_key_ : bytes
}.

Definition ValidateClientOptions (options : RpcClientOptions) : StatusOr ProtocolLimits :=
  if bool_decide (target_ options = []) then
    StatusOr_fail InvalidArgument "RpcClient target must not be empty"
  else if bool_decide (consul_address_ options = []) then
    StatusOr_fail InvalidArgument "RpcClient consul_address must not be empty"
  else if timeout_ options <? 0 then
    StatusOr_fail InvalidArgument "RpcClient timeout must not be negative"
  else if max_inflight_per_endpoint_ options =? 0 then
    StatusOr_fail InvalidArgument "RpcClient max_inflight_per_endpoint must be greater than 0"
  else MakeProtocolLimits (client_max_payload_size_ options).

Definition ValidateCallOptions (options : CallOptions) : Status :=
  if call_timeout_ options <? 0 then
    status InvalidArgument "CallOptions timeout must not be negative"
  else Status_Ok.

(** [now] is the steady clock. *)
Definition ResolveCallOptions (now default_timeout : Z) (options : CallOptions)
    : EffectiveCallOptions :=
  let timeout := if 0 <? call_timeout_ options then call_timeout_ options else default_timeout in
  MkEffectiveCallOptions (if 0 <? timeout then Some (now + timeout) else None)
    (call_sticky_key_ options).

(** ** The consistent-hash ring *)

Definition VIRTUAL_NODE_COUNT : nat := 128.
Definition FNV1A_OFFSET_BASIS : Z := 14695981039346656037.
Definition FNV1A_PRIME : Z := 1099511628211.

Definition Fnv1a64 (value : bytes) : Z :=
  fold_left (fun hash ch => (Z.lxor hash (Z_of_byte ch) *u FNV1A_PRIME)%word) value
    FNV1A_OFFSET_BASIS.

Record HashRingEntry := MkHashRingEntry { hash_ : Z; endpoint_index_ : nat }.

Definition MakeEndpointId (e : Endpoint) : bytes := host_ e ++ bs ":" ++ to_string (port_ e).

Definition vnode_hash (e : Endpoint) (vnode : nat) : Z :=
  Fnv1a64 (MakeEndpointId e ++ bs "#" ++ to_string (Z.of_nat vnode)).

(** The comparator of the sort, and "not greater". *)
Definition HashRingEntry_less (lhs rhs : HashRingEntry) : bool :=
  if negb (hash_ lhs =? hash_ rhs) then hash_ lhs <? hash_ rhs
  else (endpoint_index_ lhs <? endpoint_index_ rhs)%nat.

Definition HashRingEntry_le (a b : HashRingEntry) : Prop := HashRingEntry_less b a = false.

#[global] Instance HashRingEntry_le_dec a b : Decision (HashRingEntry_le a b).
Proof. unfold HashRingEntry_le. apply _. Defined.

(** The entries in the order the two loops push them. *)
Definition ring_entries (endpoints : list Endpoint) : list HashRingEntry :=
  mjoin (imap (fun i e => map (fun v => MkHashRingEntry (vnode_hash e v) i)
                             (seq 0 VIRTUAL_NODE_COUNT)) endpoints).

Definition BuildHashRing (endpoints : list Endpoint) : list HashRingEntry :=
  merge_sort HashRingEntry_le (ring_entries endpoints).

(** [std::ranges::lower_bound] on the sorted ring: the first entry not below
    the key. *)
Fixpoint lower_bound (key_hash : Z) (ring : list HashRingEntry) : option HashRingEntry :=
  match ring with
  | [] => None
  | e :: ring => if hash_ e <? key_hash then lower_bound key_hash ring else Some e
  end.

Definition SelectStickyStart (sticky_key : bytes) (hash_ring : list HashRingEntry) : option nat :=
  if bool_decide (sticky_key = []) then Abort "assertion failed" else
  match hash_ring with
  | [] => Abort "assertion failed"
  | front :: _ =>
      Some (endpoint_index_ (default front (lower_bound (Fnv1a64 sticky_key) hash_ring)))
  end.

(** ** Routing snapshots *)

(** A transport object: its address, and the endpoint it connects to. *)
Record TransportRef := MkTransportRef { transport_id : Z; transport_endpoint : Endpoint }.

Record RoutingSnapshot := MkRoutingSnapshot {
  rs_endpoints_ : snapshot;
  transports_ : list TransportRef;
  hash_ring_ : list HashRingEntry
}.

(** The state of [RpcClient::Impl] that calls change.  [next_transport_id_] is
    the next address [make_shared<TcpTransport>] returns. *)
Record ClientState := MkClientState {
  routing_snapshot_ : option RoutingSnapshot;
  next_endpoint_index_ : Z;
  next_request_id_ : Z;
  next_transport_id_ : Z
}.

Definition ClientState_initial : ClientState := MkClientState None 0 1 0.

Fixpoint find_transport (endpoints : list Endpoint) (transports : list TransportRef)
    (endpoint : Endpoint) : option TransportRef :=
  match endpoints, transports with
  | e :: endpoints, t :: transports =>
      if decide (e = endpoint) then Some t else find_transport endpoints transports endpoint
  | _, _ => None
  end.

Definition FindReusableTransport (current : option RoutingSnapshot) (endpoint : Endpoint)
    : option TransportRef :=
  match current with
  | None => None
  | Some s => find_transport (snapshot_endpoints (rs_endpoints_ s)) (transports_ s) endpoint
  end.

(** The loop over [*discovered]. *)
Fixpoint make_transports (current : option RoutingSnapshot) (discovered : list Endpoint)
    (next_id : Z) : list TransportRef * Z :=
  match discovered with
  | [] => ([], next_id)
  | e :: discovered =>
      let '(t, next_id) :=
        match FindReusableTransport current e with
        | Some t => (t, next_id)
        | None => (MkTransportRef next_id e, next_id + 1)
        end in
      let '(ts, next_id) := make_transports current discovered next_id in
      (t :: ts, next_id)
  end.

Definition current_for (discovered : snapshot) (s : ClientState) : option RoutingSnapshot :=
  match routing_snapshot_ s with
  | Some current =>
      if snapshot_ptr (rs_endpoints_ current) =? snapshot_ptr discovered
      then Some current else None
  | None => None
  end.

(** [ResolveRoutingSnapshot].  Rebuilding happens under [routing_update_mutex_]
    and publishes with one atomic store; [s] is the state when the lock is held
    (or when the first load hits). *)
Definition ResolveRoutingSnapshot (discovered : snapshot) (last_error : bytes) (s : ClientState)
    : StatusOr RoutingSnapshot * ClientState :=
  if bool_decide (snapshot_endpoints discovered = []) then
    (MkStatusOr (MkStatus Unavailable
       (bs "service discovery has no endpoints" ++
        (if bool_decide (last_error = []) then [] else bs ": " ++ last_error))) None, s)
  else
  match current_for discovered s with
  | Some current => (StatusOr_value current, s)
  | None =>
      let '(transports, next_id) :=
        make_transports (routing_snapshot_ s) (snapshot_endpoints discovered)
          (next_transport_id_ s) in
      let next := MkRoutingSnapshot discovered transports
                    (BuildHashRing (snapshot_endpoints discovered)) in
      (StatusOr_value next,
       MkClientState (Some next) (next_endpoint_index_ s) (next_request_id_ s) next_id)
  end.

(** ** Calls *)

(** What the failover loop knows of a transport: [Call] on some shared state.
    [committed w id] counts how often the request [id] may have reached a
    server by the state [w]. *)
Class Transport := {
  tstate : Type;
  TcpTransport_Call : TransportRef -> RequestEnvelope -> EffectiveCallOptions -> tstate ->
                      CallAttemptResult * tstate;
  committed : tstate -> Z -> Z
}.

(** One attempt commits the request at most once, and not at all when it
    reports that it was not sent. *)
Class TransportLaws `{Transport} := {
  call_commits t r o w : let '(res, w') := TcpTransport_Call t r o w in
    committed w (req_request_id_ r) <= committed w' (req_request_id_ r) <=
      committed w (req_request_id_ r) + (if CanRetryWithoutDuplicateRequest res then 0 else 1)
}.

Section calls.
Context `{Transport}.

(** The loop of [CallWithFailover]; [n] is the number of offsets left.  The
    last component lists the transports tried. *)
Fixpoint failover_loop (n : nat) (transports : list TransportRef) (start offset : Z)
    (request : RequestEnvelope) (options : EffectiveCallOptions) (last_result : CallAttemptResult)
    (w : tstate) : option (CallAttemptResult * tstate * list TransportRef) :=
  match n with
  | O => Some (last_result, w, [])
  | S n =>
      let index := ((start +u offset) mod (len transports))%word in
      t ← transports !! Z.to_nat index;
      let '(last_result, w) := TcpTransport_Call t request options w in
      if HasResponse last_result || MustStopRetryToAvoidDuplicateRequest last_result then
        Some (last_result, w, [t])
      else
      '(r, w, tried) ← failover_loop n transports start (offset + 1) request options last_result w;
      Some (r, w, t :: tried)
  end.

(** [CallWithFailover] on a resolved snapshot; [x % 0] ends the process. *)
Definition select_start (snap : RoutingSnapshot) (options : EffectiveCallOptions) (s : ClientState)
    : option (Z * ClientState) :=
  let endpoint_count := len (transports_ snap) in
  if bool_decide (sticky_key_ options = []) then
    if endpoint_count =? 0 then Abort "division by zero" else
    Some (next_endpoint_index_ s mod endpoint_count,
          MkClientState (routing_snapshot_ s) (next_endpoint_index_ s +u 1)%word
            (next_request_id_ s) (next_transport_id_ s))
  else
    i ← SelectStickyStart (sticky_key_ options) (hash_ring_ snap); Some (Z.of_nat i, s).

Definition CallWithFailover_on (snap : RoutingSnapshot) (request : RequestEnvelope)
    (options : EffectiveCallOptions) (s : ClientState) (w : tstate)
    : option (CallAttemptResult * ClientState * tstate * list TransportRef) :=
  let last_result :=
    MakeCallFailure (status Unavailable "no endpoints available") NotSent in
  '(start, s) ← select_start snap options s;
  '(r, w, tried) ← failover_loop (length (transports_ snap)) (transports_ snap) start 0 request
                     options last_result w;
  Some (r, s, w, tried).

Definition CallWithFailover (discovered : snapshot) (last_error : bytes)
    (request : RequestEnvelope) (options : EffectiveCallOptions) (s : ClientState) (w : tstate)
    : option (CallAttemptResult * ClientState * tstate * list TransportRef) :=
  let '(snapshot_result, s) := ResolveRoutingSnapshot discovered last_error s in
  match so_value_ snapshot_result with
  | None => Some (MakeCallFailure (so_status_ snapshot_result) NotSent, s, w, [])
  | Some snap => CallWithFailover_on snap request options s w
  end.

(** [RpcClient::Impl::Call] *)
Definition Client_Call (now default_timeout : Z) (discovered : snapshot) (last_error : bytes)
    (service_name method_name payload : bytes) (options : CallOptions) (s : ClientState)
    (w : tstate) : option (StatusOr bytes * ClientState * tstate) :=
  let call_options_status := ValidateCallOptions options in
  if negb (Status_ok call_options_status) then
    r ← StatusOr_error call_options_status; Some (r, s, w)
  else
  let effective_options := ResolveCallOptions now default_timeout options in
  let request := MkRequestEnvelope (next_request_id_ s) service_name method_name payload in
  let s := MkClientState (routing_snapshot_ s) (next_endpoint_index_ s)
             (next_request_id_ s +u 1)%word (next_transport_id_ s) in
  '(result, s, w, _) ← CallWithFailover discovered last_error request effective_options s w;
  match result with
  | CallResponse response =>
      if negb (Status_ok (resp_status_ response)) then
        r ← StatusOr_error (resp_status_ response); Some (r, s, w)
      else Some (StatusOr_value (resp_payload_ response), s, w)
  | CallFailed failure => r ← StatusOr_error (cf_status_ failure); Some (r, s, w)
  end.

End calls.

(** ** The ring *)

Lemma HashRingEntry_le_spec a b :
  HashRingEntry_le a b <->
  hash_ a < hash_ b \/ (hash_ a = hash_ b /\ (endpoint_index_ a <= endpoint_index_ b)%nat).
Proof.
  unfold HashRingEntry_le, HashRingEntry_less.
  destruct (Z.eqb_spec (hash_ b) (hash_ a)); simpl; [rewrite Nat.ltb_ge|rewrite Z.ltb_ge]; lia.
Qed.

#[global] Instance HashRingEntry_le_trans : Transitive HashRingEntry_le.
Proof. intros a b c. rewrite !HashRingEntry_le_spec. lia. Qed.

#[global] Instance HashRingEntry_le_total : Total HashRingEntry_le.
Proof. intros a b. rewrite !HashRingEntry_le_spec. lia. Qed.

Lemma HashRingEntry_le_refl a : HashRingEntry_le a a.
Proof. apply HashRingEntry_le_spec. lia. Qed.

(** The order in which a key prefers the entries: first those at or after its
    hash, in ring order, then the ones before it. *)
Definition prefers (key : Z) (a b : HashRingEntry) : Prop :=
  (key <= hash_ a /\ hash_ b < key) \/
  ((key <= hash_ a <-> key <= hash_ b) /\ HashRingEntry_le a b).

Lemma lower_bound_prefers key ring front :
  StronglySorted HashRingEntry_le ring -> head ring = Some front ->
  let x := default front (lower_bound key ring) in
  x ∈ ring /\ forall y, y ∈ ring -> prefers key x y.
Proof.
  intros Hs Hf. cbv zeta.
  assert (Hall : forall y, y ∈ ring -> HashRingEntry_le front y).
  { destruct ring as [|a ring]; simplify_eq/=. apply StronglySorted_inv in Hs as [_ Hs].
    rewrite Forall_forall in Hs. intros y [->|Hy]%elem_of_cons; [apply HashRingEntry_le_refl|auto]. }
  destruct (lower_bound key ring) as [x|] eqn:E; simpl.
  - clear Hf Hall. induction Hs as [|a ring Hs IH Ha]; [done|]. simpl in E.
    rewrite Forall_forall in Ha. destruct (hash_ a <? key) eqn:Ek.
    + destruct (IH E) as [Hx Hy]. split; [by right|]. intros y [->|?]%elem_of_cons; [|auto].
      left. split; [|lia]. clear -E. induction ring as [|b ring IH]; simpl in E; [done|].
      destruct (hash_ b <? key) eqn:Eb; [auto|]. injection E as <-. lia.
    + injection E as <-. split; [left|]. intros y [->|Hy]%elem_of_cons.
      * right. split; [done|]. apply HashRingEntry_le_refl.
      * apply Ha in Hy. right. split; [|done]. apply HashRingEntry_le_spec in Hy. lia.
  - change (id front) with front. destruct ring as [|a ring]; simplify_eq/=. split; [left|].
    assert (Hbelow : forall y, y ∈ front :: ring -> hash_ y < key).
    { clear -E. simpl in E. destruct (hash_ front <? key) eqn:Ek; [|done].
      intros y [->|Hy]%elem_of_cons; [lia|]. revert Hy. induction ring as [|b ring IH]; [set_solver|].
      simpl in E. destruct (hash_ b <? key) eqn:Eb; [|done].
      intros [->|Hy]%elem_of_cons; [lia|auto]. }
    intros y Hy. right. split; [|by apply Hall].
    pose proof (Hbelow y Hy). pose proof (Hbelow front ltac:(left)). lia.
Qed.

Lemma elem_of_ring l h i :
  MkHashRingEntry h i ∈ BuildHashRing l <->
  exists e v, l !! i = Some e /\ (v < VIRTUAL_NODE_COUNT)%nat /\ h = vnode_hash e v.
Proof.
  unfold BuildHashRing. rewrite merge_sort_Permutation. unfold ring_entries.
  rewrite list_elem_of_join. setoid_rewrite elem_of_lookup_imap. split.
  - intros (sub & Hin & j & e & -> & Hj). apply list_elem_of_fmap in Hin as (v & [= -> ->] & Hv).
    apply elem_of_seq in Hv. exists e, v. split; [done|split; [lia|done]].
  - intros (e & v & Hl & Hv & ->). eexists. split; [|by exists i, e].
    apply list_elem_of_fmap. exists v. split; [done|]. apply elem_of_seq. lia.
Qed.

Lemma ring_sorted l : StronglySorted HashRingEntry_le (BuildHashRing l).
Proof. apply StronglySorted_merge_sort; apply _. Qed.

Lemma ring_nonempty l : l <> [] -> exists front, head (BuildHashRing l) = Some front.
Proof.
  intros Hl. destruct l as [|e l]; [done|].
  assert (Hin : MkHashRingEntry (vnode_hash e 0) 0 ∈ BuildHashRing (e :: l)).
  { apply elem_of_ring. exists e, 0%nat. split; [done|]. split; [unfold VIRTUAL_NODE_COUNT; lia|done]. }
  destruct (BuildHashRing (e :: l)); [by apply not_elem_of_nil in Hin|by eexists].
Qed.

(** The endpoint a sticky key starts at. *)
Definition sticky_endpoint (key : bytes) (l : list Endpoint) : option Endpoint :=
  i ← SelectStickyStart key (BuildHashRing l); l !! i.

Lemma sticky_spec key l :
  key <> [] -> l <> [] ->
  exists i e v,
    SelectStickyStart key (BuildHashRing l) = Some i /\ l !! i = Some e /\
    (v < VIRTUAL_NODE_COUNT)%nat /\
    forall y, y ∈ BuildHashRing l -> prefers (Fnv1a64 key) (MkHashRingEntry (vnode_hash e v) i) y.
Proof.
  intros Hk Hl. destruct (ring_nonempty l Hl) as [front Hf].
  destruct (lower_bound_prefers (Fnv1a64 key) _ front (ring_sorted l) Hf) as [Hin Hmin].
  destruct (default front (lower_bound (Fnv1a64 key) (BuildHashRing l))) as [h i] eqn:E.
  pose proof Hin as Hin'. apply elem_of_ring in Hin' as (e & v & Hi & Hv & ->).
  exists i, e, v. split_and!; [|done|done|done].
  unfold SelectStickyStart. rewrite bool_decide_false by done.
  destruct (BuildHashRing l) as [|a ring]; [done|]. injection Hf as ->. by rewrite E.
Qed.

(** In strictly ascending lists the index order is the endpoint order. *)
Lemma lt_sorted_index l i j a b :
  StronglySorted Endpoint_lt l -> l !! i = Some a -> l !! j = Some b -> (i < j)%nat -> Endpoint_lt a b.
Proof.
  intros Hs. revert i j. induction Hs as [|x l Hs IH Hx]; intros i j Hi Hj Hlt; [done|].
  destruct j as [|j]; [lia|]. destruct i as [|i]; simpl in *.
  - injection Hi as ->. rewrite Forall_forall in Hx. apply Hx. by eapply list_elem_of_lookup_2.
  - apply (IH i j); [done|done|lia].
Qed.

Lemma lt_sorted_index_le l i j a b :
  StronglySorted Endpoint_lt l -> l !! i = Some a -> l !! j = Some b ->
  (i <= j)%nat <-> Endpoint_le a b.
Proof.
  intros Hs Hi Hj. rewrite Endpoint_le_lt. split.
  - intros H. destruct (decide (i = j)) as [->|]; [left; congruence|].
    right. apply (lt_sorted_index l i j); [done..|lia].
  - intros H. destruct (decide (i <= j)%nat) as [|Hn]; [done|].
    assert (Hba : Endpoint_lt b a) by (apply (lt_sorted_index l j i); [done..|lia]).
    exfalso. destruct H as [->|H]; [by apply Endpoint_lt_irrefl in Hba|].
    by eapply Endpoint_lt_irrefl, Endpoint_lt_trans.
Qed.

(** C35: sticky routing is consistent hashing.  For every non-empty key and
    membership the start is an index of the membership; and when the
    membership changes from [l] to a larger one [l'], a key moves only to an
    endpoint that was added (so when endpoints leave, only the keys of those
    endpoints move). *)
Theorem SelectStickyStart_consistent key :
  key <> [] ->
  (forall l, l <> [] -> exists i e, SelectStickyStart key (BuildHashRing l) = Some i /\ l !! i = Some e) /\
  (forall l l' e, StronglySorted Endpoint_lt l -> StronglySorted Endpoint_lt l' ->
     (forall x, x ∈ l -> x ∈ l') ->
     sticky_endpoint key l' = Some e -> e ∈ l -> sticky_endpoint key l = Some e).
Proof.
  intros Hk. split.
  { intros l Hl. destruct (sticky_spec key l Hk Hl) as (i & e & _ & H1 & H2 & _). eauto. }
  intros l l' e Hs Hs' Hsub Hst He.
  assert (Hne : l <> []) by (intros ->; set_solver).
  assert (Hne' : l' <> []) by (intros ->; apply Hsub in He; set_solver).
  destruct (sticky_spec key l' Hk Hne') as (i' & e' & v & Hsel' & Hi' & Hv & Hmin').
  unfold sticky_endpoint in *. rewrite Hsel' in Hst. cbn in Hst. rewrite Hi' in Hst. injection Hst as ->.
  destruct (sticky_spec key l Hk Hne) as (j & f & u & Hsel & Hj & Hu & Hmin).
  rewrite Hsel. cbn. rewrite Hj. f_equal.
  apply list_elem_of_lookup in He as [i Hi].
  assert (Hf : f ∈ l') by (apply Hsub; by eapply list_elem_of_lookup_2).
  apply list_elem_of_lookup in Hf as [j' Hj'].
  pose proof (Hmin (MkHashRingEntry (vnode_hash e v) i)) as H1.
  pose proof (Hmin' (MkHashRingEntry (vnode_hash f u) j')) as H2.
  specialize (H1 ltac:(apply elem_of_ring; eauto)). specialize (H2 ltac:(apply elem_of_ring; eauto)).
  unfold prefers in H1, H2. rewrite !HashRingEntry_le_spec in H1, H2. simpl in H1, H2.
  assert (Hji : (j <= i)%nat /\ (i' <= j')%nat) by lia.
  destruct Hji as [Hji Hij'].
  apply (lt_sorted_index_le l' i' j' e f) in Hij'; [|done..].
  apply (lt_sorted_index_le l i j e f) in Hij'; [|done..].
  assert (i = j) as -> by lia. congruence.
Qed.

(** ** Routing snapshots *)

(** Slot [i] of a snapshot serves endpoint [i]; the ring is built for the same
    endpoints; different slots have different transports. *)
Definition routing_wf (r : RoutingSnapshot) : Prop :=
  map transport_endpoint (transports_ r) = snapshot_endpoints (rs_endpoints_ r) /\
  hash_ring_ r = BuildHashRing (snapshot_endpoints (rs_endpoints_ r)) /\
  snapshot_endpoints (rs_endpoints_ r) <> [] /\
  NoDup (map transport_id (transports_ r)) /\
  NoDup (snapshot_endpoints (rs_endpoints_ r)).

Definition client_wf (s : ClientState) : Prop :=
  forall r, routing_snapshot_ s = Some r ->
    routing_wf r /\ Forall (fun t => transport_id t < next_transport_id_ s) (transports_ r).

(** Equal pointers mean equal memberships, as discovery guarantees. *)
Definition coherent (discovered : snapshot) (s : ClientState) : Prop :=
  forall r, routing_snapshot_ s = Some r ->
    snapshot_ptr (rs_endpoints_ r) = snapshot_ptr discovered -> rs_endpoints_ r = discovered.

Lemma find_transport_Some es ts e t :
  map transport_endpoint ts = es -> find_transport es ts e = Some t ->
  t ∈ ts /\ transport_endpoint t = e.
Proof.
  intros <-. induction ts as [|u ts IH]; simpl; [done|].
  case_decide; [intros [= <-]; split; [left|done]|]. intros Hf. apply IH in Hf as [? ?].
  split; [by right|done].
Qed.

Lemma find_transport_None ts e :
  find_transport (map transport_endpoint ts) ts e = None -> e ∉ map transport_endpoint ts.
Proof.
  induction ts as [|u ts IH]; simpl; [set_solver|].
  destruct (decide (transport_endpoint u = e)) as [|Hne]; [done|].
  intros Hf. apply not_elem_of_cons. split; [congruence|auto].
Qed.

Lemma NoDup_map_inj {A B} (f : A -> B) (l : list A) x y :
  NoDup (map f l) -> x ∈ l -> y ∈ l -> f x = f y -> x = y.
Proof.
  induction l as [|a l IH]; simpl; [set_solver|]. intros [Ha Hnd]%NoDup_cons Hx Hy E.
  apply elem_of_cons in Hx as [->|Hx]; apply elem_of_cons in Hy as [->|Hy]; auto;
    exfalso; apply Ha; [rewrite E|rewrite <- E]; by apply list_elem_of_fmap_2.
Qed.

(** What the client knows of its current snapshot before a rebuild. *)
Definition current_ok (cur : option RoutingSnapshot) (next : Z) : Prop :=
  forall r, cur = Some r ->
    routing_wf r /\ Forall (fun t => transport_id t < next) (transports_ r).

Lemma reusable_ok cur base e t :
  current_ok cur base -> FindReusableTransport cur e = Some t ->
  exists r, cur = Some r /\ t ∈ transports_ r /\ transport_endpoint t = e /\ transport_id t < base.
Proof.
  unfold FindReusableTransport. intros Hcur. destruct cur as [r|]; [|done].
  destruct (Hcur r eq_refl) as [(Hm & _) Hlt]. intros Hf.
  eapply find_transport_Some in Hf as [Hin Ht]; [|done]. rewrite Forall_forall in Hlt.
  exists r. auto.
Qed.

Lemma make_transports_spec cur base discovered next ts next' :
  current_ok cur base -> base <= next -> NoDup discovered ->
  make_transports cur discovered next = (ts, next') ->
  next <= next' /\ map transport_endpoint ts = discovered /\
  Forall (fun t => transport_id t < next') ts /\ NoDup (map transport_id ts) /\
  (forall t, t ∈ ts -> FindReusableTransport cur (transport_endpoint t) = Some t \/
     (FindReusableTransport cur (transport_endpoint t) = None /\ next <= transport_id t)).
Proof.
  intros Hcur. revert next ts next'.
  induction discovered as [|e es IH]; intros next ts next' Hb Hnd Hmake.
  { injection Hmake as <- <-. split_and!; [lia|done|constructor|constructor|set_solver]. }
  simpl in Hmake. apply NoDup_cons in Hnd as [He Hnd].
  assert (Hnew : forall u t, transport_endpoint u ∈ es -> transport_endpoint t = e -> u <> t) by congruence.
  destruct (FindReusableTransport cur e) as [t|] eqn:Ef.
  - destruct (make_transports cur es next) as [ts' n'] eqn:Em. injection Hmake as <- <-.
    destruct (IH next ts' n' Hb Hnd Em) as (Hle & Hm & Hlt & Hids & Hsrc).
    destruct (reusable_ok cur base e t Hcur Ef) as (r & -> & Hin & Ht & Hid).
    split_and!; simpl; [done|by rewrite Ht, Hm|constructor; [lia|done]| |].
    + constructor; [|done]. intros Hdup. apply list_elem_of_fmap in Hdup as (u & Hu & Hinu).
      assert (transport_endpoint u ∈ es) by (rewrite <- Hm; by apply list_elem_of_fmap_2).
      destruct (Hsrc u Hinu) as [Hfu|[_ Hge]]; [|lia].
      destruct (reusable_ok _ base _ u Hcur Hfu) as (r' & [= <-] & Hin' & _).
      destruct (Hcur r eq_refl) as [(_ & _ & _ & Hnd' & _) _].
      eapply (Hnew u t); [done|done|]. symmetry. by eapply NoDup_map_inj.
    + intros u [->|Hu]%elem_of_cons; [left; by rewrite Ht|by apply Hsrc].
  - destruct (make_transports cur es (next + 1)) as [ts' n'] eqn:Em. injection Hmake as <- <-.
    destruct (IH (next + 1) ts' n' ltac:(lia) Hnd Em) as (Hle & Hm & Hlt & Hids & Hsrc).
    split_and!; simpl; [lia|by rewrite Hm|constructor; [simpl; lia|done]| |].
    + constructor; [|done]. intros Hdup. apply list_elem_of_fmap in Hdup as (u & Hu & Hinu).
      destruct (Hsrc u Hinu) as [Hfu|[_ Hge]]; [|lia].
      destruct (reusable_ok _ base _ u Hcur Hfu) as (r' & _ & _ & _ & Hid). lia.
    + intros u [->|Hu]%elem_of_cons; [right; simpl; split; [done|lia]|].
      destruct (Hsrc u Hu) as [?|[? ?]]; [by left|right; split; [done|lia]].
Qed.

Lemma current_for_Some discovered s r :
  coherent discovered s -> current_for discovered s = Some r ->
  routing_snapshot_ s = Some r /\ rs_endpoints_ r = discovered.
Proof.
  unfold current_for. intros Hc. destruct (routing_snapshot_ s) as [r'|] eqn:E; [|done].
  destruct (_ =? _) eqn:Ep; [|done]. intros [= <-]. split; [done|]. apply Hc; [done|lia].
Qed.

(** Resolving keeps the client well-formed and returns a snapshot for the
    membership it was given. *)
Lemma Resolve_spec discovered last_error s r s' :
  client_wf s -> coherent discovered s -> StronglySorted Endpoint_lt (snapshot_endpoints discovered) ->
  ResolveRoutingSnapshot discovered last_error s = (r, s') ->
  client_wf s' /\ next_endpoint_index_ s' = next_endpoint_index_ s /\
  (snapshot_endpoints discovered = [] -> so_value_ r = None /\ s' = s /\ code_ (so_status_ r) = Unavailable) /\
  (snapshot_endpoints discovered <> [] -> exists snap,
     so_value_ r = Some snap /\ routing_wf snap /\ rs_endpoints_ snap = discovered /\
     routing_snapshot_ s' = Some snap /\
     (forall t, t ∈ transports_ snap ->
        forall cur, routing_snapshot_ s = Some cur ->
        t ∈ transports_ cur \/
        (transport_endpoint t ∉ snapshot_endpoints (rs_endpoints_ cur) /\ next_transport_id_ s <= transport_id t))).
Proof.
  intros Hwf Hco Hs. unfold ResolveRoutingSnapshot.
  destruct (decide (snapshot_endpoints discovered = [])) as [He|He].
  { rewrite bool_decide_true by done. intros [= <- <-]. naive_solver. }
  rewrite bool_decide_false by done.
  destruct (current_for discovered s) as [cur|] eqn:Ec.
  { apply current_for_Some in Ec as [Hcur Hd]; [|done]. intros [= <- <-].
    split_and!; [done|done|done|]. intros _. exists cur. destruct (Hwf cur Hcur) as [Hr _].
    split_and!; [done|done|done|done|]. intros t Ht c Hc. left. congruence. }
  destruct (make_transports _ _ _) as [ts n'] eqn:Em. intros [= <- <-].
  apply (make_transports_spec _ (next_transport_id_ s)) in Em as (Hle & Hm & Hlt & Hids & Hsrc);
    [|exact Hwf|lia|by apply lt_sorted_NoDup].
  assert (Hrw : routing_wf (MkRoutingSnapshot discovered ts (BuildHashRing (snapshot_endpoints discovered))))
    by (split_and!; [done..|by apply lt_sorted_NoDup]).
  split_and!; [|done|done|].
  - intros r' [= <-]. split; done.
  - intros _. eexists. split_and!; [done|done|done|done|]. simpl. intros t Ht cur Hcur.
    destruct (Hsrc t Ht) as [Hf|[Hf Hge]].
    + left. destruct (reusable_ok _ _ _ _ Hwf Hf) as (r' & Hr' & Hin & _). congruence.
    + right. split; [|done]. rewrite Hcur in Hf. simpl in Hf. intros Hin.
      destruct (Hwf cur Hcur) as [(Hm' & _) _]. rewrite <- Hm' in Hin, Hf.
      by apply find_transport_None in Hf.
Qed.

(** A sequence of memberships resolved one after the other. *)
Inductive resolves : ClientState -> list snapshot -> ClientState -> Prop :=
  | resolves_nil s : resolves s [] s
  | resolves_cons s d ds err r s1 s2 :
      coherent d s -> StronglySorted Endpoint_lt (snapshot_endpoints d) ->
      ResolveRoutingSnapshot d err s = (r, s1) -> resolves s1 ds s2 -> resolves s (d :: ds) s2.

(** The transport that serves an endpoint. *)
Definition transport_of (s : ClientState) (e : Endpoint) : option TransportRef :=
  FindReusableTransport (routing_snapshot_ s) e.

Lemma find_transport_elem ts t :
  t ∈ ts -> NoDup (map transport_endpoint ts) ->
  find_transport (map transport_endpoint ts) ts (transport_endpoint t) = Some t.
Proof.
  induction ts as [|u ts IH]; simpl; [set_solver|]. intros Hin [Hu Hnd]%NoDup_cons.
  apply elem_of_cons in Hin as [->|Hin]; [by rewrite decide_True|].
  rewrite decide_False; [auto|]. intros E. apply Hu. rewrite E. by apply list_elem_of_fmap_2.
Qed.

Lemma Resolve_keeps_transport d err s r s' e t :
  client_wf s -> coherent d s -> StronglySorted Endpoint_lt (snapshot_endpoints d) ->
  ResolveRoutingSnapshot d err s = (r, s') ->
  transport_of s e = Some t -> e ∈ snapshot_endpoints d -> transport_of s' e = Some t.
Proof.
  intros Hwf Hco Hs Hr Ht He.
  destruct (Resolve_spec _ _ _ _ _ Hwf Hco Hs Hr) as (_ & _ & _ & Hsnap).
  destruct Hsnap as (snap & _ & (Hm & _ & _ & _ & Hnd) & Hd & Hs' & Hsrc);
    [intros E; rewrite E in He; set_solver|].
  unfold transport_of in *. rewrite Hs'. simpl.
  pose proof He as He'. rewrite <- Hd, <- Hm in He'. apply list_elem_of_fmap in He' as (t' & -> & Hin).
  destruct (routing_snapshot_ s) as [cur|] eqn:Ec; [|done]. simpl in Ht.
  destruct (Hwf cur Ec) as [(Hmc & _ & _ & _ & Hndc) _].
  destruct (Hsrc t' Hin cur eq_refl) as [Hold|[Hnot _]].
  - rewrite <- Hmc in Ht, Hndc. rewrite find_transport_elem in Ht by done. injection Ht as <-.
    rewrite <- Hm in Hnd |- *. by apply find_transport_elem.
  - eapply find_transport_Some in Ht as [Hin' Het]; [|done]. destruct Hnot.
    rewrite <- Hmc, <- Het. by apply list_elem_of_fmap_2.
Qed.

(** C36: through any sequence of discovery updates the published routing state
    stays sound (slot [i] connects to endpoint [i], different slots are
    different connections, the ring belongs to the same endpoints), and an
    endpoint that stays in every membership keeps its connection. *)
Theorem ResolveRoutingSnapshot_stable s ds s' :
  client_wf s -> resolves s ds s' ->
  client_wf s' /\
  (forall e t, transport_of s e = Some t -> (forall d, d ∈ ds -> e ∈ snapshot_endpoints d) ->
     transport_of s' e = Some t) /\
  (forall d, last ds = Some d -> snapshot_endpoints d <> [] ->
     exists snap, routing_snapshot_ s' = Some snap /\ rs_endpoints_ snap = d /\ routing_wf snap).
Proof.
  intros Hwf Hr. induction Hr as [s|s d ds err r s1 s2 Hco Hs Hres Hrest IH].
  { split_and!; [done|done|done]. }
  destruct (Resolve_spec _ _ _ _ _ Hwf Hco Hs Hres) as (Hwf1 & _ & _ & Hsnap).
  destruct (IH Hwf1) as (Hwf2 & Hkeep & Hlast). split_and!; [done| |].
  - intros e t Ht Hall. apply Hkeep.
    + apply (Resolve_keeps_transport d err s r s1 e t Hwf Hco Hs Hres Ht). apply Hall. left.
    + intros d' Hd'. apply Hall. by right.
  - intros d' Hd' Hne. destruct ds as [|d1 ds]; [|by apply Hlast].
    injection Hd' as <-. inversion Hrest; subst.
    destruct (Hsnap Hne) as (snap & _ & Hw & Hd & Hs1 & _). by exists snap.
Qed.

(** ** Failover *)

(** The endpoints in the order a call tries them. *)
Definition rotate_from {A} (start : Z) (l : list A) : list A :=
  drop (Z.to_nat start) l ++ take (Z.to_nat start) l.

Lemma lookup_rotate {A} (l : list A) start i :
  0 <= start < len l -> 0 <= i < len l ->
  rotate_from start l !! Z.to_nat i = l !! Z.to_nat ((start + i) mod len l).
Proof.
  intros Hs Hi. unfold rotate_from, len in *.
  destruct (decide (start + i < Z.of_nat (length l))) as [Hlt|Hge].
  - rewrite Z.mod_small by lia. rewrite lookup_app_l by (rewrite length_drop; lia).
    rewrite lookup_drop. f_equal. lia.
  - replace ((start + i) mod Z.of_nat (length l)) with (start + i - Z.of_nat (length l))
      by (apply Z.mod_unique with 1; lia).
    rewrite lookup_app_r by (rewrite length_drop; lia). rewrite length_drop.
    rewrite lookup_take_lt by lia. f_equal. lia.
Qed.

Section failover.
Context `{TransportLaws}.

(** What the rest of the loop does from [offset]: it tries the next endpoints
    of the rotation in order; it commits the request at most once; when it ends
    with a retryable failure it tried them all and committed nothing. *)
Definition failover_ok (l : list TransportRef) (start offset : Z) (id : Z) (w : tstate)
    (res : CallAttemptResult * tstate * list TransportRef) : Prop :=
  let '(r, w', tried) := res in
  tried = take (length tried) (drop (Z.to_nat offset) (rotate_from start l)) /\
  committed w id <= committed w' id <=
    committed w id + (if CanRetryWithoutDuplicateRequest r then 0 else 1) /\
  (CanRetryWithoutDuplicateRequest r = true -> len tried = len l - offset).

Lemma attempt_cases r :
  CanRetryWithoutDuplicateRequest r = negb (HasResponse r || MustStopRetryToAvoidDuplicateRequest r).
Proof. destruct r as [x|[st []]]; done. Qed.

Lemma failover_loop_spec n l start offset request options last w :
  0 <= start < len l -> 0 <= offset -> Z.of_nat n = len l - offset -> len l < 2 ^ 63 ->
  CanRetryWithoutDuplicateRequest last = true ->
  exists res, failover_loop n l start offset request options last w = Some res /\
    failover_ok l start offset (req_request_id_ request) w res /\
    (0 < n -> res.2 <> [])%nat.
Proof.
  revert offset last w. induction n as [|n IH]; intros offset last w Hs Ho Hn Hl Hlast; simpl.
  { eexists. split; [done|]. split; [|lia]. simpl. rewrite Hlast.
    split_and!; [done|lia|lia|]. intros _. change (len []) with 0. lia. }
  rewrite add64_small by lia.
  assert (Hidx : 0 <= (start + offset) mod len l < len l) by (apply Z.mod_pos_bound; lia).
  destruct (lookup_lt_is_Some_2 l (Z.to_nat ((start + offset) mod len l))) as [t Ht];
    [unfold len in *; lia|].
  rewrite Ht. cbn [mbind option_bind].
  pose proof (lookup_rotate l start offset Hs ltac:(lia)) as Hrot. rewrite Ht in Hrot.
  pose proof (call_commits t request options w) as Hc.
  destruct (TcpTransport_Call t request options w) as [r w1].
  rewrite attempt_cases in Hc.
  destruct (HasResponse r || MustStopRetryToAvoidDuplicateRequest r) eqn:Estop; simpl in Hc.
  - eexists. split; [done|]. split; [|done]. simpl. rewrite attempt_cases, Estop. simpl.
    split_and!; [|lia..|done]. by rewrite (drop_S _ t) by done.
  - destruct (IH (offset + 1) r w1 Hs ltac:(lia) ltac:(lia) Hl) as ([[r' w'] tried] & Hr & Hok & _).
    { by rewrite attempt_cases, Estop. }
    rewrite Hr. cbn [mbind option_bind]. eexists. split; [done|]. split; [|done].
    destruct Hok as (Htr & Hcm & Hall). simpl.
    rewrite (drop_S _ t) by done. simpl. replace (S (Z.to_nat offset)) with (Z.to_nat (offset + 1)) by lia.
    split_and!; [by rewrite <- Htr|lia|lia|]. intros E. rewrite len_cons, Hall by done. lia.
Qed.

Lemma rotate_length {A} (l : list A) start : length (rotate_from start l) = length l.
Proof. unfold rotate_from. rewrite length_app, length_drop, length_take. lia. Qed.

Lemma rotate_Permutation {A} (l : list A) start : rotate_from start l ≡ₚ l.
Proof. unfold rotate_from. rewrite Permutation_app_comm. by rewrite take_drop. Qed.

(** The start of a call is an index of the snapshot. *)
Lemma select_start_ok snap options s :
  routing_wf snap -> client_wf s -> 0 < len (transports_ snap) ->
  exists start s', select_start snap options s = Some (start, s') /\
    0 <= start < len (transports_ snap) /\ client_wf s' /\ routing_snapshot_ s' = routing_snapshot_ s.
Proof.
  intros (Hm & Hring & _) Hwf Hpos. unfold select_start. case_bool_decide as Hk.
  - rewrite (proj2 (Z.eqb_neq _ _)) by lia. do 2 eexists. split; [done|].
    split; [apply Z.mod_pos_bound; lia|]. done.
  - assert (Hln : length (transports_ snap) = length (snapshot_endpoints (rs_endpoints_ snap)))
      by (by rewrite <- Hm, length_map).
    assert (He : snapshot_endpoints (rs_endpoints_ snap) <> []).
    { intros E. rewrite E in Hln. unfold len in Hpos. simpl in Hln. lia. }
    rewrite Hring. destruct (sticky_spec _ _ Hk He) as (i & e & _ & Hsel & Hl & _).
    rewrite Hsel. cbn. do 2 eexists. split; [done|]. split; [|done].
    apply lookup_lt_Some in Hl. unfold len. rewrite Hln. lia.
Qed.

(** C21: a call returns whatever the transports do.  It tries the endpoints of
    one routing snapshot in cyclic order from its start, each at most once,
    and the request reaches a server at most once; a failure that leaves the
    request unsent is reported only after every endpoint was tried, and then
    nothing was committed. *)
Theorem CallWithFailover_at_most_once discovered last_error request options s w :
  client_wf s -> coherent discovered s ->
  StronglySorted Endpoint_lt (snapshot_endpoints discovered) ->
  len (snapshot_endpoints discovered) < 2 ^ 63 -> 0 <= next_endpoint_index_ s ->
  exists r s' w' tried,
    CallWithFailover discovered last_error request options s w = Some (r, s', w', tried) /\
    client_wf s' /\ NoDup (map transport_id tried) /\
    committed w (req_request_id_ request) <= committed w' (req_request_id_ request) <=
      committed w (req_request_id_ request) + 1 /\
    (CanRetryWithoutDuplicateRequest r = true ->
       committed w' (req_request_id_ request) = committed w (req_request_id_ request) /\
       len tried = len (snapshot_endpoints discovered)) /\
    (snapshot_endpoints discovered <> [] -> exists snap start,
       routing_snapshot_ s' = Some snap /\ rs_endpoints_ snap = discovered /\ tried <> [] /\
       tried = take (length tried) (rotate_from start (transports_ snap))).
Proof.
  intros Hwf Hco Hsort Hlen Hidx. unfold CallWithFailover.
  destruct (ResolveRoutingSnapshot discovered last_error s) as [res s1] eqn:Er.
  destruct (Resolve_spec _ _ _ _ _ Hwf Hco Hsort Er) as (Hwf1 & Hi1 & Hnil & Hsnap).
  destruct (decide (snapshot_endpoints discovered = [])) as [He|He].
  { destruct (Hnil He) as (Hv & -> & _). rewrite Hv. do 4 eexists. split; [done|].
    rewrite He. split_and!; [done|constructor|lia|lia|done|done]. }
  destruct (Hsnap He) as (snap & Hv & Hrw & Hd & Hs1 & _). rewrite Hv. clear Hsnap Hnil.
  pose proof Hrw as (Hm & Hring & _ & Hids & _).
  assert (Hln : len (transports_ snap) = len (snapshot_endpoints discovered)).
  { rewrite <- Hd, <- Hm. unfold len. by rewrite length_map. }
  assert (Hpos : 0 < len (transports_ snap)).
  { rewrite Hln. destruct (snapshot_endpoints discovered); [done|]. unfold len. simpl. lia. }
  unfold CallWithFailover_on.
  destruct (select_start_ok snap options s1 Hrw Hwf1 Hpos) as (start & s2 & -> & Hst & Hwf2 & Hs2).
  cbn [mbind option_bind].
  destruct (failover_loop_spec (length (transports_ snap)) (transports_ snap) start 0 request options
    (MakeCallFailure (status Unavailable "no endpoints available") NotSent) w Hst ltac:(lia)
    ltac:(unfold len; lia) ltac:(lia) eq_refl) as ([[r w'] tried] & Hr & (Htr & Hcm & Hall) & Hne).
  rewrite Hr. cbn [mbind option_bind]. exists r, s2, w', tried. split; [done|].
  rewrite drop_0 in Htr.
  split_and!; [done| |lia| |intros E; rewrite E in Hcm; rewrite Hall, Hln by done; lia|].
  - rewrite Htr. eapply sublist_NoDup; [|apply fmap_sublist, sublist_take].
    by rewrite (fmap_Permutation transport_id _ _ (rotate_Permutation _ _)).
  - destruct (CanRetryWithoutDuplicateRequest r); lia.
  - intros _. exists snap, start. split_and!; [congruence|done| |done].
    apply Hne. unfold len in Hpos. lia.
Qed.

End failover.

(** ** An example *)

Definition endpoint_a : Endpoint := MkEndpoint (bs "10.0.0.1") 9000.
Definition endpoint_b : Endpoint := MkEndpoint (bs "10.0.0.2") 9000.

Lemma example_sorted : StronglySorted Endpoint_lt [endpoint_a; endpoint_b].
Proof. repeat constructor. Qed.

Lemma example_sorted1 : StronglySorted Endpoint_lt [endpoint_a].
Proof. repeat constructor. Qed.

Lemma SelectStickyStart_consistent_witness :
  exists key, sticky_endpoint key [endpoint_a; endpoint_b] = Some endpoint_a /\
    sticky_endpoint key [endpoint_a] = Some endpoint_a.
Proof.
  exists (bs "user-1").
  assert (Hk : bs "user-1" <> []) by discriminate.
  assert (H2 : sticky_endpoint (bs "user-1") [endpoint_a; endpoint_b] = Some endpoint_a)
    by (vm_compute; reflexivity).
  split; [exact H2|].
  apply (proj2 (SelectStickyStart_consistent (bs "user-1") Hk) [endpoint_a] [endpoint_a; endpoint_b]).
  - repeat constructor.
  - exact example_sorted.
  - intros x Hx. apply list_elem_of_singleton in Hx as ->. left.
  - exact H2.
  - left.
Defined.

Definition example_d1 : snapshot := MkSnapshot 1 [endpoint_a].
Definition example_d2 : snapshot := MkSnapshot 2 [endpoint_a; endpoint_b].

Lemma client_wf_initial : client_wf ClientState_initial.
Proof. intros r [=]. Qed.

Definition example_s1 : ClientState := (ResolveRoutingSnapshot example_d1 [] ClientState_initial).2.
Definition example_s2 : ClientState := (ResolveRoutingSnapshot example_d2 [] example_s1).2.

Lemma example_resolves : resolves ClientState_initial [example_d1; example_d2] example_s2.
Proof.
  eapply (resolves_cons _ _ _ [] _ example_s1); [by intros r [=]|exact example_sorted1
    |apply surjective_pairing|].
  eapply (resolves_cons _ _ _ [] _ example_s2); [|exact example_sorted
    |apply surjective_pairing|constructor].
  intros r [= <-]. discriminate.
Qed.

Lemma ResolveRoutingSnapshot_stable_witness :
  exists snap, routing_snapshot_ example_s2 = Some snap /\ rs_endpoints_ snap = example_d2 /\
    routing_wf snap.
Proof.
  apply (ResolveRoutingSnapshot_stable ClientState_initial [example_d1; example_d2] example_s2
    client_wf_initial example_resolves); [reflexivity|discriminate].
Defined.

(** Transports that log the requests they send: number 0 is down. *)
Definition example_transport : Transport := {|
  tstate := list Z;
  TcpTransport_Call := fun t r _ w =>
    if transport_id t =? 0
    then (MakeCallFailure (status Unavailable "connect failed") NotSent, w)
    else (CallResponse (MkResponseEnvelope (req_request_id_ r) Status_Ok []), req_request_id_ r :: w);
  committed := fun w id => len (filter (fun x => x = id) w)
|}.

Lemma example_transport_laws : @TransportLaws example_transport.
Proof.
  constructor. intros t r o w. unfold TcpTransport_Call, committed, example_transport.
  destruct (transport_id t =? 0); simpl; [lia|].
  rewrite filter_cons_True by done. rewrite len_cons. lia.
Qed.

Lemma CallWithFailover_at_most_once_witness :
  exists r s' w' tried,
    @CallWithFailover example_transport example_d2 [] (MkRequestEnvelope 1 (bs "S") (bs "M") [])
      (MkEffectiveCallOptions None []) ClientState_initial [] = Some (r, s', w', tried) /\
    NoDup (map transport_id tried).
Proof.
  destruct (@CallWithFailover_at_most_once example_transport example_transport_laws example_d2 []
    (MkRequestEnvelope 1 (bs "S") (bs "M") []) (MkEffectiveCallOptions None []) ClientState_initial [])
    as (r & s' & w' & tried & Hc & _ & Hn & _).
  - exact client_wf_initial.
  - intros r [=].
  - exact example_sorted.
  - reflexivity.
  - simpl. lia.
  - exists r, s', w', tried. split; [exact Hc|exact Hn].
Defined.
