(* ===== verification/TcpTransport.v ===== *)
(** * The multiplexed client transport

    Models [src/client/tcp_transport.{h,cpp}]: caller threads that register a
    pending call, write its frame and wait for its result, and one reader
    thread per connection that matches responses by request id.

    The state is shared by all threads; a step of the relation [tstep] is one
    critical section, one system call, or one completion of a pending call, and
    the threads interleave freely.  A connection is a generation number; the
    descriptor number the kernel gave it is recorded beside it, because the
    code passes descriptor numbers around outside [state_mutex_].

    The theorems show, for every interleaving: pending calls stay within the
    limit, a pending call is completed at most once and with the response of
    its own id, an attempt reported as not sent has sent nothing, and no call
    waits for ever once the readers have ended.  One theorem shows an
    interleaving the code does not exclude: a reader whose connection was
    closed reads from the next connection. *)

From S2P Require Import Prelude Text Status FrameHeader FrameCodec Socket ConsulHttp Naming Consul Routing.

Local Open Scope Z_scope.

(** ** Statuses and timeouts *)

Definition TimeoutStatus (action : string) : Status :=
  MkStatus DeadlineExceeded (bs action ++ bs " timed out").

Definition PeerClosedStatus (action : string) : Status :=
  MkStatus Unavailable (bs action ++ bs " failed: peer closed connection").

(** Times in milliseconds; a duration is cut to whole milliseconds. *)
Definition RemainingTimeout (now : Z) (options : EffectiveCallOptions) : Z :=
  match deadline_ options with
  | None => 0
  | Some deadline => Z.max (deadline - now) 1
  end.

Definition DeadlineExpired (now : Z) (options : EffectiveCallOptions) : bool :=
  match deadline_ options with None => false | Some deadline => deadline <=? now end.

(** [ToTimeval] of this file; zeros would mean "no timeout". *)
Definition Transport_ToTimeval (timeout : Z) : timeval :=
  if timeout <=? 0 then MkTimeval 0 0 else
  let seconds := timeout ÷ 1000 in
  let micros := (timeout - seconds * 1000) * 1000 in
  if (seconds =? 0) && (micros =? 0) then MkTimeval seconds 1 else MkTimeval seconds micros.

(** A positive timeout is given to the kernel exactly, in its range, and never as
    "no timeout", by the transport as by the socket; the timeout of a call with a
    deadline is positive. *)
Theorem ToTimeval_exact now options timeout :
  Transport_ToTimeval timeout = ToTimeval timeout /\
  (0 < timeout ->
     let tv := ToTimeval timeout in
     0 <= tv_sec tv /\ 0 <= tv_usec tv < 1000000 /\ tv <> MkTimeval 0 0 /\
     tv_sec tv * 1000000 + tv_usec tv = timeout * 1000) /\
  (deadline_ options <> None -> 0 < RemainingTimeout now options).
Proof.
  split; [done|]. split.
  - intros Ht. unfold ToTimeval. rewrite (proj2 (Z.leb_gt _ _)), Z.quot_div_nonneg by lia.
    pose proof (Z.div_mod timeout 1000 ltac:(lia)). pose proof (Z.mod_pos_bound timeout 1000 ltac:(lia)).
    pose proof (Z.div_pos timeout 1000 ltac:(lia) ltac:(lia)).
    destruct (Z.eqb_spec (timeout / 1000) 0), (Z.eqb_spec ((timeout - timeout / 1000 * 1000) * 1000) 0);
      cbn [andb tv_sec tv_usec]; split_and!; try lia; intros [= ? ?]; lia.
  - unfold RemainingTimeout. destruct (deadline_ options); [lia|done].
Qed.

Definition deadline_status : Status := status DeadlineExceeded "RPC deadline exceeded".

(** ** Threads *)

(** Where a caller is.  [sent] counts the bytes of the frame written, and
    [retrying] is the local flag of [SendAll]. *)
Inductive caller_pc :=
  | CIdle
  | CEnsure
  | CJoinPrevious (g : nat)
  | CConnect
  | CAssign (previous g : nat)
  | CRegister
  | CWriteLock
  | CWrite
  | CSending (fd : Z) (written : Z) (retrying : bool)
  | CClose (failure : Status)
  | CFailAll (failure : Status) (reader : option nat)
  | CFailing (failure : Status) (reader : option nat) (calls : list nat)
  | CJoinReader (failure : Status) (g : nat)
  | CWait
  | CWaitOwned
  | CDone (result : CallAttemptResult).

(** Where the reader of a connection is. *)
Inductive reader_pc :=
  | RLoop (buffer : bytes)
  | RComplete (call : nat) (response : ResponseEnvelope) (buffer : bytes)
  | RClose (st : Status)
  | RFailAll (st : Status)
  | RFailing (st : Status) (calls : list nat)
  | RExit.

(** ** State *)

(** [t_sent] and [t_sets] are history: the bytes the kernel accepted for a
    call, and how often its [result_] was stored. *)
Record transport := MkTransport {
  t_socket : option nat;
  t_fds : list Z;
  t_reader_thread : option nat;
  t_state_mutex : option nat;
  t_write_mutex : option nat;
  t_pending : gmap Z nat;
  t_callers : list caller_pc;
  t_readers : list reader_pc;
  t_results : gmap nat CallAttemptResult;
  t_sent : gmap nat bytes;
  t_sets : gmap nat nat
}.

(** [n] calls about to start on a transport that is not connected. *)
Definition transport_new (n : nat) : transport :=
  MkTransport None [] None None None ∅ (replicate n CIdle) [] ∅ ∅ ∅.

Definition set_caller (i : nat) (pc : caller_pc) (s : transport) : transport :=
  MkTransport (t_socket s) (t_fds s) (t_reader_thread s) (t_state_mutex s) (t_write_mutex s)
    (t_pending s) (<[i := pc]> (t_callers s)) (t_readers s) (t_results s) (t_sent s) (t_sets s).

Definition set_reader (g : nat) (pc : reader_pc) (s : transport) : transport :=
  MkTransport (t_socket s) (t_fds s) (t_reader_thread s) (t_state_mutex s) (t_write_mutex s)
    (t_pending s) (t_callers s) (<[g := pc]> (t_readers s)) (t_results s) (t_sent s) (t_sets s).

Definition set_pending (m : gmap Z nat) (s : transport) : transport :=
  MkTransport (t_socket s) (t_fds s) (t_reader_thread s) (t_state_mutex s) (t_write_mutex s)
    m (t_callers s) (t_readers s) (t_results s) (t_sent s) (t_sets s).

Definition set_write_mutex (o : option nat) (s : transport) : transport :=
  MkTransport (t_socket s) (t_fds s) (t_reader_thread s) (t_state_mutex s) o
    (t_pending s) (t_callers s) (t_readers s) (t_results s) (t_sent s) (t_sets s).

Definition set_reader_thread (o : option nat) (s : transport) : transport :=
  MkTransport (t_socket s) (t_fds s) o (t_state_mutex s) (t_write_mutex s)
    (t_pending s) (t_callers s) (t_readers s) (t_results s) (t_sent s) (t_sets s).

Definition set_state_mutex (o : option nat) (s : transport) : transport :=
  MkTransport (t_socket s) (t_fds s) (t_reader_thread s) o (t_write_mutex s)
    (t_pending s) (t_callers s) (t_readers s) (t_results s) (t_sent s) (t_sets s).

(** [CloseSocketLocked]: shut down and close, when there is a socket. *)
Definition CloseSocketLocked (s : transport) : transport :=
  MkTransport None (t_fds s) (t_reader_thread s) (t_state_mutex s) (t_write_mutex s)
    (t_pending s) (t_callers s) (t_readers s) (t_results s) (t_sent s) (t_sets s).

(** [socket_ = std::move(socket)] and the thread of its reader: a new
    generation, whose descriptor number is [fd]. *)
Definition open_socket (fd : Z) (s : transport) : transport :=
  MkTransport (Some (length (t_fds s))) (t_fds s ++ [fd]) (t_reader_thread s) (t_state_mutex s)
    (t_write_mutex s) (t_pending s) (t_callers s) (t_readers s ++ [RLoop []]) (t_results s)
    (t_sent s) (t_sets s).

(** [pending->result_.emplace(result)] *)
Definition store_result (j : nat) (r : CallAttemptResult) (s : transport) : transport :=
  MkTransport (t_socket s) (t_fds s) (t_reader_thread s) (t_state_mutex s) (t_write_mutex s)
    (t_pending s) (t_callers s) (t_readers s) (<[j := r]> (t_results s)) (t_sent s)
    (<[j := S (default 0%nat (t_sets s !! j))]> (t_sets s)).

(** The kernel accepted [b] for call [i]. *)
Definition record_sent (i : nat) (b : bytes) (s : transport) : transport :=
  MkTransport (t_socket s) (t_fds s) (t_reader_thread s) (t_state_mutex s) (t_write_mutex s)
    (t_pending s) (t_callers s) (t_readers s) (t_results s)
    (<[i := default [] (t_sent s !! i) ++ b]> (t_sent s)) (t_sets s).

(** The descriptor number of the connected socket, -1 without one. *)
Definition ConnectedFd (s : transport) : Z :=
  match t_socket s with Some g => default (-1) (t_fds s !! g) | None => -1 end.

(** The cases of a step, one per rule (the step relations are below). *)
Ltac caller_cases H := destruct H as [H|H|H|H|H|H|H]; destruct H.
Ltac reader_cases H := destruct H as [H|H|H|H]; destruct H.

Section transport.
Context {W : Wire} (error_message : Z -> bytes).
(** The calls: their requests, options and the limits of the transport. *)
Context (request : nat -> RequestEnvelope) (options : nat -> EffectiveCallOptions).
Context (limits : ProtocolLimits) (max_inflight : Z).

Definition IoStatus (action : string) (error : Z) : Status :=
  if (error =? EAGAIN) || (error =? EWOULDBLOCK) then TimeoutStatus action
  else MkStatus Unavailable (MakeSystemErrorMessage error_message action error).

Definition rid (i : nat) : Z := req_request_id_ (request i).

(** The frame of a call; [None] when encoding fails. *)
Definition frame_of (i : nat) : option bytes :=
  match FrameCodec_EncodeRequest limits (request i) with
  | Some r => so_value_ r
  | None => None
  end.

(** ** Registration *)

Definition TryRegisterPending (i : nat) (s : transport) : bool * transport :=
  if max_inflight <=? Z.of_nat (size (t_pending s)) then (false, s)
  else (true, set_pending (<[rid i := i]> (t_pending s)) s).

Definition TryUnregisterPending (i : nat) (s : transport) : bool * transport :=
  (bool_decide (is_Some (t_pending s !! rid i)), set_pending (delete (rid i) (t_pending s)) s).

(** The calls [FailAllPending] takes out of the map. *)
Definition pending_calls (s : transport) : list nat := (map_to_list (t_pending s)).*2.

Definition failed_send (st : Status) : CallAttemptResult := MakeCallFailure st MaybeSent.

(** ** Callers *)

(** One round of [SendAll] that ends the writing: the failure, for a clock
    [now], a result of [setsockopt] and a result of [send]. *)
Inductive send_fails (i : nat) (retrying : bool) : Status -> Prop :=
  | send_expired now :
      retrying = true -> DeadlineExpired now (options i) = true ->
      send_fails i retrying (TimeoutStatus "send")
  | send_option error :
      retrying = true -> deadline_ (options i) <> None ->
      send_fails i retrying (IoStatus "setsockopt(SO_SNDTIMEO)" error)
  | send_closed : send_fails i retrying (PeerClosedStatus "send")
  | send_error error : error <> EINTR -> send_fails i retrying (IoStatus "send" error).

(** A failure before the first byte was handed to the kernel. *)
Definition not_sent (i : nat) (st : Status) (s : transport) : transport :=
  set_caller i (CDone (MakeCallFailure st NotSent)) s.

(** [Call] before it connects: encode, check the deadline. *)
Inductive Call_step (i : nat) (s : transport) : caller_pc -> transport -> Prop :=
  | call_encode_fails r :
      FrameCodec_EncodeRequest limits (request i) = Some r -> StatusOr_ok r = false ->
      Call_step i s CIdle (not_sent i (so_status_ r) s)
  | call_expired now frame :
      frame_of i = Some frame -> DeadlineExpired now (options i) = true ->
      Call_step i s CIdle (not_sent i deadline_status s)
  | call_start now frame :
      frame_of i = Some frame -> DeadlineExpired now (options i) = false ->
      Call_step i s CIdle (set_caller i CEnsure s).

(** [EnsureConnectedWithTimeout].  A step is a critical section of
    [state_mutex_] or the join outside it; assigning to a joinable
    [reader_thread_] joins it with the mutex held. *)
Inductive EnsureConnected_step (i : nat) (s : transport) : caller_pc -> transport -> Prop :=
  | ensure_connected g :
      t_state_mutex s = None -> t_socket s = Some g ->
      EnsureConnected_step i s CEnsure (set_caller i CRegister s)
  | ensure_takes_reader g :
      t_state_mutex s = None -> t_socket s = None -> t_reader_thread s = Some g ->
      EnsureConnected_step i s CEnsure (set_caller i (CJoinPrevious g) (set_reader_thread None s))
  | ensure_connect_fails st :
      t_state_mutex s = None -> t_socket s = None -> t_reader_thread s = None -> code_ st <> Ok ->
      EnsureConnected_step i s CEnsure (not_sent i st s)
  | ensure_opens fd :
      t_state_mutex s = None -> t_socket s = None -> t_reader_thread s = None -> 0 <= fd ->
      EnsureConnected_step i s CEnsure
        (set_caller i CRegister (set_reader_thread (Some (length (t_fds s))) (open_socket fd s)))
  | ensure_joined g :
      t_readers s !! g = Some RExit ->
      EnsureConnected_step i s (CJoinPrevious g) (set_caller i CConnect s)
  | connect_already g :
      t_state_mutex s = None -> t_socket s = Some g ->
      EnsureConnected_step i s CConnect (set_caller i CRegister s)
  | connect_fails st :
      t_state_mutex s = None -> t_socket s = None -> code_ st <> Ok ->
      EnsureConnected_step i s CConnect (not_sent i st s)
  | connect_opens fd :
      t_state_mutex s = None -> t_socket s = None -> t_reader_thread s = None -> 0 <= fd ->
      EnsureConnected_step i s CConnect
        (set_caller i CRegister (set_reader_thread (Some (length (t_fds s))) (open_socket fd s)))
  | connect_assigns fd g :
      t_state_mutex s = None -> t_socket s = None -> t_reader_thread s = Some g -> 0 <= fd ->
      EnsureConnected_step i s CConnect
        (set_caller i (CAssign g (length (t_fds s))) (set_state_mutex (Some i) (open_socket fd s)))
  | connect_assigned old g :
      t_readers s !! old = Some RExit ->
      EnsureConnected_step i s (CAssign old g)
        (set_caller i CRegister (set_state_mutex None (set_reader_thread (Some g) s))).

(** [Call] registers the pending call. *)
Inductive Register_step (i : nat) (s : transport) : caller_pc -> transport -> Prop :=
  | call_rejected :
      (TryRegisterPending i s).1 = false ->
      Register_step i s CRegister
        (not_sent i (status ResourceExhausted "client max in-flight per endpoint exceeded") s)
  | call_registers :
      (TryRegisterPending i s).1 = true ->
      Register_step i s CRegister (set_caller i CWriteLock (TryRegisterPending i s).2).

(** [TryWriteRequestFrame] up to the first [send]. *)
Inductive TryWrite_step (i : nat) (s : transport) : caller_pc -> transport -> Prop :=
  | write_locks :
      t_write_mutex s = None ->
      TryWrite_step i s CWriteLock (set_caller i CWrite (set_write_mutex (Some i) s))
  | write_expired now :
      DeadlineExpired now (options i) = true ->
      TryWrite_step i s CWrite
        (not_sent i deadline_status (set_write_mutex None (TryUnregisterPending i s).2))
  | write_not_connected now :
      DeadlineExpired now (options i) = false -> t_state_mutex s = None -> ConnectedFd s < 0 ->
      TryWrite_step i s CWrite
        (not_sent i (status Unavailable "transport not connected")
           (set_write_mutex None (TryUnregisterPending i s).2))
  | write_option_fails now error :
      DeadlineExpired now (options i) = false -> t_state_mutex s = None -> 0 <= ConnectedFd s ->
      TryWrite_step i s CWrite
        (not_sent i (IoStatus "setsockopt(SO_SNDTIMEO)" error)
           (set_write_mutex None (TryUnregisterPending i s).2))
  | write_begins now :
      DeadlineExpired now (options i) = false -> t_state_mutex s = None -> 0 <= ConnectedFd s ->
      TryWrite_step i s CWrite (set_caller i (CSending (ConnectedFd s) 0 false) s).

(** [SendAll], and what [TryWriteRequestFrame] does with its outcome. *)
Inductive SendAll_step (i : nat) (s : transport) : caller_pc -> transport -> Prop :=
  | send_some fd written retrying sent frame :
      frame_of i = Some frame -> 0 < sent <= len frame - written ->
      SendAll_step i s (CSending fd written retrying)
        (set_caller i (CSending fd (written + sent) (written + sent <? len frame))
           (record_sent i (substr frame written sent) s))
  | send_interrupted fd written retrying frame :
      frame_of i = Some frame -> written < len frame ->
      SendAll_step i s (CSending fd written retrying) (set_caller i (CSending fd written true) s)
  | send_done fd written retrying frame :
      frame_of i = Some frame -> len frame <= written ->
      SendAll_step i s (CSending fd written retrying)
        (set_caller i CWait (set_write_mutex None s))
  | send_failed fd written retrying frame st :
      frame_of i = Some frame -> written < len frame -> send_fails i retrying st ->
      SendAll_step i s (CSending fd written retrying)
        (set_caller i (CClose st) (TryUnregisterPending i s).2).

(** [Close] after a failed write: close the socket and take the reader, fail
    the pending calls one by one, join the reader. *)
Inductive Close_step (i : nat) (s : transport) : caller_pc -> transport -> Prop :=
  | close_socket st :
      t_state_mutex s = None ->
      Close_step i s (CClose st)
        (set_caller i (CFailAll st (t_reader_thread s))
           (set_reader_thread None (CloseSocketLocked s)))
  | close_takes st reader :
      Close_step i s (CFailAll st reader)
        (set_caller i (CFailing st reader (pending_calls s)) (set_pending ∅ s))
  | close_fails_one st reader j calls :
      Close_step i s (CFailing st reader (j :: calls))
        (store_result j (failed_send (status Unavailable "transport closed"))
           (set_caller i (CFailing st reader calls) s))
  | close_joins st g :
      Close_step i s (CFailing st (Some g) []) (set_caller i (CJoinReader st g) s)
  | close_no_reader st :
      Close_step i s (CFailing st None [])
        (set_caller i (CDone (failed_send st)) (set_write_mutex None s))
  | close_joined st g :
      t_readers s !! g = Some RExit ->
      Close_step i s (CJoinReader st g)
        (set_caller i (CDone (failed_send st)) (set_write_mutex None s)).

(** [WaitForResult]. *)
Inductive WaitForResult_step (i : nat) (s : transport) : caller_pc -> transport -> Prop :=
  | wait_result r :
      t_results s !! i = Some r -> WaitForResult_step i s CWait (set_caller i (CDone r) s)
  | wait_deadline now :
      DeadlineExpired now (options i) = true -> t_results s !! i = None ->
      (TryUnregisterPending i s).1 = true ->
      WaitForResult_step i s CWait
        (set_caller i (CDone (failed_send deadline_status)) (TryUnregisterPending i s).2)
  | wait_lost_race now :
      DeadlineExpired now (options i) = true -> t_results s !! i = None ->
      (TryUnregisterPending i s).1 = false ->
      WaitForResult_step i s CWait (set_caller i CWaitOwned s)
  | wait_owned r :
      t_results s !! i = Some r -> WaitForResult_step i s CWaitOwned (set_caller i (CDone r) s).

Inductive caller_step (i : nat) (s : transport) (pc : caller_pc) (s' : transport) : Prop :=
  | in_Call : Call_step i s pc s' -> caller_step i s pc s'
  | in_EnsureConnected : EnsureConnected_step i s pc s' -> caller_step i s pc s'
  | in_Register : Register_step i s pc s' -> caller_step i s pc s'
  | in_TryWrite : TryWrite_step i s pc s' -> caller_step i s pc s'
  | in_SendAll : SendAll_step i s pc s' -> caller_step i s pc s'
  | in_Close : Close_step i s pc s' -> caller_step i s pc s'
  | in_WaitForResult : WaitForResult_step i s pc s' -> caller_step i s pc s'.

(** ** Readers *)

(** [ReaderLoop]: decode what has arrived; [CompletePending] takes the call of a
    response out of the map, when it is there. *)
Inductive ReaderLoop_step (g : nat) (s : transport) : reader_pc -> transport -> Prop :=
  | read_bad_frame buffer :
      error_ (FrameCodec_Decode limits buffer) <> ProtoOk ->
      error_ (FrameCodec_Decode limits buffer) <> NeedMoreData ->
      ReaderLoop_step g s (RLoop buffer)
        (set_reader g (RClose (status DataLoss "failed to decode response frame")) s)
  | read_no_response buffer :
      error_ (FrameCodec_Decode limits buffer) = ProtoOk ->
      response_ (FrameCodec_Decode limits buffer) = None ->
      ReaderLoop_step g s (RLoop buffer)
        (set_reader g (RClose (status DataLoss "response frame did not contain an RPC response")) s)
  | read_unknown buffer r :
      error_ (FrameCodec_Decode limits buffer) = ProtoOk ->
      response_ (FrameCodec_Decode limits buffer) = Some r ->
      t_pending s !! resp_request_id_ r = None ->
      ReaderLoop_step g s (RLoop buffer)
        (set_reader g (RLoop (drop (Z.to_nat (consumed_ (FrameCodec_Decode limits buffer))) buffer)) s)
  | read_response buffer r j :
      error_ (FrameCodec_Decode limits buffer) = ProtoOk ->
      response_ (FrameCodec_Decode limits buffer) = Some r ->
      t_pending s !! resp_request_id_ r = Some j ->
      ReaderLoop_step g s (RLoop buffer)
        (set_reader g (RComplete j r
           (drop (Z.to_nat (consumed_ (FrameCodec_Decode limits buffer))) buffer))
           (set_pending (delete (resp_request_id_ r) (t_pending s)) s))
  (** [RecvSome]: the kernel gives bytes, the end of the stream or an error *)
  | read_bytes buffer chunk :
      error_ (FrameCodec_Decode limits buffer) = NeedMoreData -> chunk <> [] -> len chunk <= 4096 ->
      ReaderLoop_step g s (RLoop buffer) (set_reader g (RLoop (buffer ++ chunk)) s)
  | read_end buffer :
      error_ (FrameCodec_Decode limits buffer) = NeedMoreData ->
      ReaderLoop_step g s (RLoop buffer) (set_reader g (RClose (PeerClosedStatus "recv")) s)
  | read_error buffer error :
      error_ (FrameCodec_Decode limits buffer) = NeedMoreData -> error <> EINTR ->
      ReaderLoop_step g s (RLoop buffer) (set_reader g (RClose (IoStatus "recv" error)) s).

(** The rest of [CompletePending]: store the result. *)
Inductive CompletePending_step (g : nat) (s : transport) : reader_pc -> transport -> Prop :=
  | read_completes j r buffer :
      CompletePending_step g s (RComplete j r buffer)
        (store_result j (CallResponse r) (set_reader g (RLoop buffer) s)).

(** [CloseFromReader]: the socket is closed when it has this reader's descriptor
    number. *)
Inductive CloseFromReader_step (g : nat) (s : transport) : reader_pc -> transport -> Prop :=
  | reader_closes st :
      t_state_mutex s = None -> t_socket s <> None -> Some (ConnectedFd s) = t_fds s !! g ->
      CloseFromReader_step g s (RClose st) (set_reader g (RFailAll st) (CloseSocketLocked s))
  | reader_keeps st :
      t_state_mutex s = None -> t_socket s = None \/ Some (ConnectedFd s) <> t_fds s !! g ->
      CloseFromReader_step g s (RClose st) (set_reader g (RFailAll st) s).

(** [FailAllPending] in a reader, and the end of its thread. *)
Inductive FailAllPending_step (g : nat) (s : transport) : reader_pc -> transport -> Prop :=
  | reader_takes st :
      FailAllPending_step g s (RFailAll st)
        (set_reader g (RFailing st (pending_calls s)) (set_pending ∅ s))
  | reader_fails_one st j calls :
      FailAllPending_step g s (RFailing st (j :: calls))
        (store_result j (failed_send st) (set_reader g (RFailing st calls) s))
  | reader_exits st :
      FailAllPending_step g s (RFailing st []) (set_reader g RExit s).

Inductive reader_step (g : nat) (s : transport) (pc : reader_pc) (s' : transport) : Prop :=
  | in_ReaderLoop : ReaderLoop_step g s pc s' -> reader_step g s pc s'
  | in_CompletePending : CompletePending_step g s pc s' -> reader_step g s pc s'
  | in_CloseFromReader : CloseFromReader_step g s pc s' -> reader_step g s pc s'
  | in_FailAllPending : FailAllPending_step g s pc s' -> reader_step g s pc s'.

Inductive tstep (s s' : transport) : Prop :=
  | tstep_caller i pc : t_callers s !! i = Some pc -> caller_step i s pc s' -> tstep s s'
  | tstep_reader g pc : t_readers s !! g = Some pc -> reader_step g s pc s' -> tstep s s'.

(** ** Who owes a call its result

    A pending call is in the map, in the hands of one thread that took it out,
    or has its result: [count] adds up the places. *)

Definition occ (j : nat) (l : list nat) : Z := zsum (fun x => if decide (x = j) then 1 else 0) l.

#[local] Arguments occ : simpl never.

Definition held_by_caller (pc : caller_pc) : list nat :=
  match pc with CFailing _ _ calls => calls | _ => [] end.

Definition held_by_reader (pc : reader_pc) : list nat :=
  match pc with RComplete j _ _ => [j] | RFailing _ calls => calls | _ => [] end.

Definition in_map (j : nat) (m : gmap Z nat) : Z := if decide (m !! rid j = Some j) then 1 else 0.

Definition sets_of (j : nat) (s : transport) : Z := Z.of_nat (default 0%nat (t_sets s !! j)).

Definition count (j : nat) (s : transport) : Z :=
  in_map j (t_pending s) + zsum (fun pc => occ j (held_by_reader pc)) (t_readers s) +
  zsum (fun pc => occ j (held_by_caller pc)) (t_callers s) + sets_of j s.

Lemma occ_nonneg j l : 0 <= occ j l.
Proof. apply zsum_nonneg. intros x _. case_decide; lia. Qed.

Lemma in_map_nonneg j m : 0 <= in_map j m <= 1.
Proof. unfold in_map. case_decide; lia. Qed.

Lemma count_parts j s :
  0 <= zsum (fun pc => occ j (held_by_reader pc)) (t_readers s) /\
  0 <= zsum (fun pc => occ j (held_by_caller pc)) (t_callers s) /\ 0 <= sets_of j s.
Proof.
  split_and!; [apply zsum_nonneg; intros; apply occ_nonneg..|unfold sets_of; lia].
Qed.

Lemma in_map_le_count j s : in_map j (t_pending s) <= count j s.
Proof. pose proof (count_parts j s). unfold count. lia. Qed.

(** *** How each update changes the count *)

Lemma count_caller j i pc old s :
  t_callers s !! i = Some old ->
  count j (set_caller i pc s) = count j s - occ j (held_by_caller old) + occ j (held_by_caller pc).
Proof.
  intros H. unfold count, set_caller. simpl. rewrite (zsum_insert _ _ _ old) by done.
  change (sets_of j _) with (sets_of j s). lia.
Qed.

Lemma count_reader j g pc old s :
  t_readers s !! g = Some old ->
  count j (set_reader g pc s) = count j s - occ j (held_by_reader old) + occ j (held_by_reader pc).
Proof.
  intros H. unfold count, set_reader. simpl. rewrite (zsum_insert _ _ _ old) by done.
  change (sets_of j _) with (sets_of j s). lia.
Qed.

Lemma count_pending j m s :
  count j (set_pending m s) = count j s - in_map j (t_pending s) + in_map j m.
Proof. unfold count, set_pending. simpl. change (sets_of j _) with (sets_of j s). lia. Qed.

Lemma count_store j k r s :
  count j (store_result k r s) = count j s + (if decide (k = j) then 1 else 0).
Proof.
  unfold count, store_result, sets_of. simpl. destruct (decide (k = j)) as [->|Hne].
  - rewrite lookup_insert_eq. simpl. lia.
  - rewrite lookup_insert_ne by done. lia.
Qed.

Lemma count_open j fd s : count j (open_socket fd s) = count j s.
Proof.
  unfold count, open_socket. simpl. rewrite zsum_app.
  change (sets_of j _) with (sets_of j s). unfold zsum at 2. simpl. unfold occ. simpl. lia.
Qed.

Lemma count_nil j : occ j [] = 0.
Proof. done. Qed.

Lemma count_cons j x l : occ j (x :: l) = (if decide (x = j) then 1 else 0) + occ j l.
Proof. done. Qed.

(** Request ids are unique: the client takes them from a counter. *)
Context (rid_inj : forall i j, rid i = rid j -> i = j).

Definition keys_ok (m : gmap Z nat) : Prop := forall k j, m !! k = Some j -> k = rid j.

Lemma in_map_insert j i m :
  in_map j (<[rid i := i]> m) = if decide (i = j) then 1 else in_map j m.
Proof.
  unfold in_map. destruct (decide (i = j)) as [->|Hne].
  - by rewrite lookup_insert_eq, decide_True.
  - rewrite lookup_insert_ne; [done|]. intros E. by apply rid_inj in E.
Qed.

Lemma in_map_delete j i m :
  in_map j (delete (rid i) m) = if decide (i = j) then 0 else in_map j m.
Proof.
  unfold in_map. destruct (decide (i = j)) as [->|Hne].
  - by rewrite lookup_delete_eq, decide_False.
  - rewrite lookup_delete_ne; [done|]. intros E. by apply rid_inj in E.
Qed.

Lemma in_map_empty j : in_map j ∅ = 0.
Proof. unfold in_map. by rewrite lookup_empty, decide_False. Qed.

Lemma occ_map_to_list j m : keys_ok m -> occ j (map_to_list m).*2 = in_map j m.
Proof.
  assert (Hperm : forall l1 l2 : list nat, l1 ≡ₚ l2 -> occ j l1 = occ j l2).
  { intros l1 l2. unfold occ, zsum. induction 1; simpl; lia. }
  induction m as [|k v m Hk IH] using map_ind; intros Hm.
  - rewrite map_to_list_empty, in_map_empty. done.
  - rewrite (Hperm _ _ (fmap_Permutation snd _ _ (map_to_list_insert m k v Hk))).
    rewrite fmap_cons, count_cons. cbn [snd]. assert (k = rid v) as -> by (apply Hm; apply lookup_insert_eq).
    rewrite in_map_insert, IH.
    + destruct (decide (v = j)) as [->|]; [|lia]. unfold in_map. rewrite Hk. by rewrite decide_False.
    + intros k' j' Hl. apply Hm. rewrite lookup_insert_ne; [done|]. congruence.
Qed.

Lemma count_write_mutex j o s : count j (set_write_mutex o s) = count j s.
Proof. done. Qed.
Lemma count_state_mutex j o s : count j (set_state_mutex o s) = count j s.
Proof. done. Qed.
Lemma count_reader_thread j o s : count j (set_reader_thread o s) = count j s.
Proof. done. Qed.
Lemma count_close_socket j s : count j (CloseSocketLocked s) = count j s.
Proof. done. Qed.
Lemma count_record_sent j i b s : count j (record_sent i b s) = count j s.
Proof. done. Qed.

(** ** The progress of a call *)

Inductive call_phase := Before | Registered | After.

Definition call_phase_of (pc : caller_pc) : call_phase :=
  match pc with
  | CIdle | CEnsure | CJoinPrevious _ | CConnect | CAssign _ _ | CRegister => Before
  | CWriteLock | CWrite | CSending _ _ _ | CWait | CWaitOwned => Registered
  | _ => After
  end.

(** What a step of a caller does to its own count. *)
Definition count_moves (old new : call_phase) (c c' : Z) : Prop :=
  match old, new with
  | Before, Registered => c = 0 -> c' = 1
  | Before, Before | Registered, Registered => c' = c
  | _, After => c' <= c
  | _, _ => False
  end.

(** The phase a caller is in determines its count. *)
Definition count_ok (s : transport) : Prop :=
  (forall j, 0 <= count j s <= 1) /\
  (forall j pc, t_callers s !! j = Some pc ->
     match call_phase_of pc with Before => count j s = 0 | Registered => count j s = 1 | After => True end).

Ltac count_step Hpc :=
  unfold not_sent, TryUnregisterPending, TryRegisterPending; cbn [fst snd];
  rewrite ?count_store;
  erewrite count_caller by exact Hpc;
  rewrite ?count_write_mutex, ?count_state_mutex, ?count_reader_thread, ?count_close_socket,
    ?count_record_sent, ?count_open, ?count_pending, ?in_map_insert, ?in_map_delete, ?in_map_empty;
  cbn [held_by_caller]; rewrite ?count_cons, ?count_nil.

Lemma caller_step_count i s pc s' :
  t_callers s !! i = Some pc -> keys_ok (t_pending s) -> caller_step i s pc s' ->
  exists pc', t_callers s' = <[i := pc']> (t_callers s) /\
    (forall j, j <> i -> count j s' = count j s) /\
    count_moves (call_phase_of pc) (call_phase_of pc') (count i s) (count i s').
Proof.
  intros Hpc Hk Hs.
  caller_cases Hs; unfold TryRegisterPending in *; try (destruct (max_inflight <=? _); simplify_eq/=);
    (eexists; split; [reflexivity|]); (split; [intros k Hne|cbn [call_phase_of count_moves]]);
    count_step Hpc; rewrite ?decide_True by done; rewrite ?(decide_False (P := i = k)) by done;
    pose proof (in_map_le_count i s); pose proof (in_map_nonneg i (t_pending s)); unfold pending_calls; rewrite ?occ_map_to_list by done;
    lia.
Qed.

Lemma reader_step_count g s pc s' :
  t_readers s !! g = Some pc -> keys_ok (t_pending s) -> reader_step g s pc s' ->
  t_callers s' = t_callers s /\ (forall j, count j s' = count j s).
Proof.
  intros Hpc Hk Hs. destruct Hs as [Hs|Hs|Hs|Hs];
    [destruct Hs as [| | |b r k He Hr Hp| | |]|destruct Hs|destruct Hs|destruct Hs];
    (split; [reflexivity|intros q]); rewrite ?count_store; erewrite count_reader by exact Hpc;
    rewrite ?count_close_socket, ?count_pending, ?in_map_empty; cbn [held_by_reader];
    rewrite ?count_cons, ?count_nil; unfold pending_calls; rewrite ?occ_map_to_list by done; try lia.
  apply Hk in Hp as Hid. rewrite Hid in *. rewrite in_map_delete.
  destruct (decide (k = q)) as [->|]; [|lia]. unfold in_map. rewrite Hp, decide_True by done. lia.
Qed.

Lemma count_ok_caller i s pc s' :
  t_callers s !! i = Some pc -> keys_ok (t_pending s) -> count_ok s -> caller_step i s pc s' ->
  count_ok s'.
Proof.
  intros Hpc Hk [Hall Hph] Hs.
  destruct (caller_step_count _ _ _ _ Hpc Hk Hs) as (pc' & Hc & Hne & Hmv).
  pose proof (Hall i) as Hi. pose proof (Hph i pc Hpc) as Hp.
  assert (Hi' : 0 <= count i s' <= 1 /\
    match call_phase_of pc' with Before => count i s' = 0 | Registered => count i s' = 1 | After => True end).
  { pose proof (in_map_le_count i s'). pose proof (in_map_nonneg i (t_pending s')).
    destruct (call_phase_of pc), (call_phase_of pc'); simpl in Hmv; try done; lia. }
  split.
  - intros j. destruct (decide (j = i)) as [->|]; [lia|]. by rewrite Hne.
  - intros j pcj Hj. rewrite Hc in Hj. destruct (decide (j = i)) as [->|Hji].
    + rewrite list_lookup_insert_eq in Hj by (by eapply lookup_lt_Some). injection Hj as <-. apply Hi'.
    + rewrite list_lookup_insert_ne in Hj by done. rewrite Hne by done. by apply Hph.
Qed.

Lemma count_ok_reader g s pc s' :
  t_readers s !! g = Some pc -> keys_ok (t_pending s) -> count_ok s -> reader_step g s pc s' ->
  count_ok s'.
Proof.
  intros Hpc Hk [Hall Hph] Hs.
  destruct (reader_step_count _ _ _ _ Hpc Hk Hs) as [Hc He].
  split; [intros j; by rewrite He|]. intros j pcj Hj. rewrite Hc in Hj. rewrite He. by apply Hph.
Qed.

(** ** The map of pending calls *)

Definition map_ok (m : gmap Z nat) : Prop := keys_ok m /\ Z.of_nat (size m) <= max_inflight.

Lemma map_ok_delete k m : map_ok m -> map_ok (delete k m).
Proof.
  intros [Hk Hs]. split.
  - intros k' j Hl. apply lookup_delete_Some in Hl as [_ Hl]. by apply Hk.
  - rewrite map_size_delete. destruct (m !! k); unfold id; lia.
Qed.

Lemma map_ok_empty m : map_ok m -> map_ok ∅.
Proof. intros [_ Hs]. split; [intros k j Hl; by rewrite lookup_empty in Hl|]. rewrite map_size_empty. lia. Qed.

Lemma map_ok_caller i s pc s' : map_ok (t_pending s) -> caller_step i s pc s' -> map_ok (t_pending s').
Proof.
  intros Hm Hs. caller_cases Hs; try exact Hm; try (by apply map_ok_delete); try (by eapply map_ok_empty).
  unfold TryRegisterPending in *. destruct (max_inflight <=? _) eqn:E; [done|]. simpl.
  destruct Hm as [Hk Hsz]. split.
  - intros k j Hl. apply lookup_insert_Some in Hl as [[<- <-]|[_ Hl]]; [done|by apply Hk].
  - rewrite map_size_insert. destruct (t_pending s !! rid i); unfold id; lia.
Qed.

Lemma map_ok_reader g s pc s' : map_ok (t_pending s) -> reader_step g s pc s' -> map_ok (t_pending s').
Proof.
  intros Hm Hs. reader_cases Hs; try exact Hm; [by apply map_ok_delete|by eapply map_ok_empty].
Qed.

(** ** Results *)

(** A stored result: the response of this call, or a failure that stops
    retries. *)
Definition result_ok (j : nat) (r : CallAttemptResult) : Prop :=
  match r with
  | CallResponse x => resp_request_id_ x = rid j
  | CallFailed f => commit_state_ f = MaybeSent
  end.

Definition results_ok (s : transport) : Prop :=
  (forall j, sets_of j s = 0 <-> t_results s !! j = None) /\
  (forall j r, t_results s !! j = Some r -> result_ok j r) /\
  (forall g j r b, t_readers s !! g = Some (RComplete j r b) -> resp_request_id_ r = rid j).

Lemma results_ok_store j r s : results_ok s -> result_ok j r -> results_ok (store_result j r s).
Proof.
  intros (H1 & H2 & H3) Hr. split_and!; [| |exact H3].
  - intros k. unfold sets_of, store_result. simpl. destruct (decide (j = k)) as [->|Hne].
    + rewrite !lookup_insert_eq. simpl. split; [lia|done].
    + rewrite !lookup_insert_ne by done. apply H1.
  - intros k x Hx. simpl in Hx. apply lookup_insert_Some in Hx as [[<- <-]|[_ Hx]]; auto.
Qed.

Lemma results_ok_open fd s : results_ok s -> results_ok (open_socket fd s).
Proof.
  intros (H1 & H2 & H3). split_and!; [exact H1|exact H2|]. intros g j r b Hg. simpl in Hg.
  apply lookup_app_Some in Hg as [Hg|[_ Hg]]; [by eapply H3|].
  by apply list_lookup_singleton_Some in Hg as [_ [=]].
Qed.

Lemma results_ok_caller i s pc s' : results_ok s -> caller_step i s pc s' -> results_ok s'.
Proof.
  intros Hr Hs. caller_cases Hs; try exact Hr; try (by apply (results_ok_open fd s)).
  - unfold TryRegisterPending. destruct (max_inflight <=? _); exact Hr.
  - by apply (results_ok_store _ _ (set_caller i _ s)).
Qed.

(** Every reader but [RComplete] says nothing about a response. *)
Lemma results_ok_set_reader g pc s :
  results_ok s ->
  (forall j r b, pc = RComplete j r b -> resp_request_id_ r = rid j) -> results_ok (set_reader g pc s).
Proof.
  intros (H1 & H2 & H3) Hpc. split_and!; [exact H1|exact H2|]. intros g' j r b Hg. simpl in Hg.
  apply list_lookup_insert_Some in Hg as [(_ & Hg & _)|[_ Hg]]; [by eapply Hpc|by eapply H3].
Qed.

Lemma results_ok_reader g s pc s' :
  t_readers s !! g = Some pc -> keys_ok (t_pending s) -> results_ok s -> reader_step g s pc s' ->
  results_ok s'.
Proof.
  intros Hpc Hk Hr Hs.
  destruct Hs as [Hs|Hs|Hs|Hs];
    [destruct Hs as [| | |b r k He Hrr Hp| | |]|destruct Hs|destruct Hs|destruct Hs];
    try (by apply results_ok_set_reader).
  - apply (results_ok_set_reader g (RComplete k r _) (set_pending _ s)); [exact Hr|].
    intros j' r' b' [= <- <- <-]. by apply Hk.
  - apply results_ok_store; [by apply results_ok_set_reader|].
    destruct Hr as (_ & _ & H3). by eapply H3.
  - apply results_ok_store; [by apply results_ok_set_reader|done].
Qed.

(** ** What was sent *)

Definition sent_of (i : nat) (s : transport) : bytes := default [] (t_sent s !! i).

(** What a caller's position says of the bytes [b] sent for it. *)
Definition sent_at (i : nat) (pc : caller_pc) (b : bytes) : Prop :=
  match pc with
  | CSending _ written _ =>
      exists frame, frame_of i = Some frame /\ 0 <= written <= len frame /\
        b = take (Z.to_nat written) frame
  | CWait | CWaitOwned => frame_of i = Some b
  | CDone r =>
      (CanRetryWithoutDuplicateRequest r = true -> b = []) /\
      (forall x, r = CallResponse x -> resp_request_id_ x = rid i /\ frame_of i = Some b)
  | CClose _ | CFailAll _ _ | CFailing _ _ _ | CJoinReader _ _ => True
  | CIdle => b = []
  | _ => b = [] /\ is_Some (frame_of i)
  end.

Definition sent_ok (s : transport) : Prop :=
  forall i pc, t_callers s !! i = Some pc -> sent_at i pc (sent_of i s).

(** Steps change the position and the bytes of the acting caller alone. *)
Lemma sent_ok_intro i pc pc' s s' :
  sent_ok s -> t_callers s !! i = Some pc -> t_callers s' = <[i := pc']> (t_callers s) ->
  (forall j, j <> i -> sent_of j s' = sent_of j s) -> sent_at i pc' (sent_of i s') -> sent_ok s'.
Proof.
  intros Hok Hpc Hc Hne Hi j q Hj. rewrite Hc in Hj. destruct (decide (j = i)) as [->|Hji].
  - rewrite list_lookup_insert_eq in Hj by (by eapply lookup_lt_Some). by injection Hj as <-.
  - rewrite list_lookup_insert_ne in Hj by done. rewrite Hne by done. by apply Hok.
Qed.

Lemma take_substr (l : bytes) w n :
  0 <= w -> 0 <= n -> take (Z.to_nat w) l ++ substr l w n = take (Z.to_nat (w + n)) l.
Proof.
  intros Hw Hn. unfold substr. rewrite take_take_drop. f_equal. lia.
Qed.

Lemma sent_ok_caller i s pc s' :
  t_callers s !! i = Some pc -> sent_ok s -> results_ok s -> caller_step i s pc s' -> sent_ok s'.
Proof.
  intros Hpc Hok (_ & Hres & _) Hs. pose proof (Hok i pc Hpc) as Hi.
  assert (Hintro : forall pc' u, t_callers u = <[i := pc']> (t_callers s) -> t_sent u = t_sent s ->
            sent_at i pc' (sent_of i s) -> sent_ok u).
  { intros pc' u Hu Hsent H. eapply (sent_ok_intro i); [exact Hok|exact Hpc|exact Hu| |];
      unfold sent_of; rewrite Hsent; done. }
  caller_cases Hs; simpl in Hi;
    try (eapply Hintro; [reflexivity|reflexivity|]; simpl; naive_solver eauto).
  - unfold TryRegisterPending. destruct (max_inflight <=? _); by eapply Hintro.
  - eapply Hintro; [reflexivity..|]. destruct Hi as [Hi [frame Hf]]. exists frame.
    rewrite Hi. split_and!; [done|lia|apply len_nonneg|done].
  - destruct Hi as (f & Hf & Hw & Hb). simplify_eq.
    eapply (sent_ok_intro i); [exact Hok|exact Hpc|reflexivity| |].
    + intros j Hj. unfold sent_of. simpl. by rewrite lookup_insert_ne by done.
    + simpl. exists frame. split_and!; [done|lia|lia|].
      unfold sent_of at 1. simpl. rewrite lookup_insert_eq. simpl. fold (sent_of i s).
      rewrite Hb. apply take_substr; lia.
  - eapply Hintro; [reflexivity..|]. destruct Hi as (f & Hf & Hw & Hb). simplify_eq. simpl.
    rewrite Hb, take_ge by (unfold len in *; lia). done.
  - eapply Hintro; [reflexivity..|]. apply Hres in H. simpl. split.
    + destruct r as [x|f]; [done|]. simpl in *. by rewrite H.
    + intros x ->. by split.
  - eapply Hintro; [reflexivity..|]. apply Hres in H. simpl. split.
    + destruct r as [x|f]; [done|]. simpl in *. by rewrite H.
    + intros x ->. by split.
Qed.

Lemma sent_ok_reader g s pc s' : sent_ok s -> reader_step g s pc s' -> sent_ok s'.
Proof. intros Hok Hs. reader_cases Hs; exact Hok. Qed.

(** ** Writing is exclusive *)

(** The positions inside [TryWriteRequestFrame] after the lock. *)
Definition writing (pc : caller_pc) : bool :=
  match pc with
  | CWrite | CSending _ _ _ | CClose _ | CFailAll _ _ | CFailing _ _ _ | CJoinReader _ _ => true
  | _ => false
  end.

Definition writer_ok (s : transport) : Prop :=
  forall i pc, t_callers s !! i = Some pc -> writing pc = true -> t_write_mutex s = Some i.

(** A step of a caller outside the section keeps the lock; inside, it keeps or
    releases its own. *)
Lemma writer_ok_intro i pc pc' s s' :
  writer_ok s -> t_callers s !! i = Some pc -> t_callers s' = <[i := pc']> (t_callers s) ->
  (t_write_mutex s' = t_write_mutex s /\ (writing pc' = true -> writing pc = true)) \/
  (t_write_mutex s = None /\ t_write_mutex s' = Some i) \/
  (writing pc = true /\ writing pc' = false) ->
  writer_ok s'.
Proof.
  intros Hok Hpc Hc Hcase j q Hj Hw. rewrite Hc in Hj. pose proof (Hok i pc Hpc) as Hi.
  destruct (decide (j = i)) as [->|Hji].
  - rewrite list_lookup_insert_eq in Hj by (by eapply lookup_lt_Some). injection Hj as <-.
    destruct Hcase as [[-> H]|[[_ ->]|[_ H]]]; [by auto|done|congruence].
  - rewrite list_lookup_insert_ne in Hj by done. pose proof (Hok j q Hj Hw) as Hj'.
    destruct Hcase as [[-> _]|[[H _]|[H _]]]; [done|congruence|].
    apply Hi in H. congruence.
Qed.

Lemma writer_ok_caller i s pc s' :
  t_callers s !! i = Some pc -> writer_ok s -> caller_step i s pc s' -> writer_ok s'.
Proof.
  intros Hpc Hok Hs.
  caller_cases Hs; unfold TryRegisterPending; try (destruct (max_inflight <=? _));
    (eapply (writer_ok_intro i _ _ s _ Hok Hpc); [reflexivity|]); simpl; auto.
Qed.

Lemma writer_ok_reader g s pc s' : writer_ok s -> reader_step g s pc s' -> writer_ok s'.
Proof. intros Hok Hs. reader_cases Hs; exact Hok. Qed.

(** ** Readers and the calls they owe *)

(** A reader that has not yet taken the map still will. *)
Definition will_take (pc : reader_pc) : bool :=
  match pc with RLoop _ | RComplete _ _ _ | RClose _ | RFailAll _ => true | _ => false end.

(** A reader that has not yet looked at [socket_] in [CloseFromReader]. *)
Definition serving (pc : reader_pc) : bool :=
  match pc with RLoop _ | RComplete _ _ _ | RClose _ => true | _ => false end.

(** Past the check of the descriptor: a response can arrive. *)
Definition awaiting (pc : caller_pc) : bool :=
  match pc with CSending _ _ _ | CWait | CWaitOwned => true | _ => false end.

Definition some_taker (s : transport) : Prop :=
  exists g pc, t_readers s !! g = Some pc /\ will_take pc = true.

Definition readers_ok (s : transport) : Prop :=
  length (t_readers s) = length (t_fds s) /\
  (forall g, t_socket s = Some g -> exists pc, t_readers s !! g = Some pc /\ serving pc = true) /\
  (forall i pc, t_callers s !! i = Some pc -> awaiting pc = true -> in_map i (t_pending s) = 1 ->
     some_taker s).

Lemma serving_will_take pc : serving pc = true -> will_take pc = true.
Proof. by destruct pc. Qed.

Lemma connected_taker s :
  readers_ok s -> 0 <= ConnectedFd s -> some_taker s.
Proof.
  intros (_ & Hsock & _) Hfd. unfold ConnectedFd in Hfd. destruct (t_socket s) as [g|]; [|lia].
  destruct (Hsock g eq_refl) as (pc & Hg & Hs). exists g, pc. auto using serving_will_take.
Qed.

(** A caller that does not touch the readers or open a socket keeps the
    invariant, when it only leaves the map, or has a connected socket. *)
Lemma readers_ok_intro i pc' s s' :
  readers_ok s -> t_callers s' = <[i := pc']> (t_callers s) ->
  t_readers s' = t_readers s -> t_fds s' = t_fds s ->
  t_socket s' = t_socket s \/ t_socket s' = None ->
  (forall j, j <> i -> in_map j (t_pending s') <= in_map j (t_pending s)) ->
  (awaiting pc' = true -> in_map i (t_pending s') = 1 -> some_taker s) -> readers_ok s'.
Proof.
  intros (Hlen & Hsock & Hwait) Hc Hr Hf Hs Hm Hi.
  assert (Htk : some_taker s -> some_taker s') by (unfold some_taker; by rewrite Hr).
  split_and!.
  - by rewrite Hr, Hf.
  - intros g Hg. rewrite Hr. apply Hsock. by destruct Hs as [<-|Hs]; [|congruence].
  - intros j q Hj Ha Hin. apply Htk. rewrite Hc in Hj.
    apply list_lookup_insert_Some in Hj as [(-> & <- & _)|[Hne Hj]]; [by apply Hi|].
    eapply Hwait; [exact Hj|done|]. pose proof (Hm j ltac:(congruence)).
    pose proof (in_map_nonneg j (t_pending s)). lia.
Qed.

Lemma readers_ok_open i pc' o m fd s :
  readers_ok s -> awaiting pc' = false ->
  readers_ok (set_caller i pc' (set_reader_thread o (set_state_mutex m (open_socket fd s)))).
Proof.
  intros (Hlen & Hsock & Hwait) Ha. split_and!; simpl.
  - rewrite !length_app. simpl. lia.
  - intros g [= <-]. exists (RLoop []). split; [|done]. rewrite <- Hlen. by apply list_lookup_middle.
  - intros j q Hj Hq Hin. apply list_lookup_insert_Some in Hj as [(-> & <- & _)|[_ Hj]]; [congruence|].
    destruct (Hwait j q Hj Hq Hin) as (g & pc & Hg & Hw). exists g, pc. split; [|done].
    simpl. by apply lookup_app_l_Some.
Qed.

Lemma in_map_delete_le j k m : in_map j (delete k m) <= in_map j m.
Proof.
  unfold in_map. repeat case_decide; try lia. exfalso.
  match goal with H : delete _ _ !! _ = _ |- _ => apply lookup_delete_Some in H as [_ H] end. done.
Qed.

Lemma readers_ok_caller i s pc s' :
  t_callers s !! i = Some pc -> readers_ok s -> caller_step i s pc s' -> readers_ok s'.
Proof.
  intros Hpc Hok Hs. pose proof (connected_taker s Hok) as Hconn.
  assert (Hold : awaiting pc = true -> in_map i (t_pending s) = 1 -> some_taker s).
  { destruct Hok as (_ & _ & Hwait). by apply Hwait. }
  pose proof (in_map_nonneg i (t_pending s)) as Hnn.
  caller_cases Hs; unfold TryRegisterPending; try (destruct (max_inflight <=? _));
    try (by apply (readers_ok_open i CRegister _ (t_state_mutex s) fd s));
    try (exact (readers_ok_open i (CAssign _ _) (t_reader_thread s) (Some i) fd s Hok eq_refl));
    (eapply (readers_ok_intro i _ s _ Hok); [reflexivity|reflexivity|reflexivity|by auto| |]); simpl;
    try done; auto;
    try (intros q Hq; rewrite ?in_map_insert, ?in_map_delete, ?in_map_empty, ?decide_False by congruence;
         pose proof (in_map_nonneg q (t_pending s)); lia).
Qed.

(** A reader that moves on without taking the map, and keeps serving or has no
    connected socket of its own. *)
Lemma readers_ok_set_reader g old pc s s' :
  readers_ok s -> t_readers s !! g = Some old -> t_readers s' = <[g := pc]> (t_readers s) ->
  t_fds s' = t_fds s -> t_callers s' = t_callers s ->
  (t_socket s' = None \/ (t_socket s' = t_socket s /\ (serving pc = true \/ t_socket s <> Some g))) ->
  (forall j, in_map j (t_pending s') <= in_map j (t_pending s)) ->
  (will_take pc = true \/ will_take old = false \/ t_pending s' = ∅) -> readers_ok s'.
Proof.
  intros (Hlen & Hsock & Hwait) Hg Hr Hf Hc Hs Hm Ht. pose proof (lookup_lt_Some _ _ _ Hg) as Hlt.
  split_and!.
  - by rewrite Hr, length_insert, Hf.
  - intros k Hk. rewrite Hr. destruct Hs as [Hs|[Hs Hs']]; [congruence|]. rewrite Hs in Hk.
    destruct (decide (k = g)) as [->|Hne].
    + exists pc. rewrite list_lookup_insert_eq by done. by destruct Hs'.
    + rewrite list_lookup_insert_ne by done. by apply Hsock.
  - intros j q Hj Ha Hin. rewrite Hc in Hj. unfold some_taker. rewrite Hr.
    destruct Ht as [Ht|[Ht|Ht]].
    + exists g, pc. by rewrite list_lookup_insert_eq by done.
    + pose proof (Hm j). pose proof (in_map_nonneg j (t_pending s)).
      destruct (Hwait j q Hj Ha ltac:(lia)) as (k & p & Hk & Hp). exists k, p.
      rewrite list_lookup_insert_ne; [done|]. intros ->. congruence.
    + rewrite Ht, in_map_empty in Hin. lia.
Qed.

Lemma readers_ok_reader g s pc s' :
  t_readers s !! g = Some pc -> readers_ok s -> reader_step g s pc s' -> readers_ok s'.
Proof.
  intros Hpc Hok Hs. pose proof Hok as (Hlen & Hsock & _).
  assert (Hself : serving pc = false -> t_socket s <> Some g).
  { intros Hf Hg. destruct (Hsock g Hg) as (q & Hq & Hv). congruence. }
  assert (Hfd : t_socket s = Some g -> Some (ConnectedFd s) = t_fds s !! g).
  { intros Hg. unfold ConnectedFd. rewrite Hg. apply lookup_lt_Some in Hpc. rewrite Hlen in Hpc.
    apply lookup_lt_is_Some in Hpc as [fd ->]. done. }
  reader_cases Hs; (eapply (readers_ok_set_reader g _ _ s _ Hok Hpc); [reflexivity|reflexivity|reflexivity|..]);
    simpl; auto; try (intros q; rewrite ?in_map_empty; first [apply in_map_nonneg|apply in_map_delete_le|lia]).
  right. split; [done|]. right. intros Hg. specialize (Hfd Hg). destruct H0 as [H0|H0]; congruence.
Qed.

(** ** Reachable states *)

Record transport_inv (s : transport) : Prop := {
  ti_map : map_ok (t_pending s);
  ti_count : count_ok s;
  ti_results : results_ok s;
  ti_sent : sent_ok s;
  ti_writer : writer_ok s;
  ti_readers : readers_ok s
}.

Lemma transport_inv_new n : 0 <= max_inflight -> transport_inv (transport_new n).
Proof.
  intros Hmax.
  assert (Hc : forall j, count j (transport_new n) = 0).
  { intros j. unfold count, sets_of. simpl. rewrite in_map_empty, zsum_replicate_zero by done.
    rewrite lookup_empty. unfold zsum. simpl. lia. }
  assert (Hpc : forall i pc, t_callers (transport_new n) !! i = Some pc -> pc = CIdle).
  { intros i pc Hi. by apply lookup_replicate in Hi as [-> _]. }
  split.
  - simpl. split; [intros k j Hk; by rewrite lookup_empty in Hk|]. rewrite map_size_empty. lia.
  - split; [intros j; rewrite Hc; lia|]. intros j pc Hj. rewrite (Hpc _ _ Hj). apply Hc.
  - split_and!; [done| |]; intros *; simpl; [by rewrite lookup_empty|by rewrite lookup_nil].
  - intros i pc Hi. by rewrite (Hpc _ _ Hi).
  - intros i pc Hi Hw. by rewrite (Hpc _ _ Hi) in Hw.
  - split_and!; [done..|]. intros i pc Hi Ha. by rewrite (Hpc _ _ Hi) in Ha.
Qed.

Lemma transport_inv_step s s' : transport_inv s -> tstep s s' -> transport_inv s'.
Proof.
  intros [H1 H2 H3 H4 H5 H6] Hs. pose proof H1 as [Hk _].
  destruct Hs as [i pc Hpc Hs|g pc Hpc Hs]; split;
    eauto using map_ok_caller, count_ok_caller, results_ok_caller, sent_ok_caller, writer_ok_caller,
      readers_ok_caller, map_ok_reader, count_ok_reader, results_ok_reader, sent_ok_reader,
      writer_ok_reader, readers_ok_reader.
Qed.

Lemma transport_inv_reachable n s :
  0 <= max_inflight -> rtc tstep (transport_new n) s -> transport_inv s.
Proof.
  intros Hmax Hr. eapply (rtc_preserves tstep transport_inv); [|by apply transport_inv_new|done].
  exact transport_inv_step.
Qed.

(** Nobody is left to publish: every reader has ended and no caller is failing
    the pending calls. *)
Definition at_rest (s : transport) : Prop :=
  (forall g pc, t_readers s !! g = Some pc -> pc = RExit) /\
  (forall i pc, t_callers s !! i = Some pc -> held_by_caller pc = []).

Lemma occ_pos j l : 0 < occ j l -> j ∈ l.
Proof.
  intros H. apply zsum_pos in H as (x & Hx & Hlt). case_decide; [by subst|lia].
Qed.

(** A waiting call without a result is in the map or in a thread's hands. *)
Lemma owed_somewhere s j pc :
  transport_inv s -> t_callers s !! j = Some pc -> pc = CWait \/ pc = CWaitOwned ->
  t_results s !! j = None ->
  (in_map j (t_pending s) = 1 /\ some_taker s) \/
  (exists g q, t_readers s !! g = Some q /\ j ∈ held_by_reader q) \/
  (exists i q, t_callers s !! i = Some q /\ j ∈ held_by_caller q).
Proof.
  intros [_ [_ Hph] (Hset & _) _ _ (_ & _ & Hw)] Hj Hpc Hn.
  assert (Hone : count j s = 1) by (specialize (Hph j pc Hj); by destruct Hpc; subst).
  apply Hset in Hn. unfold count in Hone. rewrite Hn in Hone.
  pose proof (in_map_nonneg j (t_pending s)).
  destruct (decide (in_map j (t_pending s) = 1)) as [Hin|Hin].
  { left. split; [done|]. by eapply Hw; [exact Hj|destruct Hpc; subst|]. }
  right. destruct (decide (0 < zsum (fun q => occ j (held_by_reader q)) (t_readers s))) as [Hp|Hp].
  - left. apply zsum_pos in Hp as (q & Hq & Hp). apply list_elem_of_lookup in Hq as [g Hg].
    exists g, q. split; [done|by apply occ_pos].
  - right. assert (0 < zsum (fun q => occ j (held_by_caller q)) (t_callers s)) as Hc by lia.
    apply zsum_pos in Hc as (q & Hq & Hc). apply list_elem_of_lookup in Hq as [i Hi].
    exists i, q. split; [done|by apply occ_pos].
Qed.

Lemma at_rest_results s j pc :
  transport_inv s -> at_rest s -> t_callers s !! j = Some pc -> pc = CWait \/ pc = CWaitOwned ->
  is_Some (t_results s !! j).
Proof.
  intros Hinv [Hr Hc] Hj Hpc. apply not_eq_None_Some. intros Hn.
  destruct (owed_somewhere s j pc Hinv Hj Hpc Hn)
    as [[_ (g & q & Hg & Hq)]|[(g & q & Hg & Hq)|(i & q & Hi & Hq)]].
  - by rewrite (Hr g q Hg) in Hq.
  - rewrite (Hr g q Hg) in Hq. by apply elem_of_nil in Hq.
  - rewrite (Hc i q Hi) in Hq. by apply elem_of_nil in Hq.
Qed.

(** ** Properties *)

(** C15: whatever the interleaving of callers and readers, pending calls never
    exceed the limit; a call's result is stored at most once; at most one
    caller at a time is writing a frame; an attempt reported as safe to repeat
    on another endpoint has not handed a byte to the kernel; and a response
    returned to a caller has the caller's request id, its whole frame having
    been sent. *)
Theorem TcpTransport_call_contract n s :
  0 <= max_inflight -> rtc tstep (transport_new n) s ->
  Z.of_nat (size (t_pending s)) <= max_inflight /\
  (forall j, sets_of j s <= 1) /\
  (forall i j p q, t_callers s !! i = Some p -> t_callers s !! j = Some q ->
     writing p = true -> writing q = true -> i = j) /\
  (forall i r, t_callers s !! i = Some (CDone r) ->
     (CanRetryWithoutDuplicateRequest r = true -> sent_of i s = []) /\
     (forall x, r = CallResponse x ->
        resp_request_id_ x = rid i /\ frame_of i = Some (sent_of i s))).
Proof.
  intros Hmax Hr. destruct (transport_inv_reachable n s Hmax Hr) as [[_ Hm] [Hall _] _ Hsent Hw _].
  split_and!; [done| | |].
  - intros j. specialize (Hall j). pose proof (count_parts j s).
    pose proof (in_map_nonneg j (t_pending s)). unfold count in Hall. lia.
  - intros i j p q Hi Hj Hp Hq. pose proof (Hw i p Hi Hp). pose proof (Hw j q Hj Hq). congruence.
  - intros i r Hi. exact (Hsent i _ Hi).
Qed.

(** C16: no call is lost.  When every reader thread has ended and no caller is
    still failing the pending calls, each caller that waits for its result has
    it; and before that, a waiting call without a result is owed by somebody: it
    is in the map while some reader will still take the map, or a thread that
    took it out is about to store its result. *)
Theorem TcpTransport_no_lost_call n s :
  0 <= max_inflight -> rtc tstep (transport_new n) s ->
  forall j pc, t_callers s !! j = Some pc -> pc = CWait \/ pc = CWaitOwned ->
  (at_rest s -> is_Some (t_results s !! j)) /\
  (t_results s !! j = None ->
     (in_map j (t_pending s) = 1 /\ some_taker s) \/
     (exists g q, t_readers s !! g = Some q /\ j ∈ held_by_reader q) \/
     (exists i q, t_callers s !! i = Some q /\ j ∈ held_by_caller q)).
Proof.
  intros Hmax Hr j pc Hj Hpc. pose proof (transport_inv_reachable n s Hmax Hr) as Hinv.
  split; [intros Hrest; by eapply at_rest_results|]. intros Hn. by eapply owed_somewhere.
Qed.

End transport.

(** One step of a run: a caller or a reader moves by the given rule. *)
Tactic Notation "caller_moves" constr(n) "by" uconstr(part) "," uconstr(rule) :=
  eapply rtc_l; [eapply tstep_caller with (i := n); [reflexivity|eapply part; eapply rule]|].
Tactic Notation "reader_moves" constr(n) "by" uconstr(part) "," uconstr(rule) :=
  eapply rtc_l; [eapply tstep_reader with (g := n); [reflexivity|eapply part; eapply rule]|].

(** ** A reader that outlives its connection *)
Section stale.
Context {W : Wire} (error_message : Z -> bytes).
Context (request : nat -> RequestEnvelope) (options : nat -> EffectiveCallOptions).
Context (limits : ProtocolLimits) (max_inflight : Z).

#[local] Notation step := (tstep error_message request options limits max_inflight).

Lemma not_expired_now i : exists now, DeadlineExpired now (options i) = false.
Proof.
  unfold DeadlineExpired. destruct (deadline_ (options i)) as [d|]; [|by exists 0].
  exists (d - 1). apply Z.leb_gt. lia.
Qed.

Lemma response_Decode_nil : error_ (FrameCodec_Decode limits []) = NeedMoreData.
Proof. reflexivity. Qed.

(** The descriptor numbers of closed connections are used again by the kernel,
    and [Close] and a reader use numbers: there is a run in which one caller's
    failed write closes connection 0, a second caller connects and is given the
    same number, and the reader of connection 0, still in its loop, receives
    from the descriptor of connection 1 and then closes it. *)
Theorem TcpTransport_stale_reader fd frame0 frame1 :
  0 <= fd -> 1 <= max_inflight ->
  frame_of request limits 0 = Some frame0 -> 0 < len frame0 -> frame_of request limits 1 = Some frame1 ->
  exists s s', rtc step (transport_new 2) s /\
    t_socket s = Some 1%nat /\ ConnectedFd s = fd /\
    t_readers s !! 0%nat = Some (RLoop []) /\ t_fds s !! 0%nat = Some fd /\
    rtc step s s' /\ t_socket s' = None /\ t_readers s' !! 1%nat = Some (RLoop []).
Proof.
  intros Hfd Hmax H0 Hlen H1. destruct (not_expired_now 0) as [now0 E0].
  destruct (not_expired_now 1) as [now1 E1].
  assert (Hreg : max_inflight <=? 0 = false) by (apply Z.leb_gt; lia).
  eexists _, _. split_and!.
  - caller_moves 0%nat by in_Call, call_start; [exact H0|exact E0|].
    caller_moves 0%nat by in_EnsureConnected, (ensure_opens _ _ fd); [done..|].
    caller_moves 0%nat by in_Register, call_registers.
    { unfold TryRegisterPending. change (Z.of_nat (size _)) with 0. by rewrite Hreg. }
    unfold TryRegisterPending. change (Z.of_nat (size _)) with 0. rewrite Hreg. cbn [snd].
    caller_moves 0%nat by in_TryWrite, write_locks; [done|].
    caller_moves 0%nat by in_TryWrite, write_begins; [exact E0|done|done|].
    caller_moves 0%nat by in_SendAll, send_failed; [exact H0|exact Hlen|by apply (send_error _ _ _ _ EAGAIN)|].
    caller_moves 0%nat by in_Close, close_socket; [done|].
    caller_moves 1%nat by in_Call, call_start; [exact H1|exact E1|].
    caller_moves 1%nat by in_EnsureConnected, (ensure_opens _ _ fd); [done..|].
    apply rtc_refl.
  - done.
  - done.
  - done.
  - done.
  - reader_moves 0%nat by in_ReaderLoop, read_end; [exact response_Decode_nil|].
    reader_moves 0%nat by in_CloseFromReader, reader_closes; [done|done|done|]. apply rtc_refl.
  - done.
  - done.
Qed.

End stale.

(** *** Witnesses: one call that is answered, on the stand-in serialisation *)
Section Witnesses.
Import ExampleWire.

Definition example_request (i : nat) : RequestEnvelope :=
  MkRequestEnvelope (Z.of_nat i + 7) (bs "EchoService") (bs "Echo") (bs "hello").
Definition example_options (i : nat) : EffectiveCallOptions := MkEffectiveCallOptions None [].
Definition no_message (e : Z) : bytes := [].

#[local] Notation example_step :=
  (@tstep wire no_message example_request example_options ProtocolLimits_default 1).

Lemma example_rid_inj i j : rid example_request i = rid example_request j -> i = j.
Proof. unfold rid, example_request. simpl. lia. Qed.

(** The state after the response to call 0 has been matched and returned. *)
Definition example_answered : transport :=
  MkTransport (Some 0%nat) [5] (Some 0%nat) None None ∅
    [CDone (CallResponse not_found_response)] [RLoop []]
    {[ 0%nat := CallResponse not_found_response ]} {[ 0%nat := echo_frame ]} {[ 0%nat := 1%nat ]}.

(** The call has been written and nothing has come back. *)
Definition example_sent : transport :=
  MkTransport (Some 0%nat) [5] (Some 0%nat) None None {[ 7 := 0%nat ]}
    [CWait] [RLoop []] ∅ {[ 0%nat := echo_frame ]} ∅.

Lemma example_sent_reachable : rtc example_step (transport_new 1) example_sent.
Proof.
  caller_moves 0%nat by in_Call, (call_start _ _ _ _ _ 0 echo_frame); [vm_compute; reflexivity|reflexivity|].
  caller_moves 0%nat by in_EnsureConnected, (ensure_opens _ _ 5); [done..|].
  caller_moves 0%nat by in_Register, call_registers; [reflexivity|].
  caller_moves 0%nat by in_TryWrite, write_locks; [reflexivity|].
  caller_moves 0%nat by in_TryWrite, (write_begins _ _ _ _ _ 0); [reflexivity|reflexivity|vm_compute; done|].
  caller_moves 0%nat by in_SendAll, (send_some _ _ _ _ _ _ _ _ _ 52 echo_frame);
    [vm_compute; reflexivity|vm_compute; done|].
  caller_moves 0%nat by in_SendAll, (send_done _ _ _ _ _ _ _ _ _ echo_frame);
    [vm_compute; reflexivity|vm_compute; done|].
  match goal with |- rtc _ ?x _ => assert (x = example_sent) as -> by (vm_compute; reflexivity) end.
  apply rtc_refl.
Qed.

Lemma example_answered_reachable : rtc example_step example_sent example_answered.
Proof.
  reader_moves 0%nat by in_ReaderLoop, (read_bytes _ _ _ _ _ not_found_frame); [reflexivity|done|vm_compute; done|].
  reader_moves 0%nat by in_ReaderLoop, (read_response _ _ _ _ _ not_found_response 0%nat); [vm_compute; reflexivity..|].
  reader_moves 0%nat by in_CompletePending, read_completes.
  caller_moves 0%nat by in_WaitForResult, (wait_result _ _ _ _ (CallResponse not_found_response)); [reflexivity|].
  match goal with |- rtc _ ?x _ => assert (x = example_answered) as -> by (vm_compute; reflexivity) end.
  apply rtc_refl.
Qed.

Lemma TcpTransport_call_contract_witness :
  frame_of example_request ProtocolLimits_default 0 = Some (sent_of 0 example_answered).
Proof.
  destruct (TcpTransport_call_contract no_message example_request example_options ProtocolLimits_default
    1 example_rid_inj 1 example_answered) as (_ & _ & _ & H); [done| |].
  - exact (transitivity example_sent_reachable example_answered_reachable).
  - exact (proj2 (proj2 (H 0%nat _ eq_refl) _ eq_refl)).
Defined.

Lemma TcpTransport_no_lost_call_witness :
  in_map example_request 0 (t_pending example_sent) = 1 /\ some_taker example_sent.
Proof.
  destruct (TcpTransport_no_lost_call no_message example_request example_options ProtocolLimits_default
    1 example_rid_inj 1 example_sent ltac:(done) example_sent_reachable 0 CWait eq_refl (or_introl eq_refl))
    as [_ [H|[(g & q & Hg & Hq)|(i & q & Hi & Hq)]]]; [reflexivity|exact H| |].
  - destruct g as [|g]; simpl in Hg; [injection Hg as <-|rewrite lookup_nil in Hg; discriminate].
    inversion Hq.
  - destruct i as [|i]; simpl in Hi; [injection Hi as <-|rewrite lookup_nil in Hi; discriminate].
    inversion Hq.
Defined.

End Witnesses.
