(* ===== verification/TransportIo.v ===== *)
(** * System calls of the client transport

    Models the functions of [src/client/tcp_transport.cpp] that loop around system
    calls, [SetSendTimeout], [SendAll] and [RecvSome], in the monad [Sys] of the
    file Socket: the kernel is a script of results, and the calls made are logged.

    The step relations of TcpTransport let the outcome of every round be a choice
    of the environment.  The theorems here justify them: each run of the code, for
    any results of the kernel and any clock, is a run of the steps, which records
    exactly the bytes the kernel accepted. *)

From S2P Require Import Prelude Text Status FrameHeader FrameCodec Socket ConsulHttp Naming Consul Routing TcpTransport.

Local Open Scope Z_scope.

(** [send] accepts at most the bytes it is given, [recv] gives at most the bytes it
    is asked for. *)
Definition kernel_ok (e : syscall * option sysret) : Prop :=
  match e with
  | (sys_send _ d, Some r) => ret r <= len d
  | (sys_recv _ n, Some r) => 0 <= ret r -> len (data r) = ret r /\ ret r <= n
  | _ => True
  end.

Section io.
Context {W : Wire} (error_message : Z -> bytes).
(** The readings of the clock in [DeadlineExpired] and in [RemainingTimeout], at a
    point of a run. *)
Context (clock : world -> Z * Z).

Abbreviation IoStatus := (IoStatus error_message).

Definition SetSendTimeout (fd timeout : Z) : Sys (option Status) :=
  r ← sys (sys_set_timeout fd SO_SNDTIMEO (Transport_ToTimeval timeout));
  mret (if ret r <? 0 then Some (IoStatus "setsockopt(SO_SNDTIMEO)" (errno r)) else None).

(** A retry refreshes the timeout from the deadline. *)
Definition refresh_timeout (fd : Z) (options : EffectiveCallOptions) (retrying : bool) : Sys (option Status) :=
  if retrying && bool_decide (is_Some (deadline_ options)) then fun w =>
    if DeadlineExpired (clock w).1 options then Returns (Some (TimeoutStatus "send")) w
    else SetSendTimeout fd (RemainingTimeout (clock w).2 options) w
  else mret None.

(** The [while] of [SendAll]; every round makes a [send] or returns. *)
Fixpoint SendAll_loop (fuel : nat) (fd : Z) (frame : bytes) (options : EffectiveCallOptions)
    (written : Z) (retrying : bool) : Sys (option Status) :=
  if negb (written <? len frame) then mret None else
  match fuel with
  | O => fun w => Blocks w
  | S fuel =>
      timeout_status ← refresh_timeout fd options retrying;
      match timeout_status with
      | Some st => mret (Some st)
      | None =>
          r ← sys (sys_send fd (drop (Z.to_nat written) frame));
          if 0 <? ret r then
            let written := (written +u ret r)%word in
            SendAll_loop fuel fd frame options written (written <? len frame)
          else if ret r =? 0 then mret (Some (PeerClosedStatus "send"))
          else if errno r =? EINTR then SendAll_loop fuel fd frame options written true
          else mret (Some (IoStatus "send" (errno r)))
      end
  end.

Definition SendAll (fd : Z) (frame : bytes) (options : EffectiveCallOptions) : Sys (option Status) := fun w =>
  SendAll_loop (S (length (script_ w))) fd frame options 0 false w.

(** ** Runs *)

(** A timeout that is refreshed: the log has no sent bytes. *)
Lemma refresh_timeout_spec fd options retrying w :
  match refresh_timeout fd options retrying w with
  | Returns r w' => exists log, calls_ w' = calls_ w ++ log /\ sent_bytes log = [] /\
      (length (script_ w') <= length (script_ w))%nat /\
      match r with
      | None => True
      | Some st => retrying = true /\
          ((exists now, DeadlineExpired now options = true /\ st = TimeoutStatus "send") \/
           (deadline_ options <> None /\ exists error, st = IoStatus "setsockopt(SO_SNDTIMEO)" error))
      end
  | Blocks w' => script_ w' = []
  | Terminates => False
  end.
Proof.
  unfold refresh_timeout. destruct retrying; cbn [andb]; [|exists []; by rewrite app_nil_r].
  case_bool_decide as Hd; [|exists []; by rewrite app_nil_r].
  destruct (DeadlineExpired _ options) eqn:Ee.
  { exists []. rewrite app_nil_r. split_and!; [done|done|done|done|]. left. eauto. }
  unfold SetSendTimeout, mbind, Sys_bind, sys. destruct (script_ w) as [|r script] eqn:Es; [done|].
  eexists [_]. cbn. split_and!; [done|done|lia|]. destruct (ret r <? 0); [|done]. split; [done|]. right.
  split; [by destruct Hd as [? ->]|eauto].
Qed.

Section caller.
Context (request : nat -> RequestEnvelope) (options : nat -> EffectiveCallOptions).
Context (limits : ProtocolLimits) (i : nat) (fd : Z) (frame : bytes).
Context (frame_is : frame_of request limits i = Some frame) (frame_fits : len frame < 2 ^ 62).

(** A round of [SendAll] in the model of the threads. *)
Definition send_round (s s' : transport) : Prop :=
  exists pc, t_callers s !! i = Some pc /\ SendAll_step error_message request options limits i s pc s'.

(** Where the caller is after [SendAll]. *)
Definition after_send (r : option Status) : caller_pc := match r with None => CWait | Some st => CClose st end.

Lemma caller_moved s pc : is_Some (t_callers s !! i) -> t_callers (set_caller i pc s) !! i = Some pc.
Proof. intros [pc0 H]. cbn. apply list_lookup_insert_eq. by eapply lookup_lt_Some. Qed.

(** The failure of a round. *)
Lemma send_fails_round s written retrying st :
  t_callers s !! i = Some (CSending fd written retrying) -> written < len frame ->
  send_fails error_message options i retrying st ->
  exists s', rtc send_round s s' /\ t_callers s' !! i = Some (CClose st) /\ t_sent s' = t_sent s.
Proof.
  intros Hs Hw Hf. eexists. split; [|split].
  - eapply rtc_once. eexists. split; [exact Hs|]. by eapply send_failed.
  - apply caller_moved. cbn. eauto.
  - done.
Qed.

Lemma substr_cut written n :
  0 <= written -> 0 <= n -> drop (Z.to_nat written) frame = substr frame written n ++ drop (Z.to_nat (written + n)) frame.
Proof.
  intros Hw Hn. unfold substr. rewrite <- (take_drop (Z.to_nat n) (drop (Z.to_nat written) frame)) at 1.
  rewrite drop_drop. do 2 f_equal. lia.
Qed.

Lemma substr_join written n m :
  0 <= written -> 0 <= n -> written + n <= m ->
  substr frame written n ++ substr frame (written + n) (m - (written + n)) = substr frame written (m - written).
Proof.
  intros Hw Hn Hm. unfold substr. replace (Z.to_nat (written + n)) with (Z.to_nat written + Z.to_nat n)%nat by lia.
  rewrite <- drop_drop, take_take_drop. f_equal. lia.
Qed.

(** The loop ends or waits in a system call, and its log only grows. *)
Lemma SendAll_loop_waits fuel : forall written retrying w,
  (length (script_ w) < fuel)%nat ->
  match SendAll_loop fuel fd frame (options i) written retrying w with
  | Returns _ w' => calls_ w `prefix_of` calls_ w'
  | Blocks w' => script_ w' = []
  | Terminates => False
  end.
Proof.
  induction fuel as [|fuel IH]; intros written retrying w Hfuel; [lia|]. cbn [SendAll_loop].
  destruct (written <? len frame); cbn [negb]; [|exact (PreOrder_Reflexive (calls_ w))].
  pose proof (refresh_timeout_spec fd (options i) retrying w) as Hrefresh. unfold mbind, Sys_bind at 1.
  destruct (refresh_timeout fd (options i) retrying w) as [st w1|w1|]; [|done..].
  destruct Hrefresh as (log1 & Hc1 & _ & Hlen1 & _). destruct st as [st|]; [by exists log1|].
  unfold Sys_bind, sys. destruct (script_ w1) as [|r script] eqn:Es1; [done|]. cbn [length] in Hlen1.
  set (w2 := MkWorld script _).
  assert (Hpre : calls_ w `prefix_of` calls_ w2) by (cbn; rewrite Hc1; by do 2 apply prefix_app_r).
  assert (Hnext : forall n b, match SendAll_loop fuel fd frame (options i) n b w2 with
    | Returns _ w' => calls_ w `prefix_of` calls_ w' | Blocks w' => script_ w' = [] | Terminates => False end).
  { intros n b. specialize (IH n b w2 ltac:(cbn; lia)). destruct (SendAll_loop _ _ _ _ _ _ _); [by etrans|done..]. }
  destruct (0 <? ret r); [apply Hnext|]. destruct (ret r =? 0); [exact Hpre|].
  destruct (errno r =? EINTR); [apply Hnext|exact Hpre].
Qed.

(** The bytes recorded for the call. *)
Definition recorded (s : transport) : bytes := default [] (t_sent s !! i).

Lemma SendAll_loop_run fuel : forall written retrying w s,
  0 <= written <= len frame -> (length (script_ w) < fuel)%nat ->
  t_callers s !! i = Some (CSending fd written retrying) ->
  match SendAll_loop fuel fd frame (options i) written retrying w with
  | Returns r w' => Forall kernel_ok (calls_ w') ->
      exists log s', calls_ w' = calls_ w ++ log /\ rtc send_round s s' /\
        t_callers s' !! i = Some (after_send r) /\ recorded s' = recorded s ++ sent_bytes log /\
        match r with
        | None => sent_bytes log = drop (Z.to_nat written) frame
        | Some _ => exists m, written <= m < len frame /\ sent_bytes log = substr frame written (m - written)
        end
  | _ => True
  end.
Proof.
  induction fuel as [|fuel IH]; intros written retrying w s Hw Hfuel Hs; [lia|]. cbn [SendAll_loop].
  destruct (Z.ltb_spec written (len frame)) as [Hlt|Hge]; cbn [negb].
  2: { intros _. exists []. eexists. rewrite !app_nil_r. split_and!; [done| | | |].
       - eapply rtc_once. eexists. split; [exact Hs|]. by eapply send_done.
       - apply caller_moved. cbn. eauto.
       - done.
       - rewrite drop_ge; [done|]. unfold len in *. lia. }
  pose proof (refresh_timeout_spec fd (options i) retrying w) as Hrefresh. unfold mbind, Sys_bind at 1.
  destruct (refresh_timeout fd (options i) retrying w) as [st w1|w1|]; [|done..].
  destruct Hrefresh as (log1 & Hc1 & Hs1 & Hlen1 & Hst).
  assert (Hnothing : substr frame written (written - written) = []) by (unfold substr; by rewrite Z.sub_diag).
  assert (Hfails : forall st log, send_fails error_message options i retrying st -> sent_bytes log = [] ->
    exists s', rtc send_round s s' /\ t_callers s' !! i = Some (after_send (Some st)) /\
      recorded s' = recorded s ++ sent_bytes log /\
      exists m, written <= m < len frame /\ sent_bytes log = substr frame written (m - written)).
  { intros st' log Hf ->. destruct (send_fails_round s written retrying st' Hs Hlt Hf) as (s' & Hr & Hc & Ht).
    exists s'. rewrite app_nil_r. unfold recorded. rewrite Ht. split_and!; [done..|]. exists written. by rewrite Hnothing. }
  destruct st as [st|].
  { intros _. exists log1. destruct Hst as [Hretry Hwhy].
    destruct (Hfails st log1) as (s' & ? & ? & ? & ?); [|done|by exists s'].
    destruct Hwhy as [(now & He & ->)|(Hd & error & ->)]; [by eapply send_expired|by apply send_option]. }
  unfold Sys_bind, sys. destruct (script_ w1) as [|r script] eqn:Es1; [done|].
  set (entry := (sys_send fd (drop (Z.to_nat written) frame), Some r)).
  assert (Hlog : calls_ w1 ++ [entry] = calls_ w ++ (log1 ++ [entry])) by (by rewrite Hc1, app_assoc).
  cbn [length] in Hlen1. destruct (Z.ltb_spec 0 (ret r)) as [Hpos|Hneg].
  - destruct (decide (ret r <= len frame - written)) as [Hle|Hgt].
    2: { set (w2 := MkWorld script _). pose proof (SendAll_loop_waits fuel (written +u ret r)%word
           (written +u ret r <? len frame)%word w2 ltac:(cbn; lia)) as Hcalls.
         destruct (SendAll_loop fuel _ _ _ _ _ w2) as [x w3|w3|]; [|done..].
         intros Hk. exfalso. destruct Hcalls as [rest Hrest]. rewrite Hrest in Hk. cbn in Hk.
         apply Forall_app in Hk as [Hk _]. apply Forall_app in Hk as [_ Hk]. apply Forall_cons in Hk as [Hk _].
         cbn in Hk. unfold len in *. rewrite length_drop in Hk. lia. }
    rewrite add64_small by lia.
    set (w2 := MkWorld script _). set (s1 := set_caller i (CSending fd (written + ret r) (written + ret r <? len frame))
      (record_sent i (substr frame written (ret r)) s)).
    assert (Hround : send_round s s1) by (eexists; split; [exact Hs|eapply send_some; [exact frame_is|lia]]).
    specialize (IH (written + ret r) (written + ret r <? len frame) w2 s1 ltac:(lia) ltac:(cbn; lia)
      ltac:(apply caller_moved; cbn; eauto)).
    destruct (SendAll_loop fuel _ _ _ _ _ w2) as [x w3|w3|]; [|done..].
    intros Hk. destruct (IH Hk) as (log & s' & Hc & Hr & Hcl & Hrec & Hx). exists ((log1 ++ [entry]) ++ log), s'.
    assert (Hsent : sent_bytes (log1 ++ [entry]) = substr frame written (ret r)).
    { rewrite sent_bytes_app, Hs1. unfold sent_bytes, substr. cbn. rewrite (proj2 (Z.leb_le _ _)) by lia. by rewrite app_nil_r. }
    rewrite sent_bytes_app, Hsent, app_assoc, <- Hlog. split_and!; [exact Hc|by eapply rtc_l|done| |].
    + rewrite Hrec. unfold recorded, s1. cbn. rewrite lookup_insert_eq. cbn. by rewrite <- app_assoc.
    + rewrite (substr_cut written (ret r)) by lia. destruct x as [st|]; [|by rewrite Hx].
      destruct Hx as (m & Hm & ->). exists m. split; [lia|]. apply substr_join; lia.
  - destruct (Z.eqb_spec (ret r) 0) as [E0|E0].
    + intros _. exists (log1 ++ [entry]). destruct (Hfails (PeerClosedStatus "send") (log1 ++ [entry])) as (s' & ? & ? & ? & ?).
      * apply send_closed.
      * rewrite sent_bytes_app, Hs1. unfold sent_bytes. cbn. by rewrite E0.
      * by exists s'.
    + assert (Hempty : sent_bytes (log1 ++ [entry]) = []).
      { rewrite sent_bytes_app, Hs1. unfold sent_bytes. cbn. by rewrite (proj2 (Z.leb_gt _ _)) by lia. }
      destruct (Z.eqb_spec (errno r) EINTR) as [Ei|Ei].
      * set (w2 := MkWorld script _).
        assert (Hround : send_round s (set_caller i (CSending fd written true) s))
          by (eexists; split; [exact Hs|by eapply send_interrupted]).
        specialize (IH written true w2 (set_caller i (CSending fd written true) s) Hw ltac:(cbn; lia)
          ltac:(apply caller_moved; eauto)).
        destruct (SendAll_loop fuel _ _ _ _ _ w2) as [x w3|w3|]; [|done..].
        intros Hk. destruct (IH Hk) as (log & s' & Hc & Hr & Hcl & Hrec & Hx). exists ((log1 ++ [entry]) ++ log), s'.
        rewrite sent_bytes_app, Hempty, app_assoc, <- Hlog. split_and!; [exact Hc|by eapply rtc_l|done|exact Hrec|exact Hx].
      * intros _. exists (log1 ++ [entry]).
        destruct (Hfails (IoStatus "send" (errno r)) (log1 ++ [entry])) as (s' & ? & ? & ? & ?); [by apply send_error|done|by exists s'].
Qed.

(** ** Properties *)

(** C34: [SendAll] is a run of the rounds of the model, for any results of the kernel and
    any clock.  When it returns, the caller's steps lead to where the model puts a
    caller after that outcome, and the bytes recorded for the call are those the
    kernel accepted: the whole frame when it succeeds, a strict prefix when it
    fails.  It never ends the process and waits only inside a system call. *)
Theorem SendAll_refines w s :
  t_callers s !! i = Some (CSending fd 0 false) ->
  match SendAll fd frame (options i) w with
  | Returns r w' => Forall kernel_ok (calls_ w') ->
      exists log s', calls_ w' = calls_ w ++ log /\ rtc send_round s s' /\
        t_callers s' !! i = Some (after_send r) /\ recorded s' = recorded s ++ sent_bytes log /\
        match r with
        | None => sent_bytes log = frame
        | Some _ => exists m, 0 <= m < len frame /\ sent_bytes log = take (Z.to_nat m) frame
        end
  | Blocks w' => script_ w' = []
  | Terminates => False
  end.
Proof.
  intros Hs. unfold SendAll. pose proof (len_nonneg frame).
  pose proof (SendAll_loop_waits (S (length (script_ w))) 0 false w ltac:(lia)) as Hwait.
  pose proof (SendAll_loop_run (S (length (script_ w))) 0 false w s ltac:(lia) ltac:(lia) Hs) as Hrun.
  destruct (SendAll_loop _ _ _ _ _ _ _) as [r w'|w'|]; [|done..]. intros Hk.
  destruct (Hrun Hk) as (log & s' & Hc & Hr & Hcl & Hrec & Hx). exists log, s'. split_and!; [done..|].
  destruct r as [st|]; [|exact Hx]. destruct Hx as (m & Hm & ->). exists m. split; [done|].
  unfold substr. rewrite Z.sub_0_r. done.
Qed.

End caller.

End io.

Section reader.
Context {W : Wire} (error_message : Z -> bytes).

Abbreviation IoStatus := (IoStatus error_message).

(** The result with its bytes, or the error. *)
Definition RecvSome (fd buffer_size : Z) : Sys sysret :=
  sys_loop (
    received ← sys (sys_recv fd buffer_size);
    if 0 <=? ret received then mret (Some received) else
    if errno received =? EINTR then mret None else
    mret (Some received)).

(** What [ReaderLoop] does with the result. *)
Definition ReaderLoop_received (buffer : bytes) (received : sysret) : reader_pc :=
  if 0 <? ret received then RLoop (buffer ++ data received)
  else if ret received =? 0 then RClose (PeerClosedStatus "recv")
  else RClose (IoStatus "recv" (errno received)).

(** The result of a loop is the result of one of its rounds. *)
Lemma sys_repeat_last {A} fuel (body : Sys (option A)) w a w' :
  sys_repeat fuel body w = Returns a w' -> exists w1, body w1 = Returns (Some a) w'.
Proof.
  revert w. induction fuel as [|fuel IH]; intros w; [done|]. cbn. unfold mbind, Sys_bind.
  destruct (body w) as [[x|] w1|w1|] eqn:E; [|apply IH|done..]. intros [= -> ->]. eauto.
Qed.

(** [RecvSome] and what the reader does with its result are a step of the reader in
    the model, after any number of interruptions; it never ends the process and
    waits only inside [recv]. *)
Theorem RecvSome_refines limits g s fd buffer w :
  error_ (FrameCodec_Decode limits buffer) = NeedMoreData ->
  match RecvSome fd 4096 w with
  | Returns r w' => Forall kernel_ok (calls_ w') ->
      ReaderLoop_step error_message limits g s (RLoop buffer) (set_reader g (ReaderLoop_received buffer r) s)
  | Blocks w' => script_ w' = []
  | Terminates => False
  end.
Proof.
  intros Hb. unfold RecvSome. set (body := mbind _ _).
  assert (Hwaits : waits body (fun r => r = None)) 
    by (apply waits_sys_bind; intros r; unfold returning; repeat case_match; apply waits_ret; tauto).
  pose proof (repeat_fuel_enough (S (length (script_ w))) body w Hwaits ltac:(lia)) as Hw. unfold sys_loop in *.
  destruct (sys_repeat _ body w) as [r w'|w'|] eqn:E; [|done|].
  2: { exfalso. revert E. generalize (S (length (script_ w))). intros fuel. generalize w. clear.
       induction fuel as [|fuel IH]; intros w; [done|]. cbn. unfold body, mbind, Sys_bind, sys at 1.
       destruct (script_ w) as [|r script]; [done|]. destruct (0 <=? ret r); [done|]. destruct (errno r =? EINTR); [apply IH|done]. }
  intros Hk. apply sys_repeat_last in E as (w1 & E). unfold body, mbind, Sys_bind, sys in E.
  destruct (script_ w1) as [|x script]; [done|].
  assert (r = x /\ calls_ w' = calls_ w1 ++ [(sys_recv fd 4096, Some x)] /\ (ret x < 0 -> errno x <> EINTR)) as (-> & Hc & Hi).
  { destruct (Z.leb_spec 0 (ret x)); [injection E as <- <-; split_and!; [done|done|lia]|].
    destruct (Z.eqb_spec (errno x) EINTR); [done|]. by injection E as <- <-. }
  rewrite Hc in Hk. apply Forall_app in Hk as [_ Hk]. apply Forall_cons in Hk as [Hk _]. cbn in Hk.
  unfold ReaderLoop_received. destruct (Z.ltb_spec 0 (ret x)).
  - destruct Hk as [Hd Hn]; [lia|]. apply read_bytes; [done| |lia]. intros E0. rewrite E0, len_nil in Hd. lia.
  - destruct (Z.eqb_spec (ret x) 0); [by apply read_end|]. apply read_error; [done|]. apply Hi. lia.
Qed.

End reader.

(** *** Witnesses *)
Section TransportIoWitnesses.
Import ExampleWire.

Definition example_clock (w : world) : Z * Z := (50, 60).
Definition deadline_options (i : nat) : EffectiveCallOptions := MkEffectiveCallOptions (Some 100) [].

(** A partial write, an interrupted one, and the rest; each retry sets the timeout. *)
Definition send_script : world :=
  MkWorld [MkRet 10 0 0 []; MkRet 0 0 0 []; MkRet (-1) EINTR 0 []; MkRet 0 0 0 []; MkRet 42 0 0 []] [].

Definition sending : transport :=
  MkTransport (Some 0%nat) [5] (Some 0%nat) None (Some 0%nat) ∅ [CSending 5 0 false] [RLoop []] ∅ ∅ ∅.

Lemma SendAll_refines_witness :
  exists (log : list (syscall * option sysret)) s', rtc (send_round no_message example_request deadline_options ProtocolLimits_default 0) sending s' /\
    t_callers s' !! 0%nat = Some CWait /\ recorded 0 s' = echo_frame /\ length log = 5%nat.
Proof.
  assert (Hf : frame_of example_request ProtocolLimits_default 0 = Some echo_frame) by (vm_compute; reflexivity).
  assert (Hl : len echo_frame < 2 ^ 62) by (vm_compute; reflexivity).
  pose proof (SendAll_refines no_message example_clock example_request deadline_options ProtocolLimits_default 0 5 echo_frame
    Hf Hl send_script sending eq_refl) as H.
  match type of H with match ?m with _ => _ end => let v := eval vm_compute in m in change m with v in H end.
  cbv beta iota in H. destruct H as (log & s' & Hc & Hr & Hcl & Hrec & Hs).
  - repeat constructor; vm_compute; discriminate.
  - exists log, s'. split_and!; [exact Hr|exact Hcl| |].
    + rewrite Hrec. exact Hs.
    + apply (f_equal length) in Hc. cbn in Hc. by rewrite <- Hc.
Defined.

Lemma RecvSome_refines_witness :
  ReaderLoop_step no_message ProtocolLimits_default 0 sending (RLoop []) (set_reader 0 (RLoop (bs "abc")) sending).
Proof.
  pose proof (RecvSome_refines no_message ProtocolLimits_default 0 sending 5 []
    (MkWorld [MkRet (-1) EINTR 0 []; MkRet 3 0 0 (bs "abc")] []) ltac:(vm_compute; reflexivity)) as H.
  match type of H with match ?m with _ => _ end => let v := eval vm_compute in m in change m with v in H end.
  cbv beta iota in H. apply H. apply Forall_cons. split; [|apply Forall_singleton]; cbn; [lia|].
  intros _. split; [reflexivity|lia].
Defined.

End TransportIoWitnesses.
