(* ===== verification/MpscQueue.v ===== *)
(** * The bounded multi-producer, single-consumer queue

    Models [src/include/common/mpsc_queue.h]: producers that reserve a position
    by compare-and-swap, construct their value in the slot of the position and
    publish it with a flag, and one consumer that takes published values in
    order of position.

    A step is one atomic access, as the threads interleave at these; accesses
    are sequentially consistent here.  Positions are 64-bit words, so the
    theorems speak about runs in which fewer than 2^64 values were pushed.

    The history [q_log] has one entry per reserved position.  The theorems show
    that the queue refines a bounded list of reserved and published items, that
    a slot is never constructed twice nor read empty, and that values come out in
    the order of their reservation, each once. *)

From S2P Require Import Prelude.

Local Open Scope Z_scope.

Section mpsc.
Context {T : Type}.

(** ** State *)

(** [storage_] holds a value between construction and destruction. *)
Record Slot := MkSlot { storage_ : option T; ready_ : bool }.

Definition Slot_new : Slot := MkSlot None false.

(** Where a producer is in [TryPush]. *)
Inductive producer_pc :=
  | PIdle
  | PLoop (v : T)
  | PDequeue (v : T) (dequeue_position : Z)
  | PCas (v : T) (enqueue_position : Z)
  | PReserved (v : T) (position : Z)
  | PConstructed (position : Z).

(** Where the consumer is in [TryPop]. *)
Inductive consumer_pc :=
  | KIdle
  | KCheck
  | KReady
  | KTaken (v : T)
  | KUnready (v : T).

(** What became of a reserved position (history). *)
Inductive entry_status :=
  | EReserved (producer : nat)
  | EConstructed (producer : nat)
  | EPublished
  | ETaken
  | ECleared.

Record mpsc := MkMpsc {
  enqueue_position_ : Z;
  dequeue_position_ : Z;
  slots_ : list Slot;
  q_producers : list producer_pc;
  q_consumer : consumer_pc;
  q_log : list (T * entry_status);
  q_taken : nat
}.

Context (capacity_ : Z).

(** The constructor: [inl] is the exception it throws. *)
Definition MpscQueue_new (producers : nat) : string + mpsc :=
  if capacity_ =? 0 then inl "MpscQueue capacity must be greater than zero"%string
  else inr (MkMpsc 0 0 (replicate (Z.to_nat capacity_) Slot_new) (replicate producers PIdle) KIdle [] 0).

Definition slot_index (position : Z) : nat := Z.to_nat (position mod capacity_).

Definition set_producer (i : nat) (pc : producer_pc) (s : mpsc) : mpsc :=
  MkMpsc (enqueue_position_ s) (dequeue_position_ s) (slots_ s) (<[i := pc]> (q_producers s))
    (q_consumer s) (q_log s) (q_taken s).

Definition set_consumer (pc : consumer_pc) (s : mpsc) : mpsc :=
  MkMpsc (enqueue_position_ s) (dequeue_position_ s) (slots_ s) (q_producers s) pc (q_log s)
    (q_taken s).

(** The slot of [position] and the history of its entry change. *)
Definition set_slot (position : Z) (slot : Slot) (e : entry_status) (s : mpsc) : mpsc :=
  MkMpsc (enqueue_position_ s) (dequeue_position_ s) (<[slot_index position := slot]> (slots_ s))
    (q_producers s) (q_consumer s) (alter (fun x => (x.1, e)) (Z.to_nat position) (q_log s))
    (q_taken s).

(** The successful exchange: the position now belongs to producer [i]. *)
Definition reserve (i : nat) (v : T) (s : mpsc) : mpsc :=
  MkMpsc (enqueue_position_ s +u 1)%word (dequeue_position_ s) (slots_ s) (q_producers s)
    (q_consumer s) (q_log s ++ [(v, EReserved i)]) (q_taken s).

Definition take_head (s : mpsc) : mpsc :=
  MkMpsc (enqueue_position_ s) (dequeue_position_ s) (slots_ s) (q_producers s) (q_consumer s)
    (q_log s) (S (q_taken s)).

Definition advance (s : mpsc) : mpsc :=
  MkMpsc (enqueue_position_ s) (dequeue_position_ s +u 1)%word (slots_ s) (q_producers s)
    (q_consumer s) (q_log s) (q_taken s).

Definition slot_at (s : mpsc) (position : Z) : Slot :=
  default Slot_new (slots_ s !! slot_index position).

(** The destructor destroys the values of the slots that are marked ready. *)
Definition MpscQueue_destroy (s : mpsc) : list Slot :=
  map (fun slot => if ready_ slot then MkSlot None (ready_ slot) else slot) (slots_ s).

(** ** Steps *)

(** What a step means to a user of the queue. *)
Inductive qevent :=
  | QTau
  | QReserve (v : T)
  | QPublish (offset : nat)
  | QPop (v : T)
  | QNone.

(** [TryPush] by producer [i]. *)
Inductive TryPush_step (i : nat) (s : mpsc) : producer_pc -> qevent -> mpsc -> Prop :=
  | push_start v : TryPush_step i s PIdle QTau (set_producer i (PLoop v) s)
  | push_load_dequeue v :
      TryPush_step i s (PLoop v) QTau (set_producer i (PDequeue v (dequeue_position_ s)) s)
  | push_full v d :
      capacity_ <= (enqueue_position_ s -u d)%word ->
      TryPush_step i s (PDequeue v d) QTau (set_producer i PIdle s)
  | push_load_enqueue v d :
      (enqueue_position_ s -u d)%word < capacity_ ->
      TryPush_step i s (PDequeue v d) QTau (set_producer i (PCas v (enqueue_position_ s)) s)
  (** the weak exchange may fail without a reason *)
  | push_cas_fails v e : TryPush_step i s (PCas v e) QTau (set_producer i (PLoop v) s)
  | push_cas v e :
      enqueue_position_ s = e ->
      TryPush_step i s (PCas v e) (QReserve v) (set_producer i (PReserved v e) (reserve i v s))
  | push_construct v p :
      TryPush_step i s (PReserved v p) QTau
        (set_producer i (PConstructed p)
           (set_slot p (MkSlot (Some v) (ready_ (slot_at s p))) (EConstructed i) s))
  | push_publish p :
      TryPush_step i s (PConstructed p) (QPublish (Z.to_nat p - q_taken s))
        (set_producer i PIdle (set_slot p (MkSlot (storage_ (slot_at s p)) true) EPublished s)).

(** [TryPop].  Reading a slot without a value is undefined, so the step that
    takes the value exists only when there is one. *)
Inductive TryPop_step (s : mpsc) : consumer_pc -> qevent -> mpsc -> Prop :=
  | pop_empty :
      enqueue_position_ s = dequeue_position_ s -> TryPop_step s KIdle QNone s
  | pop_load_enqueue :
      enqueue_position_ s <> dequeue_position_ s -> TryPop_step s KIdle QTau (set_consumer KCheck s)
  | pop_unpublished :
      ready_ (slot_at s (dequeue_position_ s)) = false ->
      TryPop_step s KCheck QNone (set_consumer KIdle s)
  | pop_ready :
      ready_ (slot_at s (dequeue_position_ s)) = true ->
      TryPop_step s KCheck QTau (set_consumer KReady s)
  | pop_take v :
      storage_ (slot_at s (dequeue_position_ s)) = Some v ->
      TryPop_step s KReady (QPop v)
        (set_consumer (KTaken v)
           (take_head (set_slot (dequeue_position_ s)
              (MkSlot None (ready_ (slot_at s (dequeue_position_ s)))) ETaken s)))
  | pop_unready v :
      TryPop_step s (KTaken v) QTau
        (set_consumer (KUnready v)
           (set_slot (dequeue_position_ s)
              (MkSlot (storage_ (slot_at s (dequeue_position_ s))) false) ECleared s))
  | pop_advance v :
      TryPop_step s (KUnready v) QTau (set_consumer KIdle (advance s)).

Inductive qstep (s : mpsc) (e : qevent) (s' : mpsc) : Prop :=
  | qstep_producer i pc :
      q_producers s !! i = Some pc -> TryPush_step i s pc e s' -> qstep s e s'
  | qstep_consumer : TryPop_step s (q_consumer s) e s' -> qstep s e s'.

(** ** The abstract queue

    Items in order of reservation, each with whether it is published. *)

#[local] Notation aqueue := (list (T * bool)).

Inductive astep : aqueue -> qevent -> aqueue -> Prop :=
  | a_tau q : astep q QTau q
  | a_reserve q v : len q < capacity_ -> astep q (QReserve v) (q ++ [(v, false)])
  | a_publish q k v : q !! k = Some (v, false) -> astep q (QPublish k) (<[k := (v, true)]> q)
  | a_pop q v : astep ((v, true) :: q) (QPop v) q
  (** nothing to take: empty, or the oldest item is not published *)
  | a_none q : (forall v b, head q = Some (v, b) -> b = false) -> astep q QNone q.

Definition is_published (e : entry_status) : bool :=
  match e with EPublished => true | _ => false end.

Definition abstract_queue (s : mpsc) : aqueue :=
  (fun x => (x.1, is_published x.2)) <$> drop (q_taken s) (q_log s).

(** ** Invariant *)

Context (capacity_pos : 0 < capacity_).

(** The slot that the history of its position calls for. *)
Definition slot_of (e : option (T * entry_status)) : Slot :=
  match e with
  | Some (v, EConstructed _) => MkSlot (Some v) false
  | Some (v, EPublished) => MkSlot (Some v) true
  | Some (_, ETaken) => MkSlot None true
  | _ => Slot_new
  end.

Definition is_live (e : entry_status) : bool :=
  match e with ETaken | ECleared => false | _ => true end.

(** Values taken from the slots but not yet counted by [dequeue_position_]. *)
Definition in_hand (pc : consumer_pc) : Z :=
  match pc with KTaken _ | KUnready _ => 1 | _ => 0 end.

Definition entry_at (s : mpsc) (p : Z) : option (T * entry_status) := q_log s !! Z.to_nat p.

Definition producer_ok (s : mpsc) (i : nat) (pc : producer_pc) : Prop :=
  match pc with
  | PDequeue _ d => 0 <= d <= dequeue_position_ s
  | PCas _ e => 0 <= e <= len (q_log s) /\ e - dequeue_position_ s < capacity_
  | PReserved v p => 0 <= p /\ entry_at s p = Some (v, EReserved i)
  | PConstructed p => 0 <= p /\ exists v, entry_at s p = Some (v, EConstructed i)
  | _ => True
  end.

Definition consumer_ok (s : mpsc) : Prop :=
  match q_consumer s with
  | KIdle => True
  | KCheck => dequeue_position_ s < len (q_log s)
  | KReady => exists v, entry_at s (dequeue_position_ s) = Some (v, EPublished)
  | KTaken v => entry_at s (dequeue_position_ s) = Some (v, ETaken)
  | KUnready v => entry_at s (dequeue_position_ s) = Some (v, ECleared)
  end.

Record qinv (s : mpsc) : Prop := {
  qi_slots_length : len (slots_ s) = capacity_;
  qi_enqueue : enqueue_position_ s = len (q_log s);
  qi_taken : Z.of_nat (q_taken s) = dequeue_position_ s + in_hand (q_consumer s);
  qi_order : 0 <= dequeue_position_ s /\ Z.of_nat (q_taken s) <= len (q_log s);
  qi_bound : len (q_log s) - dequeue_position_ s <= capacity_;
  qi_slots : forall p, dequeue_position_ s <= p < dequeue_position_ s + capacity_ ->
    slot_at s p = slot_of (entry_at s p);
  qi_live : forall p v e, q_log s !! p = Some (v, e) ->
    is_live e = bool_decide (q_taken s <= p)%nat;
  qi_consumer : consumer_ok s;
  qi_producers : forall i pc, q_producers s !! i = Some pc -> producer_ok s i pc
}.

(** *** Slots in the window of live positions do not collide *)

Lemma slot_index_inj p q :
  0 <= p -> 0 <= q -> Z.abs (p - q) < capacity_ -> slot_index p = slot_index q -> p = q.
Proof.
  intros Hp Hq Hd E. unfold slot_index in E.
  pose proof (Z.mod_pos_bound p capacity_ capacity_pos).
  pose proof (Z.mod_pos_bound q capacity_ capacity_pos).
  assert (p mod capacity_ = q mod capacity_) as E' by lia.
  pose proof (Z.div_mod p capacity_ ltac:(lia)). pose proof (Z.div_mod q capacity_ ltac:(lia)).
  assert (p - q = capacity_ * (p / capacity_ - q / capacity_)) as Hpq by lia.
  destruct (Z.eq_dec (p / capacity_) (q / capacity_)) as [E''|Hne]; [rewrite E'' in *; lia|].
  assert (1 <= Z.abs (p / capacity_ - q / capacity_)) by lia.
  rewrite Hpq, Z.abs_mul in Hd. nia.
Qed.

Lemma slot_index_lt s p : len (slots_ s) = capacity_ -> (slot_index p < length (slots_ s))%nat.
Proof.
  intros Hl. unfold slot_index, len in *. pose proof (Z.mod_pos_bound p capacity_ capacity_pos). lia.
Qed.

Lemma slot_at_set s p x e q d :
  len (slots_ s) = capacity_ -> 0 <= d -> d <= p < d + capacity_ -> d <= q < d + capacity_ ->
  slot_at (set_slot p x e s) q = if decide (p = q) then x else slot_at s q.
Proof.
  intros Hl Hd Hp Hq. unfold slot_at. cbn [slots_ set_slot]. destruct (decide (p = q)) as [->|Hne].
  - by rewrite list_lookup_insert_eq by (by apply slot_index_lt).
  - rewrite list_lookup_insert_ne; [done|]. intros E. apply Hne. apply slot_index_inj; [lia|lia|lia|exact E].
Qed.

Lemma entry_at_set s p x e q :
  0 <= p -> 0 <= q ->
  entry_at (set_slot p x e s) q =
  if decide (p = q) then (fun y => (y.1, e)) <$> entry_at s p else entry_at s q.
Proof.
  intros Hp Hq. unfold entry_at. cbn [q_log set_slot]. destruct (decide (p = q)) as [->|Hne].
  - apply list_lookup_alter_eq.
  - apply list_lookup_alter_ne. lia.
Qed.

(** *** Steps of producers *)

Lemma qinv_set_producer i pc s :
  qinv s -> producer_ok s i pc -> qinv (set_producer i pc s).
Proof.
  intros [] Hpc. split; try done. intros j q Hj. cbn [q_producers set_producer] in Hj.
  apply list_lookup_insert_Some in Hj as [(<- & <- & _)|[_ Hj]]; [done|]. by apply qi_producers0.
Qed.

(** The entry a producer works on is live and inside the window. *)
Lemma live_window s p v e :
  qinv s -> 0 <= p -> entry_at s p = Some (v, e) -> is_live e = true ->
  Z.of_nat (q_taken s) <= p < dequeue_position_ s + capacity_.
Proof.
  intros [] Hp He Hl. pose proof (qi_live0 _ _ _ He) as Hb. rewrite Hl in Hb. symmetry in Hb.
  apply bool_decide_eq_true in Hb. apply lookup_lt_Some in He. unfold len in *. lia.
Qed.

Lemma in_hand_range pc : 0 <= in_hand pc <= 1.
Proof. destruct pc; simpl; lia. Qed.

(** *** What a change of one slot and its entry keeps *)

Lemma set_slot_len p x e s :
  len (slots_ (set_slot p x e s)) = len (slots_ s) /\ len (q_log (set_slot p x e s)) = len (q_log s).
Proof. unfold len. cbn. by rewrite length_insert, length_alter. Qed.

Lemma set_slot_window p v old e s :
  qinv s -> dequeue_position_ s <= p < dequeue_position_ s + capacity_ ->
  entry_at s p = Some (v, old) ->
  forall q, dequeue_position_ s <= q < dequeue_position_ s + capacity_ ->
  slot_at (set_slot p (slot_of (Some (v, e))) e s) q =
  slot_of (entry_at (set_slot p (slot_of (Some (v, e))) e s) q).
Proof.
  intros [] Hp He q Hq. rewrite (slot_at_set s p _ e q (dequeue_position_ s)), entry_at_set by (done || lia).
  destruct (decide (p = q)) as [->|]; [by rewrite He|by apply qi_slots0].
Qed.

Lemma entry_kept p x e s q y :
  0 <= p -> 0 <= q -> entry_at s q = Some y -> entry_at s p <> Some y ->
  entry_at (set_slot p x e s) q = Some y.
Proof.
  intros Hp Hq He Hne. rewrite entry_at_set by done. destruct (decide (p = q)) as [->|]; [congruence|done].
Qed.

Definition owned_by (j : nat) (e : entry_status) : Prop := e = EReserved j \/ e = EConstructed j.

Lemma producer_ok_kept p x v old e s j pc :
  0 <= p -> entry_at s p = Some (v, old) -> ~ owned_by j old ->
  producer_ok s j pc -> producer_ok (set_slot p x e s) j pc.
Proof.
  unfold owned_by. intros Hp He Hn Hok. destruct pc; cbn -[entry_at] in *; try done.
  - unfold len in *. by rewrite length_alter.
  - destruct Hok as [Hz Hok]. split; [done|]. apply entry_kept; auto. rewrite He. naive_solver.
  - destruct Hok as (Hz & w & Hok). split; [done|]. exists w. apply entry_kept; auto.
    rewrite He. naive_solver.
Qed.

Lemma consumer_ok_kept p x v old e s :
  0 <= p -> 0 <= dequeue_position_ s -> entry_at s p = Some (v, old) ->
  old <> EPublished -> is_live old = true -> consumer_ok s -> consumer_ok (set_slot p x e s).
Proof.
  intros Hp Hd He Hn Hl Hok. unfold consumer_ok in *. cbn [q_consumer set_slot dequeue_position_].
  destruct (q_consumer s) as [| | |w|w]; [done| | | |].
  - by rewrite (proj2 (set_slot_len _ _ _ _)).
  - destruct Hok as [w Hw]. exists w. apply entry_kept; auto. rewrite He. naive_solver.
  - apply entry_kept; auto. rewrite He. naive_solver.
  - apply entry_kept; auto. rewrite He. naive_solver.
Qed.

(** Producer [i] moves its own entry on. *)
Lemma qinv_move_entry i p v old e pc s :
  qinv s -> 0 <= p -> entry_at s p = Some (v, old) -> owned_by i old ->
  is_live e = true -> producer_ok (set_slot p (slot_of (Some (v, e))) e s) i pc ->
  qinv (set_producer i pc (set_slot p (slot_of (Some (v, e))) e s)).
Proof.
  intros Hinv Hp He Hold Hl Hpc.
  assert (is_live old = true) as Hlive by (by destruct Hold; subst).
  pose proof (live_window s p v old Hinv Hp He Hlive) as Hwin.
  pose proof (set_slot_len p (slot_of (Some (v, e))) e s) as [Hs Hlog].
  pose proof (in_hand_range (q_consumer s)) as Hh. pose proof Hinv as Hinv'. destruct Hinv.
  split; try done.
  - exact (eq_trans Hs qi_slots_length0).
  - exact (eq_trans qi_enqueue0 (eq_sym Hlog)).
  - rewrite <- Hlog in qi_order0. exact qi_order0.
  - rewrite <- Hlog in qi_bound0. exact qi_bound0.
  - exact (set_slot_window p v old e s Hinv' ltac:(lia) He).
  - intros q w st Hq. cbn in Hq |- *. destruct (decide (Z.to_nat p = q)) as [<-|Hne].
    + rewrite list_lookup_alter_eq in Hq. fold (entry_at s p) in Hq. rewrite He in Hq. cbn in Hq.
      injection Hq as <- <-. rewrite Hl. symmetry. apply bool_decide_true. lia.
    + rewrite list_lookup_alter_ne in Hq by done. by apply (qi_live0 q w st).
  - apply (consumer_ok_kept p (slot_of (Some (v, e))) v old e s); try done; [lia|by destruct Hold; subst].
  - intros j q Hj. apply list_lookup_insert_Some in Hj as [(<- & <- & _)|[Hne Hj]]; [done|].
    apply (producer_ok_kept p (slot_of (Some (v, e))) v old e s j q); auto. unfold owned_by in *. naive_solver.
Qed.

(** A reservation gives the producer the next position; its slot is free. *)
Lemma qinv_reserve i v s :
  qinv s -> len (q_log s) + 1 < 2 ^ 64 -> enqueue_position_ s - dequeue_position_ s < capacity_ ->
  qinv (set_producer i (PReserved v (enqueue_position_ s)) (reserve i v s)).
Proof.
  intros [] Hw Hroom. pose proof (len_nonneg (q_log s)) as Hnn.
  assert (Hlen : len (q_log s ++ [(v, EReserved i)]) = len (q_log s) + 1) by (rewrite len_app; done).
  assert (Hold : forall p y, q_log s !! p = Some y -> (q_log s ++ [(v, EReserved i)]) !! p = Some y).
  { intros p y Hp. by apply lookup_app_l_Some. }
  split; cbn [slots_ enqueue_position_ dequeue_position_ q_log q_taken q_consumer q_producers
    set_producer reserve]; try done; rewrite ?Hlen; try lia.
  - rewrite qi_enqueue0, add64_small by lia. done.
  - intros p Hp. change (slot_at _ p) with (slot_at s p). rewrite qi_slots0 by done. unfold entry_at.
    cbn [q_log set_producer reserve]. destruct (q_log s !! Z.to_nat p) eqn:E; [by rewrite (Hold _ _ E)|].
    apply lookup_ge_None in E. rewrite lookup_app_r by done.
    by destruct (Z.to_nat p - length (q_log s))%nat as [|n].
  - intros p w e Hp. apply lookup_app_Some in Hp as [Hp|[Hge Hp]]; [by apply (qi_live0 p w e)|].
    apply list_lookup_singleton_Some in Hp as [Hz [= <- <-]]. simpl. symmetry. apply bool_decide_true.
    unfold len in *. lia.
  - unfold consumer_ok in *. cbn [q_consumer set_producer reserve]. unfold entry_at in *.
    cbn [q_log dequeue_position_ set_producer reserve].
    destruct (q_consumer s); naive_solver (lia || auto).
  - intros j q Hj. apply list_lookup_insert_Some in Hj as [(<- & <- & _)|[_ Hj]].
    + split; [lia|]. unfold entry_at. cbn [q_log set_producer reserve].
      rewrite qi_enqueue0. unfold len. by rewrite Nat2Z.id, list_lookup_middle.
    + specialize (qi_producers0 j q Hj). destruct q; cbn -[entry_at] in *; unfold entry_at in *;
        cbn [q_log] in *; rewrite ?Hlen; naive_solver (lia || auto).
Qed.

(** *** Steps of the consumer *)

Lemma qinv_set_consumer pc s :
  qinv s -> in_hand pc = in_hand (q_consumer s) -> consumer_ok (set_consumer pc s) ->
  qinv (set_consumer pc s).
Proof. intros [] Hh Hc. split; try done. cbn. by rewrite Hh. Qed.

(** The consumer's own entry at [dequeue_position_] moves on. *)
Lemma qinv_take v s :
  qinv s -> q_consumer s = KReady -> entry_at s (dequeue_position_ s) = Some (v, EPublished) ->
  qinv (set_consumer (KTaken v) (take_head (set_slot (dequeue_position_ s) (MkSlot None true) ETaken s))).
Proof.
  intros Hinv Hk He. pose proof (qi_taken s Hinv) as Ht. rewrite Hk in Ht. simpl in Ht.
  pose proof (live_window s _ v _ Hinv ltac:(apply Hinv) He eq_refl) as Hwin.
  pose proof (set_slot_len (dequeue_position_ s) (MkSlot None true) ETaken s) as [Hs Hlog].
  assert (dequeue_position_ s < len (q_log s)).
  { apply lookup_lt_Some in He. unfold len. pose proof (qi_order s Hinv). lia. }
  pose proof Hinv as Hinv'. destruct Hinv. split; try done.
  - exact (eq_trans Hs qi_slots_length0).
  - exact (eq_trans qi_enqueue0 (eq_sym Hlog)).
  - cbn. lia.
  - rewrite <- Hlog in *. cbn [dequeue_position_ q_taken q_log set_consumer take_head set_slot] in *. lia.
  - rewrite <- Hlog in qi_bound0. exact qi_bound0.
  - exact (set_slot_window (dequeue_position_ s) v EPublished ETaken s Hinv' ltac:(lia) He).
  - intros q w st Hq. cbn [q_log q_taken set_consumer take_head set_slot] in *.
    destruct (decide (Z.to_nat (dequeue_position_ s) = q)) as [<-|Hne].
    + rewrite list_lookup_alter_eq in Hq. fold (entry_at s (dequeue_position_ s)) in Hq.
      rewrite He in Hq. injection Hq as <- <-. symmetry. apply bool_decide_false. lia.
    + rewrite list_lookup_alter_ne in Hq by done. rewrite (qi_live0 q w st Hq).
      apply bool_decide_ext. lia.
  - unfold consumer_ok. cbn [q_consumer set_consumer dequeue_position_ take_head set_slot].
    change (entry_at (set_consumer _ (take_head ?u)) ?q) with (entry_at u q).
    by rewrite entry_at_set, decide_True, He by lia.
  - intros j q Hj. apply (producer_ok_kept (dequeue_position_ s) (MkSlot None true) v EPublished ETaken s j q);
      auto; [lia|by intros [|]].
Qed.

Lemma qinv_unready v s :
  qinv s -> q_consumer s = KTaken v ->
  qinv (set_consumer (KUnready v) (set_slot (dequeue_position_ s) Slot_new ECleared s)).
Proof.
  intros Hinv Hk. pose proof (qi_taken s Hinv) as Ht. rewrite Hk in Ht. simpl in Ht.
  pose proof (qi_consumer s Hinv) as He. unfold consumer_ok in He. rewrite Hk in He.
  pose proof (set_slot_len (dequeue_position_ s) Slot_new ECleared s) as [Hs Hlog].
  pose proof Hinv as Hinv'. destruct Hinv. split; try done.
  - exact (eq_trans Hs qi_slots_length0).
  - exact (eq_trans qi_enqueue0 (eq_sym Hlog)).
  - rewrite <- Hlog in qi_order0. exact qi_order0.
  - rewrite <- Hlog in qi_bound0. exact qi_bound0.
  - exact (set_slot_window (dequeue_position_ s) v ETaken ECleared s Hinv' ltac:(lia) He).
  - intros q w st Hq. cbn [q_log q_taken set_consumer set_slot] in *.
    destruct (decide (Z.to_nat (dequeue_position_ s) = q)) as [<-|Hne].
    + rewrite list_lookup_alter_eq in Hq. fold (entry_at s (dequeue_position_ s)) in Hq.
      rewrite He in Hq. injection Hq as <- <-. symmetry. apply bool_decide_false. lia.
    + rewrite list_lookup_alter_ne in Hq by done. by apply (qi_live0 q w st).
  - unfold consumer_ok. cbn [q_consumer set_consumer dequeue_position_ set_slot].
    change (entry_at (set_consumer _ ?u) ?q) with (entry_at u q).
    by rewrite entry_at_set, decide_True, He by lia.
  - intros j q Hj. apply (producer_ok_kept (dequeue_position_ s) Slot_new v ETaken ECleared s j q);
      auto; [lia|by intros [|]].
Qed.

Lemma qinv_advance v s :
  qinv s -> len (q_log s) < 2 ^ 64 -> q_consumer s = KUnready v -> qinv (set_consumer KIdle (advance s)).
Proof.
  intros [] Hw Hk. unfold consumer_ok in *. rewrite Hk in *. simpl in qi_taken0.
  assert (Hadd : (dequeue_position_ s +u 1)%word = dequeue_position_ s + 1).
  { apply add64_small; lia. }
  split; cbn [slots_ enqueue_position_ dequeue_position_ q_log q_taken q_consumer q_producers
    set_consumer advance]; rewrite ?Hadd; try done; try (cbn; lia).
  - intros p Hp. destruct (decide (p = dequeue_position_ s + capacity_)) as [->|Hne].
    + assert (entry_at (set_consumer KIdle (advance s)) (dequeue_position_ s + capacity_) = None) as ->.
      { apply lookup_ge_None. cbn. unfold len in *. lia. }
      pose proof (qi_slots0 (dequeue_position_ s) ltac:(lia)) as Hs. rewrite qi_consumer0 in Hs.
      unfold slot_at, slot_index in *. cbn [slots_ set_consumer advance].
      replace ((dequeue_position_ s + capacity_) mod capacity_) with (dequeue_position_ s mod capacity_);
        [exact Hs|]. rewrite <- (Z_mod_plus_full (dequeue_position_ s) 1). f_equal. lia.
    + apply qi_slots0. lia.
  - intros j q Hj. specialize (qi_producers0 j q Hj). destruct q; cbn -[entry_at] in *;
      rewrite ?Hadd; try done; try lia.
Qed.

(** ** Refinement *)

Lemma abstract_lookup s k :
  abstract_queue s !! k =
  (fun x => (x.1, is_published x.2)) <$> q_log s !! (q_taken s + k)%nat.
Proof. unfold abstract_queue. by rewrite list_lookup_fmap, lookup_drop. Qed.

Lemma len_abstract s : qinv s -> len (abstract_queue s) = len (q_log s) - Z.of_nat (q_taken s).
Proof.
  intros []. unfold abstract_queue, len in *. rewrite length_fmap, length_drop. lia.
Qed.

Lemma abstract_entry s p v e :
  Z.of_nat (q_taken s) <= p -> entry_at s p = Some (v, e) ->
  abstract_queue s !! (Z.to_nat p - q_taken s)%nat = Some (v, is_published e).
Proof.
  intros Ht He. rewrite abstract_lookup.
  replace (q_taken s + (Z.to_nat p - q_taken s))%nat with (Z.to_nat p) by lia.
  fold (entry_at s p). by rewrite He.
Qed.

(** Changing the status of a live entry changes that item. *)
Lemma abstract_set_slot p x v old e s :
  0 <= p -> Z.of_nat (q_taken s) <= p -> entry_at s p = Some (v, old) ->
  abstract_queue (set_slot p x e s) =
  <[(Z.to_nat p - q_taken s)%nat := (v, is_published e)]> (abstract_queue s).
Proof.
  intros Hp Ht He. unfold entry_at in He. apply list_eq. intros k.
  destruct (decide (k = Z.to_nat p - q_taken s)%nat) as [->|Hne].
  - rewrite list_lookup_insert_eq.
    + rewrite abstract_lookup. cbn [q_log q_taken set_slot].
      replace (q_taken s + (Z.to_nat p - q_taken s))%nat with (Z.to_nat p) by lia.
      by rewrite list_lookup_alter_eq, He.
    + unfold abstract_queue. rewrite length_fmap, length_drop. apply lookup_lt_Some in He. lia.
  - rewrite list_lookup_insert_ne by done. rewrite !abstract_lookup. cbn [q_log q_taken set_slot].
    rewrite list_lookup_alter_ne by lia. done.
Qed.

Lemma abstract_reserve i v s :
  qinv s -> abstract_queue (reserve i v s) = abstract_queue s ++ [(v, false)].
Proof.
  intros []. unfold abstract_queue. cbn [q_log q_taken reserve]. unfold len in *.
  rewrite drop_app_le by lia. by rewrite fmap_app.
Qed.

Lemma abstract_take x s v :
  qinv s -> Z.of_nat (q_taken s) = dequeue_position_ s ->
  entry_at s (dequeue_position_ s) = Some (v, EPublished) ->
  abstract_queue s = (v, true) :: abstract_queue (take_head (set_slot (dequeue_position_ s) x ETaken s)).
Proof.
  intros Hinv Ht He. unfold entry_at in He. rewrite <- Ht, Nat2Z.id in He.
  unfold abstract_queue. cbn [q_log q_taken take_head set_slot]. rewrite <- Ht, Nat2Z.id.
  rewrite (drop_S _ _ _ He), drop_alter_lt by lia. done.
Qed.

(** A producer's step keeps the invariant and is a step of the abstract queue. *)
Lemma TryPush_refines i s pc e s' :
  qinv s -> len (q_log s') < 2 ^ 64 -> q_producers s !! i = Some pc -> TryPush_step i s pc e s' ->
  qinv s' /\ astep (abstract_queue s) e (abstract_queue s').
Proof.
  intros Hinv Hw Hi Hs. pose proof (qi_producers s Hinv i pc Hi) as Hok.
  pose proof (len_nonneg (q_log s)) as Hnn. pose proof (qi_enqueue s Hinv) as Henq.
  pose proof (qi_order s Hinv) as [Hd Hord]. pose proof (qi_taken s Hinv) as Htk.
  pose proof (in_hand_range (q_consumer s)) as Hh.
  destruct Hs as [v|v|v d Hfull|v d Hroom|v x|v x He|v p|p]; cbn [producer_ok] in Hok.
  - split; [by apply qinv_set_producer|constructor].
  - split; [|constructor]. apply qinv_set_producer; [done|]. simpl. lia.
  - split; [by apply qinv_set_producer|constructor].
  - split; [|constructor]. cbn [q_log set_producer] in Hw. rewrite sub64_small in Hroom by lia.
    apply qinv_set_producer; [done|]. simpl. lia.
  - split; [by apply qinv_set_producer|constructor].
  - cbn [q_log set_producer reserve] in Hw. rewrite len_app in Hw. change (len [_]) with 1 in Hw.
    subst x. split; [apply qinv_reserve; done || lia|].
    change (abstract_queue (set_producer i ?q ?u)) with (abstract_queue u).
    rewrite abstract_reserve by done. constructor. rewrite len_abstract by done. lia.
  - destruct Hok as [Hp He]. pose proof (live_window s p v _ Hinv Hp He eq_refl) as Hwin.
    rewrite (qi_slots s Hinv p), He by lia. cbn [slot_of ready_ Slot_new].
    split.
    + apply (qinv_move_entry i p v (EReserved i) (EConstructed i)); auto; [by left|].
      split; [done|]. exists v. by rewrite entry_at_set, decide_True, He by lia.
    + change (abstract_queue (set_producer i ?q ?u)) with (abstract_queue u).
      rewrite (abstract_set_slot p _ v (EReserved i)) by (done || lia).
      rewrite list_insert_id by (by apply (abstract_entry s p v (EReserved i)); lia || done).
      constructor.
  - destruct Hok as (Hp & v & He). pose proof (live_window s p v _ Hinv Hp He eq_refl) as Hwin.
    rewrite (qi_slots s Hinv p), He by lia. cbn [slot_of storage_].
    split; [apply (qinv_move_entry i p v (EConstructed i) EPublished); done || by right|].
    change (abstract_queue (set_producer i ?q ?u)) with (abstract_queue u).
    rewrite (abstract_set_slot p _ v (EConstructed i)) by (done || lia). apply a_publish.
    apply (abstract_entry s p v (EConstructed i)); lia || done.
Qed.

Lemma TryPop_refines s e s' :
  qinv s -> len (q_log s') < 2 ^ 64 -> TryPop_step s (q_consumer s) e s' ->
  qinv s' /\ astep (abstract_queue s) e (abstract_queue s').
Proof.
  intros Hinv Hw Hs. remember (q_consumer s) as pc eqn:Hk. symmetry in Hk.
  pose proof (qi_taken s Hinv) as Ht. rewrite Hk in Ht. simpl in Ht.
  pose proof (qi_consumer s Hinv) as Hc. unfold consumer_ok in Hc. rewrite Hk in Hc.
  pose proof (qi_order s Hinv) as [Hd Ho]. pose proof (qi_enqueue s Hinv) as Henq.
  pose proof (qi_slots s Hinv (dequeue_position_ s) ltac:(lia)) as Hsl.
  destruct Hs as [He|Hne|Hr|Hr|v Hv|v|v]; cbn [in_hand] in Ht.
  - split; [done|]. constructor. intros v b Hh.
    assert (abstract_queue s = []) as E; [|by rewrite E in Hh].
    apply len_0_nil. rewrite len_abstract by done. lia.
  - split; [|constructor]. apply qinv_set_consumer; [done|by rewrite Hk|]. cbn in Ht |- *.
    unfold consumer_ok. cbn. lia.
  - split; [apply qinv_set_consumer; [done|by rewrite Hk|done]|].
    change (abstract_queue (set_consumer ?q s)) with (abstract_queue s). constructor.
    intros v b Hh. rewrite head_lookup, abstract_lookup, Nat.add_0_r in Hh.
    rewrite Hsl in Hr. unfold entry_at in Hr. rewrite Z.add_0_r in Ht. rewrite <- Ht, Nat2Z.id in Hr.
    destruct (q_log s !! q_taken s) as [[w x]|]; [|done]. injection Hh as <- <-. by destruct x.
  - split; [|constructor]. apply qinv_set_consumer; [done|by rewrite Hk|]. unfold consumer_ok.
    cbn [q_consumer set_consumer]. rewrite Hsl in Hr.
    change (entry_at (set_consumer ?q s) ?p) with (entry_at s p). cbn [dequeue_position_ set_consumer].
    destruct (entry_at s (dequeue_position_ s)) as [[w x]|] eqn:E; [|done].
    pose proof (qi_live s Hinv _ _ _ E) as Hl. rewrite bool_decide_true in Hl by lia.
    destruct x; try done. by exists w.
  - destruct Hc as [w Hc]. rewrite Hsl, Hc in Hv |- *. injection Hv as ->. cbn [slot_of ready_].
    split; [by apply qinv_take|]. change (abstract_queue (set_consumer ?q ?u)) with (abstract_queue u).
    rewrite (abstract_take (MkSlot None true) s v) by (done || lia). constructor.
  - rewrite Hsl, Hc. cbn [slot_of storage_]. fold Slot_new. split; [by apply qinv_unready|].
    change (abstract_queue (set_consumer ?q ?u)) with (abstract_queue u).
    assert (abstract_queue (set_slot (dequeue_position_ s) Slot_new ECleared s) = abstract_queue s) as ->;
      [|constructor].
    unfold abstract_queue. cbn [q_log q_taken set_slot]. by rewrite drop_alter_lt by lia.
  - split; [by eapply qinv_advance|constructor].
Qed.

(** ** Runs *)

Inductive qrun (s : mpsc) : list qevent -> mpsc -> Prop :=
  | qrun_nil : qrun s [] s
  | qrun_snoc es e s1 s2 : qrun s es s1 -> qstep s1 e s2 -> qrun s (es ++ [e]) s2.

Lemma qrun_cons s e s1 es s2 : qstep s e s1 -> qrun s1 es s2 -> qrun s (e :: es) s2.
Proof.
  intros Hs Hr. induction Hr as [|es e' s3 s4 Hr IH Hs'].
  - apply (qrun_snoc s [] e s s1); [constructor|done].
  - change (e :: es ++ [e']) with ((e :: es) ++ [e']). by eapply qrun_snoc.
Qed.

Inductive arun (q : aqueue) : list qevent -> aqueue -> Prop :=
  | arun_nil : arun q [] q
  | arun_snoc es e q1 q2 : arun q es q1 -> astep q1 e q2 -> arun q (es ++ [e]) q2.

(** The values reserved and taken in a run, in order. *)
Definition reserved_values (es : list qevent) : list T :=
  omap (fun e => match e with QReserve v => Some v | _ => None end) es.
Definition popped_values (es : list qevent) : list T :=
  omap (fun e => match e with QPop v => Some v | _ => None end) es.

Lemma arun_fifo es q :
  arun [] es q -> reserved_values es = popped_values es ++ q.*1 /\ len q <= capacity_.
Proof.
  induction 1 as [|es e q1 q2 Hr IH Hs]; [split; [done|]|].
  { rewrite len_nil. lia. }
  destruct IH as [IH Hl]. unfold reserved_values, popped_values in *.
  rewrite !omap_app, IH.
  destruct Hs as [q|q v Hroom|q k v Hk|q v|q]; cbn [omap list_omap]; rewrite ?app_nil_r.
  - done.
  - rewrite fmap_app, app_assoc. split; [done|]. rewrite len_app. change (len [_]) with 1. lia.
  - rewrite list_fmap_insert. rewrite list_insert_id; [|by rewrite list_lookup_fmap, Hk].
    split; [done|]. unfold len in *. by rewrite length_insert.
  - rewrite fmap_cons, len_cons in *. split; [by rewrite <- app_assoc|lia].
  - done.
Qed.

Lemma qstep_log s e s' : qstep s e s' -> len (q_log s) <= len (q_log s').
Proof.
  intros [i pc _ Hs|Hs]; destruct Hs; cbn [q_log set_producer set_consumer set_slot reserve take_head
    advance]; unfold len; rewrite ?length_app, ?length_alter; simpl; lia.
Qed.

Lemma qinv_new n s : MpscQueue_new n = inr s -> qinv s /\ abstract_queue s = [].
Proof.
  unfold MpscQueue_new. destruct (capacity_ =? 0); [done|]. intros [= <-]. split; [|done].
  split; cbn [slots_ enqueue_position_ dequeue_position_ q_log q_taken q_consumer q_producers];
    try done.
  - unfold len. rewrite length_replicate. lia.
  - change (0 - 0 <= capacity_). lia.
  - intros p Hp. unfold slot_at, entry_at. cbn [slots_ q_log]. rewrite lookup_nil.
    destruct (_ !! slot_index p) eqn:E; [|done]. by apply lookup_replicate in E as [-> _].
  - intros i pc Hi. by apply lookup_replicate in Hi as [-> _].
Qed.

Lemma qrun_refines n s0 es s :
  MpscQueue_new n = inr s0 -> qrun s0 es s -> len (q_log s) < 2 ^ 64 ->
  qinv s /\ arun [] es (abstract_queue s).
Proof.
  intros Hnew Hr. induction Hr as [|es e s1 s2 Hr IH Hs]; intros Hw.
  - destruct (qinv_new n s0 Hnew) as [Hi ->]. split; [done|constructor].
  - pose proof (qstep_log _ _ _ Hs). destruct IH as [Hi Ha]; [lia|].
    assert (qinv s2 /\ astep (abstract_queue s1) e (abstract_queue s2)) as [Hi' Hst].
    { destruct Hs as [i pc Hpc Hs|Hs]; [by eapply TryPush_refines|by eapply TryPop_refines]. }
    split; [done|]. by econstructor.
Qed.

(** Every slot is the slot of one position of the window. *)
Lemma slot_in_window s k :
  qinv s -> (k < length (slots_ s))%nat ->
  exists p, dequeue_position_ s <= p < dequeue_position_ s + capacity_ /\ slot_index p = k.
Proof.
  intros [] Hk. unfold len in *. set (d := dequeue_position_ s) in *.
  pose proof (Z.mod_pos_bound (Z.of_nat k - d) capacity_ capacity_pos).
  exists (d + (Z.of_nat k - d) mod capacity_). split; [lia|]. unfold slot_index.
  rewrite Zplus_mod_idemp_r. replace (d + (Z.of_nat k - d)) with (Z.of_nat k) by lia.
  rewrite Z.mod_small by lia. lia.
Qed.

(** With no push in progress, the destructor leaves no value behind. *)
Lemma MpscQueue_destroy_complete s :
  qinv s -> (forall p v i, q_log s !! p <> Some (v, EConstructed i)) ->
  forall slot, slot ∈ MpscQueue_destroy s -> storage_ slot = None.
Proof.
  intros Hinv Ho slot Hin. unfold MpscQueue_destroy in Hin.
  apply list_elem_of_fmap in Hin as (x & -> & Hx). apply list_elem_of_lookup in Hx as [k Hx].
  destruct (slot_in_window s k Hinv ltac:(by eapply lookup_lt_Some)) as (p & Hwin & Hidx).
  pose proof (qi_slots s Hinv p Hwin) as Hs. unfold slot_at in Hs. rewrite Hidx, Hx in Hs. simpl in Hs.
  subst x. unfold entry_at. destruct (q_log s !! Z.to_nat p) as [[v []]|] eqn:E; simpl; auto.
  by apply Ho in E.
Qed.

(** ** Properties *)

(** C17: the lock-free queue refines a bounded list.  For every interleaving of
    any number of producers with the consumer (fewer than 2^64 values): every
    step is a step of the abstract queue, which never holds more than [capacity]
    items; the values reserved are the values popped followed by the values
    still queued, so they come out in order of reservation, each once; a
    producer about to construct its value finds the slot empty; and a consumer
    about to take a value finds one. *)
Theorem MpscQueue_refines n s0 es s :
  MpscQueue_new n = inr s0 -> qrun s0 es s -> len (q_log s) < 2 ^ 64 ->
  arun [] es (abstract_queue s) /\
  len (abstract_queue s) <= capacity_ /\
  reserved_values es = popped_values es ++ (abstract_queue s).*1 /\
  (forall i v p, q_producers s !! i = Some (PReserved v p) -> slot_at s p = Slot_new) /\
  (q_consumer s = KReady -> is_Some (storage_ (slot_at s (dequeue_position_ s)))).
Proof.
  intros Hnew Hr Hw. destruct (qrun_refines n s0 es s Hnew Hr Hw) as [Hinv Ha].
  destruct (arun_fifo es _ Ha) as [Hf Hl]. pose proof (qi_order s Hinv) as [Hd _].
  split_and!; [done..| |].
  - intros i v p Hi. destruct (qi_producers s Hinv i _ Hi) as [Hp He].
    pose proof (live_window s p v _ Hinv Hp He eq_refl). pose proof (qi_taken s Hinv).
    pose proof (in_hand_range (q_consumer s)). by rewrite (qi_slots s Hinv), He by lia.
  - intros Hk. pose proof (qi_consumer s Hinv) as Hc. unfold consumer_ok in Hc. rewrite Hk in Hc.
    destruct Hc as [v Hc]. rewrite (qi_slots s Hinv), Hc by lia. by eexists.
Qed.

End mpsc.

(** *** Witness: a value is pushed and about to be taken *)

Definition example_queue : @mpsc Z :=
  MkMpsc 1 0 [MkSlot (Some 42) true; Slot_new] [PIdle] KReady [(42, EPublished)] 0.

Definition example_new : @mpsc Z := MkMpsc 0 0 [Slot_new; Slot_new] [PIdle] KIdle [] 0.

Definition example_events : list (@qevent Z) :=
  [QTau; QTau; QTau; QReserve 42; QTau; QPublish 0; QTau; QTau].

Lemma example_queue_run : qrun 2 example_new example_events example_queue.
Proof.
  eapply qrun_cons; [eapply (qstep_producer _ _ _ _ 0); [reflexivity|apply (push_start _ _ _ 42)]|].
  eapply qrun_cons; [eapply (qstep_producer _ _ _ _ 0); [reflexivity|apply push_load_dequeue]|].
  eapply qrun_cons; [eapply (qstep_producer _ _ _ _ 0); [reflexivity|by apply push_load_enqueue]|].
  eapply qrun_cons; [eapply (qstep_producer _ _ _ _ 0); [reflexivity|by apply push_cas]|].
  eapply qrun_cons; [eapply (qstep_producer _ _ _ _ 0); [reflexivity|apply push_construct]|].
  eapply qrun_cons; [eapply (qstep_producer _ _ _ _ 0); [reflexivity|apply push_publish]|].
  eapply qrun_cons; [apply qstep_consumer; by apply pop_load_enqueue|].
  eapply qrun_cons; [apply qstep_consumer; by apply pop_ready|].
  match goal with |- qrun _ ?x _ _ => assert (x = example_queue) as -> by (vm_compute; reflexivity) end.
  apply qrun_nil.
Qed.

Lemma MpscQueue_refines_witness :
  is_Some (storage_ (slot_at 2 example_queue 0)) /\ reserved_values example_events = [42].
Proof.
  destruct (MpscQueue_refines (T := Z) 2 ltac:(reflexivity) 1 example_new example_events example_queue
    eq_refl example_queue_run ltac:(vm_compute; reflexivity)) as (_ & _ & Hf & _ & Hk).
  split; [exact (Hk eq_refl)|exact Hf].
Defined.
