(* ===== verification/ConnectionIoLoop.v ===== *)
(** * The connection I/O loop

    Models [src/server/connection_io_loop.cpp] and its header: the lifecycle of
    a loop, connection ids, the map of connections and the callbacks the I/O
    thread runs on it, and the counters kept over all connections.  The channel
    of worker results is in the file ResultChannel.

    The connections are those of ServerConnection: a callback on a connection
    runs with the loop's counters and gives them back.  What the environment
    decides is an argument of the event: whether the context accepts operations,
    the order in which the hash map is walked.

    The theorems compose the invariant of one connection into one of the loop:
    the counters are the sums over the connections, ids are never used twice, no
    callback aborts, and a draining loop whose connections have finished their
    work has none left open. *)

From S2P Require Import Prelude Status FrameHeader FrameCodec FrameStream ServiceRegistry BufferPool ServerConfig ServerConnection.

Local Open Scope Z_scope.

(** ** State *)

Inductive LoopState := LCreated | LRunning | LDraining | LStopped.

#[global] Instance LoopState_eq_dec : EqDecision LoopState.
Proof. solve_decision. Defined.

(** [refused_sockets] counts the sockets closed without a connection;
    [drain_begun] records that [BeginDrainOnContext] ran. *)
Record IoLoop := MkIoLoop {
  loop_state_ : LoopState;
  loop_acct_ : LoopAccounting;
  connections_ : gmap Z ServerConnection;
  next_connection_id_ : Z;
  loop_error_ : Status;
  loop_joinable : bool;
  drain_begun : bool;
  refused_sockets : nat
}.

Definition IoLoop_new : IoLoop :=
  MkIoLoop LCreated (MkLoopAccounting 0 0 0) ∅ 1 Status_Ok false false 0.

Definition set_loop_state (x : LoopState) (l : IoLoop) : IoLoop :=
  MkIoLoop x (loop_acct_ l) (connections_ l) (next_connection_id_ l) (loop_error_ l)
    (loop_joinable l) (drain_begun l) (refused_sockets l).

Definition set_connections (m : gmap Z ServerConnection) (a : LoopAccounting) (l : IoLoop) : IoLoop :=
  MkIoLoop (loop_state_ l) a m (next_connection_id_ l) (loop_error_ l) (loop_joinable l)
    (drain_begun l) (refused_sockets l).

Definition set_next_id (x : Z) (l : IoLoop) : IoLoop :=
  MkIoLoop (loop_state_ l) (loop_acct_ l) (connections_ l) x (loop_error_ l) (loop_joinable l)
    (drain_begun l) (refused_sockets l).

Definition set_joinable (x : bool) (l : IoLoop) : IoLoop :=
  MkIoLoop (loop_state_ l) (loop_acct_ l) (connections_ l) (next_connection_id_ l) (loop_error_ l) x
    (drain_begun l) (refused_sockets l).

Definition mark_drain (l : IoLoop) : IoLoop :=
  MkIoLoop (loop_state_ l) (loop_acct_ l) (connections_ l) (next_connection_id_ l) (loop_error_ l)
    (loop_joinable l) true (refused_sockets l).

(** [client_socket.Close()] *)
Definition refuse_socket (l : IoLoop) : IoLoop :=
  MkIoLoop (loop_state_ l) (loop_acct_ l) (connections_ l) (next_connection_id_ l) (loop_error_ l)
    (loop_joinable l) (drain_begun l) (S (refused_sockets l)).

(** ** Callbacks on one connection *)

(** The connection runs with the counters of the loop. *)
Definition with_acct (a : LoopAccounting) (c : ServerConnection) : ServerConnection :=
  ServerConnection.set_pending (pending_write_bytes_ c) a c.

Definition on_connection (id : Z) (f : ServerConnection -> option ServerConnection) (l : IoLoop)
    : option IoLoop :=
  match connections_ l !! id with
  | None => Some l
  | Some c =>
      c' ← f (with_acct (loop_acct_ l) c);
      Some (set_connections (<[id := c']> (connections_ l)) (owner_acct_ c') l)
  end.

(** A walk over the connections in the order [ids], each with the context's
    answer to an operation it may start. *)
Fixpoint for_each_connection (f : bool -> ServerConnection -> option ServerConnection)
    (ids : list (Z * bool)) (l : IoLoop) : option IoLoop :=
  match ids with
  | [] => Some l
  | (id, send_ok) :: ids => l ← on_connection id (f send_ok) l; for_each_connection f ids l
  end.

(** ** Operations on the I/O thread *)

Definition AllocateConnectionId (l : IoLoop) : option (Z * IoLoop) :=
  let connection_id := next_connection_id_ l in
  if connection_id =? 0 then Abort "ConnectionIoLoop exhausted the connection ID space" else
  Some (connection_id, set_next_id (next_connection_id_ l +u 1)%word l).

Definition CollectClosedConnections (l : IoLoop) : IoLoop :=
  set_connections (filter (fun x => CanBeCollected x.2 = false) (connections_ l)) (loop_acct_ l) l.

Section loop.
Context (config_ : ServerConnectionConfig).

Definition StartConnectionOnContext (send_ok recv_ok : bool) (l : IoLoop) : option IoLoop :=
  if negb (bool_decide (loop_state_ l = LRunning)) then Some (refuse_socket l) else
  '(connection_id, l) ← AllocateConnectionId l;
  let a := loop_acct_ l in
  let connection := ServerConnection_new config_ a in
  if bool_decide (is_Some (connections_ l !! connection_id)) then
    Abort "ConnectionIoLoop generated a duplicate connection ID"
  else
    let a := MkLoopAccounting (loop_pending_write_bytes_ a) (loop_pending_write_bytes_peak_ a)
               (live_connections_ a +u 1)%word in
    on_connection connection_id (ServerConnection_Start send_ok recv_ok)
      (set_connections (<[connection_id := connection]> (connections_ l)) a l).

Definition CloseConnectionsOnContext (ids : list (Z * bool)) (l : IoLoop) : option IoLoop :=
  l ← for_each_connection (fun send_ok c => if is_closed c then Some c else Close send_ok c) ids l;
  Some (CollectClosedConnections l).

Definition BeginDrainOnContext (ids : list (Z * bool)) (l : IoLoop) : option IoLoop :=
  l ← for_each_connection BeginDrain ids l;
  Some (mark_drain l).

Definition HandleWorkerResult (send_ok alloc_ok : bool) (result : WorkerResult) (l : IoLoop)
    : option IoLoop :=
  on_connection (result_connection_id_ result)
    (fun connection =>
       if encode_failed_ result then
         OnResponseEncodeFailure send_ok (released_requests_ result) connection
       else
         OnResponsesEncoded send_ok alloc_ok (response_bytes_ result) (released_requests_ result)
           connection) l.

(** ** Owner thread *)

Definition IoLoop_Start (l : IoLoop) : IoLoop :=
  if negb (bool_decide (loop_state_ l = LCreated)) then l
  else set_loop_state LRunning (set_joinable true l).

(** The returned flag says that [BeginDrainOnContext] was posted. *)
Definition IoLoop_BeginDrain (l : IoLoop) : bool * IoLoop :=
  if bool_decide (loop_state_ l = LCreated) then (false, set_loop_state LStopped l)
  else if negb (bool_decide (loop_state_ l = LRunning)) then (false, l)
  else (true, set_loop_state LDraining l).

(** [FinishDrain] after its [BeginDrain]: [None] while it waits for the live
    connections; with none left it stops the context, joins its thread and
    drops the connections. *)
Definition FinishDrain_wait (l : IoLoop) : option (Status * IoLoop) :=
  if bool_decide (loop_state_ l = LStopped) then Some (loop_error_ l, l)
  else if negb (live_connections_ (loop_acct_ l) =? 0) then None
  else
    let l := set_connections ∅ (loop_acct_ l) (set_joinable false l) in
    Some (loop_error_ l, set_loop_state LStopped l).

(** The returned flag says that the start of the connection was posted. *)
Definition PostStartConnection (l : IoLoop) : bool * IoLoop :=
  if negb (bool_decide (loop_state_ l = LRunning)) then (false, refuse_socket l) else (true, l).

(** [StopImmediately]: the flag says that it posted [CloseConnectionsOnContext]
    and asked the context to stop, and joins the thread. *)
Definition StopImmediately (l : IoLoop) : bool * IoLoop :=
  if bool_decide (loop_state_ l = LCreated \/ loop_state_ l = LStopped)
  then (false, set_loop_state LStopped l)
  else if negb (loop_joinable l) then (false, set_loop_state LStopped l)
  else (true, l).

Definition StopImmediately_joined (l : IoLoop) : IoLoop :=
  set_loop_state LStopped (set_joinable false l).

(** [RequestStats] throws unless the loop runs and the caller is another
    thread. *)
Definition RequestStats_allowed (on_loop_thread : bool) (l : IoLoop) : bool :=
  bool_decide (loop_state_ l = LRunning) && negb on_loop_thread.

(** Its callback: live connections, pending bytes and their peak; a new window
    starts the peak again.  The counters of worker results are left out. *)
Definition RequestStats_callback (start_window : bool) (l : IoLoop) : (Z * Z * Z) * IoLoop :=
  let a := loop_acct_ l in
  let a := if start_window
           then MkLoopAccounting (loop_pending_write_bytes_ a) (loop_pending_write_bytes_ a)
                  (live_connections_ a)
           else a in
  ((live_connections_ a, loop_pending_write_bytes_ a, loop_pending_write_bytes_peak_ a),
   set_connections (connections_ l) a l).

(** ** Sums over the connections *)

Definition msum (f : ServerConnection -> Z) (m : gmap Z ServerConnection) : Z :=
  zsum (fun x => f x.2) (map_to_list m).

Lemma msum_empty f : msum f ∅ = 0.
Proof. unfold msum. by rewrite map_to_list_empty. Qed.

Lemma msum_insert f m k c : m !! k = None -> msum f (<[k := c]> m) = f c + msum f m.
Proof. intros H. unfold msum. by rewrite (zsum_perm _ _ _ (map_to_list_insert m k c H)). Qed.

Lemma msum_delete f m k c : m !! k = Some c -> msum f m = f c + msum f (delete k m).
Proof.
  intros H. rewrite <- (insert_delete_id m k c H) at 1. apply msum_insert, lookup_delete_eq.
Qed.

Lemma msum_update f m k c c' : m !! k = Some c -> msum f (<[k := c']> m) = msum f m - f c + f c'.
Proof.
  intros H. rewrite <- insert_delete_eq, msum_insert by apply lookup_delete_eq.
  rewrite (msum_delete f m k c H). lia.
Qed.

Lemma msum_nonneg f m : (forall k c, m !! k = Some c -> 0 <= f c) -> 0 <= msum f m.
Proof.
  intros H. apply zsum_nonneg. intros [k c] Hin. apply elem_of_map_to_list in Hin. by eapply H.
Qed.

Lemma msum_le f m b :
  (forall k c, m !! k = Some c -> f c <= b) -> msum f m <= Z.of_nat (size m) * b.
Proof.
  induction m as [|k c m Hk IH] using map_ind; intros Hf.
  - rewrite msum_empty, map_size_empty. lia.
  - rewrite msum_insert, map_size_insert_None by done.
    pose proof (Hf k c (lookup_insert_eq _ _ _)).
    assert (msum f m <= Z.of_nat (size m) * b); [|lia]. apply IH. intros k' c' Hk'.
    apply (Hf k'). rewrite lookup_insert_ne; [done|]. congruence.
Qed.

(** Entries with value 0 do not count. *)
Lemma msum_filter f (P : Z * ServerConnection -> Prop) `{!forall x, Decision (P x)} m :
  (forall k c, m !! k = Some c -> ~ P (k, c) -> f c = 0) -> msum f (filter P m) = msum f m.
Proof.
  induction m as [|k c m Hk IH] using map_ind; intros Hf.
  - by rewrite map_filter_empty.
  - assert (msum f (filter P m) = msum f m) as IH'.
    { apply IH. intros k' c' Hk'. apply (Hf k'). rewrite lookup_insert_ne; [done|]. congruence. }
    rewrite (msum_insert f m k c) by done. destruct (decide (P (k, c))) as [HP|HP].
    + rewrite map_filter_insert_True by done. rewrite msum_insert, IH'; [done|].
      by apply map_lookup_filter_None_2; left.
    + rewrite map_filter_insert_False, delete_id by done. rewrite IH', (Hf k c); [lia| |done].
      apply lookup_insert_eq.
Qed.

(** ** Invariant *)

Definition is_open (c : ServerConnection) : Z := if is_closed c then 0 else 1.

(** A connection that is in order, apart from the counters of the loop. *)
Definition conn_ok (c : ServerConnection) : Prop :=
  conn_config_ c = config_ /\ exists rest live a, conn_inv rest live (with_acct a c).

Record loop_inv (l : IoLoop) : Prop := {
  li_connections : forall id c, connections_ l !! id = Some c -> conn_ok c;
  li_ids : forall id c, connections_ l !! id = Some c ->
    0 < id < 2 ^ 64 /\ (next_connection_id_ l <> 0 -> id < next_connection_id_ l);
  li_next : 0 <= next_connection_id_ l < 2 ^ 64;
  li_pending : loop_pending_write_bytes_ (loop_acct_ l) = msum pending_write_bytes_ (connections_ l);
  li_live : live_connections_ (loop_acct_ l) = msum is_open (connections_ l);
  li_memory : Z.of_nat (size (connections_ l)) * max_write_queue_bytes_ (limits_ config_) < 2 ^ 64;
  li_count : Z.of_nat (size (connections_ l)) < 2 ^ 64;
  li_drain : drain_begun l = true ->
    loop_state_ l <> LCreated /\ loop_state_ l <> LRunning /\
    forall id c, connections_ l !! id = Some c -> state_ c <> Active
}.

Lemma is_open_range c : 0 <= is_open c <= 1.
Proof. unfold is_open. destruct (is_closed c); lia. Qed.

Lemma is_open_closed c : is_open c = 0 <-> state_ c = Closed.
Proof. unfold is_open, is_closed. case_bool_decide; split; congruence || lia. Qed.

Lemma is_open_open c : is_open c = 1 <-> state_ c <> Closed.
Proof. unfold is_open, is_closed. case_bool_decide; split; congruence || lia. Qed.

Lemma conn_ok_pending c :
  conn_ok c -> 0 <= pending_write_bytes_ c <= max_write_queue_bytes_ (limits_ config_).
Proof.
  intros (Hcfg & rest & live & a & (_ & _ & _ & _ & _ & _ & _ & Hp & _) & _).
  simpl in Hp. by rewrite Hcfg in Hp.
Qed.

(** The invariant of a connection for the counters it really runs with. *)
Lemma conn_inv_reacct rest live a c :
  conn_ok c -> 0 <= rest -> 0 <= live ->
  rest + max_write_queue_bytes_ (limits_ config_) < 2 ^ 64 ->
  loop_pending_write_bytes_ a = rest + pending_write_bytes_ c ->
  live_connections_ a = live + is_open c -> conn_inv rest live (with_acct a c).
Proof.
  intros (Hcfg & rest0 & live0 & a0 & Hcore & Hrest) Hr Hl Hm Hp Hlv.
  destruct Hcore as (C1&C2&C3&C4&_&_&_&C8&_&C10&C11).
  split; [|exact Hrest]. unfold core. cbn in *. rewrite Hcfg in *.
  split_and!; try done; try lia.
  - intros Hc. destruct (C10 Hc) as (?&?&?&?&_). split_and!; try done.
    apply is_open_closed in Hc. lia.
  - intros Hc. destruct (C11 Hc) as [? _]. split; [done|]. apply is_open_open in Hc. lia.
Qed.

Lemma with_acct_self c : with_acct (owner_acct_ c) c = c.
Proof. by destruct c. Qed.

(** The counters of a connection that runs beside all the others. *)
Lemma live_of rest live c :
  conn_inv rest live c -> live_connections_ (owner_acct_ c) = live + is_open c.
Proof.
  intros ((_&_&_&_&_&_&_&_&_&Hcl&Hop)&_). destruct (decide (state_ c = Closed)) as [E|E].
  - rewrite (proj2 (is_open_closed c) E). destruct (Hcl E) as (_&_&_&_&?). lia.
  - rewrite (proj2 (is_open_open c) E). by destruct (Hop E).
Qed.

(** The counters without one connection. *)
Lemma loop_rest l id c :
  loop_inv l -> connections_ l !! id = Some c ->
  let rest := msum pending_write_bytes_ (delete id (connections_ l)) in
  let live := msum is_open (delete id (connections_ l)) in
  conn_inv rest live (with_acct (loop_acct_ l) c) /\
  msum pending_write_bytes_ (connections_ l) = rest + pending_write_bytes_ c /\
  msum is_open (connections_ l) = live + is_open c.
Proof.
  intros [] Hc rest live.
  pose proof (msum_delete pending_write_bytes_ _ _ _ Hc) as E1.
  pose proof (msum_delete is_open _ _ _ Hc) as E2.
  assert (Hbound : rest <= Z.of_nat (size (delete id (connections_ l))) * max_write_queue_bytes_ (limits_ config_)).
  { apply msum_le. intros k x Hk. apply lookup_delete_Some in Hk as [_ Hk]. by apply conn_ok_pending, (li_connections0 k). }
  rewrite map_size_delete_Some in Hbound by eauto.
  assert (size (connections_ l) <> 0%nat).
  { intros Hz. apply map_size_empty_inv in Hz. rewrite Hz in Hc. by rewrite lookup_empty in Hc. }
  pose proof (conn_ok_pending c (li_connections0 _ _ Hc)).
  split; [|split; unfold rest, live; lia]. apply conn_inv_reacct.
  - by eapply li_connections0.
  - apply msum_nonneg. intros k x Hk. apply lookup_delete_Some in Hk as [_ Hk].
    by apply conn_ok_pending, (li_connections0 k).
  - apply msum_nonneg. intros k x _. apply is_open_range.
  - nia.
  - unfold rest. lia.
  - unfold live. lia.
Qed.

(** What a callback does to the loop. *)
Definition loop_evolves (l l' : IoLoop) : Prop :=
  loop_state_ l' = loop_state_ l /\ next_connection_id_ l' = next_connection_id_ l /\
  drain_begun l' = drain_begun l /\
  forall id, match connections_ l !! id, connections_ l' !! id with
             | Some c, Some c' => evolves c c'
             | None, None => True
             | _, _ => False
             end.

Lemma loop_evolves_refl l : loop_evolves l l.
Proof. split_and!; try done. intros id. destruct (_ !! id); [apply evolves_refl|done]. Qed.

Lemma loop_evolves_trans l1 l2 l3 : loop_evolves l1 l2 -> loop_evolves l2 l3 -> loop_evolves l1 l3.
Proof.
  intros (A1&A2&A3&A) (B1&B2&B3&B). split_and!; try congruence. intros id.
  specialize (A id). specialize (B id).
  destruct (connections_ l1 !! id), (connections_ l2 !! id), (connections_ l3 !! id); try done.
  by eapply evolves_trans.
Qed.

Lemma evolves_not_active c c' : evolves c c' -> state_ c <> Active -> state_ c' <> Active.
Proof.
  intros (_&_&_&_&Hcl&Hdr) Hn. destruct (state_ c); [done|by apply Hdr|].
  destruct Hcl as [-> _]; done.
Qed.

(** A callback on one connection keeps the invariant of the loop when it keeps
    the one of the connection. *)
Lemma on_connection_inv l id f :
  loop_inv l ->
  (forall c rest live, connections_ l !! id = Some c ->
     conn_inv rest live (with_acct (loop_acct_ l) c) ->
     exists c', f (with_acct (loop_acct_ l) c) = Some c' /\ conn_inv rest live c' /\ evolves c c') ->
  exists l', on_connection id f l = Some l' /\ loop_inv l' /\ loop_evolves l l'.
Proof.
  intros Hinv Hf. unfold on_connection. destruct (connections_ l !! id) as [c|] eqn:Hc.
  2: { exists l. auto using loop_evolves_refl. }
  destruct (loop_rest l id c Hinv Hc) as (Hci & Hp & Hl).
  destruct (Hf c _ _ eq_refl Hci) as (c' & -> & Hci' & Hev). cbn [mbind option_bind].
  eexists. split; [done|]. pose proof Hci' as ((_&_&_&_&_&_&_&_&Ha&_)&_).
  pose proof (live_of _ _ _ Hci') as Hlive.
  assert (Hsz : size (<[id:=c']> (connections_ l)) = size (connections_ l)).
  { apply map_size_insert_Some. eauto. }
  split; [|split_and!; try done].
  - destruct Hinv. split; cbn [connections_ set_connections loop_acct_ next_connection_id_
      loop_state_ drain_begun]; rewrite ?Hsz; try done.
    + intros k x Hk. apply lookup_insert_Some in Hk as [[<- <-]|[_ Hk]]; [|by eapply li_connections0].
      split; [|do 2 eexists; exists (owner_acct_ c'); rewrite with_acct_self; exact Hci'].
      destruct Hev as (-> & _). by destruct (li_connections0 id c Hc).
    + intros k x Hk. apply lookup_insert_Some in Hk as [[<- <-]|[_ Hk]]; eauto.
    + rewrite (msum_update _ _ _ c) by done. lia.
    + rewrite (msum_update _ _ _ c) by done. lia.
    + intros Hd. destruct (li_drain0 Hd) as (?&?&Ha'). split_and!; try done.
      intros k x Hk. apply lookup_insert_Some in Hk as [[<- <-]|[_ Hk]]; [|by eapply Ha'].
      eapply evolves_not_active; [done|]. by eapply Ha'.
  - intros k. cbn [connections_ set_connections]. destruct (decide (id = k)) as [<-|Hne].
    + by rewrite lookup_insert_eq, Hc.
    + rewrite lookup_insert_ne by done. destruct (connections_ l !! k); [apply evolves_refl|done].
Qed.

Lemma for_each_connection_inv f ids l :
  loop_inv l ->
  (forall send_ok rest live c, conn_inv rest live c ->
     exists c', f send_ok c = Some c' /\ conn_inv rest live c' /\ evolves c c') ->
  exists l', for_each_connection f ids l = Some l' /\ loop_inv l' /\ loop_evolves l l'.
Proof.
  intros Hinv Hf. revert l Hinv. induction ids as [|[id b] ids IH]; intros l Hinv.
  { exists l. auto using loop_evolves_refl. }
  destruct (on_connection_inv l id (f b) Hinv) as (l1 & E & Hinv1 & Hev).
  { intros c rest live _ Hc. destruct (Hf b rest live _ Hc) as (c' & ? & ? & ?). by exists c'. }
  destruct (IH l1 Hinv1) as (l2 & E2 & Hinv2 & Hev2). exists l2. simpl. rewrite E. simpl.
  eauto using loop_evolves_trans.
Qed.

Lemma CollectClosed_inv l : loop_inv l -> loop_inv (CollectClosedConnections l).
Proof.
  intros []. unfold CollectClosedConnections.
  assert (Hzero : forall k c, connections_ l !! k = Some c -> ~ CanBeCollected c = false ->
    pending_write_bytes_ c = 0 /\ is_open c = 0).
  { intros k c Hk Hc. apply not_false_is_true in Hc. unfold CanBeCollected in Hc.
    apply andb_prop in Hc as [Hc _]. apply andb_prop in Hc as [Hc _].
    unfold is_open. rewrite Hc. apply bool_decide_eq_true in Hc.
    destruct (li_connections0 k c Hk) as (_ & r & lv & a & (_&_&_&_&_&_&_&_&_&Hcl&_) & _).
    by destruct (Hcl Hc). }
  assert (Hin : forall k c, filter (fun x => CanBeCollected x.2 = false) (connections_ l) !! k = Some c ->
    connections_ l !! k = Some c) by (intros k c Hk; by apply map_lookup_filter_Some in Hk as [? _]).
  assert (Hsz : (size (filter (fun x => CanBeCollected x.2 = false) (connections_ l)) <=
    size (connections_ l))%nat) by (apply map_subseteq_size, map_filter_subseteq).
  split; cbn [connections_ set_connections loop_acct_ next_connection_id_ loop_state_ drain_begun];
    try done; eauto.
  - rewrite msum_filter; [done|]. intros k c Hk Hc. by destruct (Hzero k c Hk Hc).
  - rewrite msum_filter; [done|]. intros k c Hk Hc. by destruct (Hzero k c Hk Hc).
  - assert (0 <= max_write_queue_bytes_ (limits_ config_) \/ connections_ l = ∅) as [Hm|Hm].
    { destruct (map_choose_or_empty (connections_ l)) as [(k & c & Hk)|]; [left|by right].
      pose proof (conn_ok_pending c (li_connections0 k c Hk)). lia. }
    + nia.
    + rewrite Hm, map_filter_empty, map_size_empty. lia.
  - lia.
  - intros Hd. destruct (li_drain0 Hd) as (?&?&Ha). split_and!; try done. eauto.
Qed.

Lemma next_id_ok next :
  0 < next < 2 ^ 64 -> 0 <= (next +u 1)%word < 2 ^ 64 /\
  ((next +u 1)%word <> 0 -> (next +u 1)%word = next + 1).
Proof.
  intros Hn. split; [apply is_u_wrap; lia|]. intros Hne. destruct (decide (next + 1 < 2 ^ 64)) as [Hlt|Hge].
  - apply add64_small; lia.
  - exfalso. apply Hne. unfold add64, wrap. replace (next + 1) with (2 ^ 64) by lia. done.
Qed.

(** A connection is added under the next id. *)
Lemma loop_inv_insert l c :
  loop_inv l -> next_connection_id_ l <> 0 -> loop_state_ l = LRunning ->
  connections_ l !! next_connection_id_ l = None ->
  (Z.of_nat (size (connections_ l)) + 1) * max_write_queue_bytes_ (limits_ config_) < 2 ^ 64 ->
  Z.of_nat (size (connections_ l)) + 1 < 2 ^ 64 ->
  conn_inv (msum pending_write_bytes_ (connections_ l)) (msum is_open (connections_ l)) c ->
  conn_config_ c = config_ ->
  loop_inv (set_connections (<[next_connection_id_ l := c]> (connections_ l)) (owner_acct_ c)
              (set_next_id (next_connection_id_ l +u 1)%word l)).
Proof.
  intros [] Hid Hrun Hnone Hm Hn Hci Hcc.
  destruct (next_id_ok (next_connection_id_ l)) as [Hnx Hnx']; [lia|].
  split; cbn [connections_ set_connections loop_acct_ next_connection_id_ loop_state_ drain_begun
    set_next_id]; rewrite ?map_size_insert_None by done; try lia.
  - intros k x Hk. apply lookup_insert_Some in Hk as [[<- <-]|[_ Hk]]; [|by eapply li_connections0].
    split; [done|]. do 2 eexists. exists (owner_acct_ c). rewrite with_acct_self. exact Hci.
  - intros k x Hk. apply lookup_insert_Some in Hk as [[<- <-]|[_ Hk]].
    + split; [lia|]. intros Hne. apply Hnx' in Hne. lia.
    + destruct (li_ids0 k x Hk) as [? Hlt]. split; [done|]. intros Hne. apply Hnx' in Hne.
      specialize (Hlt Hid). lia.
  - rewrite msum_insert by done. destruct Hci as ((_&_&_&_&_&_&_&_&Ha&_)&_). lia.
  - rewrite msum_insert by done. rewrite (live_of _ _ _ Hci). lia.
  - intros Hd. destruct (li_drain0 Hd) as (_&?&_). done.
Qed.

(** A new connection is counted before it starts. *)
Lemma StartConnection_inv send_ok recv_ok l :
  config_ok config_ -> loop_inv l -> next_connection_id_ l <> 0 ->
  (Z.of_nat (size (connections_ l)) + 1) * max_write_queue_bytes_ (limits_ config_) < 2 ^ 64 ->
  Z.of_nat (size (connections_ l)) + 1 < 2 ^ 64 ->
  exists l', StartConnectionOnContext send_ok recv_ok l = Some l' /\ loop_inv l'.
Proof.
  intros Hcfg Hinv Hid Hm Hn. unfold StartConnectionOnContext.
  destruct (decide (loop_state_ l = LRunning)) as [Hrun|Hrun].
  2: { rewrite bool_decide_false by done. simpl. eexists. split; [done|]. by destruct Hinv; split. }
  rewrite bool_decide_true by done. unfold AllocateConnectionId.
  rewrite (proj2 (Z.eqb_neq _ _) Hid). cbn [negb mbind option_bind connections_ set_next_id loop_acct_].
  pose proof Hinv as Hinv'. destruct Hinv.
  assert (Hnone : connections_ l !! next_connection_id_ l = None).
  { destruct (connections_ l !! next_connection_id_ l) as [c|] eqn:E; [|done].
    destruct (li_ids0 _ c E) as [_ Hlt]. specialize (Hlt Hid). lia. }
  rewrite Hnone, bool_decide_false by (intros [? [=]]).
  unfold on_connection. cbn [connections_ set_connections loop_acct_ set_next_id].
  rewrite lookup_insert_eq. cbn [mbind option_bind].
  assert (Hrest : 0 <= msum pending_write_bytes_ (connections_ l) <=
    Z.of_nat (size (connections_ l)) * max_write_queue_bytes_ (limits_ config_)).
  { split; [apply msum_nonneg|apply msum_le]; intros k c Hk;
      apply conn_ok_pending, (li_connections0 k c Hk). }
  assert (Hlive : 0 <= msum is_open (connections_ l) <= Z.of_nat (size (connections_ l)) * 1).
  { split; [apply msum_nonneg|apply msum_le]; intros k c _; apply is_open_range. }
  set (a := MkLoopAccounting _ _ _).
  destruct (Start_inv (msum pending_write_bytes_ (connections_ l)) (msum is_open (connections_ l))
    send_ok recv_ok config_ a Hcfg) as (c & E & Hci & Hcc); try lia; [done| |].
  { simpl. rewrite add64_small by lia. lia. }
  change (with_acct a (ServerConnection_new config_ (loop_acct_ l))) with (ServerConnection_new config_ a).
  rewrite E. cbn [mbind option_bind]. eexists. split; [done|].
  pose proof (loop_inv_insert l c Hinv' Hid Hrun Hnone Hm Hn Hci Hcc) as Hl.
  unfold set_connections, set_next_id in *. cbn in *. by rewrite insert_insert_eq.
Qed.

(** ** Events *)

(** What happens to a loop: a completion on a connection, a worker result, the
    posted callbacks, and the owner's commands. *)
Inductive loop_event :=
  | LvCompletion (id : Z) (send_ok recv_ok : bool) (e : event)
  | LvResult (send_ok alloc_ok : bool) (result : WorkerResult)
  | LvStartConnection (send_ok recv_ok : bool)
  | LvCollect
  | LvBeginDrain (ids : list (Z * bool))
  | LvClose (ids : list (Z * bool))
  | LvOwnerStart
  | LvOwnerBeginDrain
  | LvStopped
  | LvStats (start_window : bool).

Context {W : Wire}.

Definition loop_handle (e : loop_event) (l : IoLoop) : option IoLoop :=
  match e with
  | LvCompletion id send_ok recv_ok e => on_connection id (handle send_ok recv_ok e) l
  | LvResult send_ok alloc_ok result => HandleWorkerResult send_ok alloc_ok result l
  | LvStartConnection send_ok recv_ok =>
      StartConnectionOnContext send_ok recv_ok (CollectClosedConnections l)
  | LvCollect => Some (CollectClosedConnections l)
  | LvBeginDrain ids => BeginDrainOnContext ids l
  | LvClose ids => CloseConnectionsOnContext ids l
  | LvOwnerStart => Some (IoLoop_Start l)
  | LvOwnerBeginDrain => Some (IoLoop_BeginDrain l).2
  | LvStopped => Some (StopImmediately_joined l)
  | LvStats start_window => Some (RequestStats_callback start_window l).2
  end.

(** The event a worker result is for its connection. *)
Definition result_event (alloc_ok : bool) (r : WorkerResult) : event :=
  if encode_failed_ r then EvEncodeFailure (released_requests_ r)
  else EvResponses alloc_ok (response_bytes_ r) (released_requests_ r).

(** What the environment may do.  A completion is for a connection that waits
    for it, a result is for requests in flight, the walk of a drain visits every
    connection, and the buffers of all connections fit the address space. *)
Definition loop_enabled (e : loop_event) (l : IoLoop) : Prop :=
  match e with
  | LvCompletion id _ _ e => forall c, connections_ l !! id = Some c -> enabled e c
  | LvResult _ alloc_ok r =>
      forall c, connections_ l !! result_connection_id_ r = Some c -> enabled (result_event alloc_ok r) c
  | LvStartConnection _ _ =>
      next_connection_id_ l <> 0 /\ Z.of_nat (size (connections_ l)) + 1 < 2 ^ 64 /\
      (Z.of_nat (size (connections_ l)) + 1) * max_write_queue_bytes_ (limits_ config_) < 2 ^ 64
  | LvBeginDrain ids =>
      loop_state_ l = LDraining /\ forall id, is_Some (connections_ l !! id) -> id ∈ ids.*1
  | _ => True
  end.

(** The counters do not decide what an event needs. *)
Lemma enabled_with_acct e a c : enabled e c -> enabled e (with_acct a c).
Proof. by destruct e. Qed.

Lemma HandleWorkerResult_inv send_ok alloc_ok r l :
  loop_inv l ->
  (forall c, connections_ l !! result_connection_id_ r = Some c -> enabled (result_event alloc_ok r) c) ->
  exists l', HandleWorkerResult send_ok alloc_ok r l = Some l' /\ loop_inv l' /\ loop_evolves l l'.
Proof.
  intros Hinv He. apply on_connection_inv; [done|]. intros c rest live Hc Hci.
  destruct (handle_inv rest live send_ok true (result_event alloc_ok r) _ Hci
    (enabled_with_acct _ _ _ (He c Hc))) as (c' & E & Hci' & Hev).
  exists c'. split; [|done]. rewrite <- E. unfold result_event. by destruct (encode_failed_ r).
Qed.

Lemma on_connection_result id f l l' c' :
  on_connection id f l = Some l' -> connections_ l' !! id = Some c' ->
  exists c, connections_ l !! id = Some c /\ f (with_acct (loop_acct_ l) c) = Some c'.
Proof.
  unfold on_connection. destruct (connections_ l !! id) as [c|] eqn:Hc.
  - destruct (f _) as [x|] eqn:Ef; [|done]. intros [= <-]. cbn. rewrite lookup_insert_eq.
    intros [= <-]. eauto.
  - intros [= <-]. congruence.
Qed.

Lemma loop_evolves_lookup l l' id c' :
  loop_evolves l l' -> connections_ l' !! id = Some c' ->
  exists c, connections_ l !! id = Some c /\ evolves c c'.
Proof.
  intros (_&_&_&H) Hc. specialize (H id). rewrite Hc in H. destruct (connections_ l !! id); [eauto|done].
Qed.

(** After the walk of a drain, no connection it visited is active. *)
Lemma for_each_drains ids l :
  loop_inv l ->
  exists l', for_each_connection BeginDrain ids l = Some l' /\ loop_inv l' /\ loop_evolves l l' /\
    forall id c', connections_ l' !! id = Some c' -> id ∈ ids.*1 -> state_ c' <> Active.
Proof.
  revert l. induction ids as [|[k b] ids IH]; intros l Hinv.
  { exists l. split_and!; auto using loop_evolves_refl. intros id c' _ Hin. by apply elem_of_nil in Hin. }
  destruct (on_connection_inv l k (BeginDrain b) Hinv) as (l1 & E & Hinv1 & Hev).
  { intros c rest live _ Hc. destruct (BeginDrain_inv rest live b _ Hc) as (c' & ? & ? & ? & _). by exists c'. }
  destruct (IH l1 Hinv1) as (l2 & E2 & Hinv2 & Hev2 & Hd). exists l2. simpl. rewrite E. simpl.
  split_and!; eauto using loop_evolves_trans. intros id c' Hc' Hin.
  apply elem_of_cons in Hin as [->|Hin]; [|by eapply Hd].
  destruct (loop_evolves_lookup _ _ _ _ Hev2 Hc') as (c1 & Hc1 & Hec).
  eapply evolves_not_active; [done|].
  destruct (on_connection_result _ _ _ _ _ E Hc1) as (c & Hc & Hb).
  destruct (loop_rest l k c Hinv Hc) as (Hci & _).
  destruct (BeginDrain_inv _ _ b _ Hci) as (c2 & E3 & _ & _ & Hna). congruence.
Qed.

Lemma Close_if_open_inv send_ok rest live c :
  conn_inv rest live c ->
  exists c', (if is_closed c then Some c else Close send_ok c) = Some c' /\
    conn_inv rest live c' /\ evolves c c'.
Proof.
  intros Hc. destruct (is_closed c); [exists c; auto using evolves_refl|].
  destruct (Close_inv rest live send_ok c Hc) as (c' & ? & ? & ? & _). eauto.
Qed.

(** The owner's commands and the drain mark. *)
Lemma loop_inv_state l x :
  loop_inv l -> (drain_begun l = true -> x = LStopped \/ x = LDraining \/ x = loop_state_ l) ->
  loop_inv (set_loop_state x l).
Proof.
  intros [] Hx. split; try done. intros Hd. cbn in Hd |- *. destruct (li_drain0 Hd) as (?&?&?).
  destruct (Hx Hd) as [->|[->| ->]]; split_and!; done.
Qed.

Lemma loop_inv_joinable l x : loop_inv l -> loop_inv (set_joinable x l).
Proof. by intros []. Qed.

Lemma IoLoop_BeginDrain_inv l : loop_inv l -> loop_inv (IoLoop_BeginDrain l).2.
Proof.
  intros Hinv. unfold IoLoop_BeginDrain. repeat case_bool_decide; simpl; try done;
    apply loop_inv_state; auto.
Qed.

Lemma IoLoop_Start_inv l : loop_inv l -> loop_inv (IoLoop_Start l).
Proof.
  intros Hinv. unfold IoLoop_Start. case_bool_decide as Hc; simpl; [|done].
  apply loop_inv_state; [by apply loop_inv_joinable|]. intros Hd.
  destruct (li_drain l Hinv Hd) as [? _]. done.
Qed.

Lemma loop_handle_inv e l :
  config_ok config_ -> loop_inv l -> loop_enabled e l ->
  exists l', loop_handle e l = Some l' /\ loop_inv l'.
Proof.
  intros Hcfg Hinv He. destruct e as [id so ro e|so ao r|so ro| |ids|ids| | | |b]; simpl in *.
  - destruct (on_connection_inv l id (handle so ro e) Hinv) as (l' & ? & ? & _); [|eauto].
    intros c rest live Hc Hci. exact (handle_inv rest live so ro e _ Hci (enabled_with_acct _ _ _ (He c Hc))).
  - destruct (HandleWorkerResult_inv so ao r l Hinv He) as (l' & ? & ? & _). eauto.
  - destruct He as (Hid & Hn & Hm).
    assert (size (connections_ (CollectClosedConnections l)) <= size (connections_ l))%nat.
    { apply map_subseteq_size, map_filter_subseteq. }
    destruct Hcfg as (Hc1 & Hc2 & Hc3).
    apply StartConnection_inv; [done|by apply CollectClosed_inv|done|nia|lia].
  - eauto using CollectClosed_inv.
  - destruct He as [Hst Hall]. unfold BeginDrainOnContext.
    destruct (for_each_drains ids l Hinv) as (l' & -> & Hinv' & Hev & Hd). simpl.
    eexists. split; [done|]. destruct Hev as (E1 & E2 & E3 & Hdom). destruct Hinv'. split; try done.
    intros _. cbn [loop_state_ mark_drain connections_]. rewrite E1, Hst. split_and!; try done.
    intros id c Hc. apply (Hd id c Hc), Hall. specialize (Hdom id). rewrite Hc in Hdom.
    by destruct (connections_ l !! id).
  - unfold CloseConnectionsOnContext.
    destruct (for_each_connection_inv _ ids l Hinv Close_if_open_inv) as (l' & -> & ? & _). simpl.
    eauto using CollectClosed_inv.
  - eauto using IoLoop_Start_inv.
  - eauto using IoLoop_BeginDrain_inv.
  - eexists. split; [done|]. apply loop_inv_state; [by apply loop_inv_joinable|auto].
  - eexists. split; [done|]. destruct Hinv. by split; try done; destruct b.
Qed.

Definition loop_step (l l' : IoLoop) : Prop :=
  exists e, loop_enabled e l /\ loop_handle e l = Some l'.

Lemma loop_inv_new : loop_inv IoLoop_new.
Proof.
  split; simpl; try done; rewrite ?map_size_empty; try lia.
Qed.

Lemma loop_inv_reachable l : config_ok config_ -> rtc loop_step IoLoop_new l -> loop_inv l.
Proof.
  intros Hcfg. apply (rtc_preserves loop_step loop_inv); [|exact loop_inv_new].
  intros u v Hu (e & He & Hv). destruct (loop_handle_inv e u Hcfg Hu He) as (v' & E & ?). congruence.
Qed.

(** Once a drain has begun, an open connection has something left to do. *)
Lemma drain_has_work l :
  loop_inv l -> drain_begun l = true -> forall id c, connections_ l !! id = Some c -> state_ c <> Closed ->
  0 < inflight_requests_ c \/ 0 < pending_write_bytes_ c.
Proof.
  intros [] Hd id c Hc Ho. destruct (li_drain0 Hd) as (_ & _ & Hna).
  destruct (li_connections0 id c Hc) as (_ & r & lv & a & Hci).
  destruct Hci as ((_&Hi&_&_&_&_&_&Hp&_) & _ & _ & Hdr & _). simpl in Hi, Hp, Hdr.
  specialize (Hna id c Hc). destruct (state_ c) eqn:Es; [done| |done].
  assert (~ (inflight_requests_ c = 0 /\ pending_write_bytes_ c = 0)); [|lia]. by apply Hdr.
Qed.

Lemma FinishDrain_idle l :
  loop_inv l -> drain_begun l = true ->
  (forall id c, connections_ l !! id = Some c -> inflight_requests_ c = 0 /\ pending_write_bytes_ c = 0) ->
  is_Some (FinishDrain_wait l).
Proof.
  intros Hinv Hd Hidle. unfold FinishDrain_wait. case_bool_decide; [eauto|].
  rewrite (li_live l Hinv). assert (msum is_open (connections_ l) = 0) as ->; [|simpl; eauto].
  apply zsum_zero. intros [id c] Hin. apply elem_of_map_to_list in Hin. simpl.
  apply is_open_closed. destruct (decide (state_ c = Closed)) as [|Ho]; [done|].
  destruct (drain_has_work l Hinv Hd id c Hin Ho) as [?|?]; destruct (Hidle id c Hin); lia.
Qed.

(** ** Properties *)

(** C18: the loop's books balance over all connections, whatever happens to
    them: no callback aborts in any event the environment can produce, the
    pending bytes and the live connections counted by the loop are the sums over
    its connections, every connection has an id below the next one to be given,
    and once a drain has begun a connection still open has requests in flight or
    bytes to send, so that a loop whose connections have no work left counts no
    live connection and [FinishDrain] returns. *)
Theorem IoLoop_accounting l e :
  config_ok config_ -> rtc loop_step IoLoop_new l ->
  (loop_enabled e l -> is_Some (loop_handle e l)) /\
  loop_pending_write_bytes_ (loop_acct_ l) = msum pending_write_bytes_ (connections_ l) /\
  live_connections_ (loop_acct_ l) = msum is_open (connections_ l) /\
  (next_connection_id_ l <> 0 -> connections_ l !! next_connection_id_ l = None) /\
  (drain_begun l = true ->
     (forall id c, connections_ l !! id = Some c -> state_ c <> Closed ->
        0 < inflight_requests_ c \/ 0 < pending_write_bytes_ c) /\
     ((forall id c, connections_ l !! id = Some c ->
         inflight_requests_ c = 0 /\ pending_write_bytes_ c = 0) -> is_Some (FinishDrain_wait l))).
Proof.
  intros Hcfg Hr. pose proof (loop_inv_reachable l Hcfg Hr) as Hinv. pose proof Hinv as Hinv'.
  destruct Hinv'. split; [|split; [done|split; [done|split]]].
  - intros He. destruct (loop_handle_inv e l Hcfg Hinv He) as (l' & -> & _). eauto.
  - intros Hid. destruct (connections_ l !! next_connection_id_ l) as [c|] eqn:E; [|done].
    destruct (li_ids0 _ c E) as [_ Hlt]. specialize (Hlt Hid). lia.
  - intros Hd. split; [|by apply FinishDrain_idle]. by apply drain_has_work.
Qed.

End loop.

(** *** Witness: a loop with one connection is drained *)
Section LoopWitnesses.
Import ExampleWire.

Definition example_loop_events : list loop_event :=
  [LvOwnerStart; LvStartConnection true true; LvOwnerBeginDrain; LvBeginDrain [(1, true)]].

Definition example_loop_run : option IoLoop :=
  foldl (fun l e => l ← l; loop_handle example_conn_config e l) (Some IoLoop_new) example_loop_events.

Definition example_loop : IoLoop := default IoLoop_new example_loop_run.

Lemma example_loop_reachable : rtc (loop_step example_conn_config) IoLoop_new example_loop.
Proof.
  eapply rtc_l; [exists LvOwnerStart; split; [done|reflexivity]|].
  eapply rtc_l; [exists (LvStartConnection true true); split; [by repeat split|vm_compute; reflexivity]|].
  eapply rtc_l; [exists LvOwnerBeginDrain; split; [done|vm_compute; reflexivity]|].
  eapply rtc_l; [exists (LvBeginDrain [(1, true)]); split; [split; [done|]|vm_compute; reflexivity]|].
  - intros id [c Hc]. cbn [connections_] in Hc.
    apply elem_of_map_to_list in Hc.
    match type of Hc with _ ∈ ?l => let v := eval vm_compute in l in change l with v in Hc end.
    apply list_elem_of_singleton in Hc as [= -> _]. left.
  - match goal with |- rtc _ ?x _ => assert (x = example_loop) as -> by (vm_compute; reflexivity) end.
    apply rtc_refl.
Qed.

Lemma IoLoop_accounting_witness :
  live_connections_ (loop_acct_ example_loop) = msum is_open (connections_ example_loop).
Proof.
  exact (proj1 (proj2 (proj2 (IoLoop_accounting example_conn_config example_loop LvCollect
    ltac:(by repeat split) example_loop_reachable)))).
Defined.

End LoopWitnesses.
