(* ===== verification/ResultChannel.v ===== *)
(** * The channel of worker results

    Models the hand-over of worker results to the I/O thread in
    [src/server/connection_io_loop.cpp]: [PostWorkerResult] and
    [ScheduleWorkerResultDrain] on the workers, [DrainWorkerResults] on the I/O
    thread, with the flag that says a drain is scheduled and the queue of posted
    callbacks.

    The queue of results is the abstract queue that MpscQueue refines: items in
    order of reservation, published or not.  A step is one access to the queue,
    the flag or the posted callbacks.  The parameter [tso] decides what
    [store(false, release)] does: with [false] it is visible at once; with [true]
    it may stay in the store buffer of the I/O thread while that thread goes on
    reading, as the release order and x86 processors allow.

    The theorems show that no result is lost or duplicated before the stop of the
    context when the store is visible at once; that with a store buffer a result
    can stay in the queue with no drain scheduled; and that one drain callback
    can handle any number of results. *)

From S2P Require Import Prelude MpscQueue.

Local Open Scope Z_scope.

Section channel.
Context {R : Type}.

(** ** State *)

(** A posted callback: a drain, or one result that found the queue full. *)
Inductive callback := PostDrain | PostHandle (r : R).

(** Where a worker is in [PostWorkerResult]. *)
Inductive worker_at := WIdle | WReserved | WSchedule | WPost.

(** Where the I/O thread is: in its loop, in [DrainWorkerResults] after
    [drained] results, about to clear the flag, at the second [TryPop], about to
    set the flag again, about to handle the result it took. *)
Inductive io_at :=
  | IIdle
  | IDrain (drained : Z)
  | IClear
  | IRecheck
  | IRearm (r : R)
  | IHandle (r : R).

(** An item of the queue is reserved by a worker or published; [ch_accepting] is the
    [accepting_posts_] of the context.  [ch_handled], [ch_sent] and [ch_dropped] are
    history. *)
Record channel := MkChannel {
  ch_queue : list (R * option nat);
  ch_scheduled : bool;
  ch_store_buffer : bool;
  ch_posted : list callback;
  ch_workers : list worker_at;
  ch_io : io_at;
  ch_handled : list R;
  ch_callbacks : nat;
  ch_sent : list R;
  ch_accepting : bool;
  ch_dropped : list R
}.

Definition channel_new (workers : nat) : channel :=
  MkChannel [] false false [] (replicate workers WIdle) IIdle [] 0 [] true [].

Definition set_worker (i : nat) (w : worker_at) (s : channel) : channel :=
  MkChannel (ch_queue s) (ch_scheduled s) (ch_store_buffer s) (ch_posted s) (<[i := w]> (ch_workers s))
    (ch_io s) (ch_handled s) (ch_callbacks s) (ch_sent s) (ch_accepting s) (ch_dropped s).

Definition set_io (x : io_at) (s : channel) : channel :=
  MkChannel (ch_queue s) (ch_scheduled s) (ch_store_buffer s) (ch_posted s) (ch_workers s) x
    (ch_handled s) (ch_callbacks s) (ch_sent s) (ch_accepting s) (ch_dropped s).

Definition set_queue_of (q : list (R * option nat)) (s : channel) : channel :=
  MkChannel q (ch_scheduled s) (ch_store_buffer s) (ch_posted s) (ch_workers s) (ch_io s)
    (ch_handled s) (ch_callbacks s) (ch_sent s) (ch_accepting s) (ch_dropped s).

Definition set_scheduled (b : bool) (s : channel) : channel :=
  MkChannel (ch_queue s) b false (ch_posted s) (ch_workers s) (ch_io s) (ch_handled s)
    (ch_callbacks s) (ch_sent s) (ch_accepting s) (ch_dropped s).

Definition buffer_clear (s : channel) : channel :=
  MkChannel (ch_queue s) (ch_scheduled s) true (ch_posted s) (ch_workers s) (ch_io s) (ch_handled s)
    (ch_callbacks s) (ch_sent s) (ch_accepting s) (ch_dropped s).

(** The exchange of a worker: it acts on memory, not on the buffer. *)
Definition exchange_scheduled (s : channel) : channel :=
  MkChannel (ch_queue s) true (ch_store_buffer s) (ch_posted s) (ch_workers s) (ch_io s) (ch_handled s)
    (ch_callbacks s) (ch_sent s) (ch_accepting s) (ch_dropped s).

(** The results that callbacks carry. *)
Definition overflow_results (l : list callback) : list R :=
  omap (fun c => match c with PostHandle r => Some r | PostDrain => None end) l.

(** [context_.Post]: once a stop is requested the callback is dropped, with the
    result it may carry. *)
Definition post (c : callback) (s : channel) : channel :=
  if ch_accepting s then
    MkChannel (ch_queue s) (ch_scheduled s) (ch_store_buffer s) (ch_posted s ++ [c]) (ch_workers s)
      (ch_io s) (ch_handled s) (ch_callbacks s) (ch_sent s) (ch_accepting s) (ch_dropped s)
  else
    MkChannel (ch_queue s) (ch_scheduled s) (ch_store_buffer s) (ch_posted s) (ch_workers s)
      (ch_io s) (ch_handled s) (ch_callbacks s) (ch_sent s) (ch_accepting s)
      (ch_dropped s ++ overflow_results [c]).

(** [context_.RequestStop] *)
Definition request_stop (s : channel) : channel :=
  MkChannel (ch_queue s) (ch_scheduled s) (ch_store_buffer s) (ch_posted s) (ch_workers s)
    (ch_io s) (ch_handled s) (ch_callbacks s) (ch_sent s) false (ch_dropped s).

Definition set_posted (l : list callback) (s : channel) : channel :=
  MkChannel (ch_queue s) (ch_scheduled s) (ch_store_buffer s) l (ch_workers s) (ch_io s) (ch_handled s)
    (ch_callbacks s) (ch_sent s) (ch_accepting s) (ch_dropped s).

Definition add_handled (r : R) (s : channel) : channel :=
  MkChannel (ch_queue s) (ch_scheduled s) (ch_store_buffer s) (ch_posted s) (ch_workers s) (ch_io s)
    (ch_handled s ++ [r]) (ch_callbacks s) (ch_sent s) (ch_accepting s) (ch_dropped s).

Definition count_callback (s : channel) : channel :=
  MkChannel (ch_queue s) (ch_scheduled s) (ch_store_buffer s) (ch_posted s) (ch_workers s) (ch_io s)
    (ch_handled s) (S (ch_callbacks s)) (ch_sent s) (ch_accepting s) (ch_dropped s).

(** History: the result was given to [PostWorkerResult]. *)
Definition record_result (r : R) (s : channel) : channel :=
  MkChannel (ch_queue s) (ch_scheduled s) (ch_store_buffer s) (ch_posted s) (ch_workers s) (ch_io s)
    (ch_handled s) (ch_callbacks s) (ch_sent s ++ [r]) (ch_accepting s) (ch_dropped s).

Context (capacity MAX_WORKER_RESULTS_PER_DRAIN : Z) (tso : bool).

(** ** Steps *)

(** Item [k] of the queue becomes published. *)
Definition publish_item (k : nat) (q : list (R * option nat)) : list (R * option nat) :=
  alter (fun x => (x.1, None)) k q.

(** [PostWorkerResult] by worker [i].  A push that sees the queue full posts the
    result itself. *)
Inductive PostWorkerResult_step (i : nat) (s : channel) : worker_at -> channel -> Prop :=
  | result_overflow r :
      PostWorkerResult_step i s WIdle (post (PostHandle r) (record_result r s))
  | result_reserve r :
      len (ch_queue s) < capacity ->
      PostWorkerResult_step i s WIdle
        (set_worker i WReserved (set_queue_of (ch_queue s ++ [(r, Some i)]) (record_result r s)))
  | result_publish k r :
      ch_queue s !! k = Some (r, Some i) ->
      PostWorkerResult_step i s WReserved
        (set_worker i WSchedule (set_queue_of (publish_item k (ch_queue s)) s)).

(** [ScheduleWorkerResultDrain] *)
Inductive ScheduleDrain_step (i : nat) (s : channel) : worker_at -> channel -> Prop :=
  | schedule_first :
      ch_scheduled s = false ->
      ScheduleDrain_step i s WSchedule (set_worker i WPost (exchange_scheduled s))
  | schedule_already :
      ch_scheduled s = true ->
      ScheduleDrain_step i s WSchedule (set_worker i WIdle s)
  | schedule_posts :
      ScheduleDrain_step i s WPost (set_worker i WIdle (post PostDrain s)).

(** [TryPop] finds a value: the oldest item is published. *)
Definition can_pop (s : channel) : option (R * list (R * option nat)) :=
  match ch_queue s with (r, None) :: q => Some (r, q) | _ => None end.

(** [DrainWorkerResults] and the loop that runs the posted callbacks. *)
Inductive DrainWorkerResults_step (s : channel) : io_at -> channel -> Prop :=
  | run_handle r l :
      ch_posted s = PostHandle r :: l ->
      DrainWorkerResults_step s IIdle (add_handled r (set_posted l s))
  | run_drain l :
      ch_posted s = PostDrain :: l ->
      DrainWorkerResults_step s IIdle (set_io (IDrain 0) (count_callback (set_posted l s)))
  | drain_one n r q :
      n < MAX_WORKER_RESULTS_PER_DRAIN -> can_pop s = Some (r, q) ->
      DrainWorkerResults_step s (IDrain n)
        (set_io (IDrain (n + 1)) (add_handled r (set_queue_of q s)))
  | drain_none n :
      n < MAX_WORKER_RESULTS_PER_DRAIN -> can_pop s = None ->
      DrainWorkerResults_step s (IDrain n) (set_io IClear s)
  | drain_yield n :
      n = MAX_WORKER_RESULTS_PER_DRAIN ->
      DrainWorkerResults_step s (IDrain n) (set_io IIdle (post PostDrain s))
  | drain_clear :
      DrainWorkerResults_step s IClear
        (set_io IRecheck (if tso then buffer_clear s else set_scheduled false s))
  | recheck_none :
      can_pop s = None -> DrainWorkerResults_step s IRecheck (set_io IIdle s)
  | recheck_one r q :
      can_pop s = Some (r, q) ->
      DrainWorkerResults_step s IRecheck (set_io (IRearm r) (set_queue_of q s))
  | drain_rearm r :
      DrainWorkerResults_step s (IRearm r) (set_io (IHandle r) (set_scheduled true s))
  | drain_handle r :
      DrainWorkerResults_step s (IHandle r) (set_io (IDrain 0) (add_handled r s)).

Inductive cstep (s s' : channel) : Prop :=
  | cstep_post i w : ch_workers s !! i = Some w -> PostWorkerResult_step i s w s' -> cstep s s'
  | cstep_schedule i w : ch_workers s !! i = Some w -> ScheduleDrain_step i s w s' -> cstep s s'
  | cstep_drain : DrainWorkerResults_step s (ch_io s) s' -> cstep s s'
  (** the buffered store of [false] reaches memory *)
  | cstep_flush : ch_store_buffer s = true -> s' = set_scheduled false s -> cstep s s'
  (** the owner of the loop stops the context *)
  | cstep_stop : s' = request_stop s -> cstep s s'.

(** ** Invariant, when the store is visible at once *)

(** A worker that has not yet looked at the flag. *)
Definition will_look (s : channel) : Prop :=
  exists i, ch_workers s !! i = Some WReserved \/ ch_workers s !! i = Some WSchedule.

(** Somebody will run [DrainWorkerResults] again, or is in it before the flag
    is cleared. *)
Definition drain_owned (s : channel) : Prop :=
  PostDrain ∈ ch_posted s \/ (exists i, ch_workers s !! i = Some WPost) \/
  match ch_io s with IDrain _ | IClear | IHandle _ => True | _ => False end.

Definition in_hand_results (x : io_at) : list R :=
  match x with IRearm r | IHandle r => [r] | _ => [] end.

(** Where the results are that were posted and not handled. *)
Definition undelivered (s : channel) : list R :=
  in_hand_results (ch_io s) ++ (ch_queue s).*1 ++ overflow_results (ch_posted s).

(** A worker is about to look at the flag, a drain is scheduled or running, or the
    I/O thread is looking at the queue again. *)
Definition drain_coming (s : channel) : Prop :=
  will_look s \/ drain_owned s \/ match ch_io s with IRecheck | IRearm _ => True | _ => False end.

Record cinv (s : channel) : Prop := {
  ci_flag : ch_accepting s = true -> ch_scheduled s = true -> drain_owned s;
  ci_queue : ch_accepting s = true -> ch_queue s <> [] -> drain_coming s;
  ci_owner : forall k r i, ch_queue s !! k = Some (r, Some i) -> ch_workers s !! i = Some WReserved;
  ci_single : forall j k r r' i, ch_queue s !! j = Some (r, Some i) ->
    ch_queue s !! k = Some (r', Some i) -> j = k;
  ci_buffer : ch_store_buffer s = false;
  ci_results : ch_sent s ≡ₚ ch_handled s ++ undelivered s ++ ch_dropped s;
  ci_dropped : ch_accepting s = true -> ch_dropped s = [];
  ci_drained : forall n, ch_io s = IDrain n -> 0 <= n <= MAX_WORKER_RESULTS_PER_DRAIN
}.

Context (batch_pos : 0 < MAX_WORKER_RESULTS_PER_DRAIN).

Lemma overflow_app l1 l2 : overflow_results (l1 ++ l2) = overflow_results l1 ++ overflow_results l2.
Proof. apply omap_app. Qed.

Lemma publish_values k q : (publish_item k q).*1 = q.*1.
Proof.
  unfold publish_item. apply list_eq. intros j. rewrite !list_lookup_fmap.
  destruct (decide (k = j)) as [->|Hne].
  - rewrite list_lookup_alter_eq. by destruct (q !! j).
  - by rewrite list_lookup_alter_ne.
Qed.

Lemma publish_lookup k q j r i :
  publish_item k q !! j = Some (r, Some i) -> j <> k /\ q !! j = Some (r, Some i).
Proof.
  unfold publish_item. destruct (decide (k = j)) as [->|Hne].
  - rewrite list_lookup_alter_eq. by destruct (q !! j).
  - by rewrite list_lookup_alter_ne.
Qed.

Lemma will_look_insert i w s :
  ch_workers s !! i <> None -> w = WReserved \/ w = WSchedule -> will_look (set_worker i w s).
Proof.
  intros Hi Hw. exists i. cbn. rewrite list_lookup_insert_eq; [naive_solver|].
  apply lookup_lt_is_Some. by destruct (ch_workers s !! i).
Qed.

(** The flag stays owned when the worker that moves was not about to post. *)
Lemma drain_owned_worker i w s s' :
  drain_owned s -> ch_posted s' = ch_posted s -> ch_io s' = ch_io s ->
  ch_workers s' = <[i := w]> (ch_workers s) -> ch_workers s !! i <> Some WPost -> drain_owned s'.
Proof.
  intros [H|[[j H]|H]] Hp Ho Hw Hi; unfold drain_owned; rewrite Hp, Ho, Hw; auto.
  right; left. exists j. rewrite list_lookup_insert_ne; [done|]. congruence.
Qed.

Lemma drain_owned_post c s : drain_owned s -> drain_owned (post c s).
Proof.
  unfold post. destruct (ch_accepting s); [|done].
  intros [H|[H|H]]; [left|by right; left|by right; right]. cbn. apply elem_of_app. by left.
Qed.

(** A callback that is posted carries its result, one that is dropped loses it. *)
Lemma post_results c s :
  undelivered (post c s) ++ ch_dropped (post c s) ≡ₚ (undelivered s ++ ch_dropped s) ++ overflow_results [c].
Proof.
  unfold post, undelivered. destruct (ch_accepting s); cbn [ch_io ch_queue ch_posted ch_dropped].
  - rewrite overflow_app. solve_Permutation.
  - by rewrite !app_assoc.
Qed.

Lemma post_dropped c s : ch_accepting (post c s) = true -> ch_accepting s = true /\ ch_dropped (post c s) = ch_dropped s.
Proof. unfold post. by destruct (ch_accepting s) eqn:E; cbn; rewrite ?E. Qed.

Lemma post_fields c s :
  ch_scheduled (post c s) = ch_scheduled s /\ ch_queue (post c s) = ch_queue s /\
  ch_workers (post c s) = ch_workers s /\ ch_io (post c s) = ch_io s /\
  ch_store_buffer (post c s) = ch_store_buffer s /\ ch_sent (post c s) = ch_sent s /\
  ch_handled (post c s) = ch_handled s.
Proof. unfold post. by destruct (ch_accepting s). Qed.

(** A post keeps the invariant, when the drain it is for is owned (by the post). *)
Lemma cinv_posted c s :
  (ch_accepting s = true -> ch_scheduled s = true -> drain_owned s \/ c = PostDrain) ->
  (ch_accepting s = true -> ch_queue s <> [] -> drain_coming s \/ c = PostDrain) ->
  (forall k r i, ch_queue s !! k = Some (r, Some i) -> ch_workers s !! i = Some WReserved) ->
  (forall j k r r' i, ch_queue s !! j = Some (r, Some i) -> ch_queue s !! k = Some (r', Some i) -> j = k) ->
  ch_store_buffer s = false ->
  ch_sent s ≡ₚ (ch_handled s ++ undelivered s ++ ch_dropped s) ++ overflow_results [c] ->
  (ch_accepting s = true -> ch_dropped s = []) ->
  (forall n, ch_io s = IDrain n -> 0 <= n <= MAX_WORKER_RESULTS_PER_DRAIN) -> cinv (post c s).
Proof.
  intros Hf Hq Ho Hsg Hb Hr Hdr Hd. destruct (post_fields c s) as (E1 & E2 & E3 & E4 & E5 & E6 & E7).
  assert (Hc : ch_accepting s = true -> c = PostDrain -> drain_owned (post c s)).
  { intros Ha ->. left. unfold post. rewrite Ha. apply elem_of_app. right. by left. }
  split; rewrite ?E1, ?E2, ?E3, ?E4, ?E5, ?E6, ?E7; try done.
  - intros [Ha _]%post_dropped Hs. destruct (Hf Ha Hs); [by apply drain_owned_post|auto].
  - intros [Ha _]%post_dropped Hne. destruct (Hq Ha Hne) as [[(i & Hi)|[H|H]]|H].
    + left. exists i. by rewrite E3.
    + right; left. by apply drain_owned_post.
    + right; right. by rewrite E4.
    + right; left. auto.
  - rewrite Hr, post_results. solve_Permutation.
  - intros [Ha ->]%post_dropped. auto.
Qed.

Lemma cinv_post i s w s' :
  cinv s -> ch_workers s !! i = Some w -> PostWorkerResult_step i s w s' -> cinv s'.
Proof.
  intros [] Hi Hs. destruct Hs as [r|r Hroom|k r Hk].
  - apply cinv_posted; try done; cbn; [by auto|by auto|]. by rewrite ci_results0.
  - split; try done.
    + intros Ha Hf. eapply (drain_owned_worker i WReserved s); [by apply ci_flag0|done..|congruence].
    + intros _ _. left. apply (will_look_insert i WReserved s); [congruence|by left].
    + intros k x j Hk. cbn in Hk |- *. apply lookup_app_Some in Hk as [Hk|[_ Hk]].
      * apply ci_owner0 in Hk. rewrite list_lookup_insert_ne; [done|]. congruence.
      * apply list_lookup_singleton_Some in Hk as [_ [= <- <-]].
        apply list_lookup_insert_eq. by eapply lookup_lt_Some.
    + intros j k x y m Hj Hk. cbn in Hj, Hk.
      apply lookup_app_Some in Hj as [Hj|[Hgj Hj]]; apply lookup_app_Some in Hk as [Hk|[Hgk Hk]];
        [by eapply ci_single0|exfalso|exfalso|apply list_lookup_singleton_Some in Hj as [? _], Hk as [? _]; lia].
      * apply list_lookup_singleton_Some in Hk as [_ [= <- <-]]. apply ci_owner0 in Hj. congruence.
      * apply list_lookup_singleton_Some in Hj as [_ [= <- <-]]. apply ci_owner0 in Hk. congruence.
    + cbn. rewrite ci_results0. unfold undelivered. cbn. rewrite fmap_app. cbn. solve_Permutation.
  - split; try done.
    + intros Ha Hf. eapply (drain_owned_worker i WSchedule s); [by apply ci_flag0|done..|congruence].
    + intros _ _. left. apply (will_look_insert i WSchedule s); [congruence|by right].
    + intros j x m Hj. cbn in Hj |- *. apply publish_lookup in Hj as [Hne Hj].
      rewrite list_lookup_insert_ne; [by eapply ci_owner0|]. intros <-. apply Hne. by eapply ci_single0.
    + intros j1 j2 x y m Hj Hk'. cbn in Hj, Hk'. apply publish_lookup in Hj as [_ Hj].
      apply publish_lookup in Hk' as [_ Hk']. by eapply ci_single0.
    + cbn. rewrite ci_results0. unfold undelivered. cbn. by rewrite publish_values.
Qed.

Lemma cinv_schedule i s w s' :
  cinv s -> ch_workers s !! i = Some w -> ScheduleDrain_step i s w s' -> cinv s'.
Proof.
  intros [] Hi Hs.
  assert (Hown : forall w', w <> WReserved -> forall k r j, ch_queue s !! k = Some (r, Some j) ->
    <[i := w']> (ch_workers s) !! j = Some WReserved).
  { intros w' Hw k r j Hk. apply ci_owner0 in Hk. rewrite list_lookup_insert_ne; [done|]. congruence. }
  destruct Hs as [Hf|Hf|].
  - assert (drain_owned (set_worker i WPost (exchange_scheduled s))).
    { right; left. exists i. cbn. apply list_lookup_insert_eq. by eapply lookup_lt_Some. }
    split; try done; [by right; left|]. by apply Hown.
  - assert (ch_accepting s = true -> drain_owned (set_worker i WIdle s)).
    { intros Ha. eapply (drain_owned_worker i WIdle s); [by apply ci_flag0|done..|congruence]. }
    split; try done; [by auto|by right; left; auto|]. by apply Hown.
  - assert (set_worker i WIdle (post PostDrain s) = post PostDrain (set_worker i WIdle s)) as ->
      by (unfold post; cbn; by destruct (ch_accepting s)).
    apply cinv_posted; try done; [by auto|by auto|by apply Hown|]. cbn. by rewrite ci_results0, app_nil_r.
Qed.

(** [TryPop] fails on an empty queue, or because the owner of the oldest item has
    not published it. *)
Lemma can_pop_none s :
  cinv s -> can_pop s = None -> ch_queue s = [] \/ will_look s.
Proof.
  intros [] Hp. unfold can_pop in Hp. destruct (ch_queue s) as [|[r [i|]] q] eqn:E; [by left| |done].
  right. exists i. left. by apply (ci_owner0 0%nat r).
Qed.

Lemma can_pop_some s r q : can_pop s = Some (r, q) -> ch_queue s = (r, None) :: q.
Proof. unfold can_pop. by destruct (ch_queue s) as [|[r' [i|]] q']; intros [= <- <-]. Qed.

(** What holds of the owners holds of the queue without its oldest item. *)
Lemma owners_tail s r q :
  cinv s -> can_pop s = Some (r, q) ->
  (forall k y j, q !! k = Some (y, Some j) -> ch_workers s !! j = Some WReserved) /\
  (forall j k y z i, q !! j = Some (y, Some i) -> q !! k = Some (z, Some i) -> j = k).
Proof.
  intros [] Hp. apply can_pop_some in Hp. split.
  - intros k y j Hk. apply (ci_owner0 (S k) y). by rewrite Hp.
  - intros j k y z i Hj Hk. assert (S j = S k) as E; [|congruence].
    apply (ci_single0 (S j) (S k) y z i); by rewrite Hp.
Qed.

Lemma cinv_drain s s' :
  tso = false -> cinv s -> DrainWorkerResults_step s (ch_io s) s' -> cinv s'.
Proof.
  intros Htso Hinv Hs. remember (ch_io s) as x eqn:Hx. symmetry in Hx. pose proof Hinv as Hinv'.
  destruct Hinv as [Hf Hq Ho Hsg Hb Hr Hdr Hd]. unfold undelivered in Hr. unfold drain_coming, drain_owned in Hf, Hq.
  rewrite Hx in Hf, Hq, Hr.
  destruct Hs as [r l Hp|l Hp|n r q Hlt Hpop|n Hlt Hpop|n Hn| |Hpop|r q Hpop|r|r]; cbn in Hr.
  - split; try done; unfold drain_coming, drain_owned; cbn; rewrite ?Hx; rewrite Hp in Hf, Hq, Hr.
    + intros Ha E. destruct (Hf Ha E) as [H|H]; [|by right]. left.
      apply elem_of_cons in H as [[=]|H]. done.
    + intros Ha E. destruct (Hq Ha E) as [H|[[H|H]|[]]]; [by left| |by right; left; right].
      right; left; left. by apply elem_of_cons in H as [[=]|H].
    + rewrite Hr. unfold undelivered. cbn. rewrite Hx. cbn. solve_Permutation.
  - split; try done; unfold drain_coming, drain_owned; cbn; auto.
    + rewrite Hr. unfold undelivered. cbn. rewrite Hp. done.
    + intros n [= <-]. lia.
  - destruct (owners_tail s r q Hinv' Hpop) as [Ho' Hsg']. apply can_pop_some in Hpop.
    split; try done; unfold drain_coming, drain_owned; cbn; auto.
    + rewrite Hr. unfold undelivered. cbn. rewrite Hpop. cbn. solve_Permutation.
    + intros m [= <-]. specialize (Hd n Hx). lia.
  - split; try done; unfold drain_coming, drain_owned; cbn; auto.
  - assert (set_io IIdle (post PostDrain s) = post PostDrain (set_io IIdle s)) as ->
      by (unfold post; cbn; by destruct (ch_accepting s)).
    apply cinv_posted; try done; [by auto|by auto|]. cbn. rewrite Hr, app_nil_r. done.
  - rewrite Htso. split; try done; unfold drain_coming, drain_owned; cbn; auto.
  - split; try done; unfold drain_coming, drain_owned; cbn; auto.
    intros _ E. destruct (can_pop_none s Hinv' Hpop) as [?|?]; [done|by left].
  - destruct (owners_tail s r q Hinv' Hpop) as [Ho' Hsg']. apply can_pop_some in Hpop.
    split; try done; unfold drain_coming, drain_owned; cbn; auto.
    rewrite Hr. unfold undelivered. cbn. rewrite Hpop. done.
  - split; try done; unfold drain_coming, drain_owned; cbn; auto.
  - split; try done; unfold drain_coming, drain_owned; cbn; auto.
    + rewrite Hr. unfold undelivered. cbn. solve_Permutation.
    + intros n [= <-]. lia.
Qed.

Lemma cinv_new n : cinv (channel_new n).
Proof.
  split; try done; cbn; intros *; rewrite ?lookup_nil; done.
Qed.

Lemma cinv_step s s' : tso = false -> cinv s -> cstep s s' -> cinv s'.
Proof.
  intros Ht Hinv [i w Hi Hs|i w Hi Hs|Hs|Hb _| ->].
  - by eapply cinv_post.
  - by eapply cinv_schedule.
  - by eapply cinv_drain.
  - destruct Hinv. congruence.
  - destruct Hinv. by split.
Qed.

Lemma cinv_reachable n s : tso = false -> rtc cstep (channel_new n) s -> cinv s.
Proof.
  intros Ht. apply (rtc_preserves cstep cinv); [|apply cinv_new]. intros u v Hu. by apply cinv_step.
Qed.

(** ** The queue is the one MpscQueue implements *)

Definition queue_view (q : list (R * option nat)) : list (R * bool) :=
  (fun x => (x.1, bool_decide (x.2 = None))) <$> q.

(** The accesses of the channel to its queue are steps of the abstract queue. *)
Lemma channel_uses_queue s :
  (forall r i, len (ch_queue s) < capacity ->
     astep capacity (queue_view (ch_queue s)) (QReserve r) (queue_view (ch_queue s ++ [(r, Some i)]))) /\
  (forall k r i, ch_queue s !! k = Some (r, Some i) ->
     astep capacity (queue_view (ch_queue s)) (QPublish k) (queue_view (publish_item k (ch_queue s)))) /\
  (forall r q, can_pop s = Some (r, q) ->
     astep capacity (queue_view (ch_queue s)) (QPop r) (queue_view q)) /\
  (can_pop s = None -> astep capacity (queue_view (ch_queue s)) QNone (queue_view (ch_queue s))).
Proof.
  unfold queue_view. split_and!.
  - intros r i Hroom. rewrite fmap_app. constructor. unfold len in *. by rewrite length_fmap.
  - intros k r i Hk. unfold publish_item.
    assert ((fun x : R * option nat => (x.1, bool_decide (x.2 = None))) <$>
      alter (fun x => (x.1, None)) k (ch_queue s) =
      <[k := (r, true)]> ((fun x => (x.1, bool_decide (x.2 = None))) <$> ch_queue s)) as ->.
    { apply list_eq. intros j. rewrite list_lookup_fmap. destruct (decide (k = j)) as [<-|Hne].
      - rewrite list_lookup_alter_eq, Hk, list_lookup_insert_eq; [done|]. rewrite length_fmap.
        by eapply lookup_lt_Some.
      - by rewrite list_lookup_alter_ne, list_lookup_insert_ne, list_lookup_fmap. }
    constructor. by rewrite list_lookup_fmap, Hk.
  - intros r q Hp. apply can_pop_some in Hp as ->. cbn. constructor.
  - intros Hp. constructor. unfold can_pop in Hp. intros v b Hh.
    destruct (ch_queue s) as [|[r [i|]] q]; [done| |done]. by injection Hh as <- <-.
Qed.

(** ** Properties *)

(** Nobody has anything left to do. *)
Definition quiescent (s : channel) : Prop :=
  (forall i w, ch_workers s !! i = Some w -> w = WIdle) /\ ch_posted s = [] /\ ch_io s = IIdle.

(** C20: no worker result is lost or duplicated before the context is told to stop,
    when clearing the flag is visible at once.  In every interleaving each result
    given to [PostWorkerResult] is in one place: handled, in the queue, in a posted
    callback, in the hands of the I/O thread, or in a callback that the context
    refused, which it does only after the stop.  Before the stop a result in the
    queue has a drain scheduled or running, or a worker about to look at the flag;
    when the workers are done, no callback is posted and the I/O thread is idle, all
    results have been handled.  The I/O thread is never stuck while a callback is
    posted or a drain is running. *)
Theorem Results_none_lost n s :
  tso = false -> rtc cstep (channel_new n) s ->
  ch_sent s ≡ₚ ch_handled s ++ undelivered s ++ ch_dropped s /\
  (ch_accepting s = true ->
     ch_dropped s = [] /\ (ch_queue s <> [] -> drain_coming s) /\
     (quiescent s -> ch_sent s ≡ₚ ch_handled s)) /\
  (ch_posted s <> [] \/ ch_io s <> IIdle -> exists s', DrainWorkerResults_step s (ch_io s) s').
Proof.
  intros Ht Hr. destruct (cinv_reachable n s Ht Hr) as [Hf Hq Ho _ _ Hres Hdr Hd].
  split; [done|split].
  - intros Ha. split_and!; [by auto|by auto|].
    intros (Hw & Hp & Hio). rewrite Hres, Hdr by done. unfold undelivered. rewrite Hio, Hp. cbn.
    rewrite !app_nil_r. assert (ch_queue s = []) as ->; [|by rewrite app_nil_r].
    destruct (ch_queue s) as [|x q] eqn:E; [done|exfalso].
    destruct (Hq Ha) as [[i [H|H]]|[[H|[[i H]|H]]|H]]; [done|by apply Hw in H..| | | |];
      rewrite ?Hp, ?Hio in H; try done; [by apply elem_of_nil in H|by apply Hw in H].
  - intros Hbusy. destruct (ch_io s) as [|k| | |r|r] eqn:Hio.
    + destruct Hbusy as [Hp|]; [|done]. destruct (ch_posted s) as [|[|r] l] eqn:E; [done|..];
        eexists; [by eapply run_drain|by eapply run_handle].
    + specialize (Hd k eq_refl). destruct (decide (k = MAX_WORKER_RESULTS_PER_DRAIN)) as [->|].
      { eexists. by apply drain_yield. }
      destruct (can_pop s) as [[r q]|] eqn:Ep; eexists; [eapply drain_one|eapply drain_none]; eauto; lia.
    + eexists. apply drain_clear.
    + destruct (can_pop s) as [[r q]|] eqn:Ep; eexists; [by eapply recheck_one|by eapply recheck_none].
    + eexists. apply drain_rearm.
    + eexists. apply drain_handle.
Qed.

End channel.

(** ** Runs with the constants of the code *)

Definition DEFAULT_WORKER_RESULT_QUEUE_CAPACITY : Z := 4096.
Definition MAX_WORKER_RESULTS_PER_DRAIN : Z := 256.

#[local] Notation code_step :=
  (@cstep Z DEFAULT_WORKER_RESULT_QUEUE_CAPACITY MAX_WORKER_RESULTS_PER_DRAIN).

(** One step of a run by the given rule. *)
Tactic Notation "worker_posts" uconstr(rule) :=
  eapply rtc_l; [eapply cstep_post with (i := 0%nat); [reflexivity|eapply rule; done]|].
Tactic Notation "worker_schedules" uconstr(rule) :=
  eapply rtc_l; [eapply cstep_schedule with (i := 0%nat); [reflexivity|eapply rule; done]|].
Tactic Notation "io_thread" uconstr(rule) :=
  eapply rtc_l; [apply cstep_drain; eapply rule; done|].

(** A worker's result is in the queue, published, and its drain is running. *)
Definition example_channel : channel (R := Z) :=
  MkChannel [] true false [] [WIdle] (IDrain 1) [1] 1 [1] true [].

Lemma example_channel_reachable tso : rtc (code_step tso) (channel_new 1) example_channel.
Proof.
  worker_posts (result_reserve _ _ _ 1). worker_posts (result_publish _ _ _ 0 1).
  worker_schedules schedule_first. worker_schedules schedule_posts.
  io_thread run_drain. io_thread (drain_one _ _ _ 0 1 []). apply rtc_refl.
Qed.

(** With a store buffer the second look at the queue may come before the cleared
    flag is visible: the worker still sees the flag set and schedules nothing,
    and its result stays in the queue with everybody idle. *)
Theorem DrainWorkerResults_lost_wakeup :
  exists s, rtc (code_step true) (channel_new 1) s /\
    quiescent s /\ ch_store_buffer s = false /\ ch_scheduled s = false /\
    ch_queue s = [(2, None)] /\ ch_sent s = [1; 2] /\ ch_handled s = [1].
Proof.
  eexists. split; [etrans; [apply example_channel_reachable|]|].
  - io_thread drain_none. io_thread drain_clear. io_thread recheck_none.
    worker_posts (result_reserve _ _ _ 2). worker_posts (result_publish _ _ _ 0 2).
    worker_schedules schedule_already.
    eapply rtc_l; [by apply cstep_flush|]. apply rtc_refl.
  - split_and!; try done. split_and!; try done.
    intros i w Hi. change ([WIdle] !! i = Some w) in Hi.
    by apply list_lookup_singleton_Some in Hi as [_ <-].
Qed.

(** The first callback, at its second look at the queue. *)
Definition example_busy (posted : list callback) (handled : list Z) : channel :=
  MkChannel [] false false posted [WIdle] IRecheck handled 1 handled true [].

(** One callback can handle any number of results: each time it looks again a
    worker has published one more. *)
Theorem DrainWorkerResults_unbounded n :
  exists posted handled, rtc (code_step false) (channel_new 1) (example_busy posted handled) /\
    len handled = Z.of_nat n + 1.
Proof.
  induction n as [|n (posted & handled & Hr & Hl)].
  - exists [], [1]. split; [|done]. etrans; [apply example_channel_reachable|].
    io_thread drain_none. io_thread drain_clear. apply rtc_refl.
  - exists (posted ++ [PostDrain]), (handled ++ [2]). split.
    + etrans; [exact Hr|].
      worker_posts (result_reserve _ _ _ 2). worker_posts (result_publish _ _ _ 0 2).
      worker_schedules schedule_first. worker_schedules schedule_posts.
      io_thread (recheck_one _ _ _ 2 []). io_thread drain_rearm. io_thread drain_handle.
      io_thread drain_none. io_thread drain_clear. apply rtc_refl.
    + rewrite len_app, Hl. change (len [2]) with 1. lia.
Qed.

Lemma Results_none_lost_witness :
  exists s', DrainWorkerResults_step MAX_WORKER_RESULTS_PER_DRAIN false example_channel
    (ch_io example_channel) s'.
Proof.
  destruct (Results_none_lost (R := Z) DEFAULT_WORKER_RESULT_QUEUE_CAPACITY MAX_WORKER_RESULTS_PER_DRAIN
    false ltac:(reflexivity) 1 example_channel eq_refl (example_channel_reachable false)) as (_ & _ & H).
  apply H. right. discriminate.
Defined.
