(* ===== verification/UringContext.v ===== *)
(** * The io_uring execution context

    Models [src/io/uring/context.cpp] and its header: the operations a context
    owns from the start of an I/O request to its final completion, the awaitables
    that wait for them, batched submission, the dispatch of completions and the
    event loop.  The posting of callbacks from other threads is in the file
    PostedCallbacks.

    Everything here runs on the thread that called [Run].  The loop calls into
    coroutines and posted callbacks, which start and cancel operations before
    they give control back: [frame_] records where the loop is, and such calls
    are events of their own.  Heap addresses are integers; the kernel borrows the
    address of an operation through the submission entry.

    The kernel decides the completions, the answers of [io_uring_submit] and the
    choice of a provided buffer.  [None] is [Abort], a failed assertion or an
    exception that ends the event loop.

    The theorems show that a context and its awaitables never lose track of an
    operation: whatever completes in whatever order, none of the checks that
    abort the process fires as long as the awaitables are used as documented. *)

From S2P Require Import Prelude Status BufferPool Socket.

Local Open Scope Z_scope.

Definition ECANCELED : Z := 125.
Definition ENOENT : Z := 2.
Definition EALREADY : Z := 114.
Definition ENOBUFS : Z := 105.
Definition POLLIN : Z := 1.

(** ** Data *)

Inductive OperationType := OpUnknown | OpAccept | OpRecv | OpRecvProvided | OpSend.

Inductive CompletionCategory := CatAwaitable | CatCancel | CatWakeup.

#[global] Instance OperationType_eq_dec : EqDecision OperationType.
Proof. solve_decision. Defined.
#[global] Instance CompletionCategory_eq_dec : EqDecision CompletionCategory.
Proof. solve_decision. Defined.

Record Operation := MkOperation {
  owner_index_ : Z;
  type_ : OperationType;
  completion_category_ : CompletionCategory;
  op_fd_ : Z;
  op_buffer_ : Z;
  length_ : Z;
  awaitable_ : option Z;
  multishot_ : bool
}.

Definition Operation_new : Operation := MkOperation 0 OpUnknown CatAwaitable (-1) 0 0 None false.

Definition set_owner_index (i : Z) (o : Operation) : Operation :=
  MkOperation i (type_ o) (completion_category_ o) (op_fd_ o) (op_buffer_ o) (length_ o)
    (awaitable_ o) (multishot_ o).

Definition set_awaitable (w : Z) (o : Operation) : Operation :=
  MkOperation (owner_index_ o) (type_ o) (completion_category_ o) (op_fd_ o) (op_buffer_ o) (length_ o)
    (Some w) (multishot_ o).

Record IoResult := MkIoResult {
  io_type_ : OperationType;
  io_fd_ : Z;
  result_ : Z;
  error_code_ : Z;
  bytes_transferred_ : Z;
  is_final_ : bool;
  buffer_group_ : Z;
  io_buffer_ : UringBuffer
}.

Definition IoResult_new : IoResult := MkIoResult OpUnknown (-1) 0 0 0 true 0 UringBuffer_empty.

Definition MakeCancelledResult (o : Operation) : IoResult :=
  MkIoResult (type_ o) (op_fd_ o) (- ECANCELED) ECANCELED 0 true 0 UringBuffer_empty.

(** [continuation_] is whether a coroutine waits. *)
Record UringAwaitable := MkAwaitable {
  owned_operation_ : option Z;
  handed_off_operation_ : option Z;
  continuation_ : bool;
  aw_result_ : IoResult;
  result_ready_ : bool
}.

(** Where the event loop is: not started, at the loop condition, inside a batch
    after [n] completions, inside a coroutine resumed through awaitable [w], in
    the posted callbacks of a wakeup, or returned. *)
Inductive run_frame :=
  | FStart
  | FTop
  | FBatch (n : Z)
  | FResumed (n w : Z) (is_final : bool)
  | FCallbacks (n : Z) (has_more : bool)
  | FDone.

(** [sq_] are the prepared entries the kernel has not taken, [kernel_] the
    operations it works on. *)
Record Uring := MkUring {
  run_thread_id_ : Z;
  stop_requested_ : bool;
  operations_ : list Z;
  operations_capacity : Z;
  staged_sqe_count_ : Z;
  wakeup_poll_cancel_submitted_ : bool;
  provided_buffer_enobufs_ : Z;
  stats_window_id_ : Z;
  provided_buffer_pool_ : option UringProvidedBufferPool;
  wakeup_fd : Z;
  sq_ : list Z;
  kernel_ : list Z;
  ring_entries : Z;
  heap_ : gmap Z Operation;
  awaitables_ : gmap Z UringAwaitable;
  next_address : Z;
  frame_ : run_frame
}.

Definition set_submission (ops : list Z) (cap staged : Z) (sq kernel : list Z) (heap : gmap Z Operation)
    (u : Uring) : Uring :=
  MkUring (run_thread_id_ u) (stop_requested_ u) ops cap staged (wakeup_poll_cancel_submitted_ u)
    (provided_buffer_enobufs_ u) (stats_window_id_ u) (provided_buffer_pool_ u) (wakeup_fd u) sq kernel
    (ring_entries u) heap (awaitables_ u) (next_address u) (frame_ u).

Definition set_awaitables (m : gmap Z UringAwaitable) (u : Uring) : Uring :=
  MkUring (run_thread_id_ u) (stop_requested_ u) (operations_ u) (operations_capacity u)
    (staged_sqe_count_ u) (wakeup_poll_cancel_submitted_ u) (provided_buffer_enobufs_ u)
    (stats_window_id_ u) (provided_buffer_pool_ u) (wakeup_fd u) (sq_ u) (kernel_ u) (ring_entries u)
    (heap_ u) m (next_address u) (frame_ u).

Definition set_heap (heap : gmap Z Operation) (next : Z) (u : Uring) : Uring :=
  MkUring (run_thread_id_ u) (stop_requested_ u) (operations_ u) (operations_capacity u)
    (staged_sqe_count_ u) (wakeup_poll_cancel_submitted_ u) (provided_buffer_enobufs_ u)
    (stats_window_id_ u) (provided_buffer_pool_ u) (wakeup_fd u) (sq_ u) (kernel_ u) (ring_entries u)
    heap (awaitables_ u) next (frame_ u).

Definition set_frame (f : run_frame) (u : Uring) : Uring :=
  MkUring (run_thread_id_ u) (stop_requested_ u) (operations_ u) (operations_capacity u)
    (staged_sqe_count_ u) (wakeup_poll_cancel_submitted_ u) (provided_buffer_enobufs_ u)
    (stats_window_id_ u) (provided_buffer_pool_ u) (wakeup_fd u) (sq_ u) (kernel_ u) (ring_entries u)
    (heap_ u) (awaitables_ u) (next_address u) f.

Definition set_control (thread : Z) (stop cancel : bool) (u : Uring) : Uring :=
  MkUring thread stop (operations_ u) (operations_capacity u) (staged_sqe_count_ u) cancel
    (provided_buffer_enobufs_ u) (stats_window_id_ u) (provided_buffer_pool_ u) (wakeup_fd u) (sq_ u)
    (kernel_ u) (ring_entries u) (heap_ u) (awaitables_ u) (next_address u) (frame_ u).

Definition set_stats (enobufs window : Z) (pool : option UringProvidedBufferPool) (u : Uring) : Uring :=
  MkUring (run_thread_id_ u) (stop_requested_ u) (operations_ u) (operations_capacity u)
    (staged_sqe_count_ u) (wakeup_poll_cancel_submitted_ u) enobufs window pool (wakeup_fd u) (sq_ u)
    (kernel_ u) (ring_entries u) (heap_ u) (awaitables_ u) (next_address u) (frame_ u).

(** The kernel queues: the entry of operation [a] is prepared. *)
Definition prepare_sqe (a : Z) (u : Uring) : Uring :=
  set_submission (operations_ u) (operations_capacity u) (staged_sqe_count_ u) (sq_ u ++ [a])
    (kernel_ u) (heap_ u) u.

(** ** Construction, ownership of the run thread *)

(** [pool] is the registered pool, [fd] the eventfd. *)
Definition UringContext_new (entries : Z) (pool : option UringProvidedBufferPool) (fd : Z) : Uring :=
  MkUring 0 false [] entries 0 false 0 0 pool fd [] [] entries ∅ ∅ 0 FStart.

Definition UringContext_destroy (u : Uring) : option unit :=
  if negb (bool_decide (operations_ u = [])) then
    Abort "UringContext destroyed before its operations were drained"
  else Some tt.

Definition FINISHED_RUN_THREAD_ID : Z := -1.

Definition AcquireRunOwnership (thread : Z) (u : Uring) : option Uring :=
  if run_thread_id_ u =? 0 then
    Some (set_control thread (stop_requested_ u) (wakeup_poll_cancel_submitted_ u) u)
  else Abort "UringContext::Run called more than once, or while another thread owns the context".

Definition ReleaseRunOwnership (u : Uring) : Uring :=
  set_control FINISHED_RUN_THREAD_ID (stop_requested_ u) (wakeup_poll_cancel_submitted_ u) u.

Definition AssertRunThread (thread : Z) (u : Uring) : option unit :=
  if run_thread_id_ u =? thread then Some tt else Abort "outside the owning Run thread".

Definition IsRunning (u : Uring) : bool := 0 <? run_thread_id_ u.

(** ** Deferred I/O *)

(** An awaitable with its operation, at two new addresses; nothing reaches the
    kernel. *)
Definition new_awaitable (o : Operation) (multishot : bool) (u : Uring) : Z * Uring :=
  let a := next_address u in
  let o := MkOperation (owner_index_ o) (type_ o) (completion_category_ o) (op_fd_ o) (op_buffer_ o)
             (length_ o) (awaitable_ o) multishot in
  (a + 1,
   set_awaitables (<[a + 1 := MkAwaitable (Some a) None false IoResult_new false]> (awaitables_ u))
     (set_heap (<[a := o]> (heap_ u)) (a + 2) u)).

Definition with_parameters (t : OperationType) (fd buffer len : Z) : Operation :=
  MkOperation 0 t CatAwaitable fd buffer len None false.

Definition UringContext_Accept (listen_fd : Z) (u : Uring) : Z * Uring :=
  new_awaitable (with_parameters OpAccept listen_fd 0 0) false u.

Definition UringContext_AcceptMultishot (listen_fd : Z) (u : Uring) : Z * Uring :=
  new_awaitable (with_parameters OpAccept listen_fd 0 0) true u.

Definition UringContext_Recv (fd buffer len : Z) (u : Uring) : Z * Uring :=
  new_awaitable (with_parameters OpRecv fd buffer len) false u.

(** [None]: the context has no pool, and the call throws. *)
Definition UringContext_RecvProvided (fd : Z) (u : Uring) : option (Z * Uring) :=
  match provided_buffer_pool_ u with
  | None => None
  | Some _ => Some (new_awaitable (with_parameters OpRecvProvided fd 0 0) false u)
  end.

Definition UringContext_Send (fd buffer len : Z) (u : Uring) : Z * Uring :=
  new_awaitable (with_parameters OpSend fd buffer len) false u.

(** ** Staging and submission *)

(** [answers] are the results of the calls of [io_uring_submit]; a script that
    ends early is [None] too. *)
Fixpoint SubmitStagedSqes (answers : list Z) (u : Uring) : option Uring :=
  if staged_sqe_count_ u =? 0 then Some u else
  match answers with
  | [] => None
  | ret :: answers =>
      if ret =? - EINTR then SubmitStagedSqes answers u
      else if ret <? 0 then None
      else if ret =? 0 then Abort "io_uring_submit returned zero while operations remain staged"
      else if staged_sqe_count_ u <? ret then
        Abort "io_uring_submit reported more operations than were staged"
      else
        SubmitStagedSqes answers
          (set_submission (operations_ u) (operations_capacity u) (staged_sqe_count_ u -u ret)%word
             (drop (Z.to_nat ret) (sq_ u)) (kernel_ u ++ take (Z.to_nat ret) (sq_ u)) (heap_ u) u)
  end.

(** [kernel n] is what the kernel answers while [n] entries are staged. *)
Definition Submit (kernel : Z -> list Z) (u : Uring) : option Uring :=
  SubmitStagedSqes (kernel (staged_sqe_count_ u)) u.

(** [io_uring_get_sqe] gives an entry while the queue has room. *)
Definition has_sqe (u : Uring) : bool := len (sq_ u) <? ring_entries u.

Definition AcquireSqe (kernel : Z -> list Z) (u : Uring) : option Uring :=
  let u := if len (operations_ u) =? operations_capacity u
           then set_submission (operations_ u) (operations_capacity u *u 2)%word (staged_sqe_count_ u)
                  (sq_ u) (kernel_ u) (heap_ u) u
           else u in
  if has_sqe u then Some u else
  if staged_sqe_count_ u =? 0 then None else
  u ← Submit kernel u;
  if has_sqe u then Some u else None.

Definition StageOperation (a : Z) (u : Uring) : option Uring :=
  if negb (len (operations_ u) <? operations_capacity u) then Abort "assertion failed" else
  operation ← heap_ u !! a;
  Some (set_submission (operations_ u ++ [a]) (operations_capacity u) (staged_sqe_count_ u +u 1)%word
          (sq_ u) (kernel_ u) (<[a := set_owner_index (len (operations_ u)) operation]> (heap_ u)) u).

(** The operation leaves the vector, its slot is filled with the last one, and
    its memory is given back; the value returned is the operation. *)
Definition TakeOperation (a : Z) (u : Uring) : option (Operation * Uring) :=
  operation ← heap_ u !! a;
  let index := Z.to_nat (owner_index_ operation) in
  last_address ← last (operations_ u);
  last_operation ← heap_ u !! last_address;
  let n := (length (operations_ u) - 1)%nat in
  let moved := if bool_decide (index = n) then operations_ u
               else <[index := last_address]> (operations_ u) in
  let heap := if bool_decide (index = n) then heap_ u
              else <[last_address := set_owner_index (owner_index_ operation) last_operation]> (heap_ u) in
  Some (operation, set_submission (take n moved) (operations_capacity u) (staged_sqe_count_ u) (sq_ u)
                     (kernel_ u) (delete a heap) u).

(** The preparation of an entry: which requests are known. *)
Definition prepares (o : Operation) (u : Uring) : bool :=
  match type_ o with
  | OpUnknown => false
  | OpRecvProvided => match provided_buffer_pool_ u with Some _ => true | None => false end
  | _ => true
  end.

Definition TryStartOperation (thread : Z) (kernel : Z -> list Z) (a : option Z) (u : Uring)
    : option (bool * Uring) :=
  _ ← AssertRunThread thread u;
  match a with
  | None => Abort "UringContext attempted to start an empty operation"
  | Some a =>
      if stop_requested_ u then Some (false, u) else
      u ← AcquireSqe kernel u;
      operation ← heap_ u !! a;
      if negb (prepares operation u) then Abort "an operation that cannot be prepared" else
      u ← StageOperation a (prepare_sqe a u);
      Some (true, u)
  end.

(** ** Awaitables *)

Definition set_one_awaitable (w : Z) (x : UringAwaitable) (u : Uring) : Uring :=
  set_awaitables (<[w := x]> (awaitables_ u)) u.

(** [true]: the coroutine is suspended; [false]: the start was rejected and the
    coroutine goes on with the cancelled result. *)
Definition await_suspend (thread : Z) (kernel : Z -> list Z) (w : Z) (u : Uring) : option (bool * Uring) :=
  x ← awaitables_ u !! w;
  match handed_off_operation_ x with
  | Some a =>
      operation ← heap_ u !! a;
      if negb (multishot_ operation) then
        Abort "one-shot UringAwaitable awaited again while its operation is pending"
      else if continuation_ x then Abort "multishot UringAwaitable already has a waiting coroutine"
      else Some (true, set_one_awaitable w
             (MkAwaitable (owned_operation_ x) (Some a) true (aw_result_ x) (result_ready_ x)) u)
  | None =>
      match owned_operation_ x with
      | None => Abort "UringAwaitable awaited after its operation was consumed"
      | Some a =>
          operation ← heap_ u !! a;
          let u := set_heap (<[a := set_awaitable w operation]> (heap_ u)) (next_address u) u in
          '(started, u) ← TryStartOperation thread kernel (Some a) u;
          if negb started then
            Some (false,
              set_one_awaitable w
                (MkAwaitable None None (continuation_ x) (MakeCancelledResult operation) true)
                (set_heap (delete a (heap_ u)) (next_address u) u))
          else
            Some (true, set_one_awaitable w
              (MkAwaitable None (Some a) true (aw_result_ x) (result_ready_ x)) u)
      end
  end.

Definition await_resume (w : Z) (u : Uring) : option (IoResult * Uring) :=
  x ← awaitables_ u !! w;
  if negb (result_ready_ x) then Abort "UringAwaitable resumed without an operation result" else
  Some (aw_result_ x, set_one_awaitable w
    (MkAwaitable (owned_operation_ x) (handed_off_operation_ x) (continuation_ x) IoResult_new false) u).

(** The destructor; an operation that was never started goes with it. *)
Definition UringAwaitable_destroy (w : Z) (u : Uring) : option Uring :=
  x ← awaitables_ u !! w;
  match handed_off_operation_ x with
  | Some _ => Abort "UringAwaitable destroyed while an I/O operation is pending"
  | None =>
      let heap := match owned_operation_ x with Some a => delete a (heap_ u) | None => heap_ u end in
      Some (set_awaitables (delete w (awaitables_ u)) (set_heap heap (next_address u) u))
  end.

(** ** Completions *)

(** [user_data], [res], the flag MORE, and the selected buffer if any. *)
Record Cqe := MkCqe {
  cqe_data : option Z;
  cqe_res : Z;
  cqe_more : bool;
  cqe_buffer : option Z
}.

Definition transfers (t : OperationType) : bool :=
  match t with OpRecv | OpRecvProvided | OpSend => true | _ => false end.

(** [ProcessAwaitableCqe] up to [continuation.resume()]: the result is stored,
    a final operation is cleared, the coroutine is taken. *)
Definition ProcessAwaitableCqe (n : Z) (operation : Operation) (cqe : Cqe) (is_final : bool) (u : Uring)
    : option Uring :=
  match awaitable_ operation with
  | None => Abort "UringContext completed an operation without an awaitable"
  | Some w =>
      x ← awaitables_ u !! w;
      let enobufs :=
        if bool_decide (type_ operation = OpRecvProvided) && (cqe_res cqe =? - ENOBUFS)
        then (provided_buffer_enobufs_ u +u 1)%word else provided_buffer_enobufs_ u in
      let transferred :=
        if transfers (type_ operation)
        then (if 0 <? cqe_res cqe then cqe_res cqe else 0) else bytes_transferred_ (aw_result_ x) in
      '(pool, group, buffer) ←
        (if bool_decide (type_ operation = OpRecvProvided) then
           pool ← provided_buffer_pool_ u;
           match cqe_buffer cqe with
           | Some id => '(pool, buffer) ← Pool_Acquire pool id transferred;
                        Some (Some pool, group_id_ (pool_config_ pool), buffer)
           | None => Some (Some pool, group_id_ (pool_config_ pool), io_buffer_ (aw_result_ x))
           end
         else Some (provided_buffer_pool_ u, buffer_group_ (aw_result_ x), io_buffer_ (aw_result_ x)));
      let result := MkIoResult (type_ operation) (op_fd_ operation) (cqe_res cqe)
                      (if cqe_res cqe <? 0 then - cqe_res cqe else 0) transferred is_final group buffer in
      if negb (continuation_ x) then
        Abort "UringContext completed an awaitable operation without a continuation"
      else
        Some (set_frame (FResumed n w is_final)
               (set_one_awaitable w
                  (MkAwaitable (owned_operation_ x)
                     (if is_final then None else handed_off_operation_ x) false result true)
                  (set_stats enobufs (stats_window_id_ u) pool u)))
  end.

(** The rest of [ProcessAwaitableCqe], when the coroutine gave control back. *)
Definition ResumeReturns (u : Uring) : option Uring :=
  match frame_ u with
  | FResumed n w is_final =>
      if is_final then Some (set_frame (FBatch n) u) else
      x ← awaitables_ u !! w;
      if negb (continuation_ x) then
        Abort "multishot consumer must await the operation again before yielding"
      else Some (set_frame (FBatch n) u)
  | _ => None
  end.

Definition ProcessCancelCqe (n : Z) (cqe : Cqe) (u : Uring) : option Uring :=
  let result := cqe_res cqe in
  let error_code := if result <? 0 then - result else 0 in
  if (result <? 0) && negb (error_code =? ENOENT) && negb (error_code =? EALREADY) &&
     negb (error_code =? ECANCELED)
  then None else Some (set_frame (FBatch n) u).

(** [CancelFd] *)
Definition CancelFd (thread : Z) (kernel : Z -> list Z) (fd : Z) (u : Uring) : option Uring :=
  if (fd <? 0) || negb (IsRunning u) then Some u else
  _ ← AssertRunThread thread u;
  let a := next_address u in
  let operation := MkOperation 0 OpUnknown CatCancel fd 0 0 None false in
  let u := set_heap (<[a := operation]> (heap_ u)) (a + 1) u in
  u ← AcquireSqe kernel u;
  u ← StageOperation a (prepare_sqe a u);
  Submit kernel u.

Definition StageWakeupPoll (thread : Z) (kernel : Z -> list Z) (u : Uring) : option Uring :=
  _ ← AssertRunThread thread u;
  let a := next_address u in
  let operation := MkOperation 0 OpUnknown CatWakeup (wakeup_fd u) 0 0 None true in
  let u := set_heap (<[a := operation]> (heap_ u)) (a + 1) u in
  u ← AcquireSqe kernel u;
  StageOperation a (prepare_sqe a u).

(** [ProcessWakeupCqe] up to the posted callbacks. *)
Definition ProcessWakeupCqe (n : Z) (cqe : Cqe) (has_more : bool) (u : Uring) : option Uring :=
  let result := cqe_res cqe in
  let error_code := if result <? 0 then - result else 0 in
  if result <? 0 then
    if stop_requested_ u && (error_code =? ECANCELED) && negb has_more then
      Some (set_frame (FBatch n) (set_control (run_thread_id_ u) (stop_requested_ u) false u))
    else None
  else if Z.land result POLLIN =? 0 then None
  else Some (set_frame (FCallbacks n has_more) u).

(** The rest of [ProcessWakeupCqe], after [RunPostedCallbacks]. *)
Definition CallbacksReturn (thread : Z) (kernel : Z -> list Z) (u : Uring) : option Uring :=
  match frame_ u with
  | FCallbacks n has_more =>
      let u := set_frame (FBatch n) u in
      if stop_requested_ u then
        if has_more && negb (wakeup_poll_cancel_submitted_ u) then
          CancelFd thread kernel (wakeup_fd u)
            (set_control (run_thread_id_ u) (stop_requested_ u) true u)
        else Some u
      else if negb has_more then StageWakeupPoll thread kernel u
      else Some u
  | _ => None
  end.

(** [ProcessCqe]: completion number [n] of the batch.  The operation of a final
    completion leaves the context before it is dispatched. *)
Definition ProcessCqe (n : Z) (cqe : Cqe) (u : Uring) : option Uring :=
  match cqe_data cqe with
  | None => Abort "UringContext received a CQE without operation data"
  | Some a =>
      operation ← heap_ u !! a;
      let is_final := negb (multishot_ operation) || negb (cqe_more cqe) in
      if (len (operations_ u) <=? owner_index_ operation) ||
         negb (bool_decide (operations_ u !! Z.to_nat (owner_index_ operation) = Some a))
      then Abort "UringContext received a CQE for an untracked operation"
      else
        u ← (if is_final then '(_, u) ← TakeOperation a u; Some u else Some u);
        match completion_category_ operation with
        | CatAwaitable => ProcessAwaitableCqe n operation cqe is_final u
        | CatCancel => ProcessCancelCqe n cqe u
        | CatWakeup => ProcessWakeupCqe n cqe (cqe_more cqe) u
        end
  end.

(** ** The event loop *)

Definition RequestStop_flag (u : Uring) : Uring :=
  set_control (run_thread_id_ u) true (wakeup_poll_cancel_submitted_ u) u.

Definition Run_start (thread : Z) (kernel : Z -> list Z) (u : Uring) : option Uring :=
  u ← AcquireRunOwnership thread u;
  u ← StageWakeupPoll thread kernel u;
  u ← Submit kernel u;
  Some (set_frame FTop u).

(** The loop condition fails: [Run] returns. *)
Definition Run_finished (u : Uring) : bool := stop_requested_ u && bool_decide (operations_ u = []).

(** A completion is waited for, or found by [io_uring_peek_cqe] within the
    limit of the batch; the kernel is done with the operation of a final one. *)
Definition Run_completion (cqe : Cqe) (u : Uring) : option Uring :=
  match frame_ u with
  | FTop =>
      if negb (staged_sqe_count_ u =? 0) then Abort "UringContext attempted to wait with staged SQEs"
      else ProcessCqe 1 cqe u
  | FBatch n => if n <? ring_entries u then ProcessCqe (n + 1) cqe u else None
  | _ => None
  end.

Definition Run_batch_end (kernel : Z -> list Z) (u : Uring) : option Uring :=
  match frame_ u with
  | FBatch _ => u ← Submit kernel u; Some (set_frame FTop u)
  | _ => None
  end.

Definition UringContext_SnapshotStats (thread : Z) (start_window : bool) (u : Uring)
    : option (Z * Z * option (Z * Z * Z * Z) * Uring) :=
  _ ← AssertRunThread thread u;
  let window := if start_window then (stats_window_id_ u +u 1)%word else stats_window_id_ u in
  let pool := Pool_SnapshotStats start_window <$> provided_buffer_pool_ u in
  Some (provided_buffer_enobufs_ u, window, snd <$> pool,
        set_stats (provided_buffer_enobufs_ u) window (fst <$> pool) u).

(** Evaluate the fields of an updated context. *)
Ltac usimpl :=
  cbn [run_thread_id_ stop_requested_ operations_ operations_capacity staged_sqe_count_
       wakeup_poll_cancel_submitted_ provided_buffer_enobufs_ stats_window_id_ provided_buffer_pool_
       wakeup_fd sq_ kernel_ ring_entries heap_ awaitables_ next_address frame_
       set_submission set_awaitables set_heap set_frame set_control set_stats set_one_awaitable] in *.

(** ** The submission state

    The vector of operations, the kernel's queues and the owner indices. *)

(** Documented answers of [io_uring_submit] while [n] entries are staged: an
    interruption, or a positive number of entries taken. *)
Fixpoint good_answers (n : Z) (answers : list Z) : Prop :=
  match answers with
  | [] => n = 0
  | r :: answers =>
      n <> 0 /\ ((r = - EINTR /\ good_answers n answers) \/ (1 <= r <= n /\ good_answers (n - r) answers))
  end.

Definition kernel_ok (kernel : Z -> list Z) : Prop := forall n, 0 < n -> good_answers n (kernel n).

Record sub_ok (u : Uring) : Prop := {
  so_capacity : 0 < operations_capacity u < 2 ^ 63 /\ len (operations_ u) <= operations_capacity u;
  so_ring : 0 < ring_entries u < 2 ^ 32;
  so_staged : staged_sqe_count_ u = len (sq_ u) /\ len (sq_ u) <= ring_entries u;
  so_tracked : sq_ u ++ kernel_ u ≡ₚ operations_ u;
  so_nodup : NoDup (operations_ u);
  so_index : forall i a, operations_ u !! i = Some a ->
    exists o, heap_ u !! a = Some o /\ owner_index_ o = Z.of_nat i
}.

(** The kernel takes what was staged. *)
Lemma Submit_loop answers u :
  sub_ok u -> good_answers (staged_sqe_count_ u) answers ->
  exists kernel', SubmitStagedSqes answers u =
    Some (set_submission (operations_ u) (operations_capacity u) 0 [] kernel' (heap_ u) u) /\
    kernel' ≡ₚ sq_ u ++ kernel_ u.
Proof.
  revert u. induction answers as [|r answers IH]; intros u Hs Ha; simpl in Ha; cbn [SubmitStagedSqes].
  - destruct Hs as [_ _ [Hst _] _ _ _]. rewrite Ha in *. symmetry in Hst. apply len_0_nil in Hst.
    exists (kernel_ u). rewrite Hst. split; [|done]. destruct u; simpl in *. by subst.
  - destruct Ha as [Hn Ha]. rewrite (proj2 (Z.eqb_neq _ _) Hn).
    destruct Ha as [[-> Ha]|[Hr Ha]]; [by apply IH|].
    pose proof Hs as [Hc Hg [Hst Hle] Hp Hnd Hi].
    rewrite (proj2 (Z.eqb_neq r (- EINTR))), (proj2 (Z.ltb_ge r 0)), (proj2 (Z.eqb_neq r 0)),
      (proj2 (Z.ltb_ge _ r)) by (unfold EINTR; lia).
    assert (Hsub : (staged_sqe_count_ u -u r)%word = staged_sqe_count_ u - r).
    { apply sub64_small; lia. }
    rewrite Hsub. set (u' := set_submission _ _ _ _ _ _ _).
    destruct (IH u') as (kernel' & E & Hk); [|exact Ha|].
    + split; cbn; try done.
      * unfold len in *. rewrite length_drop. lia.
      * rewrite <- Hp. rewrite (Permutation_app_comm (kernel_ u)), app_assoc.
        rewrite (Permutation_app_comm (drop _ _)), take_drop. done.
    + exists kernel'. rewrite E. split; [done|]. rewrite Hk. cbn.
      rewrite (Permutation_app_comm (kernel_ u)), app_assoc, (Permutation_app_comm (drop _ _)), take_drop.
      done.
Qed.

Lemma Submit_ok kernel u :
  sub_ok u -> kernel_ok kernel ->
  exists kernel', Submit kernel u =
    Some (set_submission (operations_ u) (operations_capacity u) 0 [] kernel' (heap_ u) u) /\
    sub_ok (set_submission (operations_ u) (operations_capacity u) 0 [] kernel' (heap_ u) u).
Proof.
  intros Hs Hk.
  assert (exists kernel', Submit kernel u =
    Some (set_submission (operations_ u) (operations_capacity u) 0 [] kernel' (heap_ u) u) /\
    kernel' ≡ₚ sq_ u ++ kernel_ u) as (kernel' & E & Hp).
  { unfold Submit. pose proof Hs as [_ _ [Hst _] _ _ _]. pose proof (len_nonneg (sq_ u)).
    destruct (decide (staged_sqe_count_ u = 0)) as [H0|H0].
    - exists (kernel_ u). rewrite H0 in *. symmetry in Hst. apply len_0_nil in Hst. rewrite Hst.
      split; [|done]. destruct (kernel 0); cbn; rewrite H0; cbn; destruct u; simpl in *; by subst.
    - apply Submit_loop; [done|]. apply Hk. lia. }
  exists kernel'. split; [done|]. destruct Hs as [Hc Hg _ Hp' Hnd Hi].
  split; cbn; try done; [split; [done|rewrite len_nil; lia]|]. by rewrite Hp.
Qed.

(** An entry is available, and the vector has room for its operation. *)
Lemma AcquireSqe_ok kernel u :
  sub_ok u -> kernel_ok kernel -> len (operations_ u) < 2 ^ 62 ->
  exists cap staged sq kernel',
    let u' := set_submission (operations_ u) cap staged sq kernel' (heap_ u) u in
    AcquireSqe kernel u = Some u' /\ sub_ok u' /\ len (operations_ u) < cap /\ len sq < ring_entries u.
Proof.
  intros Hs Hk Hm. unfold AcquireSqe. pose proof (len_nonneg (operations_ u)) as Hnn.
  set (u1 := if _ =? _ then _ else u).
  assert (exists cap, u1 = set_submission (operations_ u) cap (staged_sqe_count_ u) (sq_ u) (kernel_ u)
    (heap_ u) u /\ len (operations_ u) < cap < 2 ^ 63) as (cap & E1 & Hcap).
  { destruct Hs as [[Hc1 Hc2] _ _ _ _ _]. unfold u1.
    destruct (len (operations_ u) =? operations_capacity u) eqn:E.
    - apply Z.eqb_eq in E. eexists. split; [done|]. unfold mul64. rewrite wrap_small by (split; lia).
      lia.
    - apply Z.eqb_neq in E. exists (operations_capacity u). split; [by destruct u|lia]. }
  assert (Hs1 : sub_ok u1).
  { rewrite E1. destruct Hs as [[Hc1 Hc2] Hg Hst Hp Hnd Hi]. split; usimpl; done || lia. }
  clearbody u1. subst u1. destruct (has_sqe _) eqn:Hq.
  - exists cap, (staged_sqe_count_ u), (sq_ u), (kernel_ u). split_and!; try done; [lia|].
    unfold has_sqe in Hq. cbn in Hq. lia.
  - pose proof Hs1 as [_ Hg [Hst Hle] _ _ _]. unfold has_sqe in Hq. cbn in *.
    apply Z.ltb_ge in Hq. rewrite (proj2 (Z.eqb_neq (staged_sqe_count_ u) 0)) by lia.
    destruct (Submit_ok kernel _ Hs1 Hk) as (kernel' & E & Hs2). rewrite E. cbn.
    unfold has_sqe. cbn. rewrite len_nil, (proj2 (Z.ltb_lt 0 _)) by lia.
    exists cap, 0, [], kernel'. split_and!; try done; [lia|rewrite len_nil; lia].
Qed.

(** A new operation is staged at the end of the vector. *)
Lemma stage_ok a o u :
  sub_ok u -> heap_ u !! a = Some o -> a ∉ operations_ u -> len (operations_ u) < operations_capacity u ->
  len (sq_ u) < ring_entries u ->
  let u' := set_submission (operations_ u ++ [a]) (operations_capacity u) (staged_sqe_count_ u + 1)
    (sq_ u ++ [a]) (kernel_ u) (<[a := set_owner_index (len (operations_ u)) o]> (heap_ u)) u in
  StageOperation a (prepare_sqe a u) = Some u' /\ sub_ok u'.
Proof.
  intros [[Hc1 Hc2] Hg [Hst Hle] Hp Hnd Hi] Ho Ha Hroom Hsq u'.
  assert (Hadd : (staged_sqe_count_ u +u 1)%word = staged_sqe_count_ u + 1).
  { pose proof (len_nonneg (sq_ u)). apply add64_small; lia. }
  split.
  - unfold StageOperation, prepare_sqe. cbn. rewrite (proj2 (Z.ltb_lt _ _) Hroom), Ho. cbn.
    by rewrite Hadd.
  - unfold u'. split; usimpl.
    + rewrite len_app. change (len [a]) with 1. lia.
    + done.
    + rewrite len_app. change (len [a]) with 1. lia.
    + rewrite <- Hp. solve_Permutation.
    + apply NoDup_app. split_and!; [done| |apply NoDup_singleton].
      intros x Hx Hin. apply list_elem_of_singleton in Hin as ->. done.
    + intros i x Hx. apply lookup_app_Some in Hx as [Hx|[Hge Hx]].
      * assert (x <> a) by (intros ->; apply Ha; by eapply list_elem_of_lookup_2).
        rewrite lookup_insert_ne by done. by apply Hi.
      * apply list_lookup_singleton_Some in Hx as [Hz <-]. eexists. rewrite lookup_insert_eq.
        split; [done|]. cbn. unfold len. lia.
Qed.

(** Starting an operation that is on the heap: an entry is acquired and the
    operation staged. *)
Lemma start_ok kernel a o u :
  sub_ok u -> kernel_ok kernel -> len (operations_ u) < 2 ^ 62 ->
  heap_ u !! a = Some o -> a ∉ operations_ u ->
  exists cap staged sq kernel',
    let u1 := set_submission (operations_ u) cap staged sq kernel' (heap_ u) u in
    let u' := set_submission (operations_ u ++ [a]) cap (staged + 1) (sq ++ [a]) kernel'
      (<[a := set_owner_index (len (operations_ u)) o]> (heap_ u)) u in
    AcquireSqe kernel u = Some u1 /\ StageOperation a (prepare_sqe a u1) = Some u' /\ sub_ok u'.
Proof.
  intros Hs Hk Hm Ho Ha.
  destruct (AcquireSqe_ok kernel u Hs Hk Hm) as (cap & staged & sq & kernel' & E & Hs1 & Hc & Hq).
  destruct (stage_ok a o _ Hs1 Ho Ha Hc Hq) as [E2 Hs2].
  exists cap, staged, sq, kernel'. done.
Qed.

(** The vector after a swap with the last element. *)
Lemma swap_remove (l : list Z) i a :
  NoDup l -> l !! i = Some a ->
  exists b, last l = Some b /\
    let l' := take (length l - 1)
      (if bool_decide (i = (length l - 1)%nat) then l else <[i := b]> l) in
    a :: l' ≡ₚ l /\
    (forall j x, l' !! j = Some x -> (j = i /\ x = b /\ b <> a) \/ (j <> i /\ l !! j = Some x)).
Proof.
  intros Hnd Hi. destruct (last l) as [b|] eqn:Hb; [|by apply last_None in Hb; subst].
  exists b. split; [done|]. rewrite last_lookup in Hb. pose proof (lookup_lt_Some _ _ _ Hi) as Hlt.
  replace (pred (length l)) with (length l - 1)%nat in Hb by lia. intros l'. subst l'.
  destruct (decide (i = (length l - 1)%nat)) as [->|Hne].
  - rewrite bool_decide_true by done. simplify_eq. split.
    + rewrite <- (take_drop_middle l _ _ Hi) at 3. rewrite drop_ge by lia. solve_Permutation.
    + intros j x Hj. right. apply lookup_take_Some in Hj as [Hj Hlt']. split; [lia|done].
  - rewrite bool_decide_false by done.
    assert (b <> a) as Hba.
    { intros ->. apply Hne. by eapply (NoDup_lookup l). }
    split.
    + rewrite take_insert_lt by lia. rewrite <- (take_drop_middle l _ _ Hb) at 3.
      rewrite drop_ge by lia.
      assert (take (length l - 1) l !! i = Some a) as Hti by (rewrite lookup_take_lt by lia; done).
      rewrite <- (take_drop_middle _ _ _ Hti) at 2.
      rewrite insert_take_drop by (by eapply lookup_lt_Some). solve_Permutation.
    + intros j x Hj. apply lookup_take_Some in Hj as [Hj Hlt']. destruct (decide (j = i)) as [->|Hji].
      * rewrite list_lookup_insert_eq in Hj by done. left. by injection Hj as <-.
      * rewrite list_lookup_insert_ne in Hj by done. by right.
Qed.

(** Operations as the rest of the program sees them, without the index. *)
Definition op_at (h : gmap Z Operation) (a : Z) : option Operation := set_owner_index 0 <$> h !! a.

(** [TakeOperation] on a completed operation, of which the kernel is done. *)
Lemma take_ok a i u kernel' :
  sub_ok u -> operations_ u !! i = Some a -> kernel_ u ≡ₚ a :: kernel' ->
  exists o ops' heap',
    heap_ u !! a = Some o /\
    TakeOperation a (set_submission (operations_ u) (operations_capacity u) (staged_sqe_count_ u) (sq_ u)
      kernel' (heap_ u) u) =
      Some (o, set_submission ops' (operations_capacity u) (staged_sqe_count_ u) (sq_ u) kernel' heap' u) /\
    sub_ok (set_submission ops' (operations_capacity u) (staged_sqe_count_ u) (sq_ u) kernel' heap' u) /\
    a :: ops' ≡ₚ operations_ u /\ heap' !! a = None /\
    (forall x, x <> a -> op_at heap' x = op_at (heap_ u) x).
Proof.
  intros [[Hc1 Hc2] Hg [Hst Hle] Hp Hnd Hi] Ha Hk.
  destruct (Hi i a Ha) as (o & Ho & Hoi).
  destruct (swap_remove (operations_ u) i a Hnd Ha) as (b & Hb & Hperm & Hlook).
  destruct (Hi (length (operations_ u) - 1)%nat b) as (ob & Hob & Hobi).
  { rewrite last_lookup in Hb. by replace (pred _) with (length (operations_ u) - 1)%nat in Hb by lia. }
  unfold TakeOperation. usimpl. rewrite Ho. cbn [mbind option_bind]. rewrite Hb. cbn [mbind option_bind].
  rewrite Hob. cbn [mbind option_bind]. rewrite Hoi, Nat2Z.id.
  set (ops' := take _ _) in *. set (heap' := delete a _). exists o, ops', heap'.
  assert (Hsame : forall x, x <> a -> op_at heap' x = op_at (heap_ u) x).
  { intros x Hx. unfold op_at, heap'. rewrite lookup_delete_ne by done. case_bool_decide; [done|].
    destruct (decide (x = b)) as [->|]; [|by rewrite lookup_insert_ne].
    rewrite lookup_insert_eq, Hob. done. }
  assert (Hnone : heap' !! a = None) by apply lookup_delete_eq.
  split_and!; try done. split; usimpl; try done.
  - split; [done|]. apply Permutation_length in Hperm. unfold len in *. simpl in Hperm. lia.
  - apply (Permutation_cons_inv (a := a)). rewrite Hperm, <- Hp, Hk. solve_Permutation.
  - rewrite <- Hperm in Hnd. by apply NoDup_cons in Hnd as [_ ?].
  - assert (Hnin : a ∉ ops') by (rewrite <- Hperm in Hnd; by apply NoDup_cons in Hnd as [? _]).
    intros j x Hj. assert (x <> a) as Hxa by (intros ->; apply Hnin; by eapply list_elem_of_lookup_2).
    unfold heap'. rewrite lookup_delete_ne by done.
    destruct (Hlook j x Hj) as [(-> & -> & Hba)|[Hji Hx]].
    + rewrite bool_decide_false.
      * rewrite lookup_insert_eq. eexists. split; [done|]. done.
      * intros ->. apply Hba. rewrite last_lookup in Hb.
        replace (pred _) with (length (operations_ u) - 1)%nat in Hb by lia. congruence.
    + destruct (Hi j x Hx) as (ox & Hox & Hoxi). case_bool_decide; [by exists ox|].
      rewrite lookup_insert_ne; [by exists ox|]. intros <-. rewrite Hob in Hox. simplify_eq.
      assert (j = (length (operations_ u) - 1)%nat) by lia. subst j.
      apply lookup_lt_Some in Hj. unfold ops' in Hj. rewrite length_take in Hj. lia.
Qed.

(** ** Operations and their awaitables *)

Definition resumed (f : run_frame) (w : Z) : Prop := exists n, f = FResumed n w false.

Definition has_pool (u : Uring) : bool :=
  match provided_buffer_pool_ u with Some _ => true | None => false end.

(** An operation of the context is known to the awaitable that waits for it; a
    coroutine waits, or has just been resumed for a completion that is not the
    last one. *)
Definition tracked (u : Uring) (a : Z) (o : Operation) : Prop :=
  match completion_category_ o with
  | CatAwaitable =>
      prepares o u = true /\
      exists w x, awaitable_ o = Some w /\ awaitables_ u !! w = Some x /\
        handed_off_operation_ x = Some a /\ (continuation_ x = true \/ resumed (frame_ u) w)
  | CatCancel => multishot_ o = false
  | CatWakeup => multishot_ o = true
  end.

Record aw_ok (u : Uring) : Prop := {
  ao_ops : forall a, a ∈ operations_ u -> exists o, op_at (heap_ u) a = Some o /\ tracked u a o;
  ao_handed : forall w x a, awaitables_ u !! w = Some x -> handed_off_operation_ x = Some a ->
    a ∈ operations_ u /\ exists o, op_at (heap_ u) a = Some o /\
      completion_category_ o = CatAwaitable /\ awaitable_ o = Some w;
  ao_owned : forall w x a, awaitables_ u !! w = Some x -> owned_operation_ x = Some a ->
    a ∉ operations_ u /\ handed_off_operation_ x = None /\ exists o, op_at (heap_ u) a = Some o /\
      completion_category_ o = CatAwaitable /\ prepares o u = true;
  ao_unique : forall w w' x x' a, awaitables_ u !! w = Some x -> awaitables_ u !! w' = Some x' ->
    owned_operation_ x = Some a -> owned_operation_ x' = Some a -> w = w';
  ao_fresh : forall a, is_Some (heap_ u !! a) \/ is_Some (awaitables_ u !! a) -> a < next_address u
}.

Lemma prepares_pool o u u' : has_pool u' = has_pool u -> prepares o u' = prepares o u.
Proof.
  unfold prepares, has_pool. intros H. by destruct (type_ o).
Qed.

Lemma op_at_is_Some h a o : op_at h a = Some o -> is_Some (h !! a).
Proof. unfold op_at. by destruct (h !! a). Qed.

(** Only the operations as a set, the heap up to indices, the awaitables, the
    pool and the frame matter. *)
Lemma aw_ok_ext u u' :
  aw_ok u -> (forall a, a ∈ operations_ u' <-> a ∈ operations_ u) ->
  (forall a, op_at (heap_ u') a = op_at (heap_ u) a) -> awaitables_ u' = awaitables_ u ->
  has_pool u' = has_pool u -> (forall w, resumed (frame_ u) w -> resumed (frame_ u') w) ->
  next_address u' = next_address u -> aw_ok u'.
Proof.
  intros [H1 H2 H3 H4 H5] Ho Hh Ha Hp Hf Hn. split.
  - intros a Hin. apply Ho in Hin. destruct (H1 a Hin) as (o & Hoo & Ht). exists o. rewrite Hh.
    split; [done|]. unfold tracked in *. rewrite (prepares_pool o u u' Hp), Ha.
    destruct (completion_category_ o); try done.
    destruct Ht as (? & w & x & ? & ? & ? & Hc). split; [done|]. exists w, x. split_and!; try done.
    destruct Hc; auto.
  - intros w x a. rewrite Ha, Ho, Hh. apply H2.
  - intros w x a Hw Hx. rewrite Ha in Hw. rewrite Ho, Hh. destruct (H3 w x a Hw Hx) as (? & ? & o & ? & ? & ?).
    split_and!; try done. exists o. by rewrite (prepares_pool o u u' Hp).
  - rewrite Ha. exact H4.
  - rewrite Ha, Hn. intros a [Hx|Hx]; apply H5; [left|by right].
    apply fmap_is_Some with (f := set_owner_index 0). apply fmap_is_Some with (f := set_owner_index 0) in Hx.
    change (set_owner_index 0 <$> heap_ u' !! a) with (op_at (heap_ u') a) in Hx. by rewrite Hh in Hx.
Qed.

(** The loop moves on from a coroutine that waits again. *)
Lemma aw_ok_frame f u :
  aw_ok u ->
  (forall w x, resumed (frame_ u) w -> awaitables_ u !! w = Some x -> handed_off_operation_ x <> None ->
     continuation_ x = true) -> aw_ok (set_frame f u).
Proof.
  intros [H1 H2 H3 H4 H5] Hc. split; try done.
  intros a Hin. destruct (H1 a Hin) as (o & Ho & Ht). exists o. split; [done|].
  unfold tracked in *. destruct (completion_category_ o); try done.
  destruct Ht as (Hp & w & x & Hw & Hx & Hh & Hd). split; [exact Hp|]. exists w, x.
  split_and!; try done. left. destruct Hd as [|Hd]; [done|]. apply (Hc w x Hd Hx). congruence.
Qed.

(** An awaitable changes in what the context does not look at. *)
Lemma aw_ok_result w x y u :
  aw_ok u -> awaitables_ u !! w = Some x -> owned_operation_ y = owned_operation_ x ->
  handed_off_operation_ y = handed_off_operation_ x ->
  (continuation_ x = true -> continuation_ y = true) -> aw_ok (set_one_awaitable w y u).
Proof.
  intros [H1 H2 H3 H4 H5] Hx E1 E2 E3.
  assert (Hl : forall v z, awaitables_ (set_one_awaitable w y u) !! v = Some z ->
    exists z', awaitables_ u !! v = Some z' /\ owned_operation_ z = owned_operation_ z' /\
      handed_off_operation_ z = handed_off_operation_ z').
  { intros v z Hv. usimpl. apply lookup_insert_Some in Hv as [[<- <-]|[_ Hv]]; eauto. }
  split.
  - intros a Hin. destruct (H1 a Hin) as (o & Ho & Ht). exists o. split; [done|].
    unfold tracked in *. destruct (completion_category_ o); try done.
    destruct Ht as (Hp & v & z & Hv & Hz & Hh & Hd). split; [exact Hp|]. usimpl.
    destruct (decide (v = w)) as [->|Hne].
    + exists w, y. rewrite lookup_insert_eq. simplify_eq. split_and!; try done; [congruence|].
      destruct Hd; auto.
    + exists v, z. rewrite lookup_insert_ne by done. auto.
  - intros v z a Hv Hz. destruct (Hl v z Hv) as (z' & Hv' & _ & E). rewrite E in Hz. by apply (H2 v z').
  - intros v z a Hv Hz. destruct (Hl v z Hv) as (z' & Hv' & E & E'). rewrite E in Hz. rewrite E'.
    by apply (H3 v z').
  - intros v v' z z' a Hv Hv' Hz Hz'. destruct (Hl v z Hv) as (? & ? & E & _).
    destruct (Hl v' z' Hv') as (? & ? & E' & _). rewrite E in Hz. rewrite E' in Hz'. eauto.
  - intros a [Ha|Ha]; apply H5; [by left|right]. usimpl. destruct Ha as [z Ha].
    destruct (Hl a z Ha) as (z' & ? & _). eauto.
Qed.

Lemma op_at_insert h a o x :
  op_at (<[a := o]> h) x = if decide (a = x) then Some (set_owner_index 0 o) else op_at h x.
Proof.
  unfold op_at. destruct (decide (a = x)) as [->|]; [by rewrite lookup_insert_eq|].
  by rewrite lookup_insert_ne.
Qed.

Lemma op_at_delete h a x : op_at (delete a h) x = if decide (a = x) then None else op_at h x.
Proof.
  unfold op_at. destruct (decide (a = x)) as [->|]; [by rewrite lookup_delete_eq|].
  by rewrite lookup_delete_ne.
Qed.

(** Addresses in use are below the next one. *)
Lemma fresh_not_used u :
  aw_ok u -> next_address u ∉ operations_ u /\ op_at (heap_ u) (next_address u) = None /\
  (forall w x, awaitables_ u !! w = Some x -> owned_operation_ x <> Some (next_address u) /\
     handed_off_operation_ x <> Some (next_address u) /\ w < next_address u).
Proof.
  intros [H1 H2 H3 H4 H5].
  assert (Hn : op_at (heap_ u) (next_address u) = None).
  { unfold op_at. destruct (heap_ u !! next_address u) eqn:E; [|done].
    specialize (H5 (next_address u) ltac:(left; eauto)). lia. }
  split_and!; [|done|].
  - intros Hin. destruct (H1 _ Hin) as (o & Ho & _). congruence.
  - intros w x Hw. split_and!.
    + intros E. destruct (H3 w x _ Hw E) as (_ & _ & o & Ho & _). congruence.
    + intros E. destruct (H2 w x _ Hw E) as (_ & o & Ho & _). congruence.
    + apply H5. right. eauto.
Qed.

(** A new awaitable with its unstarted operation. *)
Lemma aw_ok_new o m u :
  aw_ok u -> completion_category_ o = CatAwaitable -> prepares o u = true ->
  aw_ok (new_awaitable o m u).2.
Proof.
  intros Hok Hcat Hprep. destruct (fresh_not_used u Hok) as (Hnin & Hnone & Hused).
  destruct Hok as [H1 H2 H3 H4 H5]. unfold new_awaitable. cbn [snd].
  set (a := next_address u) in *. set (o' := MkOperation _ _ _ _ _ _ _ _).
  assert (Hop : forall x, x <> a -> op_at (<[a := o']> (heap_ u)) x = op_at (heap_ u) x).
  { intros x Hx. by rewrite op_at_insert, decide_False. }
  assert (Hold : forall x o, op_at (heap_ u) x = Some o -> op_at (<[a := o']> (heap_ u)) x = Some o).
  { intros x ox Hx. rewrite Hop; [done|]. congruence. }
  assert (Hw : forall w x, <[a + 1 := MkAwaitable (Some a) None false IoResult_new false]> (awaitables_ u)
    !! w = Some x -> (w = a + 1 /\ x = MkAwaitable (Some a) None false IoResult_new false) \/
    awaitables_ u !! w = Some x).
  { intros w x Hx. apply lookup_insert_Some in Hx as [[<- <-]|[_ Hx]]; auto. }
  assert (Haw : forall w x, awaitables_ u !! w = Some x ->
    <[a + 1 := MkAwaitable (Some a) None false IoResult_new false]> (awaitables_ u) !! w = Some x).
  { intros w x Hx. rewrite lookup_insert_ne; [done|]. destruct (Hused w x Hx) as (_ & _ & ?). lia. }
  split; usimpl.
  - intros x Hx. destruct (H1 x Hx) as (ox & Hox & Ht). exists ox. split; [auto|].
    unfold tracked in *. destruct (completion_category_ ox); try done.
    destruct Ht as (? & w & z & ? & ? & ? & ?). split; [done|]. exists w, z. auto.
  - intros w x b Hx Hb. destruct (Hw w x Hx) as [[-> ->]|Hx']; [done|].
    destruct (H2 w x b Hx' Hb) as (? & ob & ? & ?). eauto.
  - intros w x b Hx Hb. destruct (Hw w x Hx) as [[-> ->]|Hx'].
    + injection Hb as <-. split_and!; try done. eexists. rewrite op_at_insert, decide_True by done.
      split; [done|]. split; done.
    + destruct (H3 w x b Hx' Hb) as (? & ? & ob & ? & ? & ?). split_and!; try done. exists ob. auto.
  - intros w w' x x' b Hx Hx' Hb Hb'.
    destruct (Hw w x Hx) as [[-> ->]|Hx1], (Hw w' x' Hx') as [[-> ->]|Hx1']; try done.
    + injection Hb as <-. by destruct (Hused w' x' Hx1') as [? _].
    + injection Hb' as <-. by destruct (Hused w x Hx1) as [? _].
    + eauto.
  - intros b [[z Hb]|[z Hb]].
    + apply lookup_insert_Some in Hb as [[<- _]|[_ Hb]]; [lia|].
      specialize (H5 b ltac:(left; eauto)). lia.
    + destruct (Hw b z Hb) as [[-> _]|Hb']; [lia|]. specialize (H5 b ltac:(right; eauto)). lia.
Qed.

(** An operation of the context itself, at a new address. *)
Lemma aw_ok_internal o n cap staged sq kernel u :
  aw_ok u -> match completion_category_ o with
             | CatAwaitable => False | CatCancel => multishot_ o = false | CatWakeup => multishot_ o = true
             end ->
  let a := next_address u in
  aw_ok (set_submission (operations_ u ++ [a]) cap staged sq kernel
           (<[a := set_owner_index n o]> (<[a := o]> (heap_ u))) (set_heap (<[a := o]> (heap_ u)) (a + 1) u)).
Proof.
  intros Hok Ho a. destruct (fresh_not_used u Hok) as (Hnin & Hnone & Hused).
  destruct Hok as [H1 H2 H3 H4 H5]. fold a in Hnin, Hnone, Hused. rewrite insert_insert_eq.
  assert (Hop : forall x y, op_at (heap_ u) x = Some y ->
    op_at (<[a := set_owner_index n o]> (heap_ u)) x = Some y).
  { intros x y Hx. rewrite op_at_insert, decide_False; [done|]. congruence. }
  split; usimpl.
  - intros x Hx. apply elem_of_app in Hx as [Hx|Hx].
    + destruct (H1 x Hx) as (ox & Hox & Ht). eauto.
    + apply list_elem_of_singleton in Hx as ->. eexists. rewrite op_at_insert, decide_True by done.
      split; [done|]. unfold tracked. cbn [completion_category_ set_owner_index multishot_].
      by destruct (completion_category_ o).
  - intros w x b Hx Hb. destruct (H2 w x b Hx Hb) as (? & ob & ? & ?). split; [set_solver|]. eauto.
  - intros w x b Hx Hb. destruct (H3 w x b Hx Hb) as (Hn & ? & ob & ? & ?). split_and!; eauto.
    intros Hin. apply elem_of_app in Hin as [Hin|Hin]; [done|]. apply list_elem_of_singleton in Hin as ->.
    by destruct (Hused w x Hx).
  - exact H4.
  - intros b [[z Hb]|[z Hb]]; [|specialize (H5 b ltac:(right; eauto)); lia].
    apply lookup_insert_Some in Hb as [[<- _]|[_ Hb]]; [lia|].
    specialize (H5 b ltac:(left; eauto)). lia.
Qed.

(** An awaitable that has nothing pending gives up its unstarted operation, or
    goes away with it. *)
Lemma aw_ok_forget w x (m : gmap Z UringAwaitable) u :
  aw_ok u -> awaitables_ u !! w = Some x -> handed_off_operation_ x = None ->
  (forall v, v <> w -> m !! v = awaitables_ u !! v) ->
  (forall y, m !! w = Some y -> owned_operation_ y = None /\ handed_off_operation_ y = None) ->
  let heap := match owned_operation_ x with Some a => delete a (heap_ u) | None => heap_ u end in
  aw_ok (set_awaitables m (set_heap heap (next_address u) u)).
Proof.
  intros [H1 H2 H3 H4 H5] Hx Hh Hm Hy heap.
  assert (Hlook : forall v z, m !! v = Some z -> owned_operation_ z <> None \/ handed_off_operation_ z <> None ->
    v <> w /\ awaitables_ u !! v = Some z).
  { intros v z Hv Hz. destruct (decide (v = w)) as [->|Hne].
    - destruct (Hy z Hv). naive_solver.
    - split; [done|]. by rewrite <- Hm. }
  assert (Hop : forall a o, owned_operation_ x <> Some a -> op_at (heap_ u) a = Some o -> op_at heap a = Some o).
  { intros a o Ha Ho. unfold heap. destruct (owned_operation_ x) as [b|]; [|done].
    rewrite op_at_delete, decide_False; [done|]. congruence. }
  assert (Hnotops : forall a, a ∈ operations_ u -> owned_operation_ x <> Some a).
  { intros a Ha E. destruct (H3 w x a Hx E) as [? _]. done. }
  split; usimpl.
  - intros a Ha. destruct (H1 a Ha) as (o & Ho & Ht). exists o. split; [by apply Hop; auto|].
    unfold tracked in *. destruct (completion_category_ o); try done.
    destruct Ht as (? & v & z & ? & Hz & Hzh & Hc). split; [done|]. exists v, z. usimpl.
    split_and!; try done. rewrite Hm; [done|]. intros ->. congruence.
  - intros v z a Hv Hz. destruct (Hlook v z Hv) as [Hne Hv']; [right; congruence|].
    destruct (H2 v z a Hv' Hz) as (Ha & o & Ho & ?). split; [done|]. exists o. split; [by apply Hop; auto|done].
  - intros v z a Hv Hz. destruct (Hlook v z Hv) as [Hne Hv']; [left; congruence|].
    destruct (H3 v z a Hv' Hz) as (Ha & ? & o & Ho & ?). split_and!; try done. exists o.
    split; [|done]. apply Hop; [|done]. intros E. apply Hne. by eapply H4.
  - intros v v' z z' a Hv Hv' Hz Hz'. destruct (Hlook v z Hv) as [_ ?]; [left; congruence|].
    destruct (Hlook v' z' Hv') as [_ ?]; [left; congruence|]. eauto.
  - intros a [[z Ha]|[z Ha]]; apply H5.
    + left. unfold heap in Ha. destruct (owned_operation_ x); [|eauto].
      apply lookup_delete_Some in Ha as [_ Ha]. eauto.
    + right. destruct (decide (a = w)) as [->|Hne]; [eauto|]. rewrite <- Hm by done. eauto.
Qed.

(** An awaitable's operation is started: the context owns it, the coroutine
    waits. *)
Lemma aw_ok_start w x y a o n cap staged sq kernel u :
  aw_ok u -> awaitables_ u !! w = Some x -> owned_operation_ x = Some a -> heap_ u !! a = Some o ->
  owned_operation_ y = None -> handed_off_operation_ y = Some a -> continuation_ y = true ->
  let o' := set_awaitable w o in
  aw_ok (set_one_awaitable w y
    (set_submission (operations_ u ++ [a]) cap staged sq kernel
       (<[a := set_owner_index n o']> (<[a := o']> (heap_ u)))
       (set_heap (<[a := o']> (heap_ u)) (next_address u) u))).
Proof.
  intros [H1 H2 H3 H4 H5] Hx Ha Ho Y1 Y2 Y3 o'. rewrite insert_insert_eq.
  destruct (H3 w x a Hx Ha) as (Hnin & Hh & o0 & Ho0 & Hcat & Hprep).
  unfold op_at in Ho0. rewrite Ho in Ho0. injection Ho0 as <-.
  assert (Hop : forall b z, b <> a -> op_at (heap_ u) b = Some z ->
    op_at (<[a := set_owner_index n o']> (heap_ u)) b = Some z).
  { intros b z Hb Hz. by rewrite op_at_insert, decide_False. }
  assert (Hlook : forall v z, <[w := y]> (awaitables_ u) !! v = Some z ->
    (v = w /\ z = y) \/ (v <> w /\ awaitables_ u !! v = Some z)).
  { intros v z Hv. apply lookup_insert_Some in Hv as [[<- <-]|[? Hv]]; auto. }
  split; usimpl.
  - intros b Hb. apply elem_of_app in Hb as [Hb|Hb].
    + destruct (H1 b Hb) as (ob & Hob & Ht). exists ob. split; [apply Hop; [congruence|done]|].
      unfold tracked in *. destruct (completion_category_ ob); try done.
      destruct Ht as (? & v & z & ? & Hz & Hzh & Hc). split; [done|]. exists v, z. usimpl.
      split_and!; try done. rewrite lookup_insert_ne; [done|]. intros <-. congruence.
    + apply list_elem_of_singleton in Hb as ->. eexists. rewrite op_at_insert, decide_True by done.
      split; [done|]. unfold tracked. cbn [completion_category_ set_owner_index set_awaitable o'] in *.
      rewrite Hcat. split; [exact Hprep|]. exists w, y. usimpl. rewrite lookup_insert_eq. auto.
  - intros v z b Hv Hz. destruct (Hlook v z Hv) as [[-> ->]|[Hne Hv']].
    + rewrite Y2 in Hz. injection Hz as <-. split; [set_solver|]. eexists.
      rewrite op_at_insert, decide_True by done. split; [done|]. split; done.
    + destruct (H2 v z b Hv' Hz) as (Hb & ob & ? & ?). split; [set_solver|]. exists ob.
      split; [apply Hop; [congruence|done]|done].
  - intros v z b Hv Hz. destruct (Hlook v z Hv) as [[-> ->]|[Hne Hv']]; [congruence|].
    destruct (H3 v z b Hv' Hz) as (Hb & ? & ob & ? & ?). assert (b <> a).
    { intros ->. apply Hne. by eapply H4. }
    split_and!; [|done|exists ob; auto]. intros Hin. apply elem_of_app in Hin as [|Hin]; [done|].
    by apply list_elem_of_singleton in Hin.
  - intros v v' z z' b Hv Hv' Hz Hz'.
    destruct (Hlook v z Hv) as [[-> ->]|[_ ?]], (Hlook v' z' Hv') as [[-> ->]|[_ ?]]; try congruence; eauto.
  - intros b [[z Hb]|[z Hb]]; apply H5.
    + left. apply lookup_insert_Some in Hb as [[<- _]|[_ Hb]]; eauto.
    + right. destruct (Hlook b z Hb) as [[-> _]|[_ ?]]; eauto.
Qed.

(** A completed operation leaves the context, and the awaitable that waited for
    it, if any, has nothing pending any more. *)
Lemma aw_ok_take a ops' heap' (m : gmap Z UringAwaitable) cap staged sq kernel u :
  aw_ok u -> NoDup (operations_ u) -> a :: ops' ≡ₚ operations_ u -> heap' !! a = None ->
  (forall x, x <> a -> op_at heap' x = op_at (heap_ u) x) ->
  (forall v z, awaitables_ u !! v = Some z -> handed_off_operation_ z <> Some a -> m !! v = Some z) ->
  (forall v z, m !! v = Some z -> handed_off_operation_ z <> Some a /\
     (awaitables_ u !! v = Some z \/
      (owned_operation_ z = None /\ handed_off_operation_ z = None /\ is_Some (awaitables_ u !! v)))) ->
  aw_ok (set_awaitables m (set_submission ops' cap staged sq kernel heap' u)).
Proof.
  intros [H1 H2 H3 H4 H5] Hnd Hp Hnone Hsame Hm1 Hm2.
  assert (Hops : forall b, b ∈ ops' <-> b <> a /\ b ∈ operations_ u).
  { intros b. rewrite <- Hp in Hnd |- *. apply NoDup_cons in Hnd as [Hn _].
    rewrite elem_of_cons. split; [intros Hb; split; [congruence|by right]|intros [? [?|?]]; done]. }
  assert (Ha : a ∈ operations_ u) by (rewrite <- Hp; left).
  split; usimpl.
  - intros b Hb. apply Hops in Hb as [Hba Hb]. destruct (H1 b Hb) as (o & Ho & Ht). exists o.
    rewrite Hsame by done. split; [done|]. unfold tracked in *. destruct (completion_category_ o); try done.
    destruct Ht as (? & v & z & ? & Hz & Hzh & Hc). split; [done|]. exists v, z. usimpl.
    split_and!; try done. apply Hm1; [done|congruence].
  - intros v z b Hv Hz. destruct (Hm2 v z Hv) as (Hza & [Hv'|(_ & E & _)]); [|congruence].
    destruct (H2 v z b Hv' Hz) as (Hb & o & ? & ?). assert (b <> a) by congruence.
    split; [by apply Hops|]. exists o. by rewrite Hsame.
  - intros v z b Hv Hz. destruct (Hm2 v z Hv) as (Hza & [Hv'|(E & _ & _)]); [|congruence].
    destruct (H3 v z b Hv' Hz) as (Hb & ? & o & ? & ?). split_and!; [|done|].
    + intros Hin. apply Hops in Hin as [_ ?]. done.
    + exists o. rewrite Hsame; [done|]. congruence.
  - intros v v' z z' b Hv Hv' Hz Hz'.
    destruct (Hm2 v z Hv) as (_ & [?|(E & _)]); [|congruence].
    destruct (Hm2 v' z' Hv') as (_ & [?|(E & _)]); [|congruence]. eauto.
  - intros b [Hb|[z Hb]]; apply H5.
    + left. destruct (decide (b = a)) as [->|Hba]; [by rewrite Hnone in Hb; destruct Hb|].
      apply fmap_is_Some with (f := set_owner_index 0). change (is_Some (op_at (heap_ u) b)).
      rewrite <- Hsame by done. by apply fmap_is_Some.
    + right. destruct (Hm2 b z Hb) as (_ & [?|(_ & _ & ?)]); eauto.
Qed.

(** Not the last completion: the coroutine that waited is resumed. *)
Lemma aw_ok_more n w x y a u :
  aw_ok u -> awaitables_ u !! w = Some x -> handed_off_operation_ x = Some a ->
  (forall v, ~ resumed (frame_ u) v) ->
  owned_operation_ y = owned_operation_ x -> handed_off_operation_ y = Some a ->
  aw_ok (set_frame (FResumed n w false) (set_one_awaitable w y u)).
Proof.
  intros [H1 H2 H3 H4 H5] Hx Hh Hf E1 E2.
  assert (Hlook : forall v z, <[w := y]> (awaitables_ u) !! v = Some z ->
    exists z', awaitables_ u !! v = Some z' /\ owned_operation_ z = owned_operation_ z' /\
      handed_off_operation_ z = handed_off_operation_ z').
  { intros v z Hv. apply lookup_insert_Some in Hv as [[<- <-]|[_ Hv]]; [|eauto].
    exists x. split_and!; try done. congruence. }
  split; usimpl.
  - intros b Hb. destruct (H1 b Hb) as (o & Ho & Ht). exists o. split; [done|].
    unfold tracked in *. destruct (completion_category_ o); try done.
    destruct Ht as (Hp & v & z & ? & Hz & Hzh & Hc). split; [exact Hp|]. usimpl.
    destruct (decide (v = w)) as [->|Hne].
    + exists w, y. rewrite lookup_insert_eq. simplify_eq. split_and!; try done.
      right. by exists n.
    + exists v, z. rewrite lookup_insert_ne by done. split_and!; try done.
      destruct Hc as [|Hc]; [by left|]. by apply Hf in Hc.
  - intros v z b Hv Hz. destruct (Hlook v z Hv) as (z' & ? & _ & E). rewrite E in Hz. by apply (H2 v z').
  - intros v z b Hv Hz. destruct (Hlook v z Hv) as (z' & Hv' & E & E'). rewrite E in Hz. rewrite E'.
    by apply (H3 v z').
  - intros v v' z z' b Hv Hv' Hz Hz'. destruct (Hlook v z Hv) as (? & ? & E & _).
    destruct (Hlook v' z' Hv') as (? & ? & E' & _). rewrite E in Hz. rewrite E' in Hz'. eauto.
  - intros b [Hb|[z Hb]]; apply H5; [by left|right]. destruct (Hlook b z Hb) as (z' & ? & _). eauto.
Qed.

(** ** Events of the event loop *)

Section run.
(** The thread that calls [Run]. *)
Context (thread : Z) (thread_pos : 0 < thread).

Inductive uring_event :=
  | UvNew (t : OperationType) (fd buffer n : Z) (multishot : bool)
  | UvDestroy (w : Z)
  | UvAwait (kernel : Z -> list Z) (w : Z)
  | UvResume (w : Z)
  | UvCancel (kernel : Z -> list Z) (fd : Z)
  | UvRun (kernel : Z -> list Z)
  | UvCompletion (cqe : Cqe)
  | UvReturn
  | UvCallbacksReturn (kernel : Z -> list Z)
  | UvBatchEnd (kernel : Z -> list Z)
  | UvStop
  | UvExit
  | UvSnapshot (start_window : bool).

(** The kernel posts a completion: after the last one it is done with the
    operation. *)
Definition kernel_posts (cqe : Cqe) (u : Uring) : Uring :=
  match cqe_data cqe with
  | Some a =>
      if cqe_more cqe then u
      else set_submission (operations_ u) (operations_capacity u) (staged_sqe_count_ u) (sq_ u)
             (filter (fun x => x <> a) (kernel_ u)) (heap_ u) u
  | None => u
  end.

Definition uring_handle (e : uring_event) (u : Uring) : option Uring :=
  match e with
  | UvNew t fd buffer n multishot => Some (new_awaitable (with_parameters t fd buffer n) multishot u).2
  | UvDestroy w => UringAwaitable_destroy w u
  | UvAwait kernel w => snd <$> await_suspend thread kernel w u
  | UvResume w => snd <$> await_resume w u
  | UvCancel kernel fd => CancelFd thread kernel fd u
  | UvRun kernel => Run_start thread kernel u
  | UvCompletion cqe => Run_completion cqe (kernel_posts cqe u)
  | UvReturn => ResumeReturns u
  | UvCallbacksReturn kernel => CallbacksReturn thread kernel u
  | UvBatchEnd kernel => Run_batch_end kernel u
  | UvStop => Some (RequestStop_flag u)
  | UvExit => if Run_finished u then Some (set_frame FDone (ReleaseRunOwnership u)) else None
  | UvSnapshot start_window => snd <$> UringContext_SnapshotStats thread start_window u
  end.

(** Coroutines and callbacks run inside the loop. *)
Definition in_client (u : Uring) : Prop :=
  match frame_ u with FResumed _ _ _ | FCallbacks _ _ => True | _ => False end.

(** The documented behaviour of the kernel for a completion of operation [o]. *)
Definition cqe_ok (cqe : Cqe) (o : Operation) (u : Uring) : Prop :=
  (cqe_more cqe = true -> multishot_ o = true) /\
  match completion_category_ o with
  | CatAwaitable =>
      forall id pool, cqe_buffer cqe = Some id -> provided_buffer_pool_ u = Some pool ->
        is_Some (Pool_Acquire pool id (if 0 <? cqe_res cqe then cqe_res cqe else 0))
  | CatCancel =>
      0 <= cqe_res cqe \/ cqe_res cqe = - ENOENT \/ cqe_res cqe = - EALREADY \/ cqe_res cqe = - ECANCELED
  | CatWakeup =>
      (0 <= cqe_res cqe /\ Z.land (cqe_res cqe) POLLIN <> 0) \/
      (cqe_res cqe = - ECANCELED /\ cqe_more cqe = false /\ stop_requested_ u = true)
  end.

(** What the kernel and the users of the context may do.  Users keep to the
    rules of [UringAwaitable]: an operation is awaited once, or again between two
    completions of a multishot one; an awaitable is not destroyed while its
    operation is pending; and a multishot consumer awaits again before it gives
    control back. *)
Definition uring_enabled (e : uring_event) (u : Uring) : Prop :=
  match e with
  | UvNew t _ _ _ _ => t <> OpUnknown /\ (t = OpRecvProvided -> has_pool u = true)
  | UvDestroy w => exists x, awaitables_ u !! w = Some x /\ handed_off_operation_ x = None
  | UvAwait kernel w =>
      in_client u /\ kernel_ok kernel /\ len (operations_ u) < 2 ^ 62 /\
      exists x, awaitables_ u !! w = Some x /\
        match handed_off_operation_ x with
        | Some a => continuation_ x = false /\ exists o, heap_ u !! a = Some o /\ multishot_ o = true
        | None => owned_operation_ x <> None
        end
  | UvResume w => exists x, awaitables_ u !! w = Some x /\ result_ready_ x = true
  | UvCancel kernel _ => in_client u /\ kernel_ok kernel /\ len (operations_ u) < 2 ^ 62
  | UvRun kernel => frame_ u = FStart /\ kernel_ok kernel
  | UvCompletion cqe =>
      match frame_ u with FTop => True | FBatch n => n < ring_entries u | _ => False end /\
      exists a o, cqe_data cqe = Some a /\ a ∈ kernel_ u /\ heap_ u !! a = Some o /\ cqe_ok cqe o u
  | UvReturn =>
      exists n w is_final, frame_ u = FResumed n w is_final /\
        (is_final = false -> exists x, awaitables_ u !! w = Some x /\ continuation_ x = true)
  | UvCallbacksReturn kernel =>
      (exists n more, frame_ u = FCallbacks n more) /\ kernel_ok kernel /\ len (operations_ u) < 2 ^ 62
  | UvBatchEnd kernel => (exists n, frame_ u = FBatch n) /\ kernel_ok kernel
  | UvStop => True
  | UvExit => frame_ u = FTop /\ Run_finished u = true
  | UvSnapshot _ => in_client u
  end.

(** ** Invariant *)

Definition frame_ok (u : Uring) : Prop :=
  match frame_ u with
  | FStart => run_thread_id_ u = 0 /\ operations_ u = []
  | FTop => run_thread_id_ u = thread /\ staged_sqe_count_ u = 0
  | FDone => run_thread_id_ u = FINISHED_RUN_THREAD_ID /\ operations_ u = []
  | _ => run_thread_id_ u = thread
  end.

(** The wakeup poll is armed: the loop can be woken. *)
Definition armed (u : Uring) : Prop :=
  exists a o, a ∈ operations_ u /\ op_at (heap_ u) a = Some o /\ completion_category_ o = CatWakeup.

(** Positions of the loop at which the poll may be missing. *)
Definition may_disarm (f : run_frame) : bool :=
  match f with FStart | FDone | FCallbacks _ false => true | _ => false end.

Record uinv (u : Uring) : Prop := {
  uv_sub : sub_ok u;
  uv_aw : aw_ok u;
  uv_frame : frame_ok u;
  uv_armed : stop_requested_ u = false -> may_disarm (frame_ u) = false -> armed u
}.

Lemma uinv_new entries pool fd :
  0 < entries < 2 ^ 32 -> uinv (UringContext_new entries pool fd).
Proof.
  intros He. split; try done.
  - unfold UringContext_new. split; usimpl; try done.
    + change (0 < entries < 2 ^ 63 /\ 0 <= entries). lia.
    + change (0 = 0 /\ 0 <= entries). lia.
    + constructor.
  - unfold UringContext_new. split; usimpl; try done.
    + intros a Hin. by apply elem_of_nil in Hin.
    + intros a [[? E]|[? E]]; by rewrite lookup_empty in E.
Qed.

(** A step that leaves operations, heap and control alone. *)
Lemma armed_ext u u' :
  armed u -> (forall a, a ∈ operations_ u -> a ∈ operations_ u') ->
  (forall a o, op_at (heap_ u) a = Some o -> a ∈ operations_ u -> op_at (heap_ u') a = Some o) -> armed u'.
Proof. intros (a & o & Ha & Ho & Hc) H1 H2. exists a, o. auto. Qed.

(** The submission state does not depend on the other fields. *)
Lemma sub_ok_same u u' :
  sub_ok u -> operations_ u' = operations_ u -> operations_capacity u' = operations_capacity u ->
  staged_sqe_count_ u' = staged_sqe_count_ u -> sq_ u' = sq_ u -> kernel_ u' = kernel_ u ->
  ring_entries u' = ring_entries u -> (forall x, x ∈ operations_ u -> heap_ u' !! x = heap_ u !! x) ->
  sub_ok u'.
Proof.
  intros [H1 H2 H3 H4 H5 H6] E1 E2 E3 E4 E5 E6 Hh. split; rewrite ?E1, ?E2, ?E3, ?E4, ?E5, ?E6; try done.
  intros i a Ha. rewrite Hh by (by eapply list_elem_of_lookup_2). by apply H6.
Qed.

(** An operation of the context's own is allocated, acquires an entry and is
    staged. *)
Lemma internal_ok kernel o u :
  sub_ok u -> aw_ok u -> kernel_ok kernel -> len (operations_ u) < 2 ^ 62 ->
  match completion_category_ o with
  | CatAwaitable => False | CatCancel => multishot_ o = false | CatWakeup => multishot_ o = true
  end ->
  let a := next_address u in
  let u0 := set_heap (<[a := o]> (heap_ u)) (a + 1) u in
  exists cap staged sq kernel',
    let u1 := set_submission (operations_ u0) cap staged sq kernel' (heap_ u0) u0 in
    let u' := set_submission (operations_ u ++ [a]) cap (staged + 1) (sq ++ [a]) kernel'
      (<[a := set_owner_index (len (operations_ u)) o]> (<[a := o]> (heap_ u))) u0 in
    AcquireSqe kernel u0 = Some u1 /\ StageOperation a (prepare_sqe a u1) = Some u' /\
    sub_ok u' /\ aw_ok u'.
Proof.
  intros Hs Ha Hk Hm Ho a u0. destruct (fresh_not_used u Ha) as (Hnin & _ & _). fold a in Hnin.
  assert (Hs0 : sub_ok u0).
  { apply (sub_ok_same u); try done. intros x Hx. unfold u0. usimpl. rewrite lookup_insert_ne; [done|].
    congruence. }
  destruct (start_ok kernel a o u0 Hs0 Hk Hm) as (cap & staged & sq & kernel' & E1 & E2 & Hs').
  - apply lookup_insert_eq.
  - done.
  - exists cap, staged, sq, kernel'. split_and!; try done.
    exact (aw_ok_internal o (len (operations_ u)) cap (staged + 1) (sq ++ [a]) kernel' u Ha Ho).
Qed.

Lemma CancelFd_inv kernel fd u :
  uinv u -> run_thread_id_ u = thread -> frame_ u <> FTop -> frame_ u <> FStart -> frame_ u <> FDone ->
  kernel_ok kernel -> len (operations_ u) < 2 ^ 62 ->
  exists u', CancelFd thread kernel fd u = Some u' /\ uinv u' /\ frame_ u' = frame_ u.
Proof.
  intros Hinv Ht Hf1 Hf2 Hf3 Hk Hm. unfold CancelFd, IsRunning. rewrite Ht, (proj2 (Z.ltb_lt 0 thread)) by done.
  destruct ((fd <? 0) || negb true); [by exists u|]. unfold AssertRunThread. rewrite Ht, Z.eqb_refl.
  cbn [mbind option_bind]. destruct Hinv as [Hs Ha Hf Harm].
  set (o := MkOperation 0 OpUnknown CatCancel fd 0 0 None false).
  destruct (internal_ok kernel o u Hs Ha Hk Hm eq_refl) as (cap & staged & sq & kernel' & E1 & E2 & Hs' & Ha').
  rewrite E1. cbn [mbind option_bind]. rewrite E2. cbn [mbind option_bind].
  destruct (Submit_ok kernel _ Hs' Hk) as (kernel'' & E3 & Hs''). rewrite E3.
  eexists. split; [done|]. split; [|done]. split; [done| | |].
  - eapply aw_ok_ext; [exact Ha'|done|done|done|done|done|done].
  - unfold frame_ok in *. usimpl. destruct (frame_ u); try done.
  - intros Hstop Hd. usimpl. destruct (fresh_not_used u Ha) as (Hnin & _ & _).
    eapply armed_ext; [exact (Harm Hstop Hd)|usimpl; set_solver|]. usimpl. intros b ob Hb Hin.
    rewrite !op_at_insert, !decide_False by congruence. done.
Qed.

Lemma StageWakeupPoll_inv kernel u :
  sub_ok u -> aw_ok u -> run_thread_id_ u = thread -> kernel_ok kernel -> len (operations_ u) < 2 ^ 62 ->
  exists u', StageWakeupPoll thread kernel u = Some u' /\ sub_ok u' /\ aw_ok u' /\ armed u' /\
    frame_ u' = frame_ u /\ run_thread_id_ u' = run_thread_id_ u /\ stop_requested_ u' = stop_requested_ u.
Proof.
  intros Hs Ha Ht Hk Hm. unfold StageWakeupPoll, AssertRunThread. rewrite Ht, Z.eqb_refl.
  cbn [mbind option_bind].
  set (o := MkOperation 0 OpUnknown CatWakeup (wakeup_fd u) 0 0 None true).
  destruct (internal_ok kernel o u Hs Ha Hk Hm eq_refl) as (cap & staged & sq & kernel' & E1 & E2 & Hs' & Ha').
  rewrite E1. cbn [mbind option_bind]. rewrite E2. eexists. split; [done|]. split_and!; try done.
  exists (next_address u). eexists. usimpl. split; [set_solver|]. rewrite op_at_insert, decide_True by done.
  done.
Qed.

(** Awaiting an unstarted operation: it is started, or rejected once the stop is
    requested. *)
Lemma await_start_inv kernel w x a u :
  uinv u -> run_thread_id_ u = thread -> in_client u -> kernel_ok kernel -> len (operations_ u) < 2 ^ 62 ->
  awaitables_ u !! w = Some x -> handed_off_operation_ x = None -> owned_operation_ x = Some a ->
  exists b u', await_suspend thread kernel w u = Some (b, u') /\ uinv u' /\ b = negb (stop_requested_ u).
Proof.
  intros [Hs Ha Hf Harm] Ht Hcl Hk Hm Hx Hh Hown.
  destruct (ao_owned u Ha w x a Hx Hown) as (Hnin & _ & o0 & Ho0 & Hcat & Hprep).
  unfold op_at in Ho0. destruct (heap_ u !! a) as [o|] eqn:Ho; [|done]. injection Ho0 as <-.
  unfold await_suspend. rewrite Hx. cbn [mbind option_bind]. rewrite Hh, Hown, Ho. cbn [mbind option_bind].
  set (u0 := set_heap (<[a := set_awaitable w o]> (heap_ u)) (next_address u) u).
  unfold TryStartOperation, AssertRunThread. change (run_thread_id_ u0) with (run_thread_id_ u).
  rewrite Ht, Z.eqb_refl. cbn [mbind option_bind].
  change (stop_requested_ u0) with (stop_requested_ u). destruct (stop_requested_ u) eqn:Hstop.
  - cbn [mbind option_bind negb]. eexists false, _. split; [done|]. split; [|done].
    assert (Hdel : delete a (heap_ u0) = delete a (heap_ u)) by (unfold u0; usimpl; by rewrite delete_insert_eq).
    rewrite Hdel.
    pose proof (aw_ok_forget w x (<[w := MkAwaitable None None (continuation_ x)
      (MakeCancelledResult o) true]> (awaitables_ u)) u Ha Hx Hh) as Haw. rewrite Hown in Haw.
    split.
    + apply (sub_ok_same u); try done. intros y Hy. apply lookup_delete_ne. congruence.
    + apply Haw.
      * intros v Hv. by rewrite lookup_insert_ne.
      * intros y Hy. rewrite lookup_insert_eq in Hy. by injection Hy as <-.
    + unfold in_client in Hcl. unfold frame_ok in *. cbn. destruct (frame_ u); done.
    + cbn. congruence.
  - destruct (start_ok kernel a (set_awaitable w o) u0) as (cap & staged & sq & kernel' & E1 & E2 & Hs'); try done.
    { apply (sub_ok_same u); try done. intros y Hy. unfold u0. usimpl. rewrite lookup_insert_ne; [done|].
      congruence. }
    { apply lookup_insert_eq. }
    assert (heap_ u0 !! a = Some (set_awaitable w o)) as Hu0 by apply lookup_insert_eq.
    rewrite E1. cbn [mbind option_bind]. usimpl. rewrite Hu0. cbn [mbind option_bind].
    change (prepares _ _) with (prepares (set_owner_index 0 o) u). rewrite Hprep. cbn [negb].
    rewrite E2. cbn [mbind option_bind negb]. eexists true, _. split; [done|]. split; [|done]. split.
    + by eapply sub_ok_same.
    + by apply (aw_ok_start w x (MkAwaitable None (Some a) true (aw_result_ x) (result_ready_ x)) a o
        (len (operations_ u)) cap (staged + 1) (sq ++ [a]) kernel' u).
    + unfold in_client in Hcl. unfold frame_ok in *. cbn. destruct (frame_ u); done.
    + intros _ Hd. eapply armed_ext; [exact (Harm eq_refl Hd)|usimpl; set_solver|]. usimpl.
      intros y oy Hy Hin. unfold u0. usimpl. rewrite !op_at_insert, !decide_False by congruence. done.
Qed.

Lemma client_thread u : frame_ok u -> in_client u -> run_thread_id_ u = thread.
Proof. unfold frame_ok, in_client. by destruct (frame_ u). Qed.

Lemma UvAwait_inv kernel w u :
  uinv u -> uring_enabled (UvAwait kernel w) u ->
  exists u', uring_handle (UvAwait kernel w) u = Some u' /\ uinv u'.
Proof.
  intros Hinv (Hcl & Hk & Hm & x & Hx & Hh). cbn [uring_handle].
  destruct (handed_off_operation_ x) as [a|] eqn:Ea.
  - destruct Hh as (Hc & o & Ho & Hms). unfold await_suspend. rewrite Hx. cbn [mbind option_bind].
    rewrite Ea, Ho. cbn [mbind option_bind]. rewrite Hms, Hc. cbn. eexists. split; [done|].
    destruct Hinv as [Hs Haw Hf Harm]. split; [by eapply sub_ok_same| |exact Hf|exact Harm].
    apply (aw_ok_result w x); done.
  - destruct (owned_operation_ x) as [a|] eqn:Eo; [|done].
    destruct (await_start_inv kernel w x a u Hinv) as (b & u' & E & Hinv' & _); try done.
    + by apply client_thread; [apply Hinv|].
    + rewrite E. cbn. eauto.
Qed.

(** ** Completions *)

(** The result reaches the awaitable, and its coroutine is resumed. *)
Lemma ProcessAwaitableCqe_ok n o cqe is_final u w x :
  awaitable_ o = Some w -> awaitables_ u !! w = Some x -> continuation_ x = true -> prepares o u = true ->
  (forall id pool, cqe_buffer cqe = Some id -> provided_buffer_pool_ u = Some pool ->
     is_Some (Pool_Acquire pool id (if 0 <? cqe_res cqe then cqe_res cqe else 0))) ->
  exists y enobufs pool,
    ProcessAwaitableCqe n o cqe is_final u =
      Some (set_frame (FResumed n w is_final)
              (set_one_awaitable w y (set_stats enobufs (stats_window_id_ u) pool u))) /\
    owned_operation_ y = owned_operation_ x /\
    handed_off_operation_ y = (if is_final then None else handed_off_operation_ x) /\
    result_ready_ y = true /\ result_ (aw_result_ y) = cqe_res cqe /\
    is_final_ (aw_result_ y) = is_final /\
    (is_Some pool <-> is_Some (provided_buffer_pool_ u)).
Proof.
  intros Hw Hx Hc Hp Hb. unfold ProcessAwaitableCqe. rewrite Hw, Hx. cbn [mbind option_bind].
  destruct (decide (type_ o = OpRecvProvided)) as [Ht|Ht].
  - rewrite Ht, !bool_decide_true by done. unfold prepares in Hp. rewrite Ht in Hp.
    destruct (provided_buffer_pool_ u) as [pool|] eqn:Epool; [|done]. cbn [mbind option_bind transfers].
    destruct (cqe_buffer cqe) as [id|] eqn:Eid.
    + destruct (Hb id pool eq_refl eq_refl) as [[pool' buffer] ->]. cbn [mbind option_bind].
      rewrite Hc. cbn [negb]. do 3 eexists. split; [done|]. split_and!; done || by split; eauto.
    + cbn [mbind option_bind]. rewrite Hc. cbn [negb]. do 3 eexists. split; [done|].
      split_and!; done || by split; eauto.
  - rewrite !(bool_decide_false (type_ o = OpRecvProvided)) by done. cbn [mbind option_bind].
    rewrite Hc. cbn [negb]. do 3 eexists. split; [done|]. split_and!; done.
Qed.

Definition in_batch (f : run_frame) : Prop := match f with FTop | FBatch _ => True | _ => False end.

Lemma in_batch_not_resumed f w : in_batch f -> ~ resumed f w.
Proof. intros Hf [n ->]. done. Qed.

Lemma has_pool_eq u u' :
  (is_Some (provided_buffer_pool_ u') <-> is_Some (provided_buffer_pool_ u)) -> has_pool u' = has_pool u.
Proof.
  unfold has_pool. destruct (provided_buffer_pool_ u'), (provided_buffer_pool_ u); intros [H1 H2]; try done.
  - by destruct H1.
  - by destruct H2.
Qed.

Lemma filter_ne_id (a : Z) (l : list Z) : a ∉ l -> filter (fun x => x <> a) l = l.
Proof.
  induction l as [|x l IH]; intros Ha; [done|]. rewrite not_elem_of_cons in Ha. destruct Ha as [Hx Ha].
  rewrite filter_cons_True by congruence. by rewrite IH.
Qed.

(** The operation of a completion is in the vector, at its index. *)
Lemma completion_lookup a u :
  sub_ok u -> a ∈ kernel_ u ->
  exists i o, operations_ u !! i = Some a /\ heap_ u !! a = Some o /\ owner_index_ o = Z.of_nat i /\
    kernel_ u ≡ₚ a :: filter (fun x => x <> a) (kernel_ u).
Proof.
  intros [] Ha. assert (Hin : a ∈ operations_ u) by (rewrite <- so_tracked0; set_solver).
  apply list_elem_of_lookup in Hin as [i Hi]. destruct (so_index0 i a Hi) as (o & Ho & Hoi).
  exists i, o. split_and!; try done.
  assert (Hnd : NoDup (kernel_ u)).
  { rewrite <- so_tracked0 in so_nodup0. by apply NoDup_app in so_nodup0 as (_ & _ & ?). }
  clear -Ha Hnd. revert Ha. induction Hnd as [|x l Hx Hnd IH]; intros Ha; [by apply elem_of_nil in Ha|].
  destruct (decide (x = a)) as [->|Hne].
  - rewrite filter_cons_False by (intros H; by apply H). by rewrite filter_ne_id.
  - rewrite filter_cons_True by done. apply elem_of_cons in Ha as [->|Ha]; [done|].
    rewrite (IH Ha) at 1. apply perm_swap.
Qed.

Lemma completion_more n cqe a o u :
  uinv u -> in_batch (frame_ u) -> cqe_data cqe = Some a -> a ∈ kernel_ u -> heap_ u !! a = Some o ->
  cqe_ok cqe o u -> cqe_more cqe = true ->
  exists u', ProcessCqe n cqe u = Some u' /\ uinv u'.
Proof.
  intros [Hs Ha Hf Harm] Hb Hd Hin Ho [Hms Hcat] Hmore.
  destruct (completion_lookup a u Hs Hin) as (i & o' & Hi & Ho' & Hoi & _). simplify_eq.
  specialize (Hms Hmore). unfold ProcessCqe. rewrite Hd, Ho. cbn [mbind option_bind]. rewrite Hms, Hmore.
  pose proof (lookup_lt_Some _ _ _ Hi) as Hlt.
  rewrite Hoi, (proj2 (Z.leb_gt _ _)) by (unfold len; lia). rewrite Nat2Z.id, bool_decide_true by done.
  cbn [orb negb mbind option_bind].
  assert (Hthread : run_thread_id_ u = thread).
  { unfold frame_ok, in_batch in *. destruct (frame_ u); try done. by destruct Hf. }
  destruct (ao_ops u Ha a) as (o' & Eo & Ht); [by eapply list_elem_of_lookup_2|].
  unfold op_at in Eo. rewrite Ho in Eo. injection Eo as <-. unfold tracked in Ht.
  cbn [completion_category_ set_owner_index awaitable_ multishot_] in Ht.
  destruct (completion_category_ o) eqn:Ec.
  - destruct Ht as (Hp & w & x & Hw & Hx & Hh & Hc).
    destruct Hc as [Hc|Hc]; [|by apply in_batch_not_resumed in Hc].
    destruct (ProcessAwaitableCqe_ok n o cqe false u w x Hw Hx Hc Hp Hcat)
      as (y & e & pool & E & Y1 & Y2 & _ & _ & _ & Hpool).
    rewrite E. eexists. split; [done|]. split.
    + by eapply sub_ok_same.
    + apply (aw_ok_more n w x y a); try done; [|intros v; by apply in_batch_not_resumed|by rewrite Y2].
      eapply aw_ok_ext; try done. by apply has_pool_eq.
    + exact Hthread.
    + intros Hst _. apply Harm; [done|]. unfold in_batch in Hb. by destruct (frame_ u).
  - congruence.
  - destruct Hcat as [[Hres Hpoll]|(_ & ? & _)]; [|congruence]. unfold ProcessWakeupCqe.
    rewrite (proj2 (Z.ltb_ge _ 0) Hres), (proj2 (Z.eqb_neq _ 0) Hpoll). eexists. split; [done|]. split.
    + by eapply sub_ok_same.
    + apply aw_ok_frame; [done|]. intros w x Hr. by apply in_batch_not_resumed in Hr.
    + exact Hthread.
    + intros Hst _. apply Harm; [done|]. unfold in_batch in Hb. by destruct (frame_ u).
Qed.

(** The poll stays armed when another operation leaves. *)
Lemma armed_take a o ops' heap' cap staged sq kernel u :
  armed u -> a :: ops' ≡ₚ operations_ u -> heap_ u !! a = Some o -> completion_category_ o <> CatWakeup ->
  (forall x, x <> a -> op_at heap' x = op_at (heap_ u) x) ->
  armed (set_submission ops' cap staged sq kernel heap' u).
Proof.
  intros (b & ob & Hb & Hob & Hc) Hp Ho Hcat Hs.
  assert (b <> a).
  { intros ->. unfold op_at in Hob. rewrite Ho in Hob. injection Hob as <-. done. }
  exists b, ob. usimpl. rewrite Hs by done. split_and!; try done. rewrite <- Hp in Hb.
  by apply elem_of_cons in Hb as [->|].
Qed.

(** The last completion of an operation: it leaves the context before it is
    dispatched. *)
Lemma completion_taken n cqe a o u :
  uinv u -> in_batch (frame_ u) -> cqe_data cqe = Some a -> a ∈ kernel_ u -> heap_ u !! a = Some o ->
  cqe_more cqe = false ->
  exists ops' heap',
    let u1 := set_submission ops' (operations_capacity u) (staged_sqe_count_ u) (sq_ u)
      (filter (fun x => x <> a) (kernel_ u)) heap' u in
    ProcessCqe n cqe (kernel_posts cqe u) =
      match completion_category_ o with
      | CatAwaitable => ProcessAwaitableCqe n o cqe true u1
      | CatCancel => ProcessCancelCqe n cqe u1
      | CatWakeup => ProcessWakeupCqe n cqe false u1
      end /\
    sub_ok u1 /\ a :: ops' ≡ₚ operations_ u /\ heap' !! a = None /\
    (forall x, x <> a -> op_at heap' x = op_at (heap_ u) x) /\
    (completion_category_ o <> CatWakeup -> stop_requested_ u = false -> armed u1).
Proof.
  intros [Hs Ha Hf Harm] Hb Hd Hin Ho Hmore.
  destruct (completion_lookup a u Hs Hin) as (i & o' & Hi & Ho' & Hoi & Hkp). simplify_eq.
  destruct (take_ok a i u _ Hs Hi Hkp) as (o' & ops' & heap' & Ho2 & E & Hs' & Hp & Hnone & Hsame). simplify_eq.
  exists ops', heap'. cbv zeta. split; [|split_and!; try done].
  - unfold kernel_posts. rewrite Hd, Hmore. unfold ProcessCqe. rewrite Hd. usimpl. rewrite Ho.
    cbn [mbind option_bind]. rewrite Hmore, orb_true_r. pose proof (lookup_lt_Some _ _ _ Hi) as Hlt.
    rewrite Hoi, (proj2 (Z.leb_gt _ _)) by (unfold len; lia). rewrite Nat2Z.id, bool_decide_true by done.
    cbn [orb negb mbind option_bind]. rewrite E. done.
  - intros Hc Hst. eapply armed_take; try done. apply Harm; [done|]. unfold in_batch in Hb.
    by destruct (frame_ u).
Qed.

Lemma batch_thread u : frame_ok u -> in_batch (frame_ u) -> run_thread_id_ u = thread.
Proof. unfold frame_ok, in_batch. destruct (frame_ u); try done. by intros [? _]. Qed.

(** An awaitable's last completion. *)
Lemma final_awaitable n w x y a o ops' heap' e pool f cap staged sq kernel u :
  aw_ok u -> NoDup (operations_ u) -> in_batch (frame_ u) -> heap_ u !! a = Some o ->
  a :: ops' ≡ₚ operations_ u -> heap' !! a = None ->
  (forall z, z <> a -> op_at heap' z = op_at (heap_ u) z) ->
  awaitable_ o = Some w -> awaitables_ u !! w = Some x -> handed_off_operation_ x = Some a ->
  owned_operation_ y = owned_operation_ x -> handed_off_operation_ y = None ->
  (is_Some pool <-> is_Some (provided_buffer_pool_ u)) -> f = FResumed n w true ->
  aw_ok (set_frame f (set_one_awaitable w y
    (set_stats e (stats_window_id_ u) pool (set_submission ops' cap staged sq kernel heap' u)))).
Proof.
  intros Ha Hnd Hb Ho Hp Hnone Hsame Hw Hx Hh Y1 Y2 Hpool ->.
  assert (owned_operation_ x = None) as Hown.
  { destruct (owned_operation_ x) as [b|] eqn:E; [|done].
    destruct (ao_owned u Ha w x b Hx E) as (_ & ? & _). congruence. }
  assert (Haw : aw_ok (set_awaitables (<[w := y]> (awaitables_ u))
    (set_submission ops' cap staged sq kernel heap' u))).
  { apply (aw_ok_take a); try done.
    - intros v z Hv Hz. rewrite lookup_insert_ne; [done|]. congruence.
    - intros v z Hv. apply lookup_insert_Some in Hv as [[<- <-]|[Hne Hv]].
      + split; [congruence|]. right. split_and!; [congruence|done|eauto].
      + split; [|by left]. intros Hz. destruct (ao_handed u Ha v z a Hv Hz) as (_ & oo & Hoo & _ & Hoa).
        unfold op_at in Hoo. rewrite Ho in Hoo. injection Hoo as <-. simpl in Hoa. congruence. }
  eapply aw_ok_ext; [exact Haw|done|done|done|by apply has_pool_eq| |done].
  intros v Hv. by apply in_batch_not_resumed in Hv.
Qed.

Lemma completion_final n cqe a o u :
  uinv u -> in_batch (frame_ u) -> cqe_data cqe = Some a -> a ∈ kernel_ u -> heap_ u !! a = Some o ->
  cqe_ok cqe o u -> cqe_more cqe = false ->
  exists u', ProcessCqe n cqe (kernel_posts cqe u) = Some u' /\ uinv u'.
Proof.
  intros Hinv Hb Hd Hin Ho [_ Hcat] Hmore.
  destruct (completion_taken n cqe a o u Hinv Hb Hd Hin Ho Hmore)
    as (ops' & heap' & E & Hs' & Hp & Hnone & Hsame & Harm). rewrite E. clear E.
  destruct Hinv as [Hs Ha Hf _]. pose proof (batch_thread u Hf Hb) as Hthread.
  destruct (ao_ops u Ha a) as (o' & Eo & Ht); [rewrite <- Hp; left|].
  unfold op_at in Eo. rewrite Ho in Eo. injection Eo as <-. unfold tracked in Ht.
  cbn [completion_category_ set_owner_index awaitable_ multishot_] in Ht.
  set (u1 := set_submission ops' _ _ _ _ heap' u) in *.
  assert (Hnr : forall f, completion_category_ o <> CatAwaitable -> aw_ok (set_frame f u1)).
  { intros f Hc. apply aw_ok_frame; [|intros w x Hr; by apply in_batch_not_resumed in Hr].
    apply (aw_ok_take a ops' heap' (awaitables_ u) (operations_capacity u) (staged_sqe_count_ u) (sq_ u)
      (filter (fun x => x <> a) (kernel_ u)) u Ha (so_nodup u Hs) Hp Hnone Hsame); [done|].
    intros v z Hv. split; [|by left]. intros Hz. destruct (ao_handed u Ha v z a Hv Hz) as (_ & oo & Hoo & Hoc & _).
    unfold op_at in Hoo. rewrite Ho in Hoo. injection Hoo as <-. done. }
  destruct (completion_category_ o) eqn:Ec.
  - destruct Ht as (Hprep & w & x & Hw & Hx & Hh & Hc).
    destruct Hc as [Hc|Hc]; [|by apply in_batch_not_resumed in Hc].
    destruct (ProcessAwaitableCqe_ok n o cqe true u1 w x Hw Hx Hc Hprep Hcat)
      as (y & e & pool & E & Y1 & Y2 & _ & _ & _ & Hpool).
    rewrite E. eexists. split; [done|]. split; [by eapply sub_ok_same| |exact Hthread|].
    + apply (final_awaitable n w x y a o ops' heap' e pool _ (operations_capacity u) (staged_sqe_count_ u)
        (sq_ u) (filter (fun x => x <> a) (kernel_ u)) u); done || by apply Hs.
    + intros Hst _. by apply Harm.
  - unfold ProcessCancelCqe.
    assert ((cqe_res cqe <? 0) && negb ((if cqe_res cqe <? 0 then - cqe_res cqe else 0) =? ENOENT) &&
      negb ((if cqe_res cqe <? 0 then - cqe_res cqe else 0) =? EALREADY) &&
      negb ((if cqe_res cqe <? 0 then - cqe_res cqe else 0) =? ECANCELED) = false) as ->.
    { destruct (cqe_res cqe <? 0) eqn:Hneg; [|done]. apply Z.ltb_lt in Hneg.
      destruct Hcat as [?|[->|[->| ->]]]; [lia|done..]. }
    eexists. split; [done|]. split; [by eapply sub_ok_same|by apply Hnr|exact Hthread|].
    intros Hst _. by apply Harm.
  - unfold ProcessWakeupCqe. destruct Hcat as [[Hres Hpoll]|(-> & _ & Hst)].
    + rewrite (proj2 (Z.ltb_ge _ 0) Hres), (proj2 (Z.eqb_neq _ 0) Hpoll). eexists. split; [done|].
      split; [by eapply sub_ok_same|by apply Hnr|exact Hthread|done].
    + change (stop_requested_ u1) with (stop_requested_ u). rewrite Hst. eexists. split; [done|].
      split; [by eapply sub_ok_same| |exact Hthread|usimpl; congruence].
      by eapply aw_ok_ext; [apply (Hnr (FBatch n))|..].
Qed.

Lemma UvCompletion_inv cqe u :
  uinv u -> uring_enabled (UvCompletion cqe) u ->
  exists u', uring_handle (UvCompletion cqe) u = Some u' /\ uinv u'.
Proof.
  intros Hinv (Hfr & a & o & Hd & Hin & Ho & Hok). cbn [uring_handle].
  assert (Hb : in_batch (frame_ u)) by (unfold in_batch; destruct (frame_ u); done).
  assert (Hproc : forall n, exists u', ProcessCqe n cqe (kernel_posts cqe u) = Some u' /\ uinv u').
  { intros n. destruct (cqe_more cqe) eqn:Hmore; [|by apply (completion_final n cqe a o u)].
    unfold kernel_posts. rewrite Hd, Hmore. by apply (completion_more n cqe a o u). }
  assert (Hk : forall A (f : Uring -> A), (forall ops cap st sq k h, f (set_submission ops cap st sq k h u) = f u) ->
    f (kernel_posts cqe u) = f u).
  { intros A f Hf. unfold kernel_posts. destruct (cqe_data cqe); [|done]. destruct (cqe_more cqe); auto. }
  unfold Run_completion. rewrite (Hk _ frame_), (Hk _ ring_entries) by done.
  destruct (frame_ u) as [| |n| | |] eqn:Ef; try done.
  - assert (staged_sqe_count_ (kernel_posts cqe u) = 0) as ->; [|apply Hproc].
    destruct Hinv as [_ _ Hf _]. unfold frame_ok in Hf. rewrite Ef in Hf. destruct Hf as [_ Hf].
    unfold kernel_posts. destruct (cqe_data cqe); [|done]. by destruct (cqe_more cqe).
  - rewrite (proj2 (Z.ltb_lt _ _) Hfr). apply Hproc.
Qed.

(** ** The other events *)

Lemma UvNew_inv t fd buffer n m u :
  uinv u -> uring_enabled (UvNew t fd buffer n m) u ->
  exists u', uring_handle (UvNew t fd buffer n m) u = Some u' /\ uinv u'.
Proof.
  intros [Hs Ha Hf Harm] [Ht Hpool]. cbn [uring_handle]. eexists. split; [done|].
  destruct (fresh_not_used u Ha) as (Hnin & Hnone & _). split.
  - apply (sub_ok_same u); try done. intros x Hx. cbn. rewrite lookup_insert_ne; [done|]. congruence.
  - apply aw_ok_new; [done|done|]. unfold prepares. cbn. unfold has_pool in Hpool. by destruct t; auto.
  - exact Hf.
  - intros Hst Hd. eapply armed_ext; [exact (Harm Hst Hd)|done|]. cbn. intros x o Hx _.
    rewrite op_at_insert, decide_False; [done|]. congruence.
Qed.

Lemma UvDestroy_inv w u :
  uinv u -> uring_enabled (UvDestroy w) u ->
  exists u', uring_handle (UvDestroy w) u = Some u' /\ uinv u'.
Proof.
  intros [Hs Ha Hf Harm] (x & Hx & Hh). cbn [uring_handle]. unfold UringAwaitable_destroy.
  rewrite Hx. cbn [mbind option_bind]. rewrite Hh. eexists. split; [done|].
  assert (Hkeep : forall a, a ∈ operations_ u ->
    match owned_operation_ x with Some b => delete b (heap_ u) | None => heap_ u end !! a = heap_ u !! a).
  { intros a Hin. destruct (owned_operation_ x) as [b|] eqn:E; [|done]. apply lookup_delete_ne.
    intros <-. by destruct (ao_owned u Ha w x b Hx E) as [? _]. }
  split.
  - by apply (sub_ok_same u).
  - apply (aw_ok_forget w x); try done.
    + intros v Hv. by rewrite lookup_delete_ne.
    + intros y Hy. by rewrite lookup_delete_eq in Hy.
  - exact Hf.
  - intros Hst Hd. eapply armed_ext; [exact (Harm Hst Hd)|done|]. usimpl. intros a o Ho Hin.
    unfold op_at. by rewrite Hkeep.
Qed.

Lemma UvResume_inv w u :
  uinv u -> uring_enabled (UvResume w) u ->
  exists u', uring_handle (UvResume w) u = Some u' /\ uinv u'.
Proof.
  intros [Hs Ha Hf Harm] (x & Hx & Hr). cbn [uring_handle]. unfold await_resume. rewrite Hx.
  cbn [mbind option_bind]. rewrite Hr. eexists. split; [done|].
  split; [by eapply sub_ok_same|by apply (aw_ok_result w x)|exact Hf|exact Harm].
Qed.

(** A step that leaves operations, heap and awaitables alone. *)
Lemma uinv_frame u u' :
  uinv u -> sub_ok u' -> operations_ u' = operations_ u -> heap_ u' = heap_ u ->
  awaitables_ u' = awaitables_ u -> has_pool u' = has_pool u -> next_address u' = next_address u ->
  (forall w, resumed (frame_ u) w -> resumed (frame_ u') w) -> frame_ok u' ->
  (stop_requested_ u' = false -> stop_requested_ u = false) ->
  (may_disarm (frame_ u') = false -> may_disarm (frame_ u) = false) -> uinv u'.
Proof.
  intros [Hs Ha Hf Harm] Hs' E1 E2 E3 E4 E5 Hr Hf' Hst Hd. split; try done.
  - eapply aw_ok_ext; try done; intros; by rewrite ?E1, ?E2.
  - intros H1 H2. eapply armed_ext; [by apply Harm; auto|by rewrite E1|by rewrite E2].
Qed.

Lemma UvReturn_inv u :
  uinv u -> uring_enabled UvReturn u -> exists u', uring_handle UvReturn u = Some u' /\ uinv u'.
Proof.
  intros [Hs Ha Hf Harm] (n & w & fin & Ef & Hw). cbn [uring_handle]. unfold ResumeReturns. rewrite Ef.
  exists (set_frame (FBatch n) u). split.
  - destruct fin; [done|]. destruct (Hw eq_refl) as (x & -> & Hc). cbn. by rewrite Hc.
  - unfold frame_ok in Hf. rewrite Ef in *. split; [by eapply sub_ok_same| |done|].
    + apply aw_ok_frame; [done|]. rewrite Ef. intros v x [m Hm] Hx _. injection Hm as <- <- ->.
      destruct (Hw eq_refl) as (x' & Hx' & Hc). congruence.
    + intros Hst _. by apply Harm.
Qed.

Lemma UvRun_inv kernel u :
  uinv u -> uring_enabled (UvRun kernel) u ->
  exists u', uring_handle (UvRun kernel) u = Some u' /\ uinv u'.
Proof.
  intros [Hs Ha Hf _] [Ef Hk]. cbn [uring_handle]. unfold Run_start, AcquireRunOwnership.
  unfold frame_ok in Hf. rewrite Ef in Hf. destruct Hf as [-> Hops]. cbn [Z.eqb mbind option_bind].
  set (u0 := set_control thread _ _ u).
  destruct (StageWakeupPoll_inv kernel u0) as (u1 & E & Hs1 & Ha1 & Harm1 & Ef1 & Et1 & _); try done.
  { by eapply sub_ok_same. }
  { eapply aw_ok_ext; try done. }
  { unfold u0. usimpl. rewrite Hops. done. }
  rewrite E. cbn [mbind option_bind]. destruct (Submit_ok kernel u1 Hs1 Hk) as (k' & -> & Hs2).
  cbn [mbind option_bind]. eexists. split; [done|]. split; [by eapply sub_ok_same| | |].
  - eapply aw_ok_ext; try done. unfold u0 in Ef1. usimpl. rewrite Ef1, Ef. by intros w [? ?].
  - unfold frame_ok. usimpl. split; [by rewrite Et1|done].
  - intros _ _. eapply armed_ext; [exact Harm1|done..].
Qed.

Lemma UvBatchEnd_inv kernel u :
  uinv u -> uring_enabled (UvBatchEnd kernel) u ->
  exists u', uring_handle (UvBatchEnd kernel) u = Some u' /\ uinv u'.
Proof.
  intros Hinv [[n Ef] Hk]. cbn [uring_handle]. unfold Run_batch_end. rewrite Ef.
  destruct (Submit_ok kernel u (uv_sub u Hinv) Hk) as (k' & -> & Hs2). cbn [mbind option_bind].
  eexists. split; [done|]. pose proof (uv_frame u Hinv) as Hf. unfold frame_ok in Hf. rewrite Ef in Hf.
  eapply uinv_frame; [exact Hinv|by eapply sub_ok_same|try done..]; rewrite Ef; by try intros w [? ?].
Qed.

Lemma UvCallbacksReturn_inv kernel u :
  uinv u -> uring_enabled (UvCallbacksReturn kernel) u ->
  exists u', uring_handle (UvCallbacksReturn kernel) u = Some u' /\ uinv u'.
Proof.
  intros [Hs Ha Hf Harm] ((n & more & Ef) & Hk & Hm). cbn [uring_handle]. unfold CallbacksReturn.
  rewrite Ef. cbv zeta. unfold frame_ok in Hf. rewrite Ef in *.
  assert (Haw : aw_ok (set_frame (FBatch n) u)).
  { eapply aw_ok_ext; try done. rewrite Ef. by intros w [? ?]. }
  assert (Hsub : sub_ok (set_frame (FBatch n) u)) by by eapply sub_ok_same.
  usimpl. destruct (stop_requested_ u) eqn:Hst; [|destruct more].
  - destruct (more && _); [|by eexists; split; [done|split; done || (cbn; congruence)]].
    edestruct (CancelFd_inv kernel (wakeup_fd u)
      (set_control (run_thread_id_ u) true true (set_frame (FBatch n) u))) as (u' & E & Hinv & _); try done.
    + split; [by eapply sub_ok_same|by eapply aw_ok_ext|exact Hf|done].
    + eexists. split; [exact E|done].
  - eexists. split; [done|]. split; try done. intros _ _. by apply Harm.
  - destruct (StageWakeupPoll_inv kernel (set_frame (FBatch n) u)) as (u1 & E & Hs1 & Ha1 & Harm1 & Ef1 & Et1 & _);
      try done.
    eexists. split; [exact E|]. split; try done. unfold frame_ok. rewrite Ef1. usimpl. congruence.
Qed.

Lemma control_inv e u :
  match e with UvStop | UvExit | UvSnapshot _ => True | _ => False end ->
  uinv u -> uring_enabled e u -> exists u', uring_handle e u = Some u' /\ uinv u'.
Proof.
  intros He Hinv Hen. pose proof (uv_frame u Hinv) as Hf. destruct e; try done; cbn [uring_handle].
  - eexists. split; [done|]. apply (uinv_frame u); try done. by apply (sub_ok_same u); [apply Hinv|..].
  - destruct Hen as [Ef Hfin]. rewrite Hfin. eexists. split; [done|].
    unfold Run_finished in Hfin. apply andb_true_iff in Hfin as [Hst Hops]. apply bool_decide_eq_true in Hops.
    apply (uinv_frame u); try done; [by apply (sub_ok_same u); [apply Hinv|..]|].
    rewrite Ef. by intros w [? ?].
  - unfold UringContext_SnapshotStats, AssertRunThread. rewrite (client_thread u), Z.eqb_refl by done.
    eexists. split; [done|].
    apply (uinv_frame u); try done; [by apply (sub_ok_same u); [apply Hinv|..]|].
    apply has_pool_eq. usimpl. destruct (provided_buffer_pool_ u); split; intros [? ?]; cbn; eauto; done.
Qed.

Lemma uring_handle_inv e u :
  uinv u -> uring_enabled e u -> exists u', uring_handle e u = Some u' /\ uinv u'.
Proof.
  destruct e.
  - apply UvNew_inv.
  - apply UvDestroy_inv.
  - apply UvAwait_inv.
  - apply UvResume_inv.
  - intros Hinv (Hcl & Hk & Hm). unfold in_client in Hcl.
    destruct (CancelFd_inv kernel fd u Hinv) as (u' & E & Hinv' & _); try done;
      [apply client_thread; [apply Hinv|done]|by intros E; rewrite E in Hcl..|]. eauto.
  - apply UvRun_inv.
  - apply UvCompletion_inv.
  - apply UvReturn_inv.
  - apply UvCallbacksReturn_inv.
  - apply UvBatchEnd_inv.
  - by apply control_inv.
  - by apply control_inv.
  - by apply control_inv.
Qed.

(** ** Runs of a context *)

Definition ustep (u u' : Uring) : Prop :=
  exists e, uring_enabled e u /\ uring_handle e u = Some u'.

Lemma ustep_inv entries pool fd u :
  0 < entries < 2 ^ 32 -> rtc ustep (UringContext_new entries pool fd) u -> uinv u.
Proof.
  intros He Hr. eapply (rtc_preserves ustep uinv); [|by apply uinv_new|exact Hr].
  intros u1 u2 Hinv (e & Hen & E). destruct (uring_handle_inv e u1 Hinv Hen) as (u' & E' & Hinv').
  congruence.
Qed.

End run.

(** One event of a concrete run, with the context evaluated. *)
Lemma ustep_event thread e u v :
  uring_enabled e u -> uring_handle thread e u = Some v -> ustep thread u v.
Proof. intros ? ?. by exists e. Qed.

Definition accept_all (n : Z) : list Z := [n].

Lemma accept_all_ok : kernel_ok accept_all.
Proof. intros n Hn. cbn. split; [lia|]. right. lia. Qed.

(** The loop starts, is woken, a callback starts an accept, the accept completes
    and its coroutine takes the result. *)
Definition sample_run : list uring_event :=
  [UvRun accept_all; UvCompletion (MkCqe (Some 0) 1 true None);
   UvNew OpAccept 3 0 0 false; UvAwait accept_all 2; UvCallbacksReturn accept_all; UvBatchEnd accept_all;
   UvCompletion (MkCqe (Some 1) 9 false None); UvResume 2; UvDestroy 2; UvReturn].

Definition run_events (thread : Z) (es : list uring_event) (u : Uring) : option Uring :=
  foldl (fun m e => u ← m; uring_handle thread e u) (Some u) es.

Example sample_run_result :
  (fun u => (operations_ u, kernel_ u, frame_ u)) <$> run_events 7 sample_run (UringContext_new 8 None 4)
  = Some ([0], [0], FBatch 1).
Proof. vm_compute. reflexivity. Qed.

