(* ===== verification/UringResources.v ===== *)
(** * Resources of an io_uring context

    Models the classes that own kernel objects in [src/io/uring/context.cpp]: the
    ring ([UringInstance]), the eventfd ([WakeupEventFd]) and the provided buffer
    ring (of [BufferPool]), as they are built by the constructor of [UringContext]
    and released by destructors, in the order of its members, also when an
    exception ends the construction halfway.

    Every acquisition and release is logged; a log is replayed against the kernel
    objects that are open, and a release of what is not open, or of a buffer ring
    after its ring, has no result. *)

From S2P Require Import Prelude Status BufferPool Socket UringContext.

Local Open Scope Z_scope.

(** ** Kernel objects *)

Inductive resource_op := RingInit | RingExit | EventfdOpen | EventfdClose | BufRingSetup | BufRingFree.

Record resources := MkResources { ring_open : bool; eventfd_open : bool; buf_ring_open : bool }.

Definition no_resources : resources := MkResources false false false.

Definition apply_op (op : resource_op) (r : resources) : option resources :=
  match op with
  | RingInit => if ring_open r then None else Some (MkResources true (eventfd_open r) (buf_ring_open r))
  | RingExit =>
      if ring_open r && negb (buf_ring_open r) then Some (MkResources false (eventfd_open r) false) else None
  | EventfdOpen => if eventfd_open r then None else Some (MkResources (ring_open r) true (buf_ring_open r))
  | EventfdClose => if eventfd_open r then Some (MkResources (ring_open r) false (buf_ring_open r)) else None
  | BufRingSetup =>
      if ring_open r && negb (buf_ring_open r) then Some (MkResources true (eventfd_open r) true) else None
  | BufRingFree =>
      if ring_open r && buf_ring_open r then Some (MkResources true (eventfd_open r) false) else None
  end.

Fixpoint apply_ops (ops : list resource_op) (r : resources) : option resources :=
  match ops with [] => Some r | op :: ops => r ← apply_op op r; apply_ops ops r end.

Lemma apply_ops_app ops1 ops2 r : apply_ops (ops1 ++ ops2) r = (r ← apply_ops ops1 r; apply_ops ops2 r).
Proof. revert r. induction ops1 as [|op ops1 IH]; intros r; [done|]. cbn. destruct (apply_op op r); [apply IH|done]. Qed.

(** ** The owners *)

(** What the kernel answers: [io_uring_queue_init], [eventfd] with its [errno], and
    [io_uring_setup_buf_ring] ([None] is a ring, an error code otherwise). *)
Record kernel_answers := MkAnswers {
  queue_init_result : Z;
  eventfd_result : Z;
  eventfd_errno : Z;
  setup_buf_ring_result : option Z
}.

Section context.
Context (error_message : Z -> bytes) (answers : kernel_answers).

Definition UringInstance_new : list resource_op * option exn :=
  let result := queue_init_result answers in
  if result <? 0
  then ([], Some (InternalException (MakeSystemErrorMessage error_message "io_uring_queue_init" (- result))))
  else ([RingInit], None).

Definition UringInstance_delete : list resource_op := [RingExit].

Definition WakeupEventFd_new : list resource_op * (Z + exn) :=
  let fd := eventfd_result answers in
  if fd <? 0
  then ([], inr (InternalException (MakeSystemErrorMessage error_message "eventfd" (eventfd_errno answers))))
  else ([EventfdOpen], inl fd).

Definition WakeupEventFd_delete : list resource_op := [EventfdClose].

Definition RegistrationError_text (error_code : Z) : bytes :=
  MakeSystemErrorMessage error_message "io_uring provided buffer registration" error_code.

(** The constructor: members in the order of their declaration, then the body; an
    exception destroys what was built, the last first. *)
Definition UringContext_construct (entries : Z) (buffer_pool_config : option UringBufferPoolConfig)
    : option (list resource_op * (Uring + exn)) :=
  let '(ring_ops, failure) := UringInstance_new in
  match failure with
  | Some e => Some (ring_ops, inr e)
  | None =>
      let '(fd_ops, fd) := WakeupEventFd_new in
      match fd with
      | inr e => Some (ring_ops ++ fd_ops ++ UringInstance_delete, inr e)
      | inl fd =>
          match buffer_pool_config with
          | None => Some (ring_ops ++ fd_ops, inl (UringContext_new entries None fd))
          | Some config =>
              registered ← Pool_Register (setup_buf_ring_result answers) RegistrationError_text config;
              if negb (StatusOr_ok registered) then
                Some (ring_ops ++ fd_ops ++ WakeupEventFd_delete ++ UringInstance_delete,
                      inr (InternalException (message_ (so_status_ registered))))
              else
                pool ← StatusOr_get registered;
                Some (ring_ops ++ fd_ops ++ [BufRingSetup], inl (UringContext_new entries (Some pool) fd))
          end
      end
  end.

(** The destructor: its check, then the members, the last declared first. *)
Definition UringContext_delete (u : Uring) : option (list resource_op) :=
  _ ← UringContext_destroy u;
  match provided_buffer_pool_ u with
  | None => Some (WakeupEventFd_delete ++ UringInstance_delete)
  | Some pool =>
      _ ← Pool_destroy pool;
      Some (WakeupEventFd_delete ++ [BufRingFree] ++ UringInstance_delete)
  end.

(** ** Properties *)

(** C29: A context is built completely or not at all, and gives everything back.  The
    constructor succeeds exactly when the kernel grants every object asked for and
    the pool's configuration is valid; when it throws, an [InternalException], it
    has released what it acquired.  A context that is destroyed when it has no
    operation and no leased buffer closes the eventfd, the buffer ring and the
    ring, each once and the buffer ring before its ring. *)
Theorem UringContext_lifetime entries buffer_pool_config :
  (forall config, buffer_pool_config = Some config -> UringBufferPoolConfig_wf config) ->
  exists ops result, UringContext_construct entries buffer_pool_config = Some (ops, result) /\
    match result with
    | inr e => (exists text, e = InternalException text) /\ apply_ops ops no_resources = Some no_resources
    | inl u => apply_ops ops no_resources =
        Some (MkResources true true (bool_decide (is_Some (provided_buffer_pool_ u)))) /\
        forall u', operations_ u' = [] -> (provided_buffer_pool_ u' = None <-> provided_buffer_pool_ u = None) ->
          (forall pool, provided_buffer_pool_ u' = Some pool -> outstanding_leases_ pool = 0) ->
          exists ops', UringContext_delete u' = Some ops' /\ apply_ops (ops ++ ops') no_resources = Some no_resources
    end /\
    ((exists u, result = inl u) <->
     0 <= queue_init_result answers /\ 0 <= eventfd_result answers /\
     forall config, buffer_pool_config = Some config ->
       Status_ok (UringBufferPoolConfig_Validate config) = true /\ setup_buf_ring_result answers = None).
Proof.
  intros Hwf. unfold UringContext_construct, UringInstance_new, WakeupEventFd_new.
  destruct (Z.ltb_spec (queue_init_result answers) 0) as [Hr|Hr].
  { do 2 eexists. split; [done|]. split; [split; [eauto|done]|]. split; [by intros [? ?]|intros (? & _); lia]. }
  destruct (Z.ltb_spec (eventfd_result answers) 0) as [He|He].
  { do 2 eexists. split; [done|]. split; [split; [eauto|done]|]. split; [by intros [? ?]|intros (_ & ? & _); lia]. }
  destruct buffer_pool_config as [config|].
  2: { do 2 eexists. split; [done|]. split; [|by split; eauto]. split; [done|]. intros u' Ho Hp _.
       unfold UringContext_delete, UringContext_destroy. rewrite Ho, (proj2 Hp eq_refl). cbn. eauto. }
  specialize (Hwf config eq_refl).
  destruct (Status_ok (UringBufferPoolConfig_Validate config)) eqn:Ev.
  2: { unfold Pool_Register. rewrite Ev. cbn [negb]. unfold StatusOr_error. rewrite Ev. cbn [mbind option_bind].
       unfold StatusOr_ok. cbn [so_status_]. rewrite Ev. cbn [negb].
       do 2 eexists. split; [done|]. split; [split; [eauto|done]|]. split; [by intros [? ?]|].
       intros (_ & _ & H). destruct (H config eq_refl) as [? _]. congruence. }
  destruct (setup_buf_ring_result answers) as [code|] eqn:Es.
  { unfold Pool_Register. rewrite Ev. cbn.
    do 2 eexists. split; [done|]. split; [split; [eauto|done]|]. split; [by intros [? ?]|].
    intros (_ & _ & H). by destruct (H config eq_refl) as [_ ?]. }
  destruct (Pool_Register_ok RegistrationError_text config Hwf Ev) as (p & -> & _).
  do 2 eexists. split; [done|]. split.
  2: { split; [|by eauto]. intros _. split; [lia|]. split; [lia|]. intros config' [= <-]. by split. }
  split; [done|]. intros u' Ho Hp Hl. unfold UringContext_delete, UringContext_destroy. rewrite Ho. cbn in Hp |- *.
  destruct (provided_buffer_pool_ u') as [pool|] eqn:Eu; [|by specialize (proj1 Hp eq_refl)].
  unfold Pool_destroy. rewrite (Hl pool eq_refl). cbn. eauto.
Qed.

End context.

(** *** Witness: a context with a pool of four buffers *)
Lemma UringContext_lifetime_witness :
  exists ops u, UringContext_construct (fun _ => []) (MkAnswers 0 7 0 None) 256 (Some (MkPoolConfig 4 16 1)) = Some (ops, inl u) /\
    apply_ops ops no_resources = Some (MkResources true true true).
Proof.
  destruct (UringContext_lifetime (fun _ => []) (MkAnswers 0 7 0 None) 256 (Some (MkPoolConfig 4 16 1)))
    as (ops & [u|e] & Hc & Hres & Hiff).
  - intros config [= <-]. repeat split; vm_compute; discriminate || reflexivity.
  - destruct Hres as [Hops _]. exists ops, u. split; [exact Hc|]. rewrite Hops. f_equal. f_equal.
    destruct (provided_buffer_pool_ u) eqn:E; [reflexivity|]. exfalso. vm_compute in Hc. injection Hc as _ <-. discriminate E.
  - exfalso. destruct Hiff as [_ Hiff]. destruct Hiff as [u Hu]; [|discriminate].
    split; [vm_compute; discriminate|]. split; [vm_compute; discriminate|]. intros config [= <-]. split; reflexivity.
Defined.
