(* ===== verification/PostedCallbacks.v ===== *)
(** * Callbacks posted to an io_uring context

    Models the cross-thread control of [src/io/uring/context.cpp]: [Post],
    [RequestStop], [RunPostedCallbacks], [SignalWakeup], [ConsumeWakeupSignal]
    and the parts of [ProcessWakeupCqe] that touch them, as a transition system
    whose steps are the critical sections and system calls.

    The kernel's share is the counter of the eventfd and the multishot poll on
    it.  A write that finds the poll armed posts a completion; the kernel may also
    complete the poll for no reason and may end it with any completion (then the
    flag MORE is missing).  Completions that are already posted are delivered
    before the effect of a cancellation.

    The theorems show that accepted callbacks run in order, each at most once,
    and that no wakeup is lost: when the loop waits with nothing to wake it, every
    accepted callback has run and, after a stop, the poll is being cancelled.  A
    callback accepted right before the stop may never run. *)

From S2P Require Import Prelude Socket.

Local Open Scope Z_scope.

(** The largest value of an eventfd counter. *)
Definition EVENTFD_MAX : Z := 2 ^ 64 - 2.

(** The poll: armed; armed or ended with a completion posted; cancelled with its
    last completion posted; absent. *)
Inductive poll := PArmed | PReady (more : bool) | PCancelled | PIdle.

Section posts.
Context {A : Type}.

(** Where the run thread is with a wakeup: waiting, about to read the eventfd, to
    take the callbacks, running the rest of a batch, about to look at the stop
    flag, or returned from [Run]. *)
Inductive loop_at :=
  | LWaiting
  | LConsume (more : bool)
  | LSwap (more : bool)
  | LRun (more : bool) (batch : list A)
  | LCheck (more : bool)
  | LEnd.

(** [pc_signal] says of each calling thread whether it is about to call
    [SignalWakeup]; [pc_ran] and [pc_accepted] are histories. *)
Record posts := MkPosts {
  accepting_posts_ : bool;
  pc_stop : bool;
  posted_callbacks_ : list A;
  pc_counter : Z;
  pc_poll : poll;
  pc_cancel : bool;
  pc_loop : loop_at;
  pc_signal : list bool;
  pc_ran : list A;
  pc_accepted : list A
}.

Definition posts_new (threads : nat) : posts :=
  MkPosts true false [] 0 PArmed false LWaiting (replicate threads false) [] [].

Definition set_signal (i : nat) (b : bool) (s : posts) : posts :=
  MkPosts (accepting_posts_ s) (pc_stop s) (posted_callbacks_ s) (pc_counter s) (pc_poll s) (pc_cancel s)
    (pc_loop s) (<[i := b]> (pc_signal s)) (pc_ran s) (pc_accepted s).

Definition set_loop (x : loop_at) (s : posts) : posts :=
  MkPosts (accepting_posts_ s) (pc_stop s) (posted_callbacks_ s) (pc_counter s) (pc_poll s) (pc_cancel s)
    x (pc_signal s) (pc_ran s) (pc_accepted s).

Definition set_eventfd (counter : Z) (p : poll) (s : posts) : posts :=
  MkPosts (accepting_posts_ s) (pc_stop s) (posted_callbacks_ s) counter p (pc_cancel s)
    (pc_loop s) (pc_signal s) (pc_ran s) (pc_accepted s).

Definition set_cancel (b : bool) (s : posts) : posts :=
  MkPosts (accepting_posts_ s) (pc_stop s) (posted_callbacks_ s) (pc_counter s) (pc_poll s) b
    (pc_loop s) (pc_signal s) (pc_ran s) (pc_accepted s).

(** ** Operations *)

(** The critical section of [Post], with [should_wake]. *)
Definition Post_locked (fn : A) (s : posts) : bool * posts :=
  if negb (accepting_posts_ s) then (false, s) else
  (bool_decide (posted_callbacks_ s = []),
   MkPosts (accepting_posts_ s) (pc_stop s) (posted_callbacks_ s ++ [fn]) (pc_counter s) (pc_poll s)
     (pc_cancel s) (pc_loop s) (pc_signal s) (pc_ran s) (pc_accepted s ++ [fn])).

(** The critical section of [RequestStop]; the flag says that it goes on to
    signal. *)
Definition RequestStop_locked (s : posts) : bool * posts :=
  if negb (accepting_posts_ s) then (false, s) else
  (true, MkPosts false true (posted_callbacks_ s) (pc_counter s) (pc_poll s) (pc_cancel s) (pc_loop s)
           (pc_signal s) (pc_ran s) (pc_accepted s)).

(** The kernel wakes the poll; [more] is its choice. *)
Definition notify (more : bool) (p : poll) : poll :=
  match p with PArmed => PReady more | p => p end.

(** [SignalWakeup]: [errors] are the errors of the calls of [write] before the
    one that counts, which fails with [EAGAIN] on a full counter.  [None]: the
    call throws. *)
Fixpoint SignalWakeup (errors : list Z) (more : bool) (s : posts) : option posts :=
  match errors with
  | [] =>
      Some (if pc_counter s <? EVENTFD_MAX
            then set_eventfd (pc_counter s + 1) (notify more (pc_poll s)) s else s)
  | errno :: errors =>
      if errno =? EINTR then SignalWakeup errors more s
      else if errno =? EAGAIN then Some s
      else None
  end.

(** [ConsumeWakeupSignal]: the read empties the counter, or fails with [EAGAIN]
    when it is empty. *)
Fixpoint ConsumeWakeupSignal (errors : list Z) (s : posts) : option posts :=
  match errors with
  | [] => Some (set_eventfd 0 (pc_poll s) s)
  | errno :: errors =>
      if errno =? EINTR then ConsumeWakeupSignal errors s
      else if errno =? EAGAIN then Some s
      else None
  end.

(** The critical section of [RunPostedCallbacks]. *)
Definition RunPostedCallbacks_swap (s : posts) : list A * posts :=
  (posted_callbacks_ s,
   MkPosts (accepting_posts_ s) (pc_stop s) [] (pc_counter s) (pc_poll s) (pc_cancel s) (pc_loop s)
     (pc_signal s) (pc_ran s) (pc_accepted s)).

Definition run_callback (fn : A) (s : posts) : posts :=
  MkPosts (accepting_posts_ s) (pc_stop s) (posted_callbacks_ s) (pc_counter s) (pc_poll s) (pc_cancel s)
    (pc_loop s) (pc_signal s) (pc_ran s ++ [fn]) (pc_accepted s).

(** [StageWakeupPoll]: a poll on a counter that is not empty completes at once. *)
Definition rearm (more : bool) (s : posts) : posts :=
  set_eventfd (pc_counter s) (if pc_counter s =? 0 then PArmed else PReady more) s.

(** ** Steps *)

Inductive poster_step (i : nat) (s : posts) : bool -> posts -> Prop :=
  | do_post fn :
      poster_step i s false (set_signal i (Post_locked fn s).1 (Post_locked fn s).2)
  | do_stop :
      poster_step i s false (set_signal i (RequestStop_locked s).1 (RequestStop_locked s).2)
  | do_signal n more s' :
      SignalWakeup (replicate n EINTR) more s = Some s' ->
      poster_step i s true (set_signal i false s').

(** The run thread: a completion of the poll, [ProcessWakeupCqe] and the end of
    [Run]. *)
Inductive wakeup_step (s : posts) : loop_at -> posts -> Prop :=
  | take_ready more :
      pc_poll s = PReady more ->
      wakeup_step s LWaiting
        (set_loop (LConsume more) (set_eventfd (pc_counter s) (if more then PArmed else PIdle) s))
  | take_cancelled :
      pc_poll s = PCancelled ->
      wakeup_step s LWaiting (set_cancel false (set_eventfd (pc_counter s) PIdle s))
  | consume n more s' :
      ConsumeWakeupSignal (replicate n EINTR) s = Some s' ->
      wakeup_step s (LConsume more) (set_loop (LSwap more) s')
  | swap_batch more :
      wakeup_step s (LSwap more)
        (set_loop (LRun more (RunPostedCallbacks_swap s).1) (RunPostedCallbacks_swap s).2)
  | run_one more fn batch :
      wakeup_step s (LRun more (fn :: batch)) (set_loop (LRun more batch) (run_callback fn s))
  | run_end more :
      wakeup_step s (LRun more []) (set_loop (LCheck more) s)
  | check_cancel :
      pc_stop s = true -> pc_cancel s = false ->
      wakeup_step s (LCheck true) (set_loop LWaiting (set_cancel true s))
  | check_stopped more :
      pc_stop s = true -> more = false \/ pc_cancel s = true ->
      wakeup_step s (LCheck more) (set_loop LWaiting s)
  | check_more :
      pc_stop s = false -> wakeup_step s (LCheck true) (set_loop LWaiting s)
  | check_rearm more :
      pc_stop s = false -> wakeup_step s (LCheck false) (set_loop LWaiting (rearm more s))
  | run_returns :
      pc_stop s = true -> pc_poll s = PIdle -> wakeup_step s LWaiting (set_loop LEnd s).

(** The kernel: a spurious completion, and the effect of the cancellation. *)
Inductive poll_step (s : posts) : posts -> Prop :=
  | spurious more : poll_step s (set_eventfd (pc_counter s) (notify more (pc_poll s)) s)
  | cancelled :
      pc_cancel s = true -> pc_poll s = PArmed -> poll_step s (set_eventfd (pc_counter s) PCancelled s).

Inductive pstep (s s' : posts) : Prop :=
  | pstep_poster i b : pc_signal s !! i = Some b -> poster_step i s b s' -> pstep s s'
  | pstep_loop : wakeup_step s (pc_loop s) s' -> pstep s s'
  | pstep_kernel : poll_step s s' -> pstep s s'.

(** ** Invariant *)

Definition batch_of (x : loop_at) : list A := match x with LRun _ batch => batch | _ => [] end.

(** The poll of a completion without MORE is gone until it is staged again. *)
Definition after_final (x : loop_at) : bool :=
  match x with LConsume false | LSwap false | LRun false _ | LCheck false => true | _ => false end.

(** The run thread will take the posted callbacks. *)
Definition woken (s : posts) : Prop :=
  match pc_loop s with
  | LConsume _ | LSwap _ => True
  | LRun false _ | LCheck false => 0 < pc_counter s
  | LEnd => False
  | _ => exists more, pc_poll s = PReady more
  end.

Definition signalling (s : posts) : Prop := exists i, pc_signal s !! i = Some true.

(** The run thread will see the stop, or has seen it. *)
Definition stop_seen (s : posts) : Prop :=
  match pc_loop s with LWaiting | LEnd => pc_poll s = PArmed -> pc_cancel s = true | _ => True end.

Record pinv (s : posts) : Prop := {
  pi_fifo : pc_accepted s = pc_ran s ++ batch_of (pc_loop s) ++ posted_callbacks_ s;
  pi_accept : accepting_posts_ s = negb (pc_stop s);
  pi_counter : 0 <= pc_counter s;
  pi_armed : pc_poll s = PArmed -> pc_counter s = 0 \/ exists more, pc_loop s = LConsume more;
  pi_idle : pc_poll s = PIdle <-> (after_final (pc_loop s) = true \/ pc_poll s = PIdle /\ pc_stop s = true);
  pi_after : pc_poll s = PCancelled \/ pc_cancel s = true \/ pc_loop s = LEnd -> pc_stop s = true;
  pi_woken : posted_callbacks_ s <> [] -> pc_stop s = false -> woken s \/ signalling s;
  pi_stop : pc_stop s = true -> stop_seen s \/ signalling s
}.

Lemma pinv_new n : pinv (posts_new n).
Proof.
  split; try done; cbn; naive_solver.
Qed.

Lemma signalling_insert i b s s' :
  signalling s -> pc_signal s !! i = Some false -> pc_signal s' = <[i := b]> (pc_signal s) -> signalling s'.
Proof.
  intros [j Hj] Hi E. exists j. rewrite E, list_lookup_insert_ne; [done|]. congruence.
Qed.

Lemma signalling_new i s s' b :
  pc_signal s !! i = Some b -> pc_signal s' = <[i := true]> (pc_signal s) -> signalling s'.
Proof. intros Hi E. exists i. rewrite E. apply list_lookup_insert_eq. by eapply lookup_lt_Some. Qed.

Lemma pinv_post i fn s :
  pinv s -> pc_signal s !! i = Some false -> pinv (set_signal i (Post_locked fn s).1 (Post_locked fn s).2).
Proof.
  intros [] Hi. unfold Post_locked. destruct (accepting_posts_ s) eqn:Ha; cbn [negb fst snd].
  - split; cbn; try done.
    + by rewrite pi_fifo0, <- !app_assoc.
    + intros _ Hst. destruct (decide (posted_callbacks_ s = [])) as [E|E].
      * rewrite bool_decide_true by done. right. by eapply signalling_new.
      * destruct (pi_woken0 E Hst); [by left|right]. by eapply signalling_insert.
    + intros Hst. rewrite Hst in pi_accept0. done.
  - split; cbn; try done || congruence.
    + intros Hq Hst. destruct (pi_woken0 Hq Hst); [by left|right]. by eapply signalling_insert.
    + intros Hst. destruct (pi_stop0 Hst); [by left|right]. by eapply signalling_insert.
Qed.

Lemma pinv_request_stop i s :
  pinv s -> pc_signal s !! i = Some false ->
  pinv (set_signal i (RequestStop_locked s).1 (RequestStop_locked s).2).
Proof.
  intros [] Hi. unfold RequestStop_locked. destruct (accepting_posts_ s) eqn:Ha; cbn [negb fst snd].
  - split; cbn; try done.
    + rewrite pi_idle0. naive_solver.
    + intros _. right. by eapply signalling_new.
  - split; cbn; try done || congruence.
    + intros Hq Hst. destruct (pi_woken0 Hq Hst); [by left|right]. by eapply signalling_insert.
    + intros Hst. destruct (pi_stop0 Hst); [by left|right]. by eapply signalling_insert.
Qed.

Lemma SignalWakeup_interrupted n more s :
  SignalWakeup (replicate n EINTR) more s = SignalWakeup [] more s.
Proof. by induction n. Qed.

Lemma ConsumeWakeupSignal_interrupted n s :
  ConsumeWakeupSignal (replicate n EINTR) s = ConsumeWakeupSignal [] s.
Proof. by induction n. Qed.

Lemma notify_idle more p : notify more p = PIdle <-> p = PIdle.
Proof. by destruct p. Qed.

Lemma notify_cancelled more p : notify more p = PCancelled <-> p = PCancelled.
Proof. by destruct p. Qed.

(** Before the stop the poll is armed unless its last completion is handled. *)
Lemma running_poll s :
  pinv s -> pc_stop s = false ->
  pc_loop s <> LEnd /\ pc_poll s <> PCancelled /\ (pc_poll s = PIdle -> after_final (pc_loop s) = true).
Proof.
  intros [] Hst. split_and!.
  - intros E. rewrite pi_after0 in Hst; [done|by auto].
  - intros E. rewrite pi_after0 in Hst; [done|by auto].
  - intros E. apply pi_idle0 in E as [|[_ ?]]; [done|congruence].
Qed.

(** A write that cannot count finds the poll completed, or about to be read. *)
Lemma full_counter s :
  pinv s -> EVENTFD_MAX <= pc_counter s -> pc_poll s = PArmed -> exists more, pc_loop s = LConsume more.
Proof. intros [] Hc Hp. destruct (pi_armed0 Hp) as [E|]; [|done]. rewrite E in Hc. done. Qed.

Lemma signal_wakes s counter p :
  pinv s -> 0 < counter -> (p = PArmed -> exists more, pc_loop s = LConsume more) ->
  (p = PIdle <-> pc_poll s = PIdle) -> (p = PCancelled <-> pc_poll s = PCancelled) ->
  (pc_stop s = false -> woken (set_eventfd counter p s)) /\
  (pc_stop s = true -> stop_seen (set_eventfd counter p s)).
Proof.
  intros Hinv Hc Ha Hi Hk. split; intros Hst.
  - destruct (running_poll s Hinv Hst) as (H1 & H2 & H3). unfold woken. cbn.
    destruct p; [destruct (Ha eq_refl) as [m ->]; done| |by destruct H2; apply Hk|].
    + by destruct (pc_loop s) as [| | |[]|[]|]; eauto.
    + specialize (H3 (proj1 Hi eq_refl)). by destruct (pc_loop s) as [| | |[]|[]|].
  - unfold stop_seen. cbn. destruct (pc_loop s) eqn:El; try done; intros Hp; by destruct (Ha Hp).
Qed.

(** A signal wakes the run thread. *)
Lemma pinv_signal i n more s s' :
  pinv s -> SignalWakeup (replicate n EINTR) more s = Some s' -> pinv (set_signal i false s').
Proof.
  intros Hinv E. rewrite SignalWakeup_interrupted in E. cbn in E. injection E as <-.
  pose proof Hinv as []. assert (Hmax : 0 < EVENTFD_MAX) by done.
  destruct (pc_counter s <? EVENTFD_MAX) eqn:Hc.
  - apply Z.ltb_lt in Hc.
    destruct (signal_wakes s (pc_counter s + 1) (notify more (pc_poll s)) Hinv) as [Hw Hs];
      [lia|by destruct (pc_poll s)|apply notify_idle|apply notify_cancelled|].
    split; cbn; try done; [lia|by destruct (pc_poll s)|by rewrite notify_idle|by rewrite notify_cancelled|..].
    + intros _ Hst. left. by apply Hw.
    + intros Hst. left. by apply Hs.
  - apply Z.ltb_ge in Hc.
    destruct (signal_wakes s (pc_counter s) (pc_poll s) Hinv) as [Hw Hs];
      [lia|by apply full_counter|done|done|].
    split; cbn; try done.
    + intros _ Hst. left. by apply Hw.
    + intros Hst. left. by apply Hs.
Qed.

Lemma pinv_kernel s s' : pinv s -> poll_step s s' -> pinv s'.
Proof.
  intros [] Hs. destruct Hs as [more|Hc Hp].
  - split; cbn; try done; [by destruct (pc_poll s)|by rewrite notify_idle|by rewrite notify_cancelled|..].
    + intros Hq Hst. destruct (pi_woken0 Hq Hst) as [Hw|]; [left|by right]. unfold woken in *. cbn.
      destruct (pc_loop s) as [| | |[]|[]|]; try done; destruct Hw as [m ->]; by exists m.
    + intros Hst. destruct (pi_stop0 Hst) as [Hw|]; [left|by right]. unfold stop_seen in *. cbn.
      destruct (pc_loop s); try done; by destruct (pc_poll s).
  - pose proof (pi_after0 (or_intror (or_introl Hc))) as Hst.
    split; cbn; try done; try congruence.
    + split; [done|]. intros [H|[? _]]; [|done].
      pose proof (proj2 pi_idle0 (or_introl H)). congruence.
    + intros _. left. unfold stop_seen. cbn. by destruct (pc_loop s).
Qed.

(** A step inside [ProcessWakeupCqe] before the stop flag is looked at. *)
Lemma pinv_inside s s' :
  pinv s -> accepting_posts_ s' = accepting_posts_ s -> pc_stop s' = pc_stop s -> pc_cancel s' = pc_cancel s ->
  pc_accepted s' = pc_accepted s -> pc_signal s' = pc_signal s -> pc_poll s' = pc_poll s ->
  pc_ran s' ++ batch_of (pc_loop s') ++ posted_callbacks_ s' =
    pc_ran s ++ batch_of (pc_loop s) ++ posted_callbacks_ s ->
  0 <= pc_counter s' -> (pc_poll s = PArmed -> pc_counter s' = 0) ->
  after_final (pc_loop s') = after_final (pc_loop s) -> pc_loop s' <> LEnd -> pc_loop s' <> LWaiting ->
  (posted_callbacks_ s' <> [] -> pc_stop s = false -> woken s' \/ signalling s) -> pinv s'.
Proof.
  intros [] E1 E2 E3 E4 E5 E6 Hq Hc Ha Hf He Hw Hwk. split.
  - by rewrite E4, pi_fifo0, Hq.
  - by rewrite E1, E2.
  - done.
  - rewrite E6. intros Hp. left. by apply Ha.
  - by rewrite E6, E2, Hf.
  - rewrite E6, E3, E2. intros H. apply pi_after0. naive_solver.
  - rewrite E2. intros Hn Hst. destruct (Hwk Hn Hst) as [|[i Hi]]; [by left|]. right. exists i. by rewrite E5.
  - intros _. left. unfold stop_seen. by destruct (pc_loop s').
Qed.

Lemma not_consuming_armed s :
  pinv s -> (forall more, pc_loop s <> LConsume more) -> pc_poll s = PArmed -> pc_counter s = 0.
Proof. intros [] Hl Hp. destruct (pi_armed0 Hp) as [|[m E]]; [done|]. by destruct (Hl m). Qed.

(** The body of [ProcessWakeupCqe] up to the look at the stop flag. *)
Lemma pinv_batch s s' more :
  pinv s -> (pc_loop s = LConsume more \/ pc_loop s = LSwap more \/ exists b, pc_loop s = LRun more b) ->
  wakeup_step s (pc_loop s) s' -> pinv s'.
Proof.
  intros Hinv Hl Hs. pose proof Hinv as [].
  destruct Hl as [El|[El|[b El]]]; rewrite El in Hs; inversion Hs; subst.
  - match goal with E : ConsumeWakeupSignal _ _ = _ |- _ => rewrite ConsumeWakeupSignal_interrupted in E end.
    simplify_eq/=. apply (pinv_inside s); cbn; try rewrite El; try done. intros. by left.
  - apply (pinv_inside s); cbn; try rewrite El; try done.
    + by rewrite app_nil_r.
    + apply not_consuming_armed; [done|]. by rewrite El.
  - apply (pinv_inside s); cbn; try rewrite El; try done.
    + by rewrite <- app_assoc.
    + apply not_consuming_armed; [done|]. by rewrite El.
    + intros Hq Hst. destruct (pi_woken0 Hq Hst) as [Hw|]; [left|by right].
      unfold woken in *. by rewrite El in Hw.
  - apply (pinv_inside s); cbn; try rewrite El; try done.
    + apply not_consuming_armed; [done|]. by rewrite El.
    + intros Hq Hst. destruct (pi_woken0 Hq Hst) as [Hw|]; [left|by right].
      unfold woken in *. by rewrite El in Hw.
Qed.

(** A completion of the poll is taken. *)
Lemma pinv_take s s' : pinv s -> pc_loop s = LWaiting -> wakeup_step s LWaiting s' -> pinv s'.
Proof.
  intros Hinv El Hs. pose proof Hinv as []. rewrite El in *.
  inversion Hs as [more Hp|Hp| | | | | | | | |Hst Hp]; subst s'.
  - split; cbn; try done; try by destruct more; eauto.
    + destruct more; cbn; naive_solver.
    + intros [H|[H|H]]; [by destruct more| |done]. by apply pi_after0; auto.
  - pose proof (pi_after0 (or_introl Hp)) as Hst. split; cbn; rewrite ?El; try done; [naive_solver|congruence|].
    intros _. left. unfold stop_seen. cbn. by rewrite El.
  - split; cbn; try done; try congruence.
    intros _. left. unfold stop_seen. cbn. by rewrite Hp.
Qed.

(** The stop flag is looked at, and the poll cancelled or staged again. *)
Lemma pinv_check s s' more : pinv s -> pc_loop s = LCheck more -> wakeup_step s (LCheck more) s' -> pinv s'.
Proof.
  intros Hinv El Hs. pose proof Hinv as []. rewrite El in *.
  assert (Ha : pc_poll s = PArmed -> pc_counter s = 0).
  { apply not_consuming_armed; [done|]. by rewrite El. }
  inversion Hs as [| | | | | |Hst Hc|m Hst Hm|Hst|m Hst|]; subst.
  - split; cbn; try done; [by auto|congruence|by left].
  - assert (Hi : more = false -> pc_poll s = PIdle) by (intros ->; apply pi_idle0; by left).
    split; cbn; try done; [by auto| |congruence|].
    + split; [auto|]. by intros [|[? _]].
    + intros _. left. unfold stop_seen. cbn. destruct Hm as [->| ->]; [|done]. rewrite Hi by done. done.
  - split; cbn; try done; [by auto| | |congruence].
    + intros [H|[H|H]]; [by apply pi_after0; auto..|done].
    + intros Hq _. destruct (pi_woken0 Hq Hst) as [Hw|]; [left|by right]. unfold woken in *. by rewrite El in Hw.
  - split; cbn; try done; try congruence.
    + intros H. left. destruct (pc_counter s =? 0) eqn:E; [lia|done].
    + split; [by destruct (_ =? _)|]. by intros [|[? _]].
    + intros [H|[H|H]]; [by destruct (_ =? _)| |done]. by apply pi_after0; auto.
    + intros Hq _. destruct (pi_woken0 Hq Hst) as [Hw|]; [left|by right]. unfold woken in *. rewrite El in Hw.
      cbn. rewrite (proj2 (Z.eqb_neq _ _)) by lia. eauto.
Qed.

Lemma pinv_step s s' : pinv s -> pstep s s' -> pinv s'.
Proof.
  intros Hinv [i b Hi Hs|Hs|Hs].
  - destruct Hs as [fn| |n more s' E]; [by apply pinv_post|by apply pinv_request_stop|by eapply pinv_signal].
  - destruct (pc_loop s) as [|more|more|more b|more|] eqn:El.
    + by apply (pinv_take s).
    + rewrite <- El in Hs. apply (pinv_batch s s' more); auto.
    + rewrite <- El in Hs. apply (pinv_batch s s' more); auto.
    + rewrite <- El in Hs. apply (pinv_batch s s' more); eauto.
    + by apply (pinv_check s s' more).
    + inversion Hs.
  - by apply (pinv_kernel s).
Qed.

Lemma pinv_reachable n s : rtc pstep (posts_new n) s -> pinv s.
Proof. apply (rtc_preserves pstep pinv); [apply pinv_step|apply pinv_new]. Qed.

(** ** Delivery

    The steps of the run thread and of threads about to signal, without new
    calls of [Post]. *)

Inductive qstep (s s' : posts) : Prop :=
  | qstep_signal i s1 : pc_signal s !! i = Some true -> SignalWakeup [] true s = Some s1 ->
      s' = set_signal i false s1 -> qstep s s'
  | qstep_loop : wakeup_step s (pc_loop s) s' -> qstep s s'.

Lemma qstep_pstep s s' : qstep s s' -> pstep s s'.
Proof.
  intros [i s1 Hi E ->|Hs]; [|by apply pstep_loop].
  apply (pstep_poster s _ i true Hi). by apply (do_signal i s 0 true).
Qed.

Lemma rtc_qstep_pinv s s' : pinv s -> rtc qstep s s' -> pinv s'.
Proof.
  intros Hinv Hr. eapply (rtc_preserves qstep pinv); [|exact Hinv|exact Hr].
  intros x y Hx Hy. eapply pinv_step; [exact Hx|by apply qstep_pstep].
Qed.

(** Where delivery leads: no call of [Post] or [RequestStop] happens on the way. *)
Definition delivers (s s' : posts) : Prop :=
  rtc qstep s s' /\ pc_accepted s' = pc_accepted s /\ pc_stop s' = pc_stop s.

Lemma delivers_refl s : delivers s s.
Proof. done. Qed.

Lemma delivers_trans s1 s2 s3 : delivers s1 s2 -> delivers s2 s3 -> delivers s1 s3.
Proof.
  intros (R1 & E1 & F1) (R2 & E2 & F2). split_and!; [by etrans|congruence|congruence].
Qed.

Lemma delivers_step s s' :
  wakeup_step s (pc_loop s) s' -> pc_accepted s' = pc_accepted s -> pc_stop s' = pc_stop s -> delivers s s'.
Proof. intros Hs E F. split_and!; [by apply rtc_once, qstep_loop|done|done]. Qed.

Lemma count_insert (l : list bool) i :
  l !! i = Some true ->
  length (filter (fun b => b = true) l) = S (length (filter (fun b => b = true) (<[i := false]> l))).
Proof.
  revert i. induction l as [|b l IH]; intros [|i] Hi; simplify_eq/=; [done|].
  rewrite !filter_cons. destruct (decide (b = true)); cbn; by rewrite (IH i).
Qed.

(** Threads about to signal do so. *)
Lemma settle_signals s :
  exists s', delivers s s' /\ ~ signalling s' /\ pc_loop s' = pc_loop s.
Proof.
  remember (length (filter (fun b => b = true) (pc_signal s))) as n eqn:En.
  revert s En. induction n as [|n IH]; intros s En.
  - exists s. split_and!; [apply delivers_refl| |done]. intros [i Hi].
    apply list_elem_of_lookup_2 in Hi.
    assert (true ∈ filter (fun b => b = true) (pc_signal s)) as H by by apply list_elem_of_filter.
    destruct (filter _ _); [by apply elem_of_nil in H|done].
  - assert (exists i, pc_signal s !! i = Some true) as [i Hi].
    { destruct (filter (fun b => b = true) (pc_signal s)) as [|b l] eqn:E; [done|].
      assert (b ∈ b :: l) as H by left. rewrite <- E in H. apply list_elem_of_filter in H as [-> H].
      by apply list_elem_of_lookup in H. }
    set (s1 := if pc_counter s <? EVENTFD_MAX
      then set_eventfd (pc_counter s + 1) (notify true (pc_poll s)) s else s).
    assert (pc_signal s1 = pc_signal s /\ pc_accepted s1 = pc_accepted s /\ pc_stop s1 = pc_stop s /\
      pc_loop s1 = pc_loop s) as (E1 & E2 & E3 & E4) by (unfold s1; by destruct (_ <? _)).
    destruct (IH (set_signal i false s1)) as (s' & Hd & Hs & Hl).
    { cbn. rewrite E1. rewrite (count_insert _ _ Hi) in En. lia. }
    exists s'. split_and!; [|done|by rewrite Hl]. eapply delivers_trans; [|exact Hd].
    split_and!; [|done|done]. apply rtc_once. by eapply (qstep_signal _ _ i s1).
Qed.

(** The run thread ends its batch. *)
Lemma finish_check s more :
  pinv s -> pc_stop s = false -> pc_loop s = LCheck more ->
  exists s', delivers s s' /\ pc_loop s' = LWaiting /\ posted_callbacks_ s' = posted_callbacks_ s.
Proof.
  intros Hinv Hst El. destruct more.
  - eexists. split; [apply delivers_step; [rewrite El; by apply check_more|done|done]|done].
  - eexists. split; [apply delivers_step; [rewrite El; by apply (check_rearm s true)|done|done]|done].
Qed.

Lemma finish_run batch s more :
  pinv s -> pc_stop s = false -> pc_loop s = LRun more batch ->
  exists s', delivers s s' /\ pc_loop s' = LWaiting /\ posted_callbacks_ s' = posted_callbacks_ s.
Proof.
  revert s. induction batch as [|fn batch IH]; intros s Hinv Hst El.
  - assert (delivers s (set_loop (LCheck more) s)) as Hd
      by (apply delivers_step; [rewrite El; apply run_end|done|done]).
    destruct (finish_check (set_loop (LCheck more) s) more) as (s' & Hd' & H1 & H2); try done.
    { eapply rtc_qstep_pinv; [exact Hinv|apply Hd]. }
    exists s'. split_and!; [by eapply delivers_trans|done|done].
  - assert (delivers s (set_loop (LRun more batch) (run_callback fn s))) as Hd
      by (apply delivers_step; [rewrite El; apply run_one|done|done]).
    destruct (IH (set_loop (LRun more batch) (run_callback fn s))) as (s' & Hd' & H1 & H2); try done.
    { eapply rtc_qstep_pinv; [exact Hinv|apply Hd]. }
    exists s'. split_and!; [by eapply delivers_trans|done|done].
Qed.

Lemma finish_swap s more :
  pinv s -> pc_stop s = false -> pc_loop s = LSwap more ->
  exists s', delivers s s' /\ pc_loop s' = LWaiting /\ posted_callbacks_ s' = [].
Proof.
  intros Hinv Hst El.
  assert (delivers s (set_loop (LRun more (posted_callbacks_ s)) (RunPostedCallbacks_swap s).2)) as Hd
    by (apply delivers_step; [rewrite El; apply swap_batch|done|done]).
  destruct (finish_run (posted_callbacks_ s) _ more (rtc_qstep_pinv _ _ Hinv (proj1 Hd))) as (s' & Hd' & H1 & H2);
    try done.
  exists s'. split_and!; [by eapply delivers_trans|done|done].
Qed.

Lemma finish_consume s more :
  pinv s -> pc_stop s = false -> pc_loop s = LConsume more ->
  exists s', delivers s s' /\ pc_loop s' = LWaiting /\ posted_callbacks_ s' = [].
Proof.
  intros Hinv Hst El.
  assert (delivers s (set_loop (LSwap more) (set_eventfd 0 (pc_poll s) s))) as Hd
    by (apply delivers_step; [rewrite El; by apply (consume s 0)|done|done]).
  destruct (finish_swap _ more (rtc_qstep_pinv _ _ Hinv (proj1 Hd))) as (s' & Hd' & H1 & H2); try done.
  exists s'. split_and!; [by eapply delivers_trans|done|done].
Qed.

(** A waiting run thread with callbacks posted is woken. *)
Lemma finish_waiting s :
  pinv s -> pc_stop s = false -> pc_loop s = LWaiting -> ~ signalling s ->
  exists s', delivers s s' /\ pc_loop s' = LWaiting /\ posted_callbacks_ s' = [].
Proof.
  intros Hinv Hst El Hns. destruct (decide (posted_callbacks_ s = [])) as [E|E].
  { exists s. split_and!; [apply delivers_refl|done|done]. }
  destruct (pi_woken s Hinv E Hst) as [Hw|]; [|done]. unfold woken in Hw. rewrite El in Hw.
  destruct Hw as [more Hp].
  assert (delivers s (set_loop (LConsume more)
    (set_eventfd (pc_counter s) (if more then PArmed else PIdle) s))) as Hd
    by (apply delivers_step; [rewrite El; by apply take_ready|done|done]).
  destruct (finish_consume _ more (rtc_qstep_pinv _ _ Hinv (proj1 Hd))) as (s' & Hd' & H1 & H2); try done.
  exists s'. split_and!; [by eapply delivers_trans|done|done].
Qed.

Lemma reach_waiting s :
  pinv s -> pc_stop s = false -> exists s', delivers s s' /\ pc_loop s' = LWaiting.
Proof.
  intros Hinv Hst. destruct (pc_loop s) as [|more|more|more b|more|] eqn:El.
  - exists s. split; [apply delivers_refl|done].
  - destruct (finish_consume s more) as (s' & ? & ? & _); eauto.
  - destruct (finish_swap s more) as (s' & ? & ? & _); eauto.
  - destruct (finish_run b s more) as (s' & ? & ? & _); eauto.
  - destruct (finish_check s more) as (s' & ? & ? & _); eauto.
  - destruct (running_poll s Hinv Hst) as [? _]. done.
Qed.

Lemma deliver_all s :
  pinv s -> pc_stop s = false -> exists s', delivers s s' /\ pc_ran s' = pc_accepted s.
Proof.
  intros Hinv Hst. destruct (reach_waiting s Hinv Hst) as (s1 & Hd1 & El1).
  destruct (settle_signals s1) as (s2 & Hd2 & Hns & El2). rewrite El1 in El2.
  pose proof (delivers_trans _ _ _ Hd1 Hd2) as Hd. pose proof Hd as (Hr & Ha & Hst2).
  pose proof (rtc_qstep_pinv _ _ Hinv Hr) as Hinv2. rewrite Hst in Hst2.
  destruct (finish_waiting s2 Hinv2 Hst2 El2 Hns) as (s3 & Hd3 & El3 & Hq).
  pose proof (delivers_trans _ _ _ Hd Hd3) as Hd'. exists s3. split; [done|]. destruct Hd' as (Hr' & Ha' & _).
  pose proof (pi_fifo s3 (rtc_qstep_pinv _ _ Hinv Hr')) as Hf. rewrite El3, Hq in Hf. cbn in Hf.
  by rewrite app_nil_r in Hf; rewrite <- Ha'.
Qed.

(** C19: Callbacks that [Post] accepts run in the order of acceptance, each at
    most once.  Until the stop no wakeup is lost: when the run thread waits, the
    poll has nothing to report and no thread is about to signal, all of them have
    run; and from every state the threads that already called [Post] and the run
    thread can bring all of them to run.  A stop is not lost either: a waiting
    loop that nothing will wake has its poll being cancelled. *)
Theorem PostedCallbacks_delivered n s :
  rtc pstep (posts_new n) s ->
  (exists rest, pc_accepted s = pc_ran s ++ rest) /\
  (pc_stop s = false -> pc_loop s = LWaiting -> (forall more, pc_poll s <> PReady more) ->
     ~ signalling s -> pc_ran s = pc_accepted s) /\
  (pc_stop s = false -> exists s', delivers s s' /\ pc_ran s' = pc_accepted s) /\
  (pc_stop s = true -> pc_loop s = LWaiting -> pc_poll s = PArmed -> ~ signalling s -> pc_cancel s = true).
Proof.
  intros Hr. pose proof (pinv_reachable n s Hr) as Hinv. pose proof Hinv as []. split_and!.
  - eauto.
  - intros Hst El Hp Hns. destruct (decide (posted_callbacks_ s = [])) as [E|E].
    + rewrite El, E in pi_fifo0. cbn in pi_fifo0. by rewrite app_nil_r in pi_fifo0.
    + destruct (pi_woken0 E Hst) as [Hw|]; [|done]. unfold woken in Hw. rewrite El in Hw.
      destruct Hw as [more Hw]. by destruct (Hp more).
  - by apply deliver_all.
  - intros Hst El Hp Hns. destruct (pi_stop0 Hst) as [Hs|]; [|done]. unfold stop_seen in Hs.
    rewrite El in Hs. auto.
Qed.
End posts.

Arguments posts : clear implicits.

(** One thread posts a callback and signals. *)
Lemma PostedCallbacks_delivered_witness :
  exists s : posts Z, pc_accepted s = [5] /\ exists s', delivers s s' /\ pc_ran s' = [5].
Proof.
  set (s := set_signal 0 (Post_locked 5 (posts_new 1)).1 (Post_locked 5 (posts_new 1)).2).
  exists s. split; [done|].
  refine (proj1 (proj2 (proj2 (PostedCallbacks_delivered 1 s _))) eq_refl).
  eapply rtc_l; [|apply rtc_refl].
  apply (pstep_poster (posts_new 1) _ 0 false eq_refl). apply (do_post 0 (posts_new 1) 5).
Defined.

(** A callback accepted just before the stop may never run: the run thread is
    past its batch, sees the stop before the poster has signalled, and cancels
    the poll. *)
Theorem Post_dropped_at_stop :
  exists s : posts Z, rtc pstep (posts_new 2) s /\ pc_accepted s = [5] /\ pc_ran s = [] /\ pc_loop s = LEnd.
Proof.
  eexists. split.
  - eapply rtc_l; [eapply pstep_kernel, (spurious _ true)|].
    eapply rtc_l; [eapply pstep_loop, take_ready; reflexivity|].
    eapply rtc_l; [eapply pstep_loop, (consume _ 0); reflexivity|].
    eapply rtc_l; [eapply pstep_loop, swap_batch|].
    eapply rtc_l; [eapply pstep_loop, run_end|].
    eapply rtc_l; [eapply (pstep_poster _ _ 0 false); [done|apply (do_post 0 _ 5)]|].
    eapply rtc_l; [eapply (pstep_poster _ _ 1 false); [done|apply (do_stop 1)]|].
    eapply rtc_l; [eapply pstep_loop, check_cancel; reflexivity|].
    eapply rtc_l; [eapply pstep_kernel, cancelled; reflexivity|].
    eapply rtc_l; [eapply pstep_loop, take_cancelled; reflexivity|].
    eapply rtc_l; [eapply pstep_loop, run_returns; reflexivity|]. apply rtc_refl.
  - done.
Qed.
