(* ===== verification/Task.v ===== *)
(** * Coroutine tasks

    Models [src/include/common/task.h]: [Task<T>], its promise and its awaiter.
    Coroutine frames live on a heap; a frame is owned by one [Task] object or, once
    the task is awaited, by the awaiter inside the frame that waits.  Resuming a
    frame that is not suspended, touching the promise of a destroyed frame and
    using an empty handle are undefined: they are the [None] of an [option], like
    [Abort].

    The end of a coroutine is two steps of the thread that runs it, the two
    accesses of [FinalAwaiter::await_suspend] to the promise: publishing the
    completion, and reading the continuation.  The parameter [one_thread] says
    whether the owner acts on that thread too, and so never between the two, or
    on another thread, which may go on as soon as the completion is published.

    The theorems show that on one thread every frame has exactly one owner, no
    operation is undefined, and a coroutine that waits is resumed with the outcome
    of the one it waits for; and that an owner on another thread that destroys the
    task when [Wait] returns, as [SyncWait] does, makes the final awaiter read a
    destroyed frame. *)

From S2P Require Import Prelude Status.

Local Open Scope Z_scope.

Section task.
Context {A : Type}.

(** Where a coroutine is: not started, running, suspended on an operation of the
    runtime, waiting for another task, at its final suspension. *)
Inductive point := PNew | PRunning | PBlocked | PAwaiting (child : Z) | PDone.

(** The frame with its promise. *)
Record Frame := MkFrame {
  point_ : point;
  value_ : option A;
  exception_ : option exn;
  completed_ : bool;
  continuation_of : option Z
}.

Record Task := MkTask { handle_ : option Z; started_ : bool }.

(** What the thread that ran a coroutine still does at its end. *)
Inductive final_access := FNotify (frame : Z) | FTransfer (frame : Z).

(** [outcomes] records how coroutines ended, [resumed_with] what was handed to
    those that waited: the waiting frame, the awaited one and the outcome. *)
Record tasks := MkTasks {
  frames : gmap Z Frame;
  task_objects : gmap Z Task;
  pending_final : list final_access;
  next_object : Z;
  outcomes : list (Z * (A + exn));
  resumed_with : list (Z * Z * (A + exn))
}.

Definition tasks_new : tasks := MkTasks ∅ ∅ [] 0 [] [].

Definition set_frames (m : gmap Z Frame) (s : tasks) : tasks :=
  MkTasks m (task_objects s) (pending_final s) (next_object s) (outcomes s) (resumed_with s).

Definition set_tasks (m : gmap Z Task) (s : tasks) : tasks :=
  MkTasks (frames s) m (pending_final s) (next_object s) (outcomes s) (resumed_with s).

Definition set_final (l : list final_access) (s : tasks) : tasks :=
  MkTasks (frames s) (task_objects s) l (next_object s) (outcomes s) (resumed_with s).

Definition set_point (x : point) (f : Frame) : Frame :=
  MkFrame x (value_ f) (exception_ f) (completed_ f) (continuation_of f).

(** ** Operations *)

(** A call of a coroutine function: the frame is suspended at its start. *)
Definition get_return_object (s : tasks) : Z * tasks :=
  let a := next_object s in
  (a + 1, MkTasks (<[a := MkFrame PNew None None false None]> (frames s))
            (<[a + 1 := MkTask (Some a) false]> (task_objects s)) (pending_final s) (a + 2)
            (outcomes s) (resumed_with s)).

(** [handle.destroy()]: a frame that waits holds the awaiter of another one. *)
Fixpoint destroy_frame (fuel : nat) (a : Z) (m : gmap Z Frame) : option (gmap Z Frame) :=
  match fuel with
  | O => None
  | S fuel =>
      f ← m !! a;
      match point_ f with
      | PRunning => None
      | PAwaiting child => destroy_frame fuel child (delete a m)
      | _ => Some (delete a m)
      end
  end.

Definition destroy (a : Z) (s : tasks) : option tasks :=
  m ← destroy_frame (size (frames s)) a (frames s); Some (set_frames m s).

(** [handle.resume()] *)
Definition resume (a : Z) (s : tasks) : option tasks :=
  f ← frames s !! a;
  match point_ f with
  | PNew | PBlocked => Some (set_frames (<[a := set_point PRunning f]> (frames s)) s)
  | _ => None
  end.

Definition Task_Reset (t : Z) (s : tasks) : option tasks :=
  x ← task_objects s !! t;
  s ← match handle_ x with Some a => destroy a s | None => Some s end;
  Some (set_tasks (<[t := MkTask None false]> (task_objects s)) s).

(** The destructor. *)
Definition Task_destroy (t : Z) (s : tasks) : option tasks :=
  s ← Task_Reset t s;
  Some (set_tasks (delete t (task_objects s)) s).

(** The move constructor: the new task and the state. *)
Definition Task_move (t : Z) (s : tasks) : option (Z * tasks) :=
  x ← task_objects s !! t;
  let n := next_object s in
  Some (n, MkTasks (frames s) (<[n := x]> (<[t := MkTask None false]> (task_objects s)))
             (pending_final s) (n + 1) (outcomes s) (resumed_with s)).

Definition Task_assign (t other : Z) (s : tasks) : option tasks :=
  if t =? other then Some s else
  s ← Task_Reset t s;
  x ← task_objects s !! other;
  Some (set_tasks (<[t := x]> (<[other := MkTask None false]> (task_objects s))) s).

Definition Task_Done (t : Z) (s : tasks) : option bool :=
  x ← task_objects s !! t;
  match handle_ x with
  | None => Some true
  | Some a => f ← frames s !! a; Some (match point_ f with PDone => true | _ => false end)
  end.

Definition Task_Start (t : Z) (s : tasks) : option tasks :=
  x ← task_objects s !! t;
  match handle_ x with
  | None => Some s
  | Some a =>
      if started_ x then Some s else
      done ← Task_Done t s;
      if (done : bool) then Some s else
      resume a (set_tasks (<[t := MkTask (Some a) true]> (task_objects s)) s)
  end.

(** [TaskStorage<T>::Result] behind the check for an exception. *)
Definition frame_result (f : Frame) : option (A + exn) :=
  match exception_ f with
  | Some e => Some (inr e)
  | None =>
      match value_ f with
      | Some v => Some (inl v)
      | None => Abort "Task::Result() called before the task produced a value"
      end
  end.

(** An empty handle has no promise. *)
Definition Task_Result (t : Z) (s : tasks) : option (A + exn) :=
  x ← task_objects s !! t;
  a ← handle_ x;
  f ← frames s !! a;
  frame_result f.

(** [Wait] returns. *)
Definition Task_Wait_returns (t : Z) (s : tasks) : option bool :=
  x ← task_objects s !! t;
  match handle_ x with
  | None => Some true
  | Some a => f ← frames s !! a; Some (completed_ f)
  end.

(** [await_resume] in frame [p] and the end of the awaiter, which destroys the
    awaited frame. *)
Definition Awaiter_resume (p child : Z) (s : tasks) : option tasks :=
  g ← frames s !! child;
  outcome ← frame_result g;
  s ← destroy child s;
  f ← frames s !! p;
  Some (MkTasks (<[p := set_point PRunning f]> (frames s)) (task_objects s) (pending_final s)
          (next_object s) (outcomes s) (resumed_with s ++ [(p, child, outcome)])).

(** [co_await std::move(task)] in frame [p]. *)
Definition co_await (p t : Z) (s : tasks) : option tasks :=
  x ← task_objects s !! t;
  child ← handle_ x;
  let s := set_tasks (<[t := MkTask None (started_ x)]> (task_objects s)) s in
  g ← frames s !! child;
  match point_ g with
  | PDone => Awaiter_resume p child s
  | _ =>
      f ← frames s !! p;
      let g := MkFrame (point_ g) (value_ g) (exception_ g) (completed_ g) (Some p) in
      resume child (set_frames (<[child := g]> (<[p := set_point (PAwaiting child) f]> (frames s))) s)
  end.

(** [return_value] or [unhandled_exception], up to the final suspension. *)
Definition co_return (a : Z) (outcome : A + exn) (s : tasks) : option tasks :=
  f ← frames s !! a;
  match point_ f with
  | PRunning =>
      let f := match outcome with
               | inl v => MkFrame PDone (Some v) (exception_ f) (completed_ f) (continuation_of f)
               | inr e => MkFrame PDone (value_ f) (Some e) (completed_ f) (continuation_of f)
               end in
      Some (MkTasks (<[a := f]> (frames s)) (task_objects s) (pending_final s ++ [FNotify a])
              (next_object s) (outcomes s ++ [(a, outcome)]) (resumed_with s))
  | _ => None
  end.

Definition NotifyCompleted (f : Frame) : Frame :=
  MkFrame (point_ f) (value_ f) (exception_ f) true (continuation_of f).

(** The accesses of [FinalAwaiter::await_suspend]; the second one transfers to
    the continuation. *)
Definition FinalAwaiter_step (s : tasks) : option tasks :=
  match pending_final s with
  | [] => None
  | FNotify a :: rest =>
      f ← frames s !! a;
      Some (set_final (FTransfer a :: rest) (set_frames (<[a := NotifyCompleted f]> (frames s)) s))
  | FTransfer a :: rest =>
      f ← frames s !! a;
      match continuation_of f with
      | None => Some (set_final rest s)
      | Some p => Awaiter_resume p a (set_final rest s)
      end
  end.

(** The runtime suspends and resumes a coroutine. *)
Definition set_frame_point (a : Z) (x : point) (s : tasks) : option tasks :=
  f ← frames s !! a; Some (set_frames (<[a := set_point x f]> (frames s)) s).

(** ** Events *)

Inductive task_event :=
  | TvCreate
  | TvMove (t : Z)
  | TvAssign (t other : Z)
  | TvDestroy (t : Z)
  | TvStart (t : Z)
  | TvAwait (p t : Z)
  | TvBlock (a : Z)
  | TvUnblock (a : Z)
  | TvReturn (a : Z) (outcome : A + exn)
  | TvFinal.

Definition task_handle (e : task_event) (s : tasks) : option tasks :=
  match e with
  | TvCreate => Some (get_return_object s).2
  | TvMove t => snd <$> Task_move t s
  | TvAssign t other => Task_assign t other s
  | TvDestroy t => Task_destroy t s
  | TvStart t => Task_Start t s
  | TvAwait p t => co_await p t s
  | TvBlock a => set_frame_point a PBlocked s
  | TvUnblock a => resume a s
  | TvReturn a outcome => co_return a outcome s
  | TvFinal => FinalAwaiter_step s
  end.

Context (one_thread : bool).

(** The frame of a task may be destroyed: it never started, or it is done.  An
    owner on another thread knows that from [Wait]. *)
Definition may_destroy (t : Z) (s : tasks) : Prop :=
  exists x, task_objects s !! t = Some x /\
    forall a, handle_ x = Some a -> exists f, frames s !! a = Some f /\
      (point_ f = PNew \/ (point_ f = PDone /\ (one_thread = false -> completed_ f = true))).

(** The documented use: handle operations of one owner, tasks awaited before they
    start or after they end, frames destroyed when they are not running or
    suspended. *)
Definition task_enabled (e : task_event) (s : tasks) : Prop :=
  match e with TvFinal => pending_final s <> [] | _ => one_thread = true -> pending_final s = [] end /\
  match e with
  | TvCreate | TvFinal => True
  | TvMove t | TvStart t => is_Some (task_objects s !! t)
  | TvAssign t other => may_destroy t s /\ is_Some (task_objects s !! other)
  | TvDestroy t => may_destroy t s
  | TvAwait p t =>
      (exists f, frames s !! p = Some f /\ point_ f = PRunning) /\
      exists x c g, task_objects s !! t = Some x /\ handle_ x = Some c /\ frames s !! c = Some g /\
        (point_ g = PNew \/ point_ g = PDone)
  | TvBlock a | TvReturn a _ => exists f, frames s !! a = Some f /\ point_ f = PRunning
  | TvUnblock a => exists f, frames s !! a = Some f /\ point_ f = PBlocked
  end.

Definition task_step (s s' : tasks) : Prop := exists e, task_enabled e s /\ task_handle e s = Some s'.

(** ** Invariant on one thread *)

Definition final_frame (x : final_access) : Z := match x with FNotify a | FTransfer a => a end.

Definition pending_ok (m : gmap Z Frame) (l : list final_access) : Prop :=
  (length l <= 1)%nat /\
  (forall x, x ∈ l -> exists f, m !! final_frame x = Some f /\ point_ f = PDone) /\
  (forall c g p, m !! c = Some g -> continuation_of g = Some p -> point_ g = PDone ->
     exists x, x ∈ l /\ final_frame x = c).

(** Waiting frames and continuations point at each other. *)
Definition waits_ok (m : gmap Z Frame) : Prop :=
  (forall p f c, m !! p = Some f -> point_ f = PAwaiting c ->
     exists g, m !! c = Some g /\ continuation_of g = Some p) /\
  (forall c g p, m !! c = Some g -> continuation_of g = Some p ->
     exists f, m !! p = Some f /\ point_ f = PAwaiting c).

(** A frame without continuation is the frame of one task. *)
Definition owners_ok (m : gmap Z Frame) (ts : gmap Z Task) : Prop :=
  (forall t x a, ts !! t = Some x -> handle_ x = Some a ->
     exists f, m !! a = Some f /\ continuation_of f = None /\ (started_ x = false -> point_ f = PNew)) /\
  (forall t t' x x' a, ts !! t = Some x -> ts !! t' = Some x' -> handle_ x = Some a ->
     handle_ x' = Some a -> t = t') /\
  (forall a f, m !! a = Some f -> continuation_of f = None ->
     exists t x, ts !! t = Some x /\ handle_ x = Some a).

(** A coroutine ends once. *)
Definition once_ok (m : gmap Z Frame) (n : Z) (outs : list (Z * (A + exn))) : Prop :=
  NoDup outs.*1 /\
  forall a o, (a, o) ∈ outs -> a < n /\ forall f, m !! a = Some f -> point_ f = PDone.

Record tinv (s : tasks) : Prop := {
  ti_owners : owners_ok (frames s) (task_objects s);
  ti_waits : waits_ok (frames s);
  ti_pending : pending_ok (frames s) (pending_final s);
  ti_result : forall a f, frames s !! a = Some f -> point_ f = PDone ->
    exists o, frame_result f = Some o /\ (a, o) ∈ outcomes s;
  ti_clean : forall a f, frames s !! a = Some f -> point_ f <> PDone ->
    value_ f = None /\ exception_ f = None /\ completed_ f = false;
  ti_fresh : forall a, is_Some (frames s !! a) \/ is_Some (task_objects s !! a) -> a < next_object s;
  ti_resumed : forall p c o, (p, c, o) ∈ resumed_with s -> (c, o) ∈ outcomes s;
  ti_once : once_ok (frames s) (next_object s) (outcomes s)
}.

Lemma tinv_new : tinv tasks_new.
Proof.
  unfold tasks_new. split; cbn; unfold owners_ok, waits_ok, pending_ok, once_ok; cbn;
    try split_and!; intros; try constructor; try lia; try (by rewrite lookup_empty in *);
    try (by match goal with H : _ ∈ [] |- _ => apply elem_of_nil in H end).
  destruct H as [[f H]|[x H]]; by rewrite lookup_empty in H.
Qed.

Lemma once_frames m m' n n' outs :
  once_ok m n outs -> n <= n' ->
  (forall b f, m' !! b = Some f -> n <= b \/ exists g, m !! b = Some g /\ (point_ g = PDone -> point_ f = PDone)) ->
  once_ok m' n' outs.
Proof.
  intros [Hnd Ho] Hn Hm. split; [done|]. intros a o Hao. destruct (Ho a o Hao) as [Hlt Hf]. split; [lia|].
  intros f Ha. destruct (Hm a f Ha) as [?|(g & Hg & Himp)]; [lia|eauto].
Qed.

Lemma once_insert a f f' m n outs :
  once_ok m n outs -> m !! a = Some f -> (point_ f = PDone -> point_ f' = PDone) -> once_ok (<[a := f']> m) n outs.
Proof.
  intros Ho Ha Hf. eapply once_frames; [done|lia|]. intros b g Hb. right.
  apply lookup_insert_Some in Hb as [[<- <-]|[_ Hb]]; eauto.
Qed.

Lemma once_delete a m n outs : once_ok m n outs -> once_ok (delete a m) n outs.
Proof.
  intros Ho. eapply once_frames; [done|lia|]. intros b g Hb. right. apply lookup_delete_Some in Hb as [_ Hb]. eauto.
Qed.

(** Only the owner can name a frame without continuation. *)
Lemma owner_frame t x a f m ts :
  owners_ok m ts -> ts !! t = Some x -> handle_ x = Some a -> m !! a = Some f ->
  continuation_of f = None /\ (started_ x = false -> point_ f = PNew).
Proof. intros (H1 & _ & _) Ht Ha Hf. destruct (H1 t x a Ht Ha) as (f' & ? & ? & ?). by simplify_eq. Qed.

(** A frame moves between points at which it does not wait. *)
Lemma owners_point a f f' m ts :
  owners_ok m ts -> m !! a = Some f -> continuation_of f' = continuation_of f -> point_ f <> PNew ->
  owners_ok (<[a := f']> m) ts.
Proof.
  intros (H1 & H2 & H3) Ha Hc Hn. split_and!.
  - intros t x b Ht Hb. destruct (H1 t x b Ht Hb) as (g & Hg & Hgc & Hs).
    destruct (decide (a = b)) as [->|Hne].
    + rewrite lookup_insert_eq. simplify_eq. exists f'. split_and!; [done|congruence|]. intros Hst.
      by destruct Hn; apply Hs.
    + rewrite lookup_insert_ne by done. eauto.
  - exact H2.
  - intros b g Hb Hg. apply lookup_insert_Some in Hb as [[<- <-]|[_ Hb]]; [|by eapply H3].
    apply (H3 a f); [done|congruence].
Qed.

Lemma waits_point a f f' m :
  waits_ok m -> m !! a = Some f -> continuation_of f' = continuation_of f ->
  (forall c, point_ f <> PAwaiting c) -> (forall c, point_ f' <> PAwaiting c) -> waits_ok (<[a := f']> m).
Proof.
  intros (H1 & H2) Ha Hc Hn Hn'. split.
  - intros p g c Hp Hg. apply lookup_insert_Some in Hp as [[<- <-]|[Hne Hp]]; [by destruct (Hn' c)|].
    destruct (H1 p g c Hp Hg) as (h & Hh & Hhc). destruct (decide (a = c)) as [->|Hne'].
    + exists f'. rewrite lookup_insert_eq. simplify_eq. split; [done|congruence].
    + exists h. by rewrite lookup_insert_ne.
  - intros c g p Hg Hgc.
    assert (exists g', m !! c = Some g' /\ continuation_of g' = Some p) as (g' & Hg' & Hgc').
    { apply lookup_insert_Some in Hg as [[<- <-]|[_ Hg]]; [exists f; split; [done|congruence]|eauto]. }
    destruct (H2 c g' p Hg' Hgc') as (h & Hh & Hhp). exists h. rewrite lookup_insert_ne; [done|].
    intros ->. simplify_eq. by destruct (Hn c).
Qed.

Lemma fresh_insert a f f' s :
  tinv s -> frames s !! a = Some f ->
  forall b, is_Some (<[a := f']> (frames s) !! b) \/ is_Some (task_objects s !! b) -> b < next_object s.
Proof.
  intros [] Ha b [[g Hb]|Hb]; apply ti_fresh0; [left|by right].
  apply lookup_insert_Some in Hb as [[<- _]|[_ Hb]]; eauto.
Qed.

Lemma fresh_frame s :
  tinv s -> frames s !! next_object s = None /\ task_objects s !! next_object s = None /\
  task_objects s !! (next_object s + 1) = None.
Proof.
  intros []. split_and!.
  - destruct (frames s !! next_object s) eqn:E; [|done].
    specialize (ti_fresh0 (next_object s) ltac:(left; eauto)). lia.
  - destruct (task_objects s !! next_object s) eqn:E; [|done].
    specialize (ti_fresh0 (next_object s) ltac:(right; eauto)). lia.
  - destruct (task_objects s !! (next_object s + 1)) eqn:E; [|done].
    specialize (ti_fresh0 (next_object s + 1) ltac:(right; eauto)). lia.
Qed.

Lemma create_inv s : tinv s -> tinv (get_return_object s).2.
Proof.
  intros Hinv. destruct (fresh_frame s Hinv) as (Hf & _ & Ht). destruct Hinv.
  destruct ti_owners0 as (O1 & O2 & O3). destruct ti_waits0 as (W1 & W2).
  destruct ti_pending0 as (P1 & P2 & P3). unfold get_return_object. cbn [snd]. set (a := next_object s) in *.
  assert (Hold : forall b g, frames s !! b = Some g -> <[a := MkFrame PNew None None false None]> (frames s) !! b = Some g).
  { intros b g Hb. rewrite lookup_insert_ne; [done|]. congruence. }
  assert (Hins : forall b g, <[a := MkFrame PNew None None false None]> (frames s) !! b = Some g ->
    (b = a /\ g = MkFrame PNew None None false None) \/ frames s !! b = Some g).
  { intros b g Hb. apply lookup_insert_Some in Hb as [[<- <-]|[_ Hb]]; auto. }
  assert (Htask : forall t x, <[a + 1 := MkTask (Some a) false]> (task_objects s) !! t = Some x ->
    (t = a + 1 /\ x = MkTask (Some a) false) \/ (t <> a + 1 /\ task_objects s !! t = Some x)).
  { intros t x Hx. apply lookup_insert_Some in Hx as [[<- <-]|[? Hx]]; auto. }
  assert (Hnot : forall t x, task_objects s !! t = Some x -> handle_ x <> Some a).
  { intros t x Hx E. destruct (O1 t x a Hx E) as (f & ? & _). congruence. }
  split; cbn; [split_and!|split|split_and!|..]; try done.
  - intros t x b Hx Hb. destruct (Htask t x Hx) as [[-> ->]|[_ Hx']].
    + injection Hb as <-. rewrite lookup_insert_eq. by eexists.
    + destruct (O1 t x b Hx' Hb) as (f & ? & ? & ?). eauto.
  - intros t t' x x' b Hx Hx' Hb Hb'. destruct (Htask t x Hx) as [[-> ->]|[_ ?]], (Htask t' x' Hx') as [[-> ->]|[_ ?]];
      simplify_eq/=; try done; [by destruct (Hnot t' x')|by destruct (Hnot t x)|eauto].
  - intros b g Hb Hg. destruct (Hins b g Hb) as [[-> ->]|Hb'].
    + exists (a + 1). eexists. by rewrite lookup_insert_eq.
    + destruct (O3 b g Hb' Hg) as (t & x & Hx & Hh). exists t, x. rewrite lookup_insert_ne; [done|]. congruence.
  - intros p f c Hp Hpt. destruct (Hins p f Hp) as [[-> ->]|Hp']; [done|].
    destruct (W1 p f c Hp' Hpt) as (g & ? & ?). eauto.
  - intros c g p Hc Hg. destruct (Hins c g Hc) as [[-> ->]|Hc']; [done|].
    destruct (W2 c g p Hc' Hg) as (f & ? & ?). eauto.
  - intros x Hx. destruct (P2 x Hx) as (f & ? & ?). eauto.
  - intros c g p Hc Hg Hd. destruct (Hins c g Hc) as [[-> ->]|Hc']; [done|]. eauto.
  - intros b f Hb Hd. destruct (Hins b f Hb) as [[-> ->]|Hb']; [done|]. eauto.
  - intros b f Hb Hd. destruct (Hins b f Hb) as [[-> ->]|Hb']; [done|]. eauto.
  - intros b [[g Hb]|[x Hb]].
    + destruct (Hins b g Hb) as [[-> _]|Hb']; [lia|]. specialize (ti_fresh0 b ltac:(left; eauto)). lia.
    + destruct (Htask b x Hb) as [[-> _]|[_ Hb']]; [lia|]. specialize (ti_fresh0 b ltac:(right; eauto)). lia.
  - eapply once_frames; [done|lia|]. intros b g Hb. destruct (Hins b g Hb) as [[-> _]|Hb']; [left; lia|eauto].
Qed.

(** A frame moves between points at which it neither waits nor has ended. *)
Definition active (x : point) : Prop := match x with PNew | PRunning | PBlocked => True | _ => False end.

Lemma active_inv a f x ts s :
  tinv s -> frames s !! a = Some f -> active (point_ f) -> active x ->
  owners_ok (<[a := set_point x f]> (frames s)) ts -> (forall b, is_Some (ts !! b) -> b < next_object s) ->
  tinv (set_tasks ts (set_frames (<[a := set_point x f]> (frames s)) s)).
Proof.
  intros Hinv Ha Hf Hx Ho Hts. pose proof (fresh_insert a f (set_point x f) s Hinv Ha) as Hfresh. destruct Hinv.
  destruct ti_pending0 as (P1 & P2 & P3).
  assert (Hnd : point_ f <> PDone /\ x <> PDone) by (by split; intros E; rewrite E in *).
  split; cbn; try done.
  - eapply waits_point; [done|done|done|by intros c E; rewrite E in *|by intros c E; cbn in E; subst x].
  - split_and!; [done| |].
    + intros y Hy. destruct (P2 y Hy) as (g & Hg & Hd). rewrite lookup_insert_ne; [eauto|]. intros E.
      rewrite <- E in Hg. simplify_eq. tauto.
    + intros c g p Hc Hg Hd. apply lookup_insert_Some in Hc as [[<- <-]|[_ Hc]]; [by destruct Hnd|eauto].
  - intros b g Hb Hd. apply lookup_insert_Some in Hb as [[<- <-]|[_ Hb]]; [by destruct Hnd|eauto].
  - intros b g Hb Hd. apply lookup_insert_Some in Hb as [[<- <-]|[_ Hb]]; [|eauto].
    apply (ti_clean0 a f Ha). tauto.
  - intros b [Hb|Hb]; [apply Hfresh; by left|auto].
  - eapply once_insert; [done|done|]. tauto.
Qed.

Lemma point_inv a f x s :
  tinv s -> frames s !! a = Some f -> point_ f = PRunning \/ point_ f = PBlocked -> x = PRunning \/ x = PBlocked ->
  tinv (set_frames (<[a := set_point x f]> (frames s)) s).
Proof.
  intros Hinv Ha Hf Hx. apply (active_inv a f x (task_objects s)); try done.
  - by destruct Hf as [-> | ->].
  - by destruct Hx as [-> | ->].
  - eapply owners_point; [by destruct Hinv|done|done|by destruct Hf as [-> | ->]].
  - intros b Hb. apply (ti_fresh s Hinv). by right.
Qed.

Lemma return_inv a outcome s f :
  tinv s -> pending_final s = [] -> frames s !! a = Some f -> point_ f = PRunning ->
  exists s', co_return a outcome s = Some s' /\ tinv s'.
Proof.
  intros Hinv Hp Ha Hf. unfold co_return. rewrite Ha. cbn [mbind option_bind]. rewrite Hf.
  eexists. split; [done|]. set (f' := match outcome with inl v => _ | inr e => _ end).
  assert (Hf' : point_ f' = PDone /\ continuation_of f' = continuation_of f /\ frame_result f' = Some outcome).
  { destruct (ti_clean s Hinv a f Ha) as (E1 & E2 & _); [by rewrite Hf|].
    unfold f', frame_result. destruct outcome; cbn; rewrite ?E1, ?E2; done. }
  destruct Hf' as (Hd & Hc & Hr). clearbody f'.
  pose proof (fresh_insert a f f' s Hinv Ha) as Hfresh. destruct Hinv. destruct ti_pending0 as (P1 & P2 & P3).
  rewrite Hp in *. split; cbn; try done.
  - eapply owners_point; [done|done|done|]. by rewrite Hf.
  - eapply waits_point; [done|done|done|by rewrite Hf|by rewrite Hd].
  - split_and!; [done| |].
    + intros x Hx. apply list_elem_of_singleton in Hx as ->. exists f'. by rewrite lookup_insert_eq.
    + intros c g p Hg Hgc Hgd. apply lookup_insert_Some in Hg as [[<- <-]|[_ Hg]].
      * exists (FNotify a). split; [by left|done].
      * destruct (P3 c g p Hg Hgc Hgd) as (x & Hx & _). by apply elem_of_nil in Hx.
  - intros b g Hb Hgd. apply lookup_insert_Some in Hb as [[<- <-]|[_ Hb]].
    + exists outcome. split; [done|]. apply elem_of_app. right. by left.
    + destruct (ti_result0 b g Hb Hgd) as (o & ? & ?). exists o. split; [done|]. apply elem_of_app. by left.
  - intros b g Hb Hgd. apply lookup_insert_Some in Hb as [[<- <-]|[_ Hb]]; [done|eauto].
  - intros p c o Ho. apply elem_of_app. left. eauto.
  - destruct ti_once0 as [Hnd Ho]. split.
    + rewrite fmap_app. apply NoDup_app. split_and!; [done| |cbn; apply NoDup_singleton].
      intros b Hb Hba. apply list_elem_of_singleton in Hba. cbn in Hba. subst b.
      apply list_elem_of_fmap in Hb as ([b o] & Eb & Hb). cbn in Eb. subst b.
      destruct (Ho a o Hb) as [_ Hdone]. specialize (Hdone f Ha). congruence.
    + intros b o Hb. apply elem_of_app in Hb as [Hb|Hb].
      * destruct (Ho b o Hb) as [Hlt Hdone]. split; [done|]. intros g Hg.
        apply lookup_insert_Some in Hg as [[<- <-]|[_ Hg]]; eauto.
      * apply list_elem_of_singleton in Hb. simplify_eq. split; [apply ti_fresh0; left; eauto|].
        intros g Hg. rewrite lookup_insert_eq in Hg. by simplify_eq.
Qed.

(** ** Task objects change *)

Lemma owner_moved t n x m ts :
  owners_ok m ts -> ts !! t = Some x -> n <> t -> (forall y, ts !! n = Some y -> handle_ y = None) ->
  owners_ok m (<[n := x]> (<[t := MkTask None false]> ts)).
Proof.
  intros (O1 & O2 & O3) Ht Hnt Hn.
  assert (Hins : forall u y b, <[n := x]> (<[t := MkTask None false]> ts) !! u = Some y -> handle_ y = Some b ->
    (u = n /\ y = x) \/ (u <> n /\ u <> t /\ ts !! u = Some y)).
  { intros u y b Hu Hb. apply lookup_insert_Some in Hu as [[<- <-]|[? Hu]]; [by left|].
    apply lookup_insert_Some in Hu as [[<- <-]|[? Hu]]; [done|]. right. split_and!; auto. }
  split_and!.
  - intros u y b Hu Hb. destruct (Hins u y b Hu Hb) as [[-> ->]|(_ & _ & ?)]; eauto.
  - intros u u' y y' b Hu Hu' Hb Hb'.
    destruct (Hins u y b Hu Hb) as [[-> ->]|(? & ? & ?)], (Hins u' y' b Hu' Hb') as [[-> ->]|(? & ? & ?)]; try done.
    + by destruct (O2 t u' x y' b).
    + by destruct (O2 t u x y b).
    + eauto.
  - intros b f Hb Hc. destruct (O3 b f Hb Hc) as (u & y & Hu & Hy). destruct (decide (u = t)) as [->|Hut].
    + exists n, x. rewrite lookup_insert_eq. by simplify_eq.
    + exists u, y. rewrite !lookup_insert_ne; [done|congruence|]. intros ->. by rewrite (Hn y Hu) in Hy.
Qed.

(** A task gives up its frame. *)
Lemma owners_released t x a b m ts :
  owners_ok m ts -> ts !! t = Some x -> handle_ x = Some a ->
  (forall u y c, <[t := MkTask None b]> ts !! u = Some y -> handle_ y = Some c -> c <> a /\ u <> t /\ ts !! u = Some y) /\
  (forall c f, c <> a -> m !! c = Some f -> continuation_of f = None ->
     exists u y, <[t := MkTask None b]> ts !! u = Some y /\ handle_ y = Some c).
Proof.
  intros (O1 & O2 & O3) Ht Ha. split.
  - intros u y c Hu Hc. apply lookup_insert_Some in Hu as [[<- <-]|[? Hu]]; [done|]. split_and!; auto.
    intros ->. by destruct (O2 u t y x a).
  - intros c f Hca Hc Hf. destruct (O3 c f Hc Hf) as (u & y & Hu & Hy). exists u, y.
    rewrite lookup_insert_ne; [done|]. intros ->. congruence.
Qed.

Lemma move_inv t s : tinv s -> is_Some (task_objects s !! t) -> exists r, Task_move t s = Some r /\ tinv r.2.
Proof.
  intros Hinv [x Ht]. destruct (fresh_frame s Hinv) as (Hf & Hn & _). destruct Hinv. unfold Task_move. rewrite Ht.
  cbn. eexists. split; [done|]. assert (t < next_object s) by (apply ti_fresh0; right; eauto).
  split; cbn; try done.
  - apply owner_moved; [done..|lia|]. intros y Hy. congruence.
  - intros b [Hb|[y Hb]]; [specialize (ti_fresh0 b ltac:(by left)); lia|].
    apply lookup_insert_Some in Hb as [[<- _]|[_ Hb]]; [lia|].
    apply lookup_insert_Some in Hb as [[<- _]|[_ Hb]]; [lia|].
    specialize (ti_fresh0 b ltac:(right; eauto)). lia.
  - eapply once_frames; [done|lia|]. eauto.
Qed.

(** ** Frames are destroyed *)

Lemma destroy_ended a f s :
  frames s !! a = Some f -> point_ f = PNew \/ point_ f = PDone ->
  destroy a s = Some (set_frames (delete a (frames s)) s).
Proof.
  intros Ha Hf. unfold destroy. destruct (size (frames s)) as [|n] eqn:E.
  - apply map_size_empty_inv in E. rewrite E, lookup_empty in Ha. done.
  - cbn. rewrite Ha. cbn. by destruct Hf as [-> | ->].
Qed.

(** Frames that do not wait and are not waited for leave the rest intact. *)
Lemma waits_delete a f m :
  waits_ok m -> m !! a = Some f -> continuation_of f = None -> (forall c, point_ f <> PAwaiting c) ->
  waits_ok (delete a m).
Proof.
  intros (W1 & W2) Ha Hc Hf. split.
  - intros p h c Hp Hpt. apply lookup_delete_Some in Hp as [Hpa Hp]. destruct (W1 p h c Hp Hpt) as (g & Hg & Hgc).
    exists g. rewrite lookup_delete_ne; [done|]. congruence.
  - intros c g p Hg Hgc. apply lookup_delete_Some in Hg as [Hca Hg]. destruct (W2 c g p Hg Hgc) as (h & Hh & Hpt).
    exists h. rewrite lookup_delete_ne; [done|]. intros ->. simplify_eq. by eapply Hf.
Qed.

(** An empty task object, old or new, owns nothing. *)
Lemma owners_empty t b m ts :
  owners_ok m ts -> (forall x, ts !! t = Some x -> handle_ x = None) -> owners_ok m (<[t := MkTask None b]> ts).
Proof.
  intros (O1 & O2 & O3) Ht.
  assert (R : forall u y c, <[t := MkTask None b]> ts !! u = Some y -> handle_ y = Some c -> ts !! u = Some y).
  { intros u y c Hu Hy. apply lookup_insert_Some in Hu as [[<- <-]|[_ Hu]]; done. }
  split_and!.
  - intros u y c Hu Hy. eauto.
  - intros u u' y y' c Hu Hu' Hy Hy'. eauto.
  - intros c g Hg Hgc. destruct (O3 c g Hg Hgc) as (u & y & Hu & Hy). exists u, y.
    rewrite lookup_insert_ne; [done|]. intros ->. by rewrite (Ht y Hu) in Hy.
Qed.

Lemma fresh_tasks t y s ts :
  tinv s -> is_Some (task_objects s !! t) -> ts = <[t := y]> (task_objects s) ->
  forall a, is_Some (frames s !! a) \/ is_Some (ts !! a) -> a < next_object s.
Proof.
  intros Hinv Ht -> a [Ha|[z Hz]]; [apply (ti_fresh s Hinv); by left|].
  apply (ti_fresh s Hinv). right. apply lookup_insert_Some in Hz as [[<- _]|[_ Hz]]; [done|eauto].
Qed.

(** A task drops its frame, which has not started or has ended. *)
Lemma drop_inv t x a f b s :
  tinv s -> pending_final s = [] -> task_objects s !! t = Some x -> handle_ x = Some a -> frames s !! a = Some f ->
  point_ f = PNew \/ point_ f = PDone ->
  tinv (set_tasks (<[t := MkTask None b]> (task_objects s)) (set_frames (delete a (frames s)) s)).
Proof.
  intros Hinv Hp Ht Hh Ha Hf.
  pose proof (fresh_tasks t (MkTask None b) s _ Hinv ltac:(eauto) eq_refl) as Hfresh. destruct Hinv.
  destruct (owner_frame t x a f _ _ ti_owners0 Ht Hh Ha) as [Hc _].
  destruct (owners_released t x a b _ _ ti_owners0 Ht Hh) as [R1 R2].
  destruct ti_owners0 as (O1 & O2 & O3). destruct ti_pending0 as (P1 & P2 & P3).
  assert (Hnw : forall c, point_ f <> PAwaiting c) by (by intros c; destruct Hf as [-> | ->]).
  split; cbn; [split_and!|by eapply waits_delete|..]; try done.
  - intros u y c Hu Hy. destruct (R1 u y c Hu Hy) as (Hca & _ & Hu'). rewrite lookup_delete_ne; [|done]. eauto.
  - intros u u' y y' c Hu Hu' Hy Hy'. destruct (R1 u y c Hu Hy) as (_ & _ & ?), (R1 u' y' c Hu' Hy') as (_ & _ & ?). eauto.
  - intros c g Hg Hgc. apply lookup_delete_Some in Hg as [Hca Hg]. eauto.
  - rewrite Hp in *. split_and!; [cbn; lia|set_solver|].
    intros c g p Hg. apply lookup_delete_Some in Hg as [_ Hg]. eauto.
  - intros c g Hg. apply lookup_delete_Some in Hg as [_ Hg]. eauto.
  - intros c g Hg. apply lookup_delete_Some in Hg as [_ Hg]. eauto.
  - intros c [[g Hg]|Hy]; apply Hfresh; [|by right]. apply lookup_delete_Some in Hg as [_ Hg]. left. eauto.
  - by apply once_delete.
Qed.

Lemma reset_inv t s :
  tinv s -> pending_final s = [] -> may_destroy t s ->
  exists s', Task_Reset t s = Some s' /\ tinv s' /\ pending_final s' = [] /\
    task_objects s' = <[t := MkTask None false]> (task_objects s).
Proof.
  intros Hinv Hp (x & Ht & Hx). unfold Task_Reset. rewrite Ht. cbn [mbind option_bind].
  destruct (handle_ x) as [a|] eqn:Hh.
  - destruct (Hx a eq_refl) as (f & Ha & Hf). rewrite (destroy_ended a f) by (done || tauto). cbn.
    eexists. split; [done|]. split; [|done]. apply (drop_inv t x a f false s); tauto.
  - eexists. split; [done|]. split; [|done].
    pose proof (fresh_tasks t (MkTask None false) s _ Hinv ltac:(eauto) eq_refl) as Hfresh.
    destruct Hinv. split; cbn; try done. apply owners_empty; [done|]. intros y Hy. by simplify_eq.
Qed.

Lemma destroy_inv t s :
  tinv s -> pending_final s = [] -> may_destroy t s -> exists s', Task_destroy t s = Some s' /\ tinv s'.
Proof.
  intros Hinv Hp Hm. destruct (reset_inv t s Hinv Hp Hm) as (s1 & Hr & H1 & Hp1 & E). unfold Task_destroy.
  rewrite Hr. cbn. eexists. split; [done|]. destruct H1. split; cbn; try done.
  - assert (Hnone : forall y, task_objects s1 !! t = Some y -> handle_ y = None).
    { intros y. rewrite E, lookup_insert_eq. by intros [= <-]. }
    destruct ti_owners0 as (O1 & O2 & O3). split_and!.
    + intros u y c Hu. apply lookup_delete_Some in Hu as [_ Hu]. eauto.
    + intros u u' y y' c Hu Hu'. apply lookup_delete_Some in Hu as [_ Hu], Hu' as [_ Hu']. eauto.
    + intros c g Hg Hgc. destruct (O3 c g Hg Hgc) as (u & y & Hu & Hy). exists u, y.
      rewrite lookup_delete_ne; [done|]. intros ->. by rewrite (Hnone y Hu) in Hy.
  - intros c [Hc|[y Hy]]; apply ti_fresh0; [by left|right]. apply lookup_delete_Some in Hy as [_ Hy]. eauto.
Qed.

Lemma assign_inv t other s :
  tinv s -> pending_final s = [] -> may_destroy t s -> is_Some (task_objects s !! other) ->
  exists s', Task_assign t other s = Some s' /\ tinv s'.
Proof.
  intros Hinv Hp Hm [x Ho]. unfold Task_assign. destruct (Z.eqb_spec t other) as [->|Hne]; [eauto|].
  destruct (reset_inv t s Hinv Hp Hm) as (s1 & -> & H1 & Hp1 & E). cbn [mbind option_bind].
  assert (Ho1 : task_objects s1 !! other = Some x) by (by rewrite E, lookup_insert_ne).
  rewrite Ho1. cbn. eexists. split; [done|]. pose proof (ti_fresh s1 H1) as Hfr. destruct H1. split; cbn; try done.
  - apply owner_moved; [done..|]. rewrite E. intros y. rewrite lookup_insert_eq. by intros [= <-].
  - intros c [Hc|[y Hy]]; [apply Hfr; by left|].
    apply lookup_insert_Some in Hy as [[<- _]|[_ Hy]]; [apply Hfr; right; rewrite E, lookup_insert_eq; eauto|].
    apply lookup_insert_Some in Hy as [[<- _]|[_ Hy]]; apply Hfr; right; eauto.
Qed.

(** ** Coroutines start *)

Lemma start_inv t s : tinv s -> is_Some (task_objects s !! t) -> exists s', Task_Start t s = Some s' /\ tinv s'.
Proof.
  intros Hinv [x Ht]. unfold Task_Start, Task_Done. rewrite Ht. cbn [mbind option_bind].
  destruct (handle_ x) as [a|] eqn:Hh; [|eauto]. destruct (started_ x) eqn:Hs; [eauto|].
  pose proof (ti_owners s Hinv) as (O1 & O2 & O3). destruct (O1 t x a Ht Hh) as (f & Ha & Hc & Hn).
  rewrite Ha. cbn [mbind option_bind]. rewrite (Hn Hs). unfold resume. cbn. rewrite Ha. cbn. rewrite (Hn Hs).
  eexists. split; [done|]. set (ts := <[t := MkTask (Some a) true]> (task_objects s)).
  assert (Hins : forall u y c, ts !! u = Some y -> handle_ y = Some c ->
    (u = t /\ c = a /\ y = MkTask (Some a) true) \/ (u <> t /\ c <> a /\ task_objects s !! u = Some y)).
  { intros u y c Hu Hy. apply lookup_insert_Some in Hu as [[<- <-]|[Hu1 Hu]]; [by simplify_eq/=; left|].
    right. split_and!; auto. intros ->. by destruct (O2 u t y x a). }
  apply (active_inv a f PRunning ts); [done|done|by rewrite (Hn Hs)|done| |].
  - split_and!.
    + intros u y c Hu Hy. destruct (Hins u y c Hu Hy) as [(-> & -> & ->)|(_ & Hca & Hu')].
      * rewrite lookup_insert_eq. by eexists.
      * rewrite lookup_insert_ne by done. eauto.
    + intros u u' y y' c Hu Hu' Hy Hy'.
      destruct (Hins u y c Hu Hy) as [(? & ? & ?)|(_ & ? & ?)], (Hins u' y' c Hu' Hy') as [(? & ? & ?)|(_ & ? & ?)]; subst; eauto; done.
    + intros c g Hg Hgc. destruct (decide (c = a)) as [->|Hca].
      * exists t. eexists. unfold ts. by rewrite lookup_insert_eq.
      * rewrite lookup_insert_ne in Hg by done. destruct (O3 c g Hg Hgc) as (u & y & Hu & Hy). exists u, y.
        unfold ts. rewrite lookup_insert_ne; [done|]. intros ->. congruence.
  - intros b Hb. apply (fresh_tasks t (MkTask (Some a) true) s ts Hinv); [eauto|done|by right].
Qed.

(** ** Awaiting *)

(** Handing a recorded outcome to a waiting coroutine. *)
Definition add_resumed (x : Z * Z * (A + exn)) (s : tasks) : tasks :=
  MkTasks (frames s) (task_objects s) (pending_final s) (next_object s) (outcomes s) (resumed_with s ++ [x]).

Lemma add_resumed_inv p c o s : tinv s -> (c, o) ∈ outcomes s -> tinv (add_resumed (p, c, o) s).
Proof.
  intros [] Ho. split; cbn; try done. intros p' c' o' H.
  apply elem_of_app in H as [H|H]; [eauto|]. apply list_elem_of_singleton in H. by simplify_eq.
Qed.

(** The task is already done: no suspension. *)
Lemma await_ready_inv p f t x c g s :
  tinv s -> pending_final s = [] -> frames s !! p = Some f -> point_ f = PRunning ->
  task_objects s !! t = Some x -> handle_ x = Some c -> frames s !! c = Some g -> point_ g = PDone ->
  exists s', co_await p t s = Some s' /\ tinv s'.
Proof.
  intros Hinv Hp Hf Hfp Ht Hh Hg Hgp. assert (Hpc : p <> c) by congruence.
  destruct (ti_result s Hinv c g Hg Hgp) as (o & Hr & Ho).
  unfold co_await, Awaiter_resume. rewrite Ht. cbn [mbind option_bind]. rewrite Hh. cbn. rewrite Hg. cbn.
  rewrite Hgp, Hr. cbn. erewrite destroy_ended by (cbn; eauto). cbn. rewrite lookup_delete_ne by done. rewrite Hf. cbn.
  eexists. split; [done|].
  pose proof (drop_inv t x c g (started_ x) s Hinv Hp Ht Hh Hg ltac:(by right)) as H1.
  set (s1 := set_tasks _ _) in H1.
  assert (Hf1 : frames s1 !! p = Some f) by (unfold s1; cbn; by rewrite lookup_delete_ne).
  exact (add_resumed_inv p c o _ (point_inv p f PRunning s1 H1 Hf1 ltac:(by left) ltac:(by left)) Ho).
Qed.

(** Lookups after a coroutine suspended on [c] and resumed it. *)
Lemma awaiting_lookup (m : gmap Z Frame) c p g f b h :
  <[c := g]> (<[p := f]> m) !! b = Some h ->
  (b = c /\ h = g) \/ (b = p /\ b <> c /\ h = f) \/ (b <> c /\ b <> p /\ m !! b = Some h).
Proof.
  intros H. apply lookup_insert_Some in H as [[<- <-]|[? H]]; [by left|].
  apply lookup_insert_Some in H as [[<- <-]|[? H]]; [right; left|right; right]; auto.
Qed.

Lemma awaiting_waits (m : gmap Z Frame) p f c g g' :
  waits_ok m -> p <> c -> m !! p = Some f -> point_ f = PRunning -> m !! c = Some g -> point_ g = PNew ->
  continuation_of g = None -> point_ g' = PRunning -> continuation_of g' = Some p ->
  waits_ok (<[c := g']> (<[p := set_point (PAwaiting c) f]> m)).
Proof.
  intros (W1 & W2) Hpc Hf Hfp Hg Hgp Hgc Hg'p Hg'c. split.
  - intros q h d Hq Hqp. apply awaiting_lookup in Hq as [(-> & ->)|[(-> & _ & ->)|(_ & _ & Hq)]].
    + congruence.
    + injection Hqp as <-. exists g'. by rewrite lookup_insert_eq.
    + destruct (W1 q h d Hq Hqp) as (k & Hk & Hkc). rewrite lookup_insert_ne by congruence.
      destruct (decide (d = p)) as [->|Hdp].
      * rewrite lookup_insert_eq. simplify_eq. by eexists.
      * rewrite lookup_insert_ne by done. eauto.
  - intros d h q Hd Hdc. apply awaiting_lookup in Hd as [(-> & ->)|[(-> & _ & ->)|(Hdc' & Hdp & Hd)]].
    + rewrite Hg'c in Hdc. injection Hdc as <-. rewrite lookup_insert_ne, lookup_insert_eq by done. by eexists.
    + destruct (W2 p f q Hf Hdc) as (k & Hk & Hkp). exists k. rewrite !lookup_insert_ne; [done|congruence..].
    + destruct (W2 d h q Hd Hdc) as (k & Hk & Hkp). exists k. rewrite !lookup_insert_ne; [done|congruence..].
Qed.

Lemma await_suspend_inv p f t x c g s :
  tinv s -> pending_final s = [] -> frames s !! p = Some f -> point_ f = PRunning ->
  task_objects s !! t = Some x -> handle_ x = Some c -> frames s !! c = Some g -> point_ g = PNew ->
  exists s', co_await p t s = Some s' /\ tinv s'.
Proof.
  intros Hinv Hp Hf Hfp Ht Hh Hg Hgp. assert (Hpc : p <> c) by congruence.
  unfold co_await, resume. rewrite Ht. cbn [mbind option_bind]. rewrite Hh. cbn. rewrite Hg. cbn.
  rewrite Hgp, Hf. cbn. rewrite lookup_insert_eq. cbn. eexists. split; [done|].
  rewrite insert_insert_eq. unfold set_frames, set_tasks, set_point at 1. cbn.
  set (g' := MkFrame PRunning _ _ _ _). set (m := <[c := g']> _).
  pose proof (fresh_tasks t (MkTask None (started_ x)) s _ Hinv ltac:(eauto) eq_refl) as Hfresh. destruct Hinv.
  destruct (owner_frame t x c g _ _ ti_owners0 Ht Hh Hg) as [Hgc _].
  destruct (owners_released t x c (started_ x) _ _ ti_owners0 Ht Hh) as [R1 R2].
  destruct ti_owners0 as (O1 & O2 & O3). destruct ti_pending0 as (P1 & P2 & P3). rewrite Hp in *.
  assert (Hm : forall b h, m !! b = Some h -> point_ h = PDone -> frames s !! b = Some h).
  { intros b h Hb Hd. apply awaiting_lookup in Hb as [(-> & ->)|[(-> & _ & ->)|(_ & _ & ?)]]; done. }
  split; cbn; [split_and!|by eapply awaiting_waits|..]; try done.
  - intros u y b Hu Hy. destruct (R1 u y b Hu Hy) as (Hbc & _ & Hu'). destruct (O1 u y b Hu' Hy) as (h & Hb & Hhc & Hs).
    unfold m. rewrite lookup_insert_ne by done. destruct (decide (b = p)) as [->|Hbp].
    + rewrite lookup_insert_eq. simplify_eq. eexists. split_and!; [done|done|]. intros Es. by rewrite (Hs Es) in Hfp.
    + rewrite lookup_insert_ne by done. eauto.
  - intros u u' y y' b Hu Hu' Hy Hy'. destruct (R1 u y b Hu Hy) as (_ & _ & ?), (R1 u' y' b Hu' Hy') as (_ & _ & ?). eauto.
  - intros b h Hb Hhc. apply awaiting_lookup in Hb as [(-> & ->)|[(-> & _ & ->)|(? & _ & ?)]]; [done|eapply R2; eauto..].
  - split_and!; [done|set_solver|]. intros b h q Hb Hbc Hd. eauto.
  - intros b h Hb Hd. eauto.
  - intros b h Hb Hd. apply awaiting_lookup in Hb as [(-> & ->)|[(-> & _ & ->)|(_ & _ & ?)]]; [..|eauto].
    + apply (ti_clean0 c g Hg). by rewrite Hgp.
    + apply (ti_clean0 p f Hf). by rewrite Hfp.
  - intros b [[h Hb]|Hb]; apply Hfresh; [left|by right].
    apply awaiting_lookup in Hb as [(-> & ->)|[(-> & _ & ->)|(_ & _ & ?)]]; eauto.
  - eapply once_insert; [eapply once_insert; [done|done|congruence]|rewrite lookup_insert_ne by done; exact Hg|congruence].
Qed.

(** ** The final suspension *)

Lemma notify_inv a f s :
  tinv s -> pending_final s = [FNotify a] -> frames s !! a = Some f ->
  tinv (set_final [FTransfer a]
    (set_frames (<[a := NotifyCompleted f]> (frames s)) s)).
Proof.
  intros Hinv Hp Ha. pose proof (fresh_insert a f (NotifyCompleted f) s Hinv Ha) as Hfresh.
  destruct Hinv. destruct ti_pending0 as (P1 & P2 & P3). rewrite Hp in *.
  destruct (P2 (FNotify a) ltac:(by left)) as (f0 & Ha0 & Hd). cbn in Ha0. simplify_eq.
  split; cbn; try done.
  - eapply owners_point; [done|done|done|by rewrite Hd].
  - eapply waits_point; [done|done|done|by rewrite Hd|cbn; by rewrite Hd].
  - split_and!; [done| |].
    + intros x Hx. apply list_elem_of_singleton in Hx as ->. cbn. rewrite lookup_insert_eq. by eexists.
    + intros c g p Hg Hgc Hgd. exists (FTransfer a). split; [by left|]. cbn.
      apply lookup_insert_Some in Hg as [[<- <-]|[_ Hg]]; [done|].
      destruct (P3 c g p Hg Hgc Hgd) as (x & Hx & <-). by apply list_elem_of_singleton in Hx as ->.
  - intros b g Hb Hgd. apply lookup_insert_Some in Hb as [[<- <-]|[_ Hb]]; [|eauto].
    destruct (ti_result0 a f Ha Hd) as (o & Hr & ?). exists o. split; [|done]. exact Hr.
  - intros b g Hb Hgd. apply lookup_insert_Some in Hb as [[<- <-]|[_ Hb]]; [done|eauto].
  - by eapply once_insert.
Qed.

(** The ended frame is gone and the one that waited for it runs. *)
Lemma transfer_waits (m : gmap Z Frame) a f p h :
  waits_ok m -> m !! a = Some f -> point_ f = PDone -> continuation_of f = Some p -> m !! p = Some h ->
  point_ h = PAwaiting a -> waits_ok (<[p := set_point PRunning h]> (delete a m)).
Proof.
  intros (W1 & W2) Ha Hd Hc Hp Hh. assert (Hpa : p <> a) by congruence. split.
  - intros q k d Hq Hqp. apply lookup_insert_Some in Hq as [[<- <-]|[Hqn Hq]]; [done|].
    apply lookup_delete_Some in Hq as [_ Hq]. destruct (W1 q k d Hq Hqp) as (g & Hg & Hgc).
    destruct (decide (d = p)) as [->|Hdp].
    + rewrite lookup_insert_eq. simplify_eq. by eexists.
    + rewrite lookup_insert_ne by done. rewrite lookup_delete_ne by congruence. eauto.
  - intros d g q Hq Hgc. assert (Hdg : exists g0, m !! d = Some g0 /\ continuation_of g0 = Some q /\ d <> a).
    { apply lookup_insert_Some in Hq as [[<- <-]|[Hqn Hq]]; [by exists h|].
      apply lookup_delete_Some in Hq as [? Hq]. exists g. auto. }
    destruct Hdg as (g0 & Hd0 & Hc0 & Hda). destruct (W2 d g0 q Hd0 Hc0) as (k & Hk & Hkp). exists k.
    rewrite lookup_insert_ne, lookup_delete_ne by congruence. done.
Qed.

Lemma transfer_inv a f p h s :
  tinv s -> pending_final s = [FTransfer a] -> frames s !! a = Some f -> point_ f = PDone ->
  continuation_of f = Some p -> frames s !! p = Some h -> point_ h = PAwaiting a ->
  tinv (set_final [] (set_frames (<[p := set_point PRunning h]> (delete a (frames s))) s)).
Proof.
  intros Hinv Hp Ha Hd Hc Hh Hhp. destruct Hinv. pose proof ti_waits0 as (W1 & W2).
  destruct ti_owners0 as (O1 & O2 & O3). destruct ti_pending0 as (P1 & P2 & P3). rewrite Hp in *.
  assert (Hold : forall b k, <[p := set_point PRunning h]> (delete a (frames s)) !! b = Some k ->
    b <> a /\ exists k0, frames s !! b = Some k0 /\ continuation_of k = continuation_of k0 /\
      (k = k0 \/ (b = p /\ k = set_point PRunning h))).
  { intros b k Hb. apply lookup_insert_Some in Hb as [[<- <-]|[? Hb]]; [split; [congruence|exists h; auto]|].
    apply lookup_delete_Some in Hb as [? Hb]. split; [congruence|exists k; auto]. }
  split; cbn; [split_and!|by eapply transfer_waits|..]; try done.
  - intros t x b Ht Hb. destruct (O1 t x b Ht Hb) as (k & Hk & Hkc & Hks).
    destruct (decide (b = p)) as [->|Hbp].
    + rewrite lookup_insert_eq. simplify_eq. eexists. split_and!; [done|done|]. intros E. by rewrite (Hks E) in Hhp.
    + rewrite lookup_insert_ne, lookup_delete_ne by congruence. eauto.
  - intros b k Hb Hk. destruct (Hold b k Hb) as (_ & k0 & Hk0 & E & _). apply (O3 b k0 Hk0). congruence.
  - split_and!; [cbn; lia|set_solver|]. intros b k q Hb Hk Hkd.
    destruct (Hold b k Hb) as (Hba & k0 & Hk0 & _ & [->|[_ ->]]); [|done].
    destruct (P3 b k0 q Hk0 Hk Hkd) as (x & Hx & <-). by apply list_elem_of_singleton in Hx as ->.
  - intros b k Hb Hkd. destruct (Hold b k Hb) as (_ & k0 & Hk0 & _ & [->|[_ ->]]); [eauto|done].
  - intros b k Hb Hkd. destruct (Hold b k Hb) as (_ & k0 & Hk0 & _ & [->|[-> ->]]); [eauto|].
    apply (ti_clean0 p h Hh). by rewrite Hhp.
  - intros b [[k Hb]|Hb]; apply ti_fresh0; [left|by right]. destruct (Hold b k Hb) as (_ & k0 & Hk0 & _). eauto.
  - eapply once_insert; [by apply once_delete|rewrite lookup_delete_ne by congruence; exact Hh|congruence].
Qed.

Lemma final_inv s : tinv s -> pending_final s <> [] -> exists s', FinalAwaiter_step s = Some s' /\ tinv s'.
Proof.
  intros Hinv Hp. pose proof (ti_pending s Hinv) as (P1 & P2 & P3).
  destruct (pending_final s) as [|x l] eqn:E; [done|]. destruct l; [|cbn in P1; lia].
  destruct (P2 x ltac:(by left)) as (f & Hf & Hd). unfold FinalAwaiter_step. rewrite E.
  destruct x as [a|a]; cbn in Hf; rewrite Hf; cbn [mbind option_bind].
  - eexists. split; [done|]. by apply notify_inv.
  - destruct (continuation_of f) as [p|] eqn:Hc.
    + pose proof (ti_waits s Hinv) as (W1 & W2). destruct (W2 a f p Hf Hc) as (h & Hh & Hhp).
      destruct (ti_result s Hinv a f Hf Hd) as (o & Hr & Ho). assert (Hpa : p <> a) by congruence.
      unfold Awaiter_resume. cbn. rewrite Hf. cbn. rewrite Hr. cbn.
      rewrite (destroy_ended a f) by (done || by right). cbn. rewrite lookup_delete_ne by done. rewrite Hh. cbn.
      eexists. split; [done|].
      exact (add_resumed_inv p a o _ (transfer_inv a f p h s Hinv E Hf Hd Hc Hh Hhp) Ho).
    + eexists. split; [done|]. destruct Hinv. split; cbn; try done. split_and!; [cbn; lia|set_solver|].
      intros c g p Hg Hgc Hgd. destruct (P3 c g p Hg Hgc Hgd) as (x & Hx & <-).
      apply list_elem_of_singleton in Hx as ->. cbn in Hg. congruence.
Qed.

(** ** Every enabled event *)

Lemma task_handle_inv e s :
  one_thread = true -> tinv s -> task_enabled e s -> exists s', task_handle e s = Some s' /\ tinv s'.
Proof.
  intros H1 Hinv [Hp He]. destruct e; cbn [task_handle]; try specialize (Hp H1).
  - eexists. split; [done|]. by apply create_inv.
  - destruct (move_inv t s Hinv He) as (r & -> & ?). by exists r.2.
  - destruct He as [Hm Ho]. by apply assign_inv.
  - by apply destroy_inv.
  - by apply start_inv.
  - destruct He as ((f & Hf & Hfp) & x & c & g & Ht & Hh & Hg & [Hgp|Hgp]).
    + by eapply await_suspend_inv.
    + by eapply await_ready_inv.
  - destruct He as (f & Hf & Hfp). unfold set_frame_point. rewrite Hf. cbn. eexists. split; [done|].
    apply point_inv; auto.
  - destruct He as (f & Hf & Hfp). unfold resume. rewrite Hf. cbn. rewrite Hfp. eexists. split; [done|].
    apply point_inv; auto.
  - destruct He as (f & Hf & Hfp). by eapply return_inv.
  - by apply final_inv.
Qed.

(** ** Destroying a chain of waiting coroutines *)

Definition awaits (m : gmap Z Frame) (a b : Z) : Prop :=
  exists f, m !! a = Some f /\ point_ f = PAwaiting b.

Lemma awaits_det m a b c : awaits m a b -> awaits m a c -> b = c.
Proof. intros (f & Hf & E) (g & Hg & E'). congruence. Qed.

Lemma awaits_delete m a b : a <> b -> forall c, awaits (delete a m) b c <-> awaits m b c.
Proof. intros Hne c. unfold awaits. by setoid_rewrite lookup_delete_ne; [|done]. Qed.

(** No frame waits for [a], and what is waited for lives and is waited for once. *)
Definition chain_ok (m : gmap Z Frame) (a : Z) : Prop :=
  (forall q, ~ awaits m q a) /\
  (forall p c, awaits m p c -> is_Some (m !! c) /\ forall q, awaits m q c -> q = p).

Lemma awaits_deleted m a b c : awaits (delete a m) b c -> b <> a /\ awaits m b c.
Proof.
  intros H. destruct (decide (b = a)) as [->|Hne].
  - destruct H as (g & Hg & _). by rewrite lookup_delete_eq in Hg.
  - split; [done|]. by apply (awaits_delete m a b).
Qed.

Lemma chain_ok_child m a c :
  chain_ok m a -> awaits m a c -> c <> a /\ is_Some (delete a m !! c) /\ chain_ok (delete a m) c.
Proof.
  intros [Hroot Hone] Hac. assert (Hca : c <> a) by (intros ->; by eapply Hroot).
  destruct (Hone a c Hac) as [Hc Huniq]. split_and!; [done|by rewrite lookup_delete_ne|]. split.
  - intros q Hq. apply awaits_deleted in Hq as [Hne Hq]. auto.
  - intros p d Hpd. apply awaits_deleted in Hpd as [Hne Hpd]. destruct (Hone p d Hpd) as [Hd Hu]. split.
    + rewrite lookup_delete_ne; [done|]. intros ->. by eapply Hroot.
    + intros q Hq. apply awaits_deleted in Hq as [_ Hq]. auto.
Qed.

(** The frames on the chain from [a]: itself and those on the chain of its child. *)
Lemma chain_split m a c b :
  chain_ok m a -> awaits m a c -> rtc (awaits m) a b <-> b = a \/ (b <> a /\ rtc (awaits (delete a m)) c b).
Proof.
  intros [Hroot Hone] Hac.
  assert (Hno : forall d b, d <> a -> rtc (awaits m) d b <-> b <> a /\ rtc (awaits (delete a m)) d b).
  { intros d b' Hda. split.
    - intros H. induction H as [d|d e b' Hde _ IH]; [done|].
      destruct IH as [? IH]; [intros ->; by eapply Hroot|]. split; [done|].
      eapply rtc_l; [by apply awaits_delete|done].
    - intros [_ H]. induction H as [d|d e b' Hde _ IH]; [done|]. apply awaits_deleted in Hde as [_ Hde].
      eapply rtc_l; [done|]. apply IH. intros ->. by eapply Hroot. }
  assert (Hca : c <> a) by (intros ->; by eapply Hroot). split.
  - intros Hb. inversion Hb as [|? d ? Had Hd]; subst; [by left|]. right. rewrite (awaits_det m a d c) in Hd by done.
    by apply Hno.
  - intros [-> |Hb]; [constructor|]. eapply rtc_l; [done|]. by apply Hno.
Qed.

Lemma chain_end m a b : (forall c, ~ awaits m a c) -> rtc (awaits m) a b <-> b = a.
Proof.
  intros Hno. split; [|intros ->; constructor]. intros Hb. inversion Hb as [|? d ? Had _]; subst; [done|].
  by destruct (Hno d).
Qed.

(** One unit of fuel for every frame is enough: each frame on the way is removed. *)
Lemma destroy_frame_chain n : forall a m,
  (size m <= n)%nat -> is_Some (m !! a) -> chain_ok m a ->
  (forall b f, rtc (awaits m) a b -> m !! b = Some f -> point_ f <> PRunning) ->
  exists m', destroy_frame n a m = Some m' /\
    (forall b, rtc (awaits m) a b -> m' !! b = None) /\
    (forall b, ~ rtc (awaits m) a b -> m' !! b = m !! b).
Proof.
  induction n as [|n IH]; intros a m Hn [f Ha] Hok Hrun.
  { destruct (size m) eqn:E; [|lia]. apply map_size_empty_inv in E. by rewrite E, lookup_empty in Ha. }
  cbn. rewrite Ha. cbn [mbind option_bind].
  assert (Hleaf : (forall c, point_ f <> PAwaiting c) -> exists m', Some (delete a m) = Some m' /\
    (forall b, rtc (awaits m) a b -> m' !! b = None) /\ (forall b, ~ rtc (awaits m) a b -> m' !! b = m !! b)).
  { intros Hf. assert (Hno : forall c, ~ awaits m a c) by (intros c (g & Hg & E); simplify_eq; by eapply Hf).
    exists (delete a m). split_and!; [done| |]; intros b; rewrite (chain_end m a b Hno).
    - intros ->. by rewrite lookup_delete_eq.
    - intros Hb. by rewrite lookup_delete_ne. }
  destruct (point_ f) as [| | |c|] eqn:Hp; try (by apply Hleaf); [by destruct (Hrun a f ltac:(constructor) Ha)|].
  assert (Hac : awaits m a c) by (by exists f). destruct (chain_ok_child m a c Hok Hac) as (Hca & Hc & Hokc).
  destruct (IH c (delete a m)) as (m' & Hm' & Hin & Hout); [|done|done| |].
  - rewrite map_size_delete_Some by eauto. lia.
  - intros b g Hb Hg. apply lookup_delete_Some in Hg as [Hba Hg].
    apply (Hrun b g); [|done]. apply (chain_split m a c b Hok Hac). by right.
  - assert (Hgone : m' !! a = None).
    { rewrite Hout; [by rewrite lookup_delete_eq|]. intros Hr.
      apply rtc_inv_r in Hr as [?|(q & _ & Hq)]; [done|]. apply awaits_deleted in Hq as [_ Hq]. by apply (proj1 Hok q). }
    exists m'. split_and!; [done| |].
    + intros b Hb. apply (chain_split m a c b Hok Hac) in Hb as [-> |[_ Hb]]; [done|auto].
    + intros b Hb. rewrite (chain_split m a c b Hok Hac) in Hb.
      assert (b <> a) by tauto. rewrite Hout by tauto. by rewrite lookup_delete_ne.
Qed.

End task.

Arguments Frame : clear implicits.
Arguments tasks : clear implicits.
Arguments task_event : clear implicits.

(** ** Theorems *)

Section theorems.
Context {A : Type}.
Implicit Types (s : tasks A).

(** Runs of given events. *)
Fixpoint task_run (es : list (task_event A)) s : option (tasks A) :=
  match es with [] => Some s | e :: es => s ← task_handle e s; task_run es s end.

Fixpoint enabled_along (one_thread : bool) (es : list (task_event A)) s : Prop :=
  match es with
  | [] => True
  | e :: es => task_enabled one_thread e s /\
      match task_handle e s with Some s => enabled_along one_thread es s | None => False end
  end.

Lemma run_reachable b es s s' : enabled_along b es s -> task_run es s = Some s' -> rtc (task_step b) s s'.
Proof.
  revert s. induction es as [|e es IH]; cbn; intros s.
  - intros _ [= ->]. constructor.
  - intros [He Hes] Hrun. destruct (task_handle e s) as [s1|] eqn:E; [|done]. cbn in Hrun.
    eapply rtc_l; [by exists e|auto].
Qed.

Lemma tinv_reachable s : rtc (task_step true) tasks_new s -> tinv s.
Proof.
  apply (rtc_preserves (task_step true) tinv); [|exact tinv_new].
  intros s1 s2 Hinv (e & He & Hs). destruct (task_handle_inv true e s1 eq_refl Hinv He) as (s' & E & H'). by simplify_eq.
Qed.

Lemma outcome_unique s a o o' : tinv s -> (a, o) ∈ outcomes s -> (a, o') ∈ outcomes s -> o = o'.
Proof.
  intros Hinv. destruct (ti_once s Hinv) as [Hnd _]. revert Hnd. induction (outcomes s) as [|[b p] l IH]; cbn.
  - intros _ H. by apply elem_of_nil in H.
  - intros [Hb Hnd]%NoDup_cons. rewrite !elem_of_cons. intros [?|H] [?|H']; simplify_eq; auto.
    all: destruct Hb; apply list_elem_of_fmap; by eexists (_, _).
Qed.

(** C12: On one thread, with the handle operations of each task used by one owner, no
    operation on tasks is undefined: no destroyed frame is touched, no running
    frame is resumed or destroyed.  Every frame belongs to exactly one task or to
    the one coroutine that waits for it, a task holds no dangling handle, and when
    [Wait] returns the result is there and is what the coroutine returned or
    threw. *)
Theorem Task_safe s :
  rtc (task_step true) tasks_new s ->
  (forall e, task_enabled true e s -> is_Some (task_handle e s)) /\
  (forall a f, frames s !! a = Some f ->
     match continuation_of f with
     | None => exists t x, task_objects s !! t = Some x /\ handle_ x = Some a /\
         forall t' x', task_objects s !! t' = Some x' -> handle_ x' = Some a -> t' = t
     | Some p => awaits (frames s) p a /\ (forall q, awaits (frames s) q a -> q = p) /\
         forall t x, task_objects s !! t = Some x -> handle_ x <> Some a
     end) /\
  (forall t x a, task_objects s !! t = Some x -> handle_ x = Some a ->
     is_Some (frames s !! a) /\
     (Task_Wait_returns t s = Some true -> exists o, Task_Result t s = Some o /\ (a, o) ∈ outcomes s)).
Proof.
  intros Hs%tinv_reachable. split_and!.
  - intros e He. destruct (task_handle_inv true e s eq_refl Hs He) as (s' & -> & _). eauto.
  - destruct (ti_owners s Hs) as (O1 & O2 & O3), (ti_waits s Hs) as (W1 & W2). intros a f Ha.
    destruct (continuation_of f) as [p|] eqn:Hc.
    + destruct (W2 a f p Ha Hc) as (h & Hh & Hp). split_and!; [by exists h| |].
      * intros q (k & Hk & Hkp). destruct (W1 q k a Hk Hkp) as (g & ? & ?). congruence.
      * intros t x Ht Hx. destruct (O1 t x a Ht Hx) as (g & ? & ? & _). congruence.
    + destruct (O3 a f Ha Hc) as (t & x & Ht & Hx). exists t, x. split_and!; [done|done|].
      intros t' x' Ht' Hx'. by eapply O2.
  - intros t x a Ht Hx. destruct (ti_owners s Hs) as (O1 & _ & _). destruct (O1 t x a Ht Hx) as (f & Hf & _ & _).
    split; [eauto|]. unfold Task_Wait_returns, Task_Result. rewrite Ht. cbn. rewrite Hx. cbn. rewrite Hf. cbn.
    intros [= Hdone]. apply (ti_result s Hs); [done|]. destruct (point_ f) eqn:Hp; [..|done].
    all: destruct (ti_clean s Hs a f Hf) as (_ & _ & ?); congruence.
Qed.

(** C31: Destroying a task whose coroutine is suspended, directly or while it waits
    for another that is, and so on, ends: each awaiter destroys the frame it
    holds.  Exactly the frames on the chain are gone. *)
Theorem Task_Reset_destroys_chain s t x a :
  rtc (task_step true) tasks_new s -> task_objects s !! t = Some x -> handle_ x = Some a ->
  (forall b f, rtc (awaits (frames s)) a b -> frames s !! b = Some f -> point_ f <> PRunning) ->
  exists s', Task_Reset t s = Some s' /\ task_objects s' = <[t := MkTask None false]> (task_objects s) /\
    (forall b, rtc (awaits (frames s)) a b -> frames s' !! b = None) /\
    (forall b, ~ rtc (awaits (frames s)) a b -> frames s' !! b = frames s !! b).
Proof.
  intros Hs%tinv_reachable Ht Hx Hrun.
  destruct (ti_owners s Hs) as (O1 & _ & _), (ti_waits s Hs) as (W1 & W2).
  destruct (O1 t x a Ht Hx) as (f & Hf & Hc & _).
  assert (Hok : chain_ok (frames s) a).
  { split.
    - intros q (k & Hk & Hkp). destruct (W1 q k a Hk Hkp) as (g & ? & ?). congruence.
    - intros p c (k & Hk & Hkp). destruct (W1 p k c Hk Hkp) as (g & Hg & Hgc). split; [eauto|].
      intros q (h & Hh & Hhp). destruct (W1 q h c Hh Hhp) as (g' & ? & ?). congruence. }
  destruct (destroy_frame_chain (size (frames s)) a (frames s)) as (m & Hm & Hin & Hout); [lia|eauto|done|done|].
  unfold Task_Reset, destroy. rewrite Ht. cbn. rewrite Hx, Hm. cbn. eexists. split_and!; done.
Qed.

(** C30: When an awaited coroutine ends, the two steps of its final suspension run the
    coroutine that waits for it and hand it exactly the outcome with which the
    awaited one ended; its frame is destroyed once, by the awaiter. *)
Theorem Task_await_completes s p c g o :
  rtc (task_step true) tasks_new s -> pending_final s = [FNotify c] ->
  frames s !! c = Some g -> continuation_of g = Some p -> (c, o) ∈ outcomes s ->
  exists s1 s2, FinalAwaiter_step s = Some s1 /\ FinalAwaiter_step s1 = Some s2 /\
    pending_final s2 = [] /\ frames s2 !! c = None /\
    (exists h, frames s2 !! p = Some h /\ point_ h = PRunning) /\
    resumed_with s2 = resumed_with s ++ [(p, c, o)].
Proof.
  intros Hs%tinv_reachable Hp Hg Hc Ho.
  destruct (ti_waits s Hs) as (W1 & W2). destruct (W2 c g p Hg Hc) as (h & Hh & Hhp).
  destruct (ti_pending s Hs) as (_ & P2 & _). rewrite Hp in P2.
  destruct (P2 (FNotify c) ltac:(by left)) as (g' & Hg' & Hd). cbn in Hg'. simplify_eq.
  destruct (ti_result s Hs c g Hg Hd) as (o' & Hr & Ho'). rewrite (outcome_unique s c o o' Hs Ho Ho').
  assert (Hpc : c <> p) by congruence.
  unfold FinalAwaiter_step. rewrite Hp, Hg. cbn [mbind option_bind]. eexists. eexists. split; [done|]. cbn.
  rewrite lookup_insert_eq. cbn. rewrite Hc. unfold Awaiter_resume. cbn. rewrite lookup_insert_eq. cbn.
  change (frame_result (NotifyCompleted g)) with (frame_result g). rewrite Hr. cbn.
  erewrite destroy_ended; [|cbn; by rewrite lookup_insert_eq|by right]. cbn.
  rewrite lookup_delete_ne, lookup_insert_ne by done. rewrite Hh. cbn. split_and!; try done.
  - cbn. by rewrite lookup_insert_ne, lookup_delete_eq.
  - exists (set_point PRunning h). cbn. by rewrite lookup_insert_eq.
Qed.

(** When the owner waits on another thread, the end of a coroutine can touch a
    destroyed frame: [Wait] returns as soon as the completion is published, the
    result is read and the task destroyed, as [SyncWait] does, and only then does
    the final awaiter read the continuation from the promise. *)
Theorem SyncWait_race (v : A) :
  exists s s', rtc (task_step false) tasks_new s /\
    Task_Wait_returns 1 s = Some true /\ Task_Result 1 s = Some (inl v) /\
    task_enabled false (TvDestroy 1) s /\ Task_destroy 1 s = Some s' /\
    task_enabled false TvFinal s' /\ task_handle TvFinal s' = None.
Proof.
  eexists. eexists. split.
  { eapply (run_reachable _ [TvCreate; TvStart 1; TvBlock 0; TvUnblock 0; TvReturn 0 (inl v); TvFinal]);
      [|vm_compute; reflexivity]. vm_compute. naive_solver. }
  split_and!; try reflexivity; [|vm_compute; naive_solver].
  split; [done|]. eexists. split; [reflexivity|]. intros a [= <-]. eexists. split; [reflexivity|]. by right.
Qed.

End theorems.

(** [TaskStorage<void>] holds no value: without an exception its result is there. *)
Definition void_result (f : Frame unit) : unit + exn :=
  match exception_ f with Some e => inr e | None => inl tt end.

(** So [Task<void>] is the task of a unit value. *)
Lemma void_result_agrees f o : frame_result f = Some o -> void_result f = o.
Proof. unfold frame_result, void_result. destruct (exception_ f), (value_ f) as [[]|]; by intros [= <-]. Qed.

(** A coroutine (frame 0 of task 1) waits for another (frame 2 of task 3), which is
    suspended, then ends. *)
Definition await_events : list (task_event Z) := [TvCreate; TvStart 1; TvCreate; TvAwait 0 3; TvBlock 2].

Definition waiting_tasks : tasks Z := default tasks_new (task_run await_events tasks_new).

Definition ended_tasks : tasks Z :=
  default tasks_new (task_run (await_events ++ [TvUnblock 2; TvReturn 2 (inl 7)]) tasks_new).

Lemma waiting_reachable : rtc (task_step true) tasks_new waiting_tasks.
Proof. apply (run_reachable true await_events); [vm_compute; naive_solver|reflexivity]. Qed.

Lemma ended_reachable : rtc (task_step true) tasks_new ended_tasks.
Proof. apply (run_reachable true (await_events ++ [TvUnblock 2; TvReturn 2 (inl 7)])); [vm_compute; naive_solver|reflexivity]. Qed.

Lemma Task_safe_witness : is_Some (task_handle (TvStart 1) waiting_tasks).
Proof.
  apply (proj1 (Task_safe waiting_tasks waiting_reachable)). split; [done|]. vm_compute. eauto.
Defined.

Lemma waiting_chain b f :
  rtc (awaits (frames waiting_tasks)) 0 b -> frames waiting_tasks !! b = Some f -> point_ f <> PRunning.
Proof.
  intros H. inversion H as [|? c ? (g & Hg & E) H1]; subst.
  - vm_compute. by intros [= <-].
  - vm_compute in Hg. injection Hg as <-. injection E as <-. inversion H1 as [|? d ? (k & Hk & E) _]; subst.
    + vm_compute. by intros [= <-].
    + vm_compute in Hk. by injection Hk as <-.
Qed.

Lemma Task_Reset_destroys_chain_witness :
  exists s', Task_Reset 1 waiting_tasks = Some s' /\ frames s' !! 0 = None.
Proof.
  destruct (Task_Reset_destroys_chain waiting_tasks 1 (MkTask (Some 0) true) 0 waiting_reachable
              eq_refl eq_refl waiting_chain) as (s' & H & _ & Hin & _).
  exists s'. split; [exact H|]. apply Hin. constructor.
Defined.

Lemma Task_await_completes_witness :
  exists s1 s2, FinalAwaiter_step ended_tasks = Some s1 /\ FinalAwaiter_step s1 = Some s2 /\
    resumed_with s2 = [(0, 2, inl 7)].
Proof.
  destruct (Task_await_completes ended_tasks 0 2 (MkFrame PDone (Some 7) None false (Some 0)) (inl 7)
              ended_reachable eq_refl eq_refl eq_refl ltac:(vm_compute; left)) as (s1 & s2 & H1 & H2 & _ & _ & _ & H).
  exists s1, s2. split; [exact H1|]. split; [exact H2|exact H].
Defined.
