(* ===== verification/RpcServerImpl.v ===== *)
(** * The server runtime

    Models [src/server/rpc_server_impl.cpp] and its header: the lifecycle of a
    server, the accept loop, startup with its rollback, graceful shutdown and
    the public facade of [src/server/rpc_server.cpp].

    The server is put together from the components of the other files: the
    registry, the worker pool with all its threads (WorkerPool), the connection
    I/O loops (ConnectionIoLoop), the listening socket (Socket) and the Consul
    registrar (Consul).  A step is what one thread does between two points where
    others can interfere: an operation under the lifecycle mutex, a completion of
    the accept loop, a posted callback, one phase of the shutdown; or a step of
    the pool's threads or of a connection loop.  [srv_activity] says where the
    thread in [Run] or in a shutdown is; a shutdown by [Stop] or after a failed
    startup holds the mutex to its end.

    The theorems show that the lifecycle only moves forward, that methods are
    registered only before [Run], that deregistration is tried before the pool is
    closed, the pool closed before connections drain and drained before their
    loops stop, and that a [Run] that returns OK has executed every admitted job
    and left nothing running. *)

From S2P Require Import Prelude Text Status FrameHeader FrameCodec ServiceRegistry BufferPool ServerConfig WorkerPool ServerConnection Socket ConsulHttp Consul ConnectionIoLoop.

Local Open Scope Z_scope.

Inductive ServerState := SrvCreated | SrvListening | SrvRunning | SrvStopping | SrvStopped.

#[global] Instance ServerState_eq_dec : EqDecision ServerState.
Proof. solve_decision. Defined.

(** The phases of [ShutdownComponents], in order. *)
Inductive phase :=
  | PhDeregister
  | PhClose
  | PhClosing                               (* in [CloseSubmissions] *)
  | PhStopAccepting
  | PhBeginDrain
  | PhDrain
  | PhDraining                              (* in [DrainAndJoin] *)
  | PhFinish (k : nat) (drain : Status)     (* about to call [FinishDrain] of loop [k] *)
  | PhFinishing (k : nat) (drain : Status). (* in its wait *)

#[global] Instance phase_eq_dec : EqDecision phase.
Proof. solve_decision. Defined.

(** Who runs a shutdown: [Stop], [Run] after a failed startup, or [Run] after the
    accept loop with the failure of the runtime. *)
Inductive shutdown_caller := ByStop | ByStartup (failure : Status) | ByRun (failure : Status).

Inductive activity :=
  | Quiet
  | Accepting                               (* in [accept_context_.Run()] *)
  | Graceful (ph : phase)                   (* in the callback of [RequestGracefulStop] *)
  | Shutdown (caller : shutdown_caller) (ph : phase) (failure : Status).

(** The accept coroutine, with its [dispatch_error]. *)
Inductive accept_task := TaskNew | TaskAwaiting (error : option exn) | TaskDone (error : option exn).

(** Callbacks posted to the accept context. *)
Inductive accept_callback := AcStart | AcGracefulStop.

Section server.
Context {World Job : Type}.

(** History: [srv_deregistered] is the status of the last [TryDeregisterService],
    [srv_drain_failed] says that [DrainAndJoin] threw, and [run_returned] is the
    status of the [Run] that got past its check of the state. *)
Record RpcServerImpl := MkServer {
  srv_config_ : ServerConfig;
  srv_registry_ : ServiceRegistry World;
  srv_pool_ : system Job;
  registrar_ : option ConsulRegistrar;
  srv_loops_ : list IoLoop;
  listen_socket_ : Socket;
  srv_state_ : ServerState;
  next_connection_io_loop_ : Z;
  listen_host_ : bytes;
  port_ : Z;
  accept_stopped_ : bool;
  accept_task_ : accept_task;
  accept_posted : list accept_callback;
  accept_stop_requested : bool;
  srv_activity : activity;
  srv_deregistered : option Status;
  srv_drain_failed : bool;
  run_returned : option Status
}.

(** [submitters] threads submit jobs to the pool. *)
Definition Impl_new (submitters : nat) (config : ServerConfig) : RpcServerImpl :=
  MkServer config ServiceRegistry_new (WorkerPool_new (worker_pool_config_ config) submitters) None
    (replicate (Z.to_nat (io_threads_ (connection_io_ config))) IoLoop_new) Socket_default SrvCreated 0
    [] 0 false TaskNew [] false Quiet None false None.

Definition set_lifecycle (x : ServerState) (a : activity) (s : RpcServerImpl) : RpcServerImpl :=
  MkServer (srv_config_ s) (srv_registry_ s) (srv_pool_ s) (registrar_ s) (srv_loops_ s)
    (listen_socket_ s) x (next_connection_io_loop_ s) (listen_host_ s) (port_ s) (accept_stopped_ s)
    (accept_task_ s) (accept_posted s) (accept_stop_requested s) a (srv_deregistered s) (srv_drain_failed s) (run_returned s).

Definition set_activity (a : activity) (s : RpcServerImpl) : RpcServerImpl :=
  set_lifecycle (srv_state_ s) a s.

Definition set_registry (r : ServiceRegistry World) (s : RpcServerImpl) : RpcServerImpl :=
  MkServer (srv_config_ s) r (srv_pool_ s) (registrar_ s) (srv_loops_ s)
    (listen_socket_ s) (srv_state_ s) (next_connection_io_loop_ s) (listen_host_ s) (port_ s)
    (accept_stopped_ s) (accept_task_ s) (accept_posted s) (accept_stop_requested s) (srv_activity s)
    (srv_deregistered s) (srv_drain_failed s) (run_returned s).

Definition set_pool (p : system Job) (s : RpcServerImpl) : RpcServerImpl :=
  MkServer (srv_config_ s) (srv_registry_ s) p (registrar_ s) (srv_loops_ s)
    (listen_socket_ s) (srv_state_ s) (next_connection_io_loop_ s) (listen_host_ s) (port_ s)
    (accept_stopped_ s) (accept_task_ s) (accept_posted s) (accept_stop_requested s) (srv_activity s)
    (srv_deregistered s) (srv_drain_failed s) (run_returned s).

Definition set_loops (l : list IoLoop) (next : Z) (s : RpcServerImpl) : RpcServerImpl :=
  MkServer (srv_config_ s) (srv_registry_ s) (srv_pool_ s) (registrar_ s) l
    (listen_socket_ s) (srv_state_ s) next (listen_host_ s) (port_ s)
    (accept_stopped_ s) (accept_task_ s) (accept_posted s) (accept_stop_requested s) (srv_activity s)
    (srv_deregistered s) (srv_drain_failed s) (run_returned s).

Definition set_listener (sock : Socket) (h : bytes) (port : Z) (stopped : bool) (s : RpcServerImpl)
    : RpcServerImpl :=
  MkServer (srv_config_ s) (srv_registry_ s) (srv_pool_ s) (registrar_ s) (srv_loops_ s)
    sock (srv_state_ s) (next_connection_io_loop_ s) h port stopped
    (accept_task_ s) (accept_posted s) (accept_stop_requested s) (srv_activity s)
    (srv_deregistered s) (srv_drain_failed s) (run_returned s).

Definition set_accept (t : accept_task) (posted : list accept_callback) (stop : bool) (s : RpcServerImpl)
    : RpcServerImpl :=
  MkServer (srv_config_ s) (srv_registry_ s) (srv_pool_ s) (registrar_ s) (srv_loops_ s)
    (listen_socket_ s) (srv_state_ s) (next_connection_io_loop_ s) (listen_host_ s) (port_ s)
    (accept_stopped_ s) t posted stop (srv_activity s) (srv_deregistered s) (srv_drain_failed s) (run_returned s).

Definition set_registrar (r : option ConsulRegistrar) (s : RpcServerImpl) : RpcServerImpl :=
  MkServer (srv_config_ s) (srv_registry_ s) (srv_pool_ s) r (srv_loops_ s)
    (listen_socket_ s) (srv_state_ s) (next_connection_io_loop_ s) (listen_host_ s) (port_ s)
    (accept_stopped_ s) (accept_task_ s) (accept_posted s) (accept_stop_requested s) (srv_activity s)
    (srv_deregistered s) (srv_drain_failed s) (run_returned s).

Definition set_returned (st : Status) (s : RpcServerImpl) : RpcServerImpl :=
  MkServer (srv_config_ s) (srv_registry_ s) (srv_pool_ s) (registrar_ s) (srv_loops_ s)
    (listen_socket_ s) (srv_state_ s) (next_connection_io_loop_ s) (listen_host_ s) (port_ s)
    (accept_stopped_ s) (accept_task_ s) (accept_posted s) (accept_stop_requested s) (srv_activity s)
    (srv_deregistered s) (srv_drain_failed s) (Some st).

Definition set_deregistered (st : Status) (s : RpcServerImpl) : RpcServerImpl :=
  MkServer (srv_config_ s) (srv_registry_ s) (srv_pool_ s) (registrar_ s) (srv_loops_ s)
    (listen_socket_ s) (srv_state_ s) (next_connection_io_loop_ s) (listen_host_ s) (port_ s)
    (accept_stopped_ s) (accept_task_ s) (accept_posted s) (accept_stop_requested s) (srv_activity s)
    (Some st) (srv_drain_failed s) (run_returned s).

Definition set_drain_failed (s : RpcServerImpl) : RpcServerImpl :=
  MkServer (srv_config_ s) (srv_registry_ s) (srv_pool_ s) (registrar_ s) (srv_loops_ s)
    (listen_socket_ s) (srv_state_ s) (next_connection_io_loop_ s) (listen_host_ s) (port_ s)
    (accept_stopped_ s) (accept_task_ s) (accept_posted s) (accept_stop_requested s) (srv_activity s)
    (srv_deregistered s) true (run_returned s).

(** [accept_context_.Post] and [RequestStop]: after a stop posts are dropped. *)
Definition accept_Post (c : accept_callback) (s : RpcServerImpl) : RpcServerImpl :=
  if accept_stop_requested s then s
  else set_accept (accept_task_ s) (accept_posted s ++ [c]) false s.

Definition accept_RequestStop (s : RpcServerImpl) : RpcServerImpl :=
  set_accept (accept_task_ s) (accept_posted s) true s.

(** [ServerRuntimeAccess::CreateWithBufferPool], the body of [RpcServer::Create];
    [throws] is what the constructor of the runtime throws. *)
Definition CreateWithBufferPool (submitters : nat) (hardware_concurrency : Z) (options : RpcServerOptions)
    (buffer_pool : UringBufferPoolConfig) (throws : option exn) : option (StatusOr RpcServerImpl) :=
  config ← ServerConfig_Create hardware_concurrency options buffer_pool;
  StatusOr_bind config (fun config =>
    match throws with
    | Some e => StatusOr_error (CaughtExceptionToStatus (bs "failed to create RPC server") (Some e))
    | None => Some (StatusOr_value (Impl_new submitters config))
    end).

(** ** Operations under the lifecycle mutex *)

Definition Impl_RegisterMethod (registration : MethodRegistration World) (s : RpcServerImpl)
    : Status * RpcServerImpl :=
  if negb (bool_decide (srv_state_ s = SrvCreated)) && negb (bool_decide (srv_state_ s = SrvListening)) then
    (status FailedPrecondition "RpcServer::RegisterMethod must be called before Run", s)
  else
    let '(registry, st) :=
      ServiceRegistry_Register (srv_registry_ s) (reg_service_name_ registration)
        (reg_method_name_ registration) (adapt_invoke (invoke_ registration)) in
    (st, set_registry registry s).

Context (error_message : Z -> bytes) (inet_pton : bytes -> option Z) (host : byte_order).
Context `{Json}.

(** The local [socket] is closed on every path that does not move it out. *)
Definition Impl_Listen (h : bytes) (port : Z) (s : RpcServerImpl) : Sys (Status * RpcServerImpl) :=
  if negb (bool_decide (srv_state_ s = SrvCreated)) then
    mret (status FailedPrecondition "RpcServer::Listen requires a newly created server", s)
  else
  let stopped := set_lifecycle SrvStopped (srv_activity s) s in
  '(st, socket) ← Socket_Bind error_message inet_pton host Socket_default h port;
  if negb (Status_ok st) then _ ← Socket_Close socket; mret (st, stopped) else
  '(st, socket) ← Socket_Listen error_message socket (backlog_ (listen_ (srv_config_ s)));
  if negb (Status_ok st) then _ ← Socket_Close socket; mret (st, stopped) else
  local_port ← Socket_LocalPort error_message host socket;
  match so_value_ local_port with
  | None => _ ← Socket_Close socket; mret (so_status_ local_port, stopped)
  | Some p =>
      '(listen_socket, _) ← Socket_assign (listen_socket_ s) socket;
      mret (Status_Ok, set_lifecycle SrvListening (srv_activity s)
                         (set_listener listen_socket h p (accept_stopped_ s) s))
  end.

(** ** Startup *)

(** [spawned] says of each loop whether its thread can be created; the first
    failure throws and leaves the other loops alone. *)
Fixpoint StartConnectionLoops (spawned : list bool) (loops : list IoLoop) : bool * list IoLoop :=
  match loops with
  | [] => (true, [])
  | l :: loops =>
      let '(ok, spawned) := match spawned with [] => (true, []) | b :: spawned => (b, spawned) end in
      if negb ok && bool_decide (loop_state_ l = LCreated) then (false, l :: loops)
      else let '(all, loops) := StartConnectionLoops spawned loops in (all, IoLoop_Start l :: loops)
  end.

Definition StartAcceptLoop (s : RpcServerImpl) : option RpcServerImpl :=
  if negb (Socket_valid (listen_socket_ s)) then Abort "assertion failed" else
  Some (accept_Post AcStart
          (set_listener (listen_socket_ s) (listen_host_ s) (port_ s) false s)).

(** [getpid] is for the default service id. *)
Definition StartComponents (spawned : list bool) (spawn_error : exn) (getpid : Z) (s : RpcServerImpl)
    : Sys ((Status + exn) * RpcServerImpl) :=
  let '(started, loops) := StartConnectionLoops spawned (srv_loops_ s) in
  let s := set_loops loops (next_connection_io_loop_ s) s in
  if negb started then mret (inr spawn_error, s) else
  s ← sys_lift (StartAcceptLoop s);
  if negb (ServiceRegistrationEnabled (srv_config_ s)) then mret (inl Status_Ok, s) else
  let options := ResolveRegistrarOptions getpid (srv_config_ s) (listen_host_ s) (port_ s) in
  match so_value_ options with
  | None => mret (inl (so_status_ options), s)
  | Some options =>
      http_client ← sys_lift (ConsulHttpClient_Create (agent_address_ (consul_ (srv_config_ s))));
      match so_value_ http_client with
      | None => mret (inl (so_status_ http_client), s)
      | Some http_client =>
          '(st, r) ← ConsulRegistrar_Register error_message inet_pton host options
                       (ConsulRegistrar_new http_client);
          let s := set_registrar (Some r) s in
          if negb (Status_ok st) then
            mret (inl (MkStatus (code_ st) (bs "Consul service registration failed: " ++ message_ st)), s)
          else mret (inl Status_Ok, s)
      end
  end.

(** [Run] up to the accept loop.  [Some st]: it returns at once. *)
Definition Run_startup (spawned : list bool) (spawn_error : exn) (getpid : Z) (s : RpcServerImpl)
    : Sys (option Status * RpcServerImpl) :=
  if negb (bool_decide (srv_state_ s = SrvListening)) then
    mret (Some (status FailedPrecondition "RpcServer::Run must be called once after Listen"), s)
  else
  '(started, s) ← StartComponents spawned spawn_error getpid s;
  let startup_status := match started with
                        | inl st => st
                        | inr e => CaughtExceptionToStatus (bs "server startup failed") (Some e)
                        end in
  if negb (Status_ok startup_status) then
    mret (None, set_activity (Shutdown (ByStartup startup_status) PhDeregister Status_Ok) s)
  else mret (None, set_lifecycle SrvRunning Accepting s).

Definition Impl_Stop (s : RpcServerImpl) : RpcServerImpl :=
  match srv_state_ s with
  | SrvCreated | SrvListening => set_activity (Shutdown ByStop PhDeregister Status_Ok) s
  | SrvRunning => accept_Post AcGracefulStop (set_lifecycle SrvStopping (srv_activity s) s)
  | SrvStopping | SrvStopped => s
  end.

(** ** The accept loop *)

(** [CancelFd] makes the pending accept complete; its completion is a step. *)
Definition StopAcceptingOnContext (s : RpcServerImpl) : Sys RpcServerImpl :=
  if accept_stopped_ s then mret s else
  if Socket_valid (listen_socket_ s) then
    socket ← Socket_Close (listen_socket_ s);
    mret (set_listener socket (listen_host_ s) (port_ s) true s)
  else mret (set_listener (listen_socket_ s) (listen_host_ s) (port_ s) true s).

Definition DispatchAcceptedConnection (s : RpcServerImpl) : option RpcServerImpl :=
  l ← srv_loops_ s !! Z.to_nat (next_connection_io_loop_ s);
  Some (set_loops (<[Z.to_nat (next_connection_io_loop_ s) := (PostStartConnection l).2]> (srv_loops_ s))
          ((next_connection_io_loop_ s + 1) mod len (srv_loops_ s)) s).

(** The head of the outer loop, and the end of the coroutine. *)
Definition AcceptLoop_head (error : option exn) (s : RpcServerImpl) : RpcServerImpl :=
  if accept_stopped_ s
  then accept_RequestStop (set_accept (TaskDone error) (accept_posted s) (accept_stop_requested s) s)
  else set_accept (TaskAwaiting error) (accept_posted s) (accept_stop_requested s) s.

(** The body of the inner loop for a completion with [result]; [throws] is what
    the dispatch of the connection throws. *)
Definition AcceptLoop_result (result : Z) (is_final : bool) (throws error : option exn) (s : RpcServerImpl)
    : Sys RpcServerImpl :=
  '(error, s) ←
    (if result <? 0 then s ← StopAcceptingOnContext s; mret (error, s)
     else if accept_stopped_ s then _ ← Socket_Close (MkSocket result); mret (error, s)
     else match throws with
          | None => s ← sys_lift (DispatchAcceptedConnection s); mret (error, s)
          | Some e => _ ← Socket_Close (MkSocket result); s ← StopAcceptingOnContext s; mret (Some e, s)
          end);
  mret (if is_final then AcceptLoop_head error s
        else set_accept (TaskAwaiting error) (accept_posted s) (accept_stop_requested s) s).

(** ** Shutdown *)

(** [throws] is what [Deregister] throws. *)
Definition TryDeregisterService (throws : option exn) (s : RpcServerImpl) : Sys (Status * RpcServerImpl) :=
  match registrar_ s with
  | None => mret (Status_Ok, s)
  | Some r =>
      if negb (registered_ r) then mret (Status_Ok, s) else
      match throws with
      | Some e => mret (CaughtExceptionToStatus (bs "Consul service deregistration failed") (Some e), s)
      | None =>
          '(st, r) ← ConsulRegistrar_Deregister error_message inet_pton host r;
          mret (st, set_registrar (Some r) s)
      end
  end.

(** The call of [CloseSubmissions], or of [DrainAndJoin] when [drain]. *)
Definition call_close (drain : bool) (p : system Job) : system Job :=
  MkSystem (with_flags (shared p) false (drain_requested_ (shared p))) (submitters p) (workers_ p)
    (OwnCloseLock drain 0).

(** The first [n] loops begin to drain. *)
Definition BeginConnectionDrain (n : nat) (loops : list IoLoop) : list IoLoop :=
  ((fun l => (IoLoop_BeginDrain l).2) <$> take n loops) ++ drop n loops.

(** [attempt]: the first failure is kept. *)
Definition attempt (throws : option exn) (failure : Status) : Status :=
  match throws with
  | Some e =>
      if Status_ok failure
      then CaughtExceptionToStatus (bs "server component shutdown failed") (Some e) else failure
  | None => failure
  end.

Definition first_failure (failure st : Status) : Status :=
  if Status_ok failure && negb (Status_ok st) then st else failure.

(** The end of [FinishConnectionDrain]; [throws] is what [RequestStop] throws. *)
Definition FinishConnectionDrain_end (throws : option exn) (drain : Status) : Status :=
  match throws with
  | Some e =>
      if Status_ok drain
      then CaughtExceptionToStatus (bs "failed to stop accept I/O context") (Some e) else drain
  | None => drain
  end.

(** [ShutdownComponents] returned [failure]. *)
Definition shutdown_done (caller : shutdown_caller) (failure : Status) (s : RpcServerImpl) : RpcServerImpl :=
  let s := set_lifecycle SrvStopped Quiet s in
  match caller with
  | ByStop => s
  | ByStartup st => set_returned st s
  | ByRun st => set_returned (first_failure st failure) s
  end.

(** [Run] after [accept_context_.Run()] returned. *)
Definition CompleteShutdown_start (error : option exn) (s : RpcServerImpl) : option RpcServerImpl :=
  if bool_decide (srv_state_ s = SrvRunning) || bool_decide (srv_state_ s = SrvStopping) then
    let failure := match error with
                   | Some e => CaughtExceptionToStatus (bs "server runtime failed") (Some e)
                   | None => Status_Ok
                   end in
    Some (set_lifecycle SrvStopping (Shutdown (ByRun failure) PhDeregister Status_Ok) s)
  else Abort "assertion failed".

(** ** Steps *)

Definition at_rest (o : owner) : Prop := o = OwnIdle \/ o = OwnClosed \/ o = OwnDrained.

(** Exceptions that [catch (const std::exception &)] catches, not built with an
    OK status. *)
Definition std_exn (e : exn) : Prop := e <> NonStandard /\ exn_failure e.

Notation config := (RpcServerImpl * world)%type.

(** The phases that the callback of [RequestGracefulStop] shares with
    [ShutdownComponents]; the last one leads to [after]. *)
Inductive common_phase (after : phase) : phase -> config -> phase -> config -> Prop :=
  | ph_deregister throws st s w s' w' :
      match throws with Some e => std_exn e | None => True end ->
      TryDeregisterService throws s w = Returns (st, s') w' ->
      common_phase after PhDeregister (s, w) PhClose (set_deregistered st s', w')
  | ph_close s w :
      at_rest (owner_ (srv_pool_ s)) ->
      common_phase after PhClose (s, w) PhClosing (set_pool (call_close false (srv_pool_ s)) s, w)
  | ph_closed s w :
      owner_ (srv_pool_ s) = OwnClosed -> common_phase after PhClosing (s, w) PhStopAccepting (s, w)
  | ph_stop_accepting s w s' w' :
      StopAcceptingOnContext s w = Returns s' w' ->
      common_phase after PhStopAccepting (s, w) after (s', w').

(** The other phases of [ShutdownComponents], with its [failure]. *)
Inductive shutdown_phase : phase -> Status -> config -> phase -> Status -> config -> Prop :=
  | ph_begin_drain s w failure :
      shutdown_phase PhBeginDrain failure (s, w) PhDrain failure
        (set_loops (BeginConnectionDrain (length (srv_loops_ s)) (srv_loops_ s))
           (next_connection_io_loop_ s) s, w)
  | ph_begin_drain_throws s w failure n e :
      std_exn e ->
      shutdown_phase PhBeginDrain failure (s, w) PhDrain (attempt (Some e) failure)
        (set_loops (BeginConnectionDrain n (srv_loops_ s)) (next_connection_io_loop_ s) s, w)
  | ph_drain s w failure :
      at_rest (owner_ (srv_pool_ s)) ->
      shutdown_phase PhDrain failure (s, w) PhDraining failure
        (set_pool (call_close true (srv_pool_ s)) s, w)
  | ph_drained s w failure :
      owner_ (srv_pool_ s) = OwnDrained ->
      shutdown_phase PhDraining failure (s, w) (PhFinish 0 Status_Ok) failure (s, w)
  | ph_drain_throws s w failure e :
      std_exn e ->
      shutdown_phase PhDraining failure (s, w) (PhFinish 0 Status_Ok) (attempt (Some e) failure)
        (set_drain_failed s, w)
  | ph_finish s w failure k drain l :
      srv_loops_ s !! k = Some l ->
      shutdown_phase (PhFinish k drain) failure (s, w) (PhFinishing k drain) failure
        (set_loops (<[k := (IoLoop_BeginDrain l).2]> (srv_loops_ s)) (next_connection_io_loop_ s) s, w)
  | ph_finished s w failure k drain l st l' :
      srv_loops_ s !! k = Some l -> FinishDrain_wait l = Some (st, l') ->
      shutdown_phase (PhFinishing k drain) failure (s, w) (PhFinish (S k) (first_failure drain st)) failure
        (set_loops (<[k := l']> (srv_loops_ s)) (next_connection_io_loop_ s) s, w).

(** Events of a connection loop that its owner does not cause. *)
Definition loop_runs (e : loop_event) : Prop :=
  match e with LvOwnerStart | LvOwnerBeginDrain | LvStopped | LvClose _ => False | _ => True end.

(** The lifecycle mutex is free. *)
Definition mutex_free (s : RpcServerImpl) : Prop :=
  match srv_activity s with Shutdown ByStop _ _ | Shutdown (ByStartup _) _ _ => False | _ => True end.

Context {W : Wire}.

Inductive sstep : config -> config -> Prop :=
  | st_register s w registration :
      mutex_free s -> sstep (s, w) ((Impl_RegisterMethod registration s).2, w)
  | st_listen s w h port st s' w' :
      mutex_free s -> Impl_Listen h port s w = Returns (st, s') w' -> sstep (s, w) (s', w')
  | st_run s w spawned e getpid r s' w' :
      mutex_free s -> std_exn e -> Run_startup spawned e getpid s w = Returns (r, s') w' ->
      sstep (s, w) (s', w')
  | st_stop s w : mutex_free s -> sstep (s, w) (Impl_Stop s, w)
  | st_callback_start s w posted :
      srv_activity s = Accepting -> accept_posted s = AcStart :: posted ->
      sstep (s, w) (AcceptLoop_head None (set_accept TaskNew posted (accept_stop_requested s) s), w)
  | st_callback_stop s w posted :
      srv_activity s = Accepting -> accept_posted s = AcGracefulStop :: posted ->
      sstep (s, w)
        (set_activity (Graceful PhDeregister)
           (set_accept (accept_task_ s) posted (accept_stop_requested s) s), w)
  | st_accept s w result is_final throws error s' w' :
      srv_activity s = Accepting -> accept_task_ s = TaskAwaiting error ->
      match throws with Some e => std_exn e | None => True end ->
      AcceptLoop_result result is_final throws error s w = Returns s' w' -> sstep (s, w) (s', w')
  | st_accept_returns s w error s' :
      srv_activity s = Accepting -> accept_stop_requested s = true -> accept_task_ s = TaskDone error ->
      CompleteShutdown_start error s = Some s' -> sstep (s, w) (s', w)
  | st_graceful s w ph ph' s' w' :
      srv_activity s = Graceful ph -> common_phase PhBeginDrain ph (s, w) ph' (s', w') ->
      sstep (s, w) (set_activity (if decide (ph = PhStopAccepting) then Accepting else Graceful ph') s', w')
  | st_shutdown_common s w caller failure ph ph' s' w' :
      srv_activity s = Shutdown caller ph failure -> common_phase PhBeginDrain ph (s, w) ph' (s', w') ->
      sstep (s, w) (set_activity (Shutdown caller ph' failure) s', w')
  | st_shutdown s w caller failure failure' ph ph' s' w' :
      srv_activity s = Shutdown caller ph failure ->
      shutdown_phase ph failure (s, w) ph' failure' (s', w') ->
      sstep (s, w) (set_activity (Shutdown caller ph' failure') s', w')
  | st_shutdown_end s w caller failure k drain throws :
      srv_activity s = Shutdown caller (PhFinish k drain) failure -> srv_loops_ s !! k = None ->
      match throws with Some e => std_exn e | None => True end ->
      sstep (s, w)
        (shutdown_done caller (first_failure failure (FinishConnectionDrain_end throws drain))
           (accept_RequestStop s), w)
  | st_pool_owner s w p :
      ~ at_rest (owner_ (srv_pool_ s)) -> WorkerPool.step (srv_pool_ s) p ->
      sstep (s, w) (set_pool p s, w)
  | st_pool s w p :
      owner_ p = owner_ (srv_pool_ s) -> WorkerPool.step (srv_pool_ s) p -> sstep (s, w) (set_pool p s, w)
  | st_loop s w i l e l' :
      srv_loops_ s !! i = Some l -> loop_joinable l = true -> loop_runs e ->
      loop_enabled (connection_ (connection_io_ (srv_config_ s))) e l ->
      loop_handle (connection_ (connection_io_ (srv_config_ s))) e l = Some l' ->
      sstep (s, w) (set_loops (<[i := l']> (srv_loops_ s)) (next_connection_io_loop_ s) s, w).

(** ** What the operations keep *)

(** The fields an operation of the accept loop or of the registrar leaves alone. *)
Definition same_core (s s' : RpcServerImpl) : Prop :=
  srv_config_ s' = srv_config_ s /\ srv_registry_ s' = srv_registry_ s /\ srv_pool_ s' = srv_pool_ s /\
  srv_state_ s' = srv_state_ s /\ srv_activity s' = srv_activity s /\ run_returned s' = run_returned s /\
  srv_drain_failed s' = srv_drain_failed s.

Lemma Sys_bind_Returns {A B} (m : Sys A) (k : A -> Sys B) w b w' :
  (m ≫= k) w = Returns b w' -> exists a w1, m w = Returns a w1 /\ k a w1 = Returns b w'.
Proof. unfold mbind, Sys_bind. destruct (m w) as [a w1| |]; [|done..]. eauto. Qed.

Lemma Socket_Close_Returns sock w sock' w' :
  Socket_Close sock w = Returns sock' w' -> Socket_valid sock' = false.
Proof.
  unfold Socket_Close, Socket_valid. destruct (0 <=? fd_ sock) eqn:E; intros Hc; inversion Hc; subst; done.
Qed.

(** The deregistration of the registrar [r] failed with [st]: the agent was asked, or
    an exception came first. *)
Definition deregistration_failed (r : ConsulRegistrar) (st : Status) : Prop :=
  (Status_ok st = false /\ exists w w',
     ConsulRegistrar_Deregister error_message inet_pton host r w = Returns (st, r) w') \/
  (exists e, std_exn e /\ st = CaughtExceptionToStatus (bs "Consul service deregistration failed") (Some e)).

(** What a [TryDeregisterService] that returned [st] leaves: no registration, or one
    whose deregistration failed. *)
Definition withdrawal (registrar : option ConsulRegistrar) (st : Status) : Prop :=
  match registrar with
  | Some r => if registered_ r then deregistration_failed r st else Status_ok st = true
  | None => Status_ok st = true
  end.

Definition deregistration (s : RpcServerImpl) : option ConsulRegistrar * option Status :=
  (registrar_ s, srv_deregistered s).

Definition deregistered (x : option ConsulRegistrar * option Status) : Prop :=
  exists st, x.2 = Some st /\ withdrawal x.1 st.

(** A closed listener stays closed. *)
Definition listener_ok (s : RpcServerImpl) : Prop :=
  accept_stopped_ s = true -> Socket_valid (listen_socket_ s) = false.

Lemma StopAccepting_Returns s w s' w' :
  listener_ok s -> StopAcceptingOnContext s w = Returns s' w' ->
  same_core s s' /\ srv_loops_ s' = srv_loops_ s /\ deregistration s' = deregistration s /\
  accept_task_ s' = accept_task_ s /\ accept_stopped_ s' = true /\ listener_ok s'.
Proof.
  unfold StopAcceptingOnContext, listener_ok. intros Hl Hs. destruct (accept_stopped_ s) eqn:Ea.
  { inversion Hs; subst. split_and!; done || auto. }
  destruct (Socket_valid (listen_socket_ s)) eqn:Ev.
  - apply Sys_bind_Returns in Hs as (sock & w1 & Hc & Hs). inversion Hs; subst.
    split_and!; try done. intros _. by eapply Socket_Close_Returns.
  - inversion Hs; subst. split_and!; try done.
Qed.

Lemma TryDeregister_Returns throws st s w s' w' :
  match throws with Some e => std_exn e | None => True end ->
  TryDeregisterService throws s w = Returns (st, s') w' ->
  same_core s s' /\ srv_loops_ s' = srv_loops_ s /\
  accept_stopped_ s' = accept_stopped_ s /\ listen_socket_ s' = listen_socket_ s /\
  withdrawal (registrar_ s') st.
Proof.
  unfold TryDeregisterService, withdrawal. intros He Hs. destruct (registrar_ s) as [r|] eqn:Er.
  2: { inversion Hs; subst. by rewrite Er. }
  destruct (registered_ r) eqn:Eg; cbn [negb] in Hs; [|inversion Hs; subst; rewrite Er, Eg; done].
  destruct throws as [e|].
  - inversion Hs; subst. split_and!; try done. rewrite Er, Eg. right. by exists e.
  - apply Sys_bind_Returns in Hs as ([st' r'] & w1 & Hd & Hs). inversion Hs; subst. split_and!; try done. cbn.
    pose proof Hd as Hd'. unfold ConsulRegistrar_Deregister in Hd'. rewrite Eg in Hd'. cbn [negb] in Hd'.
    apply Sys_bind_Returns in Hd' as (response & w2 & _ & Hd').
    destruct (Status_ok (HandleAgentWriteResponse response)) eqn:Eo; cbn [negb] in Hd'; inversion Hd'; subst; cbn.
    + done.
    + rewrite Eg. left. split; [done|]. by eexists _, _.
Qed.

(** A loop has a thread exactly while it runs or drains, and no connections
    without one. *)
Definition loop_wf (l : IoLoop) : Prop :=
  (loop_joinable l = true <-> loop_state_ l = LRunning \/ loop_state_ l = LDraining) /\
  (loop_joinable l = false -> connections_ l = ∅).

Lemma loop_wf_new : loop_wf IoLoop_new.
Proof. split; [|done]. split; [done|]. by intros [|]. Qed.

Lemma IoLoop_Start_wf l : loop_wf l -> loop_wf (IoLoop_Start l).
Proof.
  intros [H1 H2]. unfold IoLoop_Start. case_bool_decide; cbn; [|by split]. split; [|done]. cbn.
  split; auto.
Qed.

Lemma IoLoop_BeginDrain_wf l : loop_wf l -> loop_wf (IoLoop_BeginDrain l).2.
Proof.
  intros [H1 H2]. unfold IoLoop_BeginDrain. case_bool_decide as Hc; cbn.
  - assert (loop_joinable l = false) as Hj by (apply not_true_is_false; rewrite H1, Hc; by intros [|]).
    split; cbn; [|auto]. rewrite Hj. split; [done|by intros [|]].
  - case_bool_decide as Hr; cbn; [|done]. split; cbn; [|auto]. split; [auto|]. intros _. apply H1. auto.
Qed.

Lemma FinishDrain_wait_wf l st l' :
  loop_wf l -> FinishDrain_wait l = Some (st, l') -> loop_wf l' /\ loop_state_ l' = LStopped.
Proof.
  intros Hl. unfold FinishDrain_wait. case_bool_decide as Hc; [by intros [= <- <-]|].
  destruct (negb _); [done|]. intros [= <- <-]. split; [|done]. split; cbn; [|done]. split; [done|].
  by intros [|].
Qed.

Lemma PostStartConnection_wf l : loop_wf l -> loop_wf (PostStartConnection l).2.
Proof. unfold PostStartConnection. by case_bool_decide. Qed.

Lemma PostStartConnection_state l : loop_state_ (PostStartConnection l).2 = loop_state_ l.
Proof. unfold PostStartConnection. by case_bool_decide. Qed.

(** The events of a running loop leave its lifecycle alone. *)
Definition same_lifecycle (l l' : IoLoop) : Prop :=
  loop_state_ l' = loop_state_ l /\ loop_joinable l' = loop_joinable l.

Lemma on_connection_lifecycle id f l l' : on_connection id f l = Some l' -> same_lifecycle l l'.
Proof.
  unfold on_connection. destruct (connections_ l !! id) as [c|]; [|by intros [= <-]].
  destruct (f _); [|done]. by intros [= <-].
Qed.

Lemma for_each_lifecycle f ids l l' : for_each_connection f ids l = Some l' -> same_lifecycle l l'.
Proof.
  revert l. induction ids as [|[id b] ids IH]; intros l; cbn [for_each_connection]; [by intros [= <-]|].
  destruct (on_connection id (f b) l) as [l1|] eqn:E; [|done]. cbn. intros Hf.
  apply on_connection_lifecycle in E as [E1 E2]. apply IH in Hf as [F1 F2]. split; congruence.
Qed.

Lemma loop_handle_lifecycle c e l l' : loop_runs e -> loop_handle c e l = Some l' -> same_lifecycle l l'.
Proof.
  destruct e; try done; intros _; cbn [loop_handle].
  - apply on_connection_lifecycle.
  - apply on_connection_lifecycle.
  - unfold StartConnectionOnContext. cbn [loop_state_ CollectClosedConnections set_connections].
    case_bool_decide; [cbn [negb]|by intros [= <-]]. unfold AllocateConnectionId.
    destruct (_ =? 0); [done|]. cbn [mbind option_bind]. case_bool_decide; [done|].
    intros E. by apply on_connection_lifecycle in E as [].
  - by intros [= <-].
  - unfold BeginDrainOnContext. destruct (for_each_connection _ _ _) eqn:E; [|done]. cbn. intros [= <-].
    by apply for_each_lifecycle in E as [].
  - by intros [= <-].
Qed.

Lemma loop_handle_wf c e l l' :
  loop_runs e -> loop_joinable l = true -> loop_handle c e l = Some l' -> loop_wf l -> loop_wf l'.
Proof.
  intros Hr Hj Hh [H1 H2]. apply loop_handle_lifecycle in Hh as [E1 E2]; [|done].
  split; rewrite ?E1, ?E2; [done|congruence].
Qed.

(** ** Invariant *)

Definition phase_of (a : activity) : option phase :=
  match a with Graceful ph | Shutdown _ ph _ => Some ph | _ => None end.

Definition rank (ph : phase) : Z :=
  match ph with
  | PhDeregister => 0 | PhClose => 1 | PhClosing => 2 | PhStopAccepting => 3 | PhBeginDrain => 4
  | PhDrain => 5 | PhDraining => 6 | PhFinish _ _ | PhFinishing _ _ => 7
  end.

(** The loops a shutdown has finished with. *)
Definition finished (a : activity) : nat :=
  match a with Shutdown _ (PhFinish k _) _ | Shutdown _ (PhFinishing k _) _ => k | _ => 0%nat end.

Definition life_ok (x : ServerState) (a : activity) : Prop :=
  match a with
  | Quiet => x = SrvCreated \/ x = SrvListening \/ x = SrvStopped
  | Accepting => x = SrvRunning \/ x = SrvStopping
  | Graceful ph => (x = SrvRunning \/ x = SrvStopping) /\ rank ph <= 3
  | Shutdown ByStop _ _ => x = SrvCreated \/ x = SrvListening
  | Shutdown (ByStartup st) _ _ => x = SrvListening /\ Status_ok st = false
  | Shutdown (ByRun _) _ _ => x = SrvStopping
  end.

Notation pool_accepting s := (accepting_submissions_ (shared (srv_pool_ s))).

(** Everything a [Run] that returned leaves behind. *)
Definition all_stopped (s : RpcServerImpl) : Prop :=
  srv_state_ s = SrvStopped /\ pool_accepting s = false /\ deregistered (deregistration s) /\
  accept_stopped_ s = true /\ Forall (fun l => loop_state_ l = LStopped) (srv_loops_ s).

(** [DrainAndJoin] has returned, or it threw. *)
Definition drain_tried (s : RpcServerImpl) : Prop :=
  owner_ (srv_pool_ s) = OwnDrained \/ srv_drain_failed s = true.

Record sinv (s : RpcServerImpl) : Prop := {
  si_pool : pool_inv (srv_pool_ s);
  si_loops : Forall loop_wf (srv_loops_ s);
  si_listener : listener_ok s;
  si_life : life_ok (srv_state_ s) (srv_activity s);
  si_fresh : srv_activity s = Quiet -> srv_state_ s <> SrvStopped ->
    accept_stopped_ s = false /\ pool_accepting s = true /\
    Forall (fun l => loop_state_ l = LCreated) (srv_loops_ s);
  si_withdrawn : pool_accepting s = false -> deregistered (deregistration s);
  si_phase : forall ph, phase_of (srv_activity s) = Some ph ->
    (1 <= rank ph -> deregistered (deregistration s)) /\ (2 <= rank ph -> pool_accepting s = false) /\
    (4 <= rank ph -> accept_stopped_ s = true);
  si_drained : forall c ph f, srv_activity s = Shutdown c ph f -> 7 <= rank ph -> Status_ok f = true ->
    owner_ (srv_pool_ s) = OwnDrained;
  si_drain_tried : forall c ph f, srv_activity s = Shutdown c ph f -> 7 <= rank ph -> drain_tried s;
  si_finished : forall j l, (j < finished (srv_activity s))%nat -> srv_loops_ s !! j = Some l ->
    loop_state_ l = LStopped;
  si_draining : forall i l, srv_loops_ s !! i = Some l -> loop_state_ l = LDraining ->
    pool_accepting s = false /\ accept_stopped_ s = true;
  si_returned : forall st, run_returned s = Some st ->
    srv_activity s = Quiet /\ all_stopped s /\ drain_tried s /\
    (Status_ok st = true -> owner_ (srv_pool_ s) = OwnDrained)
}.

Lemma sinv_new n config :
  is_u 64 (wp_max_pending_jobs_ (worker_pool_config_ config)) -> sinv (Impl_new n config).
Proof.
  intros Hm. split; try done; cbn.
  - by apply new_inv.
  - apply Forall_replicate, loop_wf_new.
  - by left.
  - intros _ _. split_and!; [done|done|]. by apply Forall_replicate.
  - intros j l Hj. lia.
  - by intros i l [-> _]%lookup_replicate.
Qed.

(** A server from acceptable options starts in the invariant. *)
Lemma Create_sinv n hw o buffers :
  RpcServerOptions_wf o -> options_acceptable o buffers ->
  exists config, CreateWithBufferPool n hw o buffers None = Some (StatusOr_value (Impl_new n config)) /\
    sinv (Impl_new n config).
Proof.
  intros Hwf Ha. destruct (Create_cases hw o buffers) as [[_ E]|[Hn _]]; [|done].
  eexists. split; [unfold CreateWithBufferPool; rewrite E; reflexivity|]. apply sinv_new. cbn.
  unfold RpcServerOptions_wf in Hwf. naive_solver.
Qed.

(** Only these fields matter. *)
Lemma sinv_ext s s' :
  sinv s -> srv_pool_ s' = srv_pool_ s -> srv_loops_ s' = srv_loops_ s ->
  listen_socket_ s' = listen_socket_ s -> srv_state_ s' = srv_state_ s ->
  srv_activity s' = srv_activity s -> accept_stopped_ s' = accept_stopped_ s ->
  deregistration s' = deregistration s -> srv_drain_failed s' = srv_drain_failed s ->
  run_returned s' = run_returned s -> sinv s'.
Proof.
  intros [] E1 E2 E3 E4 E5 E6 E7 E8 E9. unfold listener_ok, all_stopped, drain_tried in *.
  split; unfold listener_ok, all_stopped, drain_tried;
    rewrite ?E1, ?E2, ?E3, ?E4, ?E5, ?E6, ?E7, ?E8, ?E9; done.
Qed.

(** Loops change without changing their lifecycle. *)
Lemma sinv_loop_at i l l' n s :
  sinv s -> srv_loops_ s !! i = Some l -> (loop_wf l -> loop_wf l') -> loop_state_ l' = loop_state_ l ->
  sinv (set_loops (<[i := l']> (srv_loops_ s)) n s).
Proof.
  intros [] Hi Hwf Est.
  assert (Hat : forall j x, <[i := l']> (srv_loops_ s) !! j = Some x ->
    exists y, srv_loops_ s !! j = Some y /\ loop_state_ x = loop_state_ y).
  { intros j x [(<- & -> & _)|[_ Hj]]%list_lookup_insert_Some; eauto. }
  assert (Hall : forall P : LoopState -> Prop, Forall (fun x => P (loop_state_ x)) (srv_loops_ s) ->
    Forall (fun x => P (loop_state_ x)) (<[i := l']> (srv_loops_ s))).
  { intros P HP. apply Forall_lookup. intros j x Hj. destruct (Hat j x Hj) as (y & Hy & ->).
    by apply (proj1 (Forall_lookup _ _) HP j y). }
  split; cbn; try done.
  - apply Forall_insert; [done|]. apply Hwf. by apply (proj1 (Forall_lookup _ _) si_loops0 i).
  - intros H1 H2. destruct (si_fresh0 H1 H2) as (? & ? & HF). split_and!; [done..|]. by apply (Hall (fun x => x = LCreated)).
  - intros j x Hj Hx. destruct (Hat j x Hx) as (y & Hy & ->). by apply (si_finished0 j).
  - intros j x Hx Hd. destruct (Hat j x Hx) as (y & Hy & E). rewrite E in Hd. by apply (si_draining0 j y).
  - intros st Hst. destruct (si_returned0 st Hst) as (? & (? & ? & ? & ? & HF) & ? & ?).
    split_and!; try done. split_and!; try done. by apply (Hall (fun x => x = LStopped)).
Qed.

(** The worker pool moves on. *)
Lemma pool_step_accepting (p p' : system Job) :
  WorkerPool.step p p' -> ~ at_rest (owner_ p) \/ owner_ p' = owner_ p ->
  accepting_submissions_ (shared p') = accepting_submissions_ (shared p).
Proof.
  unfold at_rest. intros Hs Ho. destruct Hs as [x i pc q pc' _ Hs|x k pc q pc' _ Hs|x q pc' Hs]; cbn in *.
  - by inversion Hs.
  - by inversion Hs.
  - inversion Hs; subst; cbn in *; try done.
    match goal with Hr : _ \/ _ \/ _ |- _ => destruct Ho as [Hn|He]; [by destruct Hn|] end.
    match goal with Hr : owner_ x = _ \/ _ |- _ => destruct Hr as [Hr|[Hr|Hr]]; rewrite Hr in He; done end.
Qed.

Lemma sinv_pool_step p s :
  sinv s -> WorkerPool.step (srv_pool_ s) p ->
  ~ at_rest (owner_ (srv_pool_ s)) \/ owner_ p = owner_ (srv_pool_ s) -> sinv (set_pool p s).
Proof.
  intros [] Hs Ho. pose proof (pool_step_accepting _ _ Hs Ho) as Ha.
  assert (Hd : owner_ (srv_pool_ s) = OwnDrained -> owner_ p = OwnDrained).
  { intros E. destruct Ho as [Hn| ->]; [|done]. exfalso. apply Hn. unfold at_rest. auto. }
  split; cbn; rewrite ?Ha; try done.
  - by eapply step_inv.
  - intros c ph f H1 H2 H3. by eapply Hd, si_drained0.
  - intros c ph f H1 H2. destruct (si_drain_tried0 c ph f H1 H2); [left; by apply Hd|by right].
  - intros st Hst. destruct (si_returned0 st Hst) as (? & (? & ? & ? & ? & ?) & Ht & ?).
    unfold all_stopped. cbn. rewrite Ha. split_and!; auto. destruct Ht; [left; by apply Hd|by right].
Qed.

Lemma busy_not_returned s : sinv s -> srv_activity s <> Quiet -> run_returned s = None.
Proof. intros [] Ha. destruct (run_returned s) as [st|] eqn:E; [|done]. by destruct (si_returned0 st eq_refl). Qed.

(** The thread in [Run] or in a shutdown moves on. *)
Lemma sinv_activity a s :
  sinv s -> srv_activity s <> Quiet -> a <> Quiet -> life_ok (srv_state_ s) a ->
  (forall ph, phase_of a = Some ph ->
     (1 <= rank ph -> deregistered (deregistration s)) /\ (2 <= rank ph -> pool_accepting s = false) /\
     (4 <= rank ph -> accept_stopped_ s = true)) ->
  (forall c ph f, a = Shutdown c ph f -> 7 <= rank ph -> Status_ok f = true ->
     owner_ (srv_pool_ s) = OwnDrained) ->
  (forall c ph f, a = Shutdown c ph f -> 7 <= rank ph -> drain_tried s) ->
  (forall j l, (j < finished a)%nat -> srv_loops_ s !! j = Some l -> loop_state_ l = LStopped) ->
  sinv (set_activity a s).
Proof.
  intros Hinv Hq Ha Hl Hp Hd Ht Hf. pose proof (busy_not_returned s Hinv Hq) as Hn. destruct Hinv.
  split; cbn; try done. intros st Hst. cbn in Hst. congruence.
Qed.

Lemma sinv_withdraw throws st s s' w w' :
  match throws with Some e => std_exn e | None => True end ->
  sinv s -> TryDeregisterService throws s w = Returns (st, s') w' ->
  sinv (set_deregistered st s') /\ deregistered (deregistration (set_deregistered st s')) /\
  same_core s (set_deregistered st s').
Proof.
  intros He [] Hs. apply TryDeregister_Returns in Hs as (Hc & El & Ea & Es & Hw); [|done].
  pose proof Hc as (_ & _ & E1 & E2 & E3 & E4 & Ed).
  assert (Hdr : deregistered (deregistration (set_deregistered st s'))) by (by exists st).
  split; [|done]. unfold listener_ok, drain_tried in *.
  split; unfold listener_ok, drain_tried; cbn -[deregistration];
    rewrite ?E1, ?E2, ?E3, ?E4, ?El, ?Ea, ?Es, ?Ed; try done.
  - intros ph Hph. destruct (si_phase0 ph Hph) as (? & ? & ?). auto.
  - intros st' Hst. destruct (si_returned0 st' Hst) as (? & (? & ? & ? & ? & ?) & ? & ?).
    split_and!; try done. unfold all_stopped. cbn -[deregistration]. rewrite E1, E2, El, Ea. done.
Qed.

Lemma sinv_stop_accepting s s' w w' :
  sinv s -> srv_activity s <> Quiet -> StopAcceptingOnContext s w = Returns s' w' ->
  sinv s' /\ accept_stopped_ s' = true /\ same_core s s' /\ deregistration s' = deregistration s /\
  accept_task_ s' = accept_task_ s.
Proof.
  intros Hinv Hq Hs. pose proof (busy_not_returned s Hinv Hq) as Hn. destruct Hinv.
  apply StopAccepting_Returns in Hs as (Hc & El & Ew & Et & Ea & Hl); [|done].
  pose proof Hc as (_ & _ & E1 & E2 & E3 & E4 & Ed). split; [|done]. unfold drain_tried in *.
  split; unfold drain_tried; rewrite ?E1, ?E2, ?E3, ?E4, ?El, ?Ew, ?Ea, ?Ed; try done.
  - intros ph Hph. destruct (si_phase0 ph Hph) as (? & ? & ?). auto.
  - intros i l Hi Hd. by destruct (si_draining0 i l Hi Hd).
  - congruence.
Qed.

(** The pool's gate is closed by a thread that has tried to deregister the service. *)
Lemma sinv_call_close drain s :
  sinv s -> srv_activity s <> Quiet -> deregistered (deregistration s) -> at_rest (owner_ (srv_pool_ s)) ->
  (forall c ph f, srv_activity s = Shutdown c ph f -> rank ph < 7) ->
  sinv (set_pool (call_close drain (srv_pool_ s)) s).
Proof.
  intros Hinv Hq Hw Hr Hph. pose proof (busy_not_returned s Hinv Hq) as Hn. destruct Hinv.
  split; cbn; try done.
  - eapply step_inv; [done|]. destruct (srv_pool_ s) as [p subs ws o] eqn:E. cbn in *.
    apply step_owner. by apply ot_close.
  - intros ph H'. destruct (si_phase0 ph H') as (? & ? & ?). auto.
  - intros c ph f H1 H2. specialize (Hph c ph f H1). lia.
  - intros c ph f H1 H2. specialize (Hph c ph f H1). lia.
  - intros i l Hi Hd. by destruct (si_draining0 i l Hi Hd).
  - congruence.
Qed.

(** One phase that the graceful stop and the shutdown share. *)
Lemma sinv_common ph ph' s w s' w' :
  sinv s -> phase_of (srv_activity s) = Some ph ->
  common_phase PhBeginDrain ph (s, w) ph' (s', w') ->
  sinv s' /\ srv_activity s' = srv_activity s /\ srv_state_ s' = srv_state_ s /\
  (forall ph0, Some ph' = Some ph0 ->
     (1 <= rank ph0 -> deregistered (deregistration s')) /\ (2 <= rank ph0 -> pool_accepting s' = false) /\
     (4 <= rank ph0 -> accept_stopped_ s' = true)) /\ rank ph <= 3 /\ rank ph' <= 4 /\
  (ph <> PhStopAccepting -> rank ph' <= 3).
Proof.
  intros Hinv Hph Hs. pose proof (si_phase s Hinv ph Hph) as (H1 & H2 & H3).
  assert (Hq : srv_activity s <> Quiet) by (by intros E; rewrite E in Hph).
  inversion Hs; subst; cbn [rank] in *.
  - edestruct sinv_withdraw as (Hi & Hw & (_ & _ & E1 & E2 & E3 & _)); [done..|].
    split_and!; try done. intros ph0 [= <-]. cbn. split_and!; [done|lia..].
  - split_and!; try done. { apply sinv_call_close; try done; [by apply H1|].
      intros c ph f E. rewrite E in Hph. cbn in Hph. injection Hph as ->. done. }
    intros ph0 [= <-]. cbn. split_and!; [by intros _; apply H1|done|lia].
  - split_and!; try done. intros ph0 [= <-]. cbn. split_and!; [by intros _; apply H1|by intros _; apply H2|lia].
  - edestruct sinv_stop_accepting as (Hi & Ha & (_ & _ & E1 & E2 & E3 & _) & Ew & _); [done|done|done|].
    split_and!; try done. intros ph0 [= <-]. cbn. rewrite Ew, E1.
    split_and!; [by intros _; apply H1|by intros _; apply H2|done].
Qed.

(** A loop during the drain of the connections: unchanged, told to drain, or
    stopped. *)
Definition drains_to (y x : IoLoop) : Prop :=
  x = y \/ x = (IoLoop_BeginDrain y).2 \/ (loop_wf x /\ loop_state_ x = LStopped).

Lemma drains_to_stopped y x : drains_to y x -> loop_state_ y = LStopped -> loop_state_ x = LStopped.
Proof.
  intros [->|[->|[_ ?]]] Hy; [done| |done]. unfold IoLoop_BeginDrain. rewrite Hy. done.
Qed.

Lemma sinv_drain_loops loops' n c ph f s :
  sinv s -> srv_activity s = Shutdown c ph f -> 4 <= rank ph ->
  (forall j x, loops' !! j = Some x -> exists y, srv_loops_ s !! j = Some y /\ drains_to y x) ->
  sinv (set_loops loops' n s).
Proof.
  intros Hinv Ha Hr Hl. assert (Hq : srv_activity s <> Quiet) by congruence.
  pose proof (busy_not_returned s Hinv Hq) as Hn. destruct Hinv.
  destruct (si_phase0 ph) as (H1 & H2 & H3); [by rewrite Ha|].
  split; cbn; try done; [| | |congruence].
  - apply Forall_lookup. intros j x Hj. destruct (Hl j x Hj) as (y & Hy & Hd).
    pose proof (proj1 (Forall_lookup _ _) si_loops0 j y Hy) as Hwf.
    destruct Hd as [->|[->|[? _]]]; [done|by apply IoLoop_BeginDrain_wf|done].
  - intros j x Hj Hx. destruct (Hl j x Hx) as (y & Hy & Hd). eapply drains_to_stopped; [done|].
    by apply (si_finished0 j).
  - intros i x _ _. split; [apply H2; lia|apply H3; lia].
Qed.

Lemma BeginConnectionDrain_lookup n loops j x :
  BeginConnectionDrain n loops !! j = Some x -> exists y, loops !! j = Some y /\ drains_to y x.
Proof.
  unfold BeginConnectionDrain. intros Hj. apply lookup_app_Some in Hj as [Hj|[Hge Hj]].
  - rewrite list_lookup_fmap in Hj. apply fmap_Some in Hj as (y & Hy & ->).
    apply lookup_take_Some in Hy as [Hy _]. exists y. split; [done|]. right; left. done.
  - rewrite length_fmap in Hge, Hj. rewrite lookup_drop in Hj. exists x. split; [|by left].
    rewrite length_take in Hge, Hj. destruct (decide (n <= length loops)%nat).
    + rewrite <- Hj. f_equal. lia.
    + apply lookup_lt_Some in Hj. lia.
Qed.

Lemma attempt_failure e f : std_exn e -> Status_ok (attempt (Some e) f) = false.
Proof.
  intros [_ He]. unfold attempt. destruct (Status_ok f) eqn:E; [|done].
  by apply Status_ok_false, CaughtExceptionToStatus_not_ok.
Qed.

Lemma first_failure_ok f st :
  Status_ok (first_failure f st) = true -> Status_ok f = true /\ Status_ok st = true.
Proof.
  unfold first_failure. destruct (Status_ok f) eqn:Ef, (Status_ok st) eqn:Es; cbn; auto; congruence.
Qed.

(** One of the other phases of the shutdown: its effect on the components. *)
Lemma sinv_shutdown_effect c ph f ph' f' s w s' w' :
  sinv s -> srv_activity s = Shutdown c ph f -> shutdown_phase ph f (s, w) ph' f' (s', w') ->
  sinv s' /\ srv_activity s' = Shutdown c ph f /\ srv_state_ s' = srv_state_ s /\
  4 <= rank ph /\ 4 <= rank ph'.
Proof.
  intros Hinv Ha Hs. assert (Hq : srv_activity s <> Quiet) by congruence.
  pose proof (si_phase s Hinv ph) as Hph. rewrite Ha in Hph. specialize (Hph eq_refl) as (H1 & H2 & H3).
  inversion Hs; subst; cbn [rank] in *; split_and!; try done.
  - eapply sinv_drain_loops; [done|done|done|]. apply BeginConnectionDrain_lookup.
  - eapply sinv_drain_loops; [done|done|done|]. apply BeginConnectionDrain_lookup.
  - apply sinv_call_close; try done; [by apply H1|]. intros c0 ph0 f0 E. rewrite Ha in E.
    injection E as <- <- <-. done.
  - destruct Hinv. split; try done; cbn.
    + intros c0 ph0 f0 _ _. by right.
    + intros st Hst. destruct (si_returned0 st Hst) as (E & _). congruence.
  - eapply sinv_drain_loops; [done|done|done|]. intros j x Hx.
    apply list_lookup_insert_Some in Hx as [(<- & <- & _)|[_ Hx]].
    + eexists. split; [done|]. right; left. done.
    + exists x. split; [done|by left].
  - eapply sinv_drain_loops; [done|done|done|]. intros j x Hx.
    apply list_lookup_insert_Some in Hx as [(<- & <- & _)|[_ Hx]].
    + eexists. split; [done|]. right; right. eapply FinishDrain_wait_wf; [|done].
      by apply (proj1 (Forall_lookup _ _) (si_loops s Hinv) k).
    + exists x. split; [done|by left].
Qed.

Lemma sinv_shutdown c ph f ph' f' s w s' w' :
  sinv s -> srv_activity s = Shutdown c ph f -> shutdown_phase ph f (s, w) ph' f' (s', w') ->
  sinv (set_activity (Shutdown c ph' f') s').
Proof.
  intros Hinv Ha Hs. destruct (sinv_shutdown_effect c ph f ph' f' s w s' w' Hinv Ha Hs)
    as (Hinv' & Ha' & Est & Hr & Hr').
  pose proof (si_phase s' Hinv' ph) as Hph. rewrite Ha' in Hph. specialize (Hph eq_refl) as (H1 & H2 & H3).
  apply sinv_activity; try done; [congruence| | | | |].
  - rewrite Est. pose proof (si_life s Hinv) as Hl. rewrite Ha in Hl. exact Hl.
  - intros ph0 [= <-]. split_and!; intros _; [apply H1|apply H2|apply H3]; lia.
  - intros c0 ph0 f0 [= <- <- <-] H7 Hok. pose proof (si_drained s Hinv c ph f Ha) as Hd.
    inversion Hs; subst; cbn [rank] in *; try done; try (by apply Hd).
    by rewrite attempt_failure in Hok.
  - intros c0 ph0 f0 [= <- <- <-] H7. pose proof (si_drain_tried s' Hinv' c ph f Ha') as Ht.
    inversion Hs; subst; cbn [rank] in *; try lia; try (by apply Ht); [by left|by right].
  - intros j l Hj Hl. pose proof (si_finished s' Hinv' j l) as Hfin. rewrite Ha' in Hfin.
    inversion Hs; subst; cbn [finished] in *; try lia; [by apply Hfin|].
    destruct (decide (j = k)) as [->|Hne]; [|apply Hfin; [lia|done]].
    cbn in Hl. apply list_lookup_insert_Some in Hl as [(_ & <- & _)|[? _]]; [|done].
    eapply FinishDrain_wait_wf; [|done]. by apply (proj1 (Forall_lookup _ _) (si_loops s Hinv) k).
Qed.

(** ** Startup and the operations under the mutex *)

Lemma StartConnectionLoops_started spawned loops ok loops' :
  StartConnectionLoops spawned loops = (ok, loops') ->
  Forall loop_wf loops -> Forall (fun l => loop_state_ l = LCreated) loops ->
  Forall (fun l => loop_wf l /\ loop_state_ l <> LDraining) loops'.
Proof.
  revert spawned ok loops'. induction loops as [|l loops IH]; intros spawned ok loops' E Hwf Hc.
  { injection E as <- <-. constructor. }
  inversion_clear Hwf as [|? ? Hl Hwf']. inversion_clear Hc as [|? ? Hlc Hc'].
  cbn [StartConnectionLoops] in E. destruct (match spawned with [] => _ | _ => _ end) as [b rest].
  destruct (negb b && bool_decide (loop_state_ l = LCreated)).
  - injection E as <- <-. constructor; [split; [done|congruence]|].
    apply Forall_lookup. intros j x Hx. split; [by apply (proj1 (Forall_lookup _ _) Hwf' j)|].
    by rewrite (proj1 (Forall_lookup _ _) Hc' j x Hx).
  - destruct (StartConnectionLoops rest loops) as [all loops1] eqn:E1. injection E as <- <-.
    constructor; [|by eapply IH]. split; [by apply IoLoop_Start_wf|].
    unfold IoLoop_Start. case_bool_decide; cbn; [done|congruence].
Qed.

(** What [StartComponents] leaves alone; the loops are started. *)
Definition starts (s s' : RpcServerImpl) (started : bool) : Prop :=
  srv_pool_ s' = srv_pool_ s /\ srv_registry_ s' = srv_registry_ s /\ srv_state_ s' = srv_state_ s /\
  srv_activity s' = srv_activity s /\ srv_drain_failed s' = srv_drain_failed s /\
  run_returned s' = run_returned s /\ listen_socket_ s' = listen_socket_ s /\
  accept_stopped_ s' = (if started then false else accept_stopped_ s).

Lemma StartAcceptLoop_starts s s' : StartAcceptLoop s = Some s' -> starts s s' true /\ srv_loops_ s' = srv_loops_ s.
Proof.
  unfold StartAcceptLoop. destruct (negb _); [done|]. intros [= <-]. unfold accept_Post. cbn.
  by destruct (accept_stop_requested s).
Qed.

Lemma StartComponents_Returns spawned e pid s w r s' w' :
  StartComponents spawned e pid s w = Returns (r, s') w' ->
  exists ok, StartConnectionLoops spawned (srv_loops_ s) = (ok, srv_loops_ s') /\ starts s s' ok.
Proof.
  unfold StartComponents. destruct (StartConnectionLoops spawned (srv_loops_ s)) as [ok loops] eqn:E.
  intros Hs. exists ok. destruct ok; cbn [negb] in Hs; [|by inversion Hs; subst].
  apply Sys_bind_Returns in Hs as (s1 & w1 & Hl & Hs). unfold sys_lift in Hl.
  destruct (StartAcceptLoop _) as [s1'|] eqn:Ea; [|done]. inversion Hl; subst s1' w1; clear Hl.
  apply StartAcceptLoop_starts in Ea as [Hst El]. cbn in El.
  assert (Hgoal : forall r1, (true, loops) = (true, srv_loops_ s1) /\ starts s s1 true /\
    starts s (set_registrar r1 s1) true) by (intros r1; by rewrite El).
  destruct (negb (ServiceRegistrationEnabled _)); [inversion Hs; subst; by destruct (Hgoal None) as (? & ? & _)|].
  destruct (so_value_ (ResolveRegistrarOptions _ _ _ _)) as [options|];
    [|inversion Hs; subst; by destruct (Hgoal None) as (? & ? & _)].
  apply Sys_bind_Returns in Hs as (http & w2 & _ & Hs).
  destruct (so_value_ http) as [client|]; [|inversion Hs; subst; by destruct (Hgoal None) as (? & ? & _)].
  apply Sys_bind_Returns in Hs as ([st reg] & w3 & _ & Hs).
  destruct (Hgoal (Some reg)) as (? & _ & ?). destruct (negb (Status_ok st)); inversion Hs; subst; done.
Qed.

Lemma free_listening s : sinv s -> mutex_free s -> srv_state_ s = SrvListening -> srv_activity s = Quiet.
Proof.
  intros [] Hm Hs. unfold mutex_free in Hm. unfold life_ok in *.
  destruct (srv_activity s) as [| |ph|[]]; try done; rewrite Hs in si_life0; naive_solver.
Qed.

Lemma sinv_started x a s s' :
  sinv s -> srv_activity s = Quiet -> srv_state_ s = SrvListening ->
  srv_pool_ s' = srv_pool_ s -> srv_drain_failed s' = srv_drain_failed s -> run_returned s' = run_returned s ->
  accept_stopped_ s' = false -> Forall (fun l => loop_wf l /\ loop_state_ l <> LDraining) (srv_loops_ s') ->
  a <> Quiet -> life_ok x a -> (forall ph, phase_of a = Some ph -> rank ph = 0) ->
  sinv (set_lifecycle x a s').
Proof.
  intros [] Ha Hst E1 E2 E3 E4 Hl Hq Hlife Hph.
  destruct (si_fresh0 Ha) as (_ & Hacc & _); [congruence|].
  assert (Hlk : forall j l, srv_loops_ s' !! j = Some l -> loop_wf l /\ loop_state_ l <> LDraining).
  { intros j l Hj. by apply (proj1 (Forall_lookup _ _) Hl j). }
  split; cbn; rewrite ?E1, ?E2, ?E3, ?E4; try done.
  - apply Forall_lookup. intros j l Hj. by apply (Hlk j).
  - unfold listener_ok. cbn. congruence.
  - congruence.
  - intros ph Hp. rewrite (Hph ph Hp). split_and!; lia.
  - intros c ph f Hc Hr. subst a. specialize (Hph ph eq_refl). lia.
  - intros c ph f Hc Hr. subst a. specialize (Hph ph eq_refl). lia.
  - intros j l Hj. destruct a as [| |ph|c ph f]; cbn in Hj; try lia. specialize (Hph ph eq_refl).
    destruct ph; cbn in *; lia.
  - intros i l Hi Hd. by destruct (Hlk i l Hi).
  - intros st Hst'. destruct (si_returned0 st Hst') as (_ & (? & _) & _). congruence.
Qed.

Lemma sinv_run spawned e pid s w r s' w' :
  sinv s -> mutex_free s -> std_exn e -> Run_startup spawned e pid s w = Returns (r, s') w' -> sinv s'.
Proof.
  intros Hinv Hm He. unfold Run_startup. case_bool_decide as Hst; cbn [negb]; [|by intros [= _ <- _]].
  intros Hs. apply Sys_bind_Returns in Hs as ([started s1] & w1 & Hc & Hs).
  pose proof (free_listening s Hinv Hm Hst) as Ha. destruct (si_fresh s Hinv Ha) as (Hf & Hacc & Hcr); [congruence|].
  apply StartComponents_Returns in Hc as (ok & El & (E1 & E2 & E3 & E4 & E5 & E6 & E7 & E8)).
  pose proof (StartConnectionLoops_started _ _ _ _ El (si_loops s Hinv) Hcr) as Hloops.
  assert (E8' : accept_stopped_ s1 = false) by (rewrite E8; by destruct ok).
  destruct (negb (Status_ok _)) eqn:Eok; inversion Hs; subst; clear Hs.
  - unfold set_activity. rewrite E3. apply (sinv_started _ _ s s1); try done.
    + cbn. split; [congruence|]. by apply negb_true_iff in Eok.
    + by intros ph [= <-].
  - apply (sinv_started _ _ s s1); try done. cbn. auto.
Qed.

Lemma sinv_listen h port s w st s' w' :
  sinv s -> mutex_free s -> Impl_Listen h port s w = Returns (st, s') w' -> sinv s'.
Proof.
  intros Hinv Hm. unfold Impl_Listen. case_bool_decide as Hst; cbn [negb]; [|by intros [= _ <- _]].
  assert (Ha : srv_activity s = Quiet).
  { pose proof (si_life s Hinv) as Hl. unfold mutex_free in Hm.
    destruct (srv_activity s) as [| |ph|[]]; try done; rewrite Hst in Hl; naive_solver. }
  assert (Hn : run_returned s = None).
  { destruct (run_returned s) as [st'|] eqn:E; [|done].
    destruct (si_returned s Hinv st' E) as (_ & (? & _) & _). congruence. }
  destruct (si_fresh s Hinv Ha) as (Hf & Hacc & Hcr); [congruence|].
  assert (Hchange : forall x sock h p, x <> SrvRunning -> x <> SrvStopping ->
    sinv (set_lifecycle x (srv_activity s) (set_listener sock h p (accept_stopped_ s) s))).
  { intros x sock h' p Hx1 Hx2. destruct Hinv. rewrite Ha in *.
    split; cbn; try done; [unfold listener_ok; cbn; congruence|destruct x; auto; done|congruence]. }
  assert (Hstop : sinv (set_lifecycle SrvStopped (srv_activity s) s)).
  { eapply sinv_ext; [apply (Hchange SrvStopped (listen_socket_ s) (listen_host_ s) (port_ s)); done|done..]. }
  intros Hs. apply Sys_bind_Returns in Hs as ([st1 sock1] & w1 & _ & Hs).
  destruct (negb (Status_ok st1)).
  { apply Sys_bind_Returns in Hs as (? & ? & _ & Hs). by inversion Hs; subst. }
  apply Sys_bind_Returns in Hs as ([st2 sock2] & w2 & _ & Hs). destruct (negb (Status_ok st2)).
  { apply Sys_bind_Returns in Hs as (? & ? & _ & Hs). by inversion Hs; subst. }
  apply Sys_bind_Returns in Hs as (lp & w3 & _ & Hs). destruct (so_value_ lp) as [p|].
  - apply Sys_bind_Returns in Hs as ([ls _] & w4 & _ & Hs). inversion Hs; subst. by apply Hchange.
  - apply Sys_bind_Returns in Hs as (? & ? & _ & Hs). by inversion Hs; subst.
Qed.

Lemma sinv_stop s : sinv s -> mutex_free s -> sinv (Impl_Stop s).
Proof.
  intros Hinv Hm. unfold Impl_Stop.
  assert (Hq : srv_state_ s = SrvCreated \/ srv_state_ s = SrvListening ->
    sinv (set_activity (Shutdown ByStop PhDeregister Status_Ok) s)).
  { intros Hst. assert (Hn : run_returned s = None).
    { destruct (run_returned s) as [st'|] eqn:E; [|done].
      destruct (si_returned s Hinv st' E) as (_ & (? & _) & _). destruct Hst; congruence. }
    destruct Hinv. split; cbn; try done.
    - intros ph [= <-]. cbn. split_and!; lia.
    - intros c ph f [= <- <- <-]. cbn. lia.
    - intros c ph f [= <- <- <-]. cbn. lia.
    - intros j l Hj. lia.
    - congruence. }
  destruct (srv_state_ s) eqn:Hst; try done; auto.
  unfold accept_Post. cbn.
  assert (sinv (set_lifecycle SrvStopping (srv_activity s) s)) as Hs.
  { destruct Hinv. split; cbn; try done.
    - unfold mutex_free in Hm. unfold life_ok in *.
      destruct (srv_activity s) as [| |ph|[]]; try done.
      + destruct si_life0 as [?|[?|?]]; congruence.
      + by right.
      + split; [by right|apply si_life0].
    - intros Ha _. by apply si_fresh0; [|congruence].
    - intros st' Hst'. destruct (si_returned0 st' Hst') as (_ & (? & _) & _). congruence. }
  destruct (accept_stop_requested s); [done|]. by eapply sinv_ext.
Qed.

(** ** The accept loop *)

Lemma sinv_accept_fields t posted stop s : sinv s -> sinv (set_accept t posted stop s).
Proof. intros Hinv. by eapply sinv_ext. Qed.

Lemma sinv_head error s : sinv s -> sinv (AcceptLoop_head error s).
Proof.
  intros Hinv. unfold AcceptLoop_head, accept_RequestStop.
  destruct (accept_stopped_ s); repeat apply sinv_accept_fields; done.
Qed.

Lemma sinv_dispatch s s' : sinv s -> DispatchAcceptedConnection s = Some s' -> sinv s'.
Proof.
  intros Hinv. unfold DispatchAcceptedConnection.
  destruct (srv_loops_ s !! _) as [l|] eqn:E; [|done]. cbn [mbind option_bind]. intros [= <-].
  eapply sinv_loop_at; [done|done|apply PostStartConnection_wf|apply PostStartConnection_state].
Qed.

Lemma sinv_accept result is_final throws error s w s' w' :
  sinv s -> srv_activity s = Accepting ->
  AcceptLoop_result result is_final throws error s w = Returns s' w' -> sinv s'.
Proof.
  intros Hinv Ha Hs. unfold AcceptLoop_result in Hs.
  apply Sys_bind_Returns in Hs as ([error' s1] & w1 & Hb & Hs).
  assert (Hs1 : sinv s1).
  { assert (Hq : srv_activity s <> Quiet) by congruence. destruct (result <? 0).
    - apply Sys_bind_Returns in Hb as (s2 & w2 & Hst & Hb). inversion Hb; subst.
      by eapply sinv_stop_accepting.
    - destruct (accept_stopped_ s).
      + apply Sys_bind_Returns in Hb as (? & ? & _ & Hb). by inversion Hb; subst.
      + destruct throws as [e|].
        * apply Sys_bind_Returns in Hb as (? & ? & _ & Hb).
          apply Sys_bind_Returns in Hb as (s2 & w2 & Hst & Hb). inversion Hb; subst.
          by eapply sinv_stop_accepting.
        * apply Sys_bind_Returns in Hb as (s2 & w2 & Hd & Hb). inversion Hb; subst.
          unfold sys_lift in Hd. destruct (DispatchAcceptedConnection s) eqn:E; [|done].
          inversion Hd; subst. by eapply sinv_dispatch. }
  inversion Hs; subst. destruct is_final; [by apply sinv_head|by apply sinv_accept_fields].
Qed.

Lemma sinv_accept_returns error s s' :
  sinv s -> srv_activity s = Accepting -> CompleteShutdown_start error s = Some s' -> sinv s'.
Proof.
  intros Hinv Ha. unfold CompleteShutdown_start. destruct (_ || _); [|done]. intros [= <-].
  assert (Hn : run_returned s = None) by (apply busy_not_returned; [done|congruence]).
  destruct Hinv. split; cbn; try done.
  - intros ph [= <-]. cbn. split_and!; lia.
  - intros c ph f [= <- <- <-]. cbn. lia.
  - intros c ph f [= <- <- <-]. cbn. lia.
  - intros j l Hj. lia.
  - congruence.
Qed.

Lemma sinv_graceful_stop posted s :
  sinv s -> srv_activity s = Accepting ->
  sinv (set_activity (Graceful PhDeregister) (set_accept (accept_task_ s) posted (accept_stop_requested s) s)).
Proof.
  intros Hinv Ha. apply sinv_activity; try done.
  - by apply sinv_accept_fields.
  - cbn. congruence.
  - cbn. split; [|done]. pose proof (si_life s Hinv) as Hl. by rewrite Ha in Hl.
  - intros ph [= <-]. cbn. split_and!; lia.
  - cbn. intros j l Hj. lia.
Qed.

Lemma sinv_graceful ph ph' s w s' w' :
  sinv s -> srv_activity s = Graceful ph -> common_phase PhBeginDrain ph (s, w) ph' (s', w') ->
  sinv (set_activity (if decide (ph = PhStopAccepting) then Accepting else Graceful ph') s').
Proof.
  intros Hinv Ha Hs. edestruct sinv_common as (Hi & Ea & Est & Hph & _ & _ & Hr); [done|by rewrite Ha|done|].
  pose proof (si_life s Hinv) as Hl. rewrite Ha in Hl. destruct Hl as [Hl _].
  destruct (decide (ph = PhStopAccepting)) as [E|E]; apply sinv_activity; try done; try congruence.
  - by rewrite Est.
  - cbn. intros j l Hj. lia.
  - cbn. rewrite Est. auto.
  - cbn. intros j l Hj. lia.
Qed.

Lemma sinv_shutdown_common c f ph ph' s w s' w' :
  sinv s -> srv_activity s = Shutdown c ph f -> common_phase PhBeginDrain ph (s, w) ph' (s', w') ->
  sinv (set_activity (Shutdown c ph' f) s').
Proof.
  intros Hinv Ha Hs.
  edestruct sinv_common as (Hi & Ea & Est & Hph & _ & Hr & _); [done|by rewrite Ha|done|].
  pose proof (si_life s Hinv) as Hl. rewrite Ha in Hl.
  apply sinv_activity; try done; [congruence|by rewrite Est| | |].
  - intros c0 ph0 f0 [= <- <- <-] H7. lia.
  - intros c0 ph0 f0 [= <- <- <-] H7. lia.
  - cbn. intros j l Hj. destruct ph'; cbn in *; lia.
Qed.

(** The end of a shutdown. *)
Lemma sinv_shutdown_end c f k drain throws s :
  sinv s -> srv_activity s = Shutdown c (PhFinish k drain) f -> srv_loops_ s !! k = None ->
  sinv (shutdown_done c (first_failure f (FinishConnectionDrain_end throws drain)) (accept_RequestStop s)).
Proof.
  intros Hinv Ha Hk. assert (Hq : srv_activity s <> Quiet) by congruence.
  pose proof (busy_not_returned s Hinv Hq) as Hn.
  pose proof (si_phase s Hinv (PhFinish k drain)) as Hp. rewrite Ha in Hp.
  destruct (Hp eq_refl) as (H1 & H2 & H3). cbn in H1, H2, H3.
  assert (Hstop : Forall (fun l => loop_state_ l = LStopped) (srv_loops_ s)).
  { apply Forall_lookup. intros j l Hj. apply (si_finished s Hinv j l); [|done]. rewrite Ha. cbn.
    apply lookup_lt_Some in Hj. apply lookup_ge_None in Hk. lia. }
  assert (Hbase : sinv (set_lifecycle SrvStopped Quiet (accept_RequestStop s))).
  { destruct Hinv. split; cbn; try done; [by auto|intros j l Hj; lia|congruence]. }
  assert (Hret : forall st, (Status_ok st = true -> owner_ (srv_pool_ s) = OwnDrained) ->
    sinv (set_returned st (set_lifecycle SrvStopped Quiet (accept_RequestStop s)))).
  { intros st Hst. destruct Hbase. split; try done. cbn. intros st' [= <-]. split_and!; try done.
    - unfold all_stopped. cbn -[deregistration].
      split_and!; done || (by apply H1) || (by apply H2) || by apply H3.
    - by eapply (si_drain_tried s Hinv); [exact Ha|]. }
  unfold shutdown_done. destruct c as [|st|st]; [done| |]; apply Hret; intros Hok.
  - pose proof (si_life s Hinv) as Hl. rewrite Ha in Hl. destruct Hl. congruence.
  - apply first_failure_ok in Hok as [_ Hok]. apply first_failure_ok in Hok as [Hok _].
    by eapply (si_drained s Hinv); [exact Ha| |].
Qed.

Lemma sinv_step s w s' w' : sinv s -> sstep (s, w) (s', w') -> sinv s'.
Proof.
  intros Hinv Hs. inversion Hs; subst.
  - unfold Impl_RegisterMethod. destruct (_ && _); [done|]. destruct (ServiceRegistry_Register _ _ _ _).
    by eapply sinv_ext.
  - by eapply sinv_listen.
  - by eapply sinv_run.
  - by apply sinv_stop.
  - apply sinv_head. by apply sinv_accept_fields.
  - by apply sinv_graceful_stop.
  - by eapply sinv_accept.
  - by eapply sinv_accept_returns.
  - by eapply sinv_graceful.
  - by eapply sinv_shutdown_common.
  - by eapply sinv_shutdown.
  - by eapply sinv_shutdown_end.
  - apply sinv_pool_step; auto.
  - apply sinv_pool_step; auto.
  - eapply sinv_loop_at; [done|done|by eapply loop_handle_wf|].
    eapply loop_handle_lifecycle; done.
Qed.

Lemma sinv_reachable n config w0 s w :
  is_u 64 (wp_max_pending_jobs_ (worker_pool_config_ config)) ->
  rtc sstep (Impl_new n config, w0) (s, w) -> sinv s.
Proof.
  intros Hm Hr. apply (rtc_preserves sstep (fun c => sinv c.1) (Impl_new n config, w0) (s, w)); [|by apply sinv_new|done].
  intros [s1 w1] [s2 w2] H1 H2. by eapply sinv_step.
Qed.

(** ** Properties *)

Definition life_rank (x : ServerState) : Z :=
  match x with SrvCreated => 0 | SrvListening => 1 | SrvRunning => 2 | SrvStopping => 3 | SrvStopped => 4 end.

(** The steps that are not phases of a shutdown, as far as the order of the
    shutdown is concerned. *)
Lemma Listen_Returns h port s w st s' w' :
  Impl_Listen h port s w = Returns (st, s') w' ->
  srv_registry_ s' = srv_registry_ s /\ srv_pool_ s' = srv_pool_ s /\ srv_loops_ s' = srv_loops_ s /\
  (srv_state_ s' = srv_state_ s \/ srv_state_ s = SrvCreated).
Proof.
  unfold Impl_Listen. case_bool_decide as Hst; cbn [negb]; [|intros [= _ <- _]; auto].
  intros Hs. apply Sys_bind_Returns in Hs as ([st1 sock1] & w1 & _ & Hs).
  destruct (negb (Status_ok st1)).
  { apply Sys_bind_Returns in Hs as (? & ? & _ & Hs). inversion Hs; subst. auto. }
  apply Sys_bind_Returns in Hs as ([st2 sock2] & w2 & _ & Hs). destruct (negb (Status_ok st2)).
  { apply Sys_bind_Returns in Hs as (? & ? & _ & Hs). inversion Hs; subst. auto. }
  apply Sys_bind_Returns in Hs as (lp & w3 & _ & Hs). destruct (so_value_ lp) as [p|].
  - apply Sys_bind_Returns in Hs as ([ls _] & w4 & _ & Hs). inversion Hs; subst. auto.
  - apply Sys_bind_Returns in Hs as (? & ? & _ & Hs). inversion Hs; subst. auto.
Qed.

Lemma accept_Returns result is_final throws error s w s' w' :
  listener_ok s -> AcceptLoop_result result is_final throws error s w = Returns s' w' ->
  srv_registry_ s' = srv_registry_ s /\ srv_pool_ s' = srv_pool_ s /\ srv_state_ s' = srv_state_ s /\
  (srv_loops_ s' = srv_loops_ s \/
   exists i l, srv_loops_ s !! i = Some l /\ srv_loops_ s' = <[i := (PostStartConnection l).2]> (srv_loops_ s)).
Proof.
  intros Hl Hs. unfold AcceptLoop_result in Hs. apply Sys_bind_Returns in Hs as ([error' s1] & w1 & Hb & Hs).
  assert (Hs1 : srv_registry_ s1 = srv_registry_ s /\ srv_pool_ s1 = srv_pool_ s /\ srv_state_ s1 = srv_state_ s /\
    (srv_loops_ s1 = srv_loops_ s \/ exists i l, srv_loops_ s !! i = Some l /\
       srv_loops_ s1 = <[i := (PostStartConnection l).2]> (srv_loops_ s))).
  { destruct (result <? 0).
    - apply Sys_bind_Returns in Hb as (s2 & w2 & Hst & Hb). inversion Hb; subst.
      apply StopAccepting_Returns in Hst as ((_ & ? & ? & ? & _) & ? & _); auto.
    - destruct (accept_stopped_ s).
      + apply Sys_bind_Returns in Hb as (? & ? & _ & Hb). inversion Hb; subst. auto.
      + destruct throws as [e|].
        * apply Sys_bind_Returns in Hb as (? & ? & _ & Hb).
          apply Sys_bind_Returns in Hb as (s2 & w2 & Hst & Hb). inversion Hb; subst.
          apply StopAccepting_Returns in Hst as ((_ & ? & ? & ? & _) & ? & _); auto.
        * apply Sys_bind_Returns in Hb as (s2 & w2 & Hd & Hb). inversion Hb; subst.
          unfold sys_lift, DispatchAcceptedConnection in Hd.
          destruct (srv_loops_ s !! _) as [l|] eqn:E; [|done]. cbn in Hd. inversion Hd; subst. cbn.
          split_and!; try done. right. eauto. }
  inversion Hs; subst. destruct is_final; [|done]. unfold AcceptLoop_head. by destruct (accept_stopped_ s1).
Qed.

(** A loop that had a thread and has none. *)
Definition joined (s s' : RpcServerImpl) : Prop :=
  exists i l l', srv_loops_ s !! i = Some l /\ srv_loops_ s' !! i = Some l' /\
    loop_joinable l = true /\ loop_joinable l' = false.

Lemma not_joined_same s s' : srv_loops_ s' = srv_loops_ s -> ~ joined s s'.
Proof. intros E (i & l & l' & H1 & H2 & H3 & H4). rewrite E in H2. congruence. Qed.

Lemma not_joined_insert i l x s s' :
  srv_loops_ s !! i = Some l -> srv_loops_ s' = <[i := x]> (srv_loops_ s) ->
  (loop_joinable l = true -> loop_joinable x = true) -> ~ joined s s'.
Proof.
  intros Hi E Hx (j & y & y' & H1 & H2 & H3 & H4). rewrite E in H2.
  apply list_lookup_insert_Some in H2 as [(<- & -> & _)|[_ H2]]; [|congruence].
  rewrite Hi in H1. simplify_eq. rewrite Hx in H4; done.
Qed.

Lemma BeginDrain_joinable l : loop_wf l -> loop_joinable l = true -> loop_joinable (IoLoop_BeginDrain l).2 = true.
Proof.
  intros [Hj _] Hl. unfold IoLoop_BeginDrain. case_bool_decide; [by apply Hj in Hl as [|]; congruence|].
  by case_bool_decide.
Qed.

Lemma not_joined_drain n s s' :
  Forall loop_wf (srv_loops_ s) -> srv_loops_ s' = BeginConnectionDrain n (srv_loops_ s) -> ~ joined s s'.
Proof.
  intros Hwf E (j & y & y' & H1 & H2 & H3 & H4). rewrite E in H2.
  pose proof (proj1 (Forall_lookup _ _) Hwf j y H1) as Hy. unfold BeginConnectionDrain in H2.
  apply lookup_app_Some in H2 as [H2|[Hge H2]].
  - rewrite list_lookup_fmap in H2. apply fmap_Some in H2 as (z & Hz & ->).
    apply lookup_take_Some in Hz as [Hz _]. rewrite Hz in H1. simplify_eq.
    by rewrite BeginDrain_joinable in H4.
  - rewrite length_fmap, length_take in Hge, H2. rewrite lookup_drop in H2.
    destruct (decide (n <= length (srv_loops_ s))%nat).
    + replace (n + (j - (n `min` length (srv_loops_ s))))%nat with j in H2 by lia. congruence.
    + apply lookup_lt_Some in H2. lia.
Qed.

Lemma not_joined_start spawned loops ok loops' :
  StartConnectionLoops spawned loops = (ok, loops') ->
  forall j l l', loops !! j = Some l -> loops' !! j = Some l' -> loop_joinable l = true -> loop_joinable l' = true.
Proof.
  revert spawned ok loops'. induction loops as [|l loops IH]; intros spawned ok loops' E; [done|].
  cbn [StartConnectionLoops] in E. destruct (match spawned with [] => _ | _ => _ end) as [b rest].
  destruct (negb b && _).
  - injection E as <- <-. intros j x y Hx Hy. congruence.
  - destruct (StartConnectionLoops rest loops) as [all loops1] eqn:E1. injection E as <- <-.
    intros [|j] x y Hx Hy; cbn in Hx, Hy; [|by eapply IH]. simplify_eq. unfold IoLoop_Start.
    by case_bool_decide.
Qed.

(** What a step may do to the order of things. *)
Definition orderly (s s' : RpcServerImpl) : Prop :=
  life_rank (srv_state_ s) <= life_rank (srv_state_ s') /\
  (srv_registry_ s' = srv_registry_ s \/ srv_state_ s = SrvCreated \/ srv_state_ s = SrvListening) /\
  (pool_accepting s = true -> pool_accepting s' = false -> deregistered (deregistration s)) /\
  (joined s s' -> exists c k drain f, srv_activity s = Shutdown c (PhFinishing k drain) f /\
     pool_accepting s = false /\ accept_stopped_ s = true /\ drain_tried s /\
     (Status_ok f = true -> owner_ (srv_pool_ s) = OwnDrained)).

Lemma orderly_frame s s' :
  life_rank (srv_state_ s) <= life_rank (srv_state_ s') -> srv_registry_ s' = srv_registry_ s ->
  pool_accepting s' = pool_accepting s -> ~ joined s s' -> orderly s s'.
Proof. intros H1 H2 H3 H4. split_and!; auto; [congruence|done]. Qed.

Lemma common_orderly ph ph' s w s' w' a :
  sinv s -> phase_of (srv_activity s) = Some ph -> common_phase PhBeginDrain ph (s, w) ph' (s', w') ->
  orderly s (set_activity a s').
Proof.
  intros Hinv Hph Hs. pose proof (si_phase s Hinv ph Hph) as (H1 & _ & _). inversion Hs; subst.
  - edestruct TryDeregister_Returns as ((_ & E1 & E2 & E3 & _) & El & _); [done..|].
    apply orderly_frame; cbn; [by rewrite E3|done|by rewrite E2|by apply not_joined_same].
  - split; [done|split; [by left|split; [by intros _ _; apply H1|]]]. intros Hj. by apply not_joined_same in Hj.
  - apply orderly_frame; cbn; try done. by apply not_joined_same.
  - edestruct StopAccepting_Returns as ((_ & E1 & E2 & E3 & _) & El & _); [apply Hinv|done|].
    apply orderly_frame; cbn; [by rewrite E3|done|by rewrite E2|by apply not_joined_same].
Qed.

Lemma shutdown_orderly c ph f ph' f' s w s' w' a :
  sinv s -> srv_activity s = Shutdown c ph f -> shutdown_phase ph f (s, w) ph' f' (s', w') ->
  orderly s (set_activity a s').
Proof.
  intros Hinv Ha Hs. pose proof (si_phase s Hinv ph) as Hph. rewrite Ha in Hph.
  destruct (Hph eq_refl) as (H1 & H2 & H3).
  inversion Hs; subst; try (apply orderly_frame; cbn; try done; by apply not_joined_same).
  - apply orderly_frame; cbn; try done. eapply not_joined_drain; [apply Hinv|done].
  - apply orderly_frame; cbn; try done. eapply not_joined_drain; [apply Hinv|done].
  - split; [done|split; [by left|split; [by intros _ _; apply H1|]]]. intros Hj. by apply not_joined_same in Hj.
  - apply orderly_frame; cbn; try done. eapply not_joined_insert; [done|done|]. apply BeginDrain_joinable.
    by apply (proj1 (Forall_lookup _ _) (si_loops s Hinv) k).
  - split; [done|split; [by left|split; [cbn; congruence|]]]. intros _. do 4 eexists. split; [exact Ha|].
    split_and!; [by apply H2|by apply H3| |]; [by eapply (si_drain_tried s Hinv)|by eapply (si_drained s Hinv)].
Qed.

Lemma Run_startup_orderly spawned e pid s w r s' w' :
  sinv s -> Run_startup spawned e pid s w = Returns (r, s') w' -> orderly s s'.
Proof.
  intros Hinv. unfold Run_startup. case_bool_decide as Hst; cbn [negb].
  2: { intros [= _ <- _]. apply orderly_frame; try done. by apply not_joined_same. }
  intros Hs. apply Sys_bind_Returns in Hs as ([started s1] & w1 & Hc & Hs).
  apply StartComponents_Returns in Hc as (ok & El & (E1 & E2 & E3 & E4 & E5 & E6 & E7 & E8)).
  assert (Hj : forall x a, ~ joined s (set_lifecycle x a s1)).
  { intros x a (j & l & l' & J1 & J2 & J3 & J4). cbn in J2.
    rewrite (not_joined_start _ _ _ _ El j l l') in J4; done. }
  destruct (negb (Status_ok _)); inversion Hs; subst; apply orderly_frame; cbn; rewrite ?E1, ?E2, ?E3; try done;
    try apply Hj. rewrite Hst. done.
Qed.

Lemma RegisterMethod_orderly registration s : orderly s (Impl_RegisterMethod registration s).2.
Proof.
  unfold Impl_RegisterMethod. destruct (_ && _) eqn:E.
  { apply orderly_frame; try done. by apply not_joined_same. }
  destruct (ServiceRegistry_Register _ _ _ _) as [r st]. split; [done|]. split; [|split; cbn; [congruence|]].
  - right. apply andb_false_iff in E as [E|E]; apply negb_false_iff, bool_decide_eq_true in E; auto.
  - intros Hj. by apply not_joined_same in Hj.
Qed.



(** A failed accept, for whatever reason, ends the server: the accept loop stops
    accepting and completes without an error, and [Run] goes on to shut down with
    an OK status. *)
Theorem AcceptLoop_error_ends_server result s w :
  result < 0 -> (srv_state_ s = SrvRunning \/ srv_state_ s = SrvStopping) ->
  exists s' w' s'', AcceptLoop_result result true None None s w = Returns s' w' /\
    accept_task_ s' = TaskDone None /\ accept_stop_requested s' = true /\
    CompleteShutdown_start None s' = Some s'' /\
    srv_activity s'' = Shutdown (ByRun Status_Ok) PhDeregister Status_Ok.
Proof.
  intros Hr Hst. unfold AcceptLoop_result. rewrite (proj2 (Z.ltb_lt _ _) Hr).
  assert (exists s1 w1, StopAcceptingOnContext s w = Returns s1 w1 /\ accept_stopped_ s1 = true /\
    srv_state_ s1 = srv_state_ s) as (s1 & w1 & E & Ea & Es).
  { unfold StopAcceptingOnContext, Socket_Close. destruct (accept_stopped_ s) eqn:Ea; [by do 2 eexists|].
    destruct (Socket_valid _); [|by do 2 eexists]. destruct (0 <=? _); by do 2 eexists. }
  unfold mbind, Sys_bind. rewrite E. cbn. unfold AcceptLoop_head. rewrite Ea. do 3 eexists.
  split; [done|]. split; [done|]. split; [done|]. split.
  - unfold CompleteShutdown_start. cbn. rewrite Es. destruct Hst as [-> | ->]; done.
  - done.
Qed.
End server.

(** *** Witnesses

    A server with one loop and one worker listens, registers itself with Consul and
    runs, and its accept fails; [Run] deregisters, shuts everything down and
    returns OK. *)
Section ServerWitnesses.
Import ExampleWire.
#[local] Existing Instance toy.

Definition example_server_config : ServerConfig :=
  MkServerConfig (MkWorkerPoolConfig 1 10) (MkListenConfigR 128)
    (MkConnectionIoConfigR 1 example_conn_config UringBufferPoolConfig_default)
    (MkConsulConfig (bs "echo") [] [] (bs "127.0.0.1:8500")).

Definition example_step : RpcServerImpl * world -> RpcServerImpl * world -> Prop :=
  sstep (World:=nat) (Job:=nat) (fun _ => []) (fun _ => Some 0) LittleEndian.

(** An exchange with the agent: socket, flags, connection, flags, two timeouts, the
    request, the response. *)
Definition example_agent_exchange : list sysret :=
  [MkRet 6 0 0 []; MkRet 2 0 0 []; MkRet 0 0 0 []; MkRet 0 0 0 []; MkRet 0 0 0 []; MkRet 0 0 0 [];
   MkRet 0 0 0 []; MkRet 1000 0 0 [];
   recv_ok (render_head 200 (bs "OK") [(bs "Content-Length", bs "0")] ++ CRLFCRLF)].

(** The answers to [socket], [bind], [listen] and [getsockname], and two exchanges. *)
Definition example_listen_world : world :=
  MkWorld ([MkRet 5 0 0 []; MkRet 0 0 0 []; MkRet 0 0 0 []; MkRet 0 0 36895 []] ++
    example_agent_exchange ++ example_agent_exchange) [].

Definition example_server : RpcServerImpl := Impl_new (World:=nat) (Job:=nat) 0 example_server_config.

Lemma server_next c c1 c2 d :
  example_step c c1 -> c1 = c2 -> rtc example_step c2 d -> rtc example_step c d.
Proof. intros H <-. by apply rtc_l. Qed.

Ltac server_does t := eapply server_next; [unfold example_step; t|vm_compute; reflexivity|].
Tactic Notation "common_does" uconstr(c) :=
  server_does ltac:(eapply st_shutdown_common; [reflexivity|eapply c; vm_compute; done || auto || reflexivity]).
Tactic Notation "shutdown_does" uconstr(c) :=
  server_does ltac:(eapply st_shutdown; [reflexivity|eapply c; vm_compute; done || auto || reflexivity]).
Tactic Notation "owner_does" uconstr(c) :=
  server_does ltac:(eapply st_pool_owner;
    [vm_compute; by intros [?|[?|?]]|eapply step_owner; eapply c; reflexivity]).
Tactic Notation "pool_worker_does" uconstr(c) :=
  server_does ltac:(eapply st_pool; [|eapply (step_worker _ 0); [reflexivity|eapply c; reflexivity || (by left)]];
    reflexivity).

Lemma example_server_run :
  exists s w, rtc example_step (example_server, example_listen_world) (s, w) /\
    run_returned s = Some Status_Ok /\ exists r, registrar_ s = Some r /\ registered_ r = false.
Proof.
  do 2 eexists. split_and!.
  - server_does ltac:(eapply (st_listen _ _ _ _ _ (bs "127.0.0.1") 9000); [exact I|vm_compute; reflexivity]).
    server_does ltac:(eapply (st_run _ _ _ _ _ [] BadAlloc 0); [exact I|done|vm_compute; reflexivity]).
    server_does ltac:(eapply st_callback_start; reflexivity).
    server_does ltac:(eapply (st_accept _ _ _ _ _ (-24) true None); [reflexivity|reflexivity|exact I|vm_compute; reflexivity]).
    server_does ltac:(eapply st_accept_returns; [reflexivity|reflexivity|reflexivity|vm_compute; reflexivity]).
    common_does (ph_deregister _ _ _ _ None). common_does ph_close.
    owner_does ot_lock. owner_does ot_unlock. owner_does ot_closed.
    common_does ph_closed. common_does ph_stop_accepting.
    shutdown_does ph_begin_drain. shutdown_does ph_drain.
    owner_does ot_lock. owner_does ot_unlock. owner_does ot_closed. owner_does ot_drain_first.
    owner_does ot_notify_lock. owner_does ot_notify_unlock. owner_does ot_join_start.
    pool_worker_does wt_wake. pool_worker_does wt_exit.
    server_does ltac:(eapply st_pool_owner;
      [vm_compute; by intros [?|[?|?]]|eapply step_owner; eapply ot_join; repeat constructor]).
    shutdown_does ph_drained. shutdown_does ph_finish. shutdown_does ph_finished.
    server_does ltac:(eapply st_shutdown_end with (throws := None); [reflexivity|reflexivity|exact I]).
    apply rtc_refl.
  - reflexivity.
  - eexists. split; reflexivity.
Defined.


End ServerWitnesses.
