(* ===== verification/RpcServer.v ===== *)
(** * The public server

    Models [src/server/rpc_server.cpp], the typed [RegisterMethod] of
    [include/xrpc/rpc_server.h] and the statistics of
    [RpcServer::Impl::SnapshotStats].  A server object holds its runtime or, after
    it was moved from, nothing; exceptions of the runtime become statuses.

    The theorems show that a method registered through the public interface is the
    one dispatch runs, and only before [Run]; and that statistics are taken of a
    running server only, one entry for each loop, without changing anything but
    the peaks of a new window. *)

From S2P Require Import Prelude Text Status FrameHeader FrameCodec ServiceRegistry BufferPool ServerConfig WorkerPool ServerConnection Socket ConsulHttp Consul ConnectionIoLoop RpcServerImpl.

Local Open Scope Z_scope.

(** ** Statistics *)

Record BufferPoolStatsSnapshot := MkBufferPoolStats {
  stat_capacity_ : Z;
  stat_buffer_size_ : Z;
  stat_outstanding_leases_ : Z;
  stat_outstanding_leases_peak_ : Z
}.

Record UringStatsSnapshot := MkUringStats {
  stat_provided_buffer_enobufs_ : Z;
  stat_uring_window_id_ : Z;
  stat_buffer_pool_ : option BufferPoolStatsSnapshot
}.

Record ConnectionLoopStatsSnapshot := MkLoopStats {
  stat_uring_ : UringStatsSnapshot;
  stat_live_connections_ : Z;
  stat_pending_write_bytes_ : Z;
  stat_pending_write_bytes_peak_ : Z;
  stat_worker_results_enqueued_ : Z;
  stat_worker_results_drained_ : Z;
  stat_worker_result_drain_callbacks_ : Z;
  stat_worker_result_overflow_fallbacks_ : Z
}.

Record WorkerQueueStatsSnapshot := MkQueueStats {
  stat_queued_logical_jobs_ : Z;
  stat_pending_logical_jobs_ : Z;
  stat_queued_logical_jobs_peak_ : Z
}.

Record WorkerPoolStatsSnapshot := MkPoolStats {
  stat_pool_pending_ : Z;
  stat_window_id_ : Z;
  stat_queues_ : list WorkerQueueStatsSnapshot
}.

Record ServerStatsSnapshot := MkServerStats {
  stat_loops_ : list ConnectionLoopStatsSnapshot;
  stat_worker_pool_ : WorkerPoolStatsSnapshot
}.

Section facade.
Context {World Job : Type}.
Notation Impl := (@RpcServerImpl World Job).

(** [futures]: the answer of each loop, when it comes before the deadline. *)
Fixpoint collect_loops (futures : list (option ConnectionLoopStatsSnapshot))
    : option (list ConnectionLoopStatsSnapshot) :=
  match futures with
  | [] => Some []
  | None :: _ => None
  | Some x :: futures => xs ← collect_loops futures; Some (x :: xs)
  end.

(** [RpcServer::Impl::SnapshotStats].  [on_loop k] says whether the caller is the
    thread of loop [k]; the loops answer later, so that here only the peaks of the
    pool change. *)
Definition Impl_SnapshotStats (start_window : bool) (stats_window_id : Z) (on_loop : nat -> bool)
    (futures : list (option ConnectionLoopStatsSnapshot)) (s : Impl)
    : option (StatusOr ServerStatsSnapshot * Z * Impl) :=
  if negb (bool_decide (srv_state_ s = SrvRunning)) then
    Some (StatusOr_fail FailedPrecondition "statistics require a running server", stats_window_id, s)
  else if negb (forallb (fun x => x) (imap (fun k l => RequestStats_allowed (on_loop k) l) (srv_loops_ s))) then
    r ← StatusOr_error (CaughtExceptionToStatus (bs "failed to snapshot I/O statistics")
          (Some (LifecycleException (bs "statistics require a running loop and an external control thread"))));
    Some (r, stats_window_id, s)
  else
  let '(p, window_id, (pending, queues)) :=
    WorkerPool_SnapshotStats start_window stats_window_id (shared (srv_pool_ s)) in
  let s := set_pool (MkSystem p (submitters (srv_pool_ s)) (workers_ (srv_pool_ s)) (owner_ (srv_pool_ s))) s in
  match collect_loops futures with
  | None => Some (StatusOr_fail DeadlineExceeded "I/O statistics snapshot timed out", window_id, s)
  | Some loops =>
      Some (StatusOr_value (MkServerStats loops
              (MkPoolStats pending window_id (map (fun x => MkQueueStats x.1.1 x.1.2 x.2) queues))),
            window_id, s)
  end.

(** ** The facade *)

(** [impl_]; a server that was moved from has none, and using it is undefined. *)
Definition RpcServer : Type := option Impl.

(** The [catch (...)] around a call of the runtime. *)
Definition public_boundary (message : string) (thrown : option exn) (st : Status) : Status :=
  match thrown with Some e => CaughtExceptionToStatus (bs message) (Some e) | None => st end.

(** [RpcServer::Create] *)
Definition RpcServer_Create (submitters : nat) (hardware_concurrency : Z) (options : RpcServerOptions)
    (throws : option exn) : option (StatusOr Impl) :=
  CreateWithBufferPool submitters hardware_concurrency options UringBufferPoolConfig_default throws.

(** [thrown] is an exception of the runtime with the state it leaves. *)
Definition RpcServer_RegisterMethod (thrown : option (exn * Impl)) (registration : MethodRegistration World)
    (server : RpcServer) : option (Status * RpcServer) :=
  impl ← server;
  match thrown with
  | Some (e, impl) => Some (public_boundary "failed to register RPC method" (Some e) Status_Ok, Some impl)
  | None => let '(st, impl) := Impl_RegisterMethod registration impl in Some (st, Some impl)
  end.

(** [RegisterMethod<Request, Response>] *)
Definition RpcServer_RegisterMethod_typed {Request Response : Type}
    (ParseFromArray : bytes -> Z -> option Request) (SerializeToString : Response -> option bytes)
    (thrown : option (exn * Impl)) (service_name method_name : bytes)
    (func : World -> Request -> World * (Response + exn)) (server : RpcServer)
    : option (Status * RpcServer) :=
  let registration := MakeMethodRegistration ParseFromArray SerializeToString service_name method_name func in
  if negb (StatusOr_ok registration) then Some (so_status_ registration, server) else
  r ← StatusOr_get registration;
  RpcServer_RegisterMethod thrown r server.

(** [Listen]; [Run] is the steps of RpcServerImpl, its result passes the boundary. *)
Definition RpcServer_Listen (error_message : Z -> bytes) (inet_pton : bytes -> option Z) (host : byte_order)
    (thrown : option (exn * Impl)) (h : bytes) (port : Z) (server : RpcServer) : Sys (Status * RpcServer) :=
  impl ← sys_lift server;
  match thrown with
  | Some (e, impl) => mret (public_boundary "failed to listen" (Some e) Status_Ok, Some impl)
  | None => '(st, impl) ← Impl_Listen error_message inet_pton host h port impl; mret (st, Some impl)
  end.

Definition RpcServer_Run_result (thrown : option exn) (returned : Status) : Status :=
  public_boundary "server runtime failed" thrown returned.

Definition RpcServer_Stop (server : RpcServer) : option RpcServer :=
  impl ← server; Some (Some (Impl_Stop impl)).

Definition RpcServer_port (server : RpcServer) : option (StatusOr Z) :=
  impl ← server; Some (StatusOr_value (port_ impl)).

(** [ServerStatsAccess::Snapshot] *)
Definition ServerStatsAccess_Snapshot (start_window : bool) (stats_window_id : Z) (on_loop : nat -> bool)
    (futures : list (option ConnectionLoopStatsSnapshot)) (server : RpcServer)
    : option (StatusOr ServerStatsSnapshot * Z * RpcServer) :=
  match server with
  | None =>
      Some (StatusOr_fail FailedPrecondition "statistics requested from a moved-from server",
            stats_window_id, None)
  | Some impl =>
      '(r, id, impl) ← Impl_SnapshotStats start_window stats_window_id on_loop futures impl;
      Some (r, id, Some impl)
  end.

(** ** Properties *)

(** A method registered through the public interface is what dispatch runs.
    Before [Run], registering a pair that has no method yet succeeds, and requests
    for the pair go to the typed handler; a pair that has one keeps it; and once
    the server runs or stopped nothing changes and the status says so. *)
Theorem RpcServer_RegisterMethod_routes {Request Response} (parse : bytes -> Z -> option Request)
    (serialize : Response -> option bytes) service method func (impl : Impl) :
  exists st impl',
    RpcServer_RegisterMethod_typed parse serialize None service method func (Some impl) = Some (st, Some impl') /\
    srv_state_ impl' = srv_state_ impl /\
    ((srv_state_ impl = SrvCreated \/ srv_state_ impl = SrvListening) ->
       registered (srv_registry_ impl) service method = None ->
       st = Status_Ok /\
       registered (srv_registry_ impl') service method = Some (adapt_invoke (method_invoke parse serialize func))) /\
    (is_Some (registered (srv_registry_ impl) service method) \/
     (srv_state_ impl <> SrvCreated /\ srv_state_ impl <> SrvListening) ->
       code_ st <> Ok /\
       forall s m, registered (srv_registry_ impl') s m = registered (srv_registry_ impl) s m) /\
    (forall s m, (s, m) <> (service, method) ->
       registered (srv_registry_ impl') s m = registered (srv_registry_ impl) s m).
Proof.
  unfold RpcServer_RegisterMethod_typed, RpcServer_RegisterMethod, Impl_RegisterMethod. cbn [mbind option_bind].
  change (StatusOr_ok (MakeMethodRegistration parse serialize service method func)) with true. cbn.
  destruct (_ && _) eqn:E.
  { apply andb_prop in E as [E1 E2]. apply negb_true_iff, bool_decide_eq_false in E1, E2.
    do 2 eexists. split; [done|]. split_and!; try done; tauto. }
  assert (Hlive : srv_state_ impl = SrvCreated \/ srv_state_ impl = SrvListening).
  { apply andb_false_iff in E as [E|E]; apply negb_false_iff, bool_decide_eq_true in E; auto. }
  pose proof (registered_Register (srv_registry_ impl) service method (adapt_invoke (method_invoke parse serialize func))) as Hr.
  pose proof (Register_status (srv_registry_ impl) service method (adapt_invoke (method_invoke parse serialize func))) as Hst.
  pose proof (Register_ok_message (srv_registry_ impl) service method (adapt_invoke (method_invoke parse serialize func))) as Hm.
  destruct (ServiceRegistry_Register _ _ _ _) as [r st]. cbn in *. exists st, (set_registry r impl).
  split_and!; [done|done| | |].
  - intros _ Hn. rewrite bool_decide_true in Hst by done. split; [auto|]. cbn. rewrite Hr. by rewrite bool_decide_true.
  - intros [[h Hh]|?]; [|tauto]. rewrite bool_decide_false in Hst by (by rewrite Hh).
    split; [by apply Status_ok_false|]. intros s m. cbn. rewrite Hr. rewrite bool_decide_false; [done|].
    intros (-> & -> & ?). congruence.
  - intros s m Hne. cbn. rewrite Hr. rewrite bool_decide_false; [done|]. naive_solver.
Qed.

Lemma collect_loops_spec futures :
  match collect_loops futures with
  | Some l => futures = map Some l
  | None => None ∈ futures
  end.
Proof.
  induction futures as [|[x|] futures IH]; cbn; [done| |by left].
  destruct (collect_loops futures) as [l|]; cbn; [by rewrite IH|by right].
Qed.

(** The state of the pool that jobs depend on. *)
Definition pool_jobs (p : system Job) :=
  (map (fun q => (mutex_ q, jobs_ q, queued_logical_jobs_ q, pending_logical_jobs_ q)) (worker_queues_ (shared p)),
   pending_jobs_ (shared p), accepting_submissions_ (shared p), drain_requested_ (shared p),
   submitters p, workers_ p, owner_ p).

Lemma WorkerPool_SnapshotStats_reads start_window id (y : system Job) p id' x :
  WorkerPool_SnapshotStats start_window id (shared y) = (p, id', x) ->
  pool_jobs (MkSystem p (submitters y) (workers_ y) (owner_ y)) = pool_jobs y /\
  x.1 = pending_jobs_ (shared y) /\
  map (fun q => (q.1.1, q.1.2)) x.2 =
    map (fun q => (queued_logical_jobs_ q, pending_logical_jobs_ q)) (worker_queues_ (shared y)) /\
  (start_window = false -> id' = id /\ p = shared y).
Proof.
  unfold WorkerPool_SnapshotStats, pool_jobs. intros [= <- <- <-]. cbn. rewrite !map_map.
  split_and!; [by destruct start_window|done|by destruct start_window|].
  intros ->. split; [done|]. rewrite map_id. by destruct (shared y).
Qed.

(** Statistics return for every state of the server, succeed exactly when it runs,
    every loop can be asked and answers in time, and then hold the loops' answers
    and the counters of every worker queue.  Only peaks of the pool change, and
    only for a new window. *)
Theorem SnapshotStats_reads start_window id on_loop futures (s : Impl) :
  exists r id' s', Impl_SnapshotStats start_window id on_loop futures s = Some (r, id', s') /\
    (is_Some (so_value_ r) <->
       srv_state_ s = SrvRunning /\
       forallb (fun x => x) (imap (fun k l => RequestStats_allowed (on_loop k) l) (srv_loops_ s)) = true /\
       None ∉ futures) /\
    (forall v, so_value_ r = Some v ->
       futures = map Some (stat_loops_ v) /\
       map (fun q => (stat_queued_logical_jobs_ q, stat_pending_logical_jobs_ q)) (stat_queues_ (stat_worker_pool_ v))
         = map (fun q => (queued_logical_jobs_ q, pending_logical_jobs_ q)) (worker_queues_ (shared (srv_pool_ s))) /\
       stat_pool_pending_ (stat_worker_pool_ v) = pending_jobs_ (shared (srv_pool_ s))) /\
    s' = set_pool (srv_pool_ s') s /\ pool_jobs (srv_pool_ s') = pool_jobs (srv_pool_ s) /\
    (start_window = false -> id' = id /\ s' = s).
Proof.
  unfold Impl_SnapshotStats. destruct (decide (srv_state_ s = SrvRunning)) as [E|E].
  2: { rewrite bool_decide_false by done. cbn. do 3 eexists. split; [done|]. cbn.
       split_and!; try done; [split; [by intros [? ?]|tauto]|by destruct s]. }
  rewrite bool_decide_true by done. cbn [negb].
  destruct (forallb _ _) eqn:Ea; cbn [negb].
  2: { cbn. do 3 eexists. split; [done|]. cbn.
       split_and!; try done; [split; [by intros [? ?]|naive_solver]|by destruct s]. }
  pose proof (collect_loops_spec futures) as Hc.
  pose proof (WorkerPool_SnapshotStats_reads start_window id (srv_pool_ s)) as Hjobs.
  destruct (WorkerPool_SnapshotStats _ _ _) as [[p id'] [pending queues]].
  destruct (Hjobs p id' (pending, queues) eq_refl) as (Hj & Hp & Hq & Hs). clear Hjobs.
  assert (Hsame : start_window = false -> id' = id /\
    set_pool (MkSystem p (submitters (srv_pool_ s)) (workers_ (srv_pool_ s)) (owner_ (srv_pool_ s))) s = s).
  { intros E0. destruct (Hs E0) as [-> ->]. split; [done|]. destruct s as [? ? [] ? ? ? ? ? ? ? ? ? ? ? ? ? ?]. done. }
  destruct (collect_loops futures) as [l|]; (do 3 eexists; split; [done|]; cbn in *; split_and!; try done).
  - split; [|eauto]. intros _. split_and!; [done|done|]. rewrite Hc. intros H. apply list_elem_of_fmap in H as (? & ? & _). done.
  - intros v [= <-]. cbn. rewrite map_map. split_and!; done.
  - split; [by intros [? ?]|]. tauto.
Qed.

End facade.
