(* ===== verification/ServedConnection.v ===== *)
(** * A connection and the workers that serve it

    Composes one server connection ([ServerConnection]) with the workers that
    execute its batches: bytes arrive, batches of requests are handed to the
    pool, workers dispatch them ([ServiceRegistry]) in any order and at any time,
    and their results come back to the connection's loop.

    The connection is proved safe for events that release at most the requests
    in flight; here the workers are shown to produce only such events.  The bytes
    the connection sends are shown to be replies to requests that arrived: the
    encoded answer of dispatch, or a rejection for backpressure. *)

From S2P Require Import Prelude Status FrameHeader FrameCodec FrameStream ServiceRegistry ServerConfig ServerConnection ConnectionIoLoop.

Local Open Scope Z_scope.

(** ** What an operation does to the history of a connection *)

(** The operation hands [batches] to the pool, accepts the bytes [out] and changes
    the number of requests in flight by [n]; input and configuration stay. *)
Definition effect (n : Z) (batches : list (list RequestEnvelope)) (out : bytes)
    (c c' : ServerConnection) : Prop :=
  conn_config_ c' = conn_config_ c /\ frame_stream_ c' = frame_stream_ c /\
  inflight_requests_ c' = inflight_requests_ c + n /\
  submitted_batches c' = submitted_batches c ++ batches /\
  accepted_bytes c' = accepted_bytes c ++ out /\
  (state_ c' = Active -> state_ c = Active).

Abbreviation quiet := (effect 0 [] []).

Lemma effect_trans n1 n2 b1 b2 o1 o2 c1 c2 c3 :
  effect n1 b1 o1 c1 c2 -> effect n2 b2 o2 c2 c3 -> effect (n1 + n2) (b1 ++ b2) (o1 ++ o2) c1 c3.
Proof.
  intros (E1&E2&E3&E4&E5&E6) (F1&F2&F3&F4&F5&F6). unfold effect.
  rewrite F1, F2, F3, F4, F5, E1, E2, E3, E4, E5, !app_assoc. split_and!; [done..|lia|done|done|auto].
Qed.

Lemma effect_quiet n b o c1 c2 c3 : effect n b o c1 c2 -> quiet c2 c3 -> effect n b o c1 c3.
Proof.
  intros H1 H2. pose proof (effect_trans _ _ _ _ _ _ _ _ _ H1 H2) as H.
  by rewrite Z.add_0_r, !app_nil_r in H.
Qed.

Lemma quiet_effect n b o c1 c2 c3 : quiet c1 c2 -> effect n b o c2 c3 -> effect n b o c1 c3.
Proof. intros H1 H2. exact (effect_trans _ _ _ _ _ _ _ _ _ H1 H2). Qed.

Lemma frame_quiet c c' : frame c c' -> quiet c c'.
Proof.
  intros (E1&E2&E3&E4&E5&E6&E7&Hst). unfold effect. rewrite E1, E2, E3, E5, E7, Z.add_0_r, !app_nil_r.
  split_and!; try done. by destruct Hst as [-> | ->].
Qed.

Lemma quiet_refl c : quiet c c.
Proof. apply frame_quiet, frame_refl. Qed.

#[local] Hint Resolve frame_refl frame_quiet quiet_refl : core.

(** Steps through a computation in the option monad. *)
Ltac run H :=
  repeat (cbn [mbind option_bind] in H;
    match type of H with
    | context [mbind _ ?m] => let E := fresh "E" in destruct m eqn:E; [|discriminate H]
    end); cbn [mbind option_bind] in H.

(** *** The write side *)

Lemma frame_to c c' c'' :
  frame c c' -> conn_config_ c'' = conn_config_ c' -> inflight_requests_ c'' = inflight_requests_ c' ->
  frame_stream_ c'' = frame_stream_ c' -> read_point_ c'' = read_point_ c' ->
  accepted_bytes c'' = accepted_bytes c' -> sent_bytes c'' = sent_bytes c' ->
  submitted_batches c'' = submitted_batches c' -> state_ c'' = state_ c' -> frame c c''.
Proof. unfold frame. intros (?&?&?&?&?&?&?&[?|?]); intros; split_and!; try congruence; [left|right]; congruence. Qed.

Lemma Release_frame n c c' : ReleaseWriteBytes n c = Some c' -> frame c c'.
Proof.
  unfold ReleaseWriteBytes. case_match; [done|]. intros Hr. run Hr. injection Hr as <-.
  by eapply frame_to.
Qed.

Lemma Close_with_frame wake c c' :
  (forall a b, wake a = Some b -> frame a b) -> Close_with wake c = Some c' ->
  frame c c' /\ state_ c' = Closed.
Proof.
  intros Hwake. unfold Close_with. destruct (is_closed c) eqn:Ec.
  - intros [= <-]. split; [done|]. unfold is_closed in Ec. by apply bool_decide_eq_true in Ec.
  - intros Hr. run Hr. injection Hr as <-. apply Hwake in E0 as (?&?&?&?&?&?&?&Hst). cbn in *.
    assert (state_ s = Closed) as Hcl by (by destruct Hst as [-> | ->]).
    split; [|done]. unfold frame. cbn. split_and!; auto.
Qed.

Lemma TryFinishDrain_with_frame wake c c' :
  (forall a b, wake a = Some b -> frame a b) -> TryFinishDrain_with wake c = Some c' -> frame c c'.
Proof.
  intros Hwake. unfold TryFinishDrain_with. case_match; [by intros [= <-]|]. case_match; [|by intros [= <-]].
  case_match; [done|]. intros H2. by apply (Close_with_frame wake).
Qed.

Lemma WriteLoop_run_frame fuel send_ok inner c c' :
  WriteLoop_run fuel send_ok inner c = Some c' -> frame c c'.
Proof.
  revert inner c c'. induction fuel as [|fuel IH]; intros inner c c'; [done|].
  rewrite WriteLoop_run_S. cbv zeta. 
  set (wake := fun c0 => if write_queue_waiter_ c0
    then WriteLoop_run fuel send_ok true (set_write false WriteRunning c0) else Some c0).
  assert (Hwake : forall a b, wake a = Some b -> frame a b).
  { intros a b. unfold wake. case_match; [|by intros [= <-]]. intros Hrun%IH. exact Hrun. }
  destruct inner; cbn [negb].
  - case_match.
    + intros Hr. run Hr. destruct p as [batch c1].
      assert (Hf : frame c c1).
      { unfold TakeWriteBatch in E. destruct (write_queue_ c); [done|]. destruct (coalesce _ _). injection E as _ <-. by eapply frame_to. }
      case_match.
      * destruct send_ok; [injection Hr as <-; by eapply frame_to|]. run Hr. injection Hr as <-.
        apply Release_frame in E0. apply (Close_with_frame wake) in E1 as [E1 _]; [|done].
        eapply frame_trans; [exact Hf|]. eapply frame_trans; [exact E0|]. by eapply frame_to.
      * run Hr. apply Release_frame in E0. apply IH in Hr. eauto using frame_trans.
    + intros Hr. run Hr. apply (TryFinishDrain_with_frame wake) in E; [|done]. apply IH in Hr. eauto using frame_trans.
  - case_match; [intros [= <-]; by eapply frame_to|]. case_match; [apply IH|]. case_match; [done|].
    intros [= <-]. by eapply frame_to.
Qed.

Lemma WakeWriteLoop_frame send_ok c c' : WakeWriteLoop send_ok c = Some c' -> frame c c'.
Proof. unfold WakeWriteLoop. case_match; [by intros [= <-]|]. intros Hr%WriteLoop_run_frame. exact Hr. Qed.

Lemma Close_frame send_ok c c' : Close send_ok c = Some c' -> frame c c' /\ state_ c' = Closed.
Proof. apply Close_with_frame, WakeWriteLoop_frame. Qed.

Lemma TryFinishDrain_frame send_ok c c' : TryFinishDrain send_ok c = Some c' -> frame c c'.
Proof. apply TryFinishDrain_with_frame, WakeWriteLoop_frame. Qed.

Lemma TryReserve_frame send_ok n c ok c' : TryReserveWriteBytes send_ok n c = Some (ok, c') ->
  frame c c' /\ (ok = false -> state_ c' = Closed).
Proof.
  unfold TryReserveWriteBytes. case_match; [done|]. case_match; intros Hr; run Hr; injection Hr as <- <-.
  - by destruct (Close_frame _ _ _ E).
  - split; [by eapply frame_to|done].
Qed.

Lemma EnqueueWrite_effect send_ok data c ok c' :
  EnqueueWrite send_ok data c = Some (ok, c') ->
  effect 0 [] (if ok then data else []) c c' /\ (ok = false -> state_ c' = Closed).
Proof.
  unfold EnqueueWrite. destruct (is_closed c) eqn:Ec.
  { intros [= <- <-]. split; [done|]. intros _. by apply bool_decide_eq_true in Ec. }
  intros Hr. run Hr. destruct p as [[] c1]; cbn in Hr; apply TryReserve_frame in E as [E%frame_quiet Hcl].
  - run Hr. injection Hr as <- <-. split; [|done]. apply WakeWriteLoop_frame, frame_quiet in E0.
    eapply quiet_effect; [exact E|]. eapply effect_quiet; [|exact E0].
    unfold effect. cbn. rewrite Z.add_0_r, app_nil_r. done.
  - by injection Hr as <- <-.
Qed.

Lemma OnSendComplete_quiet send_ok result c c' : OnSendComplete send_ok result c = Some c' -> quiet c c'.
Proof.
  unfold OnSendComplete. case_match; try done.
  assert (Hclose : forall c1 c2 c3, quiet c c1 -> ReleaseWriteBytes (len batch) c1 = Some c2 ->
    Close send_ok c2 = Some c3 -> quiet c (set_write (write_queue_waiter_ c3) WriteDone c3)).
  { intros c1 c2 c3 H1 H2%Release_frame%frame_quiet [H3%frame_quiet _]%Close_frame.
    eapply effect_quiet; [exact H1|]. eapply effect_quiet; [exact H2|]. exact H3. }
  case_match; [intros [= <-]; exact (quiet_refl c)|]. case_match.
  { intros Hr. run Hr. injection Hr as <-. eapply Hclose; [|done|done]. exact (quiet_refl c). }
  case_match.
  - destruct send_ok; [intros [= <-]; exact (quiet_refl c)|]. intros Hr. run Hr. injection Hr as <-.
    eapply Hclose; [|done|done]. exact (quiet_refl c).
  - intros Hr. run Hr. apply Release_frame, frame_quiet in E. apply WriteLoop_run_frame, frame_quiet in Hr.
    eapply (effect_quiet _ _ _ c); [|exact Hr]. eapply (effect_quiet _ _ _ c); [|exact E]. exact (quiet_refl c).
Qed.

Lemma BeginDrain_quiet send_ok c c' : BeginDrain send_ok c = Some c' -> quiet c c'.
Proof.
  unfold BeginDrain. destruct (decide (state_ c = Active)) as [Ha|Ha].
  - rewrite bool_decide_true by done. cbn [negb]. intros Hr%TryFinishDrain_frame%frame_quiet.
    eapply quiet_effect; [|exact Hr]. unfold effect. destruct (socket_open _); cbn; by rewrite Z.add_0_r, !app_nil_r.
  - rewrite bool_decide_false by done. by intros [= <-].
Qed.

Section served.
Context {W : Wire} {L : WireLaws W} {World : Type} (registry : ServiceRegistry World).

(** ** Replies *)

(** What dispatch and the codec need of the handlers. *)
Definition registry_ok : Prop := forall w request w' y,
  ServiceRegistry_Dispatch registry w request = Some (w', y) ->
  resp_request_id_ y = req_request_id_ request /\
  proto_text (message_ (resp_status_ y)) /\ len (message_ (resp_status_ y)) + 17 <= INT_MAX.

Definition backpressure_messages : list bytes :=
  [bs "server per-connection in-flight limit exceeded"; bs "server global pending job limit exceeded"].

Definition rejection (request : RequestEnvelope) (message : bytes) : ResponseEnvelope :=
  MkResponseEnvelope (req_request_id_ request) (MkStatus ResourceExhausted message) [].

(** A reply is what some worker's dispatch returned, or a rejection. *)
Inductive reply (request : RequestEnvelope) : ResponseEnvelope -> Prop :=
  | reply_answer w w' y : ServiceRegistry_Dispatch registry w request = Some (w', y) -> reply request y
  | reply_rejected message : message ∈ backpressure_messages -> reply request (rejection request message).

Definition reply_frame (limits : ProtocolLimits) (request : RequestEnvelope) (frame : bytes) : Prop :=
  exists y, reply request y /\ FrameCodec_EncodeResponse limits y = Some (StatusOr_value frame).

(** The bytes [out] are one encoded reply to each of the requests, in this order. *)
Definition replies (limits : ProtocolLimits) (requests : list RequestEnvelope) (out : bytes) : Prop :=
  exists frames, out = concat frames /\ Forall2 (reply_frame limits) requests frames.

Definition id_ok (request : RequestEnvelope) : Prop := is_u 64 (req_request_id_ request).

Lemma replies_nil limits : replies limits [] [].
Proof. by exists []. Qed.

Lemma replies_app limits rs1 o1 rs2 o2 :
  replies limits rs1 o1 -> replies limits rs2 o2 -> replies limits (rs1 ++ rs2) (o1 ++ o2).
Proof.
  intros (f1 & -> & H1) (f2 & -> & H2). exists (f1 ++ f2). rewrite concat_app. split; [done|].
  by apply Forall2_app.
Qed.

Lemma Encode_value limits y r frame :
  is_u 64 (resp_request_id_ y) -> FrameCodec_EncodeResponse limits y = Some r -> so_value_ r = Some frame ->
  FrameCodec_EncodeResponse limits y = Some (StatusOr_value frame).
Proof.
  intros Hid. rewrite EncodeResponse_spec by done. cbv zeta. case_bool_decide; [|by intros [= <-]].
  intros [= <-]. by intros [= <-].
Qed.

Lemma reply_facts request y :
  registry_ok -> reply request y ->
  resp_request_id_ y = req_request_id_ request /\
  proto_text (message_ (resp_status_ y)) /\ len (message_ (resp_status_ y)) + 17 <= INT_MAX.
Proof.
  intros Hreg [w w' y0 Hd|message Hm]; [by eapply Hreg|]. split; [done|]. unfold backpressure_messages in Hm.
  rewrite !elem_of_cons, elem_of_nil in Hm. destruct Hm as [->|[->|[]]];
    (split; [apply proto_text_ascii; vm_compute; repeat constructor|by vm_compute]).
Qed.

Lemma reply_frame_nonempty limits request frame :
  registry_ok -> id_ok request -> reply_frame limits request frame -> frame <> [].
Proof.
  intros Hreg Hid (y & Hy & He) ->. destruct (reply_facts request y Hreg Hy) as [Hyid _].
  apply EncodeResponse_value in He as [_ E]; [|by rewrite Hyid].
  pose proof (len_frame_bytes MessageType_Response (resp_request_id_ y) (EncodeResponseMetadata y) (resp_payload_ y)) as Hl.
  rewrite <- E, len_nil in Hl. pose proof (len_nonneg (EncodeResponseMetadata y)).
  pose proof (len_nonneg (resp_payload_ y)). lia.
Qed.

Lemma replies_nonempty limits requests out :
  registry_ok -> Forall id_ok requests -> requests <> [] -> replies limits requests out -> out <> [].
Proof.
  intros Hreg Hids Hne (frames & -> & Hall). destruct Hall as [|request frame requests frames Hf _]; [done|].
  apply Forall_cons in Hids as [Hid _]. pose proof (reply_frame_nonempty _ _ _ Hreg Hid Hf). by destruct frame.
Qed.

(** *** Handling what was received *)

Abbreviation limits_of c := (conn_protocol_limits_ (conn_config_ c)).

Lemma Reject_effect send_ok message request c ok c' :
  id_ok request -> message ∈ backpressure_messages ->
  RejectForBackpressure send_ok message request c = Some (ok, c') ->
  exists out, effect 0 [] out c c' /\ replies (limits_of c) (if ok then [request] else []) out /\
    (ok = false -> state_ c' = Closed).
Proof.
  intros Hid Hm. unfold RejectForBackpressure. fold (rejection request message). intros Hr. run Hr.
  destruct (StatusOr_ok s) eqn:Eok; cbn [negb] in Hr.
  - destruct (StatusOr_get s) as [data|] eqn:Eg; [|done]. apply EnqueueWrite_effect in Hr as [Hr Hcl]. eexists. split; [exact Hr|]. split; [|done].
    destruct ok; [|apply replies_nil]. exists [data]. cbn. rewrite app_nil_r. split; [done|].
    constructor; [|done]. exists (rejection request message). split; [by constructor|]. by eapply Encode_value.
  - run Hr. injection Hr as <- <-. apply Close_frame in E0 as [?%frame_quiet ?]. exists []. split_and!; try done.
    apply replies_nil.
Qed.

Lemma RejectAll_effect send_ok message requests c ok c' :
  Forall id_ok requests -> message ∈ backpressure_messages ->
  RejectAll send_ok message requests c = Some (ok, c') ->
  exists rejected out, effect 0 [] out c c' /\ replies (limits_of c) rejected out /\
    rejected `prefix_of` requests /\ (if ok then rejected = requests else state_ c' = Closed).
Proof.
  intros Hids Hm. revert c. induction Hids as [|request requests Hid _ IH]; intros c; cbn [RejectAll].
  { intros [= <- <-]. exists [], []. split_and!; try done. apply replies_nil. }
  intros Hr. run Hr. destruct p as [ok1 c1]. apply Reject_effect in E as (o1 & H1 & Hr1 & Hcl); [|done..].
  destruct ok1.
  - destruct (IH c1 Hr) as (rejected & o2 & H2 & Hr2 & Hpre & Hok). exists (request :: rejected), (o1 ++ o2).
    split_and!.
    + exact (effect_trans _ _ _ _ _ _ _ _ _ H1 H2).
    + apply (replies_app _ [request]); [done|]. by rewrite <- (proj1 H1).
    + by apply prefix_cons.
    + destruct ok; [by rewrite Hok|done].
  - injection Hr as <- <-. exists [], o1. split_and!; auto. apply prefix_nil.
Qed.

(** The requests of one feed: submitted, rejected, or lost because the connection
    stops taking requests. *)
Definition taken (requests : list RequestEnvelope) (c c' : ServerConnection) : Prop :=
  exists batches rejected out,
    effect (len (concat batches)) batches out c c' /\ replies (limits_of c) rejected out /\
    rejected ++ concat batches `prefix_of` requests /\
    (state_ c' = Active -> rejected ++ concat batches = requests).

Lemma taken_none requests c c' : quiet c c' -> (state_ c' = Active -> requests = []) -> taken requests c c'.
Proof.
  intros Hq Hst. exists [], [], []. split_and!; [exact Hq|apply replies_nil|apply prefix_nil|].
  intros Ha. by rewrite Hst.
Qed.

Lemma taken_quiet requests c1 c2 c3 : taken requests c1 c2 -> quiet c2 c3 -> taken requests c1 c3.
Proof.
  intros (batches & rejected & out & He & Hr & Hp & Ha) Hq. exists batches, rejected, out.
  split_and!; [by eapply effect_quiet|done|done|]. intros H3. apply Ha. by apply Hq.
Qed.

Lemma taken_rejected send_ok message requests c ok c' :
  Forall id_ok requests -> message ∈ backpressure_messages ->
  RejectAll send_ok message requests c = Some (ok, c') -> taken requests c c'.
Proof.
  intros Hids Hm Hr. apply RejectAll_effect in Hr as (rejected & out & He & Hr & Hp & Hok); [|done..].
  exists [], rejected, out. cbn. rewrite app_nil_r. split_and!; try done. intros Ha. destruct ok; [done|congruence].
Qed.

Lemma HandleFeedResult_taken send_ok answer feed c ok c' :
  0 <= inflight_requests_ c <= max_inflight_ (limits_ (conn_config_ c)) ->
  max_inflight_ (limits_ (conn_config_ c)) < 2 ^ 64 ->
  batch_wf (requests_ feed) -> Forall id_ok (batch_list (requests_ feed)) ->
  HandleFeedResult send_ok answer feed c = Some (ok, c') ->
  taken (batch_list (requests_ feed)) c c' /\ (feed_closed_ feed = true -> state_ c' = Closed).
Proof.
  intros Hinf Hmax Hwf Hids. unfold HandleFeedResult. destruct (feed_closed_ feed).
  { intros Hr. run Hr. injection Hr as <- <-. apply Close_frame in E as [?%frame_quiet ?]. split; [|done].
    apply taken_none; [done|congruence]. }
  assert (RequestEnvelopeBatch_size (requests_ feed) = len (batch_list (requests_ feed))) as ->.
  { unfold RequestEnvelopeBatch_size, batch_list, batch_wf in *.
    destruct (first_request_ (requests_ feed)); [by rewrite len_cons|lia]. }
  set (rs := batch_list (requests_ feed)) in *. pose proof (len_nonneg rs).
  intros Hr. split; [|done]. destruct (Z.eqb_spec (len rs) 0) as [E0|E0].
  { injection Hr as _ <-. apply taken_none; [done|]. intros _. by apply len_0_nil. }
  rewrite (proj2 (Z.leb_le _ _)) in Hr by lia. cbn [negb] in Hr. rewrite sub64_small in Hr by lia.
  destruct (Z.ltb_spec (max_inflight_ (limits_ (conn_config_ c)) - inflight_requests_ c) (len rs)) as [Hlt|Hge].
  { eapply taken_rejected; [done| |exact Hr]. left. }
  unfold SubmitRequestBatch in Hr. case_match; [done|]. destruct (accepted answer); cbn [negb] in Hr.
  - injection Hr as <- <-. exists [rs], [], []. cbn. rewrite app_nil_r, add64_small by lia. split_and!; [|apply replies_nil|done..].
    unfold effect. cbn. by rewrite app_nil_r.
  - destruct (accepting_submissions answer); cbn [negb] in Hr.
    + eapply taken_rejected; [done| |exact Hr]. right. left.
    + run Hr. injection Hr as <- <-. apply taken_none; [by eapply BeginDrain_quiet|].
      assert (state_ s <> Active); [|done]. unfold BeginDrain in E.
      destruct (decide (state_ c = Active)) as [Ha|Ha].
      * rewrite bool_decide_true in E by done. cbn [negb] in E. apply TryFinishDrain_frame in E as (_&_&_&_&_&_&_&Hst).
        revert Hst. destruct (socket_open _); cbn; intros [-> | ->]; done.
      * rewrite bool_decide_false in E by done. by injection E as <-.
Qed.

Lemma ReadLoop_next_quiet send_ok recv_ok c c' : ReadLoop_next send_ok recv_ok c = Some c' -> quiet c c'.
Proof.
  unfold ReadLoop_next. case_match; [destruct recv_ok|].
  - intros [= <-]. exact (quiet_refl c).
  - intros Hr. run Hr. injection Hr as <-. apply Close_frame in E as [E%frame_quiet _].
    apply TryFinishDrain_frame, frame_quiet in E0. eapply effect_quiet; [exact E|exact E0].
  - intros Hr. run Hr. injection Hr as <-. by apply TryFinishDrain_frame, frame_quiet in E.
Qed.

Lemma finish_quiet send_ok c c' :
  (c0 ← TryFinishDrain send_ok c; Some (set_read ReadDone c0)) = Some c' -> quiet c c'.
Proof. intros Hr. run Hr. injection Hr as <-. by apply TryFinishDrain_frame, frame_quiet in E. Qed.

(** A receive feeds the stream, or ends the reading. *)
Lemma OnRecvComplete_taken send_ok recv_ok answer result c c' :
  0 <= inflight_requests_ c <= max_inflight_ (limits_ (conn_config_ c)) ->
  max_inflight_ (limits_ (conn_config_ c)) < 2 ^ 64 -> stream_wf (frame_stream_ c) ->
  (forall capacity data, result = RecvBytes capacity data -> stream_held (frame_stream_ c) + len data < 2 ^ 64) ->
  OnRecvComplete send_ok recv_ok answer result c = Some c' ->
  (quiet c c' /\ state_ c' <> Active) \/
  exists capacity data st feed, result = RecvBytes capacity data /\ state_ c = Active /\
    FeedBytes capacity (frame_stream_ c) data = Some (st, feed) /\
    taken (batch_list (requests_ feed)) (set_stream st c) c' /\ (feed_closed_ feed = true -> state_ c' = Closed).
Proof.
  intros Hinf Hmax Hwf Hsz. unfold OnRecvComplete. destruct (read_point_ c); try done.
  set (c1 := set_read ReadRunning c). destruct (decide (state_ c = Active)) as [Ha|Ha].
  2: { rewrite (bool_decide_false (state_ c1 = Active)) by done. cbn [negb]. intros Hr%finish_quiet. left.
       split; [exact Hr|]. intros H. by apply Hr in H. }
  rewrite (bool_decide_true (state_ c1 = Active)) by done. cbn [negb]. destruct result as [| |capacity data].
  - intros Hr. cbn [mbind option_bind] in Hr. destruct (Close send_ok c1) as [c2|] eqn:Ec; [|done].
    apply Close_frame in Ec as [Ec%frame_quiet Hcl]. apply finish_quiet in Hr. left. split.
    + eapply effect_quiet; [exact Ec|exact Hr].
    + intros H. apply Hr in H. congruence.
  - intros Hr%finish_quiet. left. split; [|intros H; by apply Hr in H].
    eapply quiet_effect; [|exact Hr]. unfold effect. cbn. by rewrite Z.add_0_r, !app_nil_r.
  - destruct (FeedBytes_returns capacity (frame_stream_ c) data Hwf (Hsz _ _ eq_refl))
      as (st & feed & Ef & _ & _ & Hbwf & Hids). change (frame_stream_ c1) with (frame_stream_ c). rewrite Ef.
    cbn [mbind option_bind]. intros Hr. right. exists capacity, data, st, feed. split_and!; [done..| |].
    + destruct (HandleFeedResult _ _ _ _) as [[ok c2]|] eqn:Eh; [|done].
      apply HandleFeedResult_taken in Eh as [Ht _]; [|done..]. cbn [mbind option_bind] in Hr.
      apply (taken_quiet _ (set_stream st c) c2); [exact Ht|].
      destruct ok; cbn [negb] in Hr; [by eapply ReadLoop_next_quiet|by eapply finish_quiet].
    + intros Hc. destruct (HandleFeedResult _ _ _ _) as [[ok c2]|] eqn:Eh; [|done].
      apply HandleFeedResult_taken in Eh as [_ Hcl]; [|done..]. specialize (Hcl Hc). cbn [mbind option_bind] in Hr.
      destruct ok; cbn [negb] in Hr.
      * unfold ReadLoop_next in Hr. rewrite bool_decide_false in Hr by congruence.
        run Hr. injection Hr as <-. apply TryFinishDrain_frame in E as (_&_&_&_&_&_&_&[E|E]); cbn; congruence.
      * run Hr. injection Hr as <-. apply TryFinishDrain_frame in E as (_&_&_&_&_&_&_&[E|E]); cbn; congruence.
Qed.

(** *** Worker results *)

Lemma ReleaseInflight_effect n c c' :
  0 <= n -> inflight_requests_ c < 2 ^ 64 -> ReleaseInflightRequests n c = Some c' ->
  effect (- n) [] [] c c'.
Proof.
  intros Hn Hi. unfold ReleaseInflightRequests. destruct (Z.leb_spec n (inflight_requests_ c)); [|done].
  intros [= <-]. rewrite sub64_small by lia. unfold effect. cbn. rewrite !app_nil_r. split_and!; try done.
Qed.

(** The responses are accepted, or the connection is closed. *)
Lemma OnResponsesEncoded_effect send_ok alloc_ok data n c c' :
  0 <= n -> inflight_requests_ c < 2 ^ 64 -> OnResponsesEncoded send_ok alloc_ok data n c = Some c' ->
  effect (- n) [] data c c' \/ (effect (- n) [] [] c c' /\ state_ c' = Closed).
Proof.
  intros Hn Hi. unfold OnResponsesEncoded. intros Hr. cbn [mbind option_bind] in Hr.
  destruct (ReleaseInflightRequests n c) as [c1|] eqn:E1; [|done]. cbn [mbind option_bind] in Hr.
  apply ReleaseInflight_effect in E1; [|done..]. destruct (is_closed c1) eqn:Ec.
  { injection Hr as <-. right. split; [done|]. by apply bool_decide_eq_true in Ec. }
  destruct alloc_ok; run Hr; apply TryFinishDrain_frame in Hr; pose proof Hr as (_&_&_&_&_&_&_&Hst);
    apply frame_quiet in Hr.
  - destruct (EnqueueWrite send_ok data c1) as [[ok c2]|] eqn:Ee; [|done]. injection E as <-.
    apply EnqueueWrite_effect in Ee as [Ee Hcl]. pose proof (effect_quiet _ _ _ _ _ _
      (effect_trans _ _ _ _ _ _ _ _ _ E1 Ee) Hr) as H. rewrite Z.add_0_r in H. destruct ok; [left; exact H|].
    right. split; [exact H|]. rewrite (Hcl eq_refl) in Hst. by destruct Hst.
  - destruct (TryReserveWriteBytes send_ok (len data) c1) as [[ok c2]|] eqn:Ee; [|done]. cbn in E.
    apply TryReserve_frame in Ee as [Ee%frame_quiet _]. apply Close_frame in E as [E%frame_quiet Hcl]. right.
    split; [|rewrite Hcl in Hst; by destruct Hst].
    eapply effect_quiet; [|exact Hr]. eapply effect_quiet; [|exact E]. by eapply effect_quiet.
Qed.

Lemma OnResponseEncodeFailure_effect send_ok n c c' :
  0 <= n -> inflight_requests_ c < 2 ^ 64 -> OnResponseEncodeFailure send_ok n c = Some c' ->
  effect (- n) [] [] c c' /\ state_ c' = Closed.
Proof.
  intros Hn Hi. unfold OnResponseEncodeFailure. intros Hr. run Hr. apply ReleaseInflight_effect in E; [|done..].
  apply Close_frame in Hr as [Hr%frame_quiet Hcl]. split; [|done]. by eapply effect_quiet.
Qed.

(** What a posted result owes: it releases these requests, and unless it reports a
    failure it holds a reply to each of them. *)
Definition result_ok (limits : ProtocolLimits) (owed : list RequestEnvelope) (r : WorkerResult) : Prop :=
  owed <> [] /\ released_requests_ r = len owed /\
  (encode_failed_ r = false -> replies limits owed (response_bytes_ r)).

Lemma dispatched_replies limits w batch w' ys frames :
  registry_ok -> Forall id_ok batch -> dispatched registry w batch w' ys ->
  Forall2 (fun y frame => exists r, FrameCodec_EncodeResponse limits y = Some r /\ so_value_ r = Some frame) ys frames ->
  Forall2 (reply_frame limits) batch frames.
Proof.
  intros Hreg Hids Hd. revert frames. induction Hd as [w|w q w1 y qs w2 ys Hq _ IH]; intros frames Hf.
  - by inversion Hf; subst.
  - inversion Hf as [|? frame ? frames' (r & Hr & Hv) Hf']; subst. apply Forall_cons in Hids as [Hid Hids].
    constructor; [|by apply IH]. exists y. split; [by econstructor|]. eapply Encode_value; [|done|done].
    by destruct (Hreg w q w1 y Hq) as [-> _].
Qed.

(** A batch on a worker thread is released exactly once, in one or two results. *)
Lemma Execute_results limits id w batch w' results :
  registry_ok -> Forall id_ok batch -> len batch < 2 ^ 64 ->
  ExecuteRequestBatchOnWorker id registry limits w batch = Some (w', results) ->
  exists owed, concat owed = batch /\ Forall2 (result_ok limits) owed results.
Proof.
  intros Hreg Hids Hlen. unfold ExecuteRequestBatchOnWorker.
  destruct (execute_loop registry limits w [] 0 batch) as [[[w1 b1] n1]|] eqn:El; [|done]. cbn [mbind option_bind].
  destruct (execute_loop_spec _ _ _ _ _ _ _ _ _ El) as (handled & rest & ys & fs & w0 & -> & Hd & Hf & -> & ->).
  apply Forall_app in Hids as [Hids _]. pose proof (dispatched_replies _ _ _ _ _ _ Hreg Hids Hd Hf) as Hfr.
  intros [= _ <-]. rewrite len_app in *. pose proof (len_nonneg handled). pose proof (len_nonneg rest).
  rewrite Z.add_0_l, sub64_small by lia. replace (len handled + len rest - len handled) with (len rest) by lia.
  assert (Hne : forall l : list RequestEnvelope, 0 < len l -> l <> []) by (intros l Hl E; rewrite E in Hl; by vm_compute in Hl).
  exists ((if 0 <? len handled then [handled] else []) ++ (if len handled <? len handled + len rest then [rest] else [])).
  split.
  - destruct (Z.ltb_spec 0 (len handled)); destruct (Z.ltb_spec (len handled) (len handled + len rest)); cbn;
      rewrite ?app_nil_r; try done.
    + rewrite (len_0_nil rest) by lia. by rewrite app_nil_r.
    + rewrite (len_0_nil handled) by lia. done.
    + rewrite (len_0_nil handled), (len_0_nil rest) by lia. done.
  - apply Forall2_app.
    + destruct (Z.ltb_spec 0 (len handled)); constructor; [|done]. split_and!; [by apply Hne|done|]. intros _. by exists fs.
    + destruct (Z.ltb_spec (len handled) (len handled + len rest)); constructor; [|done].
      split_and!; [apply Hne; lia|done|done].
Qed.

(** ** The composed system *)

(** A connection, the bytes that reached it, the batches handed to the pool and
    not executed yet, and the results posted and not delivered yet. *)
Record served := MkServed {
  sv_conn : ServerConnection;
  sv_received : bytes;
  sv_waiting : list (list RequestEnvelope);
  sv_results : list WorkerResult
}.

Definition io_event (e : event) : Prop :=
  match e with EvResponses _ _ _ | EvEncodeFailure _ => False | _ => True end.

Definition event_bytes (e : event) : bytes :=
  match e with EvRecv _ (RecvBytes _ data) => data | _ => [] end.

(** An event of the socket or of the server; a worker executes any waiting batch in
    the world it finds; a posted result (that fits memory) is delivered. *)
Inductive serve_step : served -> served -> Prop :=
  | serve_event send_ok recv_ok e c c' received waiting results :
      io_event e -> enabled e c -> handle send_ok recv_ok e c = Some c' ->
      serve_step (MkServed c received waiting results)
        (MkServed c' (received ++ event_bytes e)
           (waiting ++ drop (length (submitted_batches c)) (submitted_batches c')) results)
  | serve_execute id w w' batch before after c received results posted :
      ExecuteRequestBatchOnWorker id registry (limits_of c) w batch = Some (w', posted) ->
      serve_step (MkServed c received (before ++ batch :: after) results)
        (MkServed c received (before ++ after) (results ++ posted))
  | serve_deliver send_ok recv_ok alloc_ok r before after c c' received waiting :
      len (response_bytes_ r) < 2 ^ 64 ->
      handle send_ok recv_ok (result_event alloc_ok r) c = Some c' ->
      serve_step (MkServed c received waiting (before ++ r :: after))
        (MkServed c' received waiting (before ++ after)).

Definition served_reachable (rest live : Z) (config : ServerConnectionConfig) (s : served) : Prop :=
  config_ok config /\ 0 <= rest /\ 0 <= live /\
  rest + max_write_queue_bytes_ (limits_ config) < 2 ^ 64 /\
  exists a send_ok recv_ok c0,
    loop_pending_write_bytes_ a = rest /\ live_connections_ a = live + 1 /\
    ServerConnection_Start send_ok recv_ok (ServerConnection_new config a) = Some c0 /\
    rtc serve_step (MkServed c0 [] [] []) s.

(** *** The invariant *)

(** The requests are those the stream decoded from what arrived; while the
    connection is active it has decoded everything that arrived. *)
Definition decoded (requests : list RequestEnvelope) (c : ServerConnection) (received : bytes) : Prop :=
  exists fed, fed `prefix_of` received /\
    (state_ c = Active -> fed = received /\ stream_closed_ (frame_stream_ c) = false) /\
    Parses (limits_of c) fed requests (stream_readable (frame_stream_ c)) (stream_closed_ (frame_stream_ c)).

(** Every request is in at most one of the given places, and in one of them while
    the connection is active. *)
Definition placed (requests places : list RequestEnvelope) (c : ServerConnection) : Prop :=
  places ⊆+ requests /\ (state_ c = Active -> places ≡ₚ requests).

(** [replied] and [owed] say which requests the accepted bytes and the posted
    results are for. *)
Record served_inv (rest live : Z) (requests replied : list RequestEnvelope)
    (owed : list (list RequestEnvelope)) (s : served) : Prop := {
  si_conn : conn_inv rest live (sv_conn s);
  si_decoded : decoded requests (sv_conn s) (sv_received s);
  si_replied : replies (limits_of (sv_conn s)) replied (accepted_bytes (sv_conn s));
  si_owed : Forall2 (result_ok (limits_of (sv_conn s))) owed (sv_results s);
  si_placed : placed requests (replied ++ concat (sv_waiting s) ++ concat owed) (sv_conn s);
  si_inflight : inflight_requests_ (sv_conn s) = len (concat (sv_waiting s)) + len (concat owed)
}.

Lemma placed_perm requests places places' c c' :
  (state_ c' = Active -> state_ c = Active) -> places' ≡ₚ places -> placed requests places c -> placed requests places' c'.
Proof. intros Hst Hp [Hs Ha]. split; [by rewrite Hp|]. intros H. rewrite Hp. auto. Qed.

Lemma placed_lost requests places places' c c' :
  state_ c' <> Active -> places' ⊆+ places -> placed requests places c -> placed requests places' c'.
Proof. intros Hst Hp [Hs Ha]. split; [by etrans|done]. Qed.

Lemma decoded_ids requests c received : decoded requests c received -> Forall id_ok requests.
Proof. intros (fed & _ & _ & HP). by eapply Parses_ids. Qed.

(** Steps that do not read. *)
Lemma decoded_effect n batches out requests c c' received :
  effect n batches out c c' -> decoded requests c received -> decoded requests c' received.
Proof.
  intros (E1 & E2 & _ & _ & _ & Hst) (fed & Hp & Ha & HP). exists fed. rewrite E1, E2. split_and!; auto.
Qed.

(** Bytes that arrive at a connection that reads no more. *)
Lemma decoded_more requests c received more :
  state_ c <> Active -> decoded requests c received -> decoded requests c (received ++ more).
Proof. intros Hst (fed & Hp & _ & HP). exists fed. split_and!; [by apply prefix_app_r|done|done]. Qed.

Lemma decoded_feed requests c received capacity data st feed :
  stream_ok c -> state_ c = Active -> stream_held (frame_stream_ c) + len data < 2 ^ 64 ->
  decoded requests c received -> FeedBytes capacity (frame_stream_ c) data = Some (st, feed) ->
  feed_closed_ feed = stream_closed_ st /\
  Parses (limits_of c) (received ++ data) (requests ++ batch_list (requests_ feed)) (stream_readable st) (stream_closed_ st).
Proof.
  intros [Hwf Hlim] Hact Hsz (fed & _ & Ha & HP) Hf. destruct (Ha Hact) as [-> Hopen].
  destruct (FeedBytes_open capacity (frame_stream_ c) data Hwf Hopen Hsz) as (st' & feed' & Ef & _ & _ & Hc & _ & _ & HP').
  rewrite Hf in Ef. injection Ef as <- <-. split; [done|]. rewrite Hlim in HP'. rewrite Hopen in HP.
  by eapply Parses_app.
Qed.

(** *** Steps keep the invariant *)

Lemma quiet_submits_nothing c c' : quiet c c' -> drop (length (submitted_batches c)) (submitted_batches c') = [].
Proof. intros (_ & _ & _ & -> & _). rewrite app_nil_r. by apply drop_all. Qed.

Lemma inv_quiet rest live rest' live' requests replied owed c c' received received' waiting results :
  served_inv rest live requests replied owed (MkServed c received waiting results) ->
  conn_inv rest' live' c' -> quiet c c' -> decoded requests c' received' ->
  served_inv rest' live' requests replied owed (MkServed c' received' waiting results).
Proof.
  intros [] Hinv Hq Hdec. pose proof Hq as (E1 & E2 & E3 & E4 & E5 & Hst). cbn in *.
  rewrite app_nil_r in E5. split; cbn; rewrite ?E1, ?E5, ?app_nil_r; try done.
  - by eapply placed_perm.
  - rewrite E3. lia.
Qed.

(** A receive that decoded [more] requests. *)
Lemma inv_taken rest live requests more replied owed c c' st received data waiting results :
  served_inv rest live requests replied owed (MkServed c received waiting results) ->
  conn_inv rest live c' -> state_ c = Active -> taken more (set_stream st c) c' ->
  decoded (requests ++ more) c' (received ++ data) ->
  exists replied', served_inv rest live (requests ++ more) replied' owed
    (MkServed c' (received ++ data) (waiting ++ drop (length (submitted_batches c)) (submitted_batches c')) results).
Proof.
  intros [] Hinv Hact (batches & rejected & out & He & Hr & Hpre & Hall) Hdec. cbn in *.
  pose proof He as (E1 & E2 & E3 & E4 & E5 & Hst). cbn in *.
  assert (drop (length (submitted_batches c)) (submitted_batches c') = batches) as -> by (rewrite E4; by apply drop_app_length).
  exists (replied ++ rejected). destruct si_placed0 as [_ Hperm]. specialize (Hperm Hact).
  assert (Hmove : (replied ++ rejected) ++ concat (waiting ++ batches) ++ concat owed
    ≡ₚ (replied ++ concat waiting ++ concat owed) ++ (rejected ++ concat batches)).
  { rewrite concat_app. solve_Permutation. }
  split; cbn; rewrite ?E1, ?E5; try done.
  - by apply replies_app.
  - split; [|intros Ha]; rewrite Hmove, Hperm.
    + destruct Hpre as [lost ->]. apply submseteq_app; [done|]. by apply submseteq_inserts_r.
    + by rewrite Hall.
  - rewrite E3, concat_app, len_app. lia.
Qed.

Lemma inv_event rest live requests replied owed send_ok recv_ok e c c' received waiting results :
  served_inv rest live requests replied owed (MkServed c received waiting results) ->
  io_event e -> enabled e c -> handle send_ok recv_ok e c = Some c' ->
  exists requests' replied', served_inv rest live requests' replied' owed
    (MkServed c' (received ++ event_bytes e)
       (waiting ++ drop (length (submitted_batches c)) (submitted_batches c')) results).
Proof.
  intros Hs Hio He Hh. pose proof (si_conn _ _ _ _ _ _ Hs) as Hinv. cbn in Hinv.
  pose proof (si_decoded _ _ _ _ _ _ Hs) as Hdec. cbn in Hdec.
  destruct (handle_inv rest live send_ok recv_ok e c Hinv He) as (c1 & E1 & Hinv' & Hev).
  rewrite Hh in E1. injection E1 as <-.
  assert (Hquiet : quiet c c' -> event_bytes e = [] -> exists requests' replied',
    served_inv rest live requests' replied' owed (MkServed c' (received ++ event_bytes e)
      (waiting ++ drop (length (submitted_batches c)) (submitted_batches c')) results)).
  { intros Hq ->. exists requests, replied. rewrite (quiet_submits_nothing c c' Hq), !app_nil_r.
    eapply inv_quiet; [done..|]. by eapply decoded_effect. }
  destruct e as [answer result|result|alloc_ok data n|n| |]; cbn in Hh; try done.
  - destruct Hinv as ((Hcfg & Hinf & _) & _ & _ & _ & Hstream & _). destruct He as [Hrp Hsz].
    destruct (OnRecvComplete_taken send_ok recv_ok answer result c c') as [[Hq Hst]|Hfeed]; try done.
    + apply Hcfg.
    + apply Hstream.
    + by intros capacity data ->.
    + exists requests, replied. rewrite (quiet_submits_nothing c c' Hq), app_nil_r.
      eapply inv_quiet; [done..|]. apply decoded_more; [done|]. by eapply decoded_effect.
    + destruct Hfeed as (capacity & data & st & feed & -> & Hact & Hf & Ht & Hcl). cbn [event_bytes].
      destruct (decoded_feed _ _ _ _ _ _ _ Hstream Hact Hsz Hdec Hf) as [Hfc HP].
      destruct (inv_taken rest live requests (batch_list (requests_ feed)) replied owed c c' st received data waiting results)
        as [replied' H]; try done; [|eauto].
      destruct Ht as (batches & rejected & out & (E1 & E2 & _) & _). cbn in E1, E2.
      exists (received ++ data). rewrite E1, E2. split_and!; [done| |done]. intros Ha. split; [done|].
      destruct (stream_closed_ st); [|done]. rewrite (Hcl Hfc) in Ha. done.
  - apply Hquiet; [|done]. by eapply OnSendComplete_quiet.
  - apply Hquiet; [|done]. by eapply BeginDrain_quiet.
  - apply Hquiet; [|done]. by apply frame_quiet, (Close_frame send_ok).
Qed.

Lemma inv_execute rest live requests replied owed id w w' batch before after c received results posted :
  registry_ok ->
  served_inv rest live requests replied owed (MkServed c received (before ++ batch :: after) results) ->
  ExecuteRequestBatchOnWorker id registry (limits_of c) w batch = Some (w', posted) ->
  exists owed', served_inv rest live requests replied owed'
    (MkServed c received (before ++ after) (results ++ posted)).
Proof.
  intros Hreg [] Hx. cbn in *. pose proof (decoded_ids _ _ _ si_decoded0) as Hids.
  rewrite concat_app, concat_cons, !len_app in si_inflight0.
  pose proof si_conn0 as (((Hmax & _) & Hinf & _) & _).
  pose proof (len_nonneg (concat before)). pose proof (len_nonneg (concat after)). pose proof (len_nonneg (concat owed)).
  destruct (Execute_results (limits_of c) id w batch w' posted) as (owed' & <- & Hposted); try done.
  - destruct si_placed0 as [Hsub _]. apply Forall_forall. intros q Hq. rewrite Forall_forall in Hids. apply Hids.
    eapply elem_of_submseteq; [|exact Hsub]. rewrite concat_app, concat_cons. set_solver.
  - lia.
  - exists (owed ++ owed'). split; cbn; try done.
    + by apply Forall2_app.
    + eapply placed_perm; [| |exact si_placed0]; [done|]. rewrite !concat_app, concat_cons. solve_Permutation.
    + rewrite !concat_app, !len_app. lia.
Qed.

(** A posted result can be delivered: it releases requests that are in flight. *)
Lemma inv_enabled rest live requests replied owed alloc_ok r s :
  registry_ok -> served_inv rest live requests replied owed s -> r ∈ sv_results s ->
  len (response_bytes_ r) < 2 ^ 64 -> enabled (result_event alloc_ok r) (sv_conn s).
Proof.
  intros Hreg [] Hr Hlen. pose proof (decoded_ids _ _ _ si_decoded0) as Hids.
  apply list_elem_of_lookup in Hr as [i Hi].
  destruct (Forall2_lookup_r _ _ _ _ _ si_owed0 Hi) as (o & Ho & Hne & Hrel & Hrep).
  apply take_drop_middle in Ho. rewrite <- Ho, concat_app, concat_cons, !len_app in si_inflight0.
  pose proof (len_nonneg (concat (sv_waiting s))). pose proof (len_nonneg (concat (take i owed))).
  pose proof (len_nonneg (concat (drop (S i) owed))). pose proof (len_nonneg o).
  unfold result_event. destruct (encode_failed_ r); cbn; [lia|]. split_and!; [|done|lia|lia].
  apply (replies_nonempty (limits_of (sv_conn s)) o); auto. apply Forall_forall. intros q Hq.
  rewrite Forall_forall in Hids. apply Hids. destruct si_placed0 as [Hsub _]. eapply elem_of_submseteq; [|exact Hsub].
  rewrite <- Ho, !concat_app, concat_cons. set_solver.
Qed.

Lemma inv_deliver rest live requests replied owed send_ok recv_ok alloc_ok r before after c c' received waiting :
  registry_ok ->
  served_inv rest live requests replied owed (MkServed c received waiting (before ++ r :: after)) ->
  len (response_bytes_ r) < 2 ^ 64 -> handle send_ok recv_ok (result_event alloc_ok r) c = Some c' ->
  exists replied' owed', served_inv rest live requests replied' owed' (MkServed c' received waiting (before ++ after)).
Proof.
  intros Hreg Hs Hlen Hh.
  pose proof (inv_enabled _ _ _ _ _ alloc_ok r _ Hreg Hs ltac:(cbn; set_solver) Hlen) as He. cbn in He.
  destruct Hs. cbn in *. destruct (handle_inv rest live send_ok recv_ok _ c si_conn0 He) as (c1 & E1 & Hinv' & _).
  rewrite Hh in E1. injection E1 as <-.
  apply Forall2_app_inv_r in si_owed0 as (o1 & o2 & H1 & H2 & ->).
  inversion H2 as [|o r' o2' after' (Hne & Hrel & Hrep) Hafter]; subst. rewrite concat_app, concat_cons, !len_app in si_inflight0.
  pose proof si_conn0 as (((Hmax & _) & Hinf & _) & _).
  pose proof (len_nonneg o).
  assert (Hresult : (effect (- len o) [] (response_bytes_ r) c c' /\ encode_failed_ r = false) \/
    (effect (- len o) [] [] c c' /\ state_ c' = Closed)).
  { rewrite <- Hrel. unfold result_event in Hh. destruct (encode_failed_ r); cbn in Hh.
    - right. apply (OnResponseEncodeFailure_effect send_ok); [lia..|done].
    - apply OnResponsesEncoded_effect in Hh as [?|?]; [by left|by right|lia..]. }
  destruct Hresult as [[He' Hok]|[He' Hcl]]; pose proof He' as (E1 & _ & E3 & _ & E5 & Hst);
    [exists (replied ++ o)|exists replied]; exists (o1 ++ o2'); (split; cbn; rewrite ?E1, ?E5; try done).
  - by eapply decoded_effect.
  - apply replies_app; auto.
  - by apply Forall2_app.
  - eapply placed_perm; [| |exact si_placed0]; [done|]. rewrite !concat_app, concat_cons. solve_Permutation.
  - rewrite E3, concat_app, len_app. lia.
  - by eapply decoded_effect.
  - by rewrite app_nil_r.
  - by apply Forall2_app.
  - eapply placed_lost; [| |exact si_placed0]; [by rewrite Hcl|]. rewrite !concat_app, concat_cons.
    do 2 (apply submseteq_app; [done|]). apply submseteq_app; [done|]. by apply submseteq_inserts_l.
  - rewrite E3, concat_app, len_app. lia.
Qed.

Lemma served_inv_step rest live requests replied owed s s' :
  registry_ok -> served_inv rest live requests replied owed s -> serve_step s s' ->
  exists requests' replied' owed', served_inv rest live requests' replied' owed' s'.
Proof.
  intros Hreg Hs Hstep. destruct Hstep.
  - edestruct inv_event as (? & ? & ?); eauto.
  - edestruct inv_execute as (? & ?); eauto.
  - edestruct inv_deliver as (? & ? & ?); eauto.
Qed.

Lemma Start_quiet send_ok recv_ok c c' : ServerConnection_Start send_ok recv_ok c = Some c' -> quiet c c'.
Proof.
  unfold ServerConnection_Start. intros Hr. run Hr. apply WriteLoop_run_frame, frame_quiet in E.
  apply ReadLoop_next_quiet in Hr. eapply quiet_effect; [exact E|exact Hr].
Qed.

(** A connection that has just started. *)
Lemma served_inv_start rest live config a a' c :
  conn_inv rest live (with_acct a' c) -> quiet (ServerConnection_new config a) c ->
  served_inv rest live [] [] [] (MkServed (with_acct a' c) [] [] []).
Proof.
  intros Hinv (E1 & E2 & E3 & E4 & E5 & _). cbn in *. split; cbn; rewrite ?E1, ?E2, ?E3, ?E4, ?E5; try done.
  - exists []. cbn. rewrite E1, E2. split_and!; [done|done|]. apply Parses_nil.
  - apply replies_nil.
Qed.

Lemma served_reachable_inv rest live config s :
  registry_ok -> served_reachable rest live config s ->
  conn_config_ (sv_conn s) = config /\
  exists requests replied owed, served_inv rest live requests replied owed s.
Proof.
  intros Hreg (Hcfg & Hr & Hl & Hm & a & so & ro & c0 & Ha & Hlive & Hs & Hrun).
  destruct (Start_inv rest live so ro config a Hcfg Hr Hl Hm Ha Hlive) as (c1 & E & Hinv & Hc).
  rewrite Hs in E. injection E as <-. apply Start_quiet in Hs.
  apply (rtc_preserves serve_step (fun s => conn_config_ (sv_conn s) = config /\
    exists requests replied owed, served_inv rest live requests replied owed s) (MkServed c0 [] [] [])); [| |done].
  - intros s1 s2 (Hcf & rqs & rpl & owd & Hi) Hstep. split; [|by eapply served_inv_step].
    destruct Hstep as [so1 ro1 e c c' ? ? ? _ He Hh| |so1 ro1 al r ? ? c c' ? ? Hlen Hh]; cbn in *; [|done|].
    + destruct (handle_inv rest live so1 ro1 e c (si_conn _ _ _ _ _ _ Hi) He) as (c1 & Eh & _ & (Hc1 & _)). cbn in *. congruence.
    + pose proof (inv_enabled _ _ _ _ _ al r _ Hreg Hi ltac:(cbn; set_solver) Hlen) as He. cbn in He.
      destruct (handle_inv rest live so1 ro1 _ c (si_conn _ _ _ _ _ _ Hi) He) as (c1 & Eh & _ & (Hc1 & _)). cbn in *. congruence.
  - split; [done|]. exists [], [], []. rewrite <- (with_acct_self c0) in Hinv |- *. by eapply served_inv_start.
Qed.

(** What a connection promises: the requests are decoded from what arrived, each
    has at most one reply in the accepted bytes, and exactly one while the
    connection is active and nothing is with the workers. *)
Definition each_replied_once (s : served) : Prop :=
  let c := sv_conn s in
  exists requests replied fed tail closed,
    Parses (limits_of c) fed requests tail closed /\ fed `prefix_of` sv_received s /\
    (state_ c = Active -> fed = sv_received s) /\
    replies (limits_of c) replied (accepted_bytes c) /\ sent_bytes c `prefix_of` accepted_bytes c /\
    replied ⊆+ requests /\
    (state_ c = Active -> sv_waiting s = [] -> sv_results s = [] -> replied ≡ₚ requests).

Lemma served_inv_once rest live requests replied owed s :
  served_inv rest live requests replied owed s -> each_replied_once s.
Proof.
  intros []. destruct si_decoded0 as (fed & Hpre & Hact & HP), si_placed0 as [Hsub Hall].
  exists requests, replied, fed. do 2 eexists. split_and!; [exact HP|done| |done| | |].
  - intros Ha. by apply Hact.
  - by destruct si_conn0 as ((_ & _ & _ & ? & _) & _).
  - etrans; [|exact Hsub]. by apply submseteq_inserts_r.
  - intros Ha Hw Hres. rewrite Hw, Hres in *. inversion si_owed0; subst. cbn in Hall. rewrite app_nil_r in Hall. auto.
Qed.

(** The requests in flight are with the workers. *)
Lemma served_inv_inflight rest live requests replied owed s :
  served_inv rest live requests replied owed s ->
  inflight_requests_ (sv_conn s) = len (concat (sv_waiting s)) + zsum released_requests_ (sv_results s).
Proof.
  intros []. rewrite si_inflight0. f_equal. clear - si_owed0.
  induction si_owed0 as [|o r owed rs (_ & Hrel & _) _ IH]; [done|].
  rewrite concat_cons, len_app. unfold zsum in *. cbn. lia.
Qed.

(** ** Properties *)

(** Every request is replied to at most once, and exactly once when the connection
    stays active and the workers are done.  The requests are those decoded from the
    bytes that arrived; the accepted bytes are one encoded reply to each request of
    a part of them, and what was sent is a beginning of the accepted bytes.  While
    the connection is active nothing that arrived is left undecoded and a request
    without a reply is waiting for a worker or in a posted result. *)
Theorem ServedConnection_exactly_once rest live config s :
  registry_ok -> served_reachable rest live config s -> each_replied_once s.
Proof.
  intros Hreg Hr. destruct (served_reachable_inv _ _ _ _ Hreg Hr) as (_ & requests & replied & owed & Hs).
  by eapply served_inv_once.
Qed.

(** Workers and the connection agree on the requests in flight.  They are exactly
    those that wait for a worker and those that posted results release, and there
    are never more than the configured limit; so a posted result, whatever its
    order of arrival, never releases more than is in flight, and delivering it
    never fails an assertion. *)
Theorem ServedConnection_results_accounted rest live config s :
  registry_ok -> served_reachable rest live config s ->
  inflight_requests_ (sv_conn s) = len (concat (sv_waiting s)) + zsum released_requests_ (sv_results s) /\
  inflight_requests_ (sv_conn s) <= max_inflight_ (limits_ config) /\
  forall send_ok recv_ok alloc_ok r, r ∈ sv_results s -> len (response_bytes_ r) < 2 ^ 64 ->
    is_Some (handle send_ok recv_ok (result_event alloc_ok r) (sv_conn s)).
Proof.
  intros Hreg Hr. destruct (served_reachable_inv _ _ _ _ Hreg Hr) as (Hcf & requests & replied & owed & Hs).
  pose proof Hs as []. split_and!.
  - by eapply served_inv_inflight.
  - rewrite <- Hcf. destruct si_conn0 as ((_ & Hinf & _) & _). lia.
  - intros send_ok recv_ok alloc_ok r Hin Hlen.
    destruct (handle_inv rest live send_ok recv_ok (result_event alloc_ok r) (sv_conn s)) as (c' & -> & _); [done| |by eauto].
    by eapply inv_enabled.
Qed.

End served.

(** *** Witnesses: an echo service *)
Section ServedWitnesses.
Import ExampleWire.

Definition echo (w : unit) (q : bytes) : unit * (bytes + exn) := (w, inl q).

Definition echo_registry : ServiceRegistry unit :=
  fst (ServiceRegistry_Register ServiceRegistry_new (bs "EchoService") (bs "Echo")
    (adapt_invoke (method_invoke (fun b _ => Some b) Some echo))).

Lemma echo_registry_ok : registry_ok echo_registry.
Proof.
  intros w q w' y. unfold ServiceRegistry_Dispatch.
  destruct (services_ echo_registry !! service_name_ q) as [ms|] eqn:Em; [|by intros [= _ <-]].
  destruct (ms !! method_name_ q) as [h|] eqn:Eh; [|by intros [= _ <-]].
  assert (Hh : registered echo_registry (service_name_ q) (method_name_ q) = Some h)
    by (unfold registered; rewrite Em; exact Eh).
  unfold echo_registry in Hh. rewrite registered_Register in Hh. case_bool_decide.
  - injection Hh as <-. cbn. by intros [= _ <-].
  - unfold registered, ServiceRegistry_new in Hh. cbn in Hh. rewrite lookup_empty in Hh. done.
Qed.

Definition echo_response : ResponseEnvelope := MkResponseEnvelope 7 Status_Ok (bs "hello").

Definition echo_response_frame : bytes :=
  match FrameCodec_EncodeResponse ProtocolLimits_default echo_response with
  | Some r => default [] (so_value_ r) | None => []
  end.

Definition echo_result : WorkerResult := MkWorkerResult 3 echo_response_frame 1 false.

(** The request arrives in two pieces and is submitted. *)
Definition echo_conn_submitted : option ServerConnection :=
  c ← ServerConnection_Start true true (ServerConnection_new example_conn_config example_acct);
  c ← handle true true (EvRecv (MkPoolAnswer true true) (RecvBytes 64 (take 30 echo_frame))) c;
  handle true true (EvRecv (MkPoolAnswer true true) (RecvBytes 64 (drop 30 echo_frame))) c.

(** A worker's result is delivered and sent. *)
Definition echo_conn_sent : option ServerConnection :=
  c ← echo_conn_submitted;
  c ← handle true true (result_event true echo_result) c;
  handle true true (EvSend (len echo_response_frame)) c.

Definition the (o : option ServerConnection) : ServerConnection :=
  default (ServerConnection_new example_conn_config example_acct) o.

Definition echo_posted : served := MkServed (the echo_conn_submitted) echo_frame [] [echo_result].
Definition echo_done : served := MkServed (the echo_conn_sent) echo_frame [] [].

Lemma echo_posted_run :
  exists c0, ServerConnection_Start true true (ServerConnection_new example_conn_config example_acct) = Some c0 /\
    rtc (serve_step echo_registry) (MkServed c0 [] [] []) echo_posted.
Proof.
  eexists. split; [vm_compute; reflexivity|].
  eapply rtc_l.
  { apply (serve_event _ true true (EvRecv (MkPoolAnswer true true) (RecvBytes 64 (take 30 echo_frame))));
      [exact I|split; vm_compute; reflexivity|vm_compute; reflexivity]. }
  eapply rtc_l.
  { apply (serve_event _ true true (EvRecv (MkPoolAnswer true true) (RecvBytes 64 (drop 30 echo_frame))));
      [exact I|split; vm_compute; reflexivity|vm_compute; reflexivity]. }
  eapply rtc_l.
  { apply (serve_execute _ 3 tt tt [echo_request] [] [] _ _ _ [echo_result]). vm_compute. reflexivity. }
  match goal with |- rtc _ ?x _ => assert (x = echo_posted) as -> by (vm_compute; reflexivity) end.
  apply rtc_refl.
Qed.

Lemma echo_reachable s :
  rtc (serve_step echo_registry) echo_posted s -> served_reachable echo_registry 0 0 example_conn_config s.
Proof.
  intros Hrun. destruct echo_posted_run as (c0 & Hs & H0). split; [repeat (split; try done)|].
  split_and!; [done|done|done|]. exists example_acct, true, true, c0. split_and!; [done|done|done|by etrans].
Qed.

Lemma echo_done_run : rtc (serve_step echo_registry) echo_posted echo_done.
Proof.
  eapply rtc_l.
  { apply (serve_deliver _ true true true echo_result [] [] (the echo_conn_submitted)); vm_compute; reflexivity. }
  eapply rtc_l.
  { apply (serve_event _ true true (EvSend (len echo_response_frame)));
      [exact I|vm_compute; discriminate|vm_compute; reflexivity]. }
  match goal with |- rtc _ ?x _ => assert (x = echo_done) as -> by (vm_compute; reflexivity) end.
  apply rtc_refl.
Qed.

Lemma ServedConnection_exactly_once_witness : each_replied_once echo_registry echo_done.
Proof.
  exact (ServedConnection_exactly_once echo_registry 0 0 example_conn_config echo_done echo_registry_ok
    (echo_reachable echo_done echo_done_run)).
Defined.

Lemma ServedConnection_results_accounted_witness :
  inflight_requests_ (sv_conn echo_posted) = 1 /\
  is_Some (handle true true (result_event true echo_result) (sv_conn echo_posted)).
Proof.
  destruct (ServedConnection_results_accounted echo_registry 0 0 example_conn_config echo_posted echo_registry_ok
    (echo_reachable echo_posted (rtc_refl _ _))) as (Hi & _ & Hd).
  split; [exact Hi|]. apply Hd; [left|vm_compute; reflexivity].
Defined.

End ServedWitnesses.
