(* ===== verification/ServedLoop.v ===== *)
(** * A connection loop and the workers that serve it

    Composes all connections of one I/O loop ([ConnectionIoLoop]) with the workers
    that execute their batches.  Batches and results carry the id of their
    connection, as in [SubmitRequestBatch] and [WorkerResult]; the loop finds the
    connection of a result by its id, and connections come and go.

    The invariant of a connection with its workers ([ServedConnection]) is lifted
    to every connection of the loop: ids are not reused, so that a result never
    reaches a connection other than the one that submitted the requests.  The loop
    is proved safe for results that release at most the requests in flight; here
    the workers are shown to post only such results. *)

From S2P Require Import Prelude Status FrameHeader FrameCodec FrameStream ServiceRegistry ServerConfig ServerConnection ConnectionIoLoop ServedConnection.

Local Open Scope Z_scope.

Lemma filter_none {A} (P : A -> Prop) `{!forall x, Decision (P x)} l : Forall (fun x => ~ P x) l -> filter P l = [].
Proof. induction 1 as [|x l Hx _ IH]; [done|]. by rewrite filter_cons_False. Qed.

(** ** What callbacks do to the other connections *)

(** Every connection left was there before, and submitted and accepted nothing. *)
Definition loop_quiet (l l' : IoLoop) : Prop :=
  forall id c', connections_ l' !! id = Some c' -> exists c, connections_ l !! id = Some c /\ quiet c c'.

Lemma loop_quiet_same l l' : connections_ l' = connections_ l -> loop_quiet l l'.
Proof. intros E id c'. rewrite E. intros Hc. exists c'. split; [done|apply quiet_refl]. Qed.

Lemma loop_quiet_trans l1 l2 l3 : loop_quiet l1 l2 -> loop_quiet l2 l3 -> loop_quiet l1 l3.
Proof.
  intros H12 H23 id c3 Hc3. destruct (H23 id c3 Hc3) as (c2 & Hc2 & Hq2). destruct (H12 id c2 Hc2) as (c1 & Hc1 & Hq1).
  exists c1. split; [done|]. by eapply effect_quiet.
Qed.

Lemma on_connection_quiet id f l l' :
  (forall c c', f c = Some c' -> quiet c c') -> on_connection id f l = Some l' -> loop_quiet l l'.
Proof.
  intros Hf. unfold on_connection. destruct (connections_ l !! id) as [c|] eqn:Hc; [|intros [= <-]; by apply loop_quiet_same].
  destruct (f _) as [c1|] eqn:Ef; [|done]. intros [= <-] k c'. cbn. intros Hk.
  apply lookup_insert_Some in Hk as [[<- <-]|[_ Hk]]; [|exists c'; split; [done|apply quiet_refl]].
  exists c. split; [done|]. apply Hf in Ef. exact Ef.
Qed.

Lemma for_each_quiet f ids l l' :
  (forall b c c', f b c = Some c' -> quiet c c') -> for_each_connection f ids l = Some l' -> loop_quiet l l'.
Proof.
  intros Hf. revert l. induction ids as [|[id b] ids IH]; intros l; cbn; [intros [= <-]; by apply loop_quiet_same|].
  destruct (on_connection id (f b) l) as [l1|] eqn:E; [|done]. intros H. eapply loop_quiet_trans; [|by apply IH].
  eapply on_connection_quiet; [|exact E]. apply Hf.
Qed.

Lemma Collect_quiet l : loop_quiet l (CollectClosedConnections l).
Proof.
  intros id c'. cbn. rewrite map_lookup_filter_Some. intros [Hc _]. exists c'. split; [done|apply quiet_refl].
Qed.

Lemma on_connection_next id f l l' : on_connection id f l = Some l' -> next_connection_id_ l' = next_connection_id_ l.
Proof.
  unfold on_connection. destruct (connections_ l !! id); [|by intros [= <-]]. destruct (f _); [|done]. by intros [= <-].
Qed.

Lemma for_each_next f ids l l' :
  for_each_connection f ids l = Some l' -> next_connection_id_ l' = next_connection_id_ l.
Proof.
  revert l. induction ids as [|[id b] ids IH]; intros l; cbn; [by intros [= <-]|].
  destruct (on_connection id (f b) l) as [l1|] eqn:E; [|done]. intros H. rewrite (IH _ H). by eapply on_connection_next.
Qed.

(** A new connection has the next id; the others stay. *)
Lemma StartConnection_connections config send_ok recv_ok l l' :
  StartConnectionOnContext config send_ok recv_ok l = Some l' ->
  (connections_ l' = connections_ l /\ next_connection_id_ l' = next_connection_id_ l) \/
  exists a c, connections_ l' = <[next_connection_id_ l := c]> (connections_ l) /\
    next_connection_id_ l <> 0 /\ next_connection_id_ l' = (next_connection_id_ l +u 1)%word /\
    ServerConnection_Start send_ok recv_ok (ServerConnection_new config a) = Some c.
Proof.
  unfold StartConnectionOnContext. case_match; [intros [= <-]; by left|]. unfold AllocateConnectionId.
  destruct (Z.eqb_spec (next_connection_id_ l) 0) as [|Hid]; [done|]. cbn [mbind option_bind].
  case_match; [done|]. unfold on_connection. cbn [connections_ set_connections]. rewrite lookup_insert_eq.
  intros Hr. destruct (ServerConnection_Start _ _ _) as [c|] eqn:Es; [|done]. injection Hr as <-. right.
  eexists _, c. cbn. rewrite insert_insert_eq. split_and!; [done|done|done|exact Es].
Qed.

Section served_loop.
Context {W : Wire} {L : WireLaws W} {World : Type} (registry : ServiceRegistry World).
Context (config_ : ServerConnectionConfig).

(** ** The composed system *)

(** A loop, the bytes that reached each connection, the batches handed to the pool
    and not executed yet, and the results posted and not handled yet. *)
Record served_loop := MkServedLoop {
  sl_loop : IoLoop;
  sl_received : gmap Z bytes;
  sl_waiting : list (Z * list RequestEnvelope);
  sl_results : list WorkerResult
}.

(** Events of the loop other than completions and results. *)
Definition loop_command (e : loop_event) : Prop :=
  match e with LvCompletion _ _ _ _ | LvResult _ _ _ => False | _ => True end.

(** A completion on a connection, which may submit batches; a callback or a command
    of the owner; a worker executes any waiting batch; a posted result (that fits
    memory) is handled. *)
Inductive serve_loop_step : served_loop -> served_loop -> Prop :=
  | serve_completion id send_ok recv_ok e l l' c c' received waiting results :
      io_event e -> loop_enabled config_ (LvCompletion id send_ok recv_ok e) l ->
      loop_handle config_ (LvCompletion id send_ok recv_ok e) l = Some l' ->
      connections_ l !! id = Some c -> connections_ l' !! id = Some c' ->
      serve_loop_step (MkServedLoop l received waiting results)
        (MkServedLoop l' (<[id := default [] (received !! id) ++ event_bytes e]> received)
           (waiting ++ (pair id <$> drop (length (submitted_batches c)) (submitted_batches c'))) results)
  | serve_command e l l' received waiting results :
      loop_command e -> loop_enabled config_ e l -> loop_handle config_ e l = Some l' ->
      serve_loop_step (MkServedLoop l received waiting results) (MkServedLoop l' received waiting results)
  | serve_worker id w w' batch before after l received results posted :
      ExecuteRequestBatchOnWorker id registry (conn_protocol_limits_ config_) w batch = Some (w', posted) ->
      serve_loop_step (MkServedLoop l received (before ++ (id, batch) :: after) results)
        (MkServedLoop l received (before ++ after) (results ++ posted))
  | serve_result send_ok alloc_ok r before after l l' received waiting :
      len (response_bytes_ r) < 2 ^ 64 ->
      HandleWorkerResult send_ok alloc_ok r l = Some l' ->
      serve_loop_step (MkServedLoop l received waiting (before ++ r :: after))
        (MkServedLoop l' received waiting (before ++ after)).

Definition served_loop_new : served_loop := MkServedLoop IoLoop_new ∅ [] [].

(** *** One connection of the loop *)

Definition received_by (id : Z) (s : served_loop) : bytes := default [] (sl_received s !! id).
Definition waiting_of (id : Z) (s : served_loop) : list (list RequestEnvelope) :=
  (filter (fun j => j.1 = id) (sl_waiting s)).*2.
Definition results_of (id : Z) (s : served_loop) : list WorkerResult :=
  filter (fun r => result_connection_id_ r = id) (sl_results s).

Definition view (id : Z) (c : ServerConnection) (s : served_loop) : served :=
  MkServed c (received_by id s) (waiting_of id s) (results_of id s).

Definition connection_ok (id : Z) (c : ServerConnection) (s : served_loop) : Prop :=
  exists rest live a requests replied owed,
    served_inv registry rest live requests replied owed (view id (with_acct a c) s).

(** Every id in use was given out before. *)
Definition id_used (s : served_loop) (id : Z) : Prop :=
  is_Some (sl_received s !! id) \/ id ∈ (sl_waiting s).*1 \/ id ∈ result_connection_id_ <$> sl_results s.

Record served_loop_inv (s : served_loop) : Prop := {
  sli_loop : loop_inv config_ (sl_loop s);
  sli_connections : forall id c, connections_ (sl_loop s) !! id = Some c -> connection_ok id c s;
  sli_ids : next_connection_id_ (sl_loop s) <> 0 -> forall id, id_used s id -> id < next_connection_id_ (sl_loop s)
}.

(** The counters of the loop do not matter to what a connection owes. *)
Lemma served_inv_reacct rest live rest' live' requests replied owed a a' c received waiting results :
  served_inv registry rest live requests replied owed (MkServed (with_acct a c) received waiting results) ->
  conn_inv rest' live' (with_acct a' c) ->
  served_inv registry rest' live' requests replied owed (MkServed (with_acct a' c) received waiting results).
Proof. intros [] H. by split. Qed.

(** The connection as the loop runs it. *)
Lemma connection_runs id c s :
  served_loop_inv s -> connections_ (sl_loop s) !! id = Some c ->
  exists rest live requests replied owed,
    served_inv registry rest live requests replied owed (view id (with_acct (loop_acct_ (sl_loop s)) c) s).
Proof.
  intros [] Hc. destruct (loop_rest config_ _ id c sli_loop0 Hc) as (Hci & _).
  destruct (sli_connections0 id c Hc) as (rest & live & a & requests & replied & owed & Hs).
  do 2 eexists. exists requests, replied, owed. eapply served_inv_reacct; [exact Hs|exact Hci].
Qed.

Lemma connection_ok_intro id c s rest live requests replied owed :
  served_inv registry rest live requests replied owed (view id c s) -> connection_ok id c s.
Proof. intros H. exists rest, live, (owner_acct_ c), requests, replied, owed. by rewrite with_acct_self. Qed.

(** A connection that nothing happened to. *)
Lemma connection_ok_view id c s s' :
  received_by id s' = received_by id s -> waiting_of id s' = waiting_of id s -> results_of id s' = results_of id s ->
  connection_ok id c s -> connection_ok id c s'.
Proof. unfold connection_ok, view. intros -> -> ->. done. Qed.

(** A connection that only closed, drained or wrote. *)
Lemma connection_ok_quiet id c c' s :
  conn_ok config_ c' -> quiet c c' -> connection_ok id c s -> connection_ok id c' s.
Proof.
  intros (_ & rest' & live' & a' & Hci) Hq (rest & live & a & requests & replied & owed & Hs).
  exists rest', live', a', requests, replied, owed.
  assert (Hq' : quiet (with_acct a c) (with_acct a' c')) by exact Hq.
  eapply inv_quiet; [exact Hs|exact Hci|exact Hq'|]. eapply decoded_effect; [exact Hq'|].
  exact (si_decoded _ _ _ _ _ _ _ Hs).
Qed.

Lemma waiting_of_app id l r w1 w2 x :
  waiting_of id (MkServedLoop l r (w1 ++ w2) x) = waiting_of id (MkServedLoop l r w1 x) ++ waiting_of id (MkServedLoop l r w2 x).
Proof. unfold waiting_of. cbn. by rewrite filter_app, fmap_app. Qed.

Lemma results_of_app id l r w x1 x2 :
  results_of id (MkServedLoop l r w (x1 ++ x2)) = results_of id (MkServedLoop l r w x1) ++ results_of id (MkServedLoop l r w x2).
Proof. unfold results_of. cbn. by rewrite filter_app. Qed.

Lemma waiting_of_pairs id k l r batches x :
  waiting_of id (MkServedLoop l r (pair k <$> batches) x) = if decide (k = id) then batches else [].
Proof.
  unfold waiting_of. cbn [sl_waiting]. induction batches as [|b batches IH]; [by destruct (decide (k = id))|].
  rewrite fmap_cons, filter_cons. cbn [fst]. destruct (decide (k = id)); [by rewrite fmap_cons, IH|done].
Qed.

Lemma Execute_ids id limits w batch w' posted :
  ExecuteRequestBatchOnWorker id registry limits w batch = Some (w', posted) ->
  Forall (fun r => result_connection_id_ r = id) posted.
Proof.
  unfold ExecuteRequestBatchOnWorker. destruct (execute_loop _ _ _ _ _ _) as [[[w1 b1] n1]|]; [|done].
  cbn [mbind option_bind]. intros [= _ <-]. apply Forall_app. split; case_match; by repeat constructor.
Qed.

Lemma results_of_posted id k l r w posted :
  Forall (fun x => result_connection_id_ x = k) posted ->
  results_of id (MkServedLoop l r w posted) = if decide (k = id) then posted else [].
Proof.
  unfold results_of. cbn [sl_results]. induction 1 as [|x posted Hx _ IH]; [by destruct (decide (k = id))|].
  rewrite filter_cons, Hx. destruct (decide (k = id)); [by rewrite IH|done].
Qed.

(** ** Steps keep the invariant *)

Context (config_good : config_ok config_) (registry_good : registry_ok registry).

Lemma on_connection_other id f l l' k :
  on_connection id f l = Some l' -> k <> id -> connections_ l' !! k = connections_ l !! k.
Proof.
  unfold on_connection. destruct (connections_ l !! id); [|by intros [= <-]]. destruct (f _); [|done].
  intros [= <-] Hne. cbn. by rewrite lookup_insert_ne.
Qed.

Lemma loop_inv_step e l l' :
  loop_inv config_ l -> loop_enabled config_ e l -> loop_handle config_ e l = Some l' -> loop_inv config_ l'.
Proof. intros Hi He Hh. destruct (loop_handle_inv config_ e l config_good Hi He) as (l1 & E & ?). congruence. Qed.

Lemma completion_step id send_ok recv_ok e l l' c c' received waiting results :
  served_loop_inv (MkServedLoop l received waiting results) ->
  io_event e -> loop_enabled config_ (LvCompletion id send_ok recv_ok e) l ->
  loop_handle config_ (LvCompletion id send_ok recv_ok e) l = Some l' ->
  connections_ l !! id = Some c -> connections_ l' !! id = Some c' ->
  served_loop_inv (MkServedLoop l' (<[id := default [] (received !! id) ++ event_bytes e]> received)
    (waiting ++ (pair id <$> drop (length (submitted_batches c)) (submitted_batches c'))) results).
Proof.
  intros Hs Hio He Hh Hc Hc'. pose proof (loop_inv_step _ _ _ (sli_loop _ Hs) He Hh) as Hl'. cbn in Hh.
  pose proof Hs as []. cbn in *. split; cbn; [done| |].
  - intros k x Hk. destruct (decide (k = id)) as [->|Hne].
    + rewrite Hc' in Hk. injection Hk as <-.
      destruct (connection_runs id c _ Hs Hc) as (rest & live & requests & replied & owed & Hv). cbn in Hv.
      destruct (on_connection_result _ _ _ _ _ Hh Hc') as (c1 & Hc1 & Hh'). rewrite Hc in Hc1. injection Hc1 as <-.
      destruct (inv_event registry rest live requests replied owed send_ok recv_ok e _ c' _ _ _ Hv Hio
        (enabled_with_acct _ _ _ (He c Hc)) Hh') as (requests' & replied' & Hv').
      eapply connection_ok_intro. unfold view, received_by. cbn [sl_received].
      rewrite lookup_insert_eq, waiting_of_app, waiting_of_pairs, decide_True by done.
      exact Hv'.
    + rewrite (on_connection_other _ _ _ _ _ Hh Hne) in Hk. eapply connection_ok_view; [..|exact (sli_connections0 k x Hk)].
      * unfold received_by. cbn. by rewrite lookup_insert_ne.
      * rewrite waiting_of_app, waiting_of_pairs, decide_False by done. by rewrite app_nil_r.
      * done.
  - rewrite (on_connection_next _ _ _ _ Hh). intros Hn k Hk.
    destruct (decide (k = id)) as [->|Hne]; [by apply (li_ids config_ l sli_loop0 id c Hc)|].
    apply sli_ids0; [done|]. unfold id_used in *. cbn in *. rewrite lookup_insert_ne in Hk by done.
    destruct Hk as [?|[Hk|?]]; [by left| |by right; right]. right. left.
    rewrite fmap_app, elem_of_app in Hk. destruct Hk as [Hk|Hk]; [done|].
    apply list_elem_of_fmap in Hk as (j & -> & Hj). apply list_elem_of_fmap in Hj as (b & -> & _). done.
Qed.

(** Callbacks that submit and accept nothing. *)
Lemma quiet_step l l' received waiting results :
  served_loop_inv (MkServedLoop l received waiting results) -> loop_inv config_ l' ->
  loop_quiet l l' -> next_connection_id_ l' = next_connection_id_ l ->
  served_loop_inv (MkServedLoop l' received waiting results).
Proof.
  intros [] Hl' Hq Hn. cbn in *. split; cbn; [done| |by rewrite Hn].
  intros id c' Hc'. destruct (Hq id c' Hc') as (c & Hc & Hqc).
  apply (connection_ok_quiet id c c'); [by eapply li_connections|done|exact (sli_connections0 id c Hc)].
Qed.

Lemma start_step send_ok recv_ok l l' received waiting results :
  served_loop_inv (MkServedLoop l received waiting results) -> loop_inv config_ l' ->
  StartConnectionOnContext config_ send_ok recv_ok l = Some l' ->
  served_loop_inv (MkServedLoop l' received waiting results).
Proof.
  intros Hs Hl' Hst. destruct (StartConnection_connections _ _ _ _ _ Hst) as [[E1 E2]|(a & c0 & E1 & Hid & E2 & Hc0)].
  { eapply quiet_step; [exact Hs|done|by apply loop_quiet_same|done]. }
  apply Start_quiet in Hc0. destruct Hs. cbn in *. split; cbn; [done| |].
  - intros id c Hc. rewrite E1 in Hc. apply lookup_insert_Some in Hc as [[<- <-]|[_ Hc]]; [|by apply sli_connections0].
    assert (Hfresh : ~ id_used (MkServedLoop l received waiting results) (next_connection_id_ l)).
    { intros Hu. specialize (sli_ids0 Hid _ Hu). lia. }
    unfold id_used in Hfresh. cbn in Hfresh.
    assert (received_by (next_connection_id_ l) (MkServedLoop l' received waiting results) = []) as Er.
    { unfold received_by. cbn. destruct (received !! next_connection_id_ l) eqn:E; [|done]. exfalso. apply Hfresh. left. eauto. }
    assert (waiting_of (next_connection_id_ l) (MkServedLoop l' received waiting results) = []) as Ew.
    { unfold waiting_of. cbn. rewrite (filter_none _ waiting); [done|]. apply Forall_forall. intros j Hj Ej.
      apply Hfresh. right. left. rewrite <- Ej. by apply list_elem_of_fmap_2. }
    assert (results_of (next_connection_id_ l) (MkServedLoop l' received waiting results) = []) as Ex.
    { unfold results_of. cbn. apply filter_none. apply Forall_forall. intros r Hr Ej.
      apply Hfresh. right. right. rewrite <- Ej. by apply list_elem_of_fmap_2. }
    assert (Hci : conn_ok config_ c0).
    { apply (li_connections config_ l' Hl' (next_connection_id_ l)). rewrite E1. apply lookup_insert_eq. }
    destruct Hci as (_ & rest & live & a' & Hci). exists rest, live, a', [], [], []. unfold view. rewrite Er, Ew, Ex.
    eapply served_inv_start; [exact Hci|exact Hc0].
  - rewrite E2. intros Hn id Hu. specialize (sli_ids0 Hid id Hu).
    pose proof (li_next config_ l sli_loop0) as Hnext. unfold add64, wrap in *.
    assert (next_connection_id_ l + 1 < 2 ^ 64 \/ next_connection_id_ l + 1 = 2 ^ 64) as [Hlt|E] by lia.
    + rewrite Z.mod_small by lia. lia.
    + rewrite E in Hn. done.
Qed.

Lemma command_step e l l' received waiting results :
  served_loop_inv (MkServedLoop l received waiting results) ->
  loop_command e -> loop_enabled config_ e l -> loop_handle config_ e l = Some l' ->
  served_loop_inv (MkServedLoop l' received waiting results).
Proof.
  intros Hs Hcmd He Hh. pose proof (sli_loop _ Hs) as Hl. pose proof (loop_inv_step _ _ _ Hl He Hh) as Hl'.
  assert (Hsame : connections_ l' = connections_ l -> next_connection_id_ l' = next_connection_id_ l ->
    served_loop_inv (MkServedLoop l' received waiting results)).
  { intros E1 E2. by eapply quiet_step; [exact Hs|done|apply loop_quiet_same|]. }
  destruct e as [| |send_ok recv_ok| |ids|ids| | | |b]; try done; cbn [loop_handle] in Hh.
  - eapply start_step; [|done|exact Hh].
    eapply quiet_step; [exact Hs|by apply CollectClosed_inv|apply Collect_quiet|done].
  - injection Hh as <-. eapply quiet_step; [exact Hs|done|apply Collect_quiet|done].
  - unfold BeginDrainOnContext in Hh. destruct (for_each_connection _ _ _) as [l1|] eqn:Ef; [|done]. injection Hh as <-.
    eapply quiet_step; [exact Hs|done| |exact (for_each_next _ _ _ _ Ef)].
    pose proof (for_each_quiet _ _ _ _ BeginDrain_quiet Ef) as Hq. exact Hq.
  - unfold CloseConnectionsOnContext in Hh. destruct (for_each_connection _ _ _) as [l1|] eqn:Ef; [|done]. injection Hh as <-.
    eapply quiet_step; [exact Hs|done| |exact (for_each_next _ _ _ _ Ef)].
    eapply loop_quiet_trans; [|apply Collect_quiet]. eapply for_each_quiet; [|exact Ef]. cbn. intros b c c'.
    destruct (is_closed c); [intros [= <-]; apply quiet_refl|]. intros Hc. by apply frame_quiet, (Close_frame b).
  - injection Hh as <-. unfold IoLoop_Start in *. by case_match; apply Hsame.
  - injection Hh as <-. unfold IoLoop_BeginDrain in *. by repeat case_match; apply Hsame.
  - injection Hh as <-. by apply Hsame.
  - injection Hh as <-. by apply Hsame.
Qed.

Lemma worker_step id w w' batch before after l received results posted :
  served_loop_inv (MkServedLoop l received (before ++ (id, batch) :: after) results) ->
  ExecuteRequestBatchOnWorker id registry (conn_protocol_limits_ config_) w batch = Some (w', posted) ->
  served_loop_inv (MkServedLoop l received (before ++ after) (results ++ posted)).
Proof.
  intros [] Hx. cbn in *. pose proof (Execute_ids _ _ _ _ _ _ Hx) as Hids. split; cbn; [done| |].
  - intros k c Hc. specialize (sli_connections0 k c Hc). destruct (decide (k = id)) as [->|Hne].
    + destruct sli_connections0 as (rest & live & a & requests & replied & owed & Hv). unfold view in Hv.
      change ((id, batch) :: after) with ((pair id <$> [batch]) ++ after) in Hv.
      rewrite !waiting_of_app, waiting_of_pairs, decide_True in Hv by done.
      destruct (li_connections config_ l sli_loop0 id c Hc) as [Hcfg _]. rewrite <- Hcfg in Hx.
      destruct (inv_execute registry _ _ _ _ _ id w w' batch _ _ (with_acct a c) _ _ posted registry_good Hv Hx) as [owed' Hv'].
      exists rest, live, a, requests, replied, owed'. unfold view.
      rewrite waiting_of_app, results_of_app, (results_of_posted id id _ _ _ posted), decide_True by done. exact Hv'.
    + refine (connection_ok_view _ _ _ _ _ _ _ sli_connections0); [done|..].
      * change ((id, batch) :: after) with ((pair id <$> [batch]) ++ after).
        rewrite !waiting_of_app, waiting_of_pairs, decide_False by done. done.
      * rewrite results_of_app, (results_of_posted k id _ _ _ posted), decide_False by done. by rewrite app_nil_r.
  - intros Hn k Hk. apply sli_ids0; [done|]. unfold id_used in *. cbn in *. rewrite !fmap_app, !elem_of_app in *.
    rewrite fmap_cons, elem_of_cons. destruct Hk as [?|[?|[?|Hk]]]; [tauto..|]. cbn. right. left. right. left.
    apply list_elem_of_fmap in Hk as (r & -> & Hr). rewrite Forall_forall in Hids. by rewrite Hids.
Qed.

(** A posted result can be handled. *)
Lemma result_enabled s alloc_ok r send_ok :
  served_loop_inv s -> r ∈ sl_results s -> len (response_bytes_ r) < 2 ^ 64 ->
  loop_enabled config_ (LvResult send_ok alloc_ok r) (sl_loop s).
Proof.
  intros Hs Hr Hlen c Hc. destruct (sli_connections _ Hs _ c Hc) as (rest & live & a & requests & replied & owed & Hv).
  pose proof (inv_enabled registry _ _ _ _ _ alloc_ok r _ registry_good Hv) as He. unfold view in He. cbn in He.
  assert (He' : enabled (result_event alloc_ok r) (with_acct a c)).
  { apply He; [|done]. apply list_elem_of_filter. done. }
  exact (enabled_with_acct _ (owner_acct_ c) _ He').
Qed.

Lemma result_step send_ok alloc_ok r before after l l' received waiting :
  served_loop_inv (MkServedLoop l received waiting (before ++ r :: after)) ->
  len (response_bytes_ r) < 2 ^ 64 -> HandleWorkerResult send_ok alloc_ok r l = Some l' ->
  served_loop_inv (MkServedLoop l' received waiting (before ++ after)).
Proof.
  intros Hs Hlen Hh.
  assert (He : loop_enabled config_ (LvResult send_ok alloc_ok r) l).
  { apply (result_enabled (MkServedLoop l received waiting (before ++ r :: after))); [done|cbn; set_solver|done]. }
  pose proof (loop_inv_step (LvResult send_ok alloc_ok r) l l' (sli_loop _ Hs) He Hh) as Hl'.
  assert (Hother : forall k, k <> result_connection_id_ r ->
    results_of k (MkServedLoop l received waiting (before ++ r :: after)) = results_of k (MkServedLoop l' received waiting (before ++ after))).
  { intros k Hne. rewrite !results_of_app. f_equal. unfold results_of. cbn [sl_results]. by rewrite filter_cons_False. }
  unfold HandleWorkerResult in Hh. split; cbn [sl_loop]; [done| |].
  - intros k c' Hk. destruct (decide (k = result_connection_id_ r)) as [->|Hne].
    + destruct (on_connection_result _ _ _ _ _ Hh Hk) as (c & Hc & Hf).
      destruct (connection_runs _ c _ Hs Hc) as (rest & live & requests & replied & owed & Hv). unfold view in Hv.
      assert (Hf' : handle send_ok true (result_event alloc_ok r) (with_acct (loop_acct_ l) c) = Some c')
        by (unfold result_event; by destruct (encode_failed_ r)).
      rewrite results_of_app in Hv. unfold results_of at 2 in Hv. cbn [sl_results] in Hv. rewrite filter_cons_True in Hv by done.
      destruct (inv_deliver registry _ _ _ _ _ send_ok true alloc_ok r _ _ _ c' _ _ registry_good Hv Hlen Hf') as (replied' & owed' & Hv').
      eapply connection_ok_intro. unfold view. rewrite results_of_app. exact Hv'.
    + rewrite (on_connection_other _ _ _ _ _ Hh Hne) in Hk.
      refine (connection_ok_view _ _ _ _ _ _ _ (sli_connections _ Hs k c' Hk)); [done|done|]. symmetry. by apply Hother.
  - rewrite (on_connection_next _ _ _ _ Hh). intros Hn k Hu. apply (sli_ids _ Hs Hn). unfold id_used in *. cbn in *.
    rewrite !fmap_app, !elem_of_app in *. rewrite fmap_cons, elem_of_cons. tauto.
Qed.

Lemma served_loop_inv_reachable s : rtc serve_loop_step served_loop_new s -> served_loop_inv s.
Proof.
  apply (rtc_preserves serve_loop_step served_loop_inv).
  - intros s1 s2 Hs Hstep. destruct Hstep.
    + by eapply completion_step.
    + by eapply command_step.
    + by eapply worker_step.
    + by eapply result_step.
  - split; cbn; [apply loop_inv_new|done|]. intros _ id [[x Hx]|[Hx|Hx]]; [done|by apply elem_of_nil in Hx..].
Qed.

(** ** Properties *)

(** C3: Each connection of a loop replies to its own requests, and to each of them once.
    The connections of a loop come and go, workers execute the batches of all of
    them in any order, and results are handled in any order; the bytes that a
    connection accepts and sends are replies to requests that arrived on it, with
    one reply at most for each, and exactly one while the connection is active and
    none of its requests is with the workers. *)
Theorem ServedLoop_exactly_once s id c :
  rtc serve_loop_step served_loop_new s -> connections_ (sl_loop s) !! id = Some c ->
  each_replied_once registry (view id c s).
Proof.
  intros Hr Hc. destruct (sli_connections s (served_loop_inv_reachable s Hr) id c Hc)
    as (rest & live & a & requests & replied & owed & Hv).
  apply served_inv_once in Hv. exact Hv.
Qed.

(** C7: Worker results never break a loop, and a loop drains when the work is done.
    Handling a posted result never fails an assertion, also when its connection is
    gone; the requests in flight on a connection are exactly those that wait for a
    worker and those that posted results release; and once a drain has begun, no
    batch or result is left and all accepted bytes are sent, [FinishDrain] returns. *)
Theorem ServedLoop_results_handled s :
  rtc serve_loop_step served_loop_new s ->
  (forall send_ok alloc_ok r, r ∈ sl_results s -> len (response_bytes_ r) < 2 ^ 64 ->
     is_Some (HandleWorkerResult send_ok alloc_ok r (sl_loop s))) /\
  (forall id c, connections_ (sl_loop s) !! id = Some c ->
     inflight_requests_ c = len (concat (waiting_of id s)) + zsum released_requests_ (results_of id s)) /\
  (drain_begun (sl_loop s) = true -> sl_waiting s = [] -> sl_results s = [] ->
   (forall id c, connections_ (sl_loop s) !! id = Some c -> pending_write_bytes_ c = 0) ->
   is_Some (FinishDrain_wait (sl_loop s))).
Proof.
  intros Hr. pose proof (served_loop_inv_reachable s Hr) as Hs.
  assert (Hin : forall id c, connections_ (sl_loop s) !! id = Some c ->
    inflight_requests_ c = len (concat (waiting_of id s)) + zsum released_requests_ (results_of id s)).
  { intros id c Hc. destruct (sli_connections s Hs id c Hc) as (rest & live & a & requests & replied & owed & Hv).
    apply served_inv_inflight in Hv. exact Hv. }
  split_and!; [|exact Hin|].
  - intros send_ok alloc_ok r Hin' Hlen.
    destruct (loop_handle_inv config_ (LvResult send_ok alloc_ok r) (sl_loop s) config_good (sli_loop s Hs)) as (l' & E & _).
    + by apply result_enabled.
    + exists l'. exact E.
  - intros Hd Hw Hres Hp. apply (FinishDrain_idle config_); [exact (sli_loop s Hs)|done|]. intros id c Hc.
    split; [|by eapply Hp]. rewrite (Hin id c Hc). unfold waiting_of, results_of. by rewrite Hw, Hres.
Qed.

End served_loop.

(** *** Witnesses: an echo service behind one connection of a loop *)
Section ServedLoopWitnesses.
Import ExampleWire.

Abbreviation echo_handle := (loop_handle example_conn_config).
Abbreviation echo_loop_step := (serve_loop_step echo_registry example_conn_config).

Definition echo_recv (data : bytes) : event := EvRecv (MkPoolAnswer true true) (RecvBytes 64 data).
Definition echo_sent : event := EvSend (len echo_response_frame).
Definition echo_loop_result : WorkerResult := MkWorkerResult 1 echo_response_frame 1 false.

Fixpoint run_events (es : list loop_event) (l : IoLoop) : IoLoop :=
  match es with [] => l | e :: es => run_events es (default l (echo_handle e l)) end.

Definition echo_loop_started : IoLoop := run_events [LvOwnerStart; LvStartConnection true true] IoLoop_new.
Definition echo_loop_submitted : IoLoop :=
  run_events [LvCompletion 1 true true (echo_recv (take 30 echo_frame));
    LvCompletion 1 true true (echo_recv (drop 30 echo_frame))] echo_loop_started.
Definition echo_loop_done : IoLoop :=
  run_events [LvResult true true echo_loop_result; LvCompletion 1 true true echo_sent] echo_loop_submitted.

Definition echo_served_posted : served_loop :=
  MkServedLoop echo_loop_submitted {[ 1 := echo_frame ]} [] [echo_loop_result].
Definition echo_served_done : served_loop := MkServedLoop echo_loop_done {[ 1 := echo_frame ]} [] [].

Definition echo_served_new : served_loop := MkServedLoop echo_loop_started ∅ [] [].

Definition echo_new_connection : ServerConnection :=
  default (ServerConnection_new example_conn_config example_acct) (connections_ echo_loop_started !! 1).
Definition echo_loop_connection : ServerConnection :=
  default (ServerConnection_new example_conn_config example_acct) (connections_ echo_loop_done !! 1).

Lemma enabled_on id e l c :
  connections_ l !! id = Some c -> enabled e c -> loop_enabled example_conn_config (LvCompletion id true true e) l.
Proof. intros Hc He c' Hc'. congruence. Qed.

Ltac loop_is x :=
  match goal with |- rtc _ ?y _ => assert (y = x) as -> by (vm_compute; reflexivity) end.

Ltac completes e :=
  eapply rtc_l; [eapply (serve_completion _ _ 1 true true e);
    [exact I|eapply enabled_on; [vm_compute; reflexivity|vm_compute; (split; reflexivity) || discriminate]|vm_compute; reflexivity..]|].

Lemma echo_served_new_run : rtc echo_loop_step served_loop_new echo_served_new.
Proof.
  eapply rtc_l; [apply (serve_command _ _ LvOwnerStart); [exact I|exact I|vm_compute; reflexivity]|].
  eapply rtc_l; [apply (serve_command _ _ (LvStartConnection true true)); [exact I|by vm_compute|vm_compute; reflexivity]|].
  loop_is echo_served_new. apply rtc_refl.
Qed.

Lemma echo_served_posted_run : rtc echo_loop_step served_loop_new echo_served_posted.
Proof.
  etrans; [exact echo_served_new_run|].
  completes (echo_recv (take 30 echo_frame)).
  completes (echo_recv (drop 30 echo_frame)).
  eapply rtc_l.
  { apply (serve_worker _ _ 1 tt tt [echo_request] [] [] _ _ _ [echo_loop_result]). vm_compute. reflexivity. }
  loop_is echo_served_posted. apply rtc_refl.
Qed.

Lemma echo_served_done_run : rtc echo_loop_step served_loop_new echo_served_done.
Proof.
  etrans; [exact echo_served_posted_run|].
  eapply rtc_l; [apply (serve_result _ _ true true echo_loop_result [] []); vm_compute; reflexivity|].
  completes echo_sent. loop_is echo_served_done. apply rtc_refl.
Qed.

Lemma example_conn_config_ok : config_ok example_conn_config.
Proof. repeat (split; try done). Qed.

Lemma ServedLoop_exactly_once_witness :
  each_replied_once echo_registry (view 1 echo_loop_connection echo_served_done).
Proof.
  apply (ServedLoop_exactly_once echo_registry example_conn_config example_conn_config_ok echo_registry_ok);
    [exact echo_served_done_run|vm_compute; reflexivity].
Defined.

Lemma ServedLoop_results_handled_witness :
  is_Some (HandleWorkerResult true true echo_loop_result (sl_loop echo_served_posted)).
Proof.
  destruct (ServedLoop_results_handled echo_registry example_conn_config example_conn_config_ok echo_registry_ok
    echo_served_posted echo_served_posted_run) as (Hr & _).
  apply Hr; [left|vm_compute; reflexivity].
Defined.

End ServedLoopWitnesses.
