(* ===== verification/Network.v ===== *)
(** * The client transport over connections to the server

    Composes the multiplexed connection of the client (TcpTransport) with the
    connection loops of the server and their workers (ServedLoop).

    [net] adds to the state of the transport what the kernel keeps: the bytes that
    [send] accepted on each connection, in order, and the bytes that [recv] took
    from it.  A [send] goes to the open connection with that descriptor number; a
    [recv] takes from the reader's own connection or, when its descriptor number is
    in use again, from the connection that has it now.  What can be received on a
    connection is what a connection of a server loop sends that has got some of the
    bytes written so far ([connection_served]).

    The theorem shows that a response is the server's reply to the caller's own
    request, in every run in which the kernel does not give a new connection the
    descriptor number that a thread of the transport is still using.  Without that
    condition it does not hold: a second theorem shows a run in which one frame is
    split over two connections. *)

From S2P Require Import Prelude Text Status FrameHeader FrameCodec FrameStream ServiceRegistry Socket ConsulHttp Naming Consul Routing ServerConfig ServerConnection TcpTransport ConnectionIoLoop ServedConnection ServedLoop.

Local Open Scope Z_scope.

(** A response as its frame decodes: an OK status has no message. *)
Definition received_response (y : ResponseEnvelope) : ResponseEnvelope :=
  MkResponseEnvelope (resp_request_id_ y)
    (DecodeStatus (StatusCode_value (code_ (resp_status_ y))) (message_ (resp_status_ y)))
    (resp_payload_ y).

Lemma received_response_ok y :
  Status_ok (resp_status_ (received_response y)) = Status_ok (resp_status_ y).
Proof. unfold received_response. cbn. rewrite DecodeStatus_value. by destruct (resp_status_ y) as [[] ?]. Qed.

(** The response [x] is the server's reply to [request], as it is received. *)
Definition reply_received {World} (registry : ServiceRegistry World) (request : RequestEnvelope)
    (x : ResponseEnvelope) : Prop :=
  exists y, reply registry request y /\ x = received_response y.

(** ** What the server puts on a connection *)

Section server.
Context {W : Wire} {L : WireLaws W} {World : Type} (registry : ServiceRegistry World) (limits : ProtocolLimits).

(** A connection of a server loop that got some of the bytes [written] in some
    pieces, and has sent back [out]. *)
Definition connection_served (written out : bytes) : Prop :=
  exists config s id c,
    len written < 2 ^ 63 /\ config_ok config /\ conn_protocol_limits_ config = limits /\
    rtc (serve_loop_step registry config) served_loop_new s /\ connections_ (sl_loop s) !! id = Some c /\
    received_by id s `prefix_of` written /\ out = sent_bytes c.

(** The frame of a request that can be decoded again. *)
Definition request_frame (request : RequestEnvelope) (frame : bytes) : Prop :=
  is_u 64 (req_request_id_ request) /\ proto_text (service_name_ request) /\
  proto_text (method_name_ request) /\
  FrameCodec_EncodeRequest limits request = Some (StatusOr_value frame).

Lemma request_frame_len request frame : request_frame request frame -> len frame < 2 ^ 34.
Proof.
  intros (Hid & _ & _ & He). destruct (EncodeRequest_value _ _ _ Hid He) as (m & _ & (Hm & _ & Hp & _) & ->).
  rewrite len_frame_bytes. unfold UINT32_MAX in *. lia.
Qed.

(** An encoded reply to one of the requests. *)
Definition reply_frame_in (requests : list RequestEnvelope) (frame : bytes) : Prop :=
  exists request, request ∈ requests /\ reply_frame registry limits request frame.

Lemma Parses_total b : len b < 2 ^ 64 -> exists rs rest c, Parses limits b rs rest c.
Proof.
  intros Hb. destruct (feed_all_new limits [(0, b)]) as (st & rs & rest & _ & _ & HP & _); cbn.
  - unfold chunk_bytes. cbn. by rewrite app_nil_r.
  - unfold chunk_bytes in HP. cbn in HP. rewrite app_nil_r in HP. eauto.
Qed.

(** A part of a stream of request frames gives some of the requests. *)
Lemma Parses_part b more rs rest c sent :
  len (b ++ more) < 2 ^ 64 -> Parses limits b rs rest c -> Parses limits (b ++ more) sent [] false -> rs `prefix_of` sent.
Proof.
  intros Hlen Hb Hall. destruct c.
  - destruct (Parses_det _ _ _ _ _ _ _ _ (Parses_closed_app limits b rs rest more Hb) Hall) as (_ & _ & [=]).
  - pose proof (Parses_rest_length _ _ _ _ _ Hb) as Hr.
    destruct (Parses_total (rest ++ more)) as (rs' & rest' & c & HP); [rewrite len_app in *; lia|].
    destruct (Parses_det _ _ _ _ _ _ _ _ (Parses_app limits b rs rest more rs' rest' c Hb HP) Hall) as (<- & _).
    by apply prefix_app_r.
Qed.

(** What the server sends on a connection is the beginning of replies to requests
    whose frames were written on it. *)
Lemma connection_frames sent fs written out :
  limits_ok limits -> registry_ok registry -> Forall2 request_frame sent fs ->
  written `prefix_of` concat fs -> len (concat fs) < 2 ^ 64 -> connection_served written out ->
  exists frames, out `prefix_of` concat frames /\ Forall (reply_frame_in sent) frames.
Proof.
  intros Hl Hreg Hf Hwr Hlen (config & s & id & c & _ & Hok & Hcfg & Hrun & Hc & Hpre & ->).
  pose proof (served_loop_inv_reachable registry config Hok Hreg s Hrun) as Hs.
  destruct (li_connections config _ (sli_loop _ _ _ Hs) id c Hc) as [Hcc _].
  destruct (sli_connections _ _ _ Hs id c Hc) as (rest & live & a & requests & replied & owed & []). cbn in *.
  destruct si_decoded as (fed & Hfed & _ & HP), si_replied as (frames & E & Hall), si_placed as [Hsub _]. cbn in *.
  rewrite Hcc, Hcfg in *. pose proof (Parses_frames limits sent fs Hl Hf) as HPs.
  destruct (transitivity Hfed (transitivity Hpre Hwr)) as [more Hmore]. rewrite Hmore in HPs, Hlen.
  destruct (Parses_part _ _ _ _ _ _ Hlen HP HPs) as [later ->].
  exists frames. rewrite <- E. split; [by destruct si_conn as ((_ & _ & _ & ? & _) & _)|].
  apply Forall_forall. intros frame Hin. apply list_elem_of_lookup in Hin as [i Hi].
  destruct (Forall2_lookup_r _ _ _ _ _ Hall Hi) as (request & Hrq & Hrf). exists request. split; [|done].
  apply elem_of_app. left. eapply elem_of_submseteq; [|exact Hsub]. apply elem_of_app. left.
  by eapply list_elem_of_lookup_2.
Qed.

Context (limits_good : limits_ok limits) (registry_good : registry_ok registry).

(** Decoding at the start of a reply frame gives the reply. *)
Lemma Decode_reply_frame request frame rest :
  id_ok request -> reply_frame registry limits request frame ->
  exists y, reply registry request y /\
    FrameCodec_Decode limits (frame ++ rest) = MkFrameDecodeResult ProtoOk (len frame) None (Some (received_response y)).
Proof.
  intros Hid (y & Hy & He). exists y. split; [done|].
  destruct (reply_facts registry request y registry_good Hy) as (E & Htext & Hlen).
  assert (Hu : is_u 64 (resp_request_id_ y)) by (by rewrite E).
  destruct (EncodeResponse_value limits y frame Hu He) as (Hfit & ->).
  rewrite (Decode_response_frame limits _ (StatusCode_value (code_ (resp_status_ y))) (message_ (resp_status_ y)));
    [done..|by apply EncodeResponseMetadata_parses].
Qed.

Section aligned.
Context (requests : list RequestEnvelope) (ids_good : Forall id_ok requests).

Lemma reply_in_Decode frame rest :
  reply_frame_in requests frame ->
  exists request y, request ∈ requests /\ reply registry request y /\
    FrameCodec_Decode limits (frame ++ rest) = MkFrameDecodeResult ProtoOk (len frame) None (Some (received_response y)).
Proof.
  intros (request & Hin & Hf). rewrite Forall_forall in ids_good.
  destruct (Decode_reply_frame request frame rest (ids_good _ Hin) Hf) as (y & Hy & E). eauto.
Qed.

(** Two ways to cut the same bytes into reply frames agree. *)
Lemma frames_aligned before frames rest :
  Forall (reply_frame_in requests) before -> Forall (reply_frame_in requests) frames ->
  concat before ++ rest = concat frames ->
  exists later, frames = before ++ later /\ rest = concat later.
Proof.
  intros Hb. revert frames. induction Hb as [|d before Hd _ IH]; intros frames Hf E; [by exists frames|].
  destruct (reply_in_Decode d (concat before ++ rest) Hd) as (? & ? & _ & _ & Hdd).
  destruct Hf as [|f frames Hf Hfs].
  - cbn in E. rewrite <- app_assoc in E. by rewrite E in Hdd.
  - destruct (reply_in_Decode f (concat frames) Hf) as (? & ? & _ & _ & Hdf). cbn in E. rewrite <- app_assoc in E.
    rewrite E, Hdf in Hdd. injection Hdd as Hlen _.
    assert (d = f /\ concat before ++ rest = concat frames) as [-> E'].
    { apply app_inj_1; [unfold len in Hlen; lia|done]. }
    destruct (IH frames Hfs E') as (later & -> & ->). by exists later.
Qed.

(** The next whole frame in a buffer is the next reply. *)
Lemma Decode_reply frames b more :
  Forall (reply_frame_in requests) frames -> b ++ more = concat frames ->
  error_ (FrameCodec_Decode limits b) = ProtoOk ->
  exists request y frame, reply_frame_in requests frame /\
    request ∈ requests /\ reply registry request y /\
    response_ (FrameCodec_Decode limits b) = Some (received_response y) /\
    consumed_ (FrameCodec_Decode limits b) = len frame /\ b = frame ++ drop (length frame) b.
Proof.
  intros Hall Hb Hok.
  assert (HD : FrameCodec_Decode limits (b ++ more) = FrameCodec_Decode limits b) by (apply Decode_app; congruence).
  pose proof (Decode_ok_consumed limits b Hok) as Hc. rewrite Hb in HD.
  destruct Hall as [|frame frames Hframe _]; [by rewrite <- HD in Hok|].
  destruct (reply_in_Decode frame (concat frames) Hframe) as (request & y & Hin & Hy & Hdec).
  cbn in HD, Hb. rewrite Hdec in HD. rewrite <- HD in *. cbn in Hc |- *. exists request, y, frame. split_and!; try done.
  assert (Ht : take (length frame) (b ++ more) = take (length frame) b) by (apply take_app_le; unfold len in Hc; lia).
  rewrite Hb, take_app_length in Ht. rewrite Ht at 1. by rewrite take_drop.
Qed.

End aligned.
End server.

(** ** The transport over such connections *)

(** The transport, what [send] accepted on each connection and what [recv] took. *)
Record net := MkNet { net_transport : transport; net_written : gmap nat bytes; net_received : gmap nat bytes }.

Definition net_new (n : nat) : net := MkNet (transport_new n) ∅ ∅.

Definition written_on (g : nat) (n : net) : bytes := default [] (net_written n !! g).
Definition received_on (g : nat) (n : net) : bytes := default [] (net_received n !! g).

(** What a step of a caller handed to the kernel. *)
Definition newly_sent (i : nat) (s s' : transport) : bytes := drop (length (sent_of i s)) (sent_of i s').

(** What a step of a reader took from a connection. *)
Definition newly_received (pc pc' : reader_pc) : bytes :=
  match pc, pc' with RLoop b, RLoop b' => drop (length b) b' | _, _ => [] end.

(** The connection that is open and has the number [fd]. *)
Definition open_as (fd : Z) (g : nat) (s : transport) : Prop := t_socket s = Some g /\ t_fds s !! g = Some fd.

(** The connections that the reader [g] can take bytes from. *)
Definition receives_from (g h : nat) (s : transport) : Prop :=
  h = g \/ exists fd, t_fds s !! g = Some fd /\ open_as fd h s.

(** A reader that may still call [recv] with its descriptor number. *)
Definition receiving (pc : reader_pc) : bool :=
  match pc with RLoop _ | RComplete _ _ _ => true | _ => false end.

(** No thread uses the number [fd] any more. *)
Definition descriptor_free (fd : Z) (s : transport) : Prop :=
  (forall g pc, t_fds s !! g = Some fd -> t_readers s !! g = Some pc -> receiving pc = false) /\
  (forall i written retrying, t_callers s !! i <> Some (CSending fd written retrying)).

Section network.
Context {W : Wire} {L : WireLaws W} (error_message : Z -> bytes).
Context (request : nat -> RequestEnvelope) (options : nat -> EffectiveCallOptions).
Context (limits : ProtocolLimits) (max_inflight : Z).
Context {World : Type} (registry : ServiceRegistry World).

Abbreviation caller_step := (caller_step error_message request options limits max_inflight).
Abbreviation reader_step := (reader_step error_message limits).

(** A step of the transport, and what the kernel does with the bytes. *)
Inductive net_step : net -> net -> Prop :=
  | net_caller i pc s s' written received :
      t_callers s !! i = Some pc -> caller_step i s pc s' -> sent_of i s' = sent_of i s ->
      net_step (MkNet s written received) (MkNet s' written received)
  | net_send i g fd w retrying s s' written received :
      t_callers s !! i = Some (CSending fd w retrying) -> caller_step i s (CSending fd w retrying) s' ->
      open_as fd g s ->
      net_step (MkNet s written received)
        (MkNet s' (<[g := default [] (written !! g) ++ newly_sent i s s']> written) received)
  | net_reader g pc pc' s s' written received :
      t_readers s !! g = Some pc -> reader_step g s pc s' -> t_readers s' !! g = Some pc' ->
      newly_received pc pc' = [] ->
      net_step (MkNet s written received) (MkNet s' written received)
  | net_receive g h pc pc' out s s' written received :
      t_readers s !! g = Some pc -> reader_step g s pc s' -> t_readers s' !! g = Some pc' ->
      receives_from g h s -> connection_served registry limits (default [] (written !! h)) out ->
      (default [] (received !! h) ++ newly_received pc pc') `prefix_of` out ->
      net_step (MkNet s written received)
        (MkNet s' written (<[h := default [] (received !! h) ++ newly_received pc pc']> received)).

(** A connection that the step opens has a number no thread uses. *)
Definition opens_fresh (n n' : net) : Prop :=
  forall fd, t_fds (net_transport n') = t_fds (net_transport n) ++ [fd] -> descriptor_free fd (net_transport n).

Definition fresh_step (n n' : net) : Prop := net_step n n' /\ opens_fresh n n'.

(** Forgetting the bytes gives a run of the transport. *)
Lemma net_tstep n n' : net_step n n' ->
  tstep error_message request options limits max_inflight (net_transport n) (net_transport n').
Proof. intros []; cbn; eauto using tstep_caller, tstep_reader. Qed.

(** *** What the steps of the transport change *)

Lemma caller_step_readers i s pc s' :
  caller_step i s pc s' -> t_readers s' = t_readers s \/ t_readers s' = t_readers s ++ [RLoop []].
Proof. intros H. caller_cases H; cbn; auto. all: unfold TryRegisterPending; case_match; auto. Qed.

(** Callers store failures only. *)
Lemma caller_step_results i s pc s' j x :
  caller_step i s pc s' -> t_results s' !! j = Some (CallResponse x) -> t_results s !! j = Some (CallResponse x).
Proof.
  intros H. caller_cases H; cbn; auto; [unfold TryRegisterPending; case_match; auto|].
  destruct (decide (j0 = j)) as [->|Hne]; [by rewrite lookup_insert_eq|by rewrite lookup_insert_ne].
Qed.

(** A caller ends with a response only by finding it stored. *)
Lemma caller_step_done i s pc s' j x :
  caller_step i s pc s' -> t_callers s' !! j = Some (CDone (CallResponse x)) ->
  t_callers s !! j = Some (CDone (CallResponse x)) \/ t_results s !! j = Some (CallResponse x).
Proof.
  intros H. caller_cases H; cbn; unfold TryRegisterPending; try case_match; cbn; intros Hj; try (by left);
    (apply list_lookup_insert_Some in Hj as [(<- & E & _)|(_ & Hj)]; [|by left]); try done; right; congruence.
Qed.

Lemma reader_step_frame g s pc s' :
  reader_step g s pc s' ->
  t_callers s' = t_callers s /\ t_fds s' = t_fds s /\ t_sent s' = t_sent s /\
  (t_socket s' = t_socket s \/ t_socket s' = None) /\
  exists pc', t_readers s' = <[g := pc']> (t_readers s) /\ (receiving pc' = true -> receiving pc = true).
Proof. intros H. reader_cases H; cbn; split_and!; eauto; eexists; split; try reflexivity; done. Qed.

(** *** What was written *)

(** The calls of the run that [n] says, with frames that can be decoded again. *)
Definition calls_ok (n : nat) : Prop :=
  forall a, (a < n)%nat ->
    is_u 64 (rid request a) /\ proto_text (service_name_ (request a)) /\ proto_text (method_name_ (request a)).

(** [b] is the frames of some calls one after the other, and [part]. *)
Definition framed (n : nat) (part b : bytes) : Prop :=
  exists calls fs, Forall2 (fun a f => (a < n)%nat /\ frame_of request limits a = Some f) calls fs /\
    b = concat fs ++ part.

(** [b] is the beginning of such frames; the last one may be cut. *)
Definition framed_part (n : nat) (b : bytes) : Prop :=
  exists a frame part, framed n part b /\ (part = [] \/ (a < n)%nat /\ frame_of request limits a = Some frame /\ part `prefix_of` frame).

Lemma framed_nil n : framed n [] [].
Proof. by exists [], []. Qed.

Lemma framed_part_whole n b : framed n [] b -> framed_part n b.
Proof. intros H. exists 0%nat, [], []. auto. Qed.

(** The last frame is complete. *)
Lemma framed_complete n a frame b :
  (a < n)%nat -> frame_of request limits a = Some frame -> framed n frame b -> framed n [] b.
Proof.
  intros Ha Hf (calls & fs & Hall & ->). exists (calls ++ [a]), (fs ++ [frame]). split.
  - apply Forall2_app; [done|]. by constructor.
  - rewrite concat_app. cbn. by rewrite !app_nil_r.
Qed.

(** Positions in the middle of a frame. *)
Definition in_frame (pc : caller_pc) : bool :=
  match pc with CSending _ _ _ | CClose _ => true | _ => false end.

(** What was written on the open connection [g]: whole frames, and the part of its
    frame that the caller in [SendAll] on this connection has sent. *)
Record wire_ok (n : nat) (m : net) : Prop := {
  wo_part : forall g, framed_part n (written_on g m);
  wo_fresh : forall g, (length (t_fds (net_transport m)) <= g)%nat -> written_on g m = [];
  wo_idle : forall g, t_socket (net_transport m) = Some g ->
    (forall i pc, t_callers (net_transport m) !! i = Some pc -> in_frame pc = false) ->
    framed n [] (written_on g m);
  wo_sending : forall g i fd w retrying frame, t_socket (net_transport m) = Some g ->
    t_callers (net_transport m) !! i = Some (CSending fd w retrying) -> frame_of request limits i = Some frame ->
    framed n (if decide (t_fds (net_transport m) !! g = Some fd) then take (Z.to_nat w) frame else [])
      (written_on g m)
}.

Lemma wire_ok_quiet n i pc pc' s s' written received :
  wire_ok n (MkNet s written received) -> t_callers s !! i = Some pc ->
  t_callers s' = <[i := pc']> (t_callers s) -> t_fds s' = t_fds s ->
  (t_socket s' = t_socket s /\ (in_frame pc = true -> in_frame pc' = true)) \/ t_socket s' = None ->
  (forall fd w retrying, pc' = CSending fd w retrying -> exists r, pc = CSending fd w r) ->
  wire_ok n (MkNet s' written received).
Proof.
  intros [] Hi Hc Hf Hs Hpc. cbn in *. split; cbn; rewrite ?Hf; try done.
  - intros g Hg Hidle. destruct Hs as [[Hs Hin]|Hs]; [|congruence]. rewrite Hs in Hg. apply wo_idle0; [done|].
    intros j q Hj. destruct (decide (j = i)) as [->|Hne].
    + rewrite Hi in Hj. injection Hj as <-. apply not_true_is_false. intros E. specialize (Hin E).
      rewrite (Hidle i pc') in Hin; [done|]. rewrite Hc. apply list_lookup_insert_eq. by eapply lookup_lt_Some.
    + apply (Hidle j). by rewrite Hc, list_lookup_insert_ne.
  - intros g j fd w retrying frame Hg Hj Hfr. destruct Hs as [[Hs _]|Hs]; [|congruence]. rewrite Hs in Hg.
    rewrite Hc in Hj. apply list_lookup_insert_Some in Hj as [(<- & E & _)|[_ Hj]]; [|by eapply wo_sending0].
    destruct (Hpc _ _ _ E) as [r ->]. by eapply wo_sending0.
Qed.

Lemma wire_ok_open n i pc pc' fd s s' written received :
  wire_ok n (MkNet s written received) -> t_callers s !! i = Some pc ->
  t_callers s' = <[i := pc']> (t_callers s) -> t_fds s' = t_fds s ++ [fd] ->
  t_socket s' = Some (length (t_fds s)) -> descriptor_free fd s -> in_frame pc' = false ->
  wire_ok n (MkNet s' written received).
Proof.
  intros [] Hi Hc Hf Hs [_ Hfree] Hpc. cbn in *.
  assert (E : default [] (written !! length (t_fds s)) = []) by (by apply (wo_fresh0 (length (t_fds s)))).
  split; cbn; rewrite ?Hf, ?Hs; try done.
  - intros g Hg. apply wo_fresh0. rewrite length_app in Hg. lia.
  - intros g [= <-] _. unfold written_on. cbn. rewrite E. apply framed_nil.
  - intros g j fd' w retrying frame [= <-] Hj Hfr. rewrite Hc in Hj.
    apply list_lookup_insert_Some in Hj as [(_ & -> & _)|[_ Hj]]; [done|].
    rewrite list_lookup_middle by done. rewrite decide_False by (intros [= ->]; by eapply Hfree).
    unfold written_on. cbn. rewrite E. apply framed_nil.
Qed.

(** The caller with the mutex starts its frame: nobody else is in one. *)
Lemma wire_ok_begin n i s s' fd written received :
  wire_ok n (MkNet s written received) -> writer_ok s -> t_callers s !! i = Some CWrite ->
  s' = set_caller i (CSending fd 0 false) s -> wire_ok n (MkNet s' written received).
Proof.
  intros [] Hw Hi ->. cbn in *. pose proof (Hw i _ Hi eq_refl) as Hm.
  assert (Hidle : forall j q, t_callers s !! j = Some q -> in_frame q = false).
  { intros j q Hj. apply not_true_is_false. intros E.
    assert (writing q = true) as Hwq by (by destruct q). pose proof (Hw j q Hj Hwq).
    assert (j = i) as -> by congruence. rewrite Hi in Hj. by injection Hj as <-. }
  split; cbn; try done.
  - intros g Hg _. by apply wo_idle0.
  - intros g j fd' w retrying frame Hg Hj Hfr. apply list_lookup_insert_Some in Hj as [(<- & E & _)|[_ Hj]].
    + injection E as <- <- <-. rewrite take_0. destruct (decide _); by apply wo_idle0.
    + apply Hidle in Hj. done.
Qed.

(** The caller has sent its whole frame. *)
Lemma wire_ok_sent n i s s' fd w retrying frame written received :
  wire_ok n (MkNet s written received) -> writer_ok s -> length (t_callers s) = n ->
  t_callers s !! i = Some (CSending fd w retrying) -> frame_of request limits i = Some frame -> len frame <= w ->
  s' = set_caller i CWait (set_write_mutex None s) -> wire_ok n (MkNet s' written received).
Proof.
  intros Hwire Hw Hn Hi Hf Hlen ->. pose proof Hwire as []. cbn in *. pose proof (Hw i _ Hi eq_refl) as Hm.
  split; cbn; try done.
  - intros g Hg _. pose proof (wo_sending0 g i fd w retrying frame Hg Hi Hf) as Hs.
    rewrite take_ge in Hs by (unfold len in Hlen; lia). destruct (decide _); [|done].
    eapply framed_complete; [|done|done]. rewrite <- Hn. by eapply lookup_lt_Some.
  - intros g j fd' w' r' f' Hg Hj Hfr. apply list_lookup_insert_Some in Hj as [(_ & [=] & _)|[_ Hj]].
    by eapply wo_sending0.
Qed.

(** The caller hands some more of its frame to the open connection. *)
Lemma wire_ok_send n i s s' g fd w retrying frame sent written received :
  wire_ok n (MkNet s written received) -> writer_ok s -> length (t_callers s) = n ->
  t_callers s !! i = Some (CSending fd w retrying) -> frame_of request limits i = Some frame ->
  0 <= w -> 0 < sent <= len frame - w -> open_as fd g s ->
  t_callers s' = <[i := CSending fd (w + sent) (w + sent <? len frame)]> (t_callers s) ->
  t_fds s' = t_fds s -> t_socket s' = t_socket s ->
  wire_ok n (MkNet s' (<[g := default [] (written !! g) ++ substr frame w sent]> written) received).
Proof.
  intros Hwire Hw Hn Hi Hf Hw0 Hsent [Hg Hfd] Hc Hf' Hs'. pose proof Hwire as []. cbn in *.
  pose proof (Hw i _ Hi eq_refl) as Hm. pose proof (lookup_lt_Some _ _ _ Hi) as Hlt.
  assert (Hnew : framed n (take (Z.to_nat (w + sent)) frame) (default [] (written !! g) ++ substr frame w sent)).
  { pose proof (wo_sending0 g i fd w retrying frame Hg Hi Hf) as (calls & fs & Hall & E). unfold written_on in E. cbn in E.
    rewrite decide_True in E by done. exists calls, fs. split; [done|]. rewrite E, <- app_assoc. f_equal.
    by rewrite take_substr by lia. }
  assert (Hon : forall h, written_on h (MkNet s' (<[g := default [] (written !! g) ++ substr frame w sent]> written) received) =
    if decide (h = g) then default [] (written !! g) ++ substr frame w sent else default [] (written !! h)).
  { intros h. unfold written_on. cbn. destruct (decide (h = g)) as [->|Hne]; [by rewrite lookup_insert_eq|by rewrite lookup_insert_ne]. }
  split; cbn [net_transport]; rewrite ?Hf', ?Hs'.
  - intros h. rewrite Hon. destruct (decide (h = g)) as [->|Hne]; [|apply wo_part0].
    exists i, frame, (take (Z.to_nat (w + sent)) frame). split; [done|right]. split_and!; [lia|done|apply prefix_take].
  - intros h Hh. rewrite Hon. rewrite decide_False; [by apply wo_fresh0|]. intros ->. apply lookup_lt_Some in Hfd. lia.
  - intros h _ Hidle. specialize (Hidle i (CSending fd (w + sent) (w + sent <? len frame))).
    rewrite Hc, list_lookup_insert_eq in Hidle by done. by specialize (Hidle eq_refl).
  - intros h j fd' w' r' f' Hh Hj Hfr. rewrite Hg in Hh. injection Hh as <-. rewrite Hon, (decide_True (P := g = g)) by done.
    rewrite Hc in Hj. apply list_lookup_insert_Some in Hj as [(<- & E & _)|[Hne Hj]].
    + injection E as <- <- <-. rewrite decide_True by done. rewrite Hf in Hfr. by injection Hfr as <-.
    + pose proof (Hw j _ Hj eq_refl). congruence.
Qed.

Lemma newly_sent_record i s b pc :
  newly_sent i s (set_caller i pc (record_sent i b s)) = b.
Proof. unfold newly_sent, sent_of. cbn. rewrite lookup_insert_eq. cbn. apply drop_app_length. Qed.

(** A step of a caller that hands nothing to the kernel. *)
Lemma wire_ok_caller n i pc s s' written received :
  wire_ok n (MkNet s written received) -> writer_ok s -> sent_ok request limits s -> length (t_callers s) = n ->
  t_callers s !! i = Some pc -> caller_step i s pc s' -> sent_of i s' = sent_of i s ->
  (forall fd, t_fds s' = t_fds s ++ [fd] -> descriptor_free fd s) -> wire_ok n (MkNet s' written received).
Proof.
  intros Hwire Hw Hsent Hn Hi Hs Hnone Hfree. pose proof (Hsent i pc Hi) as Hat.
  caller_cases Hs; unfold TryRegisterPending; try (destruct (max_inflight <=? _));
    try (eapply (wire_ok_quiet n i _ _ s _ _ _ Hwire Hi); [reflexivity|reflexivity|by cbn; auto|by intros ? ? ? [=]]);
    try (eapply (wire_ok_open n i _ _ fd s _ _ _ Hwire Hi); [reflexivity|reflexivity|reflexivity|by apply Hfree|reflexivity]).
  - by eapply (wire_ok_begin n i s _ _ written received Hwire Hw Hi).
  - exfalso. destruct Hat as (f & Hf & Hr & _). assert (f = frame) as -> by congruence.
    assert (E : newly_sent i s (set_caller i (CSending fd (written0 + sent) (written0 + sent <? len frame))
      (record_sent i (substr frame written0 sent) s)) = []) by (unfold newly_sent; rewrite Hnone; apply drop_all).
    rewrite newly_sent_record in E. apply (f_equal length) in E. unfold substr in E.
    rewrite length_take, length_drop in E. cbn in E. unfold len in *. lia.
  - eapply (wire_ok_quiet n i _ _ s _ _ _ Hwire Hi); [reflexivity|reflexivity|by cbn; auto|].
    intros ? ? ? [= <- <- <-]. by eexists.
  - by eapply (wire_ok_sent n i s _ fd written0 retrying frame written received).
Qed.

(** A step of [SendAll] on the open connection. *)
Lemma wire_ok_net_send n i g fd w retrying s s' written received :
  wire_ok n (MkNet s written received) -> writer_ok s -> sent_ok request limits s -> length (t_callers s) = n ->
  t_callers s !! i = Some (CSending fd w retrying) -> caller_step i s (CSending fd w retrying) s' -> open_as fd g s ->
  wire_ok n (MkNet s' (<[g := default [] (written !! g) ++ newly_sent i s s']> written) received).
Proof.
  intros Hwire Hw Hsent Hn Hi Hs Hg. pose proof (Hsent i _ Hi) as Hat. cbn in Hat.
  destruct (decide (sent_of i s' = sent_of i s)) as [E|Hne].
  - assert (wire_ok n (MkNet s' written received)) as [].
    { eapply (wire_ok_caller n i); try done. intros fd' Hf. exfalso. remember (CSending fd w retrying) as pc eqn:Hpc.
      apply (f_equal length) in Hf. rewrite length_app in Hf. caller_cases Hs; cbn in Hf; try lia; done. }
    assert (Hon : forall h, written_on h (MkNet s' (<[g := default [] (written !! g) ++ newly_sent i s s']> written) received) =
      written_on h (MkNet s' written received)).
    { intros h. unfold newly_sent, written_on. rewrite E, drop_all. cbn. rewrite app_nil_r.
      destruct (decide (h = g)) as [->|Hne]; [by rewrite lookup_insert_eq|by rewrite lookup_insert_ne]. }
    split; cbn [net_transport] in *; intros; rewrite Hon; eauto.
  - remember (CSending fd w retrying) as pc eqn:Hpc. destruct Hs as [Hs|Hs|Hs|Hs|Hs|Hs|Hs]; destruct Hs; try done; simplify_eq.
    destruct Hat as (f & Hf & Hr & _). assert (f = frame) as -> by congruence. rewrite newly_sent_record.
    eapply (wire_ok_send _ i s _ g fd w retrying frame sent); try done; lia.
Qed.

Lemma wire_ok_reader n g s s' pc written received received' :
  wire_ok n (MkNet s written received) -> reader_step g s pc s' -> wire_ok n (MkNet s' written received').
Proof.
  intros [] Hs. destruct (reader_step_frame g s pc s' Hs) as (Hc & Hf & _ & Hk & _). cbn in *.
  split; cbn; rewrite ?Hc, ?Hf; try done.
  - intros h Hh. destruct Hk as [Hk|Hk]; [|congruence]. rewrite Hk in Hh. by apply wo_idle0.
  - intros h i fd w r f Hh. destruct Hk as [Hk|Hk]; [|congruence]. rewrite Hk in Hh. by apply wo_sending0.
Qed.

(** *** What was received *)

Definition requests (n : nat) : list RequestEnvelope := request <$> seq 0 n.

Lemma elem_of_requests n q : q ∈ requests n <-> exists a, (a < n)%nat /\ q = request a.
Proof.
  unfold requests. rewrite list_elem_of_fmap. setoid_rewrite elem_of_seq. split.
  - intros (a & -> & Ha). exists a. split; [lia|done].
  - intros (a & Ha & ->). exists a. split; [done|lia].
Qed.

(** The response is the reply to a request of the run. *)
Definition answered (n : nat) (x : ResponseEnvelope) : Prop :=
  exists q y, q ∈ requests n /\ reply registry q y /\ x = received_response y.

Abbreviation reply_frame_of n := (reply_frame_in registry limits (requests n)).

(** [b] starts at a frame: whole replies came before it. *)
Definition at_frame (n : nat) (b received : bytes) : Prop :=
  exists before, received = concat before ++ b /\ Forall (reply_frame_of n) before.

Definition reader_ok (n : nat) (pc : reader_pc) (received : bytes) : Prop :=
  match pc with
  | RLoop b => at_frame n b received
  | RComplete _ r b => at_frame n b received /\ answered n r
  | _ => True
  end.

(** [b] is the beginning of replies to requests of the run. *)
Definition replies_part (n : nat) (b : bytes) : Prop :=
  exists frames, b `prefix_of` concat frames /\ Forall (reply_frame_of n) frames.

Record net_inv (n : nat) (m : net) : Prop := {
  ni_transport : transport_inv request limits max_inflight (net_transport m);
  ni_length : length (t_callers (net_transport m)) = n;
  ni_wire : wire_ok n m;
  ni_numbers : forall g h fd pc, t_readers (net_transport m) !! g = Some pc -> receiving pc = true ->
    t_fds (net_transport m) !! g = Some fd -> open_as fd h (net_transport m) -> h = g;
  ni_received : forall g, replies_part n (received_on g m);
  ni_reader : forall g pc, t_readers (net_transport m) !! g = Some pc -> reader_ok n pc (received_on g m);
  ni_fresh : forall g, (length (t_readers (net_transport m)) <= g)%nat -> received_on g m = [];
  ni_results : forall j x, t_results (net_transport m) !! j = Some (CallResponse x) -> answered n x;
  ni_callers : forall j x, t_callers (net_transport m) !! j = Some (CDone (CallResponse x)) -> answered n x
}.

Context (n : nat) (calls_good : calls_ok n).
Context (limits_good : limits_ok limits) (registry_good : registry_ok registry).
Context (rid_inj : forall a b, rid request a = rid request b -> a = b).

Lemma frame_of_request a frame :
  (a < n)%nat -> frame_of request limits a = Some frame -> request_frame limits (request a) frame.
Proof.
  intros Ha Hf. destruct (calls_good a Ha) as (Hid & Hs & Hm). split_and!; try done.
  unfold frame_of in Hf. rewrite EncodeRequest_spec in Hf |- * by done.
  destruct (RequestMetadata_SerializeToString _ _) as [[] m]; [|done]. case_bool_decide; cbn in Hf; [|done].
  by injection Hf as ->.
Qed.

Lemma requests_ids : Forall id_ok (requests n).
Proof. apply Forall_forall. intros q (a & Ha & ->)%elem_of_requests. by apply calls_good. Qed.

(** What was written on a connection is the beginning of request frames. *)
Lemma framed_part_frames b :
  framed_part n b -> exists sent fs, Forall2 (request_frame limits) sent fs /\ (forall q, q ∈ sent -> q ∈ requests n) /\
    b `prefix_of` concat fs /\ len (concat fs) <= len b + 2 ^ 34.
Proof.
  intros (a & frame & part & (calls & fs & Hall & ->) & Hpart).
  assert (Hf : Forall2 (request_frame limits) (request <$> calls) fs).
  { apply Forall2_fmap_l. eapply Forall2_impl; [exact Hall|]. cbn. intros x y [??]. by apply frame_of_request. }
  assert (Hin : forall q, q ∈ request <$> calls -> q ∈ requests n).
  { intros q (x & -> & Hx)%list_elem_of_fmap. apply elem_of_requests. exists x. split; [|done].
    apply list_elem_of_lookup in Hx as [k Hk]. by destruct (Forall2_lookup_l _ _ _ _ _ Hall Hk) as (? & _ & ? & _). }
  destruct Hpart as [->|(Ha & Hfr & Hp)].
  - exists (request <$> calls), fs. rewrite app_nil_r. split_and!; try done. lia.
  - pose proof (frame_of_request a frame Ha Hfr) as Hrf. pose proof (request_frame_len limits _ _ Hrf) as Hlen.
    exists ((request <$> calls) ++ [request a]), (fs ++ [frame]). split_and!.
    + apply Forall2_app; [done|]. by constructor.
    + intros q [Hq|Hq]%elem_of_app; [by apply Hin|]. apply list_elem_of_singleton in Hq as ->.
      apply elem_of_requests. eauto.
    + rewrite concat_app. cbn. rewrite app_nil_r. by apply prefix_app.
    + rewrite concat_app. cbn. rewrite app_nil_r, !len_app. pose proof (len_nonneg part). lia.
Qed.

(** What the server has sent on a connection of the run. *)
Lemma served_replies written out b :
  framed_part n written -> connection_served registry limits written out -> b `prefix_of` out -> replies_part n b.
Proof.
  intros Hw Hc Hb. destruct (framed_part_frames written Hw) as (sent & fs & Hf & Hin & Hpre & Hlen).
  assert (len written < 2 ^ 63) by (by destruct Hc as (? & ? & ? & ? & ? & _)).
  destruct (connection_frames registry limits sent fs written out limits_good registry_good Hf Hpre ltac:(lia) Hc)
    as (frames & Ho & Hall).
  exists frames. split; [by etrans|]. eapply Forall_impl; [exact Hall|]. intros f (q & Hq & Hr). exists q. auto.
Qed.

(** A decoded response is the next reply. *)
Lemma at_frame_decode b received :
  at_frame n b received -> replies_part n received -> error_ (FrameCodec_Decode limits b) = ProtoOk ->
  at_frame n (drop (Z.to_nat (consumed_ (FrameCodec_Decode limits b))) b) received /\
  forall r, response_ (FrameCodec_Decode limits b) = Some r -> answered n r.
Proof.
  intros (before & -> & Hbefore) (frames & [more Hmore] & Hall) Hok. rewrite <- app_assoc in Hmore.
  destruct (frames_aligned registry limits limits_good registry_good _ requests_ids before frames (b ++ more) Hbefore Hall (eq_sym Hmore))
    as (later & -> & Hlater). apply Forall_app in Hall as [_ Hall].
  destruct (Decode_reply registry limits limits_good registry_good _ requests_ids later b more Hall Hlater Hok)
    as (q & y & frame & Hframe & Hq & Hy & Hr & Hc & E). split.
  - exists (before ++ [frame]). rewrite Hc. unfold len. rewrite Nat2Z.id, concat_app. cbn. rewrite app_nil_r. split.
    + rewrite <- app_assoc. by rewrite <- E.
    + apply Forall_app. split; [done|]. by constructor.
  - intros r. rewrite Hr. intros [= <-]. by exists q, y.
Qed.

(** One step of a reader that received [newly_received pc pc'] on its connection. *)
Lemma reader_step_ok g pc pc' s s' received :
  reader_step g s pc s' -> t_readers s !! g = Some pc -> t_readers s' !! g = Some pc' ->
  reader_ok n pc received -> replies_part n received ->
  reader_ok n pc' (received ++ newly_received pc pc') /\
  forall j x, t_results s' !! j = Some (CallResponse x) ->
    answered n x \/ t_results s !! j = Some (CallResponse x).
Proof.
  intros Hstep Hg. pose proof (lookup_lt_Some _ _ _ Hg) as Hlt.
  reader_cases Hstep; cbn; rewrite list_lookup_insert_eq by done; intros [= <-] Hok Hpre; cbn; rewrite ?app_nil_r;
    try (split; [done|by auto]).
  - rewrite (drop_ge (drop _ buffer) (length buffer)) by (rewrite length_drop; lia). rewrite app_nil_r. split; [|by auto].
    by apply at_frame_decode.
  - split; [|by auto]. destruct (at_frame_decode buffer received Hok Hpre) as [Hat Hans]; [done|]. split; [done|auto].
  - rewrite drop_app_length. split; [|by auto]. destruct Hok as (before & -> & Hall).
    exists before. by rewrite <- app_assoc.
  - destruct Hok as [Hat Hans]. split; [done|]. intros j0 x Hx.
    apply lookup_insert_Some in Hx as [[_ [= <-]]|[_ Hx]]; auto.
  - split; [done|]. intros j0 x Hx. apply lookup_insert_Some in Hx as [[_ [=]]|[_ Hx]]; auto.
Qed.

(** A reader moves; [received'] adds what it took from its own connection. *)
Lemma net_inv_reader g pc pc' s s' written received received' :
  net_inv n (MkNet s written received) -> t_readers s !! g = Some pc -> reader_step g s pc s' ->
  t_readers s' !! g = Some pc' ->
  (forall h, received_on h (MkNet s' written received') =
     if decide (h = g) then received_on g (MkNet s written received) ++ newly_received pc pc'
     else received_on h (MkNet s written received)) ->
  replies_part n (received_on g (MkNet s written received) ++ newly_received pc pc') ->
  net_inv n (MkNet s' written received').
Proof.
  intros [] Hg Hr Hg' Hon Hpre. cbn [net_transport] in *.
  destruct (reader_step_frame g s pc s' Hr) as (Ec & Ef & _ & Hk & pc0 & Er & Hrec).
  pose proof (lookup_lt_Some _ _ _ Hg) as Hlt.
  assert (pc0 = pc') as -> by (rewrite Er, list_lookup_insert_eq in Hg' by done; congruence).
  destruct (reader_step_ok g pc pc' s s' _ Hr Hg Hg' (ni_reader0 g pc Hg) (ni_received0 g)) as [Hok Hres].
  split; cbn [net_transport].
  - eapply (transport_inv_step error_message request options limits max_inflight); [exact rid_inj|exact ni_transport0|]. by eapply tstep_reader.
  - by rewrite Ec.
  - by eapply wire_ok_reader.
  - intros h k fd q Hh Hq Hfd [Ho Hfd']. rewrite Ef in Hfd, Hfd'. destruct Hk as [Hk|Hk]; [|congruence]. rewrite Hk in Ho.
    rewrite Er in Hh. apply list_lookup_insert_Some in Hh as [(-> & <- & _)|[_ Hh]]; [|by eapply ni_numbers0].
    eapply ni_numbers0; [exact Hg|by apply Hrec|exact Hfd|by split].
  - intros h. rewrite Hon. destruct (decide (h = g)) as [->|]; [done|apply ni_received0].
  - intros h q Hh. rewrite Hon. destruct (decide (h = g)) as [->|Hne]; [by simplify_eq|].
    rewrite Er, list_lookup_insert_ne in Hh by done. by apply ni_reader0.
  - intros h Hh. rewrite Er, length_insert in Hh. rewrite Hon, decide_False by lia. by apply ni_fresh0.
  - intros j x Hj. destruct (Hres j x Hj) as [?|?]; eauto.
  - intros j x. rewrite Ec. apply ni_callers0.
Qed.

(** The connection that [open] adds, for the fields the invariant looks at. *)
Lemma caller_step_fds i s pc s' :
  caller_step i s pc s' ->
  length (t_callers s') = length (t_callers s) /\
  ((t_fds s' = t_fds s /\ t_readers s' = t_readers s /\ (t_socket s' = t_socket s \/ t_socket s' = None)) \/
   exists fd, t_fds s' = t_fds s ++ [fd] /\ t_readers s' = t_readers s ++ [RLoop []] /\
     t_socket s' = Some (length (t_fds s))).
Proof.
  intros H. caller_cases H; unfold TryRegisterPending; try case_match; cbn; rewrite length_insert; (split; [done|]);
    first [left; by auto|right; by eauto].
Qed.

(** Steps that open no connection. *)
Lemma net_step_fds m m' : net_step m m' ->
  (length (t_fds (net_transport m)) <= length (t_fds (net_transport m')))%nat.
Proof.
  assert (Hcaller : forall i s pc s', caller_step i s pc s' -> (length (t_fds s) <= length (t_fds s'))%nat).
  { intros i s pc s' H. destruct (caller_step_fds i s pc s' H) as [_ [(-> & _)|(fd & -> & _)]]; [done|].
    rewrite length_app. lia. }
  intros Hs. destruct Hs as [i pc s s' wr rc Hi Hc|i g fd w r s s' wr rc Hi Hc|g pc pc' s s' wr rc Hg Hr|g h pc pc' out s s' wr rc Hg Hr];
    cbn; eauto; by destruct (reader_step_frame g s pc s' Hr) as (_ & -> & _).
Qed.

Lemma run_same_fds m m' :
  rtc net_step m m' -> length (t_fds (net_transport m')) = length (t_fds (net_transport m)) -> rtc fresh_step m m'.
Proof.
  assert (Hmono : forall x y, rtc net_step x y -> (length (t_fds (net_transport x)) <= length (t_fds (net_transport y)))%nat).
  { induction 1 as [|x y z H _ IH]; [done|]. apply net_step_fds in H. lia. }
  induction 1 as [|m1 m2 m3 Hs Hr IH]; intros E; [constructor|].
  pose proof (net_step_fds _ _ Hs). pose proof (Hmono _ _ Hr). eapply rtc_l; [|apply IH; lia]. split; [done|].
  intros fd Hfd. apply (f_equal length) in Hfd. rewrite length_app in Hfd. cbn in Hfd. lia.
Qed.

(** A caller moves. *)
Lemma net_inv_caller i pc s s' written written' received :
  net_inv n (MkNet s written received) -> t_callers s !! i = Some pc -> caller_step i s pc s' ->
  wire_ok n (MkNet s' written' received) -> (forall fd, t_fds s' = t_fds s ++ [fd] -> descriptor_free fd s) ->
  net_inv n (MkNet s' written' received).
Proof.
  intros [] Hi Hstep Hwire Hfree. cbn [net_transport] in *.
  destruct (caller_step_fds i s pc s' Hstep) as [Hlen Hfds].
  pose proof (ti_readers _ _ _ _ ni_transport0) as (Hlr & _).
  split; cbn [net_transport]; [| |done| | | | | |].
  - eapply (transport_inv_step error_message request options limits max_inflight); [exact rid_inj|exact ni_transport0|]. by eapply tstep_caller.
  - congruence.
  - intros g h fd q Hg Hq Hfd [Ho Hfd']. destruct Hfds as [(Ef & Er & Hk)|(fd0 & Ef & Er & Hk)].
    + rewrite Er in Hg. rewrite Ef in Hfd, Hfd'. destruct Hk as [Hk|Hk]; [|congruence]. rewrite Hk in Ho.
      eapply ni_numbers0; [exact Hg|exact Hq|exact Hfd|by split].
    + rewrite Hk in Ho. injection Ho as <-. rewrite Ef, list_lookup_middle in Hfd' by done. injection Hfd' as ->.
      rewrite Er in Hg. apply lookup_snoc_Some in Hg as [[Hlt Hg]|[-> _]]; [|congruence]. exfalso.
      rewrite Ef, lookup_app_l in Hfd by congruence. destruct (Hfree fd Ef) as [Hfr _]. by rewrite (Hfr g q Hfd Hg) in Hq.
  - done.
  - intros g q Hg. destruct Hfds as [(_ & Er & _)|(_ & _ & Er & _)]; rewrite Er in Hg; [by apply (ni_reader0 g)|].
    apply lookup_snoc_Some in Hg as [[_ Hg]|[-> <-]]; [by apply (ni_reader0 g)|].
    assert (E : received_on (length (t_readers s)) (MkNet s' written' received) = []) by (by apply ni_fresh0).
    rewrite E. by exists [].
  - intros g Hg. apply ni_fresh0. destruct Hfds as [(_ & Er & _)|(_ & _ & Er & _)]; rewrite Er in Hg; [done|].
    rewrite length_app in Hg. lia.
  - intros j x Hj. eapply ni_results0. by eapply caller_step_results.
  - intros j x Hj. destruct (caller_step_done _ _ _ _ _ _ Hstep Hj) as [H|H]; eauto.
Qed.

Lemma net_inv_step m m' : net_inv n m -> fresh_step m m' -> net_inv n m'.
Proof.
  intros Hinv [Hstep Hfresh]. unfold opens_fresh in Hfresh. pose proof Hinv as [Ht Hn Hwire].
  pose proof (ti_writer _ _ _ _ Ht) as Hw. pose proof (ti_sent _ _ _ _ Ht) as Hs.
  destruct Hstep as [i pc s s' wr rc Hi Hc Hnone|i g fd w retrying s s' wr rc Hi Hc Ho|g pc pc' s s' wr rc Hg Hr Hg' Hnone|
    g h pc pc' out s s' wr rc Hg Hr Hg' Hfrom Hserved Hpre]; cbn [net_transport] in *.
  - eapply net_inv_caller; [done..| |done]. by eapply wire_ok_caller.
  - eapply net_inv_caller; [done..| |done]. by eapply wire_ok_net_send.
  - eapply (net_inv_reader g pc pc' s s'); try done; rewrite ?Hnone, ?app_nil_r.
    + intros h. destruct (decide (h = g)) as [->|]; done.
    + apply Hinv.
  - destruct (decide (newly_received pc pc' = [])) as [E|Hne].
    + eapply (net_inv_reader g pc pc' s s'); try done; rewrite ?E, ?app_nil_r; [|apply Hinv].
      intros k. unfold received_on. cbn. destruct (decide (k = h)) as [->|Hk].
      * rewrite lookup_insert_eq. cbn. by destruct (decide (h = g)) as [->|].
      * rewrite lookup_insert_ne by done. by destruct (decide (k = g)) as [->|].
    + assert (h = g) as ->.
      { destruct Hfrom as [->|(fd & Hfd & Ho)]; [done|]. eapply (ni_numbers n _ Hinv); [exact Hg| |exact Hfd|exact Ho].
        by destruct pc. }
      eapply (net_inv_reader g pc pc' s s'); try done.
      * intros k. unfold received_on. cbn. destruct (decide (k = g)) as [->|Hk]; [by rewrite lookup_insert_eq|by rewrite lookup_insert_ne].
      * eapply served_replies; [exact (wo_part n _ Hwire g)|exact Hserved|exact Hpre].
Qed.

Lemma net_inv_new : 0 <= max_inflight -> net_inv n (net_new n).
Proof.
  intros Hmax. split; cbn; try done.
  - by apply transport_inv_new.
  - apply length_replicate.
  - split; cbn; try done. intros g. apply framed_part_whole, framed_nil.
  - intros g. exists []. by split.
  - intros j x Hj. by apply lookup_replicate in Hj as [[=] _].
Qed.

(** A response that a caller gets. *)
Lemma run_replies m i x :
  0 <= max_inflight -> rtc fresh_step (net_new n) m ->
  t_callers (net_transport m) !! i = Some (CDone (CallResponse x)) ->
  reply_received registry (request i) x.
Proof.
  intros Hmax Hrun Hi.
  assert (Hinv : net_inv n m) by (apply (rtc_preserves fresh_step (net_inv n) (net_new n));
    [exact net_inv_step|exact (net_inv_new Hmax)|done]).
  destruct (ni_callers n m Hinv i x Hi) as (q & y & (a & Ha & ->)%elem_of_requests & Hy & ->).
  destruct (reply_facts registry (request a) y registry_good Hy) as [Hid _].
  destruct (proj2 (ti_sent _ _ _ _ (ni_transport n m Hinv) i _ Hi) _ eq_refl) as [Hx _].
  cbn in Hx. rewrite Hid in Hx. rewrite <- (rid_inj a i Hx). by exists y.
Qed.

(** C2: A response that a caller gets is the server's reply to the caller's own
    request: what dispatch answered, or a rejection for backpressure.  Callers and
    readers of a transport interleave in any way, requests share connections,
    connections fail and are replaced.  A connection carries the bytes that [SendAll]
    wrote on it; at its other end is a connection of a server loop, which gets a part
    of them in any pieces; workers execute batches in any order, and a part of the
    bytes sent back reaches the client in any pieces.  This holds in every run in
    which a new connection is not given the descriptor number that a reader or a
    writer of the transport still uses. *)
Theorem TcpTransport_serves m i x :
  0 <= max_inflight -> rtc fresh_step (net_new n) m ->
  t_callers (net_transport m) !! i = Some (CDone (CallResponse x)) ->
  reply_received registry (request i) x.
Proof. exact (run_replies m i x). Qed.

End network.

(** *** Runs of an echo service *)
Section NetworkRuns.
Import ExampleWire.

#[local] Notation echo_net :=
  (net_step no_message example_request example_options ProtocolLimits_default 1 echo_registry).
#[local] Notation echo_fresh :=
  (fresh_step no_message example_request example_options ProtocolLimits_default 1 echo_registry).

(** One step: a caller that sends nothing, a [send], a reader that takes nothing, a
    [recv]. *)
Tactic Notation "net_caller_moves" constr(n) "by" uconstr(part) "," uconstr(rule) :=
  eapply rtc_l; [eapply (net_caller _ _ _ _ _ _ n); [reflexivity|eapply part; eapply rule|]|].
Tactic Notation "net_sends" constr(n) "on" constr(g) "by" uconstr(rule) :=
  eapply rtc_l; [eapply (net_send _ _ _ _ _ _ n g); [reflexivity|eapply in_SendAll; eapply rule|]|].
Tactic Notation "net_reader_moves" constr(g) "by" uconstr(part) "," uconstr(rule) :=
  eapply rtc_l; [eapply (net_reader _ _ _ _ _ _ g); [reflexivity|eapply part; eapply rule|..]|].

Definition second_frame : bytes := default [] (frame_of example_request ProtocolLimits_default 1).

(** A frame can be split over two connections.  Caller 0 sends a part of its frame;
    the peer ends the connection, its reader closes the socket and exits; caller 1
    connects and is given the same descriptor number; caller 0, which took the number
    before, sends the rest of its frame at the start of the new connection. *)
Theorem TcpTransport_split_frame :
  exists m, rtc echo_net (net_new 2) m /\
    written_on 0 m = take 20 echo_frame /\ written_on 1 m = drop 20 echo_frame /\
    t_socket (net_transport m) = Some 1%nat.
Proof.
  eexists. split_and!.
  - net_caller_moves 0%nat by in_Call, (call_start _ _ _ _ _ 0 echo_frame); [vm_compute; reflexivity|reflexivity|reflexivity|].
    net_caller_moves 0%nat by in_EnsureConnected, (ensure_opens _ _ 5); [done..|].
    net_caller_moves 0%nat by in_Register, call_registers; [reflexivity|reflexivity|].
    net_caller_moves 0%nat by in_TryWrite, write_locks; [reflexivity|reflexivity|].
    net_caller_moves 0%nat by in_TryWrite, (write_begins _ _ _ _ _ 0); [reflexivity|reflexivity|vm_compute; done|reflexivity|].
    net_sends 0%nat on 0%nat by (send_some _ _ _ _ _ _ _ _ _ 20 echo_frame); [vm_compute; reflexivity|vm_compute; done|split; vm_compute; reflexivity|].
    net_reader_moves 0%nat by in_ReaderLoop, read_end; [reflexivity|reflexivity|reflexivity|].
    net_reader_moves 0%nat by in_CloseFromReader, reader_closes; [done|done|done|reflexivity|reflexivity|].
    net_reader_moves 0%nat by in_FailAllPending, reader_takes; [reflexivity|reflexivity|].
    net_reader_moves 0%nat by in_FailAllPending, reader_fails_one; [reflexivity|reflexivity|].
    net_reader_moves 0%nat by in_FailAllPending, reader_exits; [reflexivity|reflexivity|].
    net_caller_moves 1%nat by in_Call, (call_start _ _ _ _ _ 0 second_frame); [vm_compute; reflexivity|reflexivity|vm_compute; reflexivity|].
    net_caller_moves 1%nat by in_EnsureConnected, ensure_takes_reader; [done|done|done|vm_compute; reflexivity|].
    net_caller_moves 1%nat by in_EnsureConnected, ensure_joined; [reflexivity|vm_compute; reflexivity|].
    net_caller_moves 1%nat by in_EnsureConnected, (connect_opens _ _ 5); [done|done|done|done|vm_compute; reflexivity|].
    net_sends 0%nat on 1%nat by (send_some _ _ _ _ _ _ _ _ _ 32 echo_frame); [vm_compute; reflexivity|vm_compute; done|split; vm_compute; reflexivity|].
    apply rtc_refl.
  - vm_compute. reflexivity.
  - vm_compute. reflexivity.
  - reflexivity.
Qed.

Lemma example_calls : calls_ok example_request 1.
Proof. intros [|a] Ha; [done|lia]. Qed.

(** The server's end of the connection of the echo call. *)
Lemma echo_served : connection_served echo_registry ProtocolLimits_default echo_frame echo_response_frame.
Proof.
  exists example_conn_config, echo_served_done, 1, echo_loop_connection. split_and!.
  - vm_compute. reflexivity.
  - exact example_conn_config_ok.
  - done.
  - exact echo_served_done_run.
  - vm_compute. reflexivity.
  - exists []. vm_compute. reflexivity.
  - vm_compute. reflexivity.
Qed.

(** The response has been received, matched and returned. *)
Definition echo_answered : net :=
  MkNet (MkTransport (Some 0%nat) [5] (Some 0%nat) None None ∅ [CDone (CallResponse echo_response)] [RLoop []]
           {[ 0%nat := CallResponse echo_response ]} {[ 0%nat := echo_frame ]} {[ 0%nat := 1%nat ]})
    {[ 0%nat := echo_frame ]} {[ 0%nat := echo_response_frame ]}.

(** The call is connected. *)
Definition echo_connected : net :=
  MkNet (MkTransport (Some 0%nat) [5] (Some 0%nat) None None ∅ [CRegister] [RLoop []] ∅ ∅ ∅) ∅ ∅.

Lemma echo_connected_reachable : rtc echo_fresh (net_new 1) echo_connected.
Proof.
  eapply rtc_l; [split|].
  { eapply (net_caller _ _ _ _ _ _ 0%nat); [reflexivity|apply in_Call, (call_start _ _ _ _ _ 0 echo_frame)|];
      vm_compute; reflexivity. }
  { intros fd Hfd. by apply (f_equal length) in Hfd. }
  eapply rtc_l; [split|].
  { eapply (net_caller _ _ _ _ _ _ 0%nat); [reflexivity|apply in_EnsureConnected, (ensure_opens _ _ 5)|];
      done || (vm_compute; reflexivity). }
  { intros fd _. split; [done|]. by intros [|i] w r. }
  apply rtc_refl.
Qed.

Lemma echo_connected_run : rtc echo_net echo_connected echo_answered.
Proof.
  net_caller_moves 0%nat by in_Register, call_registers; [reflexivity|reflexivity|].
  net_caller_moves 0%nat by in_TryWrite, write_locks; [reflexivity|reflexivity|].
  net_caller_moves 0%nat by in_TryWrite, (write_begins _ _ _ _ _ 0); [reflexivity|reflexivity|vm_compute; done|reflexivity|].
  net_sends 0%nat on 0%nat by (send_some _ _ _ _ _ _ _ _ _ 52 echo_frame); [vm_compute; reflexivity|vm_compute; done|split; vm_compute; reflexivity|].
  net_caller_moves 0%nat by in_SendAll, (send_done _ _ _ _ _ _ _ _ _ echo_frame); [vm_compute; reflexivity|vm_compute; done|vm_compute; reflexivity|].
  eapply rtc_l.
  { eapply (net_receive _ _ _ _ _ _ 0%nat 0%nat _ _ echo_response_frame);
      [reflexivity|apply in_ReaderLoop, (read_bytes _ _ _ _ _ echo_response_frame)|reflexivity|by left|exact echo_served|];
      [reflexivity|done|vm_compute; done|exists []; vm_compute; reflexivity]. }
  net_reader_moves 0%nat by in_ReaderLoop, (read_response _ _ _ _ _ echo_response 0%nat); [vm_compute; reflexivity..|].
  net_reader_moves 0%nat by in_CompletePending, read_completes; [vm_compute; reflexivity..|].
  net_caller_moves 0%nat by in_WaitForResult, (wait_result _ _ _ _ (CallResponse echo_response)); [vm_compute; reflexivity..|].
  match goal with |- rtc _ ?x _ => assert (x = echo_answered) as -> by (vm_compute; reflexivity) end.
  apply rtc_refl.
Qed.

Lemma echo_answered_reachable : rtc echo_fresh (net_new 1) echo_answered.
Proof. etrans; [exact echo_connected_reachable|]. by apply run_same_fds; [exact echo_connected_run|]. Qed.

Lemma TcpTransport_serves_witness : reply_received echo_registry (example_request 0) echo_response.
Proof.
  apply (TcpTransport_serves no_message example_request example_options ProtocolLimits_default 1 echo_registry
    1 example_calls limits_ok_default echo_registry_ok example_rid_inj echo_answered);
    [done|exact echo_answered_reachable|reflexivity].
Defined.

End NetworkRuns.
