(* ===== verification/EndToEnd.v ===== *)
(** * A call from the client to the handler and back

    Composes the models: the typed client call and its failover loop (RpcClient,
    Routing) over the transport and the server at the other end of its connections
    (Network).

    The failover loop knows a transport by its operation [TcpTransport_Call].  The
    interface [TransportRuns] says what the operation is: a response it returns is
    the result of a call in a run of the transport model, with the limits of the
    client, over connections to a server with the given registry.  From that, and the
    theorem about such runs, a typed call that returns a value is proved to return
    what the registered method computed. *)

From stdpp Require Import sorting.
From S2P Require Import Prelude Text Status FrameHeader FrameCodec FrameStream ServiceRegistry Socket ConsulHttp Naming Consul Routing ServerConfig ServerConnection TcpTransport RpcClient ConnectionIoLoop ServedConnection ServedLoop Network.

Local Open Scope Z_scope.

(** The response [x] answers [request]: some worker dispatched it, in a world [w]. *)
Definition answers {World} (registry : ServiceRegistry World) (request : RequestEnvelope)
    (x : ResponseEnvelope) : Prop :=
  exists w w' y, ServiceRegistry_Dispatch registry w request = Some (w', y) /\ x = received_response y.

(** An OK reply is no rejection. *)
Lemma reply_received_ok {World} (registry : ServiceRegistry World) request x :
  reply_received registry request x -> Status_ok (resp_status_ x) = true -> answers registry request x.
Proof. intros (y & [w w' y0 Hd|message _] & ->) Hok; [by exists w, w', y0|done]. Qed.

(** ** The interface, and a typed call over it *)

(** A call of a run of the transport, with request [r] and options [o], returned the
    response [x].  The requests of the run are those of the client: their ids come
    from its counter. *)
Definition answered_in_run {W : Wire} {L : WireLaws W} {World} (registry : ServiceRegistry World) (limits : ProtocolLimits)
    (max_inflight : Z) (r : RequestEnvelope) (o : EffectiveCallOptions) (x : ResponseEnvelope) : Prop :=
  exists error_message request options n m i,
    calls_ok request n /\ (forall a b, rid request a = rid request b -> a = b) /\
    rtc (fresh_step error_message request options limits max_inflight registry) (net_new n) m /\
    t_callers (net_transport m) !! i = Some (CDone (CallResponse x)) /\ request i = r /\ options i = o.

Class TransportRuns {W : Wire} {L : WireLaws W} `{Transport} {World} (registry : ServiceRegistry World) (limits : ProtocolLimits)
    (max_inflight : Z) : Prop :=
  transport_runs t r o w x w' :
    TcpTransport_Call t r o w = (CallResponse x, w') -> answered_in_run registry limits max_inflight r o x.

(** Such a response is the server's reply. *)
Lemma answered_in_run_reply {W : Wire} {L : WireLaws W} {World} (registry : ServiceRegistry World) limits max_inflight r o x :
  limits_ok limits -> registry_ok registry -> 0 <= max_inflight ->
  answered_in_run registry limits max_inflight r o x -> reply_received registry r x.
Proof.
  intros Hl Hr Hm (em & request & options & n & m & i & Hcalls & Hinj & Hrun & Hi & <- & _).
  by eapply run_replies.
Qed.

(** The registered method ran when the answer is OK. *)
Lemma answers_method {World Request Response} (registry : ServiceRegistry World)
    (parse : bytes -> Z -> option Request) (serialize : Response -> option bytes)
    (func : World -> Request -> World * (Response + exn)) request x :
  registered registry (service_name_ request) (method_name_ request)
    = Some (adapt_invoke (method_invoke parse serialize func)) ->
  answers registry request x -> Status_ok (resp_status_ x) = true ->
  exists w w' q a, parse (req_payload_ request) (size_to_int (len (req_payload_ request))) = Some q /\ func w q = (w', inl a) /\
    serialize a = Some (resp_payload_ x).
Proof.
  intros Hreg (w & w' & y & Hd & ->). rewrite received_response_ok. cbn. intros Hok.
  unfold ServiceRegistry_Dispatch in Hd. unfold registered in Hreg.
  destruct (services_ registry !! _) as [methods|]; [|done]. cbn in Hreg, Hd.
  destruct (methods !! method_name_ request) as [h|]; [|done]. injection Hreg as ->.
  unfold adapt_invoke, method_invoke in Hd.
  destruct (parse (req_payload_ request) _) as [q|]; [|by injection Hd as _ <-].
  destruct (func w q) as [w1 [a|e]] eqn:Ef.
  - destruct (serialize a) as [enc|] eqn:Es; [|by injection Hd as _ <-].
    injection Hd as _ <-. cbn. by exists w, w1, q, a.
  - destruct (exn_what e); by injection Hd as _ <-.
Qed.

(** C1: A typed call that returns a value returns what the registered method computed
    for that request.  The transports of the client are runs of the transport model:
    callers and readers that share connections to a server with this registry, in any
    interleaving in which a descriptor number is not reused while it is in use.  The
    request message was serialised, the server's registry dispatched the request to
    the method of that service and name, the method was run on the same message, and
    the value of the call is its result. *)
Theorem RpcClient_Call_end_to_end {W : Wire} {L : WireLaws W} `{Transport} {World Req Resp}
    (registry : ServiceRegistry World) impl
    `{!TransportRuns registry (impl_protocol_limits_ impl) (impl_max_inflight_per_endpoint_ impl)}
    (SerializeAsString : Req -> bytes + exn) (ParseFromString : bytes -> option Resp + exn)
    (parse : bytes -> Z -> option Req) (serialize : Resp -> option bytes)
    (func : World -> Req -> World * (Resp + exn))
    now discovered last_error service method request options w r s' w' a :
  limits_ok (impl_protocol_limits_ impl) -> 0 <= impl_max_inflight_per_endpoint_ impl -> registry_ok registry ->
  registered registry service method = Some (adapt_invoke (method_invoke parse serialize func)) ->
  (forall q b, SerializeAsString q = inl b -> parse b (size_to_int (len b)) = Some q) ->
  (forall v b, serialize v = Some b -> ParseFromString b = inl (Some v)) ->
  RpcClient_Call SerializeAsString ParseFromString None impl now discovered last_error service method
    request options w = Some (r, s', w') ->
  so_value_ r = Some a ->
  exists sw sw', func sw request = (sw', inl a).
Proof.
  intros Hlim Hmax Hgood Hreg Hreq Hresp Hcall Hv. unfold RpcClient_Call in Hcall.
  destruct (SerializeAsString request) as [payload|e] eqn:Es.
  2: { destruct (StatusOr_error _) as [r0|] eqn:E; [|done]. injection Hcall as <- _ _.
       apply StatusOr_error_Some in E as [_ ->]. done. }
  cbn [RpcClient_CallPayload] in Hcall.
  destruct (Client_Call _ _ _ _ _ _ _ _ _ _) as [[[res s1] w1]|] eqn:Ec; [|done]. cbn in Hcall.
  unfold parse_response in Hcall.
  destruct (StatusOr_ok res); cbn in Hcall.
  2: { destruct (StatusOr_error _) as [r0|] eqn:E; [|done]. injection Hcall as <- _ _.
       apply StatusOr_error_Some in E as [_ ->]. done. }
  unfold StatusOr_get in Hcall. destruct (so_value_ res) as [v|] eqn:Ev; [|done]. cbn in Hcall.
  destruct (Client_Call_value _ _ _ _ _ _ _ _ _ _ _ _ _ _ Ec Ev) as (t & o & wa & wb & x & Hx & Hok & <-).
  apply (transport_runs (registry := registry)), answered_in_run_reply, reply_received_ok in Hx; [|done..].
  destruct (answers_method registry parse serialize func
    (MkRequestEnvelope (next_request_id_ (impl_state_ impl)) service method payload) x Hreg Hx Hok) as (sw & sw' & q & a' & Hq & Hf & Ha).
  cbn in Hq. rewrite (Hreq request payload Es) in Hq. injection Hq as <-.
  rewrite (Hresp a' _ Ha) in Hcall. injection Hcall as <- _ _. injection Hv as <-. eauto.
Qed.

(** What the method that a request is dispatched to did: its result, or what it
    threw. *)
Lemma Dispatch_outcome {World Request Response} (registry : ServiceRegistry World)
    (parse : bytes -> Z -> option Request) (serialize : Response -> option bytes)
    (func : World -> Request -> World * (Response + exn)) request w w' y q :
  registered registry (service_name_ request) (method_name_ request)
    = Some (adapt_invoke (method_invoke parse serialize func)) ->
  parse (req_payload_ request) (size_to_int (len (req_payload_ request))) = Some q ->
  (forall v, is_Some (serialize v)) ->
  ServiceRegistry_Dispatch registry w request = Some (w', y) ->
  exists outcome, func w q = (w', outcome) /\
    match outcome with
    | inl a => resp_status_ (received_response y) = Status_Ok /\ serialize a = Some (resp_payload_ y)
    | inr e => resp_status_ (received_response y) = user_exception e "handler threw unknown exception"
    end.
Proof.
  intros Hreg Hq Hser Hd. unfold ServiceRegistry_Dispatch in Hd. unfold registered in Hreg.
  destruct (services_ registry !! _) as [methods|]; [|done]. cbn in Hreg, Hd.
  destruct (methods !! method_name_ request) as [h|]; [|done]. injection Hreg as ->.
  unfold adapt_invoke, method_invoke in Hd. rewrite Hq in Hd.
  destruct (func w q) as [w1 outcome] eqn:Ef. exists outcome. destruct outcome as [a|e].
  - destruct (Hser a) as [b Hb]. rewrite Hb in Hd. by injection Hd as -> <-.
  - unfold user_exception. destruct (exn_what e) as [what|]; by injection Hd as -> <-.
Qed.

(** C13: While some endpoint is known, and the transports deliver each request to the
    server and its answer back, a typed call returns, and it runs the registered
    method exactly once: the state of the server after the call is the one that the
    method, run on the same message, leaves from the state before, and the result of
    the call is the value it returned, or an [Internal] status with what it threw. *)
Theorem RpcClient_Call_returns `{Transport} {World Req Resp}
    (registry : ServiceRegistry World) (server : tstate -> World)
    (SerializeAsString : Req -> bytes + exn) (ParseFromString : bytes -> option Resp + exn)
    (parse : bytes -> Z -> option Req) (serialize : Resp -> option bytes)
    (func : World -> Req -> World * (Resp + exn))
    impl now discovered last_error service method request payload options w :
  registered registry service method = Some (adapt_invoke (method_invoke parse serialize func)) ->
  SerializeAsString request = inl payload -> parse payload (size_to_int (len payload)) = Some request ->
  (forall v, exists b, serialize v = Some b /\ ParseFromString b = inl (Some v)) ->
  (forall t r o w1, exists y w2, TcpTransport_Call t r o w1 = (CallResponse (received_response y), w2) /\
     ServiceRegistry_Dispatch registry (server w1) r = Some (server w2, y)) ->
  client_wf (impl_state_ impl) -> coherent discovered (impl_state_ impl) ->
  StronglySorted Endpoint_lt (snapshot_endpoints discovered) -> snapshot_endpoints discovered <> [] ->
  len (snapshot_endpoints discovered) < 2 ^ 63 -> 0 <= call_timeout_ options ->
  exists r s' w' outcome,
    RpcClient_Call SerializeAsString ParseFromString None impl now discovered last_error service method
      request options w = Some (r, s', w') /\
    func (server w) request = (server w', outcome) /\
    r = match outcome with
        | inl a => StatusOr_value a
        | inr e => MkStatusOr (user_exception e "handler threw unknown exception") None
        end.
Proof.
  intros Hreg Hs Hp Hser Hans Hwf Hco Hsort Hne Hlen Hto. unfold RpcClient_Call, RpcClient_CallPayload. rewrite Hs.
  unfold Client_Call, ValidateCallOptions. rewrite (proj2 (Z.ltb_ge _ _)) by done. cbn [negb Status_ok].
  change (Status_ok Status_Ok) with true. cbn [negb]. set (req := MkRequestEnvelope _ service method payload).
  set (s1 := MkClientState _ _ _ _). set (o := ResolveCallOptions _ _ _).
  destruct (CallWithFailover_answered discovered last_error req o s1 w Hwf Hco Hsort Hne Hlen)
    as (t & x & w' & s' & tried & Hx & ->). 1: { intros t w1. destruct (Hans t req o w1) as (y & w2 & ? & _). eauto. }
  cbn [mbind option_bind].
  destruct (Hans t req o w) as (y & w2 & E & Hd). rewrite Hx in E. injection E as -> <-.
  destruct (Dispatch_outcome registry parse serialize func req (server w) (server w') y request Hreg Hp) as (outcome & Hf & Hout);
    [intros v; destruct (Hser v) as (b & ? & _); eauto|done|].
  destruct outcome as [a|e].
  - destruct Hout as [-> Ha]. destruct (Hser a) as (b & Hb & Hparse). rewrite Ha in Hb. injection Hb as <-.
    change (Status_ok Status_Ok) with true. cbn [negb mbind option_bind]. unfold parse_response.
    change (StatusOr_ok (StatusOr_value (resp_payload_ (received_response y)))) with true. cbn [negb mbind option_bind].
    unfold StatusOr_get. cbn. rewrite Hparse. cbn. do 4 eexists. split_and!; [done|exact Hf|done].
  - rewrite Hout. unfold user_exception. destruct (exn_what e) eqn:Ee; cbn; do 4 eexists; (split_and!; [done|exact Hf|]);
      cbn; unfold user_exception; by rewrite Ee.
Qed.

(** *** Witnesses: an echo service *)
Section EndToEndWitnesses.
Import ExampleWire.

Lemma echo_registered :
  registered echo_registry (bs "EchoService") (bs "Echo") =
  Some (adapt_invoke (method_invoke (fun b _ => Some b) Some echo)).
Proof. reflexivity. Qed.

#[local] Instance RequestEnvelope_eq_dec : EqDecision RequestEnvelope.
Proof. solve_decision. Defined.
#[local] Instance EffectiveCallOptions_eq_dec : EqDecision EffectiveCallOptions.
Proof. solve_decision. Defined.

(** A transport that answers the request of the run [echo_answered] and fails for
    every other one. *)
Definition echo_transport : Transport := {|
  tstate := unit;
  TcpTransport_Call := fun t r o w =>
    if bool_decide (r = example_request 0 /\ o = example_options 0)
    then (CallResponse echo_response, w) else (MakeCallFailure (status Unavailable "down") NotSent, w);
  committed := fun _ _ => 0
|}.

(** The client whose next request is the one of that run. *)
Definition echo_client : ClientImpl :=
  MkClientImpl ProtocolLimits_default 0 1 (StaticDiscovery [endpoint_a]) (MkClientState None 0 7 0).

Lemma echo_transport_runs :
  @TransportRuns wire _ echo_transport unit echo_registry (impl_protocol_limits_ echo_client)
    (impl_max_inflight_per_endpoint_ echo_client).
Proof.
  intros t r o w x w'. cbn. case_bool_decide as E; [|done]. destruct E as [-> ->]. intros [= <- _].
  exists no_message, example_request, example_options, 1%nat, echo_answered, 0%nat.
  split_and!; [exact example_calls|exact example_rid_inj|exact echo_answered_reachable|reflexivity..].
Qed.

Lemma RpcClient_Call_end_to_end_witness : exists sw sw', echo sw (bs "hello") = (sw', inl (bs "hello")).
Proof.
  eapply (@RpcClient_Call_end_to_end wire _ echo_transport unit bytes bytes echo_registry echo_client echo_transport_runs
    inl (fun b => inl (Some b)) (fun b _ => Some b) Some echo 0 example_d1 [] (bs "EchoService") (bs "Echo")
    (bs "hello") (MkCallOptions 0 []) tt);
    [exact limits_ok_default|simpl; lia|exact echo_registry_ok|reflexivity|intros q b [= ->]; reflexivity
    |intros v b [= ->]; reflexivity|vm_compute; reflexivity|reflexivity].
Defined.

(** An echo service that counts its calls. *)
Definition counting_echo (calls : Z) (q : bytes) : Z * (bytes + exn) := (calls + 1, inl q).
Definition counting_registry : ServiceRegistry Z :=
  fst (ServiceRegistry_Register ServiceRegistry_new (bs "EchoService") (bs "Echo")
    (adapt_invoke (method_invoke (fun b _ => Some b) Some counting_echo))).

(** A transport that hands each request to the registry; its state is the server's. *)
Definition counting_transport : Transport := {|
  tstate := Z;
  TcpTransport_Call := fun t r _ w =>
    match ServiceRegistry_Dispatch counting_registry w r with
    | Some (w', y) => (CallResponse (received_response y), w')
    | None => (MakeCallFailure (status Unavailable "down") MaybeSent, w)
    end;
  committed := fun _ _ => 0
|}.

Lemma counting_transport_answers t r o w :
  exists y w2, @TcpTransport_Call counting_transport t r o w = (CallResponse (received_response y), w2) /\
    ServiceRegistry_Dispatch counting_registry w r = Some (w2, y).
Proof.
  enough (is_Some (ServiceRegistry_Dispatch counting_registry w r)) as [[w1 y] Hd].
  { exists y, w1. split; [|done]. cbn. by rewrite Hd. }
  unfold ServiceRegistry_Dispatch. destruct (services_ counting_registry !! service_name_ r) as [ms|] eqn:Em; [|eauto].
  destruct (ms !! method_name_ r) as [h|] eqn:Eh; [|eauto].
  assert (Hh : registered counting_registry (service_name_ r) (method_name_ r) = Some h)
    by (unfold registered; rewrite Em; exact Eh).
  unfold counting_registry in Hh. rewrite registered_Register in Hh. case_bool_decide.
  - injection Hh as <-. cbn. eauto.
  - unfold registered, ServiceRegistry_new in Hh. cbn in Hh. rewrite lookup_empty in Hh. done.
Qed.

(** The state of the server goes from 0 to 1. *)
Lemma RpcClient_Call_returns_witness :
  exists r s' w' outcome,
    @RpcClient_Call counting_transport bytes bytes inl (fun b => inl (Some b)) None echo_client 0 example_d1 []
      (bs "EchoService") (bs "Echo") (bs "hi") (MkCallOptions 0 []) 0 = Some (r, s', w') /\
    counting_echo 0 (bs "hi") = (w', outcome) /\
    r = match outcome with
        | inl a => StatusOr_value a
        | inr e => MkStatusOr (user_exception e "handler threw unknown exception") None
        end.
Proof.
  apply (@RpcClient_Call_returns counting_transport Z bytes bytes counting_registry (fun w => w)
    inl (fun b => inl (Some b)) (fun b _ => Some b) Some counting_echo echo_client 0 example_d1 []
    (bs "EchoService") (bs "Echo") (bs "hi") (bs "hi") (MkCallOptions 0 []) 0).
  - reflexivity.
  - reflexivity.
  - reflexivity.
  - intros v. exists v. split; reflexivity.
  - exact counting_transport_answers.
  - intros r [=].
  - intros r [=].
  - exact example_sorted1.
  - discriminate.
  - reflexivity.
  - simpl. lia.
Defined.

End EndToEndWitnesses.
